(* ===== verification/_CoqProject ===== *)
-Q . S2P
Prelude.v
Bytes.v
Json.v
Wal.v
WalJson.v
WalRecovery.v
WalOps.v
WalSpec.v
WalInstall.v
RaftTypes.v
RaftCore.v
RaftLog.v
RaftInvariant.v
RaftElection.v
RaftActions.v
RaftAppend.v
RaftProperties.v
Replication.v
ReplicationSteps.v
ReplicationMoves.v
Session.v
SessionProps.v
Runtime.v
RuntimeTermination.v
RuntimeActions.v
Durability.v
LogStore.v
RaftReplication.v
RaftChanges.v
RaftReads.v
Promises.v
Cluster.v
ReplicatedCluster.v
ClusterReads.v
MemoryStore.v
ReplicationProps.v
WalStore.v
WalLogStore.v
ClusterProps.v
Linearizability.v
Coordinator.v
CoordinatorProps.v
Float.v
Flags.v
Config.v
Paths.v
ConfigLoad.v
Peer.v
SnapshotJson.v
SnapshotFile.v
SnapshotProps.v
Transport.v
Metrics.v
NodeLoop.v
NodeLoopProps.v
NodeLoopInvariants.v
Timers.v
NodeLoopHistory.v
Service.v
ServiceProps.v
NodeRun.v
NodeRunProps.v
Acknowledged.v
System.v
SystemReads.v
SystemProps.v
Mail.v
SnapshotTransfer.v
SnapshotDelivery.v
Client.v
Cli.v
Simulation.v
Randomized.v
RandomizedProps.v
Commands.v
Bench.v
BenchRun.v
