(* ===== verification/Prelude.v ===== *)
(** A verification of Ternion, a replicated Key-Value store of exactly three Nodes built on Raft.

    * The program

    A Node is one process.  Its consensus core ([internal/raft/raft.go]) is a deterministic machine:
    it takes an event and returns actions.  The durable runtime ([internal/node/raft_runtime.go])
    feeds it events and executes its persistence actions on the write-ahead log
    ([internal/wal/wal.go]) before it releases the actions that depend on them.  One goroutine, the Raft
    loop ([internal/node/runtime_loop.go]), owns the runtime, the command coordinator
    ([command_coordinator.go]), the session machine ([session.go]) and the Snapshots
    ([node/snapshot.go], [internal/snapshot/snapshot.go]); it takes its inputs from the peers
    ([peer.go]), the timers and the handlers of the Client service ([set.go], [get.go], [delete.go],
    [session.go]).  Clients use the library ([client/client.go]) or the command line ([internal/cli/cli.go]).
    Two simulations ([internal/simulation]) and a linearizability checker ([internal/linearizability]) test the whole,
    and [cmd/ternionbench] measures it.  [Node.Run] ([node.go]) starts the loop and the servers and takes them down again;
    the commands of [cmd] read flags and a configuration file ([internal/config]) and start it all.

    * The files, and what they model

    Shared.  [Prelude]: machine integers, slices, record update, the monads and their calculi, the proof
    automation.  [Bytes], [Json]: big-endian integers, CRC-32, the JSON of numbers and strings.

    Write-ahead log.  [Wal] has the segments as bytes, with the length that was synced and the length that the
    process found when it opened the log, and every operation of [wal.go]; [WalJson] the checkpoint text; [WalRecovery] what
    the end of a process leaves ([dies]: when it is killed, the bytes it had found or synced and some of what it was writing;
    after a power failure, the synced bytes and some of the others, the header of a new segment possibly not among them) and that replay reconstructs the state; [WalOps] each operation against the abstract durable
    state; [WalSpec] the theorems; [WalInstall] that the installation of a Snapshot position succeeds.

    Consensus.  [RaftTypes] and [RaftCore] have the receiver [Node] as a record and one definition per
    method, as computations over that record which may panic.  [RaftLog] and [RaftInvariant] prove the well-formedness
    invariant [wf]; [RaftElection] refines an abstract election machine; [RaftActions] and [RaftAppend] say which
    actions are emitted and that a Leader only appends; [RaftProperties] states the results.

    Replication.  [Replication], [ReplicationSteps] and [ReplicationMoves] argue about the log without code: a
    [history] of elections, ballots, acknowledgements and Leaders' logs, what it promises about disks and
    messages, and the moves that keep it.  [LogStore] extends the store contract to the whole disk and
    reduces the action loop of the runtime to it; [RaftReplication] and [RaftChanges] show what one event
    can make each handler of the core do to the replicated state; [Promises] joins the two; [ReplicatedCluster] has the
    executions and the invariant; [RaftReads] and [ClusterReads] what a confirmed read knows about the log;
    [MemoryStore] a store in memory and scripts of executions; [ReplicationProps] the results.

    Replicated state.  [Session] and [SessionProps]: sessions, values, capture and restoration.

    Durability.  [Runtime] is the runtime over any [DurableStore]; [RuntimeTermination] and [RuntimeActions] are
    about its action loop; [Durability] states the laws a store owes it ([DurableLaws]); [Cluster] has the step relation of
    a cluster of processes that crash and restart; [WalStore] and [WalLogStore] discharge the laws for the write-ahead
    log; [ClusterProps] states the results.

    Node process.  [Coordinator], [CoordinatorProps]: waiting requests and their answers.  [Config], [Paths], [ConfigLoad]:
    configuration, lexical file paths, and the loading of a file once its YAML is decoded.  [Peer], [Transport]: the peer protocol and its sending side.  [SnapshotJson], [SnapshotFile],
    [SnapshotProps]: Snapshot files.  [Metrics]: the counters.  [NodeLoop]: the record [nodeProcess], the opening of a process and one
    [round] of the loop per ready [select] case; [NodeLoopProps], [NodeLoopInvariants] and [NodeLoopHistory] prove
    what holds after any history of rounds.  [Timers]: the same loop with a clock and the durations of its timers.
    [SnapshotTransfer]: the chunks of a Snapshot and what [receiveSnapshot] does with them; [Mail] and [SnapshotDelivery]: the
    rounds of a Leader and a Follower that transfer one.  [NodeRun], [NodeRunProps]: the life of [Node.Run] as steps of
    its goroutines, servers, listeners and resources, from opening to the last release.

    The system.  [System] composes whole Nodes on write-ahead logs, their messages and their Clients' requests, and shows
    that they refine the cluster of [ReplicatedCluster], recording who asked for what; [SystemReads] follows the reads of
    Clients through it; [SystemProps] states the results.

    Clients.  [Service], [ServiceProps]: the handlers.  [Acknowledged]: what an acknowledgment means.  [Client],
    [Cli]: the library and the command line.  [Flags]: the flag package, with its integers and durations.  [Commands]:
    the entry points of [ternion], [ternionctl] and [ternionsim].

    Tools.  [Linearizability]; [Simulation]; [Randomized], [RandomizedProps]; [Float], [Bench], [BenchRun]: floating-point
    numbers, the concurrent workload, and the measurement and report around it.

    * How the code is represented

    A [uint64] is an [N] with its wrap-around written out; an [int] or [int64] that cannot overflow is a [Z] or a [nat].
    Go maps are [gmap], slices are lists; an out-of-range access is a panic, a missing result of
    the monad [M].  Code that returns errors is in [result] or, with state, in [EM].  Where Go visits a map in an
    unspecified order, either the result does not depend on it or the order is fixed and said so.  A
    channel on which a request waits is a number, and each send on it an event of a list.  Third-party
    code is a parameter: gRPC answers, random bytes and numbers, the measured time, contexts, the YAML decoder.

    * What the theorems show

    The system, from the Client to the bytes on disk: the machines of all Nodes agree, entry by entry; what a Leader
    has acknowledged is in the log of every Node that has applied as much, for ever, and took effect there; a read answered by a
    Leader returns what the log says at a position that covers every command acknowledged before the read was asked for; every
    command in a machine was asked for by a Client, with the content the Client gave it; Node processes refine the
    cluster of runtimes.
    Safety of the cluster: State Machine Safety, Leader Completeness and Log Matching; at most one Leader per term
    under crashes, restarts and any network, for any store with the laws; a vote that was sent is on disk; a Leader's log only
    grows; replication requests stay within 1 MiB and 4 KiB; the core never panics on events whose obligations hold.
    The theorems about the replicated log, and those about the system, are about executions without Snapshots in which
    every log fits one AppendEntries request; [room] is that bound, and [ReplicationProps.oversized_logs_diverge] shows that
    they fail without it.  On write-ahead logs, a process may be killed at any point; the power fails under it
    only when all that it found on opening is synced, because [WalSpec.recovered_vote_is_not_durable] shows what happens
    otherwise; and a Node whose new segment lost its header does not start again
    ([WalSpec.interrupted_segment_creation_prevents_recovery]).
    Durability: each operation of the log refines its specification, is atomic when the process ends and is recovered;
    Snapshot files are installed atomically, read back, and chosen correctly; damage is detected.
    The replicated state: the values are those that the accepted mutations leave, in order, each Session's in the order
    of its sequence numbers and each number once; retries are answered as the
    original was; Snapshot plus suffix equals the full log, and so does the machine of every running process.
    Clients: every request is answered at most once and none is forgotten; an acknowledged command took effect as long as
    the Node still leads; handlers let only recordable commands through; the library finds the Leader.
    Progress: the action loop and the simulations terminate, Snapshot requests are answered, a Snapshot
    transfer between a Leader and a Follower that is behind completes, Followers keep their election timer; on a clock, a Leader is due for a heartbeat within 100 ms and an
    election timer fires between half a second and a second after it is set; a Node without a metrics
    endpoint that has begun to leave ends, in every fair execution, and what [Node.Run] opened is closed when it returns.
    Configuration: exactly the valid configurations are accepted; a relative data directory is resolved from
    the directory of the file it was read from.
    Tools: the checker decides linearizability of histories in which every Delete returned, and accepts only linearizable ones; the reference model of the fault simulation is the
    session machine; the controlled election succeeds for every seed; a benchmark performs every operation once and
    reports all of them; the words typed on the command line reach the command unchanged.

    Some theorems exhibit executions in which the code does not do what it means to:
    [ReplicationProps.oversized_logs_diverge], [ReplicationProps.reused_read_ids_are_stale],
    [WalSpec.compaction_after_truncation_prevents_recovery], [WalSpec.compaction_resurrects_truncated_entries],
    [WalSpec.interrupted_segment_creation_prevents_recovery], [WalSpec.recovered_vote_is_not_durable],
    [Acknowledged.replaced_leader_acknowledges_lost_command], [Linearizability.lost_delete_response_is_misreported],
    [NodeLoopInvariants.deposed_leader_is_left_without_election_timer],
    [NodeRunProps.metrics_request_delays_shutdown], [NodeRunProps.unreceived_errors_block_shutdown],
    [SnapshotTransfer.repeated_transfer_loses_applied_entries], [SnapshotTransfer.late_transfer_stops_the_node].

    * Fuel and bounds

    The action loop of the runtime takes fuel: running out stands for a process that dies there, which
    is what the cluster theorems quantify over, and [runtime_step_terminates] shows that some fuel is always enough.  The recovery
    of the log and the checker recurse with fuel computed from their input; their theorems need no bound.  The
    terms of a duration are read with as much fuel as its text is long ([Flags.readTerms_fuel]).  The
    Client's loop has the bound of the code, 128 attempts.  [process] of the controlled simulation needs 30
    deliveries for the first election; the schedule of the fault simulation needs as many rounds as steps
    are asked for.  Percentile ranks are compared with the exact ones for up to 512 samples, by evaluation.
    Indices, terms and sequence numbers are assumed below 2^64 where a statement says so.

    * Not modelled

    File operations that fail for other reasons than a power loss in the write-ahead log (Snapshot files do have every
    failure); directory entries lost because a directory was not synced; the YAML decoder, gRPC and HTTP themselves, which are
    libraries: their listeners and servers appear as steps of [NodeRun], their calls as parameters; TLS and dialling; the delivery
    of signals; the seed of the election timer's random source, as the numbers drawn are arbitrary; the
    generated protocol-buffer code beyond its message types; the texts of errors and traces.  Snapshots are
    modelled for the single Node and for a transfer between two; the theorems about the replicated log and the whole
    system leave them out, because the executions above in which truncated entries come back or applied ones are
    rolled back contradict them.  [LoadNewest] and [Encoded] match file names; [filepath.Glob] also interprets
    metacharacters in the path of the data directory, which is left out. *)

From Stdlib Require Export Init.Byte.
From Stdlib Require Export Lia ZifyBool ZifyN ZifyNat.
From stdpp Require Export sorting.
From stdpp Require Export base numbers list_basics list_relations list_monad list_misc
  list_tactics list_numbers list gmap sets strings.

(** ** Machine integers *)

Declare Scope go_scope.
Delimit Scope go_scope with go.
#[global] Open Scope N_scope.

(** [uint64] arithmetic keeps the low 64 bits. *)
Definition max_u64 : N := 18446744073709551615.
Definition two64 : N := 18446744073709551616.
Definition u64 (x : N) : N := x mod two64.
Definition u64_sub (a b : N) : N := u64 (a + two64 - u64 b).

Notation "a +! b" := (u64 (a + b)) (at level 50, left associativity) : go_scope.
Notation "a -! b" := (u64_sub a b) (at level 50, left associativity) : go_scope.
#[global] Open Scope go_scope.

(** ** Slices

    Indexing outside a slice panics, which the models render as [None].  The
    upper bound of a slice expression is the length: Go accepts any bound up to
    the capacity, and the invariants show that the code stays below the length. *)

Definition len {A} (l : list A) : N := N.of_nat (length l).

Definition at_index {A} (l : list A) (i : N) : option A :=
  if i <? len l then l !! N.to_nat i else None.

Definition slice_from {A} (l : list A) (i : N) : option (list A) :=
  if i <=? len l then Some (drop (N.to_nat i) l) else None.

Definition slice_to {A} (l : list A) (i : N) : option (list A) :=
  if i <=? len l then Some (take (N.to_nat i) l) else None.

Definition slice {A} (l : list A) (i j : N) : option (list A) :=
  if (i <=? j) && (j <=? len l)
  then Some (take (N.to_nat (j - i)) (drop (N.to_nat i) l)) else None.

(** ** Bytes *)

Definition byte_to_N (b : byte) : N := Byte.to_N b.

Definition byte_of_N (x : N) : byte :=
  match Byte.of_N (x mod 256) with Some b => b | None => x00 end.

#[export] Instance byte_eq_dec : EqDecision byte.
Proof. intros a b. apply Byte.byte_eq_dec. Defined.

#[export] Instance byte_countable : Countable byte.
Proof.
  refine (inj_countable Byte.to_N Byte.of_N _). intros b. apply Byte.of_to_N.
Defined.

Definition byte_ltb (a b : byte) : bool := byte_to_N a <? byte_to_N b.

(** ** Record update

    [r <| f := v |>] is [r] with field [f] replaced.  A record type opts in with
    an [Eta] instance, the identity written with the constructor; the setter of
    a field is found by abstracting that field from it. *)

Class Eta (R : Type) := eta_expand : R -> R.

Class Setter {R T : Type} (field : R -> T) := set_with : (T -> T) -> R -> R.
Arguments set_with {R T} field {_} _ _.

Ltac derive_setter field :=
  match type of field with
  | ?R -> _ =>
      let e := constr:(@eta_expand R _) in
      let body := eval hnf in e in
      match eval pattern field in body with
      | ?abstracted _ => exact (fun g => abstracted (fun r => g (field r)))
      end
  end.

#[export] Hint Extern 1 (Setter ?field) => derive_setter field : typeclass_instances.

Notation "r <| f := v |>" := (set_with f (fun _ => v) r)
  (at level 1, left associativity, f at next level, v at level 200,
   format "r  <| f  :=  v |>") : go_scope.
Notation "r <| f ::= g |>" := (set_with f g r)
  (at level 1, left associativity, f at next level, g at level 200,
   format "r  <| f  ::=  g |>") : go_scope.

(** ** State with panics

    A method that may mutate its receiver [S] and may panic. *)

Definition M (S A : Type) : Type := S -> option (A * S).

Definition ret {S A} (a : A) : M S A := fun s => Some (a, s).
Definition bind {S A B} (m : M S A) (k : A -> M S B) : M S B :=
  fun s => match m s with Some (a, s') => k a s' | None => None end.
Definition get {S} : M S S := fun s => Some (s, s).
Definition modify {S} (f : S -> S) : M S unit := fun s => Some (tt, f s).
Definition lift {S A} (o : option A) : M S A :=
  fun s => match o with Some a => Some (a, s) | None => None end.

Notation "'let!' x := m 'in' k" := (bind m (fun x => k))
  (at level 10, x pattern, m at level 100, k at level 200,
   format "'[v' 'let!'  x  :=  m  'in' '//' k ']'") : go_scope.
Notation "'do!' m 'in' k" := (bind m (fun _ => k))
  (at level 10, m at level 100, k at level 200,
   format "'[v' 'do!'  m  'in' '//' k ']'") : go_scope.

(** ** Errors

    A Go function that returns [(A, error)]; one that also mutates its receiver
    keeps the mutations made before the error. *)

Inductive result (E A : Type) := Ok (a : A) | Err (e : E).
Arguments Ok {E A} a.
Arguments Err {E A} e.

Definition rbind {E A B} (m : result E A) (k : A -> result E B) : result E B :=
  match m with Ok a => k a | Err e => Err e end.

Notation "'let?' x := m 'in' k" := (rbind m (fun x => k))
  (at level 10, x pattern, m at level 100, k at level 200,
   format "'[v' 'let?'  x  :=  m  'in' '//' k ']'") : go_scope.

(** [if b then return e]. *)
Definition guard {E} (b : bool) (e : E) : result E unit := if b then Err e else Ok tt.
Notation "'fail?' b 'with' e 'in' k" := (rbind (guard b e) (fun _ => k))
  (at level 10, b at level 100, e at level 100, k at level 200,
   format "'[v' 'fail?'  b  'with'  e  'in' '//' k ']'") : go_scope.

Fixpoint rfold {E A B} (f : B -> A -> result E A) (l : list B) (a : A) : result E A :=
  match l with
  | [] => Ok a
  | x :: l => rbind (f x a) (rfold f l)
  end.

Definition EM (S E A : Type) : Type := S -> result E A * S.

Definition eret {S E A} (a : A) : EM S E A := fun s => (Ok a, s).
Definition ebind {S E A B} (m : EM S E A) (k : A -> EM S E B) : EM S E B :=
  fun s => match m s with (Ok a, s') => k a s' | (Err e, s') => (Err e, s') end.
Definition eget {S E} : EM S E S := fun s => (Ok s, s).
Definition emodify {S E} (f : S -> S) : EM S E unit := fun s => (Ok tt, f s).
Definition elift {S E A} (r : result E A) : EM S E A := fun s => (r, s).

Notation "'let+' x := m 'in' k" := (ebind m (fun x => k))
  (at level 10, x pattern, m at level 100, k at level 200,
   format "'[v' 'let+'  x  :=  m  'in' '//' k ']'") : go_scope.
Notation "'do+' m 'in' k" := (ebind m (fun _ => k))
  (at level 10, m at level 100, k at level 200,
   format "'[v' 'do+'  m  'in' '//' k ']'") : go_scope.

Fixpoint efor {S E A} (body : A -> EM S E unit) (l : list A) : EM S E unit :=
  match l with
  | [] => eret tt
  | x :: l => do+ body x in efor body l
  end.

(** [for x in l { acc = append(acc, body(x)...) }]. *)
Fixpoint collect {S A B} (body : A -> M S (list B)) (l : list A) : M S (list B) :=
  match l with
  | [] => ret []
  | x :: rest =>
      let! first := body x in
      let! others := collect body rest in
      ret (first ++ others)
  end.

(** The weakest precondition of a method: it does not panic, and its result and
    final receiver satisfy [Q]. *)
Definition wp {S A} (m : M S A) (Q : A -> S -> Prop) (s : S) : Prop :=
  match m s with Some (a, s') => Q a s' | None => False end.

(** The weakest liberal precondition: a panic stops the process and promises
    nothing, which is what clients that treat it as a crash need. *)
Definition wlp {S A} (m : M S A) (Q : A -> S -> Prop) (s : S) : Prop :=
  match m s with Some (a, s') => Q a s' | None => True end.

(** Fallible stateful code: [Q] of a result and [R] of an error, with the state reached. *)
Definition ewp {S E A} (m : EM S E A) (Q : A -> S -> Prop) (R : E -> S -> Prop) (s : S) : Prop :=
  match m s with (Ok a, s') => Q a s' | (Err e, s') => R e s' end.

#[global] Arguments u64 : simpl never.
#[global] Arguments u64_sub : simpl never.
#[global] Arguments len : simpl never.
#[global] Arguments at_index : simpl never.

(** [l] is a run of entries numbered from [first]. *)
Fixpoint numbered {A} (index : A -> N) (first : N) (l : list A) : Prop :=
  match l with
  | [] => True
  | x :: rest => index x = first /\ numbered index (first + 1) rest
  end.

(** ** Machine-integer lemmas *)

Lemma u64_small x : x < two64 -> u64 x = x.
Proof. unfold u64. apply N.mod_small. Qed.

Lemma u64_lt x : u64 x < two64.
Proof. apply N.mod_lt. done. Qed.

Lemma u64_sub_small a b : b <= a -> a < two64 -> a -! b = a - b.
Proof.
  intros Hle Hlt. unfold u64_sub. rewrite (u64_small b) by lia.
  unfold u64. replace (a + two64 - b) with ((a - b) + 1 * two64) by lia.
  rewrite N.Div0.mod_add. apply N.mod_small. lia.
Qed.

(** ** Slice lemmas *)

Lemma at_index_lookup {A} (l : list A) i : at_index l i = l !! N.to_nat i.
Proof.
  unfold at_index, len. destruct (N.ltb_spec i (N.of_nat (length l))); [done|].
  symmetry. apply lookup_ge_None. lia.
Qed.

Lemma slice_to_some {A} (l : list A) i :
  i <= len l -> slice_to l i = Some (take (N.to_nat i) l).
Proof. unfold slice_to. intros H. by rewrite (proj2 (N.leb_le _ _) H). Qed.

Lemma slice_from_some {A} (l : list A) i :
  i <= len l -> slice_from l i = Some (drop (N.to_nat i) l).
Proof. unfold slice_from. intros H. by rewrite (proj2 (N.leb_le _ _) H). Qed.

Lemma slice_some {A} (l : list A) i j :
  i <= j -> j <= len l -> slice l i j = Some (take (N.to_nat (j - i)) (drop (N.to_nat i) l)).
Proof. unfold slice. intros. by rewrite (proj2 (N.leb_le i j)), (proj2 (N.leb_le j _)). Qed.

Lemma len_app {A} (l1 l2 : list A) : len (l1 ++ l2) = len l1 + len l2.
Proof. unfold len. rewrite length_app. lia. Qed.

Lemma len_nil {A} : len (@nil A) = 0.
Proof. done. Qed.

Lemma len_cons {A} (x : A) l : len (x :: l) = 1 + len l.
Proof. unfold len. cbn [length]. lia. Qed.

Lemma len_map {A B} (f : A -> B) l : len (map f l) = len l.
Proof. unfold len. by rewrite length_map. Qed.

Lemma len_take {A} i (l : list A) : len (take (N.to_nat i) l) = N.min i (len l).
Proof. unfold len. rewrite length_take. lia. Qed.

Lemma len_drop {A} i (l : list A) : len (drop (N.to_nat i) l) = len l - i.
Proof. unfold len. rewrite length_drop. lia. Qed.

(** ** Numbered runs *)

Lemma numbered_app {A} (index : A -> N) first l1 l2 :
  numbered index first (l1 ++ l2) <->
  numbered index first l1 /\ numbered index (first + len l1) l2.
Proof.
  revert first. induction l1 as [|x l1 IH]; intros first; cbn [numbered app].
  - rewrite len_nil, N.add_0_r. tauto.
  - rewrite IH, len_cons. replace (first + 1 + len l1) with (first + (1 + len l1)) by lia. tauto.
Qed.

Lemma numbered_lookup {A} (index : A -> N) first l i x :
  numbered index first l -> l !! i = Some x -> index x = first + N.of_nat i.
Proof.
  revert first i. induction l as [|y l IH]; intros first i Hn Hl; [done|].
  destruct Hn as [Hy Hn]. destruct i as [|i]; cbn in Hl.
  - simplify_eq. lia.
  - rewrite (IH _ _ Hn Hl). lia.
Qed.

Lemma numbered_take {A} (index : A -> N) first l k :
  numbered index first l -> numbered index first (take k l).
Proof. rewrite <- (take_drop k l) at 1. by intros [? _]%numbered_app. Qed.

Lemma numbered_drop {A} (index : A -> N) first l k :
  numbered index first l -> (k <= length l)%nat ->
  numbered index (first + N.of_nat k) (drop k l).
Proof.
  rewrite <- (take_drop k l) at 1. intros [_ H]%numbered_app Hk.
  unfold len in H. rewrite length_take, Nat.min_l in H by done. done.
Qed.

Lemma numbered_last {A} (index : A -> N) first l x :
  numbered index first l -> list.last l = Some x -> index x + 1 = first + len l.
Proof.
  intros Hn Hl. rewrite last_lookup in Hl.
  rewrite (numbered_lookup _ _ _ _ _ Hn Hl). apply lookup_lt_Some in Hl. unfold len. lia.
Qed.

(** ** Weakest-precondition rules *)

Section WP.
Context {S : Type}.

Lemma wp_ret {A} (a : A) (Q : A -> S -> Prop) s : Q a s -> wp (ret a) Q s.
Proof. done. Qed.

Lemma wp_bind {A B} (m : M S A) (k : A -> M S B) (Q : B -> S -> Prop) s :
  wp m (fun a s' => wp (k a) Q s') s -> wp (bind m k) Q s.
Proof. unfold wp, bind. destruct (m s) as [[a s']|]; done. Qed.

Lemma wp_assoc {A B C} (m : M S A) (k : A -> M S B) (k' : B -> M S C) (Q : C -> S -> Prop) s :
  wp (bind (bind m k) k') Q s -> wp (bind m (fun a => bind (k a) k')) Q s.
Proof. unfold wp, bind. by destruct (m s) as [[a s']|]. Qed.

Lemma wp_get (Q : S -> S -> Prop) s : Q s s -> wp get Q s.
Proof. done. Qed.

Lemma wp_modify f (Q : unit -> S -> Prop) s : Q tt (f s) -> wp (modify f) Q s.
Proof. done. Qed.

Lemma wp_modify_named f (Q : unit -> S -> Prop) s :
  (forall s', s' = f s -> Q tt s') -> wp (modify f) Q s.
Proof. intros H. by apply H. Qed.

Lemma wp_lift {A} (o : option A) a (Q : A -> S -> Prop) s : o = Some a -> Q a s -> wp (lift o) Q s.
Proof. unfold wp, lift. by intros ->. Qed.

Lemma wp_mono {A} (m : M S A) (P Q : A -> S -> Prop) s :
  wp m P s -> (forall a s', P a s' -> Q a s') -> wp m Q s.
Proof. unfold wp. destruct (m s) as [[a s']|]; naive_solver. Qed.

Lemma wp_conj {A} (m : M S A) (P Q : A -> S -> Prop) s :
  wp m P s -> wp m Q s -> wp m (fun a s' => P a s' /\ Q a s') s.
Proof. unfold wp. destruct (m s) as [[a s']|]; done. Qed.

Lemma wp_elim {A} (m : M S A) (Q : A -> S -> Prop) s a s' :
  wp m Q s -> m s = Some (a, s') -> Q a s'.
Proof. unfold wp. intros H E. by rewrite E in H. Qed.

Lemma wp_run {A} (m : M S A) (Q : A -> S -> Prop) s :
  wp m Q s -> exists a s', m s = Some (a, s') /\ Q a s'.
Proof. unfold wp. destruct (m s) as [[a s']|]; naive_solver. Qed.

Lemma rfold_app {E A B} (f : B -> A -> result E A) l1 l2 a :
  rfold f (l1 ++ l2) a = rbind (rfold f l1 a) (rfold f l2).
Proof. revert a. induction l1 as [|x l1 IH]; intros a; [done|]. cbn. destruct (f x a); cbn; auto. Qed.

Lemma wlp_ret {A} (a : A) (Q : A -> S -> Prop) s : Q a s -> wlp (ret a) Q s.
Proof. done. Qed.

Lemma wlp_bind {A B} (m : M S A) (k : A -> M S B) (Q : B -> S -> Prop) s :
  wlp m (fun a s' => wlp (k a) Q s') s -> wlp (bind m k) Q s.
Proof. unfold wlp, bind. destruct (m s) as [[a s']|]; done. Qed.

Lemma wlp_get (Q : S -> S -> Prop) s : Q s s -> wlp get Q s.
Proof. done. Qed.

Lemma wlp_modify f (Q : unit -> S -> Prop) s :
  (forall s', s' = f s -> Q tt s') -> wlp (modify f) Q s.
Proof. intros H. by apply H. Qed.

Lemma wlp_lift {A} (o : option A) (Q : A -> S -> Prop) s :
  (forall a, o = Some a -> Q a s) -> wlp (lift o) Q s.
Proof. unfold wlp, lift. destruct o; auto. Qed.

Lemma wlp_mono {A} (m : M S A) (P Q : A -> S -> Prop) s :
  wlp m P s -> (forall a s', P a s' -> Q a s') -> wlp m Q s.
Proof. unfold wlp. destruct (m s) as [[a s']|]; naive_solver. Qed.

Lemma wlp_elim {A} (m : M S A) (Q : A -> S -> Prop) s a s' :
  wlp m Q s -> m s = Some (a, s') -> Q a s'.
Proof. unfold wlp. intros H E. by rewrite E in H. Qed.

Lemma wlp_and {A} (m : M S A) (P Q : A -> S -> Prop) s :
  wlp m P s -> wlp m Q s -> wlp m (fun a s' => P a s' /\ Q a s') s.
Proof. unfold wlp. destruct (m s) as [[]|]; done. Qed.

Lemma wp_wlp {A} (m : M S A) (Q : A -> S -> Prop) s : wp m Q s -> wlp m Q s.
Proof. unfold wp, wlp. destruct (m s) as [[]|]; done. Qed.

Lemma wlp_collect_elem {A B} (body : A -> M S (list B)) (I : S -> Prop) (P : B -> Prop) l s :
  I s ->
  (forall x s, x ∈ l -> I s -> wlp (body x) (fun new s' => I s' /\ Forall P new) s) ->
  wlp (collect body l) (fun new s' => I s' /\ Forall P new) s.
Proof.
  revert s. induction l as [|x l IH]; intros s HI Hbody; cbn [collect].
  - apply wlp_ret. by split; [|constructor].
  - apply wlp_bind. eapply wlp_mono; [apply Hbody; [apply list_elem_of_here|done]|]. intros new s' [HI' Hnew].
    apply wlp_bind. eapply wlp_mono; [apply IH; [done|]|].
    { intros y s0 Hy. apply Hbody. by apply list_elem_of_further. }
    intros more s'' [HI'' Hmore]. apply wlp_ret. by split; [|apply Forall_app_2].
Qed.

Lemma wlp_collect {A B} (body : A -> M S (list B)) (I : S -> Prop) (P : B -> Prop) l s :
  I s ->
  (forall x s, I s -> wlp (body x) (fun new s' => I s' /\ Forall P new) s) ->
  wlp (collect body l) (fun new s' => I s' /\ Forall P new) s.
Proof. intros HI Hbody. apply wlp_collect_elem; auto. Qed.

(** A loop that collects results: [I] holds of what has been collected. *)
Lemma wp_collect {A B} (body : A -> M S (list B)) (I : list B -> S -> Prop) l s acc :
  I acc s ->
  (forall x acc s, x ∈ l -> I acc s -> wp (body x) (fun new s' => I (acc ++ new) s') s) ->
  wp (collect body l) (fun new s' => I (acc ++ new) s') s.
Proof.
  revert s acc. induction l as [|x l IH]; intros s acc HI Hbody; cbn [collect].
  - apply wp_ret. by rewrite app_nil_r.
  - apply wp_bind. eapply wp_mono; [apply (Hbody x acc s); [set_solver|done]|].
    intros new s' HI'. apply wp_bind.
    eapply wp_mono; [apply (IH s' (acc ++ new) HI'); intros; apply Hbody; [set_solver|done]|].
    intros more s'' HI''. apply wp_ret. by rewrite (assoc_L (++)).
Qed.
End WP.

Section EWP.
Context {S E : Type}.

Lemma ewp_ret {A} (a : A) (Q : A -> S -> Prop) (R : E -> S -> Prop) s : Q a s -> ewp (eret a) Q R s.
Proof. done. Qed.

Lemma ewp_bind {A B} (m : EM S E A) (k : A -> EM S E B) (Q : B -> S -> Prop) (R : E -> S -> Prop) s :
  ewp m (fun a s' => ewp (k a) Q R s') R s -> ewp (ebind m k) Q R s.
Proof. unfold ewp, ebind. by destruct (m s) as [[a|e] s']. Qed.

Lemma ewp_get (Q : S -> S -> Prop) (R : E -> S -> Prop) s : Q s s -> ewp eget Q R s.
Proof. done. Qed.

Lemma ewp_modify f (Q : unit -> S -> Prop) (R : E -> S -> Prop) s : Q tt (f s) -> ewp (emodify f) Q R s.
Proof. done. Qed.

Lemma ewp_lift {A} (r : result E A) (Q : A -> S -> Prop) (R : E -> S -> Prop) s :
  (forall a, r = Ok a -> Q a s) -> (forall e, r = Err e -> R e s) -> ewp (elift r) Q R s.
Proof. intros HQ HR. unfold ewp, elift. destruct r; auto. Qed.

Lemma ewp_mono {A} (m : EM S E A) (P Q : A -> S -> Prop) (R T : E -> S -> Prop) s :
  ewp m P R s -> (forall a s', P a s' -> Q a s') -> (forall e s', R e s' -> T e s') -> ewp m Q T s.
Proof. unfold ewp. destruct (m s) as [[a|e] s']; auto. Qed.
End EWP.

(** ** Proof automation *)

Create HintDb ternion.

(** Boolean tests of the code as propositions. *)
Ltac reflect_bools :=
  repeat match goal with
  | H : bool_decide _ = true |- _ => apply bool_decide_eq_true_1 in H
  | H : bool_decide _ = false |- _ => apply bool_decide_eq_false_1 in H
  | H : (_ && _) = true |- _ => apply andb_true_iff in H as [? ?]
  | H : (_ || _) = false |- _ => apply orb_false_iff in H as [? ?]
  | H : negb _ = true |- _ => apply negb_true_iff in H
  | H : negb _ = false |- _ => apply negb_false_iff in H
  | H : (_ <? _) = true |- _ => apply N.ltb_lt in H
  | H : (_ <? _) = false |- _ => apply N.ltb_ge in H
  | H : (_ <=? _) = true |- _ => apply N.leb_le in H
  | H : (_ <=? _) = false |- _ => apply N.leb_gt in H
  | H : (_ =? _) = true |- _ => apply N.eqb_eq in H
  | H : (_ =? _) = false |- _ => apply N.eqb_neq in H
  end.

(** One symbolic-execution step on a [wp] goal. *)
Ltac wp_step :=
  lazymatch goal with
  | |- wp (bind _ _) _ _ => apply wp_bind
  | |- wp (ret _) _ _ => apply wp_ret
  | |- wp get _ _ => apply wp_get
  | |- wp (modify _) _ _ => apply wp_modify
  | |- wp (if ?b then _ else _) _ _ => let E := fresh "E" in destruct b eqn:E
  | |- wp (match ?x with _ => _ end) _ _ => let E := fresh "E" in destruct x eqn:E
  end.

(** Names the state after the next update, so that it stays small in the goal. *)
Tactic Notation "wp_update" ident(s) ident(E) :=
  lazymatch goal with
  | |- wp (bind (modify _) _) _ _ => apply wp_bind; apply wp_modify_named; intros s E
  | |- wp (modify _) _ _ => apply wp_modify_named; intros s E
  end.

Ltac wp_auto := try (wp_step; wp_auto).

(** The same for [wlp]; updates are named. *)
Ltac wlp_step :=
  lazymatch goal with
  | |- wlp (bind _ _) _ _ => apply wlp_bind
  | |- wlp (ret _) _ _ => apply wlp_ret
  | |- wlp get _ _ => apply wlp_get
  | |- wlp (modify _) _ _ =>
      let s := fresh "s" in let H := fresh "Hs" in apply wlp_modify; intros s H
  | |- wlp (lift _) _ _ =>
      let a := fresh "a" in let H := fresh "Ha" in apply wlp_lift; intros a H
  | |- wlp (if ?b then _ else _) _ _ => let E := fresh "E" in destruct b eqn:E
  | |- wlp (match ?x with _ => _ end) _ _ => let E := fresh "E" in destruct x eqn:E
  end.

Ltac wlp_auto := try (wlp_step; wlp_auto).

(** Two majorities meet. *)
Lemma majorities_meet (members : list string) (Q1 Q2 : gset string) :
  NoDup members -> (forall v, v ∈ Q1 -> v ∈ members) -> (forall v, v ∈ Q2 -> v ∈ members) ->
  (length members < 2 * size Q1)%nat -> (length members < 2 * size Q2)%nat ->
  exists v, v ∈ Q1 /\ v ∈ Q2.
Proof.
  intros Hnd H1 H2 Hs1 Hs2. destruct (decide (Q1 ## Q2)) as [Hd|Hd].
  - exfalso. pose proof (size_union Q1 Q2 Hd) as Hu.
    assert (Hsub : (size (Q1 ∪ Q2) <= size (list_to_set members : gset string))%nat).
    { apply subseteq_size. intros v. rewrite elem_of_union, elem_of_list_to_set.
      intros [?|?]; auto. }
    rewrite size_list_to_set in Hsub by done. lia.
  - destruct (decide (Q1 ∩ Q2 = ∅)) as [He|He]; [set_solver|].
    apply set_choose_L in He as [v Hv]. exists v. set_solver.
Qed.
