(* ===== verification/Bytes.v ===== *)
(** Byte-level encodings of the Go standard library that the durable formats
    use: big-endian integers ([encoding/binary]) and the IEEE CRC-32
    ([hash/crc32]). *)

From S2P Require Import Prelude.

(** ** Big-endian integers *)

(** [binary.BigEndian.PutUintW]: the low [8 * w] bits of [x], high byte first. *)
Fixpoint be_put (w : nat) (x : N) : list byte :=
  match w with
  | O => []
  | S w' => byte_of_N (N.shiftr x (8 * N.of_nat w')) :: be_put w' x
  end.

(** [binary.BigEndian.UintW] of a slice of [W / 8] bytes. *)
Definition be_get (l : list byte) : N := foldl (fun acc b => acc * 256 + byte_to_N b) 0 l.

Definition two32 : N := 4294967296.

Definition string_bytes (s : string) : list byte := String.list_byte_of_string s.
Definition bytes_string (l : list byte) : string := String.string_of_list_byte l.

(** [strings.TrimSpace(s) == ""]: every rune of the UTF-8 text is white space. *)
Definition is_space1 (b : byte) : bool :=
  bool_decide (b ∈ [x09; x0a; x0b; x0c; x0d; x20]).
Definition is_space2 (a b : byte) : bool :=
  bool_decide (a = xc2) && bool_decide (b ∈ [x85; xa0]).
Definition is_space3 (a b c : byte) : bool :=
  (bool_decide (a = xe1) && bool_decide (b = x9a) && bool_decide (c = x80))
  || (bool_decide (a = xe2) && bool_decide (b = x80)
      && bool_decide (c ∈ [x80; x81; x82; x83; x84; x85; x86; x87; x88; x89; x8a; xa8; xa9; xaf]))
  || (bool_decide (a = xe2) && bool_decide (b = x81) && bool_decide (c = x9f))
  || (bool_decide (a = xe3) && bool_decide (b = x80) && bool_decide (c = x80)).

Fixpoint blank (l : list byte) : bool :=
  match l with
  | [] => true
  | a :: l1 =>
      if is_space1 a then blank l1
      else match l1 with
           | [] => false
           | b :: l2 =>
               if is_space2 a b then blank l2
               else match l2 with
                    | [] => false
                    | c :: l3 => is_space3 a b c && blank l3
                    end
           end
  end.

Definition blank_string (s : string) : bool := blank (string_bytes s).

(** [utf8.ValidString]. *)
Definition continuation (b : byte) : bool := (128 <=? byte_to_N b) && (byte_to_N b <=? 191).

Fixpoint utf8 (l : list byte) : bool :=
  match l with
  | [] => true
  | a :: l1 =>
      let x := byte_to_N a in
      if x <? 128 then utf8 l1
      else
        match l1 with
        | [] => false
        | b :: l2 =>
            let y := byte_to_N b in
            if (194 <=? x) && (x <=? 223) then continuation b && utf8 l2
            else
              match l2 with
              | [] => false
              | c :: l3 =>
                  if (224 <=? x) && (x <=? 239)
                  then continuation b && continuation c
                       && negb ((x =? 224) && (y <? 160)) && negb ((x =? 237) && (159 <? y)) && utf8 l3
                  else
                    match l3 with
                    | [] => false
                    | d :: l4 =>
                        (240 <=? x) && (x <=? 244) && continuation b && continuation c && continuation d
                        && negb ((x =? 240) && (y <? 144)) && negb ((x =? 244) && (143 <? y)) && utf8 l4
                    end
              end
        end
  end.

Definition valid_utf8 (s : string) : bool := utf8 (string_bytes s).

(** ** CRC-32 (IEEE), reflected form *)

Definition crc_poly : N := 3988292384.

Definition crc_bit (c : N) : N :=
  if N.testbit c 0 then N.lxor (N.shiftr c 1) crc_poly else N.shiftr c 1.

Definition crc_byte (c : N) (b : byte) : N := Nat.iter 8 crc_bit (N.lxor c (byte_to_N b)).

Definition crc_fold (c : N) (l : list byte) : N := foldl crc_byte c l.

(** [crc32.ChecksumIEEE]. *)
Definition crc32 (l : list byte) : N := N.lxor (crc_fold 4294967295 l) 4294967295.

(** Bytes as one little-endian word of unbounded width. *)
Fixpoint le_word (l : list byte) : N :=
  match l with
  | [] => 0
  | b :: l => N.lxor (byte_to_N b) (N.shiftl (le_word l) 8)
  end.

#[global] Arguments be_put : simpl never.
#[global] Arguments be_get : simpl never.
#[global] Arguments crc32 : simpl never.

(** ** Bytes and numbers *)

Lemma byte_to_N_lt b : byte_to_N b < 256.
Proof. unfold byte_to_N. pose proof (Byte.to_N_bounded b). lia. Qed.

Lemma byte_to_of_N x : byte_to_N (byte_of_N x) = x mod 256.
Proof.
  unfold byte_of_N, byte_to_N. destruct (Byte.of_N (x mod 256)) eqn:E.
  - by apply Byte.to_of_N in E.
  - apply Byte.of_N_None_iff in E. pose proof (N.mod_lt x 256). lia.
Qed.

Lemma byte_of_to_N b : byte_of_N (byte_to_N b) = b.
Proof.
  unfold byte_of_N, byte_to_N. rewrite N.mod_small by apply byte_to_N_lt.
  by rewrite Byte.of_to_N.
Qed.

#[export] Instance byte_to_N_inj : Inj (=) (=) byte_to_N.
Proof. intros a b H. by rewrite <- (byte_of_to_N a), H, byte_of_to_N. Qed.

(** ** Big-endian round trips *)

Lemma length_be_put w x : length (be_put w x) = w.
Proof. unfold be_put. induction w; cbn; congruence. Qed.

Lemma len_be_put w x : len (be_put w x) = N.of_nat w.
Proof. unfold len. by rewrite length_be_put. Qed.

Lemma be_fold_put w x acc :
  foldl (fun acc b => acc * 256 + byte_to_N b) acc (be_put w x) =
  acc * 256 ^ N.of_nat w + x mod 256 ^ N.of_nat w.
Proof.
  revert acc. induction w as [|w IH]; intros acc.
  { change (acc = acc * 1 + x mod 1). rewrite N.mod_1_r. lia. }
  unfold be_put. fold be_put. cbn [foldl]. rewrite IH, byte_to_of_N, N.shiftr_div_pow2.
  replace (2 ^ (8 * N.of_nat w)) with (256 ^ N.of_nat w) by (rewrite N.pow_mul_r; done).
  rewrite Nat2N.inj_succ, N.pow_succ_r', (N.mul_comm 256 (256 ^ _)).
  rewrite N.Div0.mod_mul_r. ring.
Qed.

Lemma be_get_put w x : be_get (be_put w x) = x mod 256 ^ N.of_nat w.
Proof. unfold be_get. by rewrite be_fold_put. Qed.

Lemma be_get_put64 x : x < two64 -> be_get (be_put 8 x) = x.
Proof. intros H. rewrite be_get_put. by apply N.mod_small. Qed.

Lemma be_get_put32 x : x < two32 -> be_get (be_put 4 x) = x.
Proof. intros H. rewrite be_get_put. by apply N.mod_small. Qed.

Lemma be_get_bound l : be_get l < 256 ^ len l.
Proof.
  unfold be_get, len. induction l as [|b l IH] using rev_ind; [done|].
  rewrite foldl_snoc, length_app, Nat2N.inj_add. cbn [length].
  rewrite N.pow_add_r. pose proof (byte_to_N_lt b). change (256 ^ N.of_nat 1) with 256. lia.
Qed.

(** ** Strings *)

Lemma bytes_string_of_string s : bytes_string (string_bytes s) = s.
Proof. apply String.string_of_list_byte_of_string. Qed.

Lemma string_bytes_of_bytes l : string_bytes (bytes_string l) = l.
Proof. apply String.list_byte_of_string_of_list_byte. Qed.

Lemma length_string_bytes s : length (string_bytes s) = String.length s.
Proof.
  unfold string_bytes, String.list_byte_of_string. rewrite length_map.
  induction s; cbn; congruence.
Qed.

Lemma len_string_bytes s : len (string_bytes s) = N.of_nat (String.length s).
Proof. unfold len. by rewrite length_string_bytes. Qed.

(** ** CRC-32 detects bursts *)

Lemma lxor_mod n a b : N.lxor a b mod 2 ^ n = N.lxor (a mod 2 ^ n) (b mod 2 ^ n).
Proof.
  apply N.bits_inj. intros i. rewrite N.lxor_spec. destruct (N.lt_ge_cases i n).
  - by rewrite !N.mod_pow2_bits_low, N.lxor_spec.
  - by rewrite !N.mod_pow2_bits_high.
Qed.

Lemma lxor_lt n a b : a < 2 ^ n -> b < 2 ^ n -> N.lxor a b < 2 ^ n.
Proof.
  intros Ha Hb. rewrite <- (N.mod_small a (2 ^ n)), <- (N.mod_small b (2 ^ n)) by done.
  rewrite <- lxor_mod. apply N.mod_lt. by apply N.pow_nonzero.
Qed.

Lemma testbit_high n a i : a < 2 ^ n -> n <= i -> N.testbit a i = false.
Proof.
  intros Ha Hi. destruct (N.eq_dec a 0) as [->|]; [apply N.bits_0|].
  apply N.bits_above_log2. apply N.log2_lt_pow2; [lia|].
  eapply N.lt_le_trans; [exact Ha|]. by apply N.pow_le_mono_r.
Qed.

Lemma crc_bit_lt c : c < 2 ^ 32 -> crc_bit c < 2 ^ 32.
Proof.
  intros H. unfold crc_bit.
  assert (Hs : N.shiftr c 1 < 2 ^ 32).
  { rewrite N.shiftr_div_pow2. eapply N.le_lt_trans; [apply N.Div0.div_le_upper_bound|exact H].
    change (2 ^ 1) with 2. lia. }
  destruct (N.testbit c 0); [|done]. by apply lxor_lt.
Qed.

(** The top bit of the result tells which branch was taken. *)
Lemma crc_bit_top c : c < 2 ^ 32 -> N.testbit (crc_bit c) 31 = N.testbit c 0.
Proof.
  intros H. unfold crc_bit. destruct (N.testbit c 0).
  - rewrite N.lxor_spec, N.shiftr_spec', (testbit_high 32 c) by (done || lia). done.
  - rewrite N.shiftr_spec'. by apply (testbit_high 32).
Qed.

Lemma crc_bit_inj a b : a < 2 ^ 32 -> b < 2 ^ 32 -> crc_bit a = crc_bit b -> a = b.
Proof.
  intros Ha Hb E. assert (E0 : N.testbit a 0 = N.testbit b 0).
  { by rewrite <- (crc_bit_top a), E, crc_bit_top. }
  assert (Es : N.shiftr a 1 = N.shiftr b 1).
  { unfold crc_bit in E. rewrite <- E0 in E. destruct (N.testbit a 0); [|done].
    apply (f_equal (fun x => N.lxor x crc_poly)) in E.
    by rewrite !N.lxor_assoc, N.lxor_nilpotent, !N.lxor_0_r in E. }
  apply N.bits_inj. intros i. destruct (N.eq_dec i 0) as [->|]; [done|].
  apply (f_equal (fun x => N.testbit x (i - 1))) in Es.
  rewrite !N.shiftr_spec' in Es. by replace (i - 1 + 1) with i in Es by lia.
Qed.

Lemma crc_bits_lt k c : c < 2 ^ 32 -> Nat.iter k crc_bit c < 2 ^ 32.
Proof. intros H. induction k as [|k IH]; [done|]. rewrite Nat.iter_succ. by apply crc_bit_lt. Qed.

Lemma crc_bits_inj k a b :
  a < 2 ^ 32 -> b < 2 ^ 32 -> Nat.iter k crc_bit a = Nat.iter k crc_bit b -> a = b.
Proof.
  intros Ha Hb. induction k as [|k IH]; [done|]. rewrite !Nat.iter_succ. intros E.
  apply IH, crc_bit_inj; [by apply crc_bits_lt..|done].
Qed.

(** Bits shifted in from above do not interact with the feedback. *)
Lemma crc_bit_lxor x y : crc_bit (N.lxor x (N.shiftl y 1)) = N.lxor (crc_bit x) y.
Proof.
  unfold crc_bit. rewrite N.lxor_spec, N.shiftl_spec_low, xorb_false_r by lia.
  rewrite N.shiftr_lxor, N.shiftr_shiftl_l, N.sub_diag, N.shiftl_0_r by lia.
  destruct (N.testbit x 0); [|done].
  by rewrite !N.lxor_assoc, (N.lxor_comm y).
Qed.

Lemma crc_bits_lxor k x y :
  Nat.iter k crc_bit (N.lxor x (N.shiftl y (N.of_nat k))) = N.lxor (Nat.iter k crc_bit x) y.
Proof.
  revert y. induction k as [|k IH]; intros y; [by rewrite N.shiftl_0_r|].
  rewrite !Nat.iter_succ.
  replace (N.shiftl y (N.of_nat (S k))) with (N.shiftl (N.shiftl y 1) (N.of_nat k))
    by (rewrite N.shiftl_shiftl; f_equal; lia).
  by rewrite IH, crc_bit_lxor.
Qed.

Lemma crc_fold_word c l :
  crc_fold c l = Nat.iter (length l * 8) crc_bit (N.lxor c (le_word l)).
Proof.
  unfold crc_fold. revert c. induction l as [|b l IH]; intros c; cbn [foldl le_word length].
  { by rewrite N.lxor_0_r. }
  rewrite IH. change (S (length l) * 8)%nat with (8 + length l * 8)%nat.
  rewrite Nat.add_comm, Nat.iter_add. f_equal. unfold crc_byte.
  by rewrite <- (crc_bits_lxor 8), N.lxor_assoc.
Qed.

Lemma le_word_lt l : le_word l < 2 ^ (8 * len l).
Proof.
  unfold len. induction l as [|b l IH]; [done|]. cbn [le_word length].
  apply lxor_lt.
  - eapply N.lt_le_trans; [apply byte_to_N_lt|]. change 256 with (2 ^ 8).
    apply N.pow_le_mono_r; lia.
  - rewrite N.shiftl_mul_pow2. replace (8 * N.of_nat (S (length l)))
      with (8 * N.of_nat (length l) + 8) by lia.
    rewrite N.pow_add_r. apply N.mul_lt_mono_pos_r; [done|exact IH].
Qed.

Lemma le_word_inj l1 l2 : length l1 = length l2 -> le_word l1 = le_word l2 -> l1 = l2.
Proof.
  revert l2. induction l1 as [|b1 l1 IH]; intros [|b2 l2]; try done. cbn [le_word length].
  intros [= Hlen] E.
  assert (Hb : byte_to_N b1 = byte_to_N b2).
  { apply (f_equal (fun x => x mod 2 ^ 8)) in E.
    rewrite !lxor_mod, !N.shiftl_mul_pow2 in E.
    rewrite !N.Div0.mod_mul, !N.lxor_0_r in E.
    rewrite !N.mod_small in E by apply byte_to_N_lt. done. }
  apply byte_to_N_inj in Hb as Hb'. subst b2. f_equal. apply IH; [done|].
  apply (f_equal (N.lxor (byte_to_N b1))) in E.
  rewrite <- !N.lxor_assoc, N.lxor_nilpotent, !N.lxor_0_l, !N.shiftl_mul_pow2 in E.
  apply N.mul_cancel_r in E; done.
Qed.

Lemma crc_fold_lt c l : c < 2 ^ 32 -> crc_fold c l < 2 ^ 32.
Proof.
  unfold crc_fold. revert c. induction l as [|b l IH]; intros c Hc; [done|]. cbn [foldl].
  apply IH. unfold crc_byte. apply crc_bits_lt, lxor_lt; [done|]. pose proof (byte_to_N_lt b). lia.
Qed.

Lemma crc32_lt l : crc32 l < two32.
Proof. unfold crc32. apply (lxor_lt 32); [by apply crc_fold_lt|done]. Qed.

Lemma crc_fold_inj_state l a b :
  a < 2 ^ 32 -> b < 2 ^ 32 -> crc_fold a l = crc_fold b l -> a = b.
Proof.
  unfold crc_fold. revert a b. induction l as [|x l IH]; intros a b Ha Hb; [done|]. cbn [foldl].
  unfold crc_byte at 2 4. intros E. pose proof (byte_to_N_lt x).
  assert (forall c, c < 2 ^ 32 -> N.lxor c (byte_to_N x) < 2 ^ 32) by (intros; apply lxor_lt; [done|lia]).
  apply IH in E; [|by apply crc_bits_lt; auto..].
  apply crc_bits_inj in E; [|by auto..].
  apply (f_equal (fun y => N.lxor y (byte_to_N x))) in E.
  by rewrite !N.lxor_assoc, N.lxor_nilpotent, !N.lxor_0_r in E.
Qed.

(** Two bodies of the same length that differ only within four consecutive
    bytes have different checksums. *)
Lemma crc32_burst pre m1 m2 post :
  length m1 = length m2 -> (length m1 <= 4)%nat -> m1 <> m2 ->
  crc32 (pre ++ m1 ++ post) <> crc32 (pre ++ m2 ++ post).
Proof.
  intros Hlen H4 Hne E. unfold crc32 in E.
  apply (f_equal (fun y => N.lxor y 4294967295)) in E.
  rewrite !N.lxor_assoc, N.lxor_nilpotent, !N.lxor_0_r in E.
  unfold crc_fold in E. rewrite !foldl_app in E. fold (crc_fold 4294967295 pre) in E.
  set (c := crc_fold 4294967295 pre) in *.
  assert (Hc : c < 2 ^ 32) by (by apply crc_fold_lt).
  change (crc_fold (crc_fold c m1) post = crc_fold (crc_fold c m2) post) in E.
  apply crc_fold_inj_state in E; [|by apply crc_fold_lt..].
  rewrite !crc_fold_word, <- Hlen in E.
  assert (Hw : forall m, length m = length m1 -> N.lxor c (le_word m) < 2 ^ 32).
  { intros m Hm. apply lxor_lt; [done|]. eapply N.lt_le_trans; [apply le_word_lt|].
    apply N.pow_le_mono_r; [done|]. unfold len. lia. }
  apply crc_bits_inj in E; [|by apply Hw..].
  apply (f_equal (N.lxor c)) in E. rewrite <- !N.lxor_assoc, N.lxor_nilpotent, !N.lxor_0_l in E.
  by apply le_word_inj in E.
Qed.
