(* ===== verification/Json.v ===== *)
(** The JSON text of numbers and strings as [encoding/json] writes them, with
    readers for that text. *)

From Stdlib Require Import DecimalN.
From S2P Require Import Prelude Bytes.

(** ** Numbers *)

Fixpoint digits (d : Decimal.uint) : list byte :=
  match d with
  | Decimal.Nil => []
  | Decimal.D0 d => x30 :: digits d
  | Decimal.D1 d => x31 :: digits d
  | Decimal.D2 d => x32 :: digits d
  | Decimal.D3 d => x33 :: digits d
  | Decimal.D4 d => x34 :: digits d
  | Decimal.D5 d => x35 :: digits d
  | Decimal.D6 d => x36 :: digits d
  | Decimal.D7 d => x37 :: digits d
  | Decimal.D8 d => x38 :: digits d
  | Decimal.D9 d => x39 :: digits d
  end.

(** The longest run of digits, and what follows it. *)
Fixpoint readDigits (l : list byte) : Decimal.uint * list byte :=
  match l with
  | x30 :: l => let '(d, rest) := readDigits l in (Decimal.D0 d, rest)
  | x31 :: l => let '(d, rest) := readDigits l in (Decimal.D1 d, rest)
  | x32 :: l => let '(d, rest) := readDigits l in (Decimal.D2 d, rest)
  | x33 :: l => let '(d, rest) := readDigits l in (Decimal.D3 d, rest)
  | x34 :: l => let '(d, rest) := readDigits l in (Decimal.D4 d, rest)
  | x35 :: l => let '(d, rest) := readDigits l in (Decimal.D5 d, rest)
  | x36 :: l => let '(d, rest) := readDigits l in (Decimal.D6 d, rest)
  | x37 :: l => let '(d, rest) := readDigits l in (Decimal.D7 d, rest)
  | x38 :: l => let '(d, rest) := readDigits l in (Decimal.D8 d, rest)
  | x39 :: l => let '(d, rest) := readDigits l in (Decimal.D9 d, rest)
  | _ => (Decimal.Nil, l)
  end.

Definition jsonNumber (n : N) : list byte := digits (N.to_uint n).

Definition readNumber (l : list byte) : option (N * list byte) :=
  match readDigits l with
  | (Decimal.Nil, _) => None
  | (d, rest) => if N.of_uint d <? two64 then Some (N.of_uint d, rest) else None
  end.

(** ** Strings *)

Definition hexDigit (n : N) : byte := byte_of_N (if n <? 10 then 48 + n else 87 + n).

(** Escapes of [encoding/json] for ASCII; HTML-sensitive bytes are escaped too. *)
Definition escapeByte (b : byte) : list byte :=
  match b with
  | x22 => [x5c; x22]
  | x5c => [x5c; x5c]
  | x08 => [x5c; x62]
  | x0c => [x5c; x66]
  | x0a => [x5c; x6e]
  | x0d => [x5c; x72]
  | x09 => [x5c; x74]
  | _ =>
      if (byte_to_N b <? 32) || bool_decide (b ∈ [x3c; x3e; x26])
      then [x5c; x75; x30; x30; hexDigit (byte_to_N b / 16); hexDigit (byte_to_N b mod 16)]
      else [b]
  end.

(** The body of a string literal; U+2028 and U+2029 are escaped as well.  Invalid
    UTF-8, which the encoder would replace, is outside the domain of the model. *)
Fixpoint escapeChars (l : list byte) : list byte :=
  match l with
  | [] => []
  | xe2 :: x80 :: xa8 :: l => [x5c; x75; x32; x30; x32; x38] ++ escapeChars l
  | xe2 :: x80 :: xa9 :: l => [x5c; x75; x32; x30; x32; x39] ++ escapeChars l
  | b :: l => escapeByte b ++ escapeChars l
  end.

Definition jsonString (s : string) : list byte := [x22] ++ escapeChars (string_bytes s) ++ [x22].

Definition hexValue (b : byte) : N :=
  let n := byte_to_N b in if n <? 58 then n - 48 else n - 87.

(** Reads up to the closing quote. *)
Fixpoint readChars (l : list byte) : option (list byte * list byte) :=
  let keep b r := match r with Some (s, rest) => Some (b :: s, rest) | None => None end in
  match l with
  | [] => None
  | x22 :: rest => Some ([], rest)
  | x5c :: x22 :: l => keep x22 (readChars l)
  | x5c :: x5c :: l => keep x5c (readChars l)
  | x5c :: x62 :: l => keep x08 (readChars l)
  | x5c :: x66 :: l => keep x0c (readChars l)
  | x5c :: x6e :: l => keep x0a (readChars l)
  | x5c :: x72 :: l => keep x0d (readChars l)
  | x5c :: x74 :: l => keep x09 (readChars l)
  | x5c :: x75 :: x30 :: x30 :: a :: b :: l =>
      keep (byte_of_N (hexValue a * 16 + hexValue b)) (readChars l)
  | x5c :: x75 :: x32 :: x30 :: x32 :: x38 :: l => keep xe2 (keep x80 (keep xa8 (readChars l)))
  | x5c :: x75 :: x32 :: x30 :: x32 :: x39 :: l => keep xe2 (keep x80 (keep xa9 (readChars l)))
  | x5c :: _ => None
  | b :: l => keep b (readChars l)
  end.

Definition readLiteral (want l : list byte) : option (list byte) :=
  if bool_decide (take (length want) l = want) then Some (drop (length want) l) else None.

Definition readString (l : list byte) : option (string * list byte) :=
  match l with
  | x22 :: l => option_map (fun '(s, rest) => (bytes_string s, rest)) (readChars l)
  | _ => None
  end.

Definition label (s : string) : list byte := [x22] ++ string_bytes s ++ [x22; x3a].

(** ** Round trips *)

Lemma readDigits_digits d rest :
  match rest with b :: _ => (byte_to_N b < 48 \/ 57 < byte_to_N b) | [] => True end ->
  readDigits (digits d ++ rest) = (d, rest).
Proof.
  intros Hrest. induction d; cbn; rewrite ?IHd; try done.
  destruct rest as [|b rest]; [done|]. destruct b; cbn in Hrest; try done; lia.
Qed.

Lemma readNumber_json n rest :
  n < two64 ->
  match rest with b :: _ => (byte_to_N b < 48 \/ 57 < byte_to_N b) | [] => True end ->
  readNumber (jsonNumber n ++ rest) = Some (n, rest).
Proof.
  intros Hn Hrest. unfold readNumber, jsonNumber. rewrite readDigits_digits by done.
  assert (Hd : N.of_uint (N.to_uint n) = n) by apply DecimalN.Unsigned.of_to.
  destruct (N.to_uint n) eqn:E; try (rewrite Hd; by apply N.ltb_lt in Hn as ->).
  exfalso. by destruct n.
Qed.

Lemma readChars_escape b l :
  readChars (escapeByte b ++ l) =
  match readChars l with Some (s, rest) => Some (b :: s, rest) | None => None end.
Proof. destruct b; reflexivity. Qed.

Lemma escapeChars_cases b l :
  (exists l', b = xe2 /\ (l = x80 :: xa8 :: l' /\
       escapeChars (b :: l) = [x5c; x75; x32; x30; x32; x38] ++ escapeChars l' \/
     l = x80 :: xa9 :: l' /\
       escapeChars (b :: l) = [x5c; x75; x32; x30; x32; x39] ++ escapeChars l')) \/
  escapeChars (b :: l) = escapeByte b ++ escapeChars l.
Proof.
  destruct (decide (b = xe2)) as [->|Hb]; [|right; by destruct b].
  destruct l as [|c l]; [by right|]. destruct (decide (c = x80)) as [->|Hc]; [|right; by destruct c].
  destruct l as [|d l]; [by right|].
  destruct (decide (d = xa8)) as [->|Hd]; [left; exists l; auto|].
  destruct (decide (d = xa9)) as [->|Hd']; [left; exists l; auto|]. right. by destruct d.
Qed.

Lemma readChars_escapeChars l rest : readChars (escapeChars l ++ [x22] ++ rest) = Some (l, rest).
Proof.
  remember (length l) as n eqn:Hn. revert l Hn. induction n as [n IH] using lt_wf_ind.
  intros [|b l] ->; [done|].
  destruct (escapeChars_cases b l) as [(l' & -> & [[-> ->]|[-> ->]])| ->].
  - cbn [app readChars]. rewrite (IH (length l')) by (cbn; lia). done.
  - cbn [app readChars]. rewrite (IH (length l')) by (cbn; lia). done.
  - rewrite <- app_assoc, readChars_escape, (IH (length l)) by (cbn; lia). done.
Qed.

Lemma readString_json s rest : readString (jsonString s ++ rest) = Some (s, rest).
Proof.
  unfold readString, jsonString. cbn [app]. rewrite <- app_assoc, readChars_escapeChars.
  cbn. by rewrite bytes_string_of_string.
Qed.

Lemma readLiteral_app want rest : readLiteral want (want ++ rest) = Some rest.
Proof. unfold readLiteral. rewrite take_app_length, drop_app_length. by rewrite bool_decide_true. Qed.

(** Reads the next element of the text. *)
Ltac json_step :=
  first [ rewrite readLiteral_app | rewrite readString_json
        | rewrite readNumber_json by (done || (vm_compute; auto)) ];
  cbn [mbind option_bind].
