(* ===== verification/Wal.v ===== *)
(** The write-ahead log of [internal/wal/wal.go], down to the bytes.

    The directory is a list of numbered segment files; each file remembers how
    many of its bytes have been synced.  File operations succeed; what a crash
    leaves behind is described by [crash] in [WalRecovery].  Segment file names
    are represented by the number they encode, which is unbounded: a directory
    cannot hold 2^64 segments. *)

From S2P Require Import Prelude Bytes.

(** ** Format constants *)

Definition segmentMagic : list byte := string_bytes "QKVWAL01".
Definition formatVersion : N := 1.
Definition defaultSegmentSize : N := N.shiftl 16 20.
Definition segmentHeaderSize : N := 12.
Definition frameHeaderSize : N := 8.
Definition maxRecordSize : N := N.shiftl 2 20.

Definition recordType : Type := byte.
Definition recordClusterIdentity : recordType := x01.
Definition recordNodeIdentity : recordType := x02.
Definition recordHardState : recordType := x03.
Definition recordLogEntries : recordType := x04.
Definition recordLogEntriesV2 : recordType := x05.
Definition recordLogEntryV3 : recordType := x06.
Definition recordLogTruncation : recordType := x07.
Definition recordCommitIndex : recordType := x08.
Definition recordCompactionCheckpoint : recordType := x09.

(** ** Data *)

Record Identity := mkIdentity { ClusterID : string; NodeID : string }.

Record HardState := mkHardState { hs_Term : N; hs_VotedFor : string }.

Record LogEntry := mkLogEntry {
  Index : N; Term : N; EType : byte; ESessionID : list byte; Sequence : N;
  Key : string; Value : list byte }.

Record RecoveredState := mkRecoveredState {
  rs_Identity : Identity; rs_HardState : HardState; rs_Log : list LogEntry;
  rs_CommitIndex : N; rs_SnapshotIndex : N; rs_SnapshotTerm : N }.

Record compactionCheckpoint := mkCheckpoint {
  cp_Identity : Identity; cp_HardState : HardState; cp_CommitIndex : N;
  cp_SnapshotIndex : N; cp_SnapshotTerm : N }.

(** A segment file.  [sf_synced] bytes are known to be on disk; [sf_found] bytes were there when
    the process opened its log.  Neither is part of the file: they tell what a power loss can take. *)
Record segmentFile := mkSegment {
  sf_number : N; sf_contents : list byte; sf_synced : N; sf_found : N }.

Record WAL := mkWAL {
  w_directory : list segmentFile; w_segmentSize : N; w_segment : N; w_open : bool;
  w_offset : N; w_lastLogIndex : N; w_commitIndex : N; w_hardState : HardState;
  w_identity : Identity; w_snapshotIndex : N; w_snapshotTerm : N; w_entryBytes : gmap N N }.

#[export] Instance eta_recovered : Eta RecoveredState :=
  fun r => mkRecoveredState (rs_Identity r) (rs_HardState r) (rs_Log r) (rs_CommitIndex r)
             (rs_SnapshotIndex r) (rs_SnapshotTerm r).
#[export] Instance eta_segment : Eta segmentFile :=
  fun r => mkSegment (sf_number r) (sf_contents r) (sf_synced r) (sf_found r).
#[export] Instance eta_wal : Eta WAL :=
  fun r => mkWAL (w_directory r) (w_segmentSize r) (w_segment r) (w_open r) (w_offset r)
             (w_lastLogIndex r) (w_commitIndex r) (w_hardState r) (w_identity r)
             (w_snapshotIndex r) (w_snapshotTerm r) (w_entryBytes r).

#[export] Instance Identity_eq_dec : EqDecision Identity.
Proof. solve_decision. Defined.
#[export] Instance HardState_eq_dec : EqDecision HardState.
Proof. solve_decision. Defined.
#[export] Instance LogEntry_eq_dec : EqDecision LogEntry.
Proof. solve_decision. Defined.
#[export] Instance RecoveredState_eq_dec : EqDecision RecoveredState.
Proof. solve_decision. Defined.

(** One constructor per error the package reports. *)
Inductive Error :=
| errClosed | errNoEntries | errEntryIndex (index want : N)
| errTruncateOutside (first : N) | errTruncateCommitted (first commit : N)
| errCommitDecreased (from to : N) | errCommitBeyondLog (index last : N)
| errIdentityRequired | errSegmentSize | errIdentityMismatch | errIncompleteIdentity
| errSnapshotOutside (index : N) | errSnapshotPosition
| errRecordSize | errSegmentExists (number : N) | errDuplicateSegment (number : N)
| errShortSegment | errMagic | errVersion (version : N)
| errFrameHeaderEOF | errFrameBodyEOF | errFrameLength (length : N) | errChecksum
| errClusterIdentity | errNodeIdentity | errNodeBeforeCluster | errHardStateBeforeIdentity
| errShortHardState | errEntryRecordLength | errEntryOrder (index last : N)
| errTruncationLength | errCommitLength | errCheckpointDecode | errCheckpointIdentity
| errCheckpointNewer | errCheckpointPosition | errUnknownRecord (kind : byte)
| errFuel.

#[export] Instance Error_eq_dec : EqDecision Error.
Proof. solve_decision. Defined.

(** [encoding/json] for the checkpoint record.  [Marshal] replaces invalid UTF-8,
    so the round trip is promised for checkpoints whose strings are valid. *)
Class CheckpointCodec := {
  marshal : compactionCheckpoint -> list byte;
  unmarshal : list byte -> option compactionCheckpoint;
  marshalable : compactionCheckpoint -> Prop;
  unmarshal_marshal c : marshalable c -> unmarshal (marshal c) = Some c }.

(** ** Encoding *)

Definition segmentHeader : list byte := segmentMagic ++ be_put 4 formatVersion.

Definition frame (body : list byte) : list byte :=
  be_put 4 (len body) ++ be_put 4 (crc32 body) ++ body.

Definition encodeHardState (state : HardState) : list byte :=
  be_put 8 (hs_Term state) ++ string_bytes (hs_VotedFor state).

Definition encodeLogEntry (entry : LogEntry) : list byte :=
  be_put 8 (Index entry) ++ be_put 8 (Term entry) ++ [EType entry] ++ ESessionID entry
  ++ be_put 8 (Sequence entry) ++ be_put 4 (N.of_nat (String.length (Key entry)))
  ++ be_put 4 (len (Value entry)) ++ string_bytes (Key entry) ++ Value entry.

(** ** Files *)

Definition onFile (number : N) (f : segmentFile -> segmentFile) (files : list segmentFile)
    : list segmentFile :=
  map (fun file => if sf_number file =? number then f file else file) files.

Definition writeFile (number : N) (bytes : list byte) : list segmentFile -> list segmentFile :=
  onFile number (fun file => file <| sf_contents := sf_contents file ++ bytes |>).

Definition syncFile (number : N) : list segmentFile -> list segmentFile :=
  onFile number (fun file => file <| sf_synced := len (sf_contents file) |>).

(** The file as a process finds it: read, and not synced by that. *)
Definition foundFile (file : segmentFile) : segmentFile := file <| sf_found := len (sf_contents file) |>.

Definition removeFile (number : N) (files : list segmentFile) : list segmentFile :=
  filter (fun file => sf_number file <> number) files.

Definition segment_le (a b : segmentFile) : Prop := sf_number a <= sf_number b.
#[export] Instance segment_le_dec a b : Decision (segment_le a b).
Proof. unfold segment_le. apply _. Defined.

Fixpoint duplicateSegment (files : list segmentFile) : option N :=
  match files with
  | a :: (b :: _) as rest => if sf_number a =? sf_number b then Some (sf_number b) else duplicateSegment rest
  | _ => None
  end.

Definition findSegments (files : list segmentFile) : result Error (list segmentFile) :=
  let segments := merge_sort segment_le files in
  match duplicateSegment segments with
  | Some number => Err (errDuplicateSegment number)
  | None => Ok segments
  end.

(** ** Appending *)

Definition WM := EM WAL Error.

Definition createSegment (number : N) : WM unit :=
  let+ w := eget in
  if bool_decide (number ∈ map sf_number (w_directory w)) then elift (Err (errSegmentExists number))
  else
    emodify (fun w => w <| w_directory := w_directory w ++ [mkSegment number segmentHeader 0 0] |>
                        <| w_segment := number |> <| w_open := true |>
                        <| w_offset := segmentHeaderSize |>).

Definition sync : WM unit :=
  emodify (fun w => w <| w_directory := syncFile (w_segment w) (w_directory w) |>).

Definition appendRecord (kind : recordType) (payload : list byte) : WM unit :=
  let body := kind :: payload in
  if maxRecordSize <? len body then elift (Err errRecordSize)
  else
    let frameSize := frameHeaderSize + len body in
    let+ w := eget in
    do+ (if (segmentHeaderSize <? w_offset w) && (w_segmentSize w <? w_offset w + frameSize)
         then
           do+ sync in
           do+ emodify (fun w => w <| w_open := false |>) in
           createSegment (w_segment w + 1)
         else eret tt) in
    emodify (fun w => w <| w_directory := writeFile (w_segment w) (frame body) (w_directory w) |>
                        <| w_offset := w_offset w + frameSize |>).

(** ** Decoding *)

(** [payload[i : i+n]]; the callers check the length first. *)
Definition sub (l : list byte) (i n : nat) : list byte := take n (drop i l).

Definition lastIndexOf (state : RecoveredState) : N :=
  rs_SnapshotIndex state +! len (rs_Log state).

(** Appends one decoded entry to the recovered log, skipping what the Snapshot covers. *)
Definition recoverEntry (entry : LogEntry) (state : RecoveredState) : result Error RecoveredState :=
  if Index entry <=? rs_SnapshotIndex state then Ok state
  else
    let lastIndex := lastIndexOf state in
    fail? negb (Index entry =? lastIndex +! 1) with errEntryOrder (Index entry) lastIndex in
    Ok (state <| rs_Log := rs_Log state ++ [entry] |>).

Definition decodeLegacyEntry (chunk : list byte) : LogEntry :=
  mkLogEntry (be_get (sub chunk 0 8)) (be_get (sub chunk 8 8)) (nth 16 chunk x00)
    (replicate 16 x00) 0 "" [].

Definition decodeEntryV2 (chunk : list byte) : LogEntry :=
  mkLogEntry (be_get (sub chunk 0 8)) (be_get (sub chunk 8 8)) (nth 16 chunk x00)
    (sub chunk 17 16) 0 "" [].

(** The loop over fixed-size entries of the two older record types. *)
Fixpoint recoverChunks (count size : nat) (decode : list byte -> LogEntry) (payload : list byte)
    (state : RecoveredState) : result Error RecoveredState :=
  match count with
  | O => Ok state
  | S count =>
      let? state := recoverEntry (decode (take size payload)) state in
      recoverChunks count size decode (drop size payload) state
  end.

Definition decodeLogEntry (payload : list byte) : result Error LogEntry :=
  fail? len payload <? 49 with errEntryRecordLength in
  let keyLength := be_get (sub payload 41 4) in
  let valueLength := be_get (sub payload 45 4) in
  fail? negb (49 + keyLength + valueLength =? len payload) with errEntryRecordLength in
  Ok {| Index := be_get (sub payload 0 8); Term := be_get (sub payload 8 8);
        EType := nth 16 payload x00; ESessionID := sub payload 17 16;
        Sequence := be_get (sub payload 33 8);
        Key := bytes_string (sub payload 49 (N.to_nat keyLength));
        Value := drop (49 + N.to_nat keyLength) payload |}.

Section Codec.
Context `{CheckpointCodec}.

Definition applyRecord (kind : recordType) (payload : list byte) (state : RecoveredState)
    : result Error RecoveredState :=
  let identity := rs_Identity state in
  match kind with
  | x01 =>
      if negb (bool_decide (ClusterID identity = "")) then
        fail? negb (bool_decide (ClusterID identity = bytes_string payload))
          with errClusterIdentity in Ok state
      else Ok (state <| rs_Identity := mkIdentity (bytes_string payload) (NodeID identity) |>)
  | x02 =>
      fail? bool_decide (ClusterID identity = "") with errNodeBeforeCluster in
      if negb (bool_decide (NodeID identity = "")) then
        fail? negb (bool_decide (NodeID identity = bytes_string payload))
          with errNodeIdentity in Ok state
      else Ok (state <| rs_Identity := mkIdentity (ClusterID identity) (bytes_string payload) |>)
  | x03 =>
      fail? bool_decide (NodeID identity = "") with errHardStateBeforeIdentity in
      fail? len payload <? 8 with errShortHardState in
      let term := be_get (take 8 payload) in
      let current := rs_HardState state in
      if term <? hs_Term current then Ok state
      else if (term =? hs_Term current) && negb (bool_decide (hs_VotedFor current = "")) then Ok state
      else Ok (state <| rs_HardState := mkHardState term (bytes_string (drop 8 payload)) |>)
  | x04 =>
      fail? (len payload =? 0) || negb (len payload mod 17 =? 0) with errEntryRecordLength in
      recoverChunks (Nat.div (length payload) 17) 17 decodeLegacyEntry payload state
  | x05 =>
      fail? (len payload =? 0) || negb (len payload mod 33 =? 0) with errEntryRecordLength in
      recoverChunks (Nat.div (length payload) 33) 33 decodeEntryV2 payload state
  | x06 =>
      let? entry := decodeLogEntry payload in
      recoverEntry entry state
  | x07 =>
      fail? negb (len payload =? 8) with errTruncationLength in
      let firstIndex := be_get payload in
      fail? (firstIndex <=? rs_SnapshotIndex state) || (lastIndexOf state +! 1 <? firstIndex)
        with errTruncateOutside firstIndex in
      fail? firstIndex <=? rs_CommitIndex state
        with errTruncateCommitted firstIndex (rs_CommitIndex state) in
      Ok (state <| rs_Log := take (N.to_nat (firstIndex - rs_SnapshotIndex state - 1))
                               (rs_Log state) |>)
  | x08 =>
      fail? negb (len payload =? 8) with errCommitLength in
      let index := be_get payload in
      if index <? rs_CommitIndex state then Ok state
      else
        fail? lastIndexOf state <? index with errCommitBeyondLog index (lastIndexOf state) in
        Ok (state <| rs_CommitIndex := index |>)
  | x09 =>
      match unmarshal payload with
      | None => Err errCheckpointDecode
      | Some checkpoint =>
          fail? negb (bool_decide (cp_Identity checkpoint = identity)) with errCheckpointIdentity in
          fail? rs_SnapshotIndex state <? cp_SnapshotIndex checkpoint with errCheckpointNewer in
          Ok state
      end
  | _ => Err (errUnknownRecord kind)
  end.

(** The frame loop of [readSegment] over the bytes from the current offset; the
    second component is how many of them the file keeps. *)
Fixpoint readFrames (fuel : nat) (recoverFinalFrame : bool) (rest : list byte)
    (state : RecoveredState) : result Error (RecoveredState * list byte) :=
  match fuel with
  | O => Err errFuel
  | S fuel =>
      if len rest =? 0 then Ok (state, [])
      else if len rest <? frameHeaderSize then
        if recoverFinalFrame then Ok (state, []) else Err errFrameHeaderEOF
      else
        let length := be_get (take 4 rest) in
        fail? (length =? 0) || (maxRecordSize <? length) with errFrameLength length in
        if len rest <? frameHeaderSize + length then
          if recoverFinalFrame then Ok (state, []) else Err errFrameBodyEOF
        else
          let frameEnd := N.to_nat (frameHeaderSize + length) in
          let body := sub rest 8 (N.to_nat length) in
          if negb (crc32 body =? be_get (sub rest 4 4)) then
            if recoverFinalFrame && (len rest =? frameHeaderSize + length)
            then Ok (state, []) else Err errChecksum
          else
            match body with
            | [] => Err errFuel
            | kind :: payload =>
                let? state := applyRecord kind payload state in
                let? (state, kept) := readFrames fuel recoverFinalFrame (drop frameEnd rest) state in
                Ok (state, take frameEnd rest ++ kept)
            end
  end.

Definition checkHeader (contents : list byte) : result Error unit :=
  fail? len contents <? segmentHeaderSize with errShortSegment in
  fail? negb (bool_decide (take 8 contents = segmentMagic)) with errMagic in
  let version := be_get (sub contents 8 4) in
  fail? negb (version =? formatVersion) with errVersion version in
  Ok tt.

(** Recovers one segment; the file it leaves has a torn final frame removed. *)
Definition readSegment (recoverFinalFrame : bool) (file : segmentFile) (state : RecoveredState)
    : result Error (RecoveredState * segmentFile) :=
  let? _ := checkHeader (sf_contents file) in
  let rest := drop 12 (sf_contents file) in
  let? (state, kept) := readFrames (S (length rest)) recoverFinalFrame rest state in
  let contents := take 12 (sf_contents file) ++ kept in
  Ok (state, if len contents <? len (sf_contents file)
             then file <| sf_contents := contents |> <| sf_synced := len contents |>
             else file).

(** [scanSegmentFrames] with the visitor's accumulator made explicit. *)
Fixpoint scanFrames {A} (fuel : nat) (tolerateInterruptedTail : bool)
    (visit : recordType -> list byte -> A -> result Error A) (rest : list byte) (acc : A)
    : result Error A :=
  match fuel with
  | O => Err errFuel
  | S fuel =>
      if len rest =? 0 then Ok acc
      else if len rest <? frameHeaderSize then
        if tolerateInterruptedTail then Ok acc else Err errFrameHeaderEOF
      else
        let length := be_get (take 4 rest) in
        fail? (length =? 0) || (maxRecordSize <? length) with errFrameLength length in
        if len rest <? frameHeaderSize + length then
          if tolerateInterruptedTail then Ok acc else Err errFrameBodyEOF
        else
          let body := sub rest 8 (N.to_nat length) in
          if negb (crc32 body =? be_get (sub rest 4 4)) then
            if tolerateInterruptedTail && (len rest =? frameHeaderSize + length)
            then Ok acc else Err errChecksum
          else
            match body with
            | [] => Err errFuel
            | kind :: payload =>
                let? acc := visit kind payload acc in
                scanFrames fuel tolerateInterruptedTail visit
                  (drop (N.to_nat (frameHeaderSize + length)) rest) acc
            end
  end.

Definition scanSegmentFrames {A} (tolerateInterruptedTail : bool)
    (visit : recordType -> list byte -> A -> result Error A) (file : segmentFile) (acc : A)
    : result Error A :=
  let? _ := checkHeader (sf_contents file) in
  let rest := drop 12 (sf_contents file) in
  scanFrames (S (length rest)) tolerateInterruptedTail visit rest acc.

Definition visitCheckpoint (kind : recordType) (payload : list byte)
    (newest : compactionCheckpoint) : result Error compactionCheckpoint :=
  if negb (bool_decide (kind = recordCompactionCheckpoint)) then Ok newest
  else
    match unmarshal payload with
    | None => Err errCheckpointDecode
    | Some checkpoint =>
        fail? blank_string (ClusterID (cp_Identity checkpoint))
              || blank_string (NodeID (cp_Identity checkpoint)) with errCheckpointIdentity in
        fail? (cp_SnapshotIndex checkpoint =? 0) || (cp_SnapshotTerm checkpoint =? 0)
              || (cp_CommitIndex checkpoint <? cp_SnapshotIndex checkpoint)
          with errCheckpointPosition in
        Ok checkpoint
    end.

Definition zeroCheckpoint : compactionCheckpoint :=
  mkCheckpoint (mkIdentity "" "") (mkHardState 0 "") 0 0 0.

(** Scans the segments in order; only the last may have an interrupted tail. *)
Fixpoint scanCheckpoints (segments : list segmentFile) (newest : compactionCheckpoint)
    : result Error compactionCheckpoint :=
  match segments with
  | [] => Ok newest
  | segment :: rest =>
      let final := match rest with [] => true | _ => false end in
      let? newest := scanSegmentFrames final visitCheckpoint segment newest in
      scanCheckpoints rest newest
  end.

Definition newestCompactionCheckpoint (segments : list segmentFile)
    : result Error compactionCheckpoint :=
  scanCheckpoints segments zeroCheckpoint.

Fixpoint readSegments (segments : list segmentFile) (state : RecoveredState)
    : result Error (RecoveredState * list segmentFile) :=
  match segments with
  | [] => Ok (state, [])
  | segment :: rest =>
      let final := match rest with [] => true | _ => false end in
      let? (state, segment) := readSegment final segment state in
      let? (state, rest) := readSegments rest state in
      Ok (state, segment :: rest)
  end.

Definition checkpointState (checkpoint : compactionCheckpoint) : RecoveredState :=
  mkRecoveredState (cp_Identity checkpoint) (cp_HardState checkpoint) []
    (cp_CommitIndex checkpoint) (cp_SnapshotIndex checkpoint) (cp_SnapshotTerm checkpoint).

Definition recoverSegments (segments : list segmentFile)
    : result Error (RecoveredState * list segmentFile) :=
  let? checkpoint := newestCompactionCheckpoint segments in
  let? (state, segments) := readSegments segments (checkpointState checkpoint) in
  fail? bool_decide (ClusterID (rs_Identity state) = "")
        || bool_decide (NodeID (rs_Identity state) = "") with errIncompleteIdentity in
  Ok (state, segments).

(** ** Compaction *)

(** Positions of the fixed-size entries in an older record: [offset + size <= len]. *)
Fixpoint chunkIndexes (count size : nat) (payload : list byte) : list N :=
  match count with
  | O => []
  | S count => be_get (sub payload 0 8) :: chunkIndexes count size (drop size payload)
  end.

Definition visitCovered (snapshotIndex : N) (kind : recordType) (payload : list byte)
    (covered : bool) : result Error bool :=
  Ok (match kind with
      | x04 => covered && forallb (fun i => i <=? snapshotIndex)
                            (chunkIndexes (Nat.div (length payload) 17) 17 payload)
      | x05 => covered && forallb (fun i => i <=? snapshotIndex)
                            (chunkIndexes (Nat.div (length payload) 33) 33 payload)
      | x06 => covered && negb ((len payload <? 8) || (snapshotIndex <? be_get (take 8 payload)))
      | x07 => covered && negb (negb (len payload =? 8) || (snapshotIndex <? be_get payload))
      | _ => covered
      end).

Definition segmentCoveredBySnapshot (file : segmentFile) (snapshotIndex : N) : result Error bool :=
  scanSegmentFrames false (visitCovered snapshotIndex) file true.

Definition installSnapshotCheckpoint (snapshotIndex snapshotTerm commitIndex : N) : WM unit :=
  let+ w := eget in
  let checkpoint := mkCheckpoint (w_identity w) (w_hardState w) commitIndex
                      snapshotIndex snapshotTerm in
  do+ appendRecord recordCompactionCheckpoint (marshal checkpoint) in
  do+ sync in
  do+ emodify (fun w => w <| w_snapshotIndex := snapshotIndex |>
                          <| w_snapshotTerm := snapshotTerm |>) in
  let+ w := eget in
  let+ segments := elift (findSegments (w_directory w)) in
  do+ efor (fun segment =>
        if sf_number segment =? w_segment w then eret tt
        else
          let+ covered := elift (segmentCoveredBySnapshot segment snapshotIndex) in
          if covered
          then emodify (fun w => w <| w_directory := removeFile (sf_number segment) (w_directory w) |>)
          else eret tt) segments in
  emodify (fun w => w <| w_entryBytes :=
                         filter (fun kv : N * N => snapshotIndex < kv.1) (w_entryBytes w) |>).

Definition Compact (snapshotIndex snapshotTerm : N) : WM unit :=
  let+ w := eget in
  if negb (w_open w) then elift (Err errClosed)
  else if (snapshotIndex =? 0) || (w_commitIndex w <? snapshotIndex)
  then elift (Err (errSnapshotOutside snapshotIndex))
  else installSnapshotCheckpoint snapshotIndex snapshotTerm (w_commitIndex w).

Definition InstallSnapshot (snapshotIndex snapshotTerm : N) : WM unit :=
  let+ w := eget in
  if negb (w_open w) then elift (Err errClosed)
  else if (snapshotIndex =? 0) || (snapshotTerm =? 0) || (snapshotIndex <? w_snapshotIndex w)
  then elift (Err errSnapshotPosition)
  else
    do+ installSnapshotCheckpoint snapshotIndex snapshotTerm
          (N.max (w_commitIndex w) snapshotIndex) in
    emodify (fun w => w <| w_commitIndex := N.max (w_commitIndex w) snapshotIndex |>
                        <| w_lastLogIndex := N.max (w_lastLogIndex w) snapshotIndex |>).

(** ** Opening *)

(** A successful call yields the WAL handle, which holds the directory as
    recovery left it; the directory of a failed call is not represented. *)
Definition open (identity : Identity) (segmentSize : N) (directory : list segmentFile)
    : result Error (WAL * RecoveredState) :=
  fail? blank_string (ClusterID identity) || blank_string (NodeID identity)
    with errIdentityRequired in
  fail? segmentSize <=? segmentHeaderSize + frameHeaderSize with errSegmentSize in
  let? segments := findSegments directory in
  match list.last segments with
  | None =>
      let fresh := mkWAL [] segmentSize 0 false 0 0 0 (mkHardState 0 "") identity 0 0 ∅ in
      let create :=
        do+ createSegment 1 in
        do+ appendRecord recordClusterIdentity (string_bytes (ClusterID identity)) in
        do+ appendRecord recordNodeIdentity (string_bytes (NodeID identity)) in
        sync in
      match create fresh with
      | (Ok _, w) => Ok (w, mkRecoveredState identity (mkHardState 0 "") [] 0 0 0)
      | (Err e, _) => Err e
      end
  | Some _ =>
      let? (recovered, segments) := recoverSegments segments in
      fail? negb (bool_decide (rs_Identity recovered = identity)) with errIdentityMismatch in
      let segments := map foundFile segments in
      let last := default (mkSegment 0 [] 0 0) (list.last segments) in
      Ok ({| w_directory := segments; w_segmentSize := segmentSize;
             w_segment := sf_number last; w_open := true; w_offset := len (sf_contents last);
             w_lastLogIndex := lastIndexOf recovered; w_commitIndex := rs_CommitIndex recovered;
             w_hardState := rs_HardState recovered; w_identity := identity;
             w_snapshotIndex := rs_SnapshotIndex recovered;
             w_snapshotTerm := rs_SnapshotTerm recovered;
             w_entryBytes := list_to_map (map (fun entry =>
               (Index entry, frameHeaderSize + 1 + 49
                  + (N.of_nat (String.length (Key entry)) + len (Value entry))))
               (rs_Log recovered)) |}, recovered)
  end.

Definition Open (identity : Identity) (directory : list segmentFile) :=
  open identity defaultSegmentSize directory.

End Codec.

(** ** Saving *)

Definition SaveHardState (state : HardState) : WM unit :=
  let+ w := eget in
  if negb (w_open w) then elift (Err errClosed)
  else
    do+ appendRecord recordHardState (encodeHardState state) in
    do+ sync in
    emodify (fun w => w <| w_hardState := state |>).

(** The index check over all entries, before anything is written. *)
Fixpoint checkEntryIndexes (lastLogIndex offset : N) (entries : list LogEntry) : result Error unit :=
  match entries with
  | [] => Ok tt
  | entry :: rest =>
      let want := lastLogIndex +! offset +! 1 in
      fail? negb (Index entry =? want) with errEntryIndex (Index entry) want in
      checkEntryIndexes lastLogIndex (offset + 1) rest
  end.

Definition SaveLogEntries (entries : list LogEntry) : WM unit :=
  let+ w := eget in
  if negb (w_open w) then elift (Err errClosed)
  else if len entries =? 0 then elift (Err errNoEntries)
  else
    do+ elift (checkEntryIndexes (w_lastLogIndex w) 0 entries) in
    do+ efor (fun entry =>
          let payload := encodeLogEntry entry in
          do+ appendRecord recordLogEntryV3 payload in
          emodify (fun w => w <| w_entryBytes :=
            <[Index entry := frameHeaderSize + 1 + len payload]> (w_entryBytes w) |>)) entries in
    do+ sync in
    emodify (fun w => w <| w_lastLogIndex := w_lastLogIndex w +! len entries |>).

Definition TruncateLog (firstIndex : N) : WM unit :=
  let+ w := eget in
  if negb (w_open w) then elift (Err errClosed)
  else if (firstIndex =? 0) || (w_lastLogIndex w +! 1 <? firstIndex)
  then elift (Err (errTruncateOutside firstIndex))
  else if firstIndex <=? w_commitIndex w
  then elift (Err (errTruncateCommitted firstIndex (w_commitIndex w)))
  else
    do+ appendRecord recordLogTruncation (be_put 8 firstIndex) in
    do+ sync in
    emodify (fun w => w <| w_entryBytes :=
        filter (fun kv : N * N => ~ (firstIndex <= kv.1 /\ kv.1 <= w_lastLogIndex w))
          (w_entryBytes w) |> <| w_lastLogIndex := firstIndex -! 1 |>).

Definition SaveCommitIndex (index : N) : WM unit :=
  let+ w := eget in
  if negb (w_open w) then elift (Err errClosed)
  else if index <? w_commitIndex w then elift (Err (errCommitDecreased (w_commitIndex w) index))
  else if w_lastLogIndex w <? index then elift (Err (errCommitBeyondLog index (w_lastLogIndex w)))
  else if index =? w_commitIndex w then eret tt
  else
    do+ appendRecord recordCommitIndex (be_put 8 index) in
    do+ sync in
    emodify (fun w => w <| w_commitIndex := index |>).

Definition RetainedLogBytes (w : WAL) (throughIndex : N) : N :=
  map_fold (fun index size total =>
      if (w_snapshotIndex w <? index) && (index <=? throughIndex) then total +! size else total)
    0 (w_entryBytes w).

Definition Close : WM unit := emodify (fun w => w <| w_open := false |>).

#[global] Arguments frame : simpl never.
#[global] Arguments segmentHeader : simpl never.
#[global] Arguments encodeLogEntry : simpl never.
#[global] Arguments encodeHardState : simpl never.
#[global] Arguments segmentHeaderSize : simpl never.
#[global] Arguments frameHeaderSize : simpl never.
#[global] Arguments maxRecordSize : simpl never.
