(* ===== verification/WalJson.v ===== *)
(** The JSON text of a compaction checkpoint, as [encoding/json] writes it for
    the struct of [internal/wal/wal.go], with a reader for that text.  It is an
    instance of the codec the WAL model is parameterized by. *)

From S2P Require Import Prelude Bytes Json Wal.

(** ** The checkpoint *)

Definition jsonCheckpoint (c : compactionCheckpoint) : list byte :=
  (string_bytes "{" ++ label "identity" ++ string_bytes "{" ++ label "ClusterID")
  ++ jsonString (ClusterID (cp_Identity c))
  ++ (string_bytes "," ++ label "NodeID") ++ jsonString (NodeID (cp_Identity c))
  ++ (string_bytes "}," ++ label "hard_state" ++ string_bytes "{" ++ label "Term")
  ++ jsonNumber (hs_Term (cp_HardState c))
  ++ (string_bytes "," ++ label "VotedFor") ++ jsonString (hs_VotedFor (cp_HardState c))
  ++ (string_bytes "}," ++ label "commit_index") ++ jsonNumber (cp_CommitIndex c)
  ++ (string_bytes "," ++ label "snapshot_index") ++ jsonNumber (cp_SnapshotIndex c)
  ++ (string_bytes "," ++ label "snapshot_term") ++ jsonNumber (cp_SnapshotTerm c)
  ++ string_bytes "}".

Definition readCheckpoint (l : list byte) : option compactionCheckpoint :=
  l ← readLiteral (string_bytes "{" ++ label "identity" ++ string_bytes "{" ++ label "ClusterID") l;
  '(cluster, l) ← readString l;
  l ← readLiteral (string_bytes "," ++ label "NodeID") l;
  '(node, l) ← readString l;
  l ← readLiteral (string_bytes "}," ++ label "hard_state" ++ string_bytes "{" ++ label "Term") l;
  '(term, l) ← readNumber l;
  l ← readLiteral (string_bytes "," ++ label "VotedFor") l;
  '(vote, l) ← readString l;
  l ← readLiteral (string_bytes "}," ++ label "commit_index") l;
  '(commit, l) ← readNumber l;
  l ← readLiteral (string_bytes "," ++ label "snapshot_index") l;
  '(index, l) ← readNumber l;
  l ← readLiteral (string_bytes "," ++ label "snapshot_term") l;
  '(sterm, l) ← readNumber l;
  l ← readLiteral (string_bytes "}") l;
  match l with
  | [] => Some (mkCheckpoint (mkIdentity cluster node) (mkHardState term vote) commit index sterm)
  | _ => None
  end.

(** Positions are [uint64] values and names are UTF-8. *)
Definition jsonable (c : compactionCheckpoint) : Prop :=
  valid_utf8 (ClusterID (cp_Identity c)) = true /\ valid_utf8 (NodeID (cp_Identity c)) = true /\
  valid_utf8 (hs_VotedFor (cp_HardState c)) = true /\
  hs_Term (cp_HardState c) < two64 /\ cp_CommitIndex c < two64 /\
  cp_SnapshotIndex c < two64 /\ cp_SnapshotTerm c < two64.

(** ** Round trip *)

Lemma readCheckpoint_json c : jsonable c -> readCheckpoint (jsonCheckpoint c) = Some c.
Proof.
  intros (_ & _ & _ & ? & ? & ? & ?). unfold readCheckpoint, jsonCheckpoint.
  do 14 json_step.
  rewrite <- (app_nil_r (string_bytes "}")), readLiteral_app; cbn [mbind option_bind].
  by destruct c as [[] [] ? ? ?].
Qed.

#[export] Instance jsonCodec : CheckpointCodec := {|
  marshal := jsonCheckpoint; unmarshal := readCheckpoint; marshalable := jsonable;
  unmarshal_marshal := readCheckpoint_json |}.
