(* ===== verification/WalRecovery.v ===== *)
(** Recovery of the write-ahead log: the bytes of a segment determine the
    records that were appended, a torn final frame is dropped, and replaying the
    records reconstructs the consensus state. *)

From S2P Require Import Prelude Bytes Wal.

(** ** Records and the bytes that carry them *)

Definition rec : Type := recordType * list byte.
Definition bodyOf (r : rec) : list byte := r.1 :: r.2.
Definition encode (rs : list rec) : list byte := concat (map (fun r => frame (bodyOf r)) rs).
Definition fits (r : rec) : Prop := len (bodyOf r) <= maxRecordSize.

(** A proper prefix of one frame, as an interrupted write leaves it. *)
Definition torn (t : list byte) : Prop :=
  exists r suffix, fits r /\ suffix <> [] /\ frame (bodyOf r) = t ++ suffix.

(** ** One frame *)

Lemma len_frame body : len (frame body) = 8 + len body.
Proof. unfold frame. rewrite !len_app, !len_be_put. lia. Qed.

Lemma maxRecordSize_small : maxRecordSize < two32.
Proof. done. Qed.

Lemma frame_header body rest : take 4 (frame body ++ rest) = be_put 4 (len body).
Proof.
  unfold frame. rewrite <- !app_assoc, take_app_le by (rewrite length_be_put; lia).
  apply take_ge. by rewrite length_be_put.
Qed.

Lemma frame_checksum body rest : sub (frame body ++ rest) 4 4 = be_put 4 (crc32 body).
Proof.
  unfold sub, frame. rewrite <- !app_assoc, drop_app_ge by (rewrite length_be_put; lia).
  rewrite length_be_put, Nat.sub_diag, drop_0.
  rewrite take_app_le by (rewrite length_be_put; lia). apply take_ge. by rewrite length_be_put.
Qed.

Lemma frame_split body rest :
  sub (frame body ++ rest) 8 (length body) = body /\
  drop (8 + length body) (frame body ++ rest) = rest /\
  take (8 + length body) (frame body ++ rest) = frame body.
Proof.
  assert (Hl : length (frame body) = (8 + length body)%nat)
    by (unfold frame; rewrite !length_app, !length_be_put; lia).
  split_and!.
  - unfold sub, frame. rewrite app_assoc, <- app_assoc, drop_app_ge
      by (rewrite length_app, !length_be_put; lia).
    rewrite length_app, !length_be_put, drop_0.
    rewrite take_app_le by done. by apply take_ge.
  - by rewrite <- Hl, drop_app_length.
  - by rewrite <- Hl, take_app_length.
Qed.

Lemma encode_cons r rs : encode (r :: rs) = frame (bodyOf r) ++ encode rs.
Proof. done. Qed.

Lemma encode_app rs1 rs2 : encode (rs1 ++ rs2) = encode rs1 ++ encode rs2.
Proof. unfold encode. by rewrite map_app, concat_app. Qed.

Lemma bodyOf_len r : 0 < len (bodyOf r).
Proof. unfold bodyOf. rewrite len_cons. lia. Qed.

(** What the frame loops compute from the bytes at the start of a fitting frame. *)
Lemma frame_fields r rest :
  fits r ->
  be_get (take 4 (frame (bodyOf r) ++ rest)) = len (bodyOf r) /\
  be_get (sub (frame (bodyOf r) ++ rest) 4 4) = crc32 (bodyOf r) /\
  sub (frame (bodyOf r) ++ rest) 8 (N.to_nat (len (bodyOf r))) = bodyOf r /\
  drop (N.to_nat (frameHeaderSize + len (bodyOf r))) (frame (bodyOf r) ++ rest) = rest /\
  take (N.to_nat (frameHeaderSize + len (bodyOf r))) (frame (bodyOf r) ++ rest) = frame (bodyOf r).
Proof.
  intros Hfit. pose proof maxRecordSize_small. unfold fits in Hfit.
  rewrite frame_header, frame_checksum.
  destruct (frame_split (bodyOf r) rest) as (Hb & Hd & Ht).
  replace (N.to_nat (frameHeaderSize + len (bodyOf r))) with (8 + length (bodyOf r))%nat
    by (unfold frameHeaderSize, len; lia).
  replace (N.to_nat (len (bodyOf r))) with (length (bodyOf r)) by (unfold len; lia).
  split_and!; try done.
  - apply be_get_put32. lia.
  - apply be_get_put32, crc32_lt.
Qed.

(** A torn frame is shorter than its header, or announces more than is there. *)
Lemma torn_cases t :
  torn t -> t <> [] ->
  len t < frameHeaderSize \/
  (frameHeaderSize <= len t /\ exists r, fits r /\ be_get (take 4 t) = len (bodyOf r) /\
     len t < frameHeaderSize + len (bodyOf r)).
Proof.
  intros (r & suffix & Hfit & Hs & E) Hne. destruct (N.lt_ge_cases (len t) frameHeaderSize); [by left|].
  right. split; [done|]. exists r. split; [done|].
  assert (Hlen : len t + len suffix = 8 + len (bodyOf r)) by (by rewrite <- len_app, <- E, len_frame).
  assert (0 < len suffix) by (destruct suffix; [done|rewrite len_cons; lia]).
  split; [|unfold frameHeaderSize; lia].
  pose proof (frame_fields r [] Hfit) as [Hf _]. rewrite app_nil_r, E in Hf.
  rewrite take_app_le in Hf; [done|]. unfold len, frameHeaderSize in *. lia.
Qed.

(** ** The frame loops *)

Section Codec.
Context `{CheckpointCodec}.

Definition applyRec (r : rec) (state : RecoveredState) : result Error RecoveredState :=
  applyRecord r.1 r.2 state.

Lemma encode_length rs : (length rs <= length (encode rs))%nat.
Proof.
  induction rs as [|r rs IH]; [cbn; lia|]. rewrite encode_cons, length_app. cbn [length].
  pose proof (len_frame (bodyOf r)). unfold len in *. lia.
Qed.

Lemma readFrames_torn fuel t state :
  torn t \/ t = [] -> readFrames (S fuel) true t state = Ok (state, []).
Proof.
  intros Ht. cbn [readFrames]. destruct (N.eqb_spec (len t) 0) as [|Hz]; [done|].
  destruct Ht as [Ht| ->]; [|done].
  destruct (torn_cases t Ht) as [Hs|(Hge & r & Hfit & Hl & Hlt)].
  - by intros ->.
  - by apply N.ltb_lt in Hs as ->.
  - apply N.ltb_ge in Hge as ->. rewrite Hl. pose proof (bodyOf_len r). unfold fits in Hfit.
    rewrite (proj2 (N.eqb_neq _ _)) by lia. apply N.ltb_ge in Hfit as ->. cbn.
    by apply N.ltb_lt in Hlt as ->.
Qed.

(** Evaluates a frame loop at the start of the frame of [r]. *)
Ltac at_frame r rest Hfit :=
  let Hl := fresh "Hl" in let Hc := fresh "Hc" in let Hb := fresh "Hb" in
  let Hd := fresh "Hd" in let Htk := fresh "Htk" in let Hlen := fresh "Hlen" in
  pose proof (frame_fields r rest Hfit) as (Hl & Hc & Hb & Hd & Htk);
  rewrite Hl, Hc, Hb, Hd, ?Htk; pose proof (bodyOf_len r);
  assert (Hlen : frameHeaderSize + len (bodyOf r) <= len (frame (bodyOf r) ++ rest))
    by (rewrite len_app, len_frame; unfold frameHeaderSize; lia);
  rewrite (proj2 (N.eqb_neq _ _)) by (unfold frameHeaderSize in *; lia);
  rewrite (proj2 (N.ltb_ge _ _)) by (unfold frameHeaderSize in *; lia);
  rewrite (proj2 (N.eqb_neq (len (bodyOf r)) 0)) by lia;
  rewrite (proj2 (N.ltb_ge maxRecordSize _)) by exact Hfit;
  cbn [orb guard rbind]; rewrite (proj2 (N.ltb_ge _ _) Hlen), N.eqb_refl; cbn [negb];
  unfold bodyOf at 1; cbn [rfold rbind].

(** The frame loop over whole frames followed by anything. *)
Lemma readFrames_app fuel (final : bool) rs rest state :
  Forall fits rs ->
  readFrames (length rs + fuel) final (encode rs ++ rest) state =
    rbind (rfold applyRec rs state) (fun state1 =>
    rbind (readFrames fuel final rest state1) (fun p => Ok (p.1, encode rs ++ p.2))).
Proof.
  intros Hfits. revert state. induction Hfits as [|r rs Hfit _ IH]; intros state.
  - cbn [encode map concat app rfold rbind length Nat.add].
    by destruct (readFrames fuel final rest state) as [[? ?]|].
  - cbn [length Nat.add]. rewrite encode_cons, <- app_assoc. cbn [readFrames].
    at_frame r (encode rs ++ rest) Hfit.
    fold (applyRec r state). destruct (applyRec r state) as [state'|e]; [|done]. cbn [rbind].
    rewrite IH. destruct (rfold applyRec rs state') as [state1|]; [|done]. cbn [rbind].
    destruct (readFrames fuel final rest state1) as [[? ?]|]; [|done]. cbn. by rewrite app_assoc.
Qed.

Lemma readFrames_encode fuel (final : bool) rs t state :
  Forall fits rs -> (length rs < fuel)%nat ->
  (if final then torn t \/ t = [] else t = []) ->
  readFrames fuel final (encode rs ++ t) state =
    rbind (rfold applyRec rs state) (fun state' => Ok (state', encode rs)).
Proof.
  intros Hfits Hfuel Ht. replace fuel with (length rs + S (fuel - length rs - 1))%nat by lia.
  rewrite readFrames_app by done. destruct (rfold applyRec rs state) as [state'|]; [|done].
  cbn [rbind]. destruct final.
  - rewrite readFrames_torn by done. cbn [rbind fst snd]. by rewrite app_nil_r.
  - subst t. change (readFrames (S _) false [] state') with
      (Ok (state', []) : result Error (RecoveredState * list byte)).
    cbn [rbind fst snd]. by rewrite app_nil_r.
Qed.

Lemma scanFrames_torn {A} (visit : recordType -> list byte -> A -> result Error A) fuel t acc :
  torn t \/ t = [] -> scanFrames (S fuel) true visit t acc = Ok acc.
Proof.
  intros Ht. cbn [scanFrames]. destruct (N.eqb_spec (len t) 0) as [|Hz]; [done|].
  destruct Ht as [Ht| ->]; [|done].
  destruct (torn_cases t Ht) as [Hs|(Hge & r & Hfit & Hl & Hlt)].
  - by intros ->.
  - by apply N.ltb_lt in Hs as ->.
  - apply N.ltb_ge in Hge as ->. rewrite Hl. pose proof (bodyOf_len r). unfold fits in Hfit.
    rewrite (proj2 (N.eqb_neq _ _)) by lia. apply N.ltb_ge in Hfit as ->. cbn.
    by apply N.ltb_lt in Hlt as ->.
Qed.

Lemma scanFrames_encode {A} (visit : recordType -> list byte -> A -> result Error A)
    fuel (final : bool) rs t acc :
  Forall fits rs -> (length rs < fuel)%nat ->
  (if final then torn t \/ t = [] else t = []) ->
  scanFrames fuel final visit (encode rs ++ t) acc = rfold (fun r : rec => visit r.1 r.2) rs acc.
Proof.
  revert fuel acc. induction rs as [|r rs IH]; intros fuel acc Hfits Hfuel Ht.
  - destruct fuel as [|fuel]; [cbn in Hfuel; lia|]. cbn [encode map concat app rfold].
    destruct final; [by apply scanFrames_torn|]. by subst t.
  - destruct fuel as [|fuel]; [lia|]. apply Forall_cons in Hfits as [Hfit Hfits].
    rewrite encode_cons, <- app_assoc. cbn [scanFrames]. at_frame r (encode rs ++ t) Hfit.
    destruct (visit r.1 r.2 acc) as [acc'|e]; [|done]. cbn [rbind].
    apply IH; [done|cbn in Hfuel; lia|done].
Qed.

(** A body whose bytes changed within a window of four, followed by more data. *)
Lemma readFrames_corrupt fuel final pre m1 m2 post rest state :
  let body := pre ++ m1 ++ post in
  let corrupted := pre ++ m2 ++ post in
  length m1 = length m2 -> (length m1 <= 4)%nat -> m1 <> m2 ->
  0 < len body <= maxRecordSize -> rest <> [] ->
  readFrames (S fuel) final (be_put 4 (len body) ++ be_put 4 (crc32 body) ++ corrupted ++ rest) state
  = Err errChecksum.
Proof.
  intros body corrupted Hlen H4 Hne Hsize Hrest. pose proof maxRecordSize_small.
  assert (Hl : len corrupted = len body)
    by (unfold body, corrupted; rewrite !len_app; unfold len; rewrite Hlen; lia).
  pose proof (crc32_burst pre m1 m2 post Hlen H4 Hne) as Hcrc. fold body corrupted in Hcrc.
  assert (0 < len rest) by (destruct rest; [done|rewrite len_cons; lia]).
  set (bytes := be_put 4 _ ++ _).
  assert (Hbytes : len bytes = 8 + len body + len rest)
    by (unfold bytes; rewrite !len_app, !len_be_put, Hl; lia).
  assert (Hb1 : take 4 bytes = be_put 4 (len body)).
  { unfold bytes. rewrite take_app_le by (rewrite length_be_put; lia).
    apply take_ge. by rewrite length_be_put. }
  assert (Hb2 : sub bytes 4 4 = be_put 4 (crc32 body)).
  { unfold sub, bytes. rewrite drop_app_ge, length_be_put, drop_0 by (rewrite length_be_put; lia).
    rewrite take_app_le by (rewrite length_be_put; lia). apply take_ge. by rewrite length_be_put. }
  assert (Hb3 : sub bytes 8 (N.to_nat (len body)) = corrupted).
  { unfold sub, bytes. rewrite app_assoc, drop_app_ge by (rewrite length_app, !length_be_put; lia).
    rewrite length_app, !length_be_put, drop_0. rewrite <- Hl. unfold len.
    rewrite Nat2N.id. apply take_app_length. }
  cbn [readFrames]. rewrite Hb1, Hb2, !be_get_put32, Hb3, Hbytes by (lia || apply crc32_lt).
  unfold frameHeaderSize.
  rewrite (proj2 (N.eqb_neq _ _)) by lia. rewrite (proj2 (N.ltb_ge _ 8)) by lia.
  rewrite (proj2 (N.eqb_neq (len body) 0)), (proj2 (N.ltb_ge maxRecordSize _)) by lia.
  cbn [orb guard rbind]. rewrite (proj2 (N.ltb_ge _ _)) by lia.
  rewrite (proj2 (N.eqb_neq _ _)) by (intros E; by rewrite E in Hcrc). cbn [negb].
  rewrite (proj2 (N.eqb_neq (8 + len body + len rest) _)) by lia. by rewrite andb_false_r.
Qed.

(** ** Segments and directories *)

Lemma length_segmentHeader : length segmentHeader = 12%nat.
Proof. done. Qed.

Lemma checkHeader_ok rest : checkHeader (segmentHeader ++ rest) = Ok tt.
Proof.
  unfold checkHeader. rewrite (proj2 (N.ltb_ge _ _)).
  2:{ rewrite len_app. unfold len, segmentHeaderSize. rewrite length_segmentHeader. lia. }
  done.
Qed.

(** The bytes of a segment that holds [rs] followed by [t]. *)
Definition segmentBytes (rs : list rec) (t : list byte) : list byte :=
  segmentHeader ++ encode rs ++ t.

(** Segment files, the records each holds, and the interrupted tail [t] of the last. *)
Inductive holds (t : list byte) : list segmentFile -> list (list rec) -> Prop :=
| holds_last file rs :
    sf_contents file = segmentBytes rs t -> Forall fits rs -> holds t [file] [rs]
| holds_cons file rs files rss :
    sf_contents file = segmentBytes rs [] -> Forall fits rs -> holds t files rss ->
    holds t (file :: files) (rs :: rss).

(** Replaying records from the newest checkpoint among them. *)
Definition recoverRecords (rs : list rec) : result Error RecoveredState :=
  let? checkpoint := rfold (fun r : rec => visitCheckpoint r.1 r.2) rs zeroCheckpoint in
  let? state := rfold applyRec rs (checkpointState checkpoint) in
  fail? bool_decide (ClusterID (rs_Identity state) = "")
        || bool_decide (NodeID (rs_Identity state) = "") with errIncompleteIdentity in
  Ok state.

Lemma scanSegment_holds {A} (visit : recordType -> list byte -> A -> result Error A)
    (final : bool) file rs t acc :
  sf_contents file = segmentBytes rs t -> Forall fits rs ->
  (if final then torn t \/ t = [] else t = []) ->
  scanSegmentFrames final visit file acc = rfold (fun r : rec => visit r.1 r.2) rs acc.
Proof.
  intros Hc Hfits Ht. unfold scanSegmentFrames. rewrite Hc. unfold segmentBytes.
  rewrite checkHeader_ok. cbn [rbind].
  change 12%nat with (length segmentHeader). rewrite drop_app_length.
  apply scanFrames_encode; [done| |done]. pose proof (encode_length rs). rewrite length_app. lia.
Qed.

(** The file a recovered segment leaves: the torn tail is gone. *)
Definition trimmed (file : segmentFile) (rs : list rec) (t : list byte) : segmentFile :=
  match t with
  | [] => file
  | _ => file <| sf_contents := segmentBytes rs [] |> <| sf_synced := len (segmentBytes rs []) |>
  end.

Lemma readSegment_holds (final : bool) file rs t state :
  sf_contents file = segmentBytes rs t -> Forall fits rs ->
  (if final then torn t \/ t = [] else t = []) ->
  readSegment final file state =
    rbind (rfold applyRec rs state) (fun state' => Ok (state', trimmed file rs t)).
Proof.
  intros Hc Hfits Ht. unfold readSegment. rewrite Hc. unfold segmentBytes.
  rewrite checkHeader_ok. cbn [rbind].
  change 12%nat with (length segmentHeader). rewrite drop_app_length, take_app_length.
  rewrite readFrames_encode; [|done| |done].
  2:{ pose proof (encode_length rs). rewrite length_app. lia. }
  destruct (rfold applyRec rs state) as [state'|e]; [|done]. cbn [rbind].
  do 2 f_equal. unfold trimmed, segmentBytes. destruct t as [|b t].
  - rewrite app_nil_r, N.ltb_irrefl. done.
  - rewrite (proj2 (N.ltb_lt _ _)) by (rewrite !len_app, len_cons; lia).
    by rewrite app_nil_r.
Qed.

(** The directory recovery leaves: only the last file can change. *)
Fixpoint trimmedFiles (files : list segmentFile) (last : list rec) (t : list byte)
    : list segmentFile :=
  match files with
  | [] => []
  | [file] => [trimmed file last t]
  | file :: files => file :: trimmedFiles files last t
  end.

Definition lastRecords (rss : list (list rec)) : list rec := default [] (list.last rss).

Lemma holds_not_nil t files rss : holds t files rss -> files <> [] /\ rss <> [].
Proof. by destruct 1. Qed.

Lemma scanCheckpoints_holds files rss t newest :
  torn t \/ t = [] -> holds t files rss ->
  scanCheckpoints files newest =
    rfold (fun r : rec => visitCheckpoint r.1 r.2) (concat rss) newest.
Proof.
  intros Ht Hh. revert newest. induction Hh as [file rs Hc Hfits|file rs files rss Hc Hfits Hh IH];
    intros newest; cbn [scanCheckpoints concat].
  - rewrite (scanSegment_holds _ true file rs t) by done. rewrite app_nil_r.
    by destruct (rfold _ rs newest).
  - apply holds_not_nil in Hh as [Hf _]. destruct files as [|file' files]; [done|].
    rewrite (scanSegment_holds _ false file rs []) by done. rewrite rfold_app.
    destruct (rfold _ rs newest); [|done]. apply IH.
Qed.

Lemma readSegments_holds files rss t state :
  torn t \/ t = [] -> holds t files rss ->
  readSegments files state =
    rbind (rfold applyRec (concat rss) state)
      (fun state' => Ok (state', trimmedFiles files (lastRecords rss) t)).
Proof.
  intros Ht Hh. revert state. induction Hh as [file rs Hc Hfits|file rs files rss Hc Hfits Hh IH];
    intros state; cbn [readSegments concat].
  - rewrite (readSegment_holds true file rs t) by done. rewrite app_nil_r.
    by destruct (rfold applyRec rs state).
  - apply holds_not_nil in Hh as [Hf Hr].
    destruct files as [|file' files]; [done|]. destruct rss as [|rs' rss]; [done|].
    rewrite (readSegment_holds false file rs []) by done. rewrite rfold_app.
    destruct (rfold applyRec rs state) as [state'|]; [|done]. cbn [rbind trimmed]. rewrite IH.
    by destruct (rfold applyRec _ state').
Qed.

Lemma recoverSegments_holds files rss t :
  torn t \/ t = [] -> holds t files rss ->
  recoverSegments files =
    rbind (recoverRecords (concat rss)) (fun state => Ok (state, trimmedFiles files (lastRecords rss) t)).
Proof.
  intros Ht Hh. unfold recoverSegments, newestCompactionCheckpoint, recoverRecords.
  rewrite (scanCheckpoints_holds files rss t) by done.
  destruct (rfold _ (concat rss) zeroCheckpoint) as [c|e]; [|done]. cbn [rbind].
  rewrite (readSegments_holds files rss t) by done.
  destruct (rfold applyRec (concat rss) _) as [state|e]; [|done]. cbn [rbind].
  by destruct (_ || _).
Qed.

Lemma trimmedFiles_holds files rss t :
  holds t files rss -> holds [] (trimmedFiles files (lastRecords rss) t) rss.
Proof.
  induction 1 as [file rs Hc Hfits|file rs files rss Hc Hfits Hh IH].
  - apply holds_last; [|done]. by destruct t.
  - apply holds_not_nil in Hh as [Hf Hr].
    destruct files as [|file' files]; [done|]. destruct rss as [|rs' rss]; [done|].
    by apply holds_cons.
Qed.

End Codec.

(** ** Crashes *)

(** A full segment. *)
Definition full (file : segmentFile) (rs : list rec) : Prop :=
  sf_contents file = segmentBytes rs [] /\ Forall fits rs.

Lemma holds_snoc t init file rss :
  holds t (init ++ [file]) rss <->
  exists rinit rs, rss = rinit ++ [rs] /\ Forall2 full init rinit /\
    sf_contents file = segmentBytes rs t /\ Forall fits rs.
Proof.
  split.
  - revert rss. induction init as [|f init IH]; intros rss Hh; cbn in Hh.
    + inversion Hh as [? rs ? ?|? ? ? ? ? ? Hh' ]; subst.
      * by exists [], rs.
      * apply holds_not_nil in Hh' as [? _]. congruence.
    + inversion Hh as [|? rs0 ? rss' Hc Hfits Hh']; subst; [by destruct init|].
      destruct (IH rss' Hh') as (rinit & rs & -> & Hall & ? & ?).
      exists (rs0 :: rinit), rs. split_and!; try done. by constructor.
  - intros (rinit & rs & -> & Hall & Hc & Hfits). induction Hall as [|f r init rinit [? ?] _ IH].
    + by apply holds_last.
    + by apply holds_cons.
Qed.

(** The bytes of a file that the process found or has synced. *)
Definition secured (file : segmentFile) : N := N.max (sf_synced file) (sf_found file).

Definition shortened (k : N) (file : segmentFile) : segmentFile :=
  file <| sf_contents := take (N.to_nat k) (sf_contents file) |>.

(** A process dies alone: of what it was writing to the active file some bytes are there, and
    whatever is there the kernel keeps; none of it is synced by that. *)
Definition killed (files files' : list segmentFile) : Prop :=
  exists init file k, files = init ++ [file] /\ secured file <= k /\ files' = init ++ [shortened k file].

(** The power fails: bytes of the active file beyond the last sync may be lost from the end, and what
    is left is on disk. *)
Definition powerLoss (files files' : list segmentFile) : Prop :=
  exists init file k, files = init ++ [file] /\ sf_synced file <= k /\
    files' = init ++ [shortened k file <| sf_synced := len (sf_contents (shortened k file)) |>].

(** All that the process found when it opened its log has been synced, by itself or by an earlier process. *)
Definition firm (files : list segmentFile) : Prop := Forall (fun file => sf_found file <= sf_synced file) files.

(** What is left of a log when a process dies, alone or with the power.  The power does not fail
    while bytes that an earlier process left unsynced are still not on disk: [Open] does not sync
    them, and a vote among them would be forgotten after it was repeated. *)
Definition dies (files files' : list segmentFile) : Prop :=
  killed files files' \/ (firm files /\ powerLoss files files').

(** A process that dies between two saves leaves its files as they are. *)
Lemma killed_same files : files <> [] -> killed files files.
Proof.
  intros Hne. destruct (exists_last Hne) as (init & file & ->).
  exists init, file, (N.max (secured file) (len (sf_contents file))). split; [done|]. split; [lia|].
  unfold shortened, len. rewrite take_ge by lia. by destruct file.
Qed.

(** Either way the active file is cut behind the secured bytes. *)
Lemma dies_cut files files' :
  dies files files' ->
  exists init file file' k, files = init ++ [file] /\ secured file <= k /\ files' = init ++ [file'] /\
    sf_number file' = sf_number file /\ sf_contents file' = take (N.to_nat k) (sf_contents file).
Proof.
  intros [(init & file & k & -> & Hk & ->)|[Hf (init & file & k & -> & Hk & ->)]];
    [by exists init, file, (shortened k file), k|].
  apply Forall_app, proj2 in Hf. rewrite Forall_singleton in Hf.
  eexists init, file, _, k. split_and!; try done. unfold secured. cbn in Hf. lia.
Qed.

(** Cutting the bytes of records leaves whole records and a torn one. *)
Lemma encode_cut rs k :
  Forall fits rs ->
  exists i t, take k (encode rs) = encode (take i rs) ++ t /\ (torn t \/ t = []) /\
    forall j, (j <= length rs)%nat -> (length (encode (take j rs)) <= k)%nat -> (j <= i)%nat.
Proof.
  revert k. induction rs as [|r rs IH]; intros k Hfits.
  { exists 0%nat, []. split_and!; [by destruct k|by right|cbn; lia]. }
  apply Forall_cons in Hfits as [Hfit Hfits]. rewrite encode_cons.
  destruct (Nat.lt_ge_cases k (length (frame (bodyOf r)))) as [Hlt|Hge].
  - exists 0%nat, (take k (frame (bodyOf r))). rewrite take_app_le by lia. split_and!; [done|left|].
    + exists r, (drop k (frame (bodyOf r))). split_and!; [done| |by rewrite take_drop].
      intros E. apply (f_equal length) in E. rewrite length_drop in E. cbn in E. lia.
    + intros [|j] _; [lia|]. cbn [take]. rewrite encode_cons, length_app. lia.
  - destruct (IH (k - length (frame (bodyOf r)))%nat Hfits) as (i & t & E & Ht & Hj).
    exists (S i), t. rewrite take_app_ge, E by done. cbn [take]. rewrite encode_cons, <- app_assoc.
    split_and!; [done|done|]. intros [|j] Hle; [lia|]. cbn [take]. rewrite encode_cons, length_app.
    intros Hk. cbn in Hle. assert (j <= i)%nat; [|lia]. apply Hj; lia.
Qed.

(** Afterwards the directory holds a prefix of the records, at least the secured ones of the last file. *)
Lemma cut_holds init file file' rinit rs j k :
  Forall2 full init rinit -> full file rs -> sf_contents file' = take (N.to_nat k) (sf_contents file) ->
  segmentHeaderSize <= k -> secured file <= k -> (j <= length rs)%nat ->
  len (segmentBytes (take j rs) []) <= N.max segmentHeaderSize (secured file) ->
  exists i t, (j <= i)%nat /\ (torn t \/ t = []) /\ holds t (init ++ [file']) (rinit ++ [take i rs]).
Proof.
  intros Hall [Hc Hfits] Hcut Hhead Hsec Hj Hs.
  destruct (encode_cut rs (N.to_nat k - 12) Hfits) as (i & t & E & Ht & Hmax).
  exists i, t. unfold segmentHeaderSize, segmentBytes, len in *.
  rewrite !length_app, length_segmentHeader in Hs. cbn [length] in Hs.
  split_and!; [apply Hmax; lia|done|]. apply holds_snoc.
  exists rinit, (take i rs). split_and!; [done|done| |by apply Forall_take].
  rewrite Hcut, Hc, app_nil_r. unfold segmentBytes.
  rewrite take_app_ge, length_segmentHeader, E by (rewrite length_segmentHeader; lia). done.
Qed.
