(* ===== verification/WalOps.v ===== *)
(** The saving operations of the write-ahead log against an abstract durable
    state: after each of them a reopened log yields the state the operation
    promises, and a crash in the middle yields a prefix of its records. *)

From S2P Require Import Prelude Bytes Wal WalRecovery.

(** ** Records of the operations *)

Definition hardRec (state : HardState) : rec := (recordHardState, encodeHardState state).
Definition entryRec (entry : LogEntry) : rec := (recordLogEntryV3, encodeLogEntry entry).
Definition truncRec (first : N) : rec := (recordLogTruncation, be_put 8 first).
Definition commitRec (index : N) : rec := (recordCommitIndex, be_put 8 index).

(** A Go value of type [LogEntry] whose frame fits. *)
Record entry_wf (e : LogEntry) : Prop := {
  ew_Index : Index e < two64; ew_Term : Term e < two64; ew_Sequence : Sequence e < two64;
  ew_session : length (ESessionID e) = 16%nat;
  ew_size : 50 + N.of_nat (String.length (Key e)) + len (Value e) <= maxRecordSize }.

(** ** The open log *)

Definition older (a b : segmentFile) : Prop := sf_number a < sf_number b.

(** The active file is the last one, the directory holds the records [rss], and
    at least the first [m] of them are secured. *)
Record layout (w : WAL) (rss : list (list rec)) (m : nat) : Prop := {
  lay_open : w_open w = true;
  lay_sorted : StronglySorted older (w_directory w);
  lay_active : exists init file rinit rs j,
    w_directory w = init ++ [file] /\ rss = rinit ++ [rs] /\
    Forall2 full init rinit /\ full file rs /\
    sf_number file = w_segment w /\ w_offset w = len (sf_contents file) /\
    (j <= length rs)%nat /\ (m <= length (concat rinit) + j)%nat /\
    len (segmentBytes (take j rs) []) <= N.max segmentHeaderSize (secured file) }.

(** Fields other than the files. *)
Definition same_meta (w w' : WAL) : Prop :=
  w_segmentSize w' = w_segmentSize w /\ w_lastLogIndex w' = w_lastLogIndex w /\
  w_commitIndex w' = w_commitIndex w /\ w_hardState w' = w_hardState w /\
  w_identity w' = w_identity w /\ w_snapshotIndex w' = w_snapshotIndex w /\
  w_snapshotTerm w' = w_snapshotTerm w.

(** The write sequence shared by the operations. *)
Definition appendRecords (rs : list rec) : WM unit := efor (fun r : rec => appendRecord r.1 r.2) rs.

(** A record that is not a compaction checkpoint. *)
Definition ordinary (r : rec) : Prop := r.1 <> recordCompactionCheckpoint.

(** [hs'] may follow [hs]: a later term, a first vote in the same term, or no change. *)
Definition hard_le (hs hs' : HardState) : Prop :=
  hs_Term hs < hs_Term hs' \/ (hs_Term hs = hs_Term hs' /\ hs_VotedFor hs = "") \/ hs = hs'.

(** ** Decoding what was encoded *)

Lemma sub_app_skip a b i n : (length a <= i)%nat -> sub (a ++ b) i n = sub b (i - length a) n.
Proof. intros H. unfold sub. by rewrite drop_app_ge. Qed.

Lemma sub_app_here a b n : length a = n -> sub (a ++ b) 0 n = a.
Proof. intros <-. unfold sub. rewrite drop_0. by rewrite take_app_length. Qed.

Lemma len_encodeLogEntry e :
  length (ESessionID e) = 16%nat ->
  len (encodeLogEntry e) = 49 + N.of_nat (String.length (Key e)) + len (Value e).
Proof.
  intros H. unfold encodeLogEntry. rewrite !len_app, !len_be_put, len_string_bytes.
  rewrite len_cons, len_nil. unfold len at 1. rewrite H. lia.
Qed.

(** Moves a slice past the fields in front of it. *)
Ltac seek Hsess :=
  repeat (rewrite sub_app_skip by (rewrite ?length_be_put, ?Hsess; cbn; lia);
          rewrite ?length_be_put, ?Hsess; cbn [Nat.sub length]);
  rewrite sub_app_here by (rewrite ?length_be_put; done).

Lemma encodeLogEntry_fields e :
  entry_wf e ->
  let p := encodeLogEntry e in
  sub p 0 8 = be_put 8 (Index e) /\ sub p 8 8 = be_put 8 (Term e) /\ nth 16 p x00 = EType e /\
  sub p 17 16 = ESessionID e /\ sub p 33 8 = be_put 8 (Sequence e) /\
  sub p 41 4 = be_put 4 (N.of_nat (String.length (Key e))) /\ sub p 45 4 = be_put 4 (len (Value e)) /\
  sub p 49 (String.length (Key e)) = string_bytes (Key e) /\
  drop (49 + String.length (Key e)) p = Value e.
Proof.
  intros [Hi Ht Hs Hsess Hsize] p. subst p. unfold encodeLogEntry.
  split_and!; try (by seek Hsess).
  - do 2 (rewrite app_nth2 by (rewrite !length_be_put; lia)). by rewrite !length_be_put.
  - do 7 (rewrite sub_app_skip by (rewrite ?length_be_put, ?Hsess; cbn; lia);
          rewrite ?length_be_put, ?Hsess; cbn [Nat.sub length]).
    apply sub_app_here, length_string_bytes.
  - rewrite !app_assoc, drop_app_ge; rewrite !length_app, !length_be_put, length_string_bytes, Hsess;
      cbn [length]; [|lia].
    replace (_ - _)%nat with 0%nat by lia. apply drop_0.
Qed.

Lemma decode_encode_entry e : entry_wf e -> decodeLogEntry (encodeLogEntry e) = Ok e.
Proof.
  intros Hwf. pose proof maxRecordSize_small. unfold decodeLogEntry.
  destruct (encodeLogEntry_fields e Hwf) as (-> & -> & -> & -> & -> & -> & -> & Hk & Hv).
  destruct Hwf as [Hi Ht Hs Hsess Hsize]. rewrite len_encodeLogEntry by done.
  rewrite !be_get_put64, !be_get_put32 by (done || lia). rewrite Nat2N.id, Hk, Hv.
  rewrite (proj2 (N.ltb_ge _ _)), N.eqb_refl by lia. cbn.
  rewrite bytes_string_of_string. by destruct e.
Qed.

(** ** Appending *)

Lemma onFile_last number f init file :
  sf_number file = number -> Forall (fun g => sf_number g < number) init ->
  onFile number f (init ++ [file]) = init ++ [f file].
Proof.
  intros Hn Hall. unfold onFile. rewrite map_app. cbn. rewrite Hn, N.eqb_refl. f_equal.
  rewrite <- (map_id init) at 2. apply map_ext_in. intros g Hg. rewrite Forall_forall in Hall.
  specialize (Hall g). rewrite list_elem_of_In in Hall.
  rewrite (proj2 (N.eqb_neq _ _)); [done|]. specialize (Hall Hg). lia.
Qed.

Lemma sorted_init w init file :
  StronglySorted older (w_directory w) -> w_directory w = init ++ [file] ->
  Forall (fun g => sf_number g < sf_number file) init.
Proof.
  intros Hs E. rewrite E in Hs. clear E. induction init as [|f init IH]; [constructor|].
  cbn in Hs. apply StronglySorted_inv in Hs as [Hs Hall]. constructor; [|auto].
  rewrite Forall_app, Forall_singleton in Hall. apply Hall.
Qed.

Lemma sorted_snoc files file :
  StronglySorted older files -> Forall (fun g => sf_number g < sf_number file) files ->
  StronglySorted older (files ++ [file]).
Proof.
  intros Hs Hall. induction Hs as [|f files Hs IH Hf]; cbn; [repeat constructor|].
  apply Forall_cons in Hall as [Hlt Hall]. constructor; [auto|].
  apply Forall_app_2; [done|]. by apply Forall_singleton.
Qed.

(** Replacing the active file keeps the order. *)
Lemma sorted_replace init file file' :
  sf_number file' = sf_number file ->
  StronglySorted older (init ++ [file]) -> StronglySorted older (init ++ [file']).
Proof.
  intros E. induction init as [|f init IH]; cbn; intros Hs; [repeat constructor|].
  apply StronglySorted_inv in Hs as [Hs Hall]. constructor; [auto|].
  rewrite Forall_app, Forall_singleton in *. unfold older in *. by rewrite E.
Qed.

Lemma segmentBytes_snoc rs r :
  segmentBytes (rs ++ [r]) [] = segmentBytes rs [] ++ frame (bodyOf r).
Proof. unfold segmentBytes. rewrite encode_app, !app_nil_r. cbn. by rewrite app_nil_r, app_assoc. Qed.

Lemma append_active w rss m r :
  layout w rss m -> fits r ->
  exists rss', concat rss' = concat rss ++ [r] /\
    layout (w <| w_directory := writeFile (w_segment w) (frame (bodyOf r)) (w_directory w) |>
              <| w_offset := w_offset w + (frameHeaderSize + len (bodyOf r)) |>) rss' m.
Proof.
  intros [Hopen Hsorted
    (init & file & rinit & rs & j & Hdir & -> & Hall & [Hc Hfits] & Hnum & Hoff & Hj & Hm & Hs)] Hfit.
  exists (rinit ++ [rs ++ [r]]). split.
  { rewrite !concat_app. cbn. by rewrite !app_nil_r, app_assoc. }
  assert (Hw : writeFile (w_segment w) (frame (bodyOf r)) (w_directory w) =
               init ++ [file <| sf_contents := sf_contents file ++ frame (bodyOf r) |>]).
  { unfold writeFile. rewrite Hdir, onFile_last; [done|done|].
    rewrite <- Hnum. by eapply sorted_init. }
  split; cbn; rewrite ?Hw; [done| |].
  - rewrite Hdir in Hsorted. by apply (sorted_replace init file).
  - eexists init, _, rinit, (rs ++ [r]), j. split_and!; try done.
    + split; cbn.
      * rewrite Hc. symmetry. apply segmentBytes_snoc.
      * apply Forall_app_2; [done|]. by apply Forall_singleton.
    + cbn. by rewrite Hoff, len_app, len_frame.
    + rewrite length_app. lia.
    + by rewrite take_app_le.
Qed.

Lemma sync_layout w rss m :
  layout w rss m ->
  exists w', sync w = (Ok tt, w') /\ layout w' rss (length (concat rss)) /\ same_meta w w' /\
    w_segment w' = w_segment w /\ w_entryBytes w' = w_entryBytes w.
Proof.
  intros [Hopen Hsorted
    (init & file & rinit & rs & j & Hdir & -> & Hall & [Hc Hfits] & Hnum & Hoff & Hj & Hm & Hs)].
  eexists. split; [done|]. split_and!; try done.
  assert (Hw : syncFile (w_segment w) (w_directory w) =
               init ++ [file <| sf_synced := len (sf_contents file) |>]).
  { unfold syncFile. rewrite Hdir, onFile_last; [done|done|].
    rewrite <- Hnum. by eapply sorted_init. }
  split; cbn; rewrite ?Hw; [done| |].
  - rewrite Hdir in Hsorted. by apply (sorted_replace init file).
  - eexists init, _, rinit, rs, (length rs). split_and!; try done.
    + rewrite concat_app, length_app. cbn. rewrite app_nil_r. lia.
    + rewrite firstn_all. unfold secured. cbn. rewrite Hc. lia.
Qed.

(** Opening a new segment once the active one is synced. *)
Lemma createSegment_layout w rss :
  layout w rss (length (concat rss)) ->
  exists w', createSegment (w_segment w + 1) (w <| w_open := false |>) = (Ok tt, w') /\
    layout w' (rss ++ [[]]) (length (concat rss)) /\ same_meta w w' /\
    w_segment w' = w_segment w + 1 /\ w_entryBytes w' = w_entryBytes w.
Proof.
  intros [Hopen Hsorted
    (init & file & rinit & rs & j & Hdir & -> & Hall & Hfull & Hnum & Hoff & Hj & Hm & Hs)].
  unfold createSegment, ebind, eget.
  assert (Hle : Forall (fun g => sf_number g < w_segment w + 1) (w_directory w)).
  { rewrite Hdir. apply Forall_app_2.
    - eapply Forall_impl; [by eapply sorted_init|]. cbn. lia.
    - apply Forall_singleton. lia. }
  rewrite bool_decide_false.
  2:{ cbn. intros (g & E & Hg)%list_elem_of_fmap. rewrite Forall_forall in Hle.
      specialize (Hle g Hg). lia. }
  eexists. split; [done|]. split_and!; try done. split; cbn; [done|by apply sorted_snoc|].
  eexists (w_directory w), _, (rinit ++ [rs]), [], 0%nat. split_and!; try done.
  - rewrite Hdir. apply Forall2_app; [done|]. by constructor.
  - lia.
Qed.

Lemma ebind_ok {S E A B} (m : EM S E A) (k : A -> EM S E B) s a s' :
  m s = (Ok a, s') -> ebind m k s = k a s'.
Proof. intros H. unfold ebind. by rewrite H. Qed.

(** Appending a fitting record succeeds and adds it at the end, in the active
    segment or in a new one; what was synced stays synced. *)
Lemma appendRecord_layout w rss m r :
  layout w rss m -> (m <= length (concat rss))%nat -> fits r ->
  exists w' rss', appendRecord r.1 r.2 w = (Ok tt, w') /\ layout w' rss' m /\
    concat rss' = concat rss ++ [r] /\ same_meta w w' /\ w_entryBytes w' = w_entryBytes w.
Proof.
  intros Hlay Hm Hfit. unfold appendRecord.
  change (r.1 :: r.2) with (bodyOf r). unfold fits in Hfit.
  rewrite (proj2 (N.ltb_ge maxRecordSize _)) by done.
  rewrite (ebind_ok _ _ _ w w) by done. set (roll := (_ && _)). destruct roll.
  - destruct (sync_layout w rss m Hlay) as (w1 & E1 & Hlay1 & Hmeta1 & Hseg1 & Heb1).
    destruct (createSegment_layout w1 rss Hlay1) as (w2 & E2 & Hlay2 & Hmeta2 & Hseg2 & Heb2).
    rewrite (ebind_ok _ _ _ tt w2).
    2:{ rewrite (ebind_ok _ _ _ tt w1) by done. unfold ebind, emodify. by rewrite <- Hseg1. }
    assert (Hlay2' : layout w2 (rss ++ [[]]) m).
    { destruct Hlay2 as [? ? (i2 & f2 & ri2 & rs2 & j2 & ?)]. destruct_and!.
      split; [done..|]. exists i2, f2, ri2, rs2, j2. split_and!; try done. lia. }
    destruct (append_active w2 _ m r Hlay2' Hfit) as (rss3 & Hcat & Hlay3).
    eexists _, rss3. split; [done|]. split_and!; try done.
    + rewrite Hcat, concat_app. cbn. by rewrite app_nil_r.
    + unfold same_meta in *. cbn. destruct_and!. split_and!; congruence.
    + cbn. congruence.
  - rewrite (ebind_ok _ _ _ tt w) by done.
    destruct (append_active w _ m r Hlay Hfit) as (rss3 & Hcat & Hlay3).
    eexists _, rss3. split; [done|]. by split_and!.
Qed.

Lemma appendRecords_layout w rss m rs :
  layout w rss m -> (m <= length (concat rss))%nat -> Forall fits rs ->
  exists w' rss', appendRecords rs w = (Ok tt, w') /\ layout w' rss' m /\
    concat rss' = concat rss ++ rs /\ same_meta w w'.
Proof.
  intros Hlay Hm Hfits. revert w rss Hlay Hm.
  induction Hfits as [|r rs Hfit _ IH]; intros w rss Hlay Hm.
  - exists w, rss. rewrite app_nil_r. by split_and!.
  - destruct (appendRecord_layout w rss m r) as (w1 & rss1 & E1 & Hlay1 & Hcat1 & Hmeta1 & _); [done..|].
    destruct (IH w1 rss1) as (w2 & rss2 & E2 & Hlay2 & Hcat2 & Hmeta2); [done| |].
    { rewrite Hcat1, length_app. lia. }
    exists w2, rss2. unfold appendRecords. cbn [efor]. rewrite (ebind_ok _ _ _ tt w1) by done.
    split_and!; [done|done| |].
    + by rewrite Hcat2, Hcat1, <- app_assoc.
    + unfold same_meta in *. destruct_and!. split_and!; congruence.
Qed.

(** ** Replaying *)

Section Codec.
Context `{CheckpointCodec}.

Lemma visit_ordinary rs c :
  Forall ordinary rs -> rfold (fun r : rec => visitCheckpoint r.1 r.2) rs c = Ok c.
Proof.
  intros Hall. induction Hall as [|r rs Hr _ IH]; [done|]. cbn [rfold].
  assert (E : visitCheckpoint r.1 r.2 c = Ok c).
  { unfold visitCheckpoint. by rewrite bool_decide_false. }
  by rewrite E.
Qed.

(** Records at the end are replayed on top of what was recovered before. *)
Lemma recoverRecords_app rs st rs' st' :
  recoverRecords rs = Ok st -> Forall ordinary rs' -> rfold applyRec rs' st = Ok st' ->
  rs_Identity st' = rs_Identity st -> recoverRecords (rs ++ rs') = Ok st'.
Proof.
  unfold recoverRecords. intros Hr Hord Ha Hid. rewrite rfold_app.
  destruct (rfold _ rs zeroCheckpoint) as [c|]; [|done]. cbn [rbind] in *.
  rewrite visit_ordinary by done. cbn [rbind]. rewrite rfold_app.
  destruct (rfold applyRec rs _) as [st0|]; [|done]. cbn [rbind] in *.
  destruct (_ || _) eqn:E in Hr; [done|]. cbn in Hr. injection Hr as ->. rewrite Ha. cbn [rbind].
  by rewrite Hid, E.
Qed.

(** Selects the branch of [applyRecord] that a record takes. *)
Ltac open_record r :=
  unfold applyRec, r; cbn [fst snd];
  unfold applyRecord, recordHardState, recordLogEntryV3, recordLogTruncation, recordCommitIndex;
  cbv beta iota zeta.

Lemma apply_hard st hs :
  NodeID (rs_Identity st) <> "" -> hs_Term hs < two64 -> hard_le (rs_HardState st) hs ->
  applyRec (hardRec hs) st = Ok (st <| rs_HardState := hs |>).
Proof.
  intros Hid Ht Hle. open_record hardRec.
  rewrite bool_decide_false by done. cbn [guard rbind]. unfold encodeHardState.
  rewrite (proj2 (N.ltb_ge _ _)) by (rewrite len_app, len_be_put; lia). cbn [guard rbind].
  rewrite take_app_le by (rewrite length_be_put; lia).
  rewrite take_ge, be_get_put64 by (done || (rewrite length_be_put; lia)).
  rewrite drop_app_ge, length_be_put, drop_0, bytes_string_of_string
    by (rewrite length_be_put; lia).
  destruct Hle as [Hlt|[[Heq Hv]|<-]].
  - rewrite (proj2 (N.ltb_ge _ _)), (proj2 (N.eqb_neq _ _)) by lia. by destruct hs.
  - rewrite (proj2 (N.ltb_ge _ _)) by lia. rewrite Hv, bool_decide_true by done.
    rewrite andb_false_r. by destruct hs.
  - rewrite N.ltb_irrefl, N.eqb_refl. destruct (bool_decide _); cbn; by destruct st as [? [] ? ? ? ?].
Qed.

Lemma apply_entry st e :
  entry_wf e -> Index e = rs_SnapshotIndex st + len (rs_Log st) + 1 ->
  applyRec (entryRec e) st = Ok (st <| rs_Log := rs_Log st ++ [e] |>).
Proof.
  intros Hwf Hi. open_record entryRec.
  rewrite decode_encode_entry by done. cbn [rbind]. unfold recoverEntry, lastIndexOf.
  pose proof (ew_Index e Hwf). rewrite (proj2 (N.leb_gt _ _)) by lia.
  rewrite !u64_small by (rewrite ?u64_small; lia). by rewrite Hi, N.eqb_refl.
Qed.

Lemma apply_entries st es :
  Forall entry_wf es -> numbered Index (rs_SnapshotIndex st + len (rs_Log st) + 1) es ->
  rfold applyRec (map entryRec es) st = Ok (st <| rs_Log := rs_Log st ++ es |>).
Proof.
  intros Hall. revert st. induction Hall as [|e es He _ IH]; intros st Hn.
  - cbn. rewrite app_nil_r. by destruct st.
  - destruct Hn as [Hi Hn]. cbn [map rfold]. rewrite apply_entry by done. cbn [rbind].
    rewrite IH; cbn.
    + by rewrite <- app_assoc.
    + rewrite len_app, len_cons, len_nil. by replace (_ + (len (rs_Log st) + _)) with
        (rs_SnapshotIndex st + len (rs_Log st) + 1) by lia.
Qed.

Lemma apply_truncation st first :
  rs_CommitIndex st < first -> rs_SnapshotIndex st < first ->
  first <= rs_SnapshotIndex st + len (rs_Log st) + 1 ->
  rs_SnapshotIndex st + len (rs_Log st) + 1 < two64 ->
  applyRec (truncRec first) st =
    Ok (st <| rs_Log := take (N.to_nat (first - rs_SnapshotIndex st - 1)) (rs_Log st) |>).
Proof.
  intros Hc Hs Hl Hb. open_record truncRec.
  rewrite len_be_put, be_get_put64 by lia. cbn [N.of_nat N.eqb negb guard rbind].
  unfold lastIndexOf. rewrite !u64_small by (rewrite ?u64_small; lia).
  rewrite (proj2 (N.leb_gt _ _) Hs), (proj2 (N.ltb_ge _ _) Hl), (proj2 (N.leb_gt _ _) Hc). done.
Qed.

Lemma apply_commit st index :
  rs_CommitIndex st <= index -> index <= rs_SnapshotIndex st + len (rs_Log st) ->
  rs_SnapshotIndex st + len (rs_Log st) + 1 < two64 ->
  applyRec (commitRec index) st = Ok (st <| rs_CommitIndex := index |>).
Proof.
  intros Hc Hl Hb. open_record commitRec.
  rewrite len_be_put, be_get_put64 by lia. cbn [N.of_nat N.eqb negb guard rbind].
  unfold lastIndexOf. rewrite !u64_small by lia.
  by rewrite (proj2 (N.ltb_ge _ _) Hc), (proj2 (N.ltb_ge _ _) Hl).
Qed.

(** ** The open log and the durable state it stands for *)

Record wal_inv (w : WAL) (st : RecoveredState) : Prop := {
  wi_disk : exists rss, layout w rss (length (concat rss)) /\ recoverRecords (concat rss) = Ok st;
  wi_last : w_lastLogIndex w = rs_SnapshotIndex st + len (rs_Log st);
  wi_commit : w_commitIndex w = rs_CommitIndex st;
  wi_hard : w_hardState w = rs_HardState st;
  wi_identity : w_identity w = rs_Identity st;
  wi_snapshotIndex : w_snapshotIndex w = rs_SnapshotIndex st;
  wi_snapshotTerm : w_snapshotTerm w = rs_SnapshotTerm st;
  wi_numbered : numbered Index (rs_SnapshotIndex st + 1) (rs_Log st);
  wi_order : rs_SnapshotIndex st <= rs_CommitIndex st <= rs_SnapshotIndex st + len (rs_Log st);
  wi_bound : rs_SnapshotIndex st + len (rs_Log st) + 1 < two64 }.

Lemma recovered_identity rs st :
  recoverRecords rs = Ok st -> ClusterID (rs_Identity st) <> "" /\ NodeID (rs_Identity st) <> "".
Proof.
  unfold recoverRecords. destruct (rfold _ rs zeroCheckpoint) as [c|]; [|done]. cbn [rbind].
  destruct (rfold applyRec rs _) as [st0|]; [|done]. cbn [rbind].
  destruct (_ || _) eqn:E; [done|]. cbn. intros [= ->]. by reflect_bools.
Qed.

(** Appending ordinary records and syncing moves the disk to the replayed state. *)
Lemma append_sync w st rs st' :
  wal_inv w st -> Forall fits rs -> Forall ordinary rs ->
  rfold applyRec rs st = Ok st' -> rs_Identity st' = rs_Identity st ->
  exists w1 w2, appendRecords rs w = (Ok tt, w1) /\ sync w1 = (Ok tt, w2) /\ same_meta w w2 /\
    exists rss, layout w2 rss (length (concat rss)) /\ recoverRecords (concat rss) = Ok st'.
Proof.
  intros Hinv Hfits Hord Ha Hid. destruct (wi_disk w st Hinv) as (rss & Hlay & Hrec).
  destruct (appendRecords_layout w rss _ rs Hlay) as (w1 & rss1 & E1 & Hlay1 & Hcat & Hmeta1);
    [done..|].
  destruct (sync_layout w1 rss1 _ Hlay1) as (w2 & E2 & Hlay2 & Hmeta2 & _).
  exists w1, w2. split_and!; try done.
  - unfold same_meta in *. destruct_and!. split_and!; congruence.
  - exists rss1. split; [done|]. rewrite Hcat. by eapply recoverRecords_app.
Qed.

Lemma fits_small kind payload : len payload < 1000 -> fits (kind, payload).
Proof.
  intros Hl. assert (1001 < maxRecordSize) by done. unfold fits, bodyOf. cbn [fst snd].
  rewrite len_cons. lia.
Qed.

Lemma append_one r w w1 : appendRecords [r] w = (Ok tt, w1) -> appendRecord r.1 r.2 w = (Ok tt, w1).
Proof.
  unfold appendRecords. cbn [efor]. unfold ebind. by destruct (appendRecord r.1 r.2 w) as [[[]|] ?].
Qed.

Lemma fits_entry e : entry_wf e -> fits (entryRec e).
Proof.
  intros [? ? ? Hs Hsize]. unfold fits, bodyOf, entryRec. cbn [fst snd].
  rewrite len_cons, len_encodeLogEntry by done. lia.
Qed.

(** Closes the bookkeeping part of an invariant after an operation. *)
Ltac finish_inv Hinv Hmeta :=
  destruct Hinv; unfold same_meta in Hmeta; destruct_and!; split; cbn in *; try congruence; try done; try lia.

Lemma saveHardState_inv w st hs :
  wal_inv w st -> hs_Term hs < two64 ->
  9 + N.of_nat (String.length (hs_VotedFor hs)) <= maxRecordSize ->
  hard_le (rs_HardState st) hs ->
  exists w', SaveHardState hs w = (Ok tt, w') /\ wal_inv w' (st <| rs_HardState := hs |>).
Proof.
  intros Hinv Ht Hsize Hle. destruct (wi_disk w st Hinv) as (rss & Hlay & Hrec).
  destruct (append_sync w st [hardRec hs] (st <| rs_HardState := hs |>))
    as (w1 & w2 & E1 & E2 & Hmeta & Hdisk); try done.
  - apply Forall_singleton. unfold fits, bodyOf, hardRec, encodeHardState. cbn [fst snd].
    rewrite len_cons, len_app, len_be_put, len_string_bytes. lia.
  - by apply Forall_singleton.
  - cbn [rfold]. rewrite apply_hard; [done|by eapply recovered_identity|done|done].
  - unfold SaveHardState. rewrite (ebind_ok _ _ _ w w) by done. rewrite (lay_open _ _ _ Hlay).
    apply append_one in E1. cbn [negb].
    rewrite (ebind_ok _ _ _ tt w1), (ebind_ok _ _ _ tt w2) by done.
    eexists. split; [done|].
    destruct Hdisk as (rss' & [? ? ?] & ?).
    finish_inv Hinv Hmeta. exists rss'. split; [by split|done].
Qed.

Lemma saveCommitIndex_inv w st index :
  wal_inv w st ->
  rs_CommitIndex st <= index -> index <= rs_SnapshotIndex st + len (rs_Log st) ->
  exists w', SaveCommitIndex index w = (Ok tt, w') /\ wal_inv w' (st <| rs_CommitIndex := index |>).
Proof.
  intros Hinv Hc Hl. destruct (wi_disk w st Hinv) as (rss & Hlay & Hrec).
  unfold SaveCommitIndex. rewrite (ebind_ok _ _ _ w w) by done. rewrite (lay_open _ _ _ Hlay).
  cbn [negb]. rewrite (proj2 (N.ltb_ge _ _)) by (rewrite (wi_commit w st Hinv); lia).
  rewrite (proj2 (N.ltb_ge _ _)) by (rewrite (wi_last w st Hinv); lia).
  destruct (N.eqb_spec index (w_commitIndex w)) as [E|Hne].
  { exists w. split; [done|]. rewrite (wi_commit w st Hinv) in E. subst index.
    by destruct st. }
  destruct (append_sync w st [commitRec index] (st <| rs_CommitIndex := index |>))
    as (w1 & w2 & E1 & E2 & Hmeta & Hdisk); try done.
  - apply Forall_singleton, fits_small. by rewrite len_be_put.
  - by apply Forall_singleton.
  - cbn [rfold]. rewrite apply_commit; [done..|apply Hinv].
  - apply append_one in E1. rewrite (ebind_ok _ _ _ tt w1), (ebind_ok _ _ _ tt w2) by done.
    eexists. split; [done|].
    destruct Hdisk as (rss' & [? ? ?] & ?).
    finish_inv Hinv Hmeta. exists rss'. split; [by split|done].
Qed.

Lemma truncateLog_inv w st first :
  wal_inv w st ->
  rs_CommitIndex st < first -> first <= rs_SnapshotIndex st + len (rs_Log st) + 1 ->
  exists w', TruncateLog first w = (Ok tt, w') /\
    wal_inv w' (st <| rs_Log := take (N.to_nat (first - rs_SnapshotIndex st - 1)) (rs_Log st) |>).
Proof.
  intros Hinv Hc Hl. destruct (wi_disk w st Hinv) as (rss & Hlay & Hrec).
  pose proof (wi_order w st Hinv). pose proof (wi_bound w st Hinv).
  unfold TruncateLog. rewrite (ebind_ok _ _ _ w w) by done. rewrite (lay_open _ _ _ Hlay).
  cbn [negb]. rewrite (proj2 (N.eqb_neq _ _)) by lia.
  rewrite (wi_last w st Hinv), u64_small by done. rewrite (proj2 (N.ltb_ge _ _)) by lia.
  cbn [orb]. rewrite (proj2 (N.leb_gt _ _)) by (rewrite (wi_commit w st Hinv); lia).
  destruct (append_sync w st [truncRec first]
    (st <| rs_Log := take (N.to_nat (first - rs_SnapshotIndex st - 1)) (rs_Log st) |>))
    as (w1 & w2 & E1 & E2 & Hmeta & Hdisk); try done.
  - apply Forall_singleton, fits_small. by rewrite len_be_put.
  - by apply Forall_singleton.
  - cbn [rfold]. rewrite apply_truncation; [done|lia..].
  - apply append_one in E1. rewrite (ebind_ok _ _ _ tt w1), (ebind_ok _ _ _ tt w2) by done.
    eexists. split; [done|].
    destruct Hdisk as (rss' & [? ? ?] & ?).
    finish_inv Hinv Hmeta; rewrite ?len_take; try lia.
    + exists rss'. split; [by split|done].
    + rewrite u64_sub_small by lia. lia.
    + by apply numbered_take.
Qed.

Lemma checkEntryIndexes_ok last offset entries :
  numbered Index (last + offset + 1) entries -> last + offset + len entries + 1 < two64 ->
  checkEntryIndexes last offset entries = Ok tt.
Proof.
  revert offset. induction entries as [|e entries IH]; intros offset Hn Hb; [done|].
  destruct Hn as [Hi Hn]. rewrite len_cons in Hb. cbn [checkEntryIndexes].
  rewrite (u64_small (last + offset)), u64_small by lia. rewrite Hi, N.eqb_refl. cbn [negb guard rbind].
  apply IH; [|lia]. by replace (last + (offset + 1) + 1) with (last + offset + 1 + 1) by lia.
Qed.

(** The write loop of [SaveLogEntries]. *)
Lemma appendEntries_layout w rss m entries :
  layout w rss m -> (m <= length (concat rss))%nat -> Forall entry_wf entries ->
  exists w' rss', efor (fun entry =>
      let payload := encodeLogEntry entry in
      do+ appendRecord recordLogEntryV3 payload in
      emodify (fun w => w <| w_entryBytes :=
        <[Index entry := frameHeaderSize + 1 + len payload]> (w_entryBytes w) |>)) entries w
      = (Ok tt, w') /\ layout w' rss' m /\ concat rss' = concat rss ++ map entryRec entries /\
    same_meta w w'.
Proof.
  intros Hlay Hm Hall. revert w rss Hlay Hm.
  induction Hall as [|e es He _ IH]; intros w rss Hlay Hm.
  - exists w, rss. rewrite app_nil_r. by split_and!.
  - destruct (appendRecord_layout w rss m (entryRec e))
      as (w1 & rss1 & E1 & Hlay1 & Hcat1 & Hmeta1 & _); [done..|by apply fits_entry|].
    set (w1' := w1 <| w_entryBytes :=
      <[Index e := frameHeaderSize + 1 + len (encodeLogEntry e)]> (w_entryBytes w1) |>).
    destruct (IH w1' rss1) as (w2 & rss2 & E2 & Hlay2 & Hcat2 & Hmeta2).
    + destruct Hlay1. by split.
    + rewrite Hcat1, length_app. lia.
    + exists w2, rss2. cbn [efor]. cbv zeta. rewrite (ebind_ok _ _ _ tt w1').
      2:{ by rewrite (ebind_ok _ _ _ tt w1). }
      split_and!; [done|done| |].
      * by rewrite Hcat2, Hcat1, <- app_assoc.
      * unfold same_meta in *. cbn in *. destruct_and!. split_and!; congruence.
Qed.

Lemma saveLogEntries_inv w st entries :
  wal_inv w st -> entries <> [] -> Forall entry_wf entries ->
  numbered Index (rs_SnapshotIndex st + len (rs_Log st) + 1) entries ->
  rs_SnapshotIndex st + len (rs_Log st) + len entries + 1 < two64 ->
  exists w', SaveLogEntries entries w = (Ok tt, w') /\
    wal_inv w' (st <| rs_Log := rs_Log st ++ entries |>).
Proof.
  intros Hinv Hne Hall Hn Hb. destruct (wi_disk w st Hinv) as (rss & Hlay & Hrec).
  unfold SaveLogEntries. rewrite (ebind_ok _ _ _ w w) by done. rewrite (lay_open _ _ _ Hlay).
  cbn [negb]. rewrite (proj2 (N.eqb_neq _ _)) by (destruct entries; [done|rewrite len_cons; lia]).
  rewrite (ebind_ok _ _ _ tt w).
  2:{ unfold elift. rewrite checkEntryIndexes_ok; [done| |]; rewrite (wi_last w st Hinv), N.add_0_r; done. }
  destruct (appendEntries_layout w rss _ entries Hlay) as (w1 & rss1 & E1 & Hlay1 & Hcat & Hmeta1);
    [done..|].
  destruct (sync_layout w1 rss1 _ Hlay1) as (w2 & E2 & [? ? ?] & Hmeta2 & _).
  rewrite (ebind_ok _ _ _ tt w1), (ebind_ok _ _ _ tt w2) by done.
  eexists. split; [done|].
  assert (Hrec' : recoverRecords (concat rss1) = Ok (st <| rs_Log := rs_Log st ++ entries |>)).
  { rewrite Hcat. eapply recoverRecords_app; [done| |by apply apply_entries|done].
    by apply Forall_map, Forall_true. }
  unfold same_meta in Hmeta1. finish_inv Hinv Hmeta2; rewrite ?len_app; try lia.
  - exists rss1. split; [by split|done].
  - rewrite u64_small; lia.
  - apply numbered_app. split; [done|].
    by replace (rs_SnapshotIndex st + 1 + len (rs_Log st)) with
      (rs_SnapshotIndex st + len (rs_Log st) + 1) by lia.
Qed.

(** ** Reopening *)

Lemma older_inj files x y :
  StronglySorted older files -> x ∈ files -> y ∈ files -> sf_number x = sf_number y -> x = y.
Proof.
  intros Hs. induction Hs as [|f files _ IH Hall]; intros Hx Hy E; [by apply not_elem_of_nil in Hx|].
  rewrite Forall_forall in Hall. unfold older in Hall.
  apply elem_of_cons in Hx as [->|Hx]; apply elem_of_cons in Hy as [->|Hy];
    [done| | |by apply IH].
  - specialize (Hall y Hy). lia.
  - specialize (Hall x Hx). lia.
Qed.

#[local] Instance segment_le_trans : Transitive segment_le.
Proof. intros a b c. unfold segment_le. lia. Qed.

#[local] Instance segment_le_total : Total segment_le.
Proof. intros a b. unfold segment_le. lia. Qed.

Lemma findSegments_sorted files :
  StronglySorted older files -> findSegments files = Ok files.
Proof.
  intros Hs. unfold findSegments.
  assert (Hle : StronglySorted segment_le files).
  { clear -Hs. induction Hs as [|f files _ IH Hall]; constructor; [done|].
    eapply Forall_impl; [exact Hall|]. unfold older, segment_le. lia. }
  assert (Hm : merge_sort segment_le files = files).
  { apply (StronglySorted_unique_strong segment_le); [| |done|apply merge_sort_Permutation].
    - intros x y Hx Hy H1 H2. rewrite merge_sort_Permutation in Hx.
      eapply older_inj; [done..|]. unfold segment_le in *. lia.
    - apply (StronglySorted_merge_sort segment_le). }
  rewrite Hm.
  assert (Hd : duplicateSegment files = None).
  { clear -Hs. induction Hs as [|f files _ IH Hall]; [done|]. destruct files as [|g files]; [done|].
    apply Forall_cons in Hall as [Hlt _]. cbn. unfold older in Hlt.
    rewrite (proj2 (N.eqb_neq _ _)) by lia. exact IH. }
  by rewrite Hd.
Qed.

(** What recovery needs to know of the state it reconstructs. *)
Record state_wf (st : RecoveredState) : Prop := {
  sw_cluster : blank_string (ClusterID (rs_Identity st)) = false;
  sw_node : blank_string (NodeID (rs_Identity st)) = false;
  sw_numbered : numbered Index (rs_SnapshotIndex st + 1) (rs_Log st);
  sw_order : rs_SnapshotIndex st <= rs_CommitIndex st <= rs_SnapshotIndex st + len (rs_Log st);
  sw_bound : rs_SnapshotIndex st + len (rs_Log st) + 1 < two64 }.

Lemma trimmed_snoc init file rs t :
  trimmedFiles (init ++ [file]) rs t = init ++ [trimmed file rs t].
Proof.
  induction init as [|f init IH]; [done|]. cbn. rewrite IH. by destruct init.
Qed.

Lemma found_sorted init file file' :
  sf_number file' = sf_number file ->
  StronglySorted older (init ++ [file]) -> StronglySorted older (map foundFile init ++ [file']).
Proof.
  intros E. induction init as [|f init IH]; cbn; intros Hs; [repeat constructor|].
  apply StronglySorted_inv in Hs as [Hs Hall]. constructor; [auto|].
  rewrite Forall_app, Forall_singleton, Forall_map in *. unfold older in *. cbn. by rewrite E.
Qed.

(** The handle a successful [open] builds sits on the trimmed directory. *)
Lemma reopened_layout w init file rss t :
  StronglySorted older (init ++ [file]) -> holds t (init ++ [file]) rss ->
  let files := map foundFile (trimmedFiles (init ++ [file]) (lastRecords rss) t) in
  let last := default (mkSegment 0 [] 0 0) (list.last files) in
  w_open w = true -> w_directory w = files -> w_segment w = sf_number last ->
  w_offset w = len (sf_contents last) ->
  layout w rss (length (concat rss)) /\ w_segment w = sf_number file.
Proof.
  intros Hs Hh. apply holds_snoc in Hh as (rinit & rs & -> & Hall & Hc & Hfits).
  cbv zeta. unfold lastRecords. rewrite last_snoc. cbn [default from_option id].
  rewrite trimmed_snoc, map_app. cbn [map]. rewrite last_snoc. cbn [default from_option id]. intros Hopen Hdir Hseg Hoff.
  set (file' := foundFile (trimmed file rs t)) in *.
  assert (Hfile : full file' rs /\ sf_number file' = sf_number file /\ sf_found file' = len (segmentBytes rs [])).
  { unfold file'. destruct t; cbn; rewrite ?Hc; by split_and!. }
  destruct Hfile as ([Hc' _] & Hn' & Hs'). split; [|congruence].
  split; [done|rewrite Hdir; by apply (found_sorted init file)|].
  exists (map foundFile init), file', rinit, rs, (length rs). split_and!; try done.
  - by apply Forall2_fmap_l.
  - rewrite concat_app, length_app. cbn. rewrite app_nil_r. lia.
  - rewrite firstn_all. unfold secured. rewrite Hs'. lia.
Qed.

(** Reopening a directory that holds recoverable records gives back an open log
    that stands for the recovered state. *)
Lemma open_holds init file rss t st size :
  StronglySorted older (init ++ [file]) -> holds t (init ++ [file]) rss -> torn t \/ t = [] ->
  recoverRecords (concat rss) = Ok st -> state_wf st ->
  segmentHeaderSize + frameHeaderSize < size ->
  exists w, open (rs_Identity st) size (init ++ [file]) = Ok (w, st) /\ wal_inv w st /\
    w_segment w = sf_number file.
Proof.
  intros Hs Hh Ht Hrec [Hcl Hnd Hnum Hord Hb] Hsize.
  unfold open. rewrite Hcl, Hnd. cbn [orb guard rbind].
  rewrite (proj2 (N.leb_gt _ _) Hsize). cbn [guard rbind].
  rewrite findSegments_sorted by done. cbn [rbind]. rewrite last_snoc.
  rewrite (recoverSegments_holds _ rss t) by done. rewrite Hrec. cbn [rbind].
  rewrite bool_decide_true by done. cbn [negb guard rbind].
  match goal with |- exists _, Ok (?w', _) = _ /\ _ => set (w := w') end.
  destruct (reopened_layout w init file rss t Hs Hh) as [Hlay Hseg]; [done..|].
  exists w. split; [done|]. split; [|done]. split; cbn; try done.
  - by exists rss.
  - unfold lastIndexOf. rewrite u64_small; lia.
Qed.

(** Conversely, what a successful [open] recovered are the records. *)
Lemma open_holds_inv init file rss t identity size w st :
  StronglySorted older (init ++ [file]) -> holds t (init ++ [file]) rss -> torn t \/ t = [] ->
  open identity size (init ++ [file]) = Ok (w, st) ->
  recoverRecords (concat rss) = Ok st /\ layout w rss (length (concat rss)).
Proof.
  intros Hs Hh Ht. unfold open. destruct (_ || _); [done|]. cbn [guard rbind].
  destruct (size <=? _); [done|]. cbn [guard rbind].
  rewrite findSegments_sorted by done. cbn [rbind]. rewrite last_snoc.
  rewrite (recoverSegments_holds _ rss t) by done.
  destruct (recoverRecords (concat rss)) as [st'|]; [|done]. cbn [rbind].
  destruct (negb _); [done|]. cbn [guard rbind]. intros [= <- <-]. split; [done|].
  by eapply (reopened_layout _ init file rss t).
Qed.

(** A log whose last file is shorter than a header does not open. *)
Lemma short_scan init file newest c :
  len (sf_contents file) < segmentHeaderSize -> scanCheckpoints (init ++ [file]) newest <> Ok c.
Proof.
  intros Hshort. revert newest. induction init as [|f init IH]; intros newest; cbn [app scanCheckpoints].
  - unfold scanSegmentFrames, checkHeader. by rewrite (proj2 (N.ltb_lt _ _) Hshort).
  - destruct (scanSegmentFrames _ _ _ _) as [c'|]; [|done]. apply IH.
Qed.

Lemma short_open init file identity size p :
  StronglySorted older (init ++ [file]) -> len (sf_contents file) < segmentHeaderSize ->
  open identity size (init ++ [file]) <> Ok p.
Proof.
  intros Hs Hshort. unfold open. destruct (_ || _); [done|]. cbn [guard rbind]. destruct (size <=? _); [done|]. cbn [guard rbind].
  rewrite findSegments_sorted by done. cbn [rbind]. rewrite last_snoc. unfold recoverSegments, newestCompactionCheckpoint.
  pose proof (short_scan init file zeroCheckpoint) as Hscan. destruct (scanCheckpoints _ _) as [c|]; [|done].
  by destruct (Hscan c).
Qed.

(** A process that dies leaves a prefix of the records, at least the secured ones, unless the header
    of a new segment is lost. *)
Lemma dies_layout w rss m files' :
  layout w rss m -> dies (w_directory w) files' ->
  exists init file, files' = init ++ [file] /\ StronglySorted older files' /\
    ((len (sf_contents file) < segmentHeaderSize /\
        exists init0 last, w_directory w = init0 ++ [last] /\ secured last < segmentHeaderSize) \/
     exists rss' t i, holds t files' rss' /\ (torn t \/ t = []) /\
       (m <= i)%nat /\ concat rss' = take i (concat rss)).
Proof.
  intros [_ Hsort
    (init & file & rinit & rs & j & Hdir & -> & Hall & Hfull & Hnum & Hoff & Hj & Hm & Hs)] Hdies.
  destruct (dies_cut _ _ Hdies) as (init' & last & file' & k & Ed & Hk & -> & Hn & Hcut).
  rewrite Hdir in Ed, Hsort. apply app_inj_tail in Ed as [<- <-].
  exists init, file'. split; [done|]. split; [by apply (sorted_replace init file)|].
  destruct (N.lt_ge_cases (len (sf_contents file')) segmentHeaderSize) as [Hshort|Hlong]; [left|right].
  - split; [done|]. exists init, file. split; [done|]. destruct Hfull as [Hc _].
    rewrite Hcut, Hc in Hshort. unfold segmentBytes, segmentHeaderSize, len in *.
    rewrite length_take, length_app, length_segmentHeader in Hshort. lia.
  - destruct (cut_holds init file file' rinit rs j k) as (i & t & Hij & Ht & Hh); try done.
    { rewrite Hcut in Hlong. unfold len in Hlong. rewrite length_take in Hlong. lia. }
    exists (rinit ++ [take i rs]), t, (length (concat rinit) + i)%nat. split_and!; try done; [lia|].
    rewrite !concat_app. cbn. rewrite !app_nil_r, take_app_ge by lia. do 2 f_equal. lia.
Qed.

(** The active segment is new: its header was not on disk when the process died.  The header is lost
    and the log does not open. *)
Definition headless (w : WAL) (size : N) (files' : list segmentFile) : Prop :=
  (exists init last, w_directory w = init ++ [last] /\ secured last < segmentHeaderSize) /\
  forall identity p, open identity size files' <> Ok p.

(** A death at any point of a write sequence: reopening succeeds and yields
    the state after some prefix of the records, unless a new header was lost. *)
Lemma dies_recovers st rss rs w1 rss1 files' size :
  recoverRecords (concat rss) = Ok st -> layout w1 rss1 (length (concat rss)) ->
  concat rss1 = concat rss ++ rs -> Forall ordinary rs ->
  (forall i, exists st', rfold applyRec (take i rs) st = Ok st' /\ state_wf st' /\
     rs_Identity st' = rs_Identity st) ->
  dies (w_directory w1) files' -> segmentHeaderSize + frameHeaderSize < size ->
  (exists i st' w', rfold applyRec (take i rs) st = Ok st' /\
    open (rs_Identity st) size files' = Ok (w', st') /\ wal_inv w' st') \/ headless w1 size files'.
Proof.
  intros Hrec Hlay1 Hcat Hord Hpre Hcrash Hsize.
  destruct (dies_layout _ _ _ _ Hlay1 Hcrash)
    as (init & file & -> & Hsort & [[Hshort Hnew]|(rss' & t & i & Hh & Ht & Hi & Hcut)]).
  { right. split; [done|]. intros identity p. by apply short_open. }
  left.
  rewrite Hcat, take_app_ge in Hcut by lia. set (n := (i - length (concat rss))%nat) in *.
  destruct (Hpre n) as (st' & Hst' & Hwf' & Hid').
  destruct (open_holds init file rss' t st' size) as (w' & Ho & Hinv' & _); try done.
  - rewrite Hcut. eapply recoverRecords_app; [done| |done|done]. by apply Forall_take.
  - exists n, st', w'. by rewrite <- Hid'.
Qed.

Lemma dies_open w st rs w1 files' size :
  wal_inv w st -> Forall fits rs -> Forall ordinary rs ->
  (forall i, exists st', rfold applyRec (take i rs) st = Ok st' /\ state_wf st' /\
     rs_Identity st' = rs_Identity st) ->
  appendRecords rs w = (Ok tt, w1) -> dies (w_directory w1) files' ->
  segmentHeaderSize + frameHeaderSize < size ->
  (exists i st' w', rfold applyRec (take i rs) st = Ok st' /\
    open (w_identity w) size files' = Ok (w', st') /\ wal_inv w' st') \/ headless w1 size files'.
Proof.
  intros Hinv Hfits Hord Hpre E Hcrash Hsize.
  destruct (wi_disk w st Hinv) as (rss & Hlay & Hrec).
  destruct (appendRecords_layout w rss _ rs Hlay) as (w1' & rss1 & E' & Hlay1 & Hcat & _); [done..|].
  rewrite E' in E. injection E as ->. rewrite (wi_identity w st Hinv).
  by eapply dies_recovers.
Qed.

End Codec.
