(* ===== verification/WalSpec.v ===== *)
(** The write-ahead log against its specification: a durable consensus state
    with four operations.  The implementation refines it, reopening returns it,
    and a process that dies in the middle of an operation leaves a prefix of it. *)

From S2P Require Import Prelude Bytes Wal WalRecovery WalOps WalJson.

(** ** The specification *)

Inductive WalOp :=
| OpHardState (state : HardState)
| OpLogEntries (entries : list LogEntry)
| OpTruncate (first : N)
| OpCommit (index : N).

Definition lastIndex (st : RecoveredState) : N := rs_SnapshotIndex st + len (rs_Log st).

(** The first entry that is not where it belongs. *)
Fixpoint misplaced (next : N) (entries : list LogEntry) : option Error :=
  match entries with
  | [] => None
  | e :: entries =>
      if Index e =? next then misplaced (next + 1) entries else Some (errEntryIndex (Index e) next)
  end.

Definition specOp (op : WalOp) (st : RecoveredState) : result Error RecoveredState :=
  match op with
  | OpHardState state => Ok (st <| rs_HardState := state |>)
  | OpLogEntries entries =>
      match entries, misplaced (lastIndex st + 1) entries with
      | [], _ => Err errNoEntries
      | _, Some e => Err e
      | _, None => Ok (st <| rs_Log := rs_Log st ++ entries |>)
      end
  | OpTruncate first =>
      if (first =? 0) || (lastIndex st + 1 <? first) then Err (errTruncateOutside first)
      else if first <=? rs_CommitIndex st
      then Err (errTruncateCommitted first (rs_CommitIndex st))
      else Ok (st <| rs_Log := take (N.to_nat (first - rs_SnapshotIndex st - 1)) (rs_Log st) |>)
  | OpCommit index =>
      if index <? rs_CommitIndex st then Err (errCommitDecreased (rs_CommitIndex st) index)
      else if lastIndex st <? index then Err (errCommitBeyondLog index (lastIndex st))
      else Ok (st <| rs_CommitIndex := index |>)
  end.

Definition runOp (op : WalOp) : WM unit :=
  match op with
  | OpHardState state => SaveHardState state
  | OpLogEntries entries => SaveLogEntries entries
  | OpTruncate first => TruncateLog first
  | OpCommit index => SaveCommitIndex index
  end.

(** What the caller owes: values are Go values whose frames fit, terms and votes
    move forward, and positions do not overflow. *)
Definition op_ok (op : WalOp) (st : RecoveredState) : Prop :=
  match op with
  | OpHardState state =>
      hs_Term state < two64 /\ 9 + N.of_nat (String.length (hs_VotedFor state)) <= maxRecordSize /\
      hard_le (rs_HardState st) state
  | OpLogEntries entries => Forall entry_wf entries /\ lastIndex st + len entries + 1 < two64
  | OpTruncate _ | OpCommit _ => True
  end.

(** The records an operation writes. *)
Definition opRecords (op : WalOp) : list rec :=
  match op with
  | OpHardState state => [hardRec state]
  | OpLogEntries entries => map entryRec entries
  | OpTruncate first => [truncRec first]
  | OpCommit index => [commitRec index]
  end.

(** Sequences of operations. *)
Definition runOps (ops : list WalOp) : WM unit := efor runOp ops.
Definition specOps (ops : list WalOp) (st : RecoveredState) : result Error RecoveredState :=
  rfold specOp ops st.

Fixpoint ops_ok (ops : list WalOp) (st : RecoveredState) : Prop :=
  match ops with
  | [] => True
  | op :: ops =>
      op_ok op st /\ match specOp op st with Ok st' => ops_ok ops st' | Err _ => False end
  end.

(** The state of a freshly created log. *)
Definition initialState (identity : Identity) : RecoveredState :=
  mkRecoveredState identity (mkHardState 0 "") [] 0 0 0.

(** States an operation passes through: none or all of a single record, or some
    of the entries. *)
Definition opPrefix (op : WalOp) (st st' : RecoveredState) : Prop :=
  match op with
  | OpLogEntries entries => exists i, st' = st <| rs_Log := rs_Log st ++ take i entries |>
  | _ => st' = st \/ specOp op st = Ok st'
  end.

(** ** Refinement *)

Lemma misplaced_numbered next entries :
  misplaced next entries = None <-> numbered Index next entries.
Proof.
  revert next. induction entries as [|e entries IH]; intros next; cbn; [done|].
  destruct (N.eqb_spec (Index e) next) as [->|Hne]; rewrite ?IH; naive_solver.
Qed.

Lemma checkEntryIndexes_misplaced last offset entries :
  last + offset + len entries + 1 < two64 ->
  checkEntryIndexes last offset entries =
    match misplaced (last + offset + 1) entries with Some e => Err e | None => Ok tt end.
Proof.
  revert offset. induction entries as [|e entries IH]; intros offset Hb; [done|].
  rewrite len_cons in Hb. cbn [checkEntryIndexes misplaced].
  rewrite (u64_small (last + offset)), u64_small by lia.
  destruct (N.eqb_spec (Index e) (last + offset + 1)); [|done]. cbn [negb guard rbind].
  rewrite IH by lia. by replace (last + (offset + 1) + 1) with (last + offset + 1 + 1) by lia.
Qed.

Section Codec.
Context `{CheckpointCodec}.

Lemma runOp_refines w st op :
  wal_inv w st -> op_ok op st ->
  match specOp op st with
  | Ok st' => exists w', runOp op w = (Ok tt, w') /\ wal_inv w' st'
  | Err e => runOp op w = (Err e, w)
  end.
Proof.
  intros Hinv Hok. pose proof (wi_disk w st Hinv) as (rss & Hlay & _).
  pose proof (lay_open _ _ _ Hlay) as Hopen. pose proof (wi_bound w st Hinv).
  pose proof (wi_order w st Hinv). pose proof (wi_last w st Hinv) as Hlast.
  pose proof (wi_commit w st Hinv) as Hcommit. unfold lastIndex in *.
  destruct op as [hs|entries|first|index]; cbn [specOp runOp op_ok opRecords] in *;
    unfold lastIndex in *; rewrite ?len_map in *.
  - destruct Hok as (? & ? & ?). edestruct saveHardState_inv as (w' & ? & ?); eauto.
  - destruct Hok as (Hall & ?). destruct entries as [|e entries]; [|set (es := e :: entries) in *].
    { unfold SaveLogEntries, ebind, eget. by rewrite Hopen. }
    destruct (misplaced _ es) as [err|] eqn:E.
    + unfold SaveLogEntries, ebind, eget, elift. rewrite Hopen. cbn [negb].
      rewrite (proj2 (N.eqb_neq _ _)) by (unfold es; rewrite len_cons; lia).
      rewrite checkEntryIndexes_misplaced, N.add_0_r, Hlast by (rewrite Hlast; lia). by rewrite E.
    + apply misplaced_numbered in E. edestruct saveLogEntries_inv as (w' & ? & ?); eauto; done.
  - destruct (N.eqb_spec first 0); [|destruct (N.ltb_spec (rs_SnapshotIndex st + len (rs_Log st) + 1) first)];
      cbn [orb]; [..|destruct (N.leb_spec first (rs_CommitIndex st))].
    4:{ edestruct truncateLog_inv as (w' & ? & ?); eauto. }
    all: unfold TruncateLog, ebind, eget; rewrite Hopen, Hlast, Hcommit, u64_small by done; cbn [negb].
    + by rewrite (proj2 (N.eqb_eq _ _)).
    + by rewrite (proj2 (N.ltb_lt _ _)), orb_true_r.
    + rewrite (proj2 (N.eqb_neq _ _)), (proj2 (N.ltb_ge _ _)) by lia. cbn [orb].
      by rewrite (proj2 (N.leb_le _ _)).
  - destruct (N.ltb_spec index (rs_CommitIndex st));
      [|destruct (N.ltb_spec (rs_SnapshotIndex st + len (rs_Log st)) index)].
    3:{ edestruct saveCommitIndex_inv as (w' & ? & ?); eauto. }
    all: unfold SaveCommitIndex, ebind, eget; rewrite Hopen, Hlast, Hcommit; cbn [negb].
    + by rewrite (proj2 (N.ltb_lt _ _)).
    + by rewrite (proj2 (N.ltb_ge _ _)), (proj2 (N.ltb_lt _ _)).
Qed.

Lemma specOp_wf op st st' :
  state_wf st -> op_ok op st -> specOp op st = Ok st' ->
  state_wf st' /\ rs_Identity st' = rs_Identity st.
Proof.
  intros [? ? Hn ? ?] Hok. unfold lastIndex in *.
  destruct op as [hs|entries|first|index]; cbn [specOp op_ok] in *; unfold lastIndex in *.
  - intros [= <-]. split; [by split|done].
  - destruct Hok as [Hall Hb]. destruct entries as [|e entries]; [done|].
    destruct (misplaced _ _) eqn:E; [done|]. intros [= <-]. apply misplaced_numbered in E.
    split; [|done]. split; cbn [rs_Log set_with rs_Identity rs_SnapshotIndex rs_CommitIndex] in *;
      try done; rewrite ?len_app; try lia.
    apply numbered_app. split; [done|].
    by replace (rs_SnapshotIndex st + 1 + len (rs_Log st))
      with (rs_SnapshotIndex st + len (rs_Log st) + 1) by lia.
  - destruct (_ || _) eqn:E1; [done|]. destruct (_ <=? _) eqn:E2; [done|]. reflect_bools.
    intros [= <-]. split; [|done]. split; cbn; try done; rewrite ?len_take; try lia.
    by apply numbered_take.
  - destruct (_ <? _) eqn:E1; [done|]. destruct (_ <? index) eqn:E2; [done|]. reflect_bools.
    intros [= <-]. split; [|done]. split; cbn; done || lia.
Qed.

Lemma runOps_refines ops : forall w st,
  wal_inv w st -> state_wf st -> ops_ok ops st ->
  exists w' st', specOps ops st = Ok st' /\ runOps ops w = (Ok tt, w') /\ wal_inv w' st' /\
    state_wf st' /\ rs_Identity st' = rs_Identity st.
Proof.
  induction ops as [|op ops IH]; intros w st Hinv Hwf Hok.
  - by exists w, st.
  - destruct Hok as [Hop Hok].
    pose proof (runOp_refines w st op Hinv Hop) as Href.
    destruct (specOp op st) as [st1|e] eqn:E; [|done].
    destruct Href as (w1 & E1 & Hinv1).
    destruct (specOp_wf op st st1 Hwf Hop E) as [Hwf1 Hid1].
    destruct (IH w1 st1) as (w' & st' & Es & Ew & Hinv' & Hwf' & Hid'); [done..|].
    exists w', st'. unfold specOps, runOps in *. cbn [rfold efor]. rewrite E. cbn [rbind].
    rewrite (ebind_ok _ _ _ tt w1) by done. split_and!; try done. by rewrite Hid'.
Qed.

(** The active file is synced. *)
Definition whole (w : WAL) : Prop :=
  Forall (fun file => sf_number file = w_segment w -> sf_synced file = len (sf_contents file)) (w_directory w).

Lemma sync_whole w : whole (sync w).2.
Proof.
  unfold whole, sync, emodify, syncFile, onFile. cbn. apply Forall_map, Forall_forall. intros file _.
  destruct (N.eqb_spec (sf_number file) (w_segment w)); [done|]. by intros ?.
Qed.

(** A save ends with a sync, or has written nothing. *)
Lemma saved_whole (m : WM unit) f w w' :
  (forall w, w_directory (f w) = w_directory w /\ w_segment (f w) = w_segment w) ->
  (do+ m in do+ sync in emodify f) w = (Ok tt, w') -> whole w'.
Proof.
  intros Hf. unfold ebind. destruct (m w) as [[[]|] w1]; [|done]. pose proof (sync_whole w1) as Hs.
  destruct (sync w1) as [[[]|] w2]; [|done]. intros [= <-]. unfold whole in *. by destruct (Hf w2) as [-> ->].
Qed.

Lemma runOp_whole op w w' : whole w -> runOp op w = (Ok tt, w') -> whole w'.
Proof.
  intros Hw. destruct op as [hs|entries|first|index]; cbn [runOp];
    unfold SaveHardState, SaveLogEntries, TruncateLog, SaveCommitIndex; rewrite (ebind_ok _ _ _ w w) by done;
    (destruct (negb _); [done|]).
  - by apply saved_whole.
  - destruct (_ =? 0); [done|]. unfold ebind at 1, elift. destruct (checkEntryIndexes _ _ _) as [[]|]; [|done].
    by apply saved_whole.
  - destruct (_ || _); [done|]. destruct (first <=? _); [done|]. by apply saved_whole.
  - destruct (index <? _); [done|]. destruct (_ <? index); [done|]. destruct (index =? _); [by intros [= <-]|].
    by apply saved_whole.
Qed.

Lemma runOps_whole ops w w' : whole w -> runOps ops w = (Ok tt, w') -> whole w'.
Proof.
  revert w. induction ops as [|op ops IH]; intros w Hw; unfold runOps; cbn [efor]; [by intros [= <-]|].
  unfold ebind. destruct (runOp op w) as [[[]|] w1] eqn:E; [|done]. apply IH. by eapply runOp_whole.
Qed.

(** A power loss takes nothing from a synced log, and neither does a process that dies. *)
Lemma whole_dies w rss m files' :
  layout w rss m -> whole w -> powerLoss (w_directory w) files' \/ killed (w_directory w) files' ->
  dies (w_directory w) files' /\ forall size, ~ headless w size files'.
Proof.
  intros [_ _ (init & file & rinit & rs & j & Hdir & _ & _ & [Hc _] & Hnum & _)] Hw Hlost.
  assert (Hsync : sf_synced file = len (sf_contents file)).
  { unfold whole in Hw. rewrite Hdir in Hw. apply Forall_app, proj2 in Hw. rewrite Forall_singleton in Hw. by apply Hw. }
  split.
  - left. destruct Hlost as [(init' & file' & k & Ed & Hk & ->)|]; [|done]. rewrite Hdir in Ed |- *.
    apply app_inj_tail in Ed as [<- <-]. exists init, file, (N.max (secured file) (len (sf_contents file))).
    split; [done|]. split; [lia|]. do 2 f_equal. rewrite Hsync in Hk. unfold shortened, len in *. cbn.
    rewrite !take_ge by lia. by destruct file; cbn in *; subst.
  - intros size [(init' & last & Ed & Hsec) _]. rewrite Hdir in Ed. apply app_inj_tail in Ed as [<- <-].
    unfold secured in Hsec. rewrite Hsync, Hc in Hsec. unfold segmentBytes, segmentHeaderSize, len in Hsec.
    rewrite length_app, length_segmentHeader in Hsec. lia.
Qed.

(** A log that stands for a state is reopened with it. *)
Lemma inv_reopen w st files' size :
  wal_inv w st -> state_wf st -> dies (w_directory w) files' ->
  segmentHeaderSize + frameHeaderSize < size ->
  (exists w', open (w_identity w) size files' = Ok (w', st) /\ wal_inv w' st) \/ headless w size files'.
Proof.
  intros Hinv Hwf Hdies Hsize.
  destruct (dies_open w st [] w files' size) as [(i & st' & w' & Ha & Ho & Hi)|]; try done; [|left|by right].
  - intros i. exists st. by rewrite take_nil.
  - rewrite take_nil in Ha. injection Ha as <-. by exists w'.
Qed.

Lemma opPrefix_records op st st1 k i :
  state_wf st -> NodeID (rs_Identity st) <> "" -> op_ok op st -> specOp op st = Ok st1 ->
  exists st', rfold applyRec (take i (take k (opRecords op))) st = Ok st' /\ opPrefix op st st' /\
    state_wf st' /\ rs_Identity st' = rs_Identity st.
Proof.
  intros Hwf Hid Hok Hspec. rewrite take_take. set (n := (i `min` k)%nat). clearbody n.
  destruct (specOp_wf op st st1 Hwf Hok Hspec) as [Hwf1 Hid1].
  assert (Hone : forall r, opRecords op = [r] -> applyRec r st = Ok st1 ->
    opPrefix op st st /\ opPrefix op st st1 ->
    exists st', rfold applyRec (take n (opRecords op)) st = Ok st' /\ opPrefix op st st' /\
      state_wf st' /\ rs_Identity st' = rs_Identity st).
  { intros r E Ha [Hp Hp1]. rewrite E. destruct n as [|n]; [exists st|exists st1].
    - done.
    - cbn [take rfold]. by rewrite Ha, take_nil. }
  assert (Hp : match op with OpLogEntries _ => True | _ => opPrefix op st st /\ opPrefix op st st1 end).
  { destruct op; cbn [opPrefix]; auto. }
  pose proof (sw_bound st Hwf). pose proof (sw_order st Hwf).
  destruct op as [hs|entries|first|index]; cbn [specOp op_ok opRecords] in *; unfold lastIndex in *.
  - destruct Hok as (? & ? & ?). injection Hspec as <-.
    eapply Hone; [done|by apply apply_hard|done].
  - destruct Hok as [Hall Hb]. destruct entries as [|e es]; [done|]. set (entries := e :: es) in *.
    destruct (misplaced _ entries) eqn:E; [done|]. injection Hspec as <-.
    apply misplaced_numbered in E. rewrite firstn_map.
    exists (st <| rs_Log := rs_Log st ++ take n entries |>). rewrite apply_entries.
    + split_and!; [done|by exists n| |done]. destruct Hwf as [? ? Hn ? ?].
      split; cbn; try done; rewrite ?len_app; try (unfold len in *; rewrite length_take; lia).
      apply numbered_app. split; [done|].
      replace (rs_SnapshotIndex st + 1 + len (rs_Log st))
        with (rs_SnapshotIndex st + len (rs_Log st) + 1) by lia. by apply numbered_take.
    + by apply Forall_take.
    + by apply numbered_take.
  - destruct (_ || _) eqn:E1; [done|]. destruct (_ <=? _) eqn:E2; [done|]. reflect_bools.
    injection Hspec as <-. eapply Hone; [done|apply apply_truncation; lia|done].
  - destruct (_ <? _) eqn:E1; [done|]. destruct (_ <? index) eqn:E2; [done|]. reflect_bools.
    injection Hspec as <-. eapply Hone; [done|apply apply_commit; lia|done].
Qed.

(** A log created in an empty directory is durable with its identity. *)
Lemma fresh_log identity size :
  blank_string (ClusterID identity) = false -> blank_string (NodeID identity) = false ->
  N.of_nat (String.length (ClusterID identity)) < 1000 ->
  N.of_nat (String.length (NodeID identity)) < 1000 ->
  segmentHeaderSize + frameHeaderSize < size ->
  exists w, open identity size [] = Ok (w, initialState identity) /\
    wal_inv w (initialState identity) /\ whole w.
Proof.
  intros Hc Hn Hcl Hnl Hsize. unfold open. rewrite Hc, Hn. cbn [orb guard rbind].
  rewrite (proj2 (N.leb_gt _ _) Hsize). cbn [guard rbind findSegments].
  set (w0 := mkWAL [mkSegment 1 segmentHeader 0 0] size 1 true segmentHeaderSize 0 0 (mkHardState 0 "")
               identity 0 0 ∅).
  assert (Hlay0 : layout w0 [[]] 0).
  { split; cbn; [done|repeat constructor|].
    exists [], (mkSegment 1 segmentHeader 0 0), [], [], 0%nat. by split_and!. }
  set (rc := (recordClusterIdentity, string_bytes (ClusterID identity)) : rec).
  set (rn := (recordNodeIdentity, string_bytes (NodeID identity)) : rec).
  destruct (appendRecords_layout w0 [[]] 0 [rc; rn]) as (w2 & rss & E & Hlay & Hcat & Hmeta);
    [done|cbn; lia| |].
  { repeat constructor; apply fits_small; by rewrite len_string_bytes. }
  destruct (sync_layout w2 rss 0 Hlay) as (w3 & E3 & Hlay3 & Hmeta3 & _).
  exists w3. split.
  2:{ split; [|pose proof (sync_whole w2) as Hw; by rewrite E3 in Hw].
    split; [|unfold same_meta in *; destruct_and!; cbn in *; first [congruence | done | lia | unfold len; cbn; lia]..].
    exists rss. split; [done|]. rewrite Hcat. cbn [concat app].
    assert (Hids : forall x, blank_string x = false -> x <> "") by (intros x Hx ->; done).
    unfold recoverRecords. rewrite visit_ordinary by (by repeat constructor). cbn [rbind].
    unfold rfold, applyRec, applyRecord, recordClusterIdentity, recordNodeIdentity. cbn [fst snd rc rn].
    cbv beta iota zeta. cbn. rewrite !bytes_string_of_string.
    rewrite (bool_decide_true ("" = "")) by done. cbn.
    rewrite (bool_decide_false (ClusterID identity = "")) by auto. cbn.
    rewrite (bool_decide_true ("" = "")) by done. cbn.
    rewrite (bool_decide_false (ClusterID identity = "")), (bool_decide_false (NodeID identity = ""))
      by auto. by destruct identity. }
  change (merge_sort segment_le []) with (@nil segmentFile). cbn [list.last duplicateSegment].
    rewrite (ebind_ok _ _ _ tt w0) by done. unfold appendRecords in E. cbn [efor] in E.
    unfold ebind in E |- *. cbn [fst snd rc rn] in E.
    destruct (appendRecord recordClusterIdentity _ w0) as [[[]|] w1]; [|done].
    destruct (appendRecord recordNodeIdentity _ w1) as [[[]|] w2']; [|done].
    injection E as ->. by rewrite E3.
Qed.

Lemma fresh_inv identity size :
  blank_string (ClusterID identity) = false -> blank_string (NodeID identity) = false ->
  N.of_nat (String.length (ClusterID identity)) < 1000 ->
  N.of_nat (String.length (NodeID identity)) < 1000 ->
  segmentHeaderSize + frameHeaderSize < size ->
  exists w, open identity size [] = Ok (w, initialState identity) /\ wal_inv w (initialState identity).
Proof. intros Hc Hn Hcl Hnl Hs. destruct (fresh_log identity size) as (w & ? & ? & _); [done..|]. by exists w. Qed.

(** ** Claims *)

(** C12: every saving operation of the write-ahead log does to the durable state
    exactly what its specification says, and reports exactly the specified
    error, leaving the log untouched, when the specification rejects it. *)
Theorem wal_operations_refine_specification w st op :
  wal_inv w st -> op_ok op st ->
  match specOp op st with
  | Ok st' => exists w', runOp op w = (Ok tt, w') /\ wal_inv w' st'
  | Err e => runOp op w = (Err e, w)
  end.
Proof.
  apply runOp_refines.
Qed.

(** C11: a log created in an empty directory, driven through any sequence of
    accepted operations and then hit by a power loss or the death of its process,
    reopens with exactly the state the specification computed. *)
Theorem wal_operations_survive_power_loss identity size ops :
  state_wf (initialState identity) ->
  N.of_nat (String.length (ClusterID identity)) < 1000 ->
  N.of_nat (String.length (NodeID identity)) < 1000 ->
  segmentHeaderSize + frameHeaderSize < size ->
  ops_ok ops (initialState identity) ->
  exists w0 w st, open identity size [] = Ok (w0, initialState identity) /\
    runOps ops w0 = (Ok tt, w) /\ specOps ops (initialState identity) = Ok st /\
    forall files', powerLoss (w_directory w) files' \/ killed (w_directory w) files' ->
      exists w', open identity size files' = Ok (w', st).
Proof.
  intros Hwf Hcl Hnl Hsize Hok.
  destruct (fresh_log identity size) as (w0 & Eo & Hinv0 & Hw0); [apply Hwf|apply Hwf|done..|].
  destruct (runOps_refines ops w0 _ Hinv0 Hwf Hok) as (w & st & Es & Er & Hinv & Hwf' & Hid).
  exists w0, w, st. split_and!; try done. intros files' Hlost.
  destruct (wi_disk w st Hinv) as (rss & Hlay & _).
  destruct (whole_dies w rss _ files' Hlay (runOps_whole ops w0 w Hw0 Er) Hlost) as [Hdies Hhead].
  destruct (inv_reopen w st files' size) as [(w' & Ho & _)|Hh]; [done..| |by destruct (Hhead size)].
  exists w'. by rewrite (wi_identity w st Hinv), Hid in Ho.
Qed.

(** C10: an operation of the log is atomic under failures.  A process dies at any point of an operation's
    writes, torn frames included, alone or because the power fails once all that the process found at its start
    is synced.  Then the log reopens; its state is the one before the operation or after
    it, or, for a batch of entries, has a prefix of the batch appended.  The one exception is a
    segment that was just created and whose header is lost: such a log does not reopen. *)
Theorem wal_operations_are_crash_atomic w st op st1 k w1 files' size :
  wal_inv w st -> state_wf st -> op_ok op st -> specOp op st = Ok st1 ->
  appendRecords (take k (opRecords op)) w = (Ok tt, w1) -> dies (w_directory w1) files' ->
  segmentHeaderSize + frameHeaderSize < size ->
  (exists st' w', opPrefix op st st' /\ open (w_identity w) size files' = Ok (w', st') /\
    wal_inv w' st') \/ headless w1 size files'.
Proof.
  intros Hinv Hwf Hok Hspec Happ Hcrash Hsize.
  assert (Hid : NodeID (rs_Identity st) <> "").
  { intros E. pose proof (sw_node st Hwf) as Hn. by rewrite E in Hn. }
  destruct (dies_open w st (take k (opRecords op)) w1 files' size) as [(i & st' & w' & Ha & Ho & Hi)|];
    try done; [..|left|by right].
  - apply Forall_take. destruct op as [hs|entries|first|index]; cbn [op_ok opRecords] in *.
    + apply Forall_singleton. unfold fits, bodyOf, hardRec, encodeHardState. cbn [fst snd].
      rewrite len_cons, len_app, len_be_put, len_string_bytes. lia.
    + apply Forall_map. eapply Forall_impl; [apply Hok|]. apply fits_entry.
    + apply Forall_singleton, fits_small. by rewrite len_be_put.
    + apply Forall_singleton, fits_small. by rewrite len_be_put.
  - apply Forall_take. destruct op; cbn; try (by apply Forall_singleton).
    by apply Forall_map, Forall_true.
  - intros i. destruct (opPrefix_records op st st1 k i) as (st' & ? & _ & ? & ?); [done..|].
    by exists st'.
  - destruct (opPrefix_records op st st1 k i) as (st2 & Ha2 & Hpre & _); [done..|].
    rewrite Ha in Ha2. injection Ha2 as <-. by exists st', w'.
Qed.

(** C36: damage within four consecutive bytes of a record that is followed by
    more data is reported as a checksum mismatch, whatever the damaged bytes
    are, and never replayed. *)
Theorem damaged_record_is_reported final file rs pre m1 m2 post rest state state' :
  let body := pre ++ m1 ++ post in
  Forall fits rs -> rfold applyRec rs state = Ok state' ->
  length m1 = length m2 -> (length m1 <= 4)%nat -> m1 <> m2 ->
  0 < len body <= maxRecordSize -> rest <> [] ->
  sf_contents file = segmentHeader ++ encode rs ++
    be_put 4 (len body) ++ be_put 4 (crc32 body) ++ (pre ++ m2 ++ post) ++ rest ->
  readSegment final file state = Err errChecksum.
Proof.
  intros body Hfits Hr Hlen H4 Hne Hsize Hrest Hc. unfold readSegment. rewrite Hc, checkHeader_ok.
  cbn [rbind]. change 12%nat with (length segmentHeader). rewrite drop_app_length.
  set (bytes := be_put 4 _ ++ _).
  assert (Hfuel : exists fuel, S (length (encode rs ++ bytes)) = (length rs + S fuel)%nat).
  { pose proof (encode_length rs). rewrite length_app.
    exists (length (encode rs) + length bytes - length rs)%nat. lia. }
  destruct Hfuel as [fuel ->]. rewrite readFrames_app, Hr by done. cbn [rbind].
  unfold bytes, body. by rewrite readFrames_corrupt.
Qed.

End Codec.

(** ** Concrete logs *)

Definition sampleIdentity : Identity := mkIdentity "ternion" "n1".

Definition sampleEntry (index term : N) : LogEntry :=
  mkLogEntry index term x00 (replicate 16 x00) 0 "" [].

(** Runs operations on a new log and reopens its directory. *)
Definition reopenAfter (size : N) (ops : WM unit) : result Error RecoveredState :=
  match open sampleIdentity size [] with
  | Ok (w, _) =>
      match ops w with
      | (Ok _, w') => rbind (open sampleIdentity size (w_directory w')) (fun p => Ok p.2)
      | (Err e, _) => Err e
      end
  | Err e => Err e
  end.

Lemma sample_state_wf : state_wf (initialState sampleIdentity).
Proof. split; vm_compute; done. Qed.

Lemma sample_fresh :
  exists w, open sampleIdentity 4096 [] = Ok (w, initialState sampleIdentity) /\
    wal_inv w (initialState sampleIdentity).
Proof. apply fresh_inv; vm_compute; done. Qed.

Lemma wal_operations_refine_specification_witness :
  exists w w', open sampleIdentity 4096 [] = Ok (w, initialState sampleIdentity) /\
    runOp (OpHardState (mkHardState 1 "n2")) w = (Ok tt, w').
Proof.
  destruct sample_fresh as (w & Ho & Hinv).
  destruct (wal_operations_refine_specification w _ (OpHardState (mkHardState 1 "n2")) Hinv)
    as (w' & Hr & _).
  - split_and!; [vm_compute; done..|left; vm_compute; done].
  - exists w, w'. by split.
Defined.

Definition sampleOps : list WalOp :=
  [OpHardState (mkHardState 1 "n2"); OpLogEntries [sampleEntry 1 1; sampleEntry 2 1];
   OpCommit 1; OpTruncate 2; OpLogEntries [sampleEntry 2 2]].

Lemma wal_operations_survive_power_loss_witness :
  exists w0 w st, open sampleIdentity 4096 [] = Ok (w0, initialState sampleIdentity) /\
    runOps sampleOps w0 = (Ok tt, w) /\ specOps sampleOps (initialState sampleIdentity) = Ok st /\
    forall files', powerLoss (w_directory w) files' \/ killed (w_directory w) files' ->
      exists w', open sampleIdentity 4096 files' = Ok (w', st).
Proof.
  apply (wal_operations_survive_power_loss sampleIdentity 4096 sampleOps);
    [exact sample_state_wf|vm_compute; done..|].
  cbn. split_and!; try done; try (left; vm_compute; done).
  all: repeat constructor; vm_compute; done.
Defined.

(** A vote is written and not synced. *)
Definition votedWal : option (WAL * WAL) :=
  match open sampleIdentity 4096 [] with
  | Ok (w, _) => Some (w, (appendRecords (take 1 (opRecords (OpHardState (mkHardState 1 "n2")))) w).2)
  | Err _ => None
  end.

Lemma wal_operations_are_crash_atomic_witness :
  exists w w1 files' st' w', open sampleIdentity 4096 [] = Ok (w, initialState sampleIdentity) /\
    appendRecords (take 1 (opRecords (OpHardState (mkHardState 1 "n2")))) w = (Ok tt, w1) /\
    dies (w_directory w1) files' /\ open sampleIdentity 4096 files' = Ok (w', st') /\
    opPrefix (OpHardState (mkHardState 1 "n2")) (initialState sampleIdentity) st'.
Proof.
  destruct sample_fresh as (w & Ho & Hinv). set (op := OpHardState (mkHardState 1 "n2")).
  destruct (wi_disk w _ Hinv) as (rss & Hlay & _).
  destruct (appendRecords_layout w rss _ (take 1 (opRecords op)) Hlay) as (w1 & rss1 & E & Hlay1 & _);
    [done|by repeat constructor|].
  assert (Hopens : match votedWal with
    | Some (_, w1) => match open sampleIdentity 4096 (w_directory w1) with Ok _ => true | Err _ => false end
    | None => false end = true) by (vm_compute; reflexivity).
  unfold votedWal in Hopens. rewrite Ho in Hopens. change (OpHardState _) with op in Hopens. rewrite E in Hopens. cbn [snd] in Hopens.
  destruct (open sampleIdentity 4096 (w_directory w1)) as [p|] eqn:Hp; [|discriminate Hopens].
  assert (Hd : dies (w_directory w1) (w_directory w1)).
  { left. apply killed_same. destruct (lay_active _ _ _ Hlay1) as (init & ? & _ & _ & _ & -> & _). by destruct init. }
  destruct (wal_operations_are_crash_atomic w _ op
      ((initialState sampleIdentity) <| rs_HardState := mkHardState 1 "n2" |>)
      1 w1 (w_directory w1) 4096 Hinv sample_state_wf)
    as [(st' & w' & Hpre & Ho' & _)|[_ Hno]]; try done.
  - split_and!; [vm_compute; done..|left; vm_compute; done].
  - exists w, w1, (w_directory w1), st', w'. split_and!; try done.
    rewrite (wi_identity w _ Hinv) in Ho'. exact Ho'.
  - destruct (Hno _ _ Hp).
Defined.

Lemma damaged_record_is_reported_witness :
  readSegment true
    (mkSegment 1 (segmentHeader ++ frame [x01; x61] ++
       be_put 4 3 ++ be_put 4 (crc32 [x02; x6e; x31]) ++ [x02; x6e; x32] ++ [x00]) 0 0)
    (checkpointState zeroCheckpoint) = Err errChecksum.
Proof.
  eapply (damaged_record_is_reported true _ [(x01, [x61])] [x02; x6e] [x31] [x32] [] [x00]);
    [by apply Forall_singleton|vm_compute; reflexivity|done|cbn; lia|done|by vm_compute|done|by vm_compute].
Defined.

(** ** Behaviours the format does not survive *)

(** A follower truncates a conflicting suffix, commits past it and compacts:
    the truncation record is still in the active segment. *)
Definition truncateThenCompact : WM unit :=
  do+ SaveLogEntries [sampleEntry 1 1; sampleEntry 2 1; sampleEntry 3 1] in
  do+ TruncateLog 3 in
  do+ SaveLogEntries [sampleEntry 3 2] in
  do+ SaveCommitIndex 3 in
  Compact 3 2.

(** A log that truncated an entry and later compacted past it cannot be
    reopened: replay meets the truncation record, whose index the Snapshot now
    covers, and reports it as outside the retained log. *)
Theorem compaction_after_truncation_prevents_recovery :
  reopenAfter defaultSegmentSize truncateThenCompact = Err (errTruncateOutside 3).
Proof. vm_compute. reflexivity. Qed.

(** Eight entries fill a segment; the truncation and its replacements go to the
    next one, which the Snapshot covers entirely. *)
Definition truncateRollCompact : WM unit :=
  do+ SaveLogEntries (map (fun i => sampleEntry (N.of_nat i) 1) (seq 1 8)) in
  do+ TruncateLog 5 in
  do+ SaveLogEntries [sampleEntry 5 2; sampleEntry 6 2] in
  do+ SaveHardState (mkHardState 2 (bytes_string (replicate 400 x41))) in
  do+ SaveCommitIndex 6 in
  Compact 6 2.

(** Compaction deletes a covered segment that holds a truncation while an
    older segment that holds the truncated entries stays, and recovery brings
    the truncated entries back behind the Snapshot. *)
Theorem compaction_resurrects_truncated_entries :
  rbind (reopenAfter 505 truncateRollCompact) (fun st => Ok (rs_SnapshotIndex st, rs_SnapshotTerm st, rs_Log st))
  = Ok (6, 2, [sampleEntry 7 1; sampleEntry 8 1]).
Proof. vm_compute. reflexivity. Qed.

(** A process killed between creating a segment file and writing its header, and
    one killed before the identity of a new log was written. *)
Lemma interrupted_segment_creation_prevents_recovery :
  open sampleIdentity 4096 [mkSegment 1 [] 0 0] = Err errShortSegment /\
  open sampleIdentity 4096 [mkSegment 1 segmentHeader 0 0] = Err errIncompleteIdentity.
Proof. split; vm_compute; reflexivity. Qed.

(** A vote is written and not synced, and the log is opened again. *)
Definition unsyncedVote : WM unit := appendRecord recordHardState (encodeHardState (mkHardState 7 "n2")).

Definition reopenedVote : option (list segmentFile * WAL * RecoveredState) :=
  match open sampleIdentity 4096 [] with
  | Ok (w, _) =>
      let files := w_directory (unsyncedVote w).2 in
      match open sampleIdentity 4096 files with
      | Ok (w1, st1) => Some (files, w1, st1)
      | Err _ => None
      end
  | Err _ => None
  end.

(** What a power loss leaves that takes all it can from a log of one segment. *)
Definition loseUnsynced (file : segmentFile) : segmentFile :=
  shortened (sf_synced file) file <| sf_synced := len (sf_contents (shortened (sf_synced file) file)) |>.

(** The vote of a process killed before its sync is read back on restart.  [Open] does not
    sync it, and a power loss that follows forgets it, although the process may have repeated it: this is
    the power loss that [dies] leaves out. *)
Lemma recovered_vote_is_not_durable :
  exists files w1 st1 file, reopenedVote = Some (files, w1, st1) /\ killed files files /\
    rs_HardState st1 = mkHardState 7 "n2" /\ w_directory w1 = [file] /\ ~ firm (w_directory w1) /\
    powerLoss (w_directory w1) [loseUnsynced file] /\
    rbind (open sampleIdentity 4096 [loseUnsynced file]) (fun p => Ok (rs_HardState p.2)) = Ok (mkHardState 0 "").
Proof.
  assert (Hc : match reopenedVote with
    | Some (files, w1, st1) =>
        negb (bool_decide (files = [])) && bool_decide (rs_HardState st1 = mkHardState 7 "n2") &&
        match w_directory w1 with
        | [file] =>
            (sf_synced file <? sf_found file) &&
            match open sampleIdentity 4096 [loseUnsynced file] with
            | Ok (_, st) => bool_decide (rs_HardState st = mkHardState 0 "")
            | Err _ => false
            end
        | _ => false
        end
    | None => false end = true) by (vm_compute; reflexivity).
  destruct reopenedVote as [[[files w1] st1]|]; [|done]. apply andb_true_iff in Hc as [[Hne Hv]%andb_true_iff Hc].
  apply negb_true_iff, bool_decide_eq_false in Hne. apply bool_decide_eq_true in Hv.
  destruct (w_directory w1) as [|file []] eqn:Hd; try done. apply andb_true_iff in Hc as [Hs Ho]. apply N.ltb_lt in Hs.
  exists files, w1, st1, file. rewrite Hd. split_and!; [done|by apply killed_same|done|done| |by exists [], file, (sf_synced file)|].
  - unfold firm. rewrite Forall_singleton. lia.
  - destruct (open _ _ _) as [[? st]|]; [|done]. apply bool_decide_eq_true in Ho. cbn. by rewrite Ho.
Qed.
