(* ===== verification/WalInstall.v ===== *)
(** Installing a received Snapshot in the write-ahead log succeeds: the checkpoint is appended and
    synced, and the segments it covers are removed. *)

From S2P Require Import Prelude Bytes Wal WalRecovery WalOps.

(** The segments are whole, the last one is open, and nothing is said about what is synced. *)
Definition sound (w : WAL) : Prop := exists rss, layout w rss 0.

Lemma layout_sound w rss m : layout w rss m -> sound w.
Proof.
  intros [Ho Hs (init & file & rinit & rs & j & Hd & -> & Hi & Hf & Hn & Hoff & Hj & Hm & Hl)].
  exists (rinit ++ [rs]). split; [done..|]. exists init, file, rinit, rs, 0%nat. split_and!; try done; try lia.
  etrans; [|apply N.le_max_l]. rewrite take_0. vm_compute. discriminate.
Qed.

(** A log that has taken records is sound. *)
Lemma inv_sound `{CheckpointCodec} w st : wal_inv w st -> sound w.
Proof. intros [(rss & Hl & _) _ _ _ _ _ _ _ _ _]. by eapply layout_sound. Qed.

Lemma older_filter (P : segmentFile -> Prop) `{forall x, Decision (P x)} files :
  StronglySorted older files -> StronglySorted older (filter P files).
Proof.
  induction 1 as [|f files _ IH Hall]; [constructor|]. rewrite filter_cons. case_decide; [|done].
  constructor; [done|]. rewrite Forall_forall in *. intros x [_ Hx]%list_elem_of_filter. by apply Hall.
Qed.

Lemma full_filter (P : segmentFile -> Prop) `{forall x, Decision (P x)} files rss :
  Forall2 full files rss -> exists rss', Forall2 full (filter P files) rss'.
Proof.
  induction 1 as [|f rs files rss Hf _ [rss' IH]]; [by exists []|]. rewrite filter_cons.
  case_decide; [exists (rs :: rss'); by constructor|by exists rss'].
Qed.

Lemma remove_sound w number :
  number <> w_segment w -> sound w -> sound (w <| w_directory := removeFile number (w_directory w) |>).
Proof.
  intros Hne (rss & [Ho Hs (init & file & rinit & rs & j & Hd & -> & Hi & Hf & Hn & Hoff & Hj & Hm & Hl)]).
  destruct (full_filter (fun f => sf_number f <> number) init rinit Hi) as [rinit' Hi'].
  exists (rinit' ++ [rs]). split; [done|by apply older_filter|].
  exists (filter (fun f => sf_number f <> number) init), file, rinit', rs, j. split_and!; try done; [|cbn; lia].
  cbn. unfold removeFile. rewrite Hd, filter_app, filter_cons_True, filter_nil by congruence. done.
Qed.

Lemma covered_total file rs index : full file rs -> exists b, segmentCoveredBySnapshot file index = Ok b.
Proof.
  intros [Hc Hf]. unfold segmentCoveredBySnapshot. rewrite (scanSegment_holds _ false file rs []) by done.
  generalize true. clear. induction rs as [|r rs IH]; intros b; cbn [rfold]; [by eexists|]. apply IH.
Qed.

Lemma layout_full w : sound w -> Forall (fun file => exists rs, full file rs) (w_directory w).
Proof.
  intros (rss & [_ _ (init & file & rinit & rs & j & -> & _ & Hi & Hf & _)]). apply Forall_app. split.
  - clear -Hi. induction Hi as [|f rs files rss Hf _ IH]; constructor; [by exists rs|done].
  - apply Forall_singleton. by exists rs.
Qed.

(** The loop over the segments. *)
Lemma removal_loop index active segments w :
  Forall (fun file => exists rs, full file rs) segments -> w_segment w = active -> sound w ->
  exists w', efor (fun segment =>
        if sf_number segment =? active then eret tt
        else
          let+ covered := elift (segmentCoveredBySnapshot segment index) in
          if covered
          then emodify (fun w => w <| w_directory := removeFile (sf_number segment) (w_directory w) |>)
          else eret tt) segments w = (Ok tt, w') /\
    sound w' /\ same_meta w w' /\ w_segment w' = active.
Proof.
  intros Hall. revert w. induction Hall as [|file files [rs Hf] _ IH]; intros w Hw Hs; cbn [efor]; [by exists w|].
  destruct (N.eqb_spec (sf_number file) active) as [|Hne]; [by apply IH|].
  destruct (covered_total file rs index Hf) as [b ->]. unfold ebind at 1 2, elift. destruct b; [|by apply IH].
  unfold emodify. destruct (IH (w <| w_directory := removeFile (sf_number file) (w_directory w) |>)) as (w' & He & Hs' & Hm & Hw').
  - done.
  - apply remove_sound; [congruence|done].
  - exists w'. by split_and!.
Qed.

Section Codec.
Context `{CheckpointCodec}.

Lemma installCheckpoint_succeeds index t commit w :
  sound w -> fits (recordCompactionCheckpoint, marshal (mkCheckpoint (w_identity w) (w_hardState w) commit index t)) ->
  exists w', installSnapshotCheckpoint index t commit w = (Ok tt, w') /\ sound w' /\
    w_snapshotIndex w' = index /\ w_snapshotTerm w' = t /\ w_identity w' = w_identity w /\ w_hardState w' = w_hardState w /\
    w_commitIndex w' = w_commitIndex w /\ w_lastLogIndex w' = w_lastLogIndex w.
Proof.
  intros [rss Hl] Hfit. unfold installSnapshotCheckpoint. rewrite (ebind_ok _ _ _ w w) by done.
  destruct (appendRecord_layout w rss 0 _ Hl ltac:(lia) Hfit) as (w1 & rss1 & E1 & Hl1 & _ & Hm1 & _).
  rewrite (ebind_ok _ _ _ tt w1) by done. destruct (sync_layout w1 rss1 0 Hl1) as (w2 & E2 & Hl2 & Hm2 & _).
  rewrite (ebind_ok _ _ _ tt w2) by done. set (w3 := w2 <| w_snapshotIndex := index |> <| w_snapshotTerm := t |>).
  rewrite (ebind_ok _ _ _ tt w3), (ebind_ok _ _ _ w3 w3) by done.
  assert (Hs3 : sound w3) by (apply layout_sound in Hl2 as [r []]; by exists r).
  rewrite (ebind_ok _ _ _ (w_directory w3) w3).
  2:{ destruct Hs3 as [r [_ Hso _]]. unfold elift. by rewrite findSegments_sorted. }
  destruct (removal_loop index (w_segment w3) (w_directory w3) w3 (layout_full w3 Hs3) eq_refl Hs3) as (w4 & E4 & Hs4 & Hm4 & _).
  rewrite (ebind_ok _ _ _ tt w4) by done. eexists. split; [done|].
  unfold same_meta in *. destruct_and!. cbn in *. split_and!; try congruence.
  destruct Hs4 as [r []]. by exists r.
Qed.

(** [InstallSnapshot] succeeds on a sound log that has no newer Snapshot. *)
Lemma walInstall_succeeds index t w :
  sound w -> 0 < index -> 0 < t -> w_snapshotIndex w <= index ->
  fits (recordCompactionCheckpoint,
        marshal (mkCheckpoint (w_identity w) (w_hardState w) (N.max (w_commitIndex w) index) index t)) ->
  exists w', InstallSnapshot index t w = (Ok tt, w') /\ sound w' /\
    w_snapshotIndex w' = index /\ w_snapshotTerm w' = t /\ w_identity w' = w_identity w /\ w_hardState w' = w_hardState w /\
    w_commitIndex w' = N.max (w_commitIndex w) index /\ w_lastLogIndex w' = N.max (w_lastLogIndex w) index.
Proof.
  intros Hs Hi Ht Hle Hfit. unfold InstallSnapshot. rewrite (ebind_ok _ _ _ w w) by done.
  assert (w_open w = true) as -> by (by destruct Hs as [? []]). cbn [negb].
  rewrite (proj2 (N.eqb_neq index 0)), (proj2 (N.eqb_neq t 0)), (proj2 (N.ltb_ge _ _)) by lia. cbn [orb].
  destruct (installCheckpoint_succeeds index t _ w Hs Hfit) as (w1 & E1 & Hs1 & ? & ? & ? & ? & Hc & Hl).
  rewrite (ebind_ok _ _ _ tt w1) by done. eexists. split; [done|]. cbn. rewrite Hc, Hl. split_and!; try done.
  destruct Hs1 as [r []]. by exists r.
Qed.
End Codec.
