(* ===== verification/RaftTypes.v ===== *)
(** Data of the Raft core: log entries, events, actions and the receiver state
    of [internal/raft/raft.go]. *)

From S2P Require Import Prelude.

(** [NodeID] is a Go string; the empty string means no Node. *)
Definition NodeID : Type := string.

Inductive Role := Follower | PreCandidate | Candidate | Leader.

Inductive EntryType :=
  EntryNoOp | EntryOpenSession | EntryCloseSession | EntrySet | EntryDelete.

#[export] Instance Role_eq_dec : EqDecision Role.
Proof. solve_decision. Defined.

#[export] Instance EntryType_eq_dec : EqDecision EntryType.
Proof. solve_decision. Defined.

(** [SessionID] is a [16]byte array, [ProposalID] and [ReadID] are uint64. *)
Definition SessionID : Type := list byte.
Definition ProposalID : Type := N.
Definition ReadID : Type := N.
Definition zeroSessionID : SessionID := replicate 16 x00.

Record LogEntry := mkLogEntry {
  Index : N;
  Term : N;
  EType : EntryType;
  ESessionID : SessionID;
  Sequence : N;
  Key : string;
  Value : list byte
}.

#[export] Instance LogEntry_eq_dec : EqDecision LogEntry.
Proof. solve_decision. Defined.

(** ** Peer messages *)

Record PreVoteRequest := mkPreVoteRequest {
  pvq_From : NodeID; pvq_Term : N; pvq_LastLogIndex : N; pvq_LastLogTerm : N
}.

Record PreVoteResponse := mkPreVoteResponse {
  pvr_From : NodeID; pvr_Term : N; pvr_CurrentTerm : N; pvr_Granted : bool
}.

Record VoteRequest := mkVoteRequest {
  vq_From : NodeID; vq_Term : N; vq_LastLogIndex : N; vq_LastLogTerm : N
}.

Record VoteResponse := mkVoteResponse {
  vr_From : NodeID; vr_Term : N; vr_Granted : bool
}.

Record AppendEntries := mkAppendEntries {
  ae_From : NodeID; ae_Term : N; ae_RequestID : N;
  ae_PrevLogIndex : N; ae_PrevLogTerm : N;
  ae_Entries : list LogEntry; ae_LeaderCommit : N; ae_ReadID : ReadID
}.

Record AppendEntriesResponse := mkAppendEntriesResponse {
  ar_From : NodeID; ar_Term : N; ar_RequestID : N; ar_Success : bool;
  ar_MatchIndex : N; ar_ConflictTerm : N; ar_ConflictIndex : N; ar_ReadID : ReadID
}.

Record InstallSnapshot := mkInstallSnapshot {
  is_From : NodeID; is_Term : N; is_RequestID : N;
  is_SnapshotIndex : N; is_SnapshotTerm : N; is_Length : N; is_Checksum : N;
  is_Offset : N; is_Data : list byte; is_Done : bool;
  is_Success : bool; is_NextOffset : N; is_Installed : bool
}.

Record InstallSnapshotResponse := mkInstallSnapshotResponse {
  ir_From : NodeID; ir_Term : N; ir_RequestID : N; ir_SnapshotIndex : N;
  ir_Success : bool; ir_NextOffset : N; ir_Done : bool
}.

(** ** Events *)

Inductive Event :=
| ElectionTimeout
| HeartbeatTimeout
| CheckQuorumTimeout
| HardStatePersisted (PersistenceID : N)
| LogEntriesPersisted (PersistenceID : N)
| CommitIndexPersisted (PersistenceID : N)
| RecoverCommitted
| SnapshotCompacted (SnapIndex SnapTerm : N)
| ProposeSession (proposal : ProposalID) (type : EntryType) (session : SessionID)
| ProposeSet (proposal : ProposalID) (session : SessionID) (sequence : N)
    (key : string) (value : list byte)
| ProposeDelete (proposal : ProposalID) (session : SessionID) (sequence : N)
    (key : string)
| ConfirmRead (read : ReadID)
| EvPreVoteRequest (request : PreVoteRequest)
| EvPreVoteResponse (response : PreVoteResponse)
| EvVoteRequest (request : VoteRequest)
| EvVoteResponse (response : VoteResponse)
| EvAppendEntries (request : AppendEntries)
| EvAppendEntriesResponse (response : AppendEntriesResponse)
| AppendEntriesFailed (To : NodeID) (RequestID : N)
| EvInstallSnapshot (request : InstallSnapshot)
| EvInstallSnapshotResponse (response : InstallSnapshotResponse).

(** ** Actions *)

Inductive Action :=
| PersistHardState (PersistenceID Term : N) (VotedFor : NodeID)
| PersistLogEntries (PersistenceID TruncateFrom : N) (Entries : list LogEntry)
| PersistCommitIndex (PersistenceID CommitIndex : N)
| SendPreVoteRequest (To : NodeID) (Request : PreVoteRequest)
| SendPreVoteResponse (To : NodeID) (Response : PreVoteResponse)
| SendVoteRequest (To : NodeID) (Request : VoteRequest)
| SendVoteResponse (To : NodeID) (Response : VoteResponse)
| SendAppendEntries (To : NodeID) (Request : AppendEntries)
| SendAppendEntriesResponse (To : NodeID) (Response : AppendEntriesResponse)
| SendInstallSnapshot (To : NodeID) (Term RequestID SnapshotIndex SnapshotTerm Offset : N)
| SendInstallSnapshotResponse (To : NodeID) (Response : InstallSnapshotResponse)
| ResetElectionTimer
| ResetHeartbeatTimer
| ResetCheckQuorumTimer
| BecameLeader (Term : N)
| LostLeadership (Term : N)
| ApplyEntry (Entry : LogEntry)
| BecameReadReady (Term : N)
| ProposalAccepted (proposal : ProposalID) (Index : N)
| ProposalRejected (proposal : ProposalID) (LeaderID : NodeID)
| ReadConfirmed (read : ReadID) (CommitIndex : N)
| ReadRejected (read : ReadID) (LeaderID : NodeID).

(** ** Recovered and pending state *)

Record HardState := mkHardState { hs_Term : N; hs_VotedFor : NodeID }.

Record RecoveredState := mkRecoveredState {
  rs_HardState : HardState;
  rs_Log : list LogEntry;
  rs_CommitIndex : N;
  rs_SnapshotIndex : N;
  rs_SnapshotTerm : N
}.

Record pendingHardStatePersistence := mkPendingHardState {
  ph_term : N; ph_votedFor : NodeID; ph_after : list Action
}.

Inductive logPersistencePurpose := persistLeaderEntry | persistFollowerAppend.

Record pendingLogPersistence := mkPendingLog {
  pl_purpose : logPersistencePurpose;
  pl_term : N;
  pl_leader : NodeID;
  pl_requestID : N;
  pl_truncateFrom : N;
  pl_lastIndex : N;
  pl_leaderCommit : N;
  pl_readID : ReadID
}.

Record pendingCommitPersistence := mkPendingCommit {
  pc_commitIndex : N; pc_after : list Action
}.

Record pendingRead := mkPendingRead {
  pr_acknowledgements : gset string; pr_commitIndex : N; pr_confirmed : bool
}.

Record pendingAppend := mkPendingAppend { pa_requestID : N; pa_leaderCommit : N }.

(** ** The state machine's receiver, [raft.Node] *)

Record Node := mkNode {
  node_id : NodeID;
  peers : list NodeID;
  role : Role;
  term : N;
  votedFor : NodeID;
  leaderID : NodeID;
  lastLogIndex : N;
  lastLogTerm : N;
  durableLogIndex : N;
  logBaseIndex : N;
  logBaseTerm : N;
  log : list LogEntry;
  commitIndex : N;
  lastApplied : N;
  readReady : bool;
  votes : gset string;
  preVotes : gset string;
  activePeers : gset string;
  matchIndex : gmap string N;
  nextIndex : gmap string N;
  appendInFlight : gmap string pendingAppend;
  snapshotInFlight : gmap string N;
  nextRequestID : N;
  pendingReads : gmap N pendingRead;
  recentLeaderContact : bool;
  durableTerm : N;
  durableVotedFor : NodeID;
  nextHardStatePersistence : N;
  pendingHardState : gmap N pendingHardStatePersistence;
  nextLogPersistence : N;
  pendingLog : gmap N pendingLogPersistence;
  durableCommitIndex : N;
  nextCommitPersistence : N;
  pendingCommit : gmap N pendingCommitPersistence
}.

#[export] Instance eta_Node : Eta Node := fun n =>
  mkNode (node_id n) (peers n) (role n) (term n) (votedFor n) (leaderID n)
    (lastLogIndex n) (lastLogTerm n) (durableLogIndex n) (logBaseIndex n)
    (logBaseTerm n) (log n) (commitIndex n) (lastApplied n) (readReady n)
    (votes n) (preVotes n) (activePeers n) (matchIndex n) (nextIndex n)
    (appendInFlight n) (snapshotInFlight n) (nextRequestID n) (pendingReads n)
    (recentLeaderContact n) (durableTerm n) (durableVotedFor n)
    (nextHardStatePersistence n) (pendingHardState n) (nextLogPersistence n)
    (pendingLog n) (durableCommitIndex n) (nextCommitPersistence n) (pendingCommit n).

#[export] Instance set_role : Setter role := ltac:(derive_setter role).
#[export] Instance set_term : Setter term := ltac:(derive_setter term).
#[export] Instance set_votedFor : Setter votedFor := ltac:(derive_setter votedFor).
#[export] Instance set_leaderID : Setter leaderID := ltac:(derive_setter leaderID).
#[export] Instance set_lastLogIndex : Setter lastLogIndex := ltac:(derive_setter lastLogIndex).
#[export] Instance set_lastLogTerm : Setter lastLogTerm := ltac:(derive_setter lastLogTerm).
#[export] Instance set_durableLogIndex : Setter durableLogIndex := ltac:(derive_setter durableLogIndex).
#[export] Instance set_logBaseIndex : Setter logBaseIndex := ltac:(derive_setter logBaseIndex).
#[export] Instance set_logBaseTerm : Setter logBaseTerm := ltac:(derive_setter logBaseTerm).
#[export] Instance set_log : Setter log := ltac:(derive_setter log).
#[export] Instance set_commitIndex : Setter commitIndex := ltac:(derive_setter commitIndex).
#[export] Instance set_lastApplied : Setter lastApplied := ltac:(derive_setter lastApplied).
#[export] Instance set_readReady : Setter readReady := ltac:(derive_setter readReady).
#[export] Instance set_votes : Setter votes := ltac:(derive_setter votes).
#[export] Instance set_preVotes : Setter preVotes := ltac:(derive_setter preVotes).
#[export] Instance set_activePeers : Setter activePeers := ltac:(derive_setter activePeers).
#[export] Instance set_matchIndex : Setter matchIndex := ltac:(derive_setter matchIndex).
#[export] Instance set_nextIndex : Setter nextIndex := ltac:(derive_setter nextIndex).
#[export] Instance set_appendInFlight : Setter appendInFlight := ltac:(derive_setter appendInFlight).
#[export] Instance set_snapshotInFlight : Setter snapshotInFlight := ltac:(derive_setter snapshotInFlight).
#[export] Instance set_nextRequestID : Setter nextRequestID := ltac:(derive_setter nextRequestID).
#[export] Instance set_pendingReads : Setter pendingReads := ltac:(derive_setter pendingReads).
#[export] Instance set_recentLeaderContact : Setter recentLeaderContact := ltac:(derive_setter recentLeaderContact).
#[export] Instance set_durableTerm : Setter durableTerm := ltac:(derive_setter durableTerm).
#[export] Instance set_durableVotedFor : Setter durableVotedFor := ltac:(derive_setter durableVotedFor).
#[export] Instance set_nextHardStatePersistence : Setter nextHardStatePersistence := ltac:(derive_setter nextHardStatePersistence).
#[export] Instance set_pendingHardState : Setter pendingHardState := ltac:(derive_setter pendingHardState).
#[export] Instance set_nextLogPersistence : Setter nextLogPersistence := ltac:(derive_setter nextLogPersistence).
#[export] Instance set_pendingLog : Setter pendingLog := ltac:(derive_setter pendingLog).
#[export] Instance set_durableCommitIndex : Setter durableCommitIndex := ltac:(derive_setter durableCommitIndex).
#[export] Instance set_nextCommitPersistence : Setter nextCommitPersistence := ltac:(derive_setter nextCommitPersistence).
#[export] Instance set_pendingCommit : Setter pendingCommit := ltac:(derive_setter pendingCommit).

(** The read-only view [raft.State]. *)
Record State := mkState {
  st_ID : NodeID; st_Role : Role; st_Term : N; st_VotedFor : NodeID; st_LeaderID : NodeID;
  st_LastLogIndex : N; st_LastLogTerm : N; st_CommitIndex : N; st_LastApplied : N;
  st_LastAppliedTerm : N; st_SnapshotIndex : N; st_ReadReady : bool
}.
