(* ===== verification/RaftCore.v ===== *)
(** The deterministic consensus state machine of [internal/raft/raft.go]: one
    definition per method, each a computation over the receiver [Node] that may
    panic on an out-of-range slice access. *)

From S2P Require Import Prelude RaftTypes.

Abbreviation RM := (M Node).

Definition maxAppendEntriesBytes : N := N.shiftl 1 20 + N.shiftl 4 10.

Definition string_le (a b : string) : Prop := String.leb a b = true.

#[export] Instance string_le_dec a b : Decision (string_le a b).
Proof. unfold string_le. solve_decision. Defined.

(** ** Construction from durable state *)

Definition last_entry (l : list LogEntry) : option LogEntry := list.last l.

Definition compatRecoveredLog (recovered : RecoveredState) : RecoveredState :=
  match rs_Log recovered with
  | first :: _ =>
      if (0 <? rs_SnapshotIndex recovered) && (Index first =? 1)
         && (rs_SnapshotIndex recovered <=? len (rs_Log recovered))
      then
        let snapshotTerm :=
          if rs_SnapshotTerm recovered =? 0
          then match at_index (rs_Log recovered) (rs_SnapshotIndex recovered - 1) with
               | Some e => Term e | None => 0 end
          else rs_SnapshotTerm recovered in
        mkRecoveredState (rs_HardState recovered)
          (drop (N.to_nat (rs_SnapshotIndex recovered)) (rs_Log recovered))
          (rs_CommitIndex recovered) (rs_SnapshotIndex recovered) snapshotTerm
      else recovered
  | [] => recovered
  end.

Definition NewNodeFromRecoveredState (id : NodeID) (peers : list NodeID)
    (given : RecoveredState) : Node :=
  let recovered := compatRecoveredLog given in
  let orderedPeers := merge_sort string_le peers in
  let hard := rs_HardState recovered in
  let snapshotIndex := rs_SnapshotIndex recovered in
  let snapshotTerm := rs_SnapshotTerm recovered in
  let '(lastIndex, lastTerm, durable) :=
    match last_entry (rs_Log recovered) with
    | Some e => (Index e, Term e, Index e)
    | None => (snapshotIndex, snapshotTerm, snapshotIndex)
    end in
  {| node_id := id; peers := orderedPeers; role := Follower;
     term := hs_Term hard; votedFor := hs_VotedFor hard; leaderID := "";
     lastLogIndex := lastIndex; lastLogTerm := lastTerm; durableLogIndex := durable;
     logBaseIndex := snapshotIndex; logBaseTerm := snapshotTerm; log := rs_Log recovered;
     commitIndex := rs_CommitIndex recovered; lastApplied := snapshotIndex;
     readReady := false; votes := ∅; preVotes := ∅; activePeers := ∅;
     matchIndex := ∅; nextIndex := ∅; appendInFlight := ∅; snapshotInFlight := ∅;
     nextRequestID := 0; pendingReads := ∅; recentLeaderContact := false;
     durableTerm := hs_Term hard; durableVotedFor := hs_VotedFor hard;
     nextHardStatePersistence := 0; pendingHardState := ∅;
     nextLogPersistence := 0; pendingLog := ∅;
     durableCommitIndex := rs_CommitIndex recovered;
     nextCommitPersistence := 0; pendingCommit := ∅ |}.

Definition NewNodeWithLog (id : NodeID) (peers : list NodeID) (hardState : HardState)
    (entries : list LogEntry) : Node :=
  NewNodeFromRecoveredState id peers (mkRecoveredState hardState entries 0 0 0).

Definition NewNodeWithHardState (id : NodeID) (peers : list NodeID)
    (hardState : HardState) : Node :=
  NewNodeWithLog id peers hardState [].

Definition NewNode (id : NodeID) (peers : list NodeID) : Node :=
  NewNodeWithHardState id peers (mkHardState 0 "").

(** ** Reading the log *)

Definition quorum (n : Node) : N := (len (peers n) + 1) / 2 + 1.

Definition logOffset (n : Node) (index : N) : N := index -! logBaseIndex n -! 1.

Definition termAt (n : Node) (index : N) : option N :=
  if index =? logBaseIndex n then Some (logBaseTerm n)
  else if (index <=? logBaseIndex n) || (lastLogIndex n <? index) then Some 0
  else option_map Term (at_index (log n) (logOffset n index)).

Definition getState (n : Node) : option State :=
  lastAppliedTerm ← (if 0 <? lastApplied n then termAt n (lastApplied n) else Some 0);
  Some {| st_ID := node_id n; st_Role := role n; st_Term := term n;
          st_VotedFor := votedFor n; st_LeaderID := leaderID n;
          st_LastLogIndex := lastLogIndex n; st_LastLogTerm := lastLogTerm n;
          st_CommitIndex := commitIndex n; st_LastApplied := lastApplied n;
          st_LastAppliedTerm := lastAppliedTerm; st_SnapshotIndex := logBaseIndex n;
          st_ReadReady := readReady n |}.

Definition logIsAtLeastAsUpToDate
    (candidateTerm candidateIndex localTerm localIndex : N) : bool :=
  (localTerm <? candidateTerm)
  || ((candidateTerm =? localTerm) && (localIndex <=? candidateIndex)).

Definition candidateLogIsUpToDate (n : Node) (term index : N) : bool :=
  logIsAtLeastAsUpToDate term index (lastLogTerm n) (lastLogIndex n).

Definition matches (n : Node) (index term : N) : option bool :=
  if (index =? 0) && (term =? 0) then Some true
  else if index <=? lastLogIndex n
  then option_map (fun t => t =? term) (termAt n index)
  else Some false.

Fixpoint batchLoop (n : Node) (fuel : nat) (first last index bytes end_ : N) : option N :=
  match fuel with
  | O => None
  | S fuel =>
      if index <=? last then
        match at_index (log n) (logOffset n index) with
        | None => None
        | Some entry =>
            let entryBytes := 64 + N.of_nat (String.length (Key entry)) + len (Value entry) in
            if (maxAppendEntriesBytes <? bytes + entryBytes) && (first <=? end_)
            then Some end_
            else batchLoop n fuel first last (index +! 1) (bytes + entryBytes) index
        end
      else Some end_
  end.

Definition entriesBatch (n : Node) (first last : N) : option (list LogEntry) :=
  if (first =? 0) || (last <? first) || (lastLogIndex n <? last) then Some []
  else if first <=? logBaseIndex n then Some []
  else
    match batchLoop n (S (N.to_nat (last - first + 1))) first last first 0 (first -! 1) with
    | None => None
    | Some end_ => slice (log n) (logOffset n first) (end_ -! logBaseIndex n)
    end.

Fixpoint conflictHintLoop (n : Node) (fuel : nat) (term first : N) : option N :=
  match fuel with
  | O => Some first
  | S fuel =>
      if logBaseIndex n +! 1 <? first then
        match termAt n (first -! 1) with
        | None => None
        | Some t => if t =? term then conflictHintLoop n fuel term (first -! 1) else Some first
        end
      else Some first
  end.

Definition conflictHint (n : Node) (index : N) : option (N * N) :=
  if (index =? 0) || (lastLogIndex n <? index) then Some (0, lastLogIndex n +! 1)
  else
    match termAt n index with
    | None => None
    | Some term =>
        option_map (fun first => (term, first)) (conflictHintLoop n (N.to_nat index) term index)
    end.

(** The largest index in [1..k] whose term is [wanted]. *)
Fixpoint lastIndexOfTerm (n : Node) (k : nat) (wanted : N) : option (option N) :=
  match k with
  | O => Some None
  | S k' =>
      match termAt n (N.of_nat k) with
      | None => None
      | Some t => if t =? wanted then Some (Some (N.of_nat k)) else lastIndexOfTerm n k' wanted
      end
  end.

Definition nextIndexFromConflict (n : Node) (response : AppendEntriesResponse) : option N :=
  found ← (if negb (ar_ConflictTerm response =? 0)
           then lastIndexOfTerm n (N.to_nat (lastLogIndex n)) (ar_ConflictTerm response)
           else Some None);
  let next := match found with Some index => index +! 1 | None => ar_ConflictIndex response end in
  let next := if next =? 0 then 1 else next in
  Some (N.min next (lastLogIndex n +! 1)).

Definition sortReadIDs (ids : list ReadID) : list ReadID := merge_sort N.le ids.

Definition pendingReadFor (n : Node) (peer : NodeID) : ReadID :=
  let unacknowledged :=
    filter (fun r : ReadID * pendingRead => peer ∉ pr_acknowledgements r.2)
      (map_to_list (pendingReads n)) in
  match sortReadIDs (map fst unacknowledged) with
  | [] => 0
  | readID :: _ => readID
  end.

(** The loop of [entriesToAppend] from position [offset]; [entries] is the rest
    of the request's slice. *)
Fixpoint entriesToAppendFrom (n : Node) (prevIndex offset : N) (entries : list LogEntry)
    : option (list LogEntry * N * bool) :=
  match entries with
  | [] => Some ([], 0, true)
  | entry :: rest =>
      if negb (Index entry =? prevIndex +! offset +! 1) then Some ([], 0, false)
      else if Index entry <=? lastLogIndex n then
        match termAt n (Index entry) with
        | None => None
        | Some t =>
            if negb (t =? Term entry) then
              if Index entry <=? commitIndex n then Some ([], 0, false)
              else Some (entries, Index entry, true)
            else entriesToAppendFrom n prevIndex (offset + 1) rest
        end
      else if negb (Index entry =? lastLogIndex n +! 1) then Some ([], 0, false)
      else Some (entries, 0, true)
  end.

Definition entriesToAppend (n : Node) (prevIndex : N) (entries : list LogEntry)
    : option (list LogEntry * N * bool) :=
  entriesToAppendFrom n prevIndex 0 entries.

Definition voteIsDurable (n : Node) (candidate : NodeID) : bool :=
  (durableTerm n =? term n) && bool_decide (durableVotedFor n = candidate).

(** Go map reads of a missing key yield the zero value. *)
Definition map_get (m : gmap string N) (k : string) : N := default 0 (m !! k).

Definition inFlightAppend (n : Node) (peer : NodeID) : pendingAppend :=
  default (mkPendingAppend 0 0) (appendInFlight n !! peer).

(** ** Replies *)

Definition voteResponse (n : Node) (to : NodeID) (granted : bool) : list Action :=
  [SendVoteResponse to (mkVoteResponse (node_id n) (term n) granted)].

Definition appendEntriesResponse (n : Node) (to : NodeID) (requestID : N) (success : bool)
    (match_ conflictTerm conflictIndex : N) (readID : ReadID) : list Action :=
  [SendAppendEntriesResponse to
     {| ar_From := node_id n; ar_Term := term n; ar_RequestID := requestID;
        ar_Success := success; ar_MatchIndex := match_; ar_ConflictTerm := conflictTerm;
        ar_ConflictIndex := conflictIndex; ar_ReadID := readID |}].

Definition snapshotResponse (n : Node) (request : InstallSnapshot) (success : bool)
    (nextOffset : N) (done : bool) : list Action :=
  [SendInstallSnapshotResponse (is_From request)
     {| ir_From := node_id n; ir_Term := term n; ir_RequestID := is_RequestID request;
        ir_SnapshotIndex := is_SnapshotIndex request; ir_Success := success;
        ir_NextOffset := nextOffset; ir_Done := done |}].

(** ** Persistence requests *)

Definition persistHardState (after : list Action) : RM (list Action) :=
  do! modify (fun n => n <| nextHardStatePersistence := nextHardStatePersistence n +! 1 |>) in
  let! n := get in
  let persistID := nextHardStatePersistence n in
  do! modify (fun n => n <| pendingHardState :=
        <[persistID := mkPendingHardState (term n) (votedFor n) after]> (pendingHardState n) |>) in
  ret [PersistHardState persistID (term n) (votedFor n)].

Definition persistLog (entries : list LogEntry) (pending : pendingLogPersistence)
    : RM (list Action) :=
  do! modify (fun n => n <| nextLogPersistence := nextLogPersistence n +! 1 |>) in
  let! n := get in
  let persistID := nextLogPersistence n in
  do! modify (fun n => n <| pendingLog := <[persistID := pending]> (pendingLog n) |>) in
  ret [PersistLogEntries persistID (pl_truncateFrom pending) entries].

Definition persistCommit (after : list Action) : RM (list Action) :=
  do! modify (fun n => n <| nextCommitPersistence := nextCommitPersistence n +! 1 |>) in
  let! n := get in
  let persistID := nextCommitPersistence n in
  do! modify (fun n => n <| pendingCommit :=
        <[persistID := mkPendingCommit (commitIndex n) after]> (pendingCommit n) |>) in
  ret [PersistCommitIndex persistID (commitIndex n)].

(** ** Changing the log *)

Definition appendEntries (entries : list LogEntry) : RM unit :=
  let! n := get in
  let l := log n ++ entries in
  let! lastEntry := lift (last_entry l) in
  modify (fun n => n <| log := l |> <| lastLogIndex := Index lastEntry |>
                     <| lastLogTerm := Term lastEntry |>).

Definition truncateLog (firstIndex : N) : RM unit :=
  let! n := get in
  let! l := lift (slice_to (log n) (logOffset n firstIndex)) in
  do! modify (fun n => n <| log := l |> <| lastLogIndex := firstIndex -! 1 |>) in
  let! n := get in
  let! t := lift (termAt n (lastLogIndex n)) in
  modify (fun n => n <| lastLogTerm := t |>
                     <| durableLogIndex := N.min (durableLogIndex n) (lastLogIndex n) |>).

Definition compactLog (index term : N) : RM unit :=
  let! n := get in
  if (index <=? logBaseIndex n) || (lastApplied n <? index) then ret tt
  else
    let! t := lift (termAt n index) in
    if negb (t =? term) then ret tt
    else
      let! l := lift (slice_from (log n) (index -! logBaseIndex n)) in
      modify (fun n => n <| log := l |> <| logBaseIndex := index |> <| logBaseTerm := term |>).

(** ** Role changes *)

Definition becomeFollower (newTerm : N) (leader : NodeID) : RM unit :=
  modify (fun n =>
    (if term n <? newTerm then n <| votedFor := "" |> else n)
      <| role := Follower |> <| term := newTerm |> <| leaderID := leader |>
      <| recentLeaderContact := bool_decide (leader ≠ "") |>
      <| votes := ∅ |> <| preVotes := ∅ |> <| activePeers := ∅ |>
      <| matchIndex := ∅ |> <| nextIndex := ∅ |> <| appendInFlight := ∅ |>
      <| snapshotInFlight := ∅ |> <| pendingReads := ∅ |> <| readReady := false |>).

(** ** Applying committed entries and completing reads *)

Definition completeRead (readID : ReadID) : RM (list Action) :=
  let! n := get in
  let! read := lift (pendingReads n !! readID) in
  if negb (pr_confirmed read) || (lastApplied n <? pr_commitIndex read) then ret []
  else
    do! modify (fun n => n <| pendingReads := delete readID (pendingReads n) |>) in
    ret [ReadConfirmed readID (pr_commitIndex read)].

Definition completeReads : RM (list Action) :=
  let! n := get in
  collect completeRead (sortReadIDs (map fst (map_to_list (pendingReads n)))).

Definition applyNext : RM (list Action) :=
  do! modify (fun n => n <| lastApplied := lastApplied n +! 1 |>) in
  let! n := get in
  let! entry := lift (at_index (log n) (logOffset n (lastApplied n))) in
  if bool_decide (role n = Leader) && negb (readReady n)
     && bool_decide (EType entry = EntryNoOp) && (Term entry =? term n)
  then
    do! modify (fun n => n <| readReady := true |>) in
    ret [ApplyEntry entry; BecameReadReady (term n)]
  else ret [ApplyEntry entry].

(** The loop runs once per index in [lastApplied+1 .. index]. *)
Fixpoint applyLoop (count : nat) : RM (list Action) :=
  match count with
  | O => ret []
  | S count =>
      let! first := applyNext in
      let! others := applyLoop count in
      ret (first ++ others)
  end.

Definition applyThrough (index : N) : RM (list Action) :=
  let! n := get in
  if index <=? lastApplied n then completeReads
  else
    let! applied := applyLoop (N.to_nat (index - lastApplied n)) in
    let! reads := completeReads in
    ret (applied ++ reads).

(** ** Commitment *)

Definition replicatedCount (n : Node) (index : N) : N :=
  1 + len (filter (fun peer => index <= map_get (matchIndex n) peer) (peers n)).

(** The scan of [advanceLeaderCommit] over [commitIndex+k] downto [commitIndex+1]. *)
Fixpoint leaderCommitIndex (n : Node) (k : nat) : option (option N) :=
  match k with
  | O => Some None
  | S k' =>
      let index := commitIndex n + N.of_nat k in
      match termAt n index with
      | None => None
      | Some t =>
          if negb (t =? term n) then leaderCommitIndex n k'
          else if quorum n <=? replicatedCount n index then Some (Some index)
          else leaderCommitIndex n k'
      end
  end.

Definition advanceLeaderCommit : RM bool :=
  let! n := get in
  let! found := lift (leaderCommitIndex n (N.to_nat (lastLogIndex n - commitIndex n))) in
  match found with
  | Some index => do! modify (fun n => n <| commitIndex := index |>) in ret true
  | None => ret false
  end.

Definition advanceFollowerCommit (leaderCommit : N) (after : list Action) : RM (list Action) :=
  let! n := get in
  let target := N.min leaderCommit (lastLogIndex n) in
  if commitIndex n <? target then
    do! modify (fun n => n <| commitIndex := target |>) in
    persistCommit after
  else
    let! applied := applyThrough (durableCommitIndex n) in
    ret (applied ++ after).

(** ** Replication *)

Definition sendAppendEntriesTo (peer : NodeID) (readID : ReadID) : RM (list Action) :=
  let! n := get in
  if negb (pa_requestID (inFlightAppend n peer) =? 0) then ret []
  else
    let durableLastIndex := N.min (durableLogIndex n) (lastLogIndex n) in
    let next := map_get (nextIndex n) peer in
    let next := if (next =? 0) || (durableLastIndex +! 1 <? next)
                then durableLastIndex +! 1 else next in
    if next <=? logBaseIndex n then
      if negb (map_get (snapshotInFlight n) peer =? 0) then ret []
      else
        do! modify (fun n => n <| nextRequestID := nextRequestID n +! 1 |>) in
        let! n := get in
        do! modify (fun n => n <| snapshotInFlight :=
                                  <[peer := nextRequestID n]> (snapshotInFlight n) |>) in
        ret [SendInstallSnapshot peer (term n) (nextRequestID n)
               (logBaseIndex n) (logBaseTerm n) 0]
    else
      let prevIndex := next -! 1 in
      do! modify (fun n => n <| nextRequestID := nextRequestID n +! 1 |>) in
      let! n := get in
      let! prevTerm := lift (termAt n prevIndex) in
      let! batch := lift (entriesBatch n next durableLastIndex) in
      let request :=
        {| ae_From := node_id n; ae_Term := term n; ae_RequestID := nextRequestID n;
           ae_PrevLogIndex := prevIndex; ae_PrevLogTerm := prevTerm; ae_Entries := batch;
           ae_LeaderCommit := commitIndex n; ae_ReadID := readID |} in
      do! modify (fun n => n <| appendInFlight :=
            <[peer := mkPendingAppend (ae_RequestID request) (ae_LeaderCommit request)]>
              (appendInFlight n) |>) in
      ret [SendAppendEntries peer request].

Definition sendAppendEntries (readID : ReadID) : RM (list Action) :=
  let! n := get in
  collect (fun peer =>
    let! n := get in
    sendAppendEntriesTo peer (if readID =? 0 then pendingReadFor n peer else readID))
    (peers n).

(** ** Elections *)

Definition startElection : RM (list Action) :=
  do! modify (fun n => n <| role := Candidate |> <| term := term n +! 1 |>
        <| votedFor := node_id n |> <| leaderID := "" |> <| readReady := false |>
        <| votes := {[ node_id n ]} |>) in
  let! n := get in
  let request := mkVoteRequest (node_id n) (term n) (lastLogIndex n) (lastLogTerm n) in
  persistHardState
    (ResetElectionTimer :: map (fun peer => SendVoteRequest peer request) (peers n)).

Definition startPreVote : RM (list Action) :=
  let! n := get in
  if bool_decide (role n = Leader) then ret []
  else
    do! modify (fun n => n <| recentLeaderContact := false |> <| leaderID := "" |>
          <| role := PreCandidate |> <| preVotes := {[ node_id n ]} |>) in
    let! n := get in
    let request :=
      mkPreVoteRequest (node_id n) (term n +! 1) (lastLogIndex n) (lastLogTerm n) in
    let actions :=
      ResetElectionTimer :: map (fun peer => SendPreVoteRequest peer request) (peers n) in
    if quorum n =? 1 then
      let! election := startElection in ret (actions ++ election)
    else ret actions.

Definition handlePreVoteRequest (request : PreVoteRequest) : RM (list Action) :=
  let! n := get in
  let grant := (term n +! 1 <=? pvq_Term request) && negb (recentLeaderContact n)
               && candidateLogIsUpToDate n (pvq_LastLogTerm request) (pvq_LastLogIndex request) in
  ret [SendPreVoteResponse (pvq_From request)
         (mkPreVoteResponse (node_id n) (pvq_Term request) (term n) grant)].

Definition handlePreVoteResponse (response : PreVoteResponse) : RM (list Action) :=
  let! n := get in
  if term n <? pvr_CurrentTerm response then
    do! becomeFollower (pvr_CurrentTerm response) "" in
    persistHardState []
  else if negb (bool_decide (role n = PreCandidate)) || negb (pvr_Term response =? term n +! 1)
          || negb (pvr_Granted response) then ret []
  else
    do! modify (fun n => n <| preVotes := {[ pvr_From response ]} ∪ preVotes n |>) in
    let! n := get in
    if N.of_nat (size (preVotes n)) <? quorum n then ret [] else startElection.

Definition hardStatePersisted (persistenceID : N) : RM (list Action) :=
  let! n := get in
  match pendingHardState n !! persistenceID with
  | None => ret []
  | Some pending =>
      do! modify (fun n => n <| pendingHardState := delete persistenceID (pendingHardState n) |>
            <| durableTerm := ph_term pending |>
            <| durableVotedFor := ph_votedFor pending |>) in
      if negb (ph_term pending =? term n) || bool_decide (ph_votedFor pending ≠ votedFor n)
      then ret []
      else ret (ph_after pending)
  end.

Definition handleVoteRequest (request : VoteRequest) : RM (list Action) :=
  let! n := get in
  if vq_Term request <? term n then ret (voteResponse n (vq_From request) false)
  else
    let termChanged := term n <? vq_Term request in
    do! (if termChanged then becomeFollower (vq_Term request) "" else ret tt) in
    let! n := get in
    let canVote := bool_decide (votedFor n = "") || bool_decide (votedFor n = vq_From request) in
    let grant := canVote
                 && candidateLogIsUpToDate n (vq_LastLogTerm request) (vq_LastLogIndex request) in
    do! (if grant then modify (fun n => n <| votedFor := vq_From request |>) else ret tt) in
    let! n := get in
    let response := voteResponse n (vq_From request) grant in
    if termChanged || (grant && negb (voteIsDurable n (vq_From request)))
    then persistHardState response
    else ret response.

(** A Leader's own append: in-memory log first, then the durability request. *)
Definition leaderAppend (entry : LogEntry) (first : list Action) : RM (list Action) :=
  do! appendEntries [entry] in
  let! n := get in
  let! persist := persistLog [entry]
    {| pl_purpose := persistLeaderEntry; pl_term := term n; pl_leader := "";
       pl_requestID := 0; pl_truncateFrom := 0; pl_lastIndex := Index entry;
       pl_leaderCommit := 0; pl_readID := 0 |} in
  ret (first ++ persist).

Definition handleVoteResponse (response : VoteResponse) : RM (list Action) :=
  let! n := get in
  if term n <? vr_Term response then
    do! becomeFollower (vr_Term response) "" in
    persistHardState []
  else if negb (bool_decide (role n = Candidate)) || negb (vr_Term response =? term n)
          || negb (vr_Granted response) then ret []
  else
    do! modify (fun n => n <| votes := {[ vr_From response ]} ∪ votes n |>) in
    let! n := get in
    if N.of_nat (size (votes n)) <? quorum n then ret []
    else
      do! modify (fun n => n <| role := Leader |> <| leaderID := node_id n |>
            <| activePeers := ∅ |> <| matchIndex := ∅ |> <| nextIndex := ∅ |>
            <| appendInFlight := ∅ |> <| snapshotInFlight := ∅ |> <| readReady := false |>) in
      let! n := get in
      let entry := mkLogEntry (lastLogIndex n +! 1) (term n) EntryNoOp zeroSessionID 0 "" [] in
      do! appendEntries [entry] in
      do! modify (fun n => n <| nextIndex :=
            foldl (fun m peer => <[peer := lastLogIndex n +! 1]> m) (nextIndex n) (peers n) |>) in
      let! n := get in
      let! persist := persistLog [entry]
        {| pl_purpose := persistLeaderEntry; pl_term := term n; pl_leader := "";
           pl_requestID := 0; pl_truncateFrom := 0; pl_lastIndex := Index entry;
           pl_leaderCommit := 0; pl_readID := 0 |} in
      ret ([BecameLeader (term n); ResetHeartbeatTimer; ResetCheckQuorumTimer] ++ persist).

(** ** Client proposals and reads *)

Definition proposeSession (proposal : ProposalID) (type : EntryType) (session : SessionID)
    : RM (list Action) :=
  let! n := get in
  if negb (bool_decide (role n = Leader)) then ret [ProposalRejected proposal (leaderID n)]
  else if negb (bool_decide (type = EntryOpenSession))
          && negb (bool_decide (type = EntryCloseSession)) then ret []
  else
    let entry := mkLogEntry (lastLogIndex n +! 1) (term n) type session 0 "" [] in
    leaderAppend entry [ProposalAccepted proposal (Index entry)].

Definition proposeSet (proposal : ProposalID) (session : SessionID) (sequence : N)
    (key : string) (value : list byte) : RM (list Action) :=
  let! n := get in
  if negb (bool_decide (role n = Leader)) then ret [ProposalRejected proposal (leaderID n)]
  else
    let entry := mkLogEntry (lastLogIndex n +! 1) (term n) EntrySet session sequence key value in
    leaderAppend entry [ProposalAccepted proposal (Index entry)].

Definition proposeDelete (proposal : ProposalID) (session : SessionID) (sequence : N)
    (key : string) : RM (list Action) :=
  let! n := get in
  if negb (bool_decide (role n = Leader)) then ret [ProposalRejected proposal (leaderID n)]
  else
    let entry := mkLogEntry (lastLogIndex n +! 1) (term n) EntryDelete session sequence key [] in
    leaderAppend entry [ProposalAccepted proposal (Index entry)].

Definition confirmRead (read : ReadID) : RM (list Action) :=
  let! n := get in
  if negb (bool_decide (role n = Leader)) then ret [ReadRejected read (leaderID n)]
  else if negb (readReady n) then ret [ReadRejected read ""]
  else
    do! modify (fun n => n <| pendingReads :=
          <[read := mkPendingRead {[ node_id n ]} 0 false]> (pendingReads n) |>) in
    sendAppendEntries read.

Definition heartbeatRound : RM (list Action) :=
  let! n := get in
  if negb (bool_decide (role n = Leader)) then ret []
  else
    do! modify (fun n => n <| appendInFlight := ∅ |>) in
    let! sends := sendAppendEntries 0 in
    ret (ResetHeartbeatTimer :: sends).

Definition checkQuorum : RM (list Action) :=
  let! n := get in
  if negb (bool_decide (role n = Leader)) then ret []
  else if N.of_nat (size (activePeers n)) + 1 <? quorum n then
    do! becomeFollower (term n) "" in
    ret [ResetElectionTimer; LostLeadership (term n)]
  else
    do! modify (fun n => n <| activePeers := ∅ |>) in
    ret [ResetCheckQuorumTimer].

(** ** Follower side of replication *)

(** The common prefix of [handleAppendEntries] and [handleInstallSnapshot]: adopt
    the sender as Leader and note the contact.  Returns whether the term changed. *)
Definition acceptLeader (requestTerm : N) (from : NodeID) : RM bool :=
  let! n := get in
  let termChanged := term n <? requestTerm in
  do! (if termChanged then becomeFollower requestTerm from
       else modify (fun n => n <| role := Follower |> <| leaderID := from |>
                               <| readReady := false |>)) in
  do! modify (fun n => n <| recentLeaderContact := true |>) in
  ret termChanged.

(** [if termChanged { return n.persistHardState(after) }; return after]. *)
Definition finish (termChanged : bool) (after : list Action) : RM (list Action) :=
  if termChanged then persistHardState after else ret after.

Definition handleAppendEntries (request : AppendEntries) : RM (list Action) :=
  let! n := get in
  if ae_Term request <? term n then
    ret (appendEntriesResponse n (ae_From request) (ae_RequestID request) false
           (lastLogIndex n) 0 0 (ae_ReadID request))
  else
    let! termChanged := acceptLeader (ae_Term request) (ae_From request) in
    let after := [ResetElectionTimer] in
    let! n := get in
    let! matched := lift (matches n (ae_PrevLogIndex request) (ae_PrevLogTerm request)) in
    if negb matched then
      let! (conflictTerm, conflictIndex) := lift (conflictHint n (ae_PrevLogIndex request)) in
      finish termChanged
        (after ++ appendEntriesResponse n (ae_From request) (ae_RequestID request) false
                    (lastLogIndex n) conflictTerm conflictIndex (ae_ReadID request))
    else
      let! (newEntries, truncateFrom, ok) :=
        lift (entriesToAppend n (ae_PrevLogIndex request) (ae_Entries request)) in
      if negb ok then
        let! (conflictTerm, conflictIndex) :=
          lift (conflictHint n (ae_PrevLogIndex request +! 1)) in
        finish termChanged
          (after ++ appendEntriesResponse n (ae_From request) (ae_RequestID request) false
                      (lastLogIndex n) conflictTerm conflictIndex (ae_ReadID request))
      else if 0 <? len newEntries then
        do! (if negb (truncateFrom =? 0) then truncateLog truncateFrom else ret tt) in
        do! appendEntries newEntries in
        let! n := get in
        let! persist := persistLog newEntries
          {| pl_purpose := persistFollowerAppend; pl_term := ae_Term request;
             pl_leader := ae_From request; pl_requestID := ae_RequestID request;
             pl_truncateFrom := truncateFrom; pl_lastIndex := lastLogIndex n;
             pl_leaderCommit := ae_LeaderCommit request; pl_readID := ae_ReadID request |} in
        finish termChanged (after ++ persist)
      else if durableLogIndex n <? lastLogIndex n then finish termChanged after
      else
        let! commit := advanceFollowerCommit (ae_LeaderCommit request)
          (appendEntriesResponse n (ae_From request) (ae_RequestID request) true
             (lastLogIndex n) 0 0 (ae_ReadID request)) in
        finish termChanged (after ++ commit).

Definition logEntriesPersisted (persistenceID : N) : RM (list Action) :=
  let! n := get in
  match pendingLog n !! persistenceID with
  | None => ret []
  | Some pending =>
      do! modify (fun n => n <| pendingLog := delete persistenceID (pendingLog n) |>
            <| durableLogIndex := if durableLogIndex n <? pl_lastIndex pending
                                  then pl_lastIndex pending else durableLogIndex n |>) in
      let! n := get in
      match pl_purpose pending with
      | persistLeaderEntry =>
          if negb (bool_decide (role n = Leader)) || negb (term n =? pl_term pending)
             || (lastLogIndex n <? pl_lastIndex pending) then ret []
          else sendAppendEntries 0
      | persistFollowerAppend =>
          if negb (term n =? pl_term pending) || negb (bool_decide (role n = Follower))
             || negb (bool_decide (leaderID n = pl_leader pending)) then ret []
          else
            advanceFollowerCommit (pl_leaderCommit pending)
              (appendEntriesResponse n (pl_leader pending) (pl_requestID pending) true
                 (pl_lastIndex pending) 0 0 (pl_readID pending))
      end
  end.

Definition commitIndexPersisted (persistenceID : N) : RM (list Action) :=
  let! n := get in
  match pendingCommit n !! persistenceID with
  | None => ret []
  | Some pending =>
      do! modify (fun n => n <| pendingCommit := delete persistenceID (pendingCommit n) |>
            <| durableCommitIndex := if durableCommitIndex n <? pc_commitIndex pending
                                     then pc_commitIndex pending else durableCommitIndex n |>) in
      let! actions := applyThrough (pc_commitIndex pending) in
      ret (actions ++ pc_after pending)
  end.

(** ** Leader side of replication *)

Definition acknowledgeRead (response : AppendEntriesResponse) : RM (list Action) :=
  let! n := get in
  match pendingReads n !! ar_ReadID response with
  | None => ret []
  | Some read =>
      if (ar_ReadID response =? 0) || pr_confirmed read then ret []
      else
        let acks := {[ ar_From response ]} ∪ pr_acknowledgements read in
        do! modify (fun n => n <| pendingReads :=
              <[ar_ReadID response := mkPendingRead acks (pr_commitIndex read) false]>
                (pendingReads n) |>) in
        if N.of_nat (size acks) <? quorum n then ret []
        else
          do! modify (fun n => n <| pendingReads :=
                <[ar_ReadID response := mkPendingRead acks (commitIndex n) true]>
                  (pendingReads n) |>) in
          completeReads
  end.

(** Progress bookkeeping for one accepted response. *)
Definition recordProgress (response : AppendEntriesResponse) : RM unit :=
  let from := ar_From response in
  if ar_Success response then
    do! modify (fun n => if map_get (matchIndex n) from <? ar_MatchIndex response
                         then n <| matchIndex := <[from := ar_MatchIndex response]> (matchIndex n) |>
                         else n) in
    modify (fun n => n <| nextIndex :=
                          <[from := map_get (matchIndex n) from +! 1]> (nextIndex n) |>)
  else
    let! n := get in
    let! next := lift (nextIndexFromConflict n response) in
    modify (fun n => n <| nextIndex := <[from := next]> (nextIndex n) |>).

Definition handleAppendEntriesResponse (response : AppendEntriesResponse) : RM (list Action) :=
  let! n := get in
  let from := ar_From response in
  if term n <? ar_Term response then
    do! becomeFollower (ar_Term response) "" in
    persistHardState []
  else if negb (bool_decide (role n = Leader)) || negb (ar_Term response =? term n) then ret []
  else
    let pending := inFlightAppend n from in
    if negb (pa_requestID pending =? 0) && negb (ar_RequestID response =? 0)
       && negb (ar_RequestID response =? pa_requestID pending) then ret []
    else
      do! modify (fun n => n <| appendInFlight := delete from (appendInFlight n) |>
                             <| activePeers := {[ from ]} ∪ activePeers n |>) in
      do! recordProgress response in
      let! advanced := advanceLeaderCommit in
      let! actions :=
        (if advanced then
           let! sends := sendAppendEntries 0 in persistCommit sends
         else
           let! n := get in
           let readID := pendingReadFor n from in
           let durableLastIndex := N.min (durableLogIndex n) (lastLogIndex n) in
           if negb (ar_Success response) || (map_get (nextIndex n) from <=? durableLastIndex)
              || negb (readID =? 0) || (pa_leaderCommit pending <? commitIndex n)
           then sendAppendEntriesTo from readID
           else ret []) in
      let! reads := acknowledgeRead response in
      ret (actions ++ reads).

Definition handleAppendEntriesFailed (to : NodeID) (requestID : N) : RM (list Action) :=
  do! modify (fun n => if pa_requestID (inFlightAppend n to) =? requestID
                       then n <| appendInFlight := delete to (appendInFlight n) |> else n) in
  do! modify (fun n => if map_get (snapshotInFlight n) to =? requestID
                       then n <| snapshotInFlight := delete to (snapshotInFlight n) |> else n) in
  ret [].

(** ** Snapshot transfer *)

(** [first] counts the leading entries covered by the Snapshot. *)
Fixpoint coveredPrefix (entries : list LogEntry) (snapshotIndex : N) : N :=
  match entries with
  | e :: rest => if Index e <=? snapshotIndex then 1 + coveredPrefix rest snapshotIndex else 0
  | [] => 0
  end.

Definition installSnapshotLog (snapshotIndex snapshotTerm : N) : RM unit :=
  let! n := get in
  let first := coveredPrefix (log n) snapshotIndex in
  let! retained :=
    (if snapshotIndex <=? lastLogIndex n
     then let! t := lift (termAt n snapshotIndex) in ret (t =? snapshotTerm)
     else ret false) in
  do! (if retained
       then
         let! l := lift (slice_from (log n) first) in
         modify (fun n => n <| log := l |>)
       else modify (fun n => n <| log := [] |> <| lastLogIndex := snapshotIndex |>
                               <| lastLogTerm := snapshotTerm |>
                               <| durableLogIndex := snapshotIndex |>)) in
  do! modify (fun n => n <| logBaseIndex := snapshotIndex |> <| logBaseTerm := snapshotTerm |>
        <| commitIndex := N.max (commitIndex n) snapshotIndex |>
        <| durableCommitIndex := N.max (durableCommitIndex n) snapshotIndex |>
        <| lastApplied := snapshotIndex |>) in
  modify (fun n => match last_entry (log n) with
                   | Some e => n <| lastLogIndex := Index e |> <| lastLogTerm := Term e |>
                                 <| durableLogIndex := Index e |>
                   | None => n
                   end).

Definition handleInstallSnapshot (request : InstallSnapshot) : RM (list Action) :=
  let! n := get in
  if is_Term request <? term n then
    ret (snapshotResponse n request false (is_Offset request) false)
  else
    let! termChanged := acceptLeader (is_Term request) (is_From request) in
    let! n := get in
    do! (if is_Installed request && (logBaseIndex n <? is_SnapshotIndex request)
         then installSnapshotLog (is_SnapshotIndex request) (is_SnapshotTerm request)
         else ret tt) in
    let! n := get in
    finish termChanged
      (ResetElectionTimer :: snapshotResponse n request (is_Success request)
                               (is_NextOffset request) (is_Installed request)).

Definition handleInstallSnapshotResponse (response : InstallSnapshotResponse)
    : RM (list Action) :=
  let! n := get in
  let from := ir_From response in
  if term n <? ir_Term response then
    do! becomeFollower (ir_Term response) "" in
    persistHardState []
  else if negb (bool_decide (role n = Leader)) || negb (ir_Term response =? term n)
          || negb (map_get (snapshotInFlight n) from =? ir_RequestID response) then ret []
  else if negb (ir_Success response) then
    do! modify (fun n => n <| snapshotInFlight := delete from (snapshotInFlight n) |>) in
    ret []
  else if negb (ir_Done response) then
    ret [SendInstallSnapshot from (term n) (ir_RequestID response)
           (logBaseIndex n) (logBaseTerm n) (ir_NextOffset response)]
  else
    do! modify (fun n => n <| snapshotInFlight := delete from (snapshotInFlight n) |>
          <| matchIndex := <[from := N.max (map_get (matchIndex n) from)
                                       (ir_SnapshotIndex response)]> (matchIndex n) |>
          <| nextIndex := <[from := ir_SnapshotIndex response +! 1]> (nextIndex n) |>) in
    let! n := get in
    sendAppendEntriesTo from (pendingReadFor n from).

(** ** One event *)

Definition Step (event : Event) : RM (list Action) :=
  match event with
  | ElectionTimeout => startPreVote
  | HeartbeatTimeout => heartbeatRound
  | CheckQuorumTimeout => checkQuorum
  | HardStatePersisted persistenceID => hardStatePersisted persistenceID
  | LogEntriesPersisted persistenceID => logEntriesPersisted persistenceID
  | CommitIndexPersisted persistenceID => commitIndexPersisted persistenceID
  | RecoverCommitted => let! n := get in applyThrough (durableCommitIndex n)
  | SnapshotCompacted index term => do! compactLog index term in ret []
  | ProposeSession proposal type session => proposeSession proposal type session
  | ProposeSet proposal session sequence key value =>
      proposeSet proposal session sequence key value
  | ProposeDelete proposal session sequence key => proposeDelete proposal session sequence key
  | ConfirmRead read => confirmRead read
  | EvPreVoteRequest request => handlePreVoteRequest request
  | EvPreVoteResponse response => handlePreVoteResponse response
  | EvVoteRequest request => handleVoteRequest request
  | EvVoteResponse response => handleVoteResponse response
  | EvAppendEntries request => handleAppendEntries request
  | EvAppendEntriesResponse response => handleAppendEntriesResponse response
  | AppendEntriesFailed to requestID => handleAppendEntriesFailed to requestID
  | EvInstallSnapshot request => handleInstallSnapshot request
  | EvInstallSnapshotResponse response => handleInstallSnapshotResponse response
  end.

#[global] Arguments last_entry : simpl never.
#[global] Arguments quorum : simpl never.
#[global] Arguments termAt : simpl never.
#[global] Arguments logOffset : simpl never.
#[global] Arguments sortReadIDs : simpl never.
