(* ===== verification/RaftLog.v ===== *)
(** The well-formedness invariant of a Raft Node and the correctness of the
    routines that read its log: [termAt], [matches], [entriesBatch],
    [conflictHint], [nextIndexFromConflict] and [entriesToAppend]. *)

From S2P Require Import Prelude RaftTypes RaftCore.

(** The in-memory log is a run of entries numbered from [logBaseIndex+1], the
    cached last position agrees with it, and the apply, commit and base indices
    are ordered.  Every index fits a uint64. *)
Record wf (n : Node) : Prop := {
  wf_numbered : numbered Index (logBaseIndex n + 1) (log n);
  wf_last : lastLogIndex n = logBaseIndex n + len (log n);
  wf_lastTerm : lastLogTerm n = match last_entry (log n) with
                                | Some e => Term e | None => logBaseTerm n end;
  wf_base : logBaseIndex n <= lastApplied n;
  wf_applied : lastApplied n <= durableCommitIndex n;
  wf_durableCommit : durableCommitIndex n <= commitIndex n;
  wf_commit : commitIndex n <= lastLogIndex n;
  wf_pendingCommit :
    map_Forall (fun _ p => pc_commitIndex p <= commitIndex n) (pendingCommit n);
  wf_bound : lastLogIndex n + 1 < two64
}.

(** Entries at the indices [lo+1 .. hi]. *)
Definition entriesBetween (n : Node) (lo hi : N) : list LogEntry :=
  take (N.to_nat (hi - lo)) (drop (N.to_nat (lo - logBaseIndex n)) (log n)).

(** The entry at an index, if it is retained. *)
Definition entryAt (n : Node) (index : N) : option LogEntry :=
  if logBaseIndex n <? index then log n !! N.to_nat (index - logBaseIndex n - 1) else None.

(** Size of an entry as [entriesBatch] counts it. *)
Definition entrySize (e : LogEntry) : N :=
  64 + N.of_nat (String.length (Key e)) + len (Value e).

Definition batchSize (l : list LogEntry) : N := foldr (fun e acc => entrySize e + acc) 0 l.

(** The Node holds an entry with this index and term. *)
Definition entryMatches (n : Node) (e : LogEntry) : Prop :=
  Index e <= lastLogIndex n /\ termAt n (Index e) = Some (Term e).

#[global] Arguments entriesBetween : simpl never.
#[global] Arguments entryAt : simpl never.

(** ** Reading positions *)

Section Reading.
Context (n : Node) (Hwf : wf n).

Lemma logOffset_eq i :
  logBaseIndex n < i -> i <= lastLogIndex n -> logOffset n i = i - logBaseIndex n - 1.
Proof.
  destruct Hwf. intros. unfold logOffset. rewrite (u64_sub_small i), u64_sub_small; lia.
Qed.

Lemma at_offset i :
  logBaseIndex n < i -> i <= lastLogIndex n ->
  exists e, at_index (log n) (logOffset n i) = Some e /\ entryAt n i = Some e /\ Index e = i.
Proof.
  intros Hlo Hhi. rewrite (logOffset_eq i) by done. rewrite at_index_lookup.
  pose proof (wf_last n Hwf). unfold len in *.
  destruct (lookup_lt_is_Some_2 (log n) (N.to_nat (i - logBaseIndex n - 1))) as [e He]; [lia|].
  exists e. unfold entryAt. rewrite (proj2 (N.ltb_lt _ _) Hlo). split_and!; [done..|].
  rewrite (numbered_lookup _ _ _ _ _ (wf_numbered n Hwf) He). lia.
Qed.

Lemma entryAt_Some i e :
  entryAt n i = Some e -> logBaseIndex n < i /\ i <= lastLogIndex n /\ Index e = i.
Proof.
  unfold entryAt. destruct (N.ltb_spec (logBaseIndex n) i) as [Hlt|]; [|done]. intros He.
  pose proof (wf_last n Hwf). pose proof (numbered_lookup _ _ _ _ _ (wf_numbered n Hwf) He).
  apply lookup_lt_Some in He. unfold len in *. lia.
Qed.

Lemma entryAt_is_Some i :
  logBaseIndex n < i -> i <= lastLogIndex n -> exists e, entryAt n i = Some e.
Proof. intros. destruct (at_offset i) as (e & _ & He & _); eauto. Qed.

Lemma termAt_base : termAt n (logBaseIndex n) = Some (logBaseTerm n).
Proof. unfold termAt. by rewrite N.eqb_refl. Qed.

Lemma termAt_entry i e : entryAt n i = Some e -> termAt n i = Some (Term e).
Proof.
  intros He. destruct (entryAt_Some i e He) as (Hlo & Hhi & _).
  unfold termAt. rewrite (proj2 (N.eqb_neq _ _)) by lia.
  rewrite (proj2 (N.leb_gt _ _)), (proj2 (N.ltb_ge _ _)) by done. cbn.
  destruct (at_offset i) as (e' & -> & He' & _); [done..|]. cbn. congruence.
Qed.

Lemma termAt_outside i :
  i < logBaseIndex n \/ lastLogIndex n < i -> termAt n i = Some 0.
Proof.
  pose proof (wf_last n Hwf). intros Hi. unfold termAt.
  destruct (N.eqb_spec i (logBaseIndex n)); [lia|].
  destruct (N.leb_spec i (logBaseIndex n)); [done|].
  rewrite (proj2 (N.ltb_lt _ _)) by lia. done.
Qed.

Lemma termAt_total i : exists t, termAt n i = Some t.
Proof.
  destruct (N.lt_trichotomy i (logBaseIndex n)) as [?|[->|?]].
  - rewrite termAt_outside by auto. eauto.
  - rewrite termAt_base. eauto.
  - destruct (N.le_gt_cases i (lastLogIndex n)).
    + destruct (entryAt_is_Some i) as [e He]; [done..|]. rewrite (termAt_entry _ _ He). eauto.
    + rewrite termAt_outside by auto. eauto.
Qed.

Lemma termAt_last : termAt n (lastLogIndex n) = Some (lastLogTerm n).
Proof.
  pose proof (wf_last n Hwf) as Hlast. pose proof (wf_lastTerm n Hwf) as Ht.
  destruct (last_entry (log n)) as [e|] eqn:El.
  - rewrite Ht. apply termAt_entry. unfold entryAt. unfold last_entry in El.
    rewrite last_lookup in El. pose proof (lookup_lt_Some _ _ _ El) as Hlt.
    unfold len in Hlast. rewrite (proj2 (N.ltb_lt _ _)) by lia.
    rewrite <- El. f_equal. lia.
  - apply last_None in El. rewrite El, len_nil, N.add_0_r in Hlast.
    rewrite Hlast, Ht. apply termAt_base.
Qed.

Lemma matches_total i t : exists b, matches n i t = Some b.
Proof.
  unfold matches. destruct (_ && _); [eauto|]. destruct (_ <=? _); [|eauto].
  destruct (termAt_total i) as [t' ->]. cbn. eauto.
Qed.

Lemma getState_total : exists s, getState n = Some s.
Proof.
  unfold getState. destruct (_ <? _); cbn; [|eauto].
  destruct (termAt_total (lastApplied n)) as [t ->]. cbn. eauto.
Qed.

Lemma len_entriesBetween lo hi :
  logBaseIndex n <= lo -> lo <= hi -> hi <= lastLogIndex n -> len (entriesBetween n lo hi) = hi - lo.
Proof.
  intros. unfold entriesBetween. rewrite len_take, len_drop.
  pose proof (wf_last n Hwf). lia.
Qed.

Lemma entriesBetween_at lo hi i :
  logBaseIndex n <= lo -> lo < i -> i <= hi -> entriesBetween n lo hi !! N.to_nat (i - lo - 1) = entryAt n i.
Proof.
  intros Hb Hlo Hhi. unfold entriesBetween, entryAt. rewrite (proj2 (N.ltb_lt _ _)) by lia.
  rewrite lookup_take_lt, lookup_drop by lia. f_equal. lia.
Qed.

Lemma entriesBetween_cons i e hi :
  entryAt n i = Some e -> i <= hi ->
  entriesBetween n (i - 1) hi = e :: entriesBetween n i hi.
Proof.
  intros He Hhi. destruct (entryAt_Some i e He) as (Hlo & _ & _).
  unfold entryAt in He. rewrite (proj2 (N.ltb_lt _ _) Hlo) in He. unfold entriesBetween.
  replace (N.to_nat (hi - (i - 1))) with (S (N.to_nat (hi - i))) by lia.
  replace (N.to_nat (i - 1 - logBaseIndex n)) with (N.to_nat (i - logBaseIndex n - 1)) by lia.
  rewrite (drop_S _ _ _ He). cbn [take]. do 3 f_equal. lia.
Qed.

Lemma entriesBetween_numbered lo hi :
  logBaseIndex n <= lo -> lo <= lastLogIndex n -> numbered Index (lo + 1) (entriesBetween n lo hi).
Proof.
  intros Hlo Hhi. pose proof (wf_last n Hwf) as Hlast. unfold len in Hlast.
  apply numbered_take.
  replace (lo + 1) with (logBaseIndex n + 1 + N.of_nat (N.to_nat (lo - logBaseIndex n))) by lia.
  apply numbered_drop; [apply wf_numbered, Hwf|]. lia.
Qed.

Lemma entriesBetween_app lo mid hi :
  logBaseIndex n <= lo -> lo <= mid -> mid <= hi ->
  entriesBetween n lo hi = entriesBetween n lo mid ++ entriesBetween n mid hi.
Proof.
  intros. unfold entriesBetween.
  replace (N.to_nat (hi - lo)) with (N.to_nat (mid - lo) + N.to_nat (hi - mid))%nat by lia.
  rewrite <- take_take_drop. f_equal. rewrite drop_drop. do 2 f_equal. lia.
Qed.
End Reading.

#[export] Hint Resolve termAt_base termAt_entry termAt_last : ternion.

(** ** Replication batches *)

Lemma batchSize_app l1 l2 : batchSize (l1 ++ l2) = batchSize l1 + batchSize l2.
Proof. unfold batchSize. induction l1 as [|e l1 IH]; [done|]. cbn. rewrite IH. lia. Qed.

Section Routines.
Context (n : Node) (Hwf : wf n).

Lemma entriesBetween_snoc lo i e :
  logBaseIndex n <= lo -> lo < i -> entryAt n i = Some e ->
  entriesBetween n lo i = entriesBetween n lo (i - 1) ++ [e].
Proof.
  intros Hlo Hi He. rewrite (entriesBetween_app n lo (i - 1) i) by lia. f_equal.
  rewrite (entriesBetween_cons n Hwf i e) by (done || lia).
  unfold entriesBetween. replace (i - i) with 0 by lia. done.
Qed.

Lemma batchLoop_spec fuel first last index bytes :
  logBaseIndex n < first -> last <= lastLogIndex n -> first <= index <= last + 1 ->
  (N.to_nat (last + 1 - index) < fuel)%nat ->
  bytes = batchSize (entriesBetween n (first - 1) (index - 1)) ->
  (index <= first + 1 \/ bytes <= maxAppendEntriesBytes) ->
  (first <= last) ->
  exists e, batchLoop n fuel first last index bytes (index - 1) = Some e /\
    first <= e <= last /\
    (e = first \/ batchSize (entriesBetween n (first - 1) e) <= maxAppendEntriesBytes) /\
    (e = last \/ maxAppendEntriesBytes < batchSize (entriesBetween n (first - 1) (e + 1))).
Proof.
  intros Hbase Hlast. pose proof (wf_bound n Hwf) as Hb.
  revert index bytes. induction fuel as [|fuel IH]; intros index bytes Hi Hf Hbytes Hok Hne; [lia|].
  cbn [batchLoop]. destruct (N.leb_spec index last) as [Hle|Hgt].
  2:{ exists (index - 1). split; [done|]. split; [lia|]. split; [|left; lia].
      destruct Hok; [left; lia|right; by rewrite <- Hbytes]. }
  destruct (at_offset n Hwf index) as (e & -> & He & _); [lia..|].
  assert (Hsnoc : batchSize (entriesBetween n (first - 1) index) = bytes + entrySize e).
  { rewrite (entriesBetween_snoc _ _ e) by (done || lia).
    rewrite batchSize_app, <- Hbytes. cbn. lia. }
  fold (entrySize e). destruct (_ && _) eqn:E; reflect_bools.
  - exists (index - 1). split; [done|]. split; [lia|]. split.
    + destruct Hok; [left; lia|right; by rewrite <- Hbytes].
    + right. replace (index - 1 + 1) with index by lia. lia.
  - rewrite u64_small by lia. destruct (IH (index + 1) (bytes + entrySize e)) as (e' & H); try lia.
    + replace (index + 1 - 1) with index by lia. done.
    + exists e'. by replace (index + 1 - 1) with index in H by lia.
Qed.

Lemma entriesBatch_spec first last :
  logBaseIndex n < first -> first <= last -> last <= lastLogIndex n ->
  exists e, entriesBatch n first last = Some (entriesBetween n (first - 1) e) /\
    first <= e <= last /\
    (e = first \/ batchSize (entriesBetween n (first - 1) e) <= maxAppendEntriesBytes) /\
    (e = last \/ maxAppendEntriesBytes < batchSize (entriesBetween n (first - 1) (e + 1))).
Proof.
  intros Hbase Hfl Hlast. unfold entriesBatch. pose proof (wf_bound n Hwf).
  pose proof (wf_last n Hwf).
  rewrite (proj2 (N.eqb_neq first 0)), (proj2 (N.ltb_ge last first)),
    (proj2 (N.ltb_ge _ last)), (proj2 (N.leb_gt first _)) by lia. cbn [orb].
  rewrite u64_sub_small by lia.
  destruct (batchLoop_spec (S (N.to_nat (last - first + 1))) first last first 0)
    as (e & -> & He & Hmax); try lia.
  { unfold entriesBetween. by replace (first - 1 - (first - 1)) with 0 by lia. }
  exists e. split; [|split; [lia|done]].
  rewrite logOffset_eq, u64_sub_small, slice_some by (done || lia).
  unfold entriesBetween. do 2 f_equal; [lia|]. f_equal. lia.
Qed.

Lemma entriesBatch_empty first last : last < first -> entriesBatch n first last = Some [].
Proof.
  intros. unfold entriesBatch. rewrite (proj2 (N.ltb_lt _ _)) by done. by rewrite orb_true_r.
Qed.

(** ** Conflict hints *)

Lemma conflictHintLoop_spec fuel t first :
  logBaseIndex n < first -> first <= lastLogIndex n -> (N.to_nat (first - logBaseIndex n) <= fuel)%nat ->
  exists r, conflictHintLoop n fuel t first = Some r /\ logBaseIndex n < r <= first /\
    (forall i, r <= i < first -> termAt n i = Some t) /\
    (r = logBaseIndex n + 1 \/ termAt n (r - 1) <> Some t).
Proof.
  pose proof (wf_bound n Hwf). pose proof (wf_last n Hwf).
  revert first. induction fuel as [|fuel IH]; intros first Hb Hl Hf; [lia|].
  cbn [conflictHintLoop]. rewrite u64_small by lia.
  destruct (N.ltb_spec (logBaseIndex n + 1) first) as [Hlt|Hge].
  2:{ exists first. split; [done|]. split; [lia|]. split; [lia|left; lia]. }
  rewrite u64_sub_small by lia. destruct (termAt_total n Hwf (first - 1)) as [t' Ht'].
  rewrite Ht'. destruct (N.eqb_spec t' t) as [->|Hne].
  - destruct (IH (first - 1)) as (r & -> & Hr & Hall & Hstop); [lia..|].
    exists r. split; [done|]. split; [lia|]. split; [|done]. intros i Hi.
    destruct (N.eq_dec i (first - 1)) as [->|]; [done|]. apply Hall. lia.
  - exists first. split; [done|]. split; [lia|]. split; [lia|]. right. congruence.
Qed.

Lemma conflictHint_inside i :
  logBaseIndex n < i -> i <= lastLogIndex n ->
  exists t first, conflictHint n i = Some (t, first) /\ logBaseIndex n < first <= i /\
    (forall j, first <= j <= i -> termAt n j = Some t) /\
    (first = logBaseIndex n + 1 \/ termAt n (first - 1) <> Some t).
Proof.
  intros Hb Hl. unfold conflictHint.
  rewrite (proj2 (N.eqb_neq _ _)), (proj2 (N.ltb_ge _ _)) by lia. cbn.
  destruct (termAt_total n Hwf i) as [t Ht]. rewrite Ht.
  destruct (conflictHintLoop_spec (N.to_nat i) t i) as (r & -> & Hr & Hall & Hstop); [lia..|].
  exists t, r. split; [done|]. split; [lia|]. split; [|done]. intros j Hj.
  destruct (N.eq_dec j i) as [->|]; [done|]. apply Hall. lia.
Qed.

Lemma conflictHint_total i : exists t first, conflictHint n i = Some (t, first).
Proof.
  unfold conflictHint. destruct (_ || _) eqn:E; [eauto|]. reflect_bools.
  destruct (termAt_total n Hwf i) as [t ->].
  destruct (N.le_gt_cases i (logBaseIndex n)) as [Hle|Hgt].
  - pose proof (wf_bound n Hwf). pose proof (wf_last n Hwf).
    destruct (N.to_nat i) as [|f] eqn:Ef; [lia|]. cbn [conflictHintLoop].
    rewrite u64_small, (proj2 (N.ltb_ge _ _)) by lia. cbn. eauto.
  - destruct (conflictHintLoop_spec (N.to_nat i) t i) as (r & -> & _); [lia..|]. cbn. eauto.
Qed.

Lemma lastIndexOfTerm_spec k t :
  exists r, lastIndexOfTerm n k t = Some r /\
    match r with
    | Some i => 1 <= i <= N.of_nat k /\ termAt n i = Some t /\
                forall j, i < j <= N.of_nat k -> termAt n j <> Some t
    | None => forall j, 1 <= j <= N.of_nat k -> termAt n j <> Some t
    end.
Proof.
  induction k as [|k (r & Hr & IH)]; [exists None; split; [done|lia]|].
  cbn [lastIndexOfTerm]. destruct (termAt_total n Hwf (N.of_nat (S k))) as [t' Ht']. rewrite Ht'.
  destruct (N.eqb_spec t' t) as [->|Hne].
  - exists (Some (N.of_nat (S k))). split; [done|]. split; [lia|]. split; [done|lia].
  - exists r. split; [done|]. destruct r as [i|].
    + destruct IH as (? & ? & Hmax). split; [lia|]. split; [done|]. intros j Hj.
      destruct (N.eq_dec j (N.of_nat (S k))) as [->|]; [congruence|]. apply Hmax. lia.
    + intros j Hj. destruct (N.eq_dec j (N.of_nat (S k))) as [->|]; [congruence|].
      apply IH. lia.
Qed.

Lemma nextIndexFromConflict_total response :
  exists i, nextIndexFromConflict n response = Some i /\ i <= lastLogIndex n + 1.
Proof.
  unfold nextIndexFromConflict. pose proof (wf_bound n Hwf).
  destruct (negb _).
  - destruct (lastIndexOfTerm_spec (N.to_nat (lastLogIndex n)) (ar_ConflictTerm response))
      as (r & -> & _). cbn. eexists. split; [done|]. rewrite (u64_small (_ + 1)) by lia. lia.
  - cbn. eexists. split; [done|]. rewrite (u64_small (_ + 1)) by lia. lia.
Qed.

(** ** Deciding what to append *)

Lemma entriesToAppendFrom_spec prev offset entries :
  numbered Index (prev + offset + 1) entries ->
  prev + offset + len entries + 1 < two64 ->
  exists new tr ok, entriesToAppendFrom n prev offset entries = Some (new, tr, ok) /\
    match ok, new with
    | true, [] => tr = 0 /\ Forall (entryMatches n) entries
    | true, e :: _ => exists pre, entries = pre ++ new /\ Forall (entryMatches n) pre /\
        ((tr = 0 /\ Index e = lastLogIndex n + 1) \/
         (tr = Index e /\ commitIndex n < tr <= lastLogIndex n /\ termAt n tr <> Some (Term e)))
    | false, _ => new = [] /\ tr = 0 /\ exists pre e post, entries = pre ++ e :: post /\
        Forall (entryMatches n) pre /\
        ((Index e <= commitIndex n /\ termAt n (Index e) <> Some (Term e)) \/
         lastLogIndex n + 1 < Index e)
    end.
Proof.
  pose proof (wf_bound n Hwf).
  revert offset. induction entries as [|e entries IH]; intros offset Hn Hb;
    cbn [entriesToAppendFrom].
  { exists [], 0, true. done. }
  destruct Hn as [He Hn]. rewrite len_cons in Hb. rewrite He.
  rewrite (u64_small (prev + offset)), u64_small, N.eqb_refl by lia. cbn [negb].
  destruct (N.leb_spec (prev + offset + 1) (lastLogIndex n)) as [Hle|Hgt].
  - destruct (termAt_total n Hwf (prev + offset + 1)) as [t Ht]. rewrite Ht.
    destruct (N.eqb_spec t (Term e)) as [->|Hne]; cbn [negb].
    + assert (Hm : entryMatches n e) by (split; rewrite He; done).
      destruct (IH (offset + 1)) as (new & tr & ok & -> & Hr); [..|].
      { by replace (prev + (offset + 1) + 1) with (prev + offset + 1 + 1) by lia. }
      { lia. }
      exists new, tr, ok. split; [done|]. destruct ok, new as [|e' new].
      * destruct Hr. by split; [|constructor].
      * destruct Hr as (pre & -> & ? & ?). exists (e :: pre). split; [done|]. by split; [constructor|].
      * destruct Hr as (? & ? & pre & x & post & -> & ? & ?). do 2 (split; [done|]).
        exists (e :: pre), x, post. split; [done|]. by split; [constructor|].
      * destruct Hr as (? & ? & pre & x & post & -> & ? & ?). done.
    + destruct (N.leb_spec (prev + offset + 1) (commitIndex n)).
      * exists [], 0, false. split; [done|]. do 2 (split; [done|]).
        exists [], e, entries. split; [done|]. split; [constructor|]. left. rewrite He, Ht.
        split; [done|congruence].
      * exists (e :: entries), (prev + offset + 1), true. split; [done|].
        exists []. split; [done|]. split; [constructor|]. right.
        split; [lia|]. split; [lia|]. rewrite Ht. congruence.
  - rewrite u64_small by lia. destruct (N.eqb_spec (prev + offset + 1) (lastLogIndex n + 1)); cbn.
    + exists (e :: entries), 0, true. split; [done|]. exists []. split; [done|].
      split; [constructor|]. left. split; [done|lia].
    + exists [], 0, false. split; [done|]. do 2 (split; [done|]).
      exists [], e, entries. split; [done|]. split; [constructor|]. right. lia.
Qed.
End Routines.
