(* ===== verification/RaftInvariant.v ===== *)
(** Well-formedness is an invariant of every event, and no event panics. *)

From S2P Require Import Prelude RaftTypes RaftCore RaftLog.

(** What the environment owes the core.  Requests carry consecutively numbered
    entries, as Leaders send them; an installed Snapshot is at or beyond the
    commit index or agrees with the local log; positions fit a uint64. *)
Definition event_ok (n : Node) (e : Event) : Prop :=
  match e with
  | ProposeSession _ _ _ | ProposeSet _ _ _ _ _ | ProposeDelete _ _ _ _ | EvVoteResponse _ =>
      lastLogIndex n + 2 < two64
  | EvAppendEntries r =>
      numbered Index (ae_PrevLogIndex r + 1) (ae_Entries r) /\
      ae_PrevLogIndex r + len (ae_Entries r) + 1 < two64
  | EvInstallSnapshot r =>
      is_Installed r = true -> logBaseIndex n < is_SnapshotIndex r ->
      is_SnapshotIndex r + 1 < two64 /\
      (commitIndex n <= is_SnapshotIndex r \/
       (is_SnapshotIndex r <= lastLogIndex n /\
        termAt n (is_SnapshotIndex r) = Some (is_SnapshotTerm r)))
  | _ => True
  end.

(** What a recovered WAL and Snapshot owe [NewNodeFromRecoveredState]. *)
Definition recovered_ok (r : RecoveredState) : Prop :=
  numbered Index (rs_SnapshotIndex r + 1) (rs_Log r) /\
  rs_SnapshotIndex r <= rs_CommitIndex r /\
  rs_CommitIndex r <= rs_SnapshotIndex r + len (rs_Log r) /\
  rs_SnapshotIndex r + len (rs_Log r) + 1 < two64.

(** ** Frames: which fields a helper may change *)

Definition sends_frame (n n' : Node) : Prop :=
  exists a b c, n' = n <| nextRequestID := a |> <| snapshotInFlight := b |> <| appendInFlight := c |>.

Definition reads_frame (n n' : Node) : Prop := exists p, n' = n <| pendingReads := p |>.

Definition apply_frame (through : N) (n n' : Node) : Prop :=
  exists r p, n' = n <| lastApplied := N.max (lastApplied n) through |>
                     <| readReady := r |> <| pendingReads := p |> /\ p ⊆ pendingReads n /\
    (r = true -> readReady n = true \/
      (role n = Leader /\ exists e, e ∈ entriesBetween n (lastApplied n) through /\
         EType e = EntryNoOp /\ Term e = term n)).

(** ** Classification of actions *)

(** A replication request as a Leader in state [n] must send it. *)
Definition replication (n : Node) (a : Action) : Prop :=
  match a with
  | SendAppendEntries _ r =>
      ae_From r = node_id n /\ ae_Term r = term n /\ ae_LeaderCommit r = commitIndex n /\
      logBaseIndex n <= ae_PrevLogIndex r /\
      termAt n (ae_PrevLogIndex r) = Some (ae_PrevLogTerm r) /\
      ae_PrevLogIndex r + len (ae_Entries r) <= N.min (durableLogIndex n) (lastLogIndex n) /\
      ae_Entries r =
        entriesBetween n (ae_PrevLogIndex r) (ae_PrevLogIndex r + len (ae_Entries r)) /\
      (ae_PrevLogIndex r + len (ae_Entries r) = N.min (durableLogIndex n) (lastLogIndex n) \/
       maxAppendEntriesBytes <
         batchSize (entriesBetween n (ae_PrevLogIndex r) (ae_PrevLogIndex r + len (ae_Entries r) + 1))) /\
      (len (ae_Entries r) <= 1 \/ batchSize (ae_Entries r) <= maxAppendEntriesBytes)
  | SendInstallSnapshot _ t _ index term_ offset =>
      t = term n /\ index = logBaseIndex n /\ term_ = logBaseTerm n /\ offset = 0
  | _ => False
  end.

(** A read is confirmed only after a quorum confirmed it and the captured commit
    index is applied. *)
Definition read_confirmation (reads : gmap N pendingRead) (through : N) (a : Action) : Prop :=
  match a with
  | ReadConfirmed readID index =>
      exists r, reads !! readID = Some r /\ pr_confirmed r = true /\
        pr_commitIndex r = index /\ index <= through
  | _ => False
  end.

(** Effects of applying a committed prefix. *)
Definition apply_effect (n : Node) (through : N) (a : Action) : Prop :=
  match a with
  | ApplyEntry _ => True
  | BecameReadReady t => role n = Leader /\ t = term n
  | _ => read_confirmation (pendingReads n) through a
  end.

Definition applied_entry (a : Action) : option LogEntry :=
  match a with ApplyEntry e => Some e | _ => None end.

(** The entries a list of actions asks the runtime to apply, in order. *)
Definition applied (acts : list Action) : list LogEntry := omap applied_entry acts.

(** The final state names the changed fields. *)
Ltac solve_frame :=
  lazymatch goal with
  | |- sends_frame ?n ?n' =>
      exists (nextRequestID n'), (snapshotInFlight n'), (appendInFlight n'); by destruct n
  | |- reads_frame ?n ?n' => exists (pendingReads n'); by destruct n
  end.

(** ** Sending *)

Lemma sends_frame_refl n : sends_frame n n.
Proof. solve_frame. Qed.

Lemma sends_frame_trans n1 n2 n3 : sends_frame n1 n2 -> sends_frame n2 n3 -> sends_frame n1 n3.
Proof. intros (a & b & c & ->) (a' & b' & c' & ->). by exists a', b', c'. Qed.

Lemma sends_frame_wf n n' : sends_frame n n' -> wf n -> wf n'.
Proof. intros (a & b & c & ->) []. split; done. Qed.

Lemma sends_frame_replication n n' a : sends_frame n n' -> replication n' a -> replication n a.
Proof. by intros (x & b & c & ->). Qed.

Lemma sendAppendEntriesTo_spec n peer readID :
  wf n ->
  wp (sendAppendEntriesTo peer readID)
    (fun acts n' => sends_frame n n' /\ Forall (replication n) acts) n.
Proof.
  intros Hwf. pose proof (wf_bound n Hwf). pose proof (wf_last n Hwf).
  unfold sendAppendEntriesTo. wp_step. wp_step.
  wp_step; [wp_auto; split; [apply sends_frame_refl|constructor]|].
  cbv zeta. rewrite (u64_small (N.min _ _ + 1)) by lia.
  set (d := N.min (durableLogIndex n) (lastLogIndex n)) in *.
  set (next := if _ || _ then _ else _). assert (next <= d + 1 /\ 0 < next) as [Hnext Hpos].
  { subst next. destruct (_ || _) eqn:Eb; [lia|]. reflect_bools. lia. }
  wp_step; reflect_bools.
  - wp_auto; (split; [solve_frame|repeat constructor]).
  - repeat wp_step. assert (d <= lastLogIndex n) by lia. rewrite u64_sub_small by lia.
    set (n1 := n <| nextRequestID := _ |>).
    assert (Hwf1 : wf n1) by (destruct Hwf; by split).
    destruct (termAt_total n Hwf (next - 1)) as [t Ht].
    apply wp_lift with t; [done|]. wp_step.
    destruct (N.lt_ge_cases d next) as [Hlt|Hge].
    + apply wp_lift with []; [by apply entriesBatch_empty|]. wp_auto.
      split; [solve_frame|]. apply Forall_singleton. cbn. rewrite len_nil, N.add_0_r.
      split_and!; try done; try lia. unfold entriesBetween. by rewrite N.sub_diag.
    + destruct (entriesBatch_spec n1 Hwf1 next d) as (e & He & Hle & Hfit & Hmax); [cbn; lia..|].
      apply wp_lift with (entriesBetween n1 (next - 1) e); [done|]. wp_auto.
      split; [solve_frame|].
      change (entriesBetween n1) with (entriesBetween n).
      assert (Hlen : next - 1 + len (entriesBetween n (next - 1) e) = e).
      { rewrite len_entriesBetween by (done || lia). lia. }
      apply Forall_singleton. cbn. rewrite Hlen. split_and!; try done; try lia.
      destruct Hfit as [->|Hfit]; [left; lia|by right].
Qed.

Lemma sendAppendEntries_spec n readID :
  wf n ->
  wp (sendAppendEntries readID)
    (fun acts n' => sends_frame n n' /\ Forall (replication n) acts) n.
Proof.
  intros Hwf. unfold sendAppendEntries. wp_step. wp_step.
  apply (wp_collect _ (fun acts n' => sends_frame n n' /\ Forall (replication n) acts) _ n []).
  { split; [apply sends_frame_refl|constructor]. }
  intros peer acc s _ [Hs Hacc]. wp_step. wp_step.
  eapply wp_mono; [apply sendAppendEntriesTo_spec; by eapply sends_frame_wf|].
  intros new s' [Hs' Hnew]. split; [by eapply sends_frame_trans|].
  apply Forall_app_2; [done|]. eapply Forall_impl; [exact Hnew|].
  intros a. by apply sends_frame_replication.
Qed.

(** ** Applying and completing reads *)

Lemma completeReadList_spec n ids :
  NoDup ids -> (forall i, i ∈ ids -> is_Some (pendingReads n !! i)) ->
  wp (collect completeRead ids)
    (fun acts n' => reads_frame n n' /\ pendingReads n' ⊆ pendingReads n /\
       Forall (read_confirmation (pendingReads n) (lastApplied n)) acts) n.
Proof.
  revert n. induction ids as [|i ids IH]; intros n Hnd Hin; cbn [collect].
  { wp_auto. split_and!; [solve_frame|done|constructor]. }
  apply NoDup_cons in Hnd as [Hi Hnd]. unfold completeRead at 1. wp_step. wp_step. wp_step.
  destruct (Hin i) as [r Hr]; [set_solver|]. wp_step. eapply wp_lift; [done|].
  wp_step; reflect_bools.
  - wp_auto. eapply wp_mono; [apply IH; [done|set_solver]|].
    intros acts n' H. by wp_auto.
  - repeat wp_step. eapply wp_mono; [apply IH|].
    + done.
    + intros j Hj. cbn. rewrite lookup_delete_ne by set_solver. set_solver.
    + intros acts n' ((p & ->) & Hp & Hacts). cbn in *. wp_auto.
      assert (delete i (pendingReads n) ⊆ pendingReads n) as Hsub by apply delete_subseteq.
      split_and!; [solve_frame|by transitivity (delete i (pendingReads n))|].
      constructor; [cbn; eauto|]. eapply Forall_impl; [exact Hacts|]. intros []; try done. cbn.
      intros (r' & Hr' & ?). exists r'. split; [|done]. by eapply lookup_weaken.
Qed.

Lemma completeReads_spec n :
  wp completeReads
    (fun acts n' => reads_frame n n' /\ pendingReads n' ⊆ pendingReads n /\
       Forall (read_confirmation (pendingReads n) (lastApplied n)) acts) n.
Proof.
  unfold completeReads. wp_step. wp_step. apply completeReadList_spec.
  - unfold sortReadIDs. rewrite merge_sort_Permutation. apply NoDup_fst_map_to_list.
  - intros i. unfold sortReadIDs. rewrite merge_sort_Permutation.
    intros ([j r] & -> & H)%list_elem_of_fmap. apply elem_of_map_to_list in H. eauto.
Qed.

Lemma applied_app l1 l2 : applied (l1 ++ l2) = applied l1 ++ applied l2.
Proof. apply omap_app. Qed.

Lemma applied_read_confirmations reads through acts :
  Forall (read_confirmation reads through) acts -> applied acts = [].
Proof. induction 1 as [|[] ? H]; done. Qed.

Lemma applyLoop_spec n count a r :
  wf n -> logBaseIndex n <= a -> a + N.of_nat count <= lastLogIndex n ->
  wp (applyLoop count)
    (fun acts s' => exists r',
       s' = n <| lastApplied := a + N.of_nat count |> <| readReady := r' |> /\
       applied acts = entriesBetween n a (a + N.of_nat count) /\
       (forall through, Forall (apply_effect n through) acts) /\
       (r' = true -> r = true \/ (role n = Leader /\ exists e, e ∈ applied acts /\
          EType e = EntryNoOp /\ Term e = term n)))
    (n <| lastApplied := a |> <| readReady := r |>).
Proof.
  intros Hwf. pose proof (wf_bound n Hwf). revert a r.
  induction count as [|count IH]; intros a r Ha Hle; cbn [applyLoop].
  { wp_auto. exists r. rewrite N.add_0_r. split_and!; [done| |constructor|auto].
    unfold entriesBetween. by rewrite N.sub_diag. }
  unfold applyNext. repeat wp_step. cbn [lastApplied set_with set_lastApplied set_readReady].
  rewrite u64_small by lia.
  destruct (at_offset n Hwf (a + 1)) as (e & Hat & He & _); [lia..|].
  apply wp_lift with e; [done|].
  assert (Hstep : entriesBetween n a (a + N.of_nat (S count)) =
                  e :: entriesBetween n (a + 1) (a + 1 + N.of_nat count)).
  { replace a with (a + 1 - 1) at 1 by lia.
    replace (a + N.of_nat (S count)) with (a + 1 + N.of_nat count) by lia.
    apply entriesBetween_cons; [done..|lia]. }
  assert (Hs : a + N.of_nat (S count) = a + 1 + N.of_nat count) by lia.
  rewrite Hs in *. clear Hs.
  wp_step; reflect_bools.
  - repeat wp_step. eapply wp_mono; [apply (IH (a + 1) true); lia|].
    intros acts s' (r' & -> & Happ & Hacts & Hr'). wp_auto. exists r'. split_and!; [done|..].
    + rewrite Hstep. cbn. by f_equal.
    + intros through. by repeat constructor.
    + intros _. right. split; [done|]. exists e. cbn. split; [set_solver|done].
  - repeat wp_step. eapply wp_mono; [apply (IH (a + 1) r); lia|].
    intros acts s' (r' & -> & Happ & Hacts & Hr'). wp_auto. exists r'. split_and!; [done|..].
    + rewrite Hstep. cbn. by f_equal.
    + intros through. by repeat constructor.
    + intros Htrue. destruct (Hr' Htrue) as [?|(? & e' & ? & ?)]; [auto|]. right.
      split; [done|]. exists e'. cbn. split; [set_solver|done].
Qed.

Lemma applyThrough_spec n through :
  wf n -> through <= lastLogIndex n ->
  wp (applyThrough through)
    (fun acts n' => apply_frame through n n' /\
       applied acts = entriesBetween n (lastApplied n) through /\
       Forall (apply_effect n (N.max (lastApplied n) through)) acts) n.
Proof.
  intros Hwf Hle. pose proof (wf_base n Hwf). unfold applyThrough. wp_step. wp_step.
  wp_step; reflect_bools.
  - eapply wp_mono; [apply completeReads_spec|]. intros acts n' ((p & ->) & Hp & Hacts).
    split_and!.
    + exists (readReady n), p. rewrite N.max_l by done. split_and!; [by destruct n|done|auto].
    + rewrite (applied_read_confirmations _ _ _ Hacts). unfold entriesBetween.
      by replace (through - lastApplied n) with 0 by lia.
    + eapply Forall_impl; [exact Hacts|]. rewrite N.max_l by done. by intros [].
  - wp_step.
    pose proof (applyLoop_spec n (N.to_nat (through - lastApplied n)) (lastApplied n)
                  (readReady n) Hwf) as Hloop.
    replace (n <| lastApplied := lastApplied n |> <| readReady := readReady n |>) with n in Hloop
      by (by destruct n).
    eapply wp_mono; [apply Hloop; lia|].
    rewrite N2Nat.id. replace (lastApplied n + (through - lastApplied n)) with through by lia.
    intros acts s' (r & -> & Happ & Hacts & Hr). wp_step.
    eapply wp_mono; [apply completeReads_spec|]. cbn.
    intros reads n' ((p & ->) & Hp & Hreads). wp_auto.
    rewrite N.max_r by lia. split_and!.
    + exists r, p. rewrite N.max_r by lia. split_and!; [done|done|]. by rewrite <- Happ.
    + rewrite applied_app, (applied_read_confirmations _ _ _ Hreads), app_nil_r. done.
    + apply Forall_app_2; [done|]. eapply Forall_impl; [exact Hreads|]. by intros [].
Qed.

(** ** Preservation of well-formedness, handler by handler *)

(** Closes [wf n'] when the handler left the log and the commit indices alone. *)
Ltac wf_frame :=
  match goal with
  | H : wf ?n |- wf _ => destruct H; split; cbn in *; first [done | lia]
  end.

Lemma apply_frame_wf through n n' :
  apply_frame through n n' -> through <= durableCommitIndex n -> wf n -> wf n'.
Proof. intros (r & p & -> & _ & _) Hle []. split; cbn; try done; lia. Qed.

Lemma appendEntries_spec n entries :
  wf n -> entries <> [] -> numbered Index (lastLogIndex n + 1) entries ->
  lastLogIndex n + len entries + 1 < two64 ->
  wp (appendEntries entries)
    (fun _ n' => wf n' /\ exists i t, lastLogIndex n' = lastLogIndex n + len entries /\
       n' = n <| log := log n ++ entries |> <| lastLogIndex := i |> <| lastLogTerm := t |>) n.
Proof.
  intros Hwf Hne Hnum Hb. unfold appendEntries. wp_step. wp_step. wp_step.
  assert (exists e, list.last entries = Some e) as [e He].
  { destruct (list.last entries) eqn:E; [eauto|]. by apply last_None in E. }
  assert (Hl : last_entry (log n ++ entries) = Some e).
  { unfold last_entry. rewrite last_app, He. done. }
  pose proof (numbered_last _ _ _ _ Hnum He) as Hi. pose proof (wf_last n Hwf).
  apply wp_lift with e; [done|]. wp_step. split.
  - destruct Hwf. split; cbn; rewrite ?len_app, ?Hl; try done; try lia.
    apply numbered_app. split; [done|].
    by replace (logBaseIndex n + 1 + len (log n)) with (lastLogIndex n + 1) by lia.
  - eexists _, _. split; [|done]. cbn. lia.
Qed.

Lemma truncateLog_spec n first :
  wf n -> commitIndex n < first -> first <= lastLogIndex n ->
  wp (truncateLog first)
    (fun _ n' => wf n' /\ lastLogIndex n' = first - 1 /\ exists t,
       n' = n <| log := take (N.to_nat (first - logBaseIndex n - 1)) (log n) |>
              <| lastLogIndex := first - 1 |> <| lastLogTerm := t |>
              <| durableLogIndex := N.min (durableLogIndex n) (first - 1) |>) n.
Proof.
  intros Hwf Hc Hf. pose proof (wf_bound n Hwf). pose proof (wf_last n Hwf).
  pose proof (wf_base n Hwf). pose proof (wf_applied n Hwf). pose proof (wf_durableCommit n Hwf).
  unfold truncateLog. wp_step. wp_step. wp_step. rewrite logOffset_eq by (done || lia).
  eapply wp_lift; [apply slice_to_some; lia|]. rewrite u64_sub_small by lia.
  do 5 wp_step.
  set (k := N.to_nat (first - logBaseIndex n - 1)).
  set (n1 := n <| log := take k (log n) |> <| lastLogIndex := first - 1 |>).
  set (lt := match last_entry (take k (log n)) with Some e => Term e | None => logBaseTerm n end).
  assert (Hwf1 : wf (n1 <| lastLogTerm := lt |>)).
  { destruct Hwf. split; cbn; try done; try lia.
    - by apply numbered_take.
    - subst k. rewrite len_take. lia. }
  apply wp_lift with lt; [apply (termAt_last _ Hwf1)|].
  wp_step. split_and!; [destruct Hwf1; split; done|done|]. by exists lt.
Qed.

Lemma leaderAppend_spec n entry first :
  wf n -> Index entry = lastLogIndex n + 1 -> lastLogIndex n + 2 < two64 ->
  wp (leaderAppend entry first) (fun _ n' => wf n') n.
Proof.
  intros Hwf Hi Hb. unfold leaderAppend. wp_step.
  eapply wp_mono; [apply appendEntries_spec; [done|done|done|rewrite len_cons, len_nil; lia]|].
  intros _ n' [Hwf' _]. unfold persistLog. wp_auto. wf_frame.
Qed.

Lemma advanceFollowerCommit_wf n leaderCommit after :
  wf n -> wp (advanceFollowerCommit leaderCommit after) (fun _ n' => wf n') n.
Proof.
  intros Hwf. unfold advanceFollowerCommit, persistCommit. wp_step. wp_step.
  wp_step; reflect_bools; wp_auto.
  - destruct Hwf. split; cbn; try done; try lia.
    apply map_Forall_insert_2; [done|]. eapply map_Forall_impl; [done|]. cbn. lia.
  - eapply wp_mono; [apply applyThrough_spec; [done|]; destruct Hwf; lia|].
    intros acts n' (Hf & _). wp_auto. by eapply apply_frame_wf.
Qed.

Lemma leaderCommitIndex_spec n k :
  wf n -> commitIndex n + N.of_nat k <= lastLogIndex n ->
  exists r, leaderCommitIndex n k = Some r /\
    match r with
    | Some i => commitIndex n < i <= commitIndex n + N.of_nat k /\
        termAt n i = Some (term n) /\ quorum n <= replicatedCount n i /\
        forall j, i < j <= commitIndex n + N.of_nat k ->
          termAt n j <> Some (term n) \/ replicatedCount n j < quorum n
    | None => forall j, commitIndex n < j <= commitIndex n + N.of_nat k ->
          termAt n j <> Some (term n) \/ replicatedCount n j < quorum n
    end.
Proof.
  intros Hwf. induction k as [|k IH]; intros Hk; cbn [leaderCommitIndex].
  { exists None. split; [done|]. lia. }
  destruct IH as (r & Hr & IH); [lia|].
  destruct (termAt_total n Hwf (commitIndex n + N.of_nat (S k))) as [t Ht]. rewrite Ht.
  assert (Hskip : (t <> term n \/ replicatedCount n (commitIndex n + N.of_nat (S k)) < quorum n) ->
    forall j, j = commitIndex n + N.of_nat (S k) ->
      termAt n j <> Some (term n) \/ replicatedCount n j < quorum n).
  { intros Hc j ->. rewrite Ht. destruct Hc; [left; congruence|by right]. }
  assert (Hext : (t <> term n \/ replicatedCount n (commitIndex n + N.of_nat (S k)) < quorum n) ->
    exists r, leaderCommitIndex n k = Some r /\
    match r with
    | Some i => commitIndex n < i <= commitIndex n + N.of_nat (S k) /\
        termAt n i = Some (term n) /\ quorum n <= replicatedCount n i /\
        forall j, i < j <= commitIndex n + N.of_nat (S k) ->
          termAt n j <> Some (term n) \/ replicatedCount n j < quorum n
    | None => forall j, commitIndex n < j <= commitIndex n + N.of_nat (S k) ->
          termAt n j <> Some (term n) \/ replicatedCount n j < quorum n
    end).
  { intros Hc. exists r. split; [done|]. destruct r as [i|].
    - destruct IH as (? & ? & ? & Hmax). split_and!; [lia|lia|done|done|]. intros j Hj.
      destruct (N.eq_dec j (commitIndex n + N.of_nat (S k))); [eauto|]. apply Hmax. lia.
    - intros j Hj. destruct (N.eq_dec j (commitIndex n + N.of_nat (S k))); [eauto|].
      apply IH. lia. }
  destruct (N.eqb_spec t (term n)) as [->|Hne]; cbn [negb]; [|auto].
  destruct (N.leb_spec (quorum n) (replicatedCount n (commitIndex n + N.of_nat (S k)))); [|auto].
  eexists. split; [done|]. split_and!; [lia|lia|done|done|lia].
Qed.

Lemma advanceLeaderCommit_spec n :
  wf n ->
  wp advanceLeaderCommit
    (fun advanced n' =>
       if advanced then exists i, n' = n <| commitIndex := i |> /\ wf n' /\
         commitIndex n < i <= lastLogIndex n /\ termAt n i = Some (term n) /\
         quorum n <= replicatedCount n i
       else n' = n) n.
Proof.
  intros Hwf. unfold advanceLeaderCommit. wp_step. wp_step. wp_step.
  pose proof (wf_commit n Hwf).
  destruct (leaderCommitIndex_spec n (N.to_nat (lastLogIndex n - commitIndex n)) Hwf)
    as (r & Hr & Hspec); [lia|].
  apply wp_lift with r; [done|]. destruct r as [i|]; wp_auto; [|done].
  destruct Hspec as (? & ? & ? & _). exists i. split_and!; [done| |lia..|done|done].
  destruct Hwf. split; cbn; try done; try lia.
  eapply map_Forall_impl; [done|]. cbn. lia.
Qed.

Lemma sends_wf n readID : wf n -> wp (sendAppendEntries readID) (fun _ n' => wf n') n.
Proof.
  intros Hwf. eapply wp_mono; [by apply sendAppendEntries_spec|].
  intros acts n' [Hf _]. by eapply sends_frame_wf.
Qed.

Lemma sendTo_wf n peer readID : wf n -> wp (sendAppendEntriesTo peer readID) (fun _ n' => wf n') n.
Proof.
  intros Hwf. eapply wp_mono; [by apply sendAppendEntriesTo_spec|].
  intros acts n' [Hf _]. by eapply sends_frame_wf.
Qed.

Lemma reads_frame_wf n n' : reads_frame n n' -> wf n -> wf n'.
Proof. intros (p & ->) []. by split. Qed.

Lemma becomeFollower_wf n t leader : wf n -> wp (becomeFollower t leader) (fun _ n' => wf n') n.
Proof. intros Hwf. unfold becomeFollower. wp_step. destruct (_ <? _); wf_frame. Qed.

Lemma persistHardState_wf n after : wf n -> wp (persistHardState after) (fun _ n' => wf n') n.
Proof. intros Hwf. unfold persistHardState. wp_auto. wf_frame. Qed.

Lemma finish_wf n b after : wf n -> wp (finish b after) (fun _ n' => wf n') n.
Proof. intros Hwf. unfold finish. wp_auto; [by apply persistHardState_wf|done]. Qed.

Lemma startElection_wf n : wf n -> wp startElection (fun _ n' => wf n') n.
Proof. intros Hwf. unfold startElection. wp_auto. apply persistHardState_wf. wf_frame. Qed.

Lemma acceptLeader_wf n t from :
  wf n ->
  wp (acceptLeader t from)
    (fun _ n' => wf n' /\ logBaseIndex n' = logBaseIndex n /\ commitIndex n' = commitIndex n /\
       lastLogIndex n' = lastLogIndex n /\ (forall i, termAt n' i = termAt n i)) n.
Proof.
  intros Hwf. unfold acceptLeader, becomeFollower. wp_auto.
  all: repeat match goal with |- context [if ?b then _ else _] => destruct b end.
  all: split; [wf_frame|done].
Qed.

Lemma applyThrough_wf n through :
  wf n -> through <= durableCommitIndex n -> wp (applyThrough through) (fun _ n' => wf n') n.
Proof.
  intros Hwf Hle. eapply wp_mono; [apply applyThrough_spec; [done|]; destruct Hwf; lia|].
  intros acts n' [Hf _]. by eapply apply_frame_wf.
Qed.

Lemma coveredPrefix_numbered l first index :
  numbered Index (first + 1) l -> coveredPrefix l index = N.min (len l) (index - first).
Proof.
  revert first. induction l as [|e l IH]; intros first Hn; cbn [coveredPrefix]; [unfold len; cbn; lia|].
  destruct Hn as [He Hn]. rewrite He, len_cons.
  destruct (N.leb_spec (first + 1) index).
  - rewrite (IH (first + 1)) by done. lia.
  - lia.
Qed.

Lemma installSnapshotLog_wf n index t :
  wf n -> logBaseIndex n < index -> index + 1 < two64 ->
  (commitIndex n <= index \/ (index <= lastLogIndex n /\ termAt n index = Some t)) ->
  wp (installSnapshotLog index t) (fun _ n' => wf n') n.
Proof.
  intros Hwf Hi Hb Hok. pose proof (wf_last n Hwf) as Hlast. pose proof (wf_bound n Hwf).
  destruct (termAt_total n Hwf index) as [t' Ht'].
  unfold installSnapshotLog. wp_step. wp_step. wp_step.
  apply wp_mono with (P := fun retained n' =>
    n' = n /\ retained = (index <=? lastLogIndex n) && (t' =? t)).
  { wp_step; [|wp_auto; auto]. wp_step. apply wp_lift with t'; [done|]. wp_auto. auto. }
  intros retained ? [-> ->]. destruct (_ && _) eqn:E; reflect_bools.
  - subst t'. rewrite (coveredPrefix_numbered _ (logBaseIndex n)) by apply Hwf.
    rewrite N.min_r by lia. wp_step. wp_step. eapply wp_lift; [apply slice_from_some; lia|].
    set (l := drop _ _).
    assert (Hl : numbered Index (index + 1) l).
    { unfold l. replace (index + 1) with
        (logBaseIndex n + 1 + N.of_nat (N.to_nat (index - logBaseIndex n))) by lia.
      apply numbered_drop; [apply Hwf|]. unfold len in Hlast. lia. }
    assert (Hlen : len l = lastLogIndex n - index) by (unfold l; rewrite len_drop; lia).
    wp_update n1 Hn1. wp_update n2 Hn2. wp_step.
    assert (Hlog : log n2 = l) by (by subst). rewrite Hlog.
    destruct (last_entry l) as [e|] eqn:El.
    + pose proof (numbered_last _ _ _ _ Hl El).
      subst. destruct Hwf. split; cbn; rewrite ?El; try done; try lia.
      eapply map_Forall_impl; [done|]. cbn. lia.
    + apply last_None in El. rewrite El, len_nil in Hlen.
      assert (index = lastLogIndex n) as -> by lia.
      rewrite (termAt_last n Hwf) in Ht'.
      subst. destruct Hwf. split; cbn; rewrite ?El, ?len_nil; try done; try lia.
      * change (lastLogTerm n = t). congruence.
      * eapply map_Forall_impl; [done|]. cbn. lia.
  - assert (Hc : commitIndex n <= index).
    { destruct Hok as [?|[? ?]]; [done|]. exfalso.
      assert (t' = t) by congruence. subst. rewrite N.eqb_refl in E. lia. }
    wp_step. wp_update n1 Hn1. wp_update n2 Hn2. wp_step.
    assert (Hlog : last_entry (log n2) = None) by (by subst). rewrite Hlog.
    subst. destruct Hwf. split; cbn; rewrite ?len_nil; try done; try lia.
    eapply map_Forall_impl; [done|]. cbn. lia.
Qed.

Lemma handleAppendEntries_wf n r :
  wf n -> event_ok n (EvAppendEntries r) -> wp (handleAppendEntries r) (fun _ n' => wf n') n.
Proof.
  intros Hwf [Hnum Hb]. unfold handleAppendEntries. wp_step. wp_step.
  wp_step; [by wp_auto|]. wp_step.
  eapply wp_mono; [by apply acceptLeader_wf|]. intros termChanged n1 [Hwf1 _].
  clear n Hwf E. rename n1 into n, Hwf1 into Hwf.
  wp_step. wp_step. wp_step.
  destruct (matches_total n Hwf (ae_PrevLogIndex r) (ae_PrevLogTerm r)) as [b Hm].
  apply wp_lift with b; [done|]. destruct b; cbn [negb].
  2:{ wp_step. destruct (conflictHint_total n Hwf (ae_PrevLogIndex r)) as (ct & ci & ?).
      apply wp_lift with (ct, ci); [done|]. by apply finish_wf. }
  wp_step. destruct (entriesToAppendFrom_spec n Hwf (ae_PrevLogIndex r) 0 (ae_Entries r))
    as (new & tr & ok & Heq & Hspec); [by rewrite N.add_0_r|lia|].
  apply wp_lift with (new, tr, ok); [done|]. destruct ok; cbn [negb].
  2:{ wp_step. destruct (conflictHint_total n Hwf (ae_PrevLogIndex r +! 1)) as (ct & ci & ?).
      apply wp_lift with (ct, ci); [done|]. by apply finish_wf. }
  wp_step; reflect_bools.
  2:{ wp_step; [by apply finish_wf|]. wp_step.
      eapply wp_mono; [by apply advanceFollowerCommit_wf|]. intros. by apply finish_wf. }
  destruct new as [|e new]; [done|]. destruct Hspec as (pre & Heq' & _ & Hcase).
  rewrite Heq' in Hnum, Hb. apply numbered_app in Hnum as [_ Hnum]. rewrite len_app in Hb.
  assert (Hrest : forall n1, wf n1 -> lastLogIndex n1 + 1 = Index e ->
    wp (do! appendEntries (e :: new) in
        let! n := get in
        let! persist := persistLog (e :: new)
          {| pl_purpose := persistFollowerAppend; pl_term := ae_Term r;
             pl_leader := ae_From r; pl_requestID := ae_RequestID r;
             pl_truncateFrom := tr; pl_lastIndex := lastLogIndex n;
             pl_leaderCommit := ae_LeaderCommit r; pl_readID := ae_ReadID r |} in
        finish termChanged ([ResetElectionTimer] ++ persist)) (fun _ n' => wf n') n1).
  { intros n1 Hwf1 Hlast. wp_step. destruct Hnum as [He Hnum].
    eapply wp_mono; [apply appendEntries_spec; [done|done|split; [done|]|]|].
    - by rewrite Hlast, He.
    - lia.
    - intros _ n2 [Hwf2 _]. unfold persistLog. wp_step. wp_step. wp_step.
      repeat wp_step. apply finish_wf. wf_frame. }
  wp_step. destruct Hcase as [[-> Hi]|(-> & Hc & _)]; cbn [negb].
  - rewrite N.eqb_refl. apply wp_ret. by apply Hrest.
  - rewrite (proj2 (N.eqb_neq _ _)) by lia. cbn [negb].
    eapply wp_mono; [apply truncateLog_spec; [done|lia..]|].
    intros _ n1 (Hwf1 & Hl1 & _). apply Hrest; [done|]. lia.
Qed.

Definition confirms (a : Action) : Prop := match a with ReadConfirmed _ _ => True | _ => False end.

Lemma acknowledgeRead_frame n r :
  wp (acknowledgeRead r) (fun acts n' => reads_frame n n' /\ Forall confirms acts) n.
Proof.
  unfold acknowledgeRead. wp_auto; try (split; [solve_frame|constructor]).
  eapply wp_mono; [apply completeReads_spec|]. intros acts n' ((q & ->) & _ & Ha). split; [solve_frame|].
  eapply Forall_impl; [exact Ha|]. by intros [].
Qed.

Lemma recordProgress_frame n r :
  wf n -> wp (recordProgress r) (fun _ n' => exists m x,
    n' = n <| matchIndex := m |> <| nextIndex := x |> /\
    (m = matchIndex n \/ (ar_Success r = true /\ m = <[ar_From r := ar_MatchIndex r]> (matchIndex n)))) n.
Proof.
  intros Hwf. unfold recordProgress. wp_step.
  - wp_step. wp_step. destruct (_ <? _); wp_auto.
    + eexists _, _. split; [done|by right].
    + exists (matchIndex n). eexists. split; [by destruct n|by left].
  - wp_step. wp_step. wp_step. destruct (nextIndexFromConflict_total n Hwf r) as (i & Hi & _).
    apply wp_lift with i; [done|]. wp_auto. exists (matchIndex n). eexists. split; [by destruct n|by left].
Qed.

Lemma handleAppendEntriesResponse_wf n r :
  wf n -> wp (handleAppendEntriesResponse r) (fun _ n' => wf n') n.
Proof.
  intros Hwf. unfold handleAppendEntriesResponse. wp_step. wp_step. wp_step.
  { wp_step. eapply wp_mono; [by apply becomeFollower_wf|]. intros. by apply persistHardState_wf. }
  wp_step; [by wp_auto|]. wp_step; [by wp_auto|]. wp_update n1 Hn1.
  assert (Hwf1 : wf n1) by (subst n1; wf_frame). wp_step.
  eapply wp_mono; [by apply recordProgress_frame|]. intros _ n2 (m & x & E2 & _).
  assert (Hwf2 : wf n2) by (subst n2; wf_frame). wp_step.
  eapply wp_mono; [by apply advanceLeaderCommit_spec|]. intros advanced n3 Hadv.
  assert (Hwf3 : wf n3) by (destruct advanced; [by destruct Hadv as (? & _ & ? & _)|by subst]). wp_step.
  apply wp_mono with (P := fun _ n4 => wf n4).
  - destruct advanced.
    + wp_step. eapply wp_mono; [by apply sends_wf|]. intros acts n4 Hwf4.
      unfold persistCommit. wp_auto. destruct Hwf4. split; cbn; try done; try lia.
      apply map_Forall_insert_2; [done|]. done.
    + wp_step. wp_step. wp_step; [by apply sendTo_wf|by wp_auto].
  - intros acts n4 Hwf4. wp_step. eapply wp_mono; [apply acknowledgeRead_frame|].
    intros reads n5 [Hf _]. wp_auto. by apply (reads_frame_wf n4 n5 Hf).
Qed.

Lemma handleInstallSnapshot_wf n r :
  wf n -> event_ok n (EvInstallSnapshot r) -> wp (handleInstallSnapshot r) (fun _ n' => wf n') n.
Proof.
  intros Hwf Hok. unfold handleInstallSnapshot. wp_step. wp_step.
  wp_step; [by wp_auto|]. wp_step. cbn in Hok.
  eapply wp_mono; [by apply acceptLeader_wf|].
  intros termChanged n1 (Hwf1 & Hbase & Hcommit & Hlast & Hterm).
  wp_step. wp_step. wp_step. apply wp_mono with (P := fun _ n2 => wf n2).
  - wp_step; [|by wp_auto]. reflect_bools. destruct Hok as [Hb Hok]; [done|by rewrite <- Hbase|].
    apply installSnapshotLog_wf; [done..|]. by rewrite Hcommit, Hlast, Hterm.
  - intros _ n2 Hwf2. wp_step. wp_step. by apply finish_wf.
Qed.

Lemma handleVoteResponse_wf n r :
  wf n -> lastLogIndex n + 2 < two64 -> wp (handleVoteResponse r) (fun _ n' => wf n') n.
Proof.
  intros Hwf Hb. unfold handleVoteResponse. wp_step. wp_step. wp_step.
  { wp_step. eapply wp_mono; [by apply becomeFollower_wf|]. intros. by apply persistHardState_wf. }
  wp_step; [by wp_auto|]. wp_update n1 Hn1. assert (wf n1) by (subst n1; wf_frame).
  wp_step. wp_step. wp_step; [by wp_auto|]. wp_update n2 Hn2.
  assert (Hwf2 : wf n2) by (subst n2; wf_frame).
  assert (Hlast : lastLogIndex n2 = lastLogIndex n) by (by subst).
  wp_step. wp_step. wp_step.
  eapply wp_mono; [apply appendEntries_spec; [done|done| |]|].
  - cbn. rewrite u64_small; lia.
  - rewrite len_cons, len_nil. lia.
  - intros _ n3 [Hwf3 _]. unfold persistLog. wp_auto. wf_frame.
Qed.

Lemma handleVoteRequest_wf n r : wf n -> wp (handleVoteRequest r) (fun _ n' => wf n') n.
Proof.
  intros Hwf. unfold handleVoteRequest. wp_step. wp_step. wp_step; [by wp_auto|]. wp_step.
  apply wp_mono with (P := fun _ n1 => wf n1); [wp_step; [by apply becomeFollower_wf|by wp_auto]|].
  intros _ n1 Hwf1. wp_step. wp_step. wp_step.
  apply wp_mono with (P := fun _ n2 => wf n2); [wp_auto; [wf_frame|done]|].
  intros _ n2 Hwf2. wp_step. wp_step. wp_step; [by apply persistHardState_wf|by wp_auto].
Qed.

Lemma propose_wf n entry acts :
  wf n -> lastLogIndex n + 2 < two64 -> Index entry = lastLogIndex n +! 1 ->
  wp (leaderAppend entry acts) (fun _ n' => wf n') n.
Proof. intros. apply leaderAppend_spec; [done| |done]. rewrite u64_small in *; lia. Qed.

Lemma compactLog_wf n index t : wf n -> wp (compactLog index t) (fun _ n' => wf n') n.
Proof.
  intros Hwf. unfold compactLog. wp_step. wp_step. wp_step; [by wp_auto|]. reflect_bools.
  wp_step. destruct (termAt_total n Hwf index) as [t' Ht]. apply wp_lift with t'; [done|].
  wp_step; [by wp_auto|]. reflect_bools. subst t'. wp_step.
  pose proof (wf_last n Hwf) as Hlast. pose proof (wf_bound n Hwf).
  assert (index <= lastLogIndex n) by (destruct Hwf; lia).
  rewrite u64_sub_small by lia. eapply wp_lift; [apply slice_from_some; lia|]. wp_step.
  set (l := drop _ _).
  assert (Hl : numbered Index (index + 1) l).
  { unfold l. replace (index + 1) with
      (logBaseIndex n + 1 + N.of_nat (N.to_nat (index - logBaseIndex n))) by lia.
    apply numbered_drop; [apply Hwf|]. unfold len in Hlast. lia. }
  assert (Hlen : len l = lastLogIndex n - index) by (unfold l; rewrite len_drop; lia).
  assert (Hterm : lastLogTerm n = match last_entry l with Some e => Term e | None => t end).
  { rewrite (wf_lastTerm n Hwf). unfold last_entry.
    rewrite <- (take_drop (N.to_nat (index - logBaseIndex n)) (log n)) at 1. fold l.
    rewrite last_app. destruct (list.last l) eqn:El; [done|]. apply last_None in El.
    rewrite El, len_nil in Hlen. assert (index = lastLogIndex n) as -> by lia.
    rewrite (termAt_last n Hwf), (wf_lastTerm n Hwf) in Ht. unfold last_entry in Ht.
    rewrite <- (take_drop (N.to_nat (lastLogIndex n - logBaseIndex n)) (log n)) in Ht at 1.
    fold l in Ht. rewrite last_app, El in Ht. cbn in Ht. congruence. }
  destruct Hwf. split; cbn; try done; lia.
Qed.

Lemma step_wf n e : wf n -> event_ok n e -> wp (Step e) (fun _ n' => wf n') n.
Proof.
  intros Hwf Hok. destruct e; cbn [Step].
  - unfold startPreVote. wp_step. wp_step. wp_step; [by wp_auto|]. wp_update n1 Hn1.
    assert (wf n1) by (subst n1; wf_frame). wp_step. wp_step. wp_step; [|by wp_auto].
    wp_step. eapply wp_mono; [by apply startElection_wf|]. by intros; wp_auto.
  - unfold heartbeatRound. wp_step. wp_step. wp_step; [by wp_auto|]. wp_update n1 Hn1.
    wp_step. eapply wp_mono; [apply sends_wf; subst n1; wf_frame|]. by intros; wp_auto.
  - unfold checkQuorum. wp_step. wp_step. wp_step; [by wp_auto|]. wp_step; [|wp_auto; wf_frame].
    wp_step. eapply wp_mono; [by apply becomeFollower_wf|]. by intros; wp_auto.
  - unfold hardStatePersisted. wp_auto; first [done | wf_frame].
  - unfold logEntriesPersisted. wp_step. wp_step. wp_step; [|by wp_auto]. wp_update n1 Hn1.
    assert (wf n1) by (subst n1; wf_frame). wp_step. wp_step. wp_step.
    + wp_step; [by wp_auto|]. by apply sends_wf.
    + wp_step; [by wp_auto|]. by apply advanceFollowerCommit_wf.
  - unfold commitIndexPersisted. wp_step. wp_step. wp_step; [|by wp_auto].
    pose proof (map_Forall_lookup_1 _ _ _ _ (wf_pendingCommit n Hwf) E) as Hle. cbn in Hle.
    wp_update n1 Hn1. assert (Hwf1 : wf n1).
    { subst n1. destruct Hwf. split; cbn; try done; [destruct (_ <? _) eqn:Ed; reflect_bools; lia..|].
      by apply map_Forall_delete. }
    wp_step. eapply wp_mono; [apply applyThrough_wf; [done|]|by intros; wp_auto].
    subst n1. cbn. destruct (N.ltb_spec (durableCommitIndex n) (pc_commitIndex p)); lia.
  - wp_step. wp_step. by apply applyThrough_wf.
  - wp_step. eapply wp_mono; [by apply compactLog_wf|]. by intros; wp_auto.
  - unfold proposeSession. wp_step. wp_step. wp_step; [by wp_auto|]. wp_step; [by wp_auto|].
    by apply propose_wf.
  - unfold proposeSet. wp_step. wp_step. wp_step; [by wp_auto|]. by apply propose_wf.
  - unfold proposeDelete. wp_step. wp_step. wp_step; [by wp_auto|]. by apply propose_wf.
  - unfold confirmRead. wp_step. wp_step. wp_step; [by wp_auto|]. wp_step; [by wp_auto|].
    wp_update n1 Hn1. apply sends_wf. subst n1. wf_frame.
  - unfold handlePreVoteRequest. by wp_auto.
  - unfold handlePreVoteResponse. wp_step. wp_step. wp_step.
    { wp_step. eapply wp_mono; [by apply becomeFollower_wf|]. intros. by apply persistHardState_wf. }
    wp_step; [by wp_auto|]. wp_update n1 Hn1. assert (wf n1) by (subst n1; wf_frame).
    wp_step. wp_step. wp_step; [by wp_auto|]. by apply startElection_wf.
  - by apply handleVoteRequest_wf.
  - by apply handleVoteResponse_wf.
  - by apply handleAppendEntries_wf.
  - by apply handleAppendEntriesResponse_wf.
  - unfold handleAppendEntriesFailed. wp_step. wp_step. destruct (_ =? _); wp_step; wp_step;
      destruct (_ =? _); wp_step; wf_frame.
  - by apply handleInstallSnapshot_wf.
  - unfold handleInstallSnapshotResponse. wp_step. wp_step. wp_step.
    { wp_step. eapply wp_mono; [by apply becomeFollower_wf|]. intros. by apply persistHardState_wf. }
    wp_step; [by wp_auto|]. wp_step; [wp_auto; wf_frame|]. wp_step; [by wp_auto|].
    wp_update n1 Hn1. wp_step. wp_step. apply sendTo_wf. subst n1. wf_frame.
Qed.

Lemma new_node_wf ident ps r :
  recovered_ok (compatRecoveredLog r) -> wf (NewNodeFromRecoveredState ident ps r).
Proof.
  unfold NewNodeFromRecoveredState. generalize (compatRecoveredLog r) as r'. intros r' (Hn & Hsc & Hcl & Hb).
  destruct (last_entry (rs_Log r')) as [e|] eqn:El.
  - pose proof (numbered_last _ _ _ _ Hn El). split; cbn; rewrite ?El; try done; lia.
  - pose proof El as El'. apply last_None in El'. rewrite El', len_nil in *.
    split; cbn; rewrite ?El, ?El', ?len_nil; try done; lia.
Qed.
