(* ===== verification/RaftElection.v ===== *)
(** What one event may do to a Node's election state.

    [elect_step] is the abstract specification of the election half of the
    protocol: adopt a newer term, grant a vote, start a candidacy, collect a
    vote.  [Step] refines it.  The file also proves that a change of term or
    vote is always accompanied by a request to make it durable, and that no vote
    is granted before the vote is durable. *)

From S2P Require Import Prelude RaftTypes RaftCore.

(** ** The abstract specification *)

(** The term a message makes its receiver aware of. *)
Definition event_term (e : Event) : N :=
  match e with
  | EvPreVoteResponse r => pvr_CurrentTerm r
  | EvVoteRequest r => vq_Term r
  | EvVoteResponse r => vr_Term r
  | EvAppendEntries r => ae_Term r
  | EvAppendEntriesResponse r => ar_Term r
  | EvInstallSnapshot r => is_Term r
  | EvInstallSnapshotResponse r => ir_Term r
  | _ => 0
  end.

Inductive elect_step (n : Node) : Event -> Node -> Prop :=
| es_keep e n' :
    term n' = term n -> votedFor n' = votedFor n ->
    (role n' = Candidate \/ role n' = Leader -> role n' = role n /\ votes n' = votes n) ->
    elect_step n e n'
| es_newer e n' :
    term n < term n' -> term n' = event_term e -> role n' = Follower ->
    (votedFor n' = "" \/ exists r, e = EvVoteRequest r /\ votedFor n' = vq_From r) ->
    elect_step n e n'
| es_grant r n' :
    term n' = term n -> vq_Term r = term n -> votedFor n = "" -> votedFor n' = vq_From r ->
    role n' = role n -> votes n' = votes n ->
    elect_step n (EvVoteRequest r) n'
| es_start e n' :
    term n' = term n + 1 -> role n' = Candidate -> votedFor n' = node_id n ->
    votes n' = {[ node_id n ]} ->
    elect_step n e n'
| es_vote r n' :
    role n = Candidate -> vr_Term r = term n -> vr_Granted r = true ->
    term n' = term n -> votedFor n' = votedFor n ->
    votes n' = {[ vr_From r ]} ∪ votes n ->
    (role n' = Candidate \/
     (role n' = Leader /\ quorum n <= N.of_nat (size (votes n')))) ->
    elect_step n (EvVoteResponse r) n'.

(** ** Durability of the hard state *)

(** No hard-state request is outstanding and the cached durable pair is current. *)
Definition clean (n : Node) : Prop :=
  pendingHardState n = ∅ /\ durableTerm n = term n /\ durableVotedFor n = votedFor n.

(** An action that involves neither the hard state nor a vote. *)
Definition vote_free (a : Action) : Prop :=
  match a with PersistHardState _ _ _ | SendVoteResponse _ _ => False | _ => True end.

(** A granted vote names the Node's current term and its recorded vote. *)
Definition vote_ok (n : Node) (a : Action) : Prop :=
  match a with
  | PersistHardState _ _ _ => False
  | SendVoteResponse to r =>
      vr_From r = node_id n /\
      (vr_Granted r = true -> vr_Term r = term n /\ to = votedFor n)
  | _ => True
  end.

(** Deferred actions of pending commits never carry votes. *)
Definition commits_vote_free (n : Node) : Prop :=
  map_Forall (fun _ p => Forall vote_free (pc_after p)) (pendingCommit n).

(** Either the hard state is unchanged and nothing is outstanding, or exactly
    one request for the new hard state closes the action list. *)
Definition hard_shape (n : Node) (acts : list Action) (n' : Node) : Prop :=
  (clean n' /\ term n' = term n /\ votedFor n' = votedFor n /\ Forall (vote_ok n') acts) \/
  (exists pre persistID after,
     acts = pre ++ [PersistHardState persistID (term n') (votedFor n')] /\
     Forall vote_free pre /\ Forall (vote_ok n') after /\
     pendingHardState n' =
       {[ persistID := mkPendingHardState (term n') (votedFor n') after ]}).

(** Fields the election state is made of. *)
Definition eframe (n n' : Node) : Prop :=
  node_id n' = node_id n /\ peers n' = peers n /\ role n' = role n /\ term n' = term n /\
  votedFor n' = votedFor n /\ votes n' = votes n /\ durableTerm n' = durableTerm n /\
  durableVotedFor n' = durableVotedFor n /\ pendingHardState n' = pendingHardState n /\
  (commits_vote_free n -> commits_vote_free n').

(** Persistence completions are produced by the runtime, not by the environment. *)
Definition is_completion (e : Event) : bool :=
  match e with
  | HardStatePersisted _ | LogEntriesPersisted _ | CommitIndexPersisted _ => true
  | _ => false
  end.

(** ** Frames of the replication helpers *)

Lemma eframe_refl n : eframe n n.
Proof. unfold eframe. by split_and!. Qed.

Lemma eframe_trans n1 n2 n3 : eframe n1 n2 -> eframe n2 n3 -> eframe n1 n3.
Proof. unfold eframe. intros H1 H2. destruct_and!. split_and!; (congruence || auto). Qed.

#[export] Instance eframe_preorder : PreOrder eframe.
Proof. split; [exact eframe_refl|exact eframe_trans]. Qed.

(** A single update of fields outside the election state. *)
Ltac eframe_update := unfold eframe, commits_vote_free; subst; by split_and!.

(** Chains the frames collected in the context. *)
Ltac eframe_chain :=
  match goal with
  | |- eframe ?a ?a => reflexivity
  | H : eframe ?a ?b |- eframe ?a ?c => etransitivity; [exact H|clear H; eframe_chain]
  end.

Ltac solve_free := repeat first [assumption | apply Forall_app_2 | apply Forall_cons_2 | apply Forall_nil_2 | exact I].

Create HintDb neutral.
#[local] Hint Extern 1 (Forall vote_free _) => solve [repeat constructor] : neutral.

(** One step of a computation that leaves the election state alone: a helper is
    replaced by its frame, an update by the frame it satisfies. *)
Ltac neutral_step :=
  lazymatch goal with
  | |- wlp (modify _) _ ?s =>
      let s' := fresh "s" in let H := fresh "Hs" in
      apply wlp_modify; intros s' H;
      let F := fresh "F" in assert (F : eframe s s') by eframe_update; clear H
  | |- wlp (collect _ _) _ _ => idtac
  | _ => first
      [ wlp_step
      | eapply wlp_mono; [solve [auto with neutral nocore]|];
        let F := fresh "F" in intros ? ? F; cbn beta in F;
        lazymatch type of F with eframe _ _ => idtac | _ => destruct F as [F ?] end ]
  end.

Ltac neutral_auto :=
  try (progress neutral_step; neutral_auto);
  try (first [split; [eframe_chain|solve_free] | eframe_chain]).

Abbreviation neutral n m :=
  (wlp m (fun acts n' => eframe n n' /\ Forall vote_free acts) n).

Abbreviation neutral_unit n m := (wlp m (fun _ n' => eframe n n') n).

Lemma sendAppendEntriesTo_neutral n peer readID : neutral n (sendAppendEntriesTo peer readID).
Proof. unfold sendAppendEntriesTo. neutral_auto. Qed.
#[local] Hint Resolve sendAppendEntriesTo_neutral : neutral.

Lemma collect_neutral {A} n (body : A -> RM (list Action)) l :
  (forall x n, neutral n (body x)) -> neutral n (collect body l).
Proof.
  intros Hbody. apply wlp_collect; [reflexivity|]. intros x s HI.
  eapply wlp_mono; [apply Hbody|]. intros acts s' [F ?]. split; [eframe_chain|done].
Qed.

Lemma sendAppendEntries_neutral n readID : neutral n (sendAppendEntries readID).
Proof.
  unfold sendAppendEntries. do 2 wlp_step. apply collect_neutral. intros x s. neutral_auto.
Qed.
#[local] Hint Resolve sendAppendEntries_neutral : neutral.

Lemma completeReads_neutral n : neutral n completeReads.
Proof.
  unfold completeReads. do 2 wlp_step. apply collect_neutral. intros x s.
  unfold completeRead. neutral_auto.
Qed.
#[local] Hint Resolve completeReads_neutral : neutral.

Lemma applyLoop_neutral n count : neutral n (applyLoop count).
Proof.
  revert n. induction count as [|count IH]; intros n; cbn [applyLoop]; [neutral_auto|].
  unfold applyNext. neutral_auto.
Qed.
#[local] Hint Resolve applyLoop_neutral : neutral.

Lemma applyThrough_neutral n index : neutral n (applyThrough index).
Proof. unfold applyThrough. neutral_auto. Qed.
#[local] Hint Resolve applyThrough_neutral : neutral.

Lemma persistLog_neutral n entries pending : neutral n (persistLog entries pending).
Proof. unfold persistLog. neutral_auto. Qed.

Lemma persistCommit_neutral n after :
  Forall vote_free after -> neutral n (persistCommit after).
Proof.
  intros Hafter. unfold persistCommit. wlp_step. neutral_step. do 3 wlp_step. wlp_step.
  split; [|solve_free]. etransitivity; [exact F|].
  unfold eframe, commits_vote_free. subst. split_and!; try done.
  intros Hall. cbn. by apply map_Forall_insert_2.
Qed.

Lemma appendEntries_neutral n entries : neutral_unit n (appendEntries entries).
Proof. unfold appendEntries. neutral_auto. Qed.

Lemma truncateLog_neutral n first : neutral_unit n (truncateLog first).
Proof. unfold truncateLog. neutral_auto. Qed.

Lemma compactLog_neutral n index t : neutral_unit n (compactLog index t).
Proof. unfold compactLog. neutral_auto. Qed.

Lemma advanceLeaderCommit_neutral n : neutral_unit n advanceLeaderCommit.
Proof. unfold advanceLeaderCommit. neutral_auto. Qed.
#[local] Hint Resolve persistLog_neutral persistCommit_neutral appendEntries_neutral
  truncateLog_neutral compactLog_neutral advanceLeaderCommit_neutral : neutral.

Lemma advanceFollowerCommit_neutral n leaderCommit after :
  Forall vote_free after -> neutral n (advanceFollowerCommit leaderCommit after).
Proof. intros Hafter. unfold advanceFollowerCommit. neutral_auto. Qed.

Lemma leaderAppend_neutral n entry first :
  Forall vote_free first -> neutral n (leaderAppend entry first).
Proof. intros Hfirst. unfold leaderAppend. neutral_auto. Qed.

Lemma recordProgress_neutral n response : neutral_unit n (recordProgress response).
Proof.
  unfold recordProgress. wlp_step; [|neutral_auto]. wlp_step.
  apply wlp_modify; intros s Hs. assert (eframe n s) by (destruct (_ <? _); eframe_update).
  clear Hs. neutral_auto.
Qed.

Lemma acknowledgeRead_neutral n response : neutral n (acknowledgeRead response).
Proof. unfold acknowledgeRead. neutral_auto. Qed.

Lemma installSnapshotLog_neutral n index t : neutral_unit n (installSnapshotLog index t).
Proof.
  unfold installSnapshotLog. repeat wlp_step.
  all: subst; destruct (last_entry _); eframe_update.
Qed.
#[local] Hint Resolve advanceFollowerCommit_neutral leaderAppend_neutral recordProgress_neutral
  acknowledgeRead_neutral installSnapshotLog_neutral : neutral.

(** ** Role changes and the durable hard state *)

(** What every handler establishes. *)
Definition elect_post (n : Node) (e : Event) (acts : list Action) (n' : Node) : Prop :=
  elect_step n e n' /\ hard_shape n acts n' /\
  commits_vote_free n' /\ node_id n' = node_id n /\ peers n' = peers n.

Lemma neutral_vote_ok n acts : Forall vote_free acts -> Forall (vote_ok n) acts.
Proof. intros H. eapply Forall_impl; [exact H|]. by intros []. Qed.

Lemma neutral_post n e n' acts :
  clean n -> commits_vote_free n -> eframe n n' -> Forall vote_free acts ->
  elect_post n e acts n'.
Proof.
  intros (? & ? & ?) Hc F Hacts. unfold eframe in F. destruct_and!. split_and!; auto.
  - by apply es_keep.
  - left. unfold clean. split_and!; try congruence. by apply neutral_vote_ok.
Qed.

Lemma neutral_elect n e m :
  clean n -> commits_vote_free n -> neutral n m -> wlp m (elect_post n e) n.
Proof.
  intros ?? Hm. eapply wlp_mono; [exact Hm|]. intros acts n' [? ?]. by apply neutral_post.
Qed.

(** The closing request of a handler that changed the hard state. *)
Lemma persistHardState_post n e n1 after :
  pendingHardState n1 = ∅ -> Forall (vote_ok n1) after ->
  commits_vote_free n1 -> node_id n1 = node_id n -> peers n1 = peers n ->
  (forall n', term n' = term n1 -> votedFor n' = votedFor n1 -> role n' = role n1 ->
     votes n' = votes n1 -> elect_step n e n') ->
  wlp (persistHardState after) (elect_post n e) n1.
Proof.
  intros Hnone Hafter Hc Hid Hp He. unfold persistHardState. repeat wlp_step. subst.
  split_and!; try done; try by apply He.
  right. eexists [], _, after. cbn. split_and!; try done; try constructor.
  by rewrite Hnone, insert_empty.
Qed.

Lemma becomeFollower_newer n t leader after e :
  clean n -> commits_vote_free n -> term n < t -> t = event_term e -> Forall vote_free after ->
  wlp (do! becomeFollower t leader in persistHardState after) (elect_post n e) n.
Proof.
  intros (Hp & _ & _) Hc Hlt Het Hafter. unfold becomeFollower.
  apply N.ltb_lt in Hlt as Hlt'. wlp_step. wlp_step. rewrite Hlt' in Hs.
  apply persistHardState_post; try (by subst); [by apply neutral_vote_ok|].
  intros n' Ht Hv Hr _. subst. cbn in *. apply es_newer; [by rewrite Ht|congruence|done|by left].
Qed.

Lemma startElection_elect n e n1 :
  pendingHardState n1 = ∅ -> commits_vote_free n1 -> term n1 = term n ->
  node_id n1 = node_id n -> peers n1 = peers n -> term n + 1 < two64 ->
  wlp startElection (elect_post n e) n1.
Proof.
  intros Hp Hc Ht Hid Hpeers Hb. unfold startElection. do 4 wlp_step.
  apply persistHardState_post; try (by subst).
  - apply neutral_vote_ok, Forall_cons_2; [done|]. apply Forall_map, Forall_true. done.
  - intros n' Ht' Hv Hr Hvotes. subst. cbn in *. rewrite u64_small in Ht' by lia.
    apply es_start; congruence.
Qed.

(** Prefixing actions that carry no vote keeps the postcondition. *)
Lemma elect_post_app n e pre acts n' :
  Forall vote_free pre -> elect_post n e acts n' -> elect_post n e (pre ++ acts) n'.
Proof.
  intros Hpre (? & Hs & ? & ? & ?). split_and!; try done.
  destruct Hs as [(? & ? & ? & Hacts)|(pre' & id & after & -> & ? & ? & ?)].
  - left. split_and!; try done. apply Forall_app_2; [by apply neutral_vote_ok|done].
  - right. exists (pre ++ pre'), id, after. rewrite app_assoc. split_and!; try done.
    by apply Forall_app_2.
Qed.

(** Stepping down, or refreshing the pre-vote state, within the same term. *)
Lemma keep_post n e n' acts :
  clean n -> commits_vote_free n ->
  node_id n' = node_id n -> peers n' = peers n -> term n' = term n ->
  votedFor n' = votedFor n -> durableTerm n' = durableTerm n ->
  durableVotedFor n' = durableVotedFor n -> pendingHardState n' = pendingHardState n ->
  (commits_vote_free n -> commits_vote_free n') ->
  (role n' = Candidate \/ role n' = Leader -> role n' = role n /\ votes n' = votes n) ->
  Forall (vote_ok n') acts -> elect_post n e acts n'.
Proof.
  intros (? & ? & ?) Hc. intros. split_and!; auto.
  - by apply es_keep.
  - left. unfold clean. split_and!; congruence || done.
Qed.

Lemma startPreVote_elect n e :
  clean n -> commits_vote_free n -> term n + 1 < two64 ->
  wlp startPreVote (elect_post n e) n.
Proof.
  intros Hclean Hc Hb. unfold startPreVote. do 3 wlp_step.
  - wlp_step. by apply neutral_post.
  - do 4 wlp_step. cbv zeta.
    set (sends := ResetElectionTimer :: _).
    assert (Forall vote_free sends) by (apply Forall_cons_2; [done|]; apply Forall_map, Forall_true; done).
    wlp_step.
    + wlp_step. eapply wlp_mono; [apply (startElection_elect n e); subst; try done; apply Hclean|].
      intros acts n' Hpost. wlp_step. by apply elect_post_app.
    + wlp_step. apply keep_post; try (by subst); [|by apply neutral_vote_ok].
      subst. cbn. intros [|]; done.
Qed.

Lemma handlePreVoteResponse_elect n response :
  clean n -> commits_vote_free n -> term n + 1 < two64 ->
  wlp (handlePreVoteResponse response) (elect_post n (EvPreVoteResponse response)) n.
Proof.
  intros Hclean Hc Hb. unfold handlePreVoteResponse. do 3 wlp_step.
  { apply N.ltb_lt in E. by apply becomeFollower_newer. }
  wlp_step; [apply neutral_elect; [done..|neutral_auto]|].
  wlp_step. neutral_step. do 3 wlp_step; [wlp_step; apply neutral_post; done || constructor|].
  unfold eframe in F. destruct_and!.
  apply startElection_elect; try congruence; auto. destruct Hclean; congruence.
Qed.

Lemma handleVoteRequest_elect n request :
  clean n -> commits_vote_free n ->
  wlp (handleVoteRequest request) (elect_post n (EvVoteRequest request)) n.
Proof.
  intros Hclean Hc. pose proof Hclean as (Hp & Hdt & Hdv). unfold handleVoteRequest. do 3 wlp_step.
  { wlp_step. apply keep_post; try done. by apply Forall_singleton. }
  apply N.ltb_ge in E. wlp_step. destruct (term n <? vq_Term request) eqn:Hlt; cbn [orb].
  - unfold becomeFollower. wlp_step. rewrite Hlt in Hs. apply N.ltb_lt in Hlt. do 3 wlp_step.
    set (grant := _ && candidateLogIsUpToDate _ _ _). destruct grant; do 3 wlp_step.
    all: apply persistHardState_post; try (by subst).
    all: try (apply Forall_singleton; by subst).
    all: intros n' Ht Hv Hr _; subst; cbn in *; apply es_newer; [by rewrite Ht|done|done|].
    + right. by exists request.
    + by left.
  - apply N.ltb_ge in Hlt. assert (Ht : vq_Term request = term n) by lia. do 4 wlp_step.
    destruct (_ && candidateLogIsUpToDate _ _ _) eqn:Egrant; reflect_bools; do 3 wlp_step; cbn [andb].
    + wlp_step; unfold voteIsDurable in *; subst; cbn in E0; reflect_bools.
      * apply persistHardState_post; try done; [by apply Forall_singleton|].
        cbn. intros n' ????. rewrite Hdt, Hdv, N.eqb_refl in E0. cbn in E0. reflect_bools.
        apply es_grant; try done. apply orb_true_iff in H as [H|H]; by reflect_bools.
      * wlp_step. apply keep_post; try done; [cbn; congruence|by apply Forall_singleton].
    + wlp_step. apply keep_post; try done. by apply Forall_singleton.
Qed.

Lemma handleVoteResponse_elect n response :
  clean n -> commits_vote_free n ->
  wlp (handleVoteResponse response) (elect_post n (EvVoteResponse response)) n.
Proof.
  intros Hclean Hc. pose proof Hclean as (Hp & Hdt & Hdv). unfold handleVoteResponse. do 3 wlp_step.
  { apply N.ltb_lt in E. by apply becomeFollower_newer. }
  wlp_step; [apply neutral_elect; [done..|neutral_auto]|]. reflect_bools.
  do 4 wlp_step. wlp_step.
  - wlp_step. subst. split_and!; try done.
    + apply es_vote; try done. by left.
    + left. by split_and!.
  - do 4 wlp_step. wlp_step. eapply wlp_mono; [apply appendEntries_neutral|].
    intros [] s1 F1. wlp_step. neutral_step. do 3 wlp_step.
    eapply wlp_mono; [apply persistLog_neutral|]. intros acts n' [F2 Hacts]. wlp_step.
    assert (F' : eframe s0 n') by eframe_chain. unfold eframe in F'. destruct_and!.
    subst. cbn in *. split_and!; auto.
    + apply es_vote; try done. right. reflect_bools. split; [congruence|].
      unfold quorum in *. cbn in *. congruence.
    + left. unfold clean. split_and!; try congruence.
      apply neutral_vote_ok. solve_free.
Qed.

(** The state after adopting the sender of a replication request as Leader. *)
Definition accepted (n : Node) (t : N) (termChanged : bool) (n1 : Node) : Prop :=
  (if termChanged then term n < term n1 /\ term n1 = t /\ votedFor n1 = ""
   else term n1 = term n /\ votedFor n1 = votedFor n) /\
  role n1 = Follower /\ node_id n1 = node_id n /\ peers n1 = peers n /\
  durableTerm n1 = durableTerm n /\ durableVotedFor n1 = durableVotedFor n /\
  pendingHardState n1 = pendingHardState n /\ (commits_vote_free n -> commits_vote_free n1).

Lemma acceptLeader_accepted n t from :
  term n <= t -> wlp (acceptLeader t from) (accepted n t) n.
Proof.
  intros Hle. unfold acceptLeader, becomeFollower, accepted. do 3 wlp_step.
  destruct (term n <? t) eqn:E; repeat wlp_step; subst; rewrite ?E; reflect_bools.
  all: split_and!; done || lia.
Qed.

Lemma finish_elect n e tc n1 n2 after :
  clean n -> commits_vote_free n -> accepted n (event_term e) tc n1 -> eframe n1 n2 -> Forall vote_free after ->
  wlp (finish tc after) (elect_post n e) n2.
Proof.
  intros (Hp & Hdt & Hdv) Hc Hacc F Hafter. unfold accepted, eframe in *. destruct_and!.
  unfold finish. destruct tc; destruct_and!.
  - apply persistHardState_post; try congruence; auto; [by apply neutral_vote_ok|].
    intros n' ????. apply es_newer; [lia|congruence|congruence|left; congruence].
  - wlp_step. apply keep_post; try congruence; auto; try (by split_and!); try (by apply neutral_vote_ok).
    intros [?|?]; congruence.
Qed.

Lemma handleAppendEntries_elect n request :
  clean n -> commits_vote_free n ->
  wlp (handleAppendEntries request) (elect_post n (EvAppendEntries request)) n.
Proof.
  intros Hclean Hc. unfold handleAppendEntries. do 3 wlp_step.
  { apply neutral_elect; [done..|]. neutral_auto. }
  reflect_bools. wlp_step. eapply wlp_mono; [by apply acceptLeader_accepted|]. intros tc n1 Hacc.
  repeat first [progress neutral_step | eapply finish_elect; [done|done|exact Hacc|eframe_chain|solve_free]].
Qed.

Lemma handleInstallSnapshot_elect n request :
  clean n -> commits_vote_free n ->
  wlp (handleInstallSnapshot request) (elect_post n (EvInstallSnapshot request)) n.
Proof.
  intros Hclean Hc. unfold handleInstallSnapshot. do 3 wlp_step.
  { apply neutral_elect; [done..|]. neutral_auto. }
  reflect_bools. wlp_step. eapply wlp_mono; [by apply acceptLeader_accepted|]. intros tc n1 Hacc.
  repeat first [progress neutral_step | eapply finish_elect; [done|done|exact Hacc|eframe_chain|solve_free]].
Qed.

Lemma handleAppendEntriesResponse_elect n response :
  clean n -> commits_vote_free n ->
  wlp (handleAppendEntriesResponse response) (elect_post n (EvAppendEntriesResponse response)) n.
Proof.
  intros Hclean Hc. unfold handleAppendEntriesResponse. do 3 wlp_step.
  { apply N.ltb_lt in E. by apply becomeFollower_newer. }
  apply neutral_elect; [done..|]. neutral_auto.
Qed.

Lemma handleInstallSnapshotResponse_elect n response :
  clean n -> commits_vote_free n ->
  wlp (handleInstallSnapshotResponse response) (elect_post n (EvInstallSnapshotResponse response)) n.
Proof.
  intros Hclean Hc. unfold handleInstallSnapshotResponse. do 3 wlp_step.
  { apply N.ltb_lt in E. by apply becomeFollower_newer. }
  apply neutral_elect; [done..|]. neutral_auto.
Qed.

Lemma handlePreVoteRequest_neutral n request : neutral n (handlePreVoteRequest request).
Proof. unfold handlePreVoteRequest. neutral_auto. Qed.

Lemma handleAppendEntriesFailed_neutral n to requestID :
  neutral n (handleAppendEntriesFailed to requestID).
Proof.
  unfold handleAppendEntriesFailed. wlp_step. wlp_step. wlp_step. wlp_step. wlp_step.
  split; [|constructor]. transitivity s.
  - clear Hs0. subst s. destruct (_ =? _); eframe_update.
  - clear Hs. subst s0. destruct (_ =? _); eframe_update.
Qed.

(** [Step] refines the abstract election machine. *)
Lemma step_elect n e :
  clean n -> commits_vote_free n -> is_completion e = false -> term n + 1 < two64 ->
  wlp (Step e) (elect_post n e) n.
Proof.
  intros Hclean Hc He Hb. destruct e; try discriminate; cbn [Step].
  - by apply startPreVote_elect.
  - apply neutral_elect; [done..|]. unfold heartbeatRound. neutral_auto.
  - unfold checkQuorum, becomeFollower. do 3 wlp_step; [by apply neutral_elect; [done..|neutral_auto]|].
    wlp_step; [|apply neutral_elect; [done..|neutral_auto]].
    repeat wlp_step. subst. rewrite N.ltb_irrefl.
    apply keep_post; try done; [by intros [|]|by repeat constructor].
  - apply neutral_elect; [done..|]. neutral_auto.
  - apply neutral_elect; [done..|]. neutral_auto.
  - apply neutral_elect; [done..|]. unfold proposeSession. neutral_auto.
  - apply neutral_elect; [done..|]. unfold proposeSet. neutral_auto.
  - apply neutral_elect; [done..|]. unfold proposeDelete. neutral_auto.
  - apply neutral_elect; [done..|]. unfold confirmRead. neutral_auto.
  - apply neutral_elect; [done..|]. apply handlePreVoteRequest_neutral.
  - by apply handlePreVoteResponse_elect.
  - by apply handleVoteRequest_elect.
  - by apply handleVoteResponse_elect.
  - by apply handleAppendEntries_elect.
  - by apply handleAppendEntriesResponse_elect.
  - apply neutral_elect; [done..|]. apply handleAppendEntriesFailed_neutral.
  - by apply handleInstallSnapshot_elect.
  - by apply handleInstallSnapshotResponse_elect.
Qed.

(** ** Persistence completions *)

Lemma logEntriesPersisted_neutral n persistID : neutral n (logEntriesPersisted persistID).
Proof. unfold logEntriesPersisted. neutral_auto. Qed.

Lemma commitIndexPersisted_neutral n persistID :
  commits_vote_free n ->
  neutral n (commitIndexPersisted persistID).
Proof.
  intros Hc. unfold commitIndexPersisted. do 3 wlp_step; [|neutral_auto].
  assert (Hafter : Forall vote_free (pc_after p)) by (by eapply (Hc persistID)).
  wlp_step. wlp_step. assert (F : eframe n s).
  { unfold eframe, commits_vote_free. subst. split_and!; try done.
    intros Hall. cbn. by apply map_Forall_delete. }
  clear Hs. neutral_auto.
Qed.

(** Completing the one outstanding hard-state request makes the Node clean and
    releases the actions that waited for it. *)
Lemma hardStatePersisted_clean n persistID after :
  pendingHardState n = {[ persistID := mkPendingHardState (term n) (votedFor n) after ]} ->
  wlp (hardStatePersisted persistID)
    (fun acts n' => acts = after /\ clean n' /\ elect_step n (HardStatePersisted persistID) n' /\
       term n' = term n /\ votedFor n' = votedFor n /\ role n' = role n /\ votes n' = votes n /\
       node_id n' = node_id n /\ peers n' = peers n /\ pendingCommit n' = pendingCommit n) n.
Proof.
  intros Hp. unfold hardStatePersisted. wlp_step. wlp_step. rewrite Hp, lookup_singleton_eq.
  wlp_step. wlp_step. cbn [ph_term ph_votedFor ph_after]. rewrite N.eqb_refl.
  rewrite bool_decide_false by auto. cbn [negb orb]. wlp_step. subst. unfold clean. cbn.
  rewrite Hp, delete_singleton_eq. split_and!; try done. by apply es_keep.
Qed.
