(* ===== verification/RaftActions.v ===== *)
(** Which actions the core emits, and when: entries are applied only by the completion
    of a commit, verdicts are given only to proposals, timers follow the role.  The
    obligations concern the actions that wait for a persistence request: they are an
    invariant of every event, for any predicate [P] of actions that plain actions
    satisfy. *)

From S2P Require Import Prelude RaftTypes RaftCore RaftLog RaftInvariant RaftElection.

Definition isVerdict (a : Action) : bool :=
  match a with ProposalAccepted _ _ | ProposalRejected _ _ => true | _ => false end.

Definition isApply (a : Action) : bool := match a with ApplyEntry _ => true | _ => false end.

(** Neither an application nor a verdict. *)
Definition plain (a : Action) : bool := negb (isVerdict a) && negb (isApply a).

Definition isProposal (e : Event) : bool :=
  match e with
  | ProposeSession _ _ _ | ProposeSet _ _ _ _ _ | ProposeDelete _ _ _ _ => true
  | _ => false
  end.

(** Events that may apply entries or move the applied position. *)
Definition appliesEntries (e : Event) : bool :=
  match e with
  | CommitIndexPersisted _ => true
  | EvInstallSnapshot r => is_Installed r
  | _ => false
  end.

Section Waiting.
Context (P : Action -> Prop) (P_plain : forall a, plain a = true -> P a).

(** Either applications are allowed among waiting actions, or the Node has applied all
    it knows to be durably committed, and [la] is that position. *)
Definition fixed_at (la : N) (n : Node) : Prop :=
  (forall e, P (ApplyEntry e)) \/ (lastApplied n = la /\ durableCommitIndex n <= la).

Record guarded (la : N) (n : Node) : Prop := {
  gd_fixed : fixed_at la n;
  gd_hard : map_Forall (fun _ p => Forall P (ph_after p)) (pendingHardState n);
  gd_commit : map_Forall (fun _ p => Forall P (pc_after p)) (pendingCommit n) }.

Abbreviation yields la n m := (wlp m (fun acts n' => guarded la n' /\ Forall P acts) n).
Abbreviation guards la n m := (wlp m (fun _ n' => guarded la n') n).

Lemma plain_map {A} (f : A -> Action) l : (forall x, plain (f x) = true) -> Forall P (map f l).
Proof. intros Hf. induction l as [|x l IH]; constructor; auto. Qed.

(** Updates of other fields keep the obligations. *)
Ltac guarded_update :=
  match goal with
  | H : guarded _ _ |- guarded _ _ => destruct H; subst; split; assumption
  end.

Ltac solve_plain :=
  repeat first
    [ eassumption
    | apply Forall_app_2 | apply Forall_cons_2 | apply Forall_nil_2
    | apply plain_map; intros; reflexivity
    | apply P_plain; reflexivity ].

Create HintDb waiting.
#[local] Hint Extern 1 (Forall _ _) => solve [solve_plain] : waiting.

Ltac guard_step :=
  lazymatch goal with
  | Hg : guarded ?la _ |- wlp (modify _) _ _ =>
      let s' := fresh "s" in let H := fresh "Hs" in
      apply wlp_modify; intros s' H;
      let R := fresh "R" in
      first [ assert (R : guarded la s') by guarded_update; clear H
            | repeat match type of H with context [if ?b then _ else _] => destruct b end;
              assert (R : guarded la s') by guarded_update; clear H
            | match type of H with context [match ?x with Some _ => _ | None => _ end] => destruct x end;
              assert (R : guarded la s') by guarded_update; clear H ]
  | |- wlp (collect _ _) _ _ => idtac
  | _ => first
      [ wlp_step
      | eapply wlp_mono; [solve [eauto with waiting nocore]|];
        let F := fresh "F" in intros ? ? F; cbn beta in F;
        lazymatch type of F with guarded _ _ => idtac | _ => destruct F as [F ?] end ]
  end.

Ltac guard_auto :=
  try (progress guard_step; guard_auto);
  try (first [split; [assumption|solve [solve_plain]] | assumption]).

Lemma collect_yields {A} la n (body : A -> RM (list Action)) l :
  guarded la n -> (forall x n, guarded la n -> yields la n (body x)) -> yields la n (collect body l).
Proof. intros Hn Hbody. apply wlp_collect; [done|]. intros x s HI. by apply Hbody. Qed.

Lemma sendAppendEntriesTo_guarded la n peer readID :
  guarded la n -> yields la n (sendAppendEntriesTo peer readID).
Proof. intros Hn. unfold sendAppendEntriesTo. guard_auto. Qed.
#[local] Hint Resolve sendAppendEntriesTo_guarded : waiting.

Lemma sendAppendEntries_guarded la n readID : guarded la n -> yields la n (sendAppendEntries readID).
Proof.
  intros Hn. unfold sendAppendEntries. do 2 wlp_step. apply collect_yields; [done|].
  intros x s Hs. guard_auto.
Qed.

Lemma completeReads_guarded la n : guarded la n -> yields la n completeReads.
Proof.
  intros Hn. unfold completeReads. do 2 wlp_step. apply collect_yields; [done|].
  intros x s Hs. unfold completeRead. guard_auto.
Qed.
#[local] Hint Resolve sendAppendEntries_guarded completeReads_guarded : waiting.

Lemma applyLoop_guarded la n count :
  (forall e, P (ApplyEntry e)) -> guarded la n -> yields la n (applyLoop count).
Proof.
  intros HP. revert n. induction count as [|count IH]; intros n Hn; cbn [applyLoop]; [guard_auto|].
  unfold applyNext. wlp_step. wlp_step. wlp_step.
  assert (guarded la s) by (destruct Hn; subst; split; [by left|done..]). clear Hs.
  guard_auto.
  all: split; [done|]; apply Forall_cons_2; [apply HP|]; solve_plain.
Qed.

Lemma applyThrough_guarded la n index :
  (forall e, P (ApplyEntry e)) \/ index <= la -> guarded la n -> yields la n (applyThrough index).
Proof.
  intros Hi Hn. unfold applyThrough. wlp_step. wlp_step. wlp_step; [guard_auto|]. reflect_bools.
  assert (HP : forall e, P (ApplyEntry e)).
  { destruct Hi as [HP|Hi]; [done|]. destruct (gd_fixed _ _ Hn) as [HP|[Hla _]]; [done|lia]. }
  wlp_step. eapply wlp_mono; [by apply applyLoop_guarded|]. intros acts n' [? ?]. guard_auto.
Qed.

Lemma persistLog_guarded la n entries pending : guarded la n -> yields la n (persistLog entries pending).
Proof. intros Hn. unfold persistLog. guard_auto. Qed.

Lemma persistCommit_guarded la n after :
  guarded la n -> Forall P after -> yields la n (persistCommit after).
Proof.
  intros Hn Ha. unfold persistCommit. wlp_step. guard_step. do 4 wlp_step. wlp_step.
  split; [|solve_plain]. destruct R. subst. split; cbn; [done..|]. by apply map_Forall_insert_2.
Qed.

Lemma persistHardState_guarded la n after :
  guarded la n -> Forall P after -> yields la n (persistHardState after).
Proof.
  intros Hn Ha. unfold persistHardState. wlp_step. guard_step. do 4 wlp_step. wlp_step.
  split; [|solve_plain]. destruct R. subst. split; cbn; [done| |done]. by apply map_Forall_insert_2.
Qed.
#[local] Hint Resolve persistLog_guarded persistCommit_guarded persistHardState_guarded : waiting.

Lemma appendEntries_guarded la n entries : guarded la n -> guards la n (appendEntries entries).
Proof. intros Hn. unfold appendEntries. guard_auto. Qed.

Lemma truncateLog_guarded la n first : guarded la n -> guards la n (truncateLog first).
Proof. intros Hn. unfold truncateLog. guard_auto. Qed.

Lemma compactLog_guarded la n index t : guarded la n -> guards la n (compactLog index t).
Proof. intros Hn. unfold compactLog. guard_auto. Qed.

Lemma advanceLeaderCommit_guarded la n : guarded la n -> guards la n advanceLeaderCommit.
Proof. intros Hn. unfold advanceLeaderCommit. guard_auto. Qed.

Lemma becomeFollower_guarded la n t leader : guarded la n -> guards la n (becomeFollower t leader).
Proof. intros Hn. unfold becomeFollower. guard_auto. Qed.
#[local] Hint Resolve appendEntries_guarded truncateLog_guarded compactLog_guarded
  advanceLeaderCommit_guarded becomeFollower_guarded : waiting.

Lemma caught_up la n :
  guarded la n -> (forall e, P (ApplyEntry e)) \/ durableCommitIndex n <= la.
Proof. intros Hn. destruct (gd_fixed _ _ Hn) as [HP|[_ Hd]]; auto. Qed.

Lemma advanceFollowerCommit_guarded la n leaderCommit after :
  guarded la n -> Forall P after -> yields la n (advanceFollowerCommit leaderCommit after).
Proof.
  intros Hn Ha. unfold advanceFollowerCommit. do 3 wlp_step; [guard_auto|]. wlp_step.
  eapply wlp_mono; [apply applyThrough_guarded; [by eapply caught_up|done]|].
  intros acts n' [? ?]. guard_auto.
Qed.

Lemma recordProgress_guarded la n response : guarded la n -> guards la n (recordProgress response).
Proof. intros Hn. unfold recordProgress. guard_auto. Qed.

Lemma acknowledgeRead_guarded la n response : guarded la n -> yields la n (acknowledgeRead response).
Proof. intros Hn. unfold acknowledgeRead. guard_auto. Qed.

Lemma acceptLeader_guarded la n t from : guarded la n -> guards la n (acceptLeader t from).
Proof. intros Hn. unfold acceptLeader. guard_auto. Qed.

Lemma finish_guarded la n b after : guarded la n -> Forall P after -> yields la n (finish b after).
Proof. intros Hn Ha. unfold finish. guard_auto. Qed.

Lemma startElection_guarded la n : guarded la n -> yields la n startElection.
Proof. intros Hn. unfold startElection. guard_auto. Qed.
#[local] Hint Resolve advanceFollowerCommit_guarded recordProgress_guarded acknowledgeRead_guarded
  acceptLeader_guarded finish_guarded startElection_guarded : waiting.

Lemma hardStatePersisted_guarded la n persistID : guarded la n -> yields la n (hardStatePersisted persistID).
Proof.
  intros Hn. unfold hardStatePersisted. do 3 wlp_step; [|guard_auto].
  assert (Ha : Forall P (ph_after p)) by (by eapply (gd_hard _ n Hn persistID)).
  wlp_step. wlp_step. assert (guarded la s).
  { destruct Hn. subst. split; cbn; [done|by apply map_Forall_delete|done]. }
  guard_auto.
Qed.

(** The completion of a commit, when applications are allowed among waiting actions. *)
Lemma commitIndexPersisted_guarded la n persistID :
  (forall e, P (ApplyEntry e)) -> guarded la n -> yields la n (commitIndexPersisted persistID).
Proof.
  intros HP Hn. unfold commitIndexPersisted. do 3 wlp_step; [|guard_auto].
  assert (Ha : Forall P (pc_after p)) by (by eapply (gd_commit _ n Hn persistID)).
  wlp_step. wlp_step. assert (guarded la s).
  { destruct Hn. subst. split; cbn; [by left|done|by apply map_Forall_delete]. }
  wlp_step. eapply wlp_mono; [apply applyThrough_guarded; [by left|done]|].
  intros acts n' [? ?]. guard_auto.
Qed.

Lemma installSnapshotLog_guarded la n index t :
  (forall e, P (ApplyEntry e)) -> guarded la n -> guards la n (installSnapshotLog index t).
Proof.
  intros HP Hn. unfold installSnapshotLog. repeat wlp_step.
  all: destruct Hn; subst; destruct (last_entry _); split; cbn; first [by left | done].
Qed.

Lemma handleInstallSnapshot_guarded la n request :
  (forall e, P (ApplyEntry e)) \/ is_Installed request = false -> guarded la n ->
  yields la n (handleInstallSnapshot request).
Proof.
  intros Hi Hn. unfold handleInstallSnapshot. do 3 wlp_step; [guard_auto|]. guard_step. guard_step.
  wlp_step. wlp_step. wlp_step. wlp_step.
  - reflect_bools. destruct Hi as [HP|Hi]; [|congruence].
    eapply wlp_mono; [by apply installSnapshotLog_guarded|]. intros [] s Hs. guard_auto.
  - guard_auto.
Qed.
#[local] Hint Resolve handleInstallSnapshot_guarded hardStatePersisted_guarded : waiting.

(** Every event but proposals and, unless applications are allowed among waiting
    actions, those that apply. *)
Lemma step_guarded la n e :
  guarded la n -> isProposal e = false -> (forall e, P (ApplyEntry e)) \/ appliesEntries e = false ->
  yields la n (Step e).
Proof.
  intros Hn Hp He. destruct e; try discriminate Hp; cbn [Step appliesEntries] in *.
  - unfold startPreVote. guard_auto.
  - unfold heartbeatRound. guard_auto.
  - unfold checkQuorum. guard_auto.
  - guard_auto.
  - unfold logEntriesPersisted. guard_auto.
  - destruct He as [HP|]; [|done]. by apply commitIndexPersisted_guarded.
  - do 2 wlp_step. apply applyThrough_guarded; [by eapply caught_up|done].
  - guard_auto.
  - unfold confirmRead. guard_auto.
  - unfold handlePreVoteRequest. guard_auto.
  - unfold handlePreVoteResponse. guard_auto.
  - unfold handleVoteRequest. guard_auto.
  - unfold handleVoteResponse. guard_auto.
  - unfold handleAppendEntries. guard_auto.
  - unfold handleAppendEntriesResponse. guard_auto.
  - unfold handleAppendEntriesFailed. guard_auto.
  - by apply handleInstallSnapshot_guarded.
  - unfold handleInstallSnapshotResponse. guard_auto.
Qed.

(** A proposal gets one verdict, first, or none at all. *)
Lemma step_proposal la n e :
  guarded la n -> isProposal e = true ->
  wlp (Step e) (fun acts n' => guarded la n' /\
    (acts = [] \/ exists v rest, acts = v :: rest /\ isVerdict v = true /\ Forall P rest)) n.
Proof.
  intros Hn Hp.
  assert (Ha : forall entry proposal index,
    wlp (leaderAppend entry [ProposalAccepted proposal index]) (fun acts n' => guarded la n' /\
      (acts = [] \/ exists v rest, acts = v :: rest /\ isVerdict v = true /\ Forall P rest)) n).
  { intros entry proposal index. unfold leaderAppend. guard_auto. split; [done|]. right. by eexists _, _. }
  destruct e; try discriminate Hp; cbn [Step].
  - unfold proposeSession. do 3 wlp_step; [wlp_step; split; [done|]; right; by eexists _, []|].
    wlp_step; [wlp_step; auto|]. apply Ha.
  - unfold proposeSet. do 3 wlp_step; [wlp_step; split; [done|]; right; by eexists _, []|]. apply Ha.
  - unfold proposeDelete. do 3 wlp_step; [wlp_step; split; [done|]; right; by eexists _, []|]. apply Ha.
Qed.
End Waiting.

(** ** Verdicts *)

Definition verdicts (actions : list Action) : nat :=
  length (filter (fun a => isVerdict a = true) actions).

Lemma verdicts_cons a actions :
  verdicts (a :: actions) = ((if isVerdict a then 1 else 0) + verdicts actions)%nat.
Proof.
  unfold verdicts. rewrite filter_cons. destruct (isVerdict a); [by rewrite decide_True|by rewrite decide_False].
Qed.

Lemma verdicts_app l l' : verdicts (l ++ l') = (verdicts l + verdicts l')%nat.
Proof. unfold verdicts. by rewrite filter_app, length_app. Qed.

(** No verdict waits for a persistence request. *)
Definition no_verdict (a : Action) : Prop := isVerdict a = false.
Abbreviation verdict_guarded n := (guarded no_verdict 0 n).

Lemma no_verdict_plain a : plain a = true -> no_verdict a.
Proof. unfold plain, no_verdict. by destruct (isVerdict a). Qed.

Lemma no_verdicts acts : Forall no_verdict acts -> verdicts acts = 0%nat.
Proof. induction 1 as [|a l Ha _ IH]; [done|]. by rewrite verdicts_cons, Ha, IH. Qed.

Lemma step_verdicts n e :
  verdict_guarded n ->
  wlp (Step e) (fun acts n' => verdict_guarded n' /\
    (verdicts acts <= if isProposal e then 1 else 0)%nat) n.
Proof.
  intros Hn. destruct (isProposal e) eqn:Hp.
  - eapply wlp_mono; [by apply step_proposal; [apply no_verdict_plain|..]|].
    intros acts n' [Hg [->|(v & rest & -> & Hv & Hr)]]; (split; [done|]); [cbn; lia|].
    rewrite verdicts_cons, Hv, (no_verdicts rest Hr). lia.
  - eapply wlp_mono; [by apply step_guarded; [apply no_verdict_plain|..|by left]|].
    intros acts n' [Hg Hr]. split; [done|]. by rewrite no_verdicts.
Qed.

(** ** Applications *)

(** Nothing waits for a persistence request but plain actions, and all that is known
    to be durably committed has been applied. *)
Definition caught_up_node (n : Node) : Prop := guarded (fun a => plain a = true) (lastApplied n) n.

Lemma plain_applied acts : Forall (fun a => plain a = true) acts -> applied acts = [].
Proof. induction 1 as [|a l Ha _ IH]; [done|]. unfold applied in *. by destruct a. Qed.

Lemma not_all_plain : ~ forall e, plain (ApplyEntry e) = true.
Proof. intros H. by specialize (H (mkLogEntry 0 0 EntryNoOp [] 0 "" [])). Qed.

Lemma guarded_position la n :
  guarded (fun a => plain a = true) la n -> lastApplied n = la /\ caught_up_node n.
Proof.
  intros Hg. destruct (gd_fixed _ _ _ Hg) as [H|[<- _]]; [by apply not_all_plain in H|done].
Qed.

Lemma entriesBetween_same n a : entriesBetween n a a = [].
Proof. unfold entriesBetween. by rewrite N.sub_diag. Qed.

(** Events that do not apply leave the applied position alone. *)
Lemma step_applies_nothing n e :
  caught_up_node n -> appliesEntries e = false ->
  wlp (Step e) (fun acts n' => caught_up_node n' /\ lastApplied n' = lastApplied n /\ applied acts = []) n.
Proof.
  intros Hn He. destruct (isProposal e) eqn:Hp.
  - eapply wlp_mono; [by apply (step_proposal (fun a => plain a = true)); [auto|..]|].
    intros acts n' [Hg Ha]. apply guarded_position in Hg as [Hla Hc]. split_and!; [done..|].
    destruct Ha as [->|(v & rest & -> & Hv & Hr)]; [done|].
    unfold applied. cbn. destruct v; try discriminate Hv; cbn; by apply plain_applied.
  - eapply wlp_mono; [by apply (step_guarded (fun a => plain a = true)); [auto|..|by right]|].
    intros acts n' [Hg Ha]. apply guarded_position in Hg as [Hla Hc]. split_and!; [done..|].
    by apply plain_applied.
Qed.

(** The completion of a commit applies the entries up to it. *)
Lemma commitIndexPersisted_applies n persistID :
  wf n -> caught_up_node n ->
  wp (commitIndexPersisted persistID)
    (fun acts n' => caught_up_node n' /\ lastApplied n <= lastApplied n' /\
       applied acts = entriesBetween n (lastApplied n) (lastApplied n') /\
       log n' = log n /\ logBaseIndex n' = logBaseIndex n) n.
Proof.
  intros Hwf Hn. unfold commitIndexPersisted. wp_step. wp_step. wp_step.
  2:{ wp_step. rewrite entriesBetween_same. by split_and!. }
  pose proof (map_Forall_lookup_1 _ _ _ _ (wf_pendingCommit n Hwf) E) as Hle. cbn in Hle.
  assert (Ha : Forall (fun a => plain a = true) (pc_after p)) by (by eapply (gd_commit _ _ n Hn persistID)).
  destruct (gd_fixed _ _ _ Hn) as [H|[_ Hd]]; [by apply not_all_plain in H|].
  wp_update n1 Hn1. assert (Hwf1 : wf n1).
  { subst n1. destruct Hwf. split; cbn; try done; [destruct (_ <? _) eqn:Ed; reflect_bools; lia..|].
    by apply map_Forall_delete. }
  wp_step. eapply wp_mono.
  { apply applyThrough_spec; [done|]. subst n1. cbn. destruct Hwf. lia. }
  intros acts n' ((r & q & -> & _) & Happ & _). wp_step. subst n1. cbn in *. split_and!; try done; try lia.
  - split; cbn; [right|apply Hn|apply map_Forall_delete, Hn].
    split; [done|]. cbn. destruct (_ <? _) eqn:Ed; lia.
  - rewrite applied_app, Happ, (plain_applied _ Ha), app_nil_r. unfold entriesBetween. cbn. do 2 f_equal. lia.
Qed.

(** Completions of hard-state and log requests change neither the log nor what was applied. *)
Definition log_frame (n n' : Node) : Prop := log n' = log n /\ logBaseIndex n' = logBaseIndex n.

Lemma hardStatePersisted_log n persistID : wlp (hardStatePersisted persistID) (fun _ n' => log_frame n n') n.
Proof. unfold hardStatePersisted. repeat wlp_step; subst; done. Qed.

Lemma logEntriesPersisted_log n persistID :
  wf n -> wp (logEntriesPersisted persistID) (fun _ n' => log_frame n n') n.
Proof.
  intros Hwf. unfold logEntriesPersisted. wp_step. wp_step. wp_step; [|by wp_auto].
  wp_update n1 Hn1. assert (Hwf1 : wf n1) by (subst n1; wf_frame).
  assert (Hl : log_frame n n1) by (by subst n1). clear Hn1. wp_step. wp_step. wp_step.
  - wp_step; [by wp_auto|]. eapply wp_mono; [by apply sendAppendEntries_spec|].
    by intros acts n' [(a & b & c & ->) _].
  - wp_step; [by wp_auto|]. unfold advanceFollowerCommit, persistCommit. wp_step. wp_step.
    wp_step; reflect_bools; [by wp_auto|].
    wp_step. eapply wp_mono; [apply applyThrough_spec; [done|]; destruct Hwf1; lia|].
    intros acts n' ((r & q & -> & _) & _). by wp_auto.
Qed.

(** What the runtime delivers after a persistence request. *)
Lemma completion_applies n e :
  wf n -> caught_up_node n -> is_completion e = true ->
  wp (Step e)
    (fun acts n' => wf n' /\ caught_up_node n' /\ lastApplied n <= lastApplied n' /\
       applied acts = entriesBetween n (lastApplied n) (lastApplied n') /\ log_frame n n') n.
Proof.
  intros Hwf Hn He. assert (Hok : event_ok n e) by (by destruct e).
  pose proof (step_wf n e Hwf Hok) as Hs.
  assert (Hq : appliesEntries e = false -> wlp (Step e) (fun _ n' => log_frame n n') n ->
    wp (Step e) (fun acts n' => wf n' /\ caught_up_node n' /\ lastApplied n <= lastApplied n' /\
      applied acts = entriesBetween n (lastApplied n) (lastApplied n') /\ log_frame n n') n).
  { intros Ha Hl. pose proof (step_applies_nothing n e Hn Ha) as Hg. unfold wp, wlp in *.
    destruct (Step e n) as [[acts n']|]; [|done]. destruct Hg as (? & Hla & ->).
    rewrite Hla, entriesBetween_same. by split_and!. }
  destruct e; try discriminate He.
  - apply Hq; [done|]. apply hardStatePersisted_log.
  - apply Hq; [done|]. pose proof (logEntriesPersisted_log n PersistenceID Hwf) as Hl.
    unfold wp, wlp in *. cbn [Step] in *. by destruct (logEntriesPersisted _ _) as [[]|].
  - pose proof (commitIndexPersisted_applies n PersistenceID Hwf Hn) as Ha. unfold wp in *.
    cbn [Step] in *. destruct (commitIndexPersisted _ _) as [[acts n']|]; [|done].
    destruct_and!. by split_and!.
Qed.

(** ** Timers *)

#[local] Hint Resolve sendAppendEntriesTo_neutral sendAppendEntries_neutral completeReads_neutral
  applyThrough_neutral persistLog_neutral persistCommit_neutral appendEntries_neutral
  truncateLog_neutral compactLog_neutral advanceLeaderCommit_neutral advanceFollowerCommit_neutral
  leaderAppend_neutral recordProgress_neutral acknowledgeRead_neutral installSnapshotLog_neutral : neutral.

#[local] Hint Extern 1 (Forall vote_free _) => solve [repeat constructor] : neutral.

(** What a Leader's timers need from an event. *)
Definition timers_served (n : Node) (e : Event) (acts : list Action) (n' : Node) : Prop :=
  role n' = Leader ->
  (role n = Leader \/ (ResetHeartbeatTimer ∈ acts /\ ResetCheckQuorumTimer ∈ acts)) /\
  (e = HeartbeatTimeout -> ResetHeartbeatTimer ∈ acts) /\
  (e = CheckQuorumTimeout -> ResetCheckQuorumTimer ∈ acts).

(** The event does not make a Leader. *)
Definition not_raised (n n' : Node) : Prop := role n' = Leader -> role n = Leader.
Abbreviation humble n m := (wlp m (fun _ n' => not_raised n n') n).

Lemma eframe_not_raised n n' : eframe n n' -> not_raised n n'.
Proof. unfold eframe, not_raised. intros. destruct_and!. congruence. Qed.

Lemma neutral_humble n m : neutral n m -> humble n m.
Proof. intros H. eapply wlp_mono; [exact H|]. intros acts n' [F _]. by apply eframe_not_raised. Qed.

Lemma persistHardState_role n after : wlp (persistHardState after) (fun _ n' => role n' = role n) n.
Proof. unfold persistHardState. repeat wlp_step; by subst. Qed.

Lemma startElection_role n : wlp startElection (fun _ n' => role n' = Candidate) n.
Proof.
  unfold startElection. do 4 wlp_step. eapply wlp_mono; [apply persistHardState_role|]. by intros ? ? ->; subst.
Qed.

Lemma step_down_role n t leader after :
  wlp (do! becomeFollower t leader in persistHardState after) (fun _ n' => role n' = Follower) n.
Proof.
  unfold becomeFollower. do 2 wlp_step. eapply wlp_mono; [apply persistHardState_role|].
  intros ? ? ->. by subst.
Qed.

Lemma acceptLeader_role n t from : wlp (acceptLeader t from) (fun _ n' => role n' = Follower) n.
Proof. unfold acceptLeader, becomeFollower. repeat wlp_step; by subst. Qed.

(** Ends a branch that leaves a Follower or a Candidate behind. *)
Ltac not_leader := intros; unfold not_raised; first [congruence | cbn; congruence].

Lemma finish_role n b after : wlp (finish b after) (fun _ n' => role n' = role n) n.
Proof. unfold finish. wlp_step; [apply persistHardState_role|by wlp_step]. Qed.

(** A handler that has accepted a Leader stays a Follower. *)
Ltac follower_auto :=
  repeat first
    [ progress neutral_step
    | eapply wlp_mono; [apply finish_role|]; intros ? ? ?; cbn beta in *; unfold eframe in *; destruct_and?; right; congruence ].

Lemma handleVoteRequest_humble n request : humble n (handleVoteRequest request).
Proof.
  unfold handleVoteRequest. do 3 wlp_step; [wlp_step; by intros ?|]. wlp_step.
  assert (Hf : wlp (if term n <? vq_Term request then becomeFollower (vq_Term request) "" else ret tt)
                 (fun _ n' => not_raised n n') n).
  { unfold becomeFollower. wlp_step; wlp_step; [|by intros ?]. subst. not_leader. }
  eapply wlp_mono; [exact Hf|]. intros [] n1 H1. do 3 wlp_step.
  eapply (wlp_mono _ (fun _ n' => role n' = role n1)); [by wlp_step; wlp_step; subst|].
  intros [] n2 H2. do 3 wlp_step; [eapply wlp_mono; [apply persistHardState_role|]|wlp_step].
  - intros ? ? H3 Hl. apply H1. congruence.
  - intros Hl. apply H1. congruence.
Qed.

(** A Leader's message is stale, or the receiver follows. *)
Lemma handleAppendEntries_role n request :
  wlp (handleAppendEntries request) (fun _ n' => n' = n \/ role n' = Follower) n.
Proof.
  unfold handleAppendEntries. do 3 wlp_step; [wlp_step; by left|]. wlp_step.
  eapply wlp_mono; [apply acceptLeader_role|]. intros tc n1 Hr. follower_auto.
Qed.

Lemma handleInstallSnapshot_role n request :
  wlp (handleInstallSnapshot request) (fun _ n' => n' = n \/ role n' = Follower) n.
Proof.
  unfold handleInstallSnapshot. do 3 wlp_step; [wlp_step; by left|]. wlp_step.
  eapply wlp_mono; [apply acceptLeader_role|]. intros tc n1 Hr. follower_auto.
Qed.

Lemma stale_or_follower n n' : n' = n \/ role n' = Follower -> not_raised n n'.
Proof. intros [->|Hf] Hl; congruence. Qed.

Lemma step_humble n e :
  match e with EvVoteResponse _ => False | _ => True end -> humble n (Step e).
Proof.
  intros He. destruct e; try done; cbn [Step].
  - unfold startPreVote. do 3 wlp_step; [wlp_step; by intros ?|]. do 4 wlp_step. wlp_step.
    + wlp_step. eapply wlp_mono; [apply startElection_role|]. intros. wlp_step. not_leader.
    + wlp_step. subst. not_leader.
  - apply neutral_humble. unfold heartbeatRound. neutral_auto.
  - unfold checkQuorum, becomeFollower. do 3 wlp_step; [wlp_step; by intros ?|]. reflect_bools.
    wlp_step; repeat wlp_step; subst; by not_leader.
  - unfold hardStatePersisted. repeat wlp_step; subst; by intros ?.
  - apply neutral_humble, logEntriesPersisted_neutral.
  - unfold commitIndexPersisted. do 3 wlp_step; [|wlp_step; by intros ?].
    do 2 wlp_step. assert (role s = role n) by (by subst). clear Hs. wlp_step.
    eapply wlp_mono; [apply applyThrough_neutral|]. intros acts n' [F _]. wlp_step.
    unfold eframe in F. destruct_and!. not_leader.
  - apply neutral_humble. neutral_auto.
  - apply neutral_humble. neutral_auto.
  - apply neutral_humble. unfold proposeSession. neutral_auto.
  - apply neutral_humble. unfold proposeSet. neutral_auto.
  - apply neutral_humble. unfold proposeDelete. neutral_auto.
  - apply neutral_humble. unfold confirmRead. neutral_auto.
  - apply neutral_humble, handlePreVoteRequest_neutral.
  - unfold handlePreVoteResponse. do 3 wlp_step; [eapply wlp_mono; [apply step_down_role|not_leader]|].
    wlp_step; [wlp_step; by intros ?|]. do 4 wlp_step. wlp_step; [wlp_step; subst; by intros ?|].
    eapply wlp_mono; [apply startElection_role|not_leader].
  - apply handleVoteRequest_humble.
  - eapply wlp_mono; [apply handleAppendEntries_role|]. intros ? ?. apply stale_or_follower.
  - unfold handleAppendEntriesResponse. do 3 wlp_step; [eapply wlp_mono; [apply step_down_role|not_leader]|].
    apply neutral_humble. neutral_auto.
  - apply neutral_humble, handleAppendEntriesFailed_neutral.
  - eapply wlp_mono; [apply handleInstallSnapshot_role|]. intros ? ?. apply stale_or_follower.
  - unfold handleInstallSnapshotResponse. do 3 wlp_step; [eapply wlp_mono; [apply step_down_role|not_leader]|].
    apply neutral_humble. neutral_auto.
Qed.

(** ** Every event *)

Lemma step_timers n e : wlp (Step e) (timers_served n e) n.
Proof.
  destruct e; try (eapply wlp_mono; [by apply step_humble|]; intros acts n' Hr Hl;
                   split_and!; [left; by apply Hr|done..]); cbn [Step]; unfold timers_served.
  - unfold heartbeatRound. do 3 wlp_step; [wlp_step; intros Hl; reflect_bools; done|].
    neutral_auto. intros _. reflect_bools. split_and!; [by left|set_solver|done].
  - unfold checkQuorum, becomeFollower. do 3 wlp_step; [wlp_step; intros Hl; reflect_bools; done|].
    reflect_bools. wlp_step; repeat wlp_step; subst; [done|].
    intros _. split_and!; [by left|done|set_solver].
  - unfold handleVoteResponse. do 3 wlp_step; [eapply wlp_mono; [apply step_down_role|]; intros; congruence|].
    wlp_step; [wlp_step; intros ?; by split_and!; [left|..]|]. reflect_bools.
    do 4 wlp_step. wlp_step; [wlp_step; subst; cbn; congruence|].
    do 4 wlp_step. clear. neutral_auto. intros _. split_and!; [right; set_solver|done..].
Qed.
