(* ===== verification/RaftAppend.v ===== *)
(** A Leader only adds to its log: the entries it holds stay where they are for as long as
    it leads, and an accepted proposal is in the log at the index it was promised. *)

From S2P Require Import Prelude RaftTypes RaftCore RaftLog RaftInvariant RaftElection RaftActions.

(** The entries of [n] that [n'] has not compacted away are the entries of [n']. *)
Definition retains (n n' : Node) : Prop :=
  logBaseIndex n <= logBaseIndex n' /\
  forall i x, logBaseIndex n' < i -> entryAt n i = Some x -> entryAt n' i = Some x.

Lemma retains_refl n : retains n n.
Proof. by split. Qed.

Lemma retains_trans a b c : retains a b -> retains b c -> retains a c.
Proof. intros [H1 H2] [H3 H4]. split; [lia|]. intros i x Hi Hx. apply H4; [done|]. apply H2; [lia|done]. Qed.

Lemma retains_frame n n' : log_frame n n' -> retains n n'.
Proof. intros [Hl Hb]. unfold retains, entryAt. rewrite Hl, Hb. by split. Qed.

Lemma retains_append n n' more : log n' = log n ++ more -> logBaseIndex n' = logBaseIndex n -> retains n n'.
Proof.
  intros Hl Hb. unfold retains, entryAt. rewrite Hl, Hb. split; [lia|]. intros i x _.
  destruct (_ <? _); [|done]. apply lookup_app_l_Some.
Qed.

Abbreviation keeps n0 n m := (retains n0 n -> wlp m (fun _ n' => retains n0 n') n).

Create HintDb keeping.

(** One step of a computation that retains the log of [n0]. *)
Ltac keep_step :=
  lazymatch goal with
  | Hg : retains ?n0 _ |- wlp (modify _) _ _ =>
      let s' := fresh "s" in let H := fresh "Hs" in
      apply wlp_modify; intros s' H;
      let R := fresh "R" in
      assert (R : retains n0 s') by
        (subst s'; repeat match goal with |- context [if ?b then _ else _] => destruct b end;
         repeat match goal with |- context [match ?x with Some _ => _ | None => _ end] => destruct x end;
         exact Hg); clear H; clear Hg
  | |- wlp (collect _ _) _ _ => idtac
  | _ => first
      [ wlp_step
      | eapply wlp_mono; [solve [eauto with keeping nocore]|]; let F := fresh "F" in intros ? ? F; cbn beta in F ]
  end.

Ltac keep_auto := repeat keep_step; try assumption.

Section Keeping.
Context (n0 : Node).

Lemma sendAppendEntriesTo_keeps n peer readID : keeps n0 n (sendAppendEntriesTo peer readID).
Proof. intros Hn. unfold sendAppendEntriesTo. keep_auto. Qed.
#[local] Hint Resolve sendAppendEntriesTo_keeps : keeping.

Lemma collect_keeps {A} n (body : A -> RM (list Action)) l :
  (forall x n, keeps n0 n (body x)) -> keeps n0 n (collect body l).
Proof.
  intros Hbody Hn. eapply wlp_mono; [apply (wlp_collect body (fun n => retains n0 n) (fun _ => True)); [done|]|].
  - intros x s HI. eapply wlp_mono; [by apply Hbody|]. intros acts s' Hs. split; [done|]. by apply Forall_true.
  - by intros acts n' [? _].
Qed.

Lemma sendAppendEntries_keeps n readID : keeps n0 n (sendAppendEntries readID).
Proof.
  intros Hn. unfold sendAppendEntries. do 2 wlp_step. apply collect_keeps; [|done].
  clear. intros x n Hn. keep_auto.
Qed.

Lemma completeReads_keeps n : keeps n0 n completeReads.
Proof.
  intros Hn. unfold completeReads. do 2 wlp_step. apply collect_keeps; [|done].
  clear. intros x n Hn. unfold completeRead. keep_auto.
Qed.
#[local] Hint Resolve sendAppendEntries_keeps completeReads_keeps : keeping.

Lemma applyLoop_keeps n count : keeps n0 n (applyLoop count).
Proof.
  revert n. induction count as [|count IH]; intros n Hn; cbn [applyLoop]; [keep_auto|].
  unfold applyNext. keep_auto; (eapply wlp_mono; [by apply IH|]); intros; keep_auto.
Qed.

#[local] Hint Resolve applyLoop_keeps : keeping.

Lemma applyThrough_keeps n index : keeps n0 n (applyThrough index).
Proof.
  intros Hn. unfold applyThrough. keep_auto.
Qed.
#[local] Hint Resolve applyThrough_keeps : keeping.

Lemma persistLog_keeps n entries pending : keeps n0 n (persistLog entries pending).
Proof. intros Hn. unfold persistLog. keep_auto. Qed.

Lemma persistCommit_keeps n after : keeps n0 n (persistCommit after).
Proof. intros Hn. unfold persistCommit. keep_auto. Qed.

Lemma persistHardState_keeps n after : keeps n0 n (persistHardState after).
Proof. intros Hn. unfold persistHardState. keep_auto. Qed.

Lemma advanceLeaderCommit_keeps n : keeps n0 n advanceLeaderCommit.
Proof. intros Hn. unfold advanceLeaderCommit. keep_auto. Qed.

Lemma recordProgress_keeps n response : keeps n0 n (recordProgress response).
Proof. intros Hn. unfold recordProgress. keep_auto. Qed.
#[local] Hint Resolve persistLog_keeps persistCommit_keeps persistHardState_keeps advanceLeaderCommit_keeps
  recordProgress_keeps : keeping.

Lemma advanceFollowerCommit_keeps n leaderCommit after : keeps n0 n (advanceFollowerCommit leaderCommit after).
Proof. intros Hn. unfold advanceFollowerCommit. keep_auto. Qed.

Lemma acknowledgeRead_keeps n response : keeps n0 n (acknowledgeRead response).
Proof. intros Hn. unfold acknowledgeRead. keep_auto. Qed.

Lemma appendEntries_keeps n entries : keeps n0 n (appendEntries entries).
Proof.
  intros Hn. unfold appendEntries. repeat wlp_step; subst; (try done);
    (eapply retains_trans; [exact Hn|]); by eapply retains_append.
Qed.
#[local] Hint Resolve advanceFollowerCommit_keeps acknowledgeRead_keeps appendEntries_keeps : keeping.

Lemma leaderAppend_keeps n entry first : keeps n0 n (leaderAppend entry first).
Proof. intros Hn. unfold leaderAppend. keep_auto. Qed.

Lemma logEntriesPersisted_keeps n id : keeps n0 n (logEntriesPersisted id).
Proof. intros Hn. unfold logEntriesPersisted. keep_auto. Qed.

Lemma compactLog_keeps n index t : wf n -> keeps n0 n (compactLog index t).
Proof.
  intros Hwf Hn. unfold compactLog. wlp_step. wlp_step. wlp_step; [by wlp_step|]. reflect_bools.
  do 3 wlp_step; [by wlp_step|]. do 3 wlp_step. subst. eapply retains_trans; [exact Hn|].
  unfold retains, entryAt. cbn. split; [lia|]. intros i x Hi.
  destruct (N.ltb_spec index i); [|lia]. destruct (N.ltb_spec (logBaseIndex n) i); [|lia].
  unfold slice_from in *. destruct (_ <=? len (log n)); [|done]. simplify_eq.
  rewrite lookup_drop. intros <-. f_equal. pose proof (wf_bound _ Hwf). pose proof (wf_applied _ Hwf).
  pose proof (wf_durableCommit _ Hwf). pose proof (wf_commit _ Hwf). rewrite u64_sub_small by lia. lia.
Qed.
End Keeping.

#[export] Hint Resolve sendAppendEntriesTo_keeps sendAppendEntries_keeps completeReads_keeps applyThrough_keeps
  persistLog_keeps persistCommit_keeps persistHardState_keeps advanceLeaderCommit_keeps recordProgress_keeps
  advanceFollowerCommit_keeps acknowledgeRead_keeps appendEntries_keeps leaderAppend_keeps
  logEntriesPersisted_keeps : keeping.

(** ** Every event *)

Definition leader_retains (n n' : Node) : Prop := role n' = Leader -> retains n n'.

Lemma leader_kept n (m : RM (list Action)) :
  keeps n n m -> wlp m (fun _ n' => leader_retains n n') n.
Proof. intros Hm. eapply wlp_mono; [apply Hm, retains_refl|]. by intros acts n' ? ?. Qed.

Lemma step_down_retains n t leader after :
  wlp (do! becomeFollower t leader in persistHardState after) (fun _ n' => leader_retains n n') n.
Proof. eapply wlp_mono; [apply step_down_role|]. intros ? ? Hf Hl. congruence. Qed.

(** A Leader that is still the Leader after an event has kept its log. *)
Lemma step_retains n e : wf n -> role n = Leader -> wlp (Step e) (fun _ n' => leader_retains n n') n.
Proof.
  intros Hwf Hl. pose proof (retains_refl n) as Hr. destruct e; cbn [Step].
  - unfold startPreVote. do 3 wlp_step; [by wlp_step|]. reflect_bools. done.
  - apply leader_kept. intros _. unfold heartbeatRound. keep_auto.
  - unfold checkQuorum, becomeFollower. do 3 wlp_step; [by wlp_step|]. reflect_bools.
    wlp_step; repeat wlp_step; subst; by intros ?.
  - apply leader_kept. intros _. unfold hardStatePersisted. keep_auto.
  - apply leader_kept. intros _. keep_auto.
  - apply leader_kept. intros _. unfold commitIndexPersisted. keep_auto.
  - apply leader_kept. intros _. keep_auto.
  - apply leader_kept. intros _. wlp_step. eapply wlp_mono; [by apply compactLog_keeps|]. intros. keep_auto.
  - apply leader_kept. intros _. unfold proposeSession. keep_auto.
  - apply leader_kept. intros _. unfold proposeSet. keep_auto.
  - apply leader_kept. intros _. unfold proposeDelete. keep_auto.
  - apply leader_kept. intros _. unfold confirmRead. keep_auto.
  - apply leader_kept. intros _. unfold handlePreVoteRequest. keep_auto.
  - unfold handlePreVoteResponse. do 3 wlp_step; [apply step_down_retains|].
    rewrite bool_decide_false by congruence. cbn [negb orb]. wlp_step. by intros ?.
  - unfold handleVoteRequest. do 3 wlp_step; [by wlp_step|]. do 2 wlp_step.
    + unfold becomeFollower. wlp_step. assert (Hf : role s = Follower) by (by subst). clear Hs.
      do 3 wlp_step. eapply (wlp_mono _ (fun _ n' => role n' = Follower)); [by wlp_step; wlp_step; subst|].
      intros [] n2 H2. cbn [orb]. do 2 wlp_step. eapply wlp_mono; [apply persistHardState_role|].
      intros ? ? H3 Hl'. congruence.
    + apply leader_kept. intros _. keep_auto.
  - unfold handleVoteResponse. do 3 wlp_step; [apply step_down_retains|].
    rewrite bool_decide_false by congruence. cbn [negb orb]. wlp_step. by intros ?.
  - eapply wlp_mono; [apply handleAppendEntries_role|]. intros ? ? [->|Hf] Hl'; [done|congruence].
  - unfold handleAppendEntriesResponse. do 3 wlp_step; [apply step_down_retains|].
    apply leader_kept. intros _. keep_auto.
  - apply leader_kept. intros _. unfold handleAppendEntriesFailed. keep_auto.
  - eapply wlp_mono; [apply handleInstallSnapshot_role|]. intros ? ? [->|Hf] Hl'; [done|congruence].
  - unfold handleInstallSnapshotResponse. do 3 wlp_step; [apply step_down_retains|].
    apply leader_kept. intros _. keep_auto.
Qed.

(** ** Applied entries *)

(** The Node with the log cut behind the entries it has applied. *)
Definition appliedPart (n : Node) : Node :=
  n <| log := take (N.to_nat (lastApplied n - logBaseIndex n)) (log n) |>.

Lemma retains_cut n0 n n' k :
  len (log n0) <= k - logBaseIndex n0 -> log n' = take (N.to_nat (k - logBaseIndex n)) (log n) ->
  logBaseIndex n' = logBaseIndex n -> retains n0 n -> retains n0 n'.
Proof.
  intros Hlen Hl Hb [Hb0 Hr]. unfold retains, entryAt in *. rewrite Hb. split; [done|]. intros i x Hi Hx.
  specialize (Hr i x Hi Hx). rewrite (proj2 (N.ltb_lt _ _) Hi) in *.
  destruct (logBaseIndex n0 <? i); [|done]. rewrite Hl. apply lookup_lt_Some in Hx. unfold len in Hlen.
  rewrite lookup_take_lt by lia. done.
Qed.

Lemma appliedPart_retained n : retains (appliedPart n) n.
Proof.
  unfold retains, entryAt, appliedPart. cbn. split; [done|]. intros i x Hi. rewrite (proj2 (N.ltb_lt _ _) Hi).
  intros Hx. pose proof (lookup_lt_Some _ _ _ Hx) as Hlt. rewrite length_take in Hlt.
  by rewrite lookup_take_lt in Hx by lia.
Qed.

(** A Follower does not cut committed entries. *)
Lemma handleAppendEntries_keeps n0 n r :
  wf n -> event_ok n (EvAppendEntries r) -> len (log n0) <= commitIndex n - logBaseIndex n0 ->
  keeps n0 n (handleAppendEntries r).
Proof.
  intros Hwf [Hnum Hb] Hlen Hn. unfold handleAppendEntries. wlp_step. wlp_step. wlp_step; [by wlp_step|]. wlp_step.
  eapply wlp_mono; [apply wlp_and; [by apply wp_wlp, acceptLeader_wf|]|].
  { instantiate (1 := fun _ n' => retains n0 n'). cbn beta. unfold acceptLeader, becomeFollower. keep_auto. }
  intros termChanged n1 [(Hwf1 & _ & Hc & _) Hn1]. rewrite <- Hc in Hlen. clear n Hwf Hn Hc E. unfold finish.
  wlp_step. wlp_step. wlp_step. wlp_step. destruct a; cbn [negb]; [|keep_auto].
  destruct (entriesToAppendFrom_spec n1 Hwf1 (ae_PrevLogIndex r) 0 (ae_Entries r))
    as (new & tr & ok & Heq & Hspec); [by rewrite N.add_0_r|lia|].
  wlp_step. unfold entriesToAppend. rewrite Heq. wlp_step. injection Ha0 as <-. destruct ok; cbn [negb]; [|keep_auto].
  wlp_step; [|keep_auto]. wlp_step. destruct (negb (tr =? 0)) eqn:Htr; [|keep_auto]. reflect_bools.
  destruct new as [|e new]; [by destruct Hspec|]. destruct Hspec as (_ & _ & _ & [[? _]|(-> & Hc & _)]); [done|].
  eapply wlp_mono; [apply wp_wlp, truncateLog_spec; [done|lia..]|].
  intros [] n2 (_ & _ & t & ->). 
  assert (Hn2 : retains n0 (n1 <| log := take (N.to_nat (Index e - logBaseIndex n1 - 1)) (log n1) |>
    <| lastLogIndex := Index e - 1 |> <| lastLogTerm := t |> <| durableLogIndex := N.min (durableLogIndex n1) (Index e - 1) |>)).
  { apply (retains_cut n0 n1 _ (Index e - 1)); [lia| |done|done]. cbn. do 2 f_equal. lia. }
  clear Hn1. keep_auto.
Qed.

(** Entries that were applied stay in the log until they are compacted away. *)
Lemma step_keeps_applied n e :
  wf n -> event_ok n e -> appliesEntries e = false -> wlp (Step e) (fun _ n' => retains (appliedPart n) n') n.
Proof.
  intros Hwf Hok Ha. pose proof (appliedPart_retained n) as Hr.
  assert (Hlen : len (log (appliedPart n)) <= commitIndex n - logBaseIndex (appliedPart n)).
  { pose proof (wf_applied _ Hwf). pose proof (wf_durableCommit _ Hwf). cbn. unfold len. rewrite length_take. lia. }
  destruct e; try discriminate Ha; cbn [Step].
  - unfold startPreVote. keep_auto.
  - unfold heartbeatRound. keep_auto.
  - unfold checkQuorum, becomeFollower. keep_auto.
  - unfold hardStatePersisted. keep_auto.
  - keep_auto.
  - keep_auto.
  - wlp_step. eapply wlp_mono; [by apply compactLog_keeps|]. intros. keep_auto.
  - unfold proposeSession. keep_auto.
  - unfold proposeSet. keep_auto.
  - unfold proposeDelete. keep_auto.
  - unfold confirmRead. keep_auto.
  - unfold handlePreVoteRequest. keep_auto.
  - unfold handlePreVoteResponse, startElection, becomeFollower. keep_auto.
  - unfold handleVoteRequest, becomeFollower. keep_auto.
  - unfold handleVoteResponse, becomeFollower. keep_auto.
  - by apply handleAppendEntries_keeps.
  - unfold handleAppendEntriesResponse, becomeFollower. keep_auto.
  - unfold handleAppendEntriesFailed. keep_auto.
  - unfold handleInstallSnapshot, acceptLeader, becomeFollower, finish. cbn in Ha. rewrite Ha. cbn [andb]. keep_auto.
  - unfold handleInstallSnapshotResponse, becomeFollower. keep_auto.
Qed.

(** ** Accepted proposals *)

(** The entry a proposal asks for. *)
Definition proposedEntry (index term : N) (e : Event) : option LogEntry :=
  match e with
  | ProposeSession _ ((EntryOpenSession | EntryCloseSession) as type) session =>
      Some (mkLogEntry index term type session 0 "" [])
  | ProposeSet _ session sequence key value => Some (mkLogEntry index term EntrySet session sequence key value)
  | ProposeDelete _ session sequence key => Some (mkLogEntry index term EntryDelete session sequence key [])
  | _ => None
  end.

(** The verdict comes first; an accepted entry is at the end of the log. *)
Definition decided (n : Node) (e : Event) (acts : list Action) (n' : Node) : Prop :=
  acts = [] \/ (exists id leader, acts = [ProposalRejected id leader]) \/
  exists id rest, acts = ProposalAccepted id (lastLogIndex n + 1) :: rest /\
    role n = Leader /\ exists x, proposedEntry (lastLogIndex n + 1) (term n) e = Some x /\
      entryAt n' (lastLogIndex n + 1) = Some x.

Lemma leaderAppend_decided n e id entry :
  wf n -> role n = Leader -> lastLogIndex n + 2 < two64 ->
  proposedEntry (lastLogIndex n + 1) (term n) e = Some entry -> Index entry = lastLogIndex n + 1 ->
  wlp (leaderAppend entry [ProposalAccepted id (Index entry)]) (fun acts n' => decided n e acts n') n.
Proof.
  intros Hwf Hl Hb Hp Hi. unfold leaderAppend, appendEntries, persistLog. repeat wlp_step; subst.
  right; right. eexists _, _. rewrite Hi. split_and!; [reflexivity|done|]. exists entry. split; [done|]. unfold entryAt. cbn.
  pose proof (wf_last _ Hwf). destruct (N.ltb_spec (logBaseIndex n) (lastLogIndex n + 1)); [|lia].
  apply list_lookup_middle. unfold len in *. lia.
Qed.

Lemma proposal_decided n e :
  wf n -> event_ok n e -> isProposal e = true -> wlp (Step e) (fun acts n' => decided n e acts n') n.
Proof.
  intros Hwf Hok Hp. destruct e; try discriminate Hp; cbn [Step event_ok] in *.
  - unfold proposeSession. do 3 wlp_step; [wlp_step; right; left; by eexists _, _|]. reflect_bools.
    wlp_step; [wlp_step; by left|]. rewrite u64_small by lia. apply leaderAppend_decided; try done. by destruct type.
  - unfold proposeSet. do 3 wlp_step; [wlp_step; right; left; by eexists _, _|]. reflect_bools.
    rewrite u64_small by lia. by apply leaderAppend_decided.
  - unfold proposeDelete. do 3 wlp_step; [wlp_step; right; left; by eexists _, _|]. reflect_bools.
    rewrite u64_small by lia. by apply leaderAppend_decided.
Qed.
