(* ===== verification/RaftProperties.v ===== *)
(** The guarantees of the consensus core, stated for clients of [Step]. *)

From S2P Require Import Prelude RaftTypes RaftCore RaftLog RaftInvariant RaftElection RaftActions RaftAppend.

(** ** Concrete Nodes the statements are exercised on *)

Definition sampleNode : Node := NewNode "n1" ["n2"; "n3"].

(** ** Totality and well-formedness *)

(** C22: an event whose environment obligations hold never makes the core panic,
    and the Node it leaves is well formed: its retained log is numbered without
    gaps from the Snapshot base, the cached last position agrees with it, and
    [lastApplied <= durableCommitIndex <= commitIndex <= lastLogIndex]. *)
Theorem step_total_and_well_formed n e :
  wf n -> event_ok n e -> exists acts n', Step e n = Some (acts, n') /\ wf n'.
Proof. intros Hwf Hok. apply wp_run. by apply step_wf. Qed.

Lemma step_total_and_well_formed_witness :
  exists acts n', Step ElectionTimeout sampleNode = Some (acts, n') /\ wf n'.
Proof.
  apply (step_total_and_well_formed sampleNode ElectionTimeout); [|exact I].
  split; vm_compute; done.
Defined.

(** ** The Leader's log *)

(** A Node that leads before and after each of the events it handles. *)
Inductive leads : Node -> list Event -> Node -> Prop :=
| leads_on n : role n = Leader -> leads n [] n
| leads_step n e acts m events n' :
    role n = Leader -> event_ok n e -> Step e n = Some (acts, m) -> leads m events n' ->
    leads n (e :: events) n'.

Lemma leads_leader n events n' : leads n events n' -> role n = Leader.
Proof. by destruct 1. Qed.

(** C19: a Leader never overwrites its log: as long as it leads, every entry it ever held is still there, at the
    same index, unless a Snapshot has taken its place. *)
Theorem leader_appends_only n events n' :
  wf n -> leads n events n' ->
  logBaseIndex n <= logBaseIndex n' /\
  forall i entry, logBaseIndex n' < i -> entryAt n i = Some entry -> entryAt n' i = Some entry.
Proof.
  intros Hwf Hleads. fold (retains n n'). induction Hleads as [n Hn|n e acts m events n' Hn Hok Hs Hl IH]; [apply retains_refl|].
  pose proof (wlp_elim _ _ _ _ _ (step_retains _ _ Hwf Hn) Hs (leads_leader _ _ _ Hl)) as Hm.
  eapply retains_trans; [exact Hm|]. apply IH. exact (wp_elim _ _ _ _ _ (step_wf _ _ Hwf Hok) Hs).
Qed.

Definition sampleLeader : Node :=
  (NewNodeFromRecoveredState "n1" ["n2"; "n3"]
     (mkRecoveredState (mkHardState 1 "n1") [mkLogEntry 1 1 EntryNoOp zeroSessionID 0 "" []] 0 0 0))
    <| role := Leader |> <| leaderID := "n1" |>.

Definition sampleEvents : list Event := [ProposeSession 1 EntryOpenSession (replicate 16 x01); HeartbeatTimeout].

Definition sampleLed : Node :=
  default sampleLeader
    (foldl (fun n e => n ← n; option_map snd (Step e n)) (Some sampleLeader) sampleEvents).

Lemma leader_appends_only_witness :
  leads sampleLeader sampleEvents sampleLed /\ lastLogIndex sampleLed = 2 /\
  entryAt sampleLed 1 = Some (mkLogEntry 1 1 EntryNoOp zeroSessionID 0 "" []).
Proof.
  assert (Hleads : leads sampleLeader sampleEvents sampleLed).
  { eapply leads_step; [reflexivity|vm_compute; reflexivity|vm_compute; reflexivity|].
    eapply leads_step; [reflexivity|exact I|vm_compute; reflexivity|]. by apply leads_on. }
  split; [exact Hleads|]. split; [reflexivity|].
  apply (leader_appends_only sampleLeader sampleEvents sampleLed);
    [split; vm_compute; done|exact Hleads|reflexivity..].
Defined.

(** ** Replication requests *)

(** An entry that fits a replication request. *)
Definition sendable (x : LogEntry) : Prop := entrySize x <= maxAppendEntriesBytes.

Lemma short_batch l : Forall sendable l -> len l <= 1 -> batchSize l <= maxAppendEntriesBytes.
Proof.
  intros Hf Hl. destruct Hf as [|x l Hx Hf]; [done|]. destruct l as [|y l]; [cbn; unfold sendable in Hx; lia|].
  unfold len in Hl. cbn in Hl. lia.
Qed.

(** C23: replication requests have a bounded size.  As long as the entries of the log are within the limits of the handlers,
    no AppendEntries request that a Leader sends carries more than 1 MiB and 4 KiB of entries, as [entriesBatch] counts
    them; and a request that stops short of the durable end of the log could not have carried one entry more. *)
Theorem append_requests_are_bounded n readID acts n' :
  wf n -> Forall sendable (log n) -> sendAppendEntries readID n = Some (acts, n') ->
  Forall (fun a => match a with
    | SendAppendEntries _ r =>
        batchSize (ae_Entries r) <= maxAppendEntriesBytes /\
        let last := ae_PrevLogIndex r + len (ae_Entries r) in
        (last = N.min (durableLogIndex n) (lastLogIndex n) \/
         maxAppendEntriesBytes < batchSize (entriesBetween n (ae_PrevLogIndex r) (last + 1)))
    | _ => True
    end) acts.
Proof.
  intros Hwf Hf Hs. pose proof (sendAppendEntries_spec n readID Hwf) as Hspec. unfold wp in Hspec. rewrite Hs in Hspec.
  destruct Hspec as [_ Ha]. eapply Forall_impl; [exact Ha|]. intros a Hrep. destruct a; try done.
  destruct Hrep as (_ & _ & _ & _ & _ & _ & Hes & Hmax & Hfit). split; [|exact Hmax].
  destruct Hfit as [Hshort|]; [|done]. apply short_batch; [|done]. rewrite Hes. unfold entriesBetween.
  by apply Forall_take, Forall_drop.
Qed.

(** A Leader whose peers lack its first or its second entry. *)
Definition sampleBehind : Node :=
  (NewNodeFromRecoveredState "n1" ["n2"; "n3"]
     (mkRecoveredState (mkHardState 1 "n1")
        [mkLogEntry 1 1 EntryNoOp zeroSessionID 0 "" []; mkLogEntry 2 1 EntryOpenSession (replicate 16 x01) 0 "" []] 0 0 0))
    <| role := Leader |> <| leaderID := "n1" |> <| nextIndex := {["n2" := 1; "n3" := 2]} |>.

Lemma append_requests_are_bounded_witness : exists acts n',
  sendAppendEntries 0 sampleBehind = Some (acts, n') /\ length acts = 2%nat /\
  Forall (fun a => match a with
    | SendAppendEntries _ r =>
        batchSize (ae_Entries r) <= maxAppendEntriesBytes /\
        let last := ae_PrevLogIndex r + len (ae_Entries r) in
        (last = N.min (durableLogIndex sampleBehind) (lastLogIndex sampleBehind) \/
         maxAppendEntriesBytes < batchSize (entriesBetween sampleBehind (ae_PrevLogIndex r) (last + 1)))
    | _ => True
    end) acts.
Proof.
  assert (Hc : match sendAppendEntries 0 sampleBehind with Some (acts, _) => (length acts =? 2)%nat | None => false end = true)
    by (vm_compute; reflexivity).
  assert (Hwf : wf sampleBehind) by (split; vm_compute; done).
  assert (Hf : Forall sendable (log sampleBehind)) by (apply Forall_cons; split; [vm_compute; discriminate|]; apply Forall_cons; split; [vm_compute; discriminate|apply Forall_nil; exact I]).
  destruct (sendAppendEntries 0 sampleBehind) as [[acts n']|] eqn:Hs; [|discriminate Hc].
  exists acts, n'. split; [reflexivity|]. split; [apply Nat.eqb_eq, Hc|].
  exact (append_requests_are_bounded sampleBehind 0 acts n' Hwf Hf Hs).
Defined.
