(* ===== verification/Replication.v ===== *)
(** The replication argument of Raft, apart from the code.

    A [disk] is what a Node reads back after a restart.  A [history] records the log of the
    Leader of each term, how it was elected, the logs behind candidacies and votes, and the stored
    prefixes that were acknowledged.  [history_ok] says that it is the history of a Raft cluster,
    [disk_ok] that a disk keeps what its Node promised, [said_ok] that a message may have been sent;
    [good] is what the caller knows of every entry.  From these follow Leader Completeness and
    State Machine Safety.  Positions are list positions: entry 1 is the head of a log. *)

From S2P Require Import Prelude RaftTypes.

(** ** Disks and histories *)

(** What a Node keeps on disk. *)
Record disk := mkDisk { dk_term : N; dk_vote : string; dk_log : list LogEntry; dk_commit : nat }.

Record election := mkElection {
  el_owner : string; el_base : list LogEntry; el_voters : gmap string (list LogEntry) }.

Record history := mkHistory {
  h_logs : gmap N (list LogEntry);                            (* the Leader's log, by term *)
  h_elections : gmap N election;
  h_candidates : gmap (string * N) (list LogEntry);           (* Node, term *)
  h_ballots : gmap (string * N * string) (list LogEntry);     (* voter, term, candidate *)
  h_acks : list (string * N * nat) }.                         (* Node, term, length *)

#[export] Instance eta_history : Eta history :=
  fun h => mkHistory (h_logs h) (h_elections h) (h_candidates h) (h_ballots h) (h_acks h).

(** ** Reading logs *)

Definition term_at (l : list LogEntry) (i : nat) : N :=
  match i with O => 0 | S i => default 0 (Term <$> l !! i) end.

Definition last_term (l : list LogEntry) : N := term_at l (length l).

Definition sorted_terms (l : list LogEntry) : Prop :=
  forall i j a b, (i <= j)%nat -> l !! i = Some a -> l !! j = Some b -> Term a <= Term b.

(** A candidate with log [k] may have the vote of a Node with log [l]. *)
Definition upToDate (k l : list LogEntry) : Prop :=
  last_term l < last_term k \/ (last_term l = last_term k /\ (length l <= length k)%nat).

Section Replication.
Context (members : list string) (members_nodup : NoDup members) (good : LogEntry -> Prop).

Definition majority (Q : gset string) : Prop :=
  (forall v, v ∈ Q -> v ∈ members) /\ (length members < 2 * size Q)%nat.

(** ** The invariant *)

(** Each entry, with all before it, comes from the Leader of its term. *)
Definition log_ok (h : history) (l : list LogEntry) : Prop :=
  forall i e, l !! i = Some e -> exists L, h_logs h !! Term e = Some L /\ take (S i) l `prefix_of` L.

Definition aligned (h : history) (t : N) (l : list LogEntry) : Prop :=
  exists L, h_logs h !! t = Some L /\ l `prefix_of` L.

(** A Leader after term [T], up to term [t], did not have [p]. *)
Definition overwritten (h : history) (T t : N) (p : list LogEntry) : Prop :=
  exists U L, T < U /\ U <= t /\ h_logs h !! U = Some L /\ ~ p `prefix_of` L.

Definition acked (h : history) (f : string) (T : N) (i : nat) : Prop :=
  exists j, (f, T, j) ∈ h_acks h /\ (i <= j)%nat.

(** The first [i] entries of the Leader of [T] are in [l], unless a later Leader up to [t] lacked them. *)
Definition kept (h : history) (T : N) (i : nat) (t : N) (l : list LogEntry) : Prop :=
  exists L, h_logs h !! T = Some L /\ (i <= length L)%nat /\
    (take i L `prefix_of` l \/ overwritten h T t (take i L)).

(** The first [i] entries of the Leader of [T] are on a majority, the last of them its own. *)
Definition chosen (h : history) (T : N) (i : nat) : Prop :=
  exists L Q, h_logs h !! T = Some L /\ (0 < i <= length L)%nat /\ term_at L i = T /\
    majority Q /\ forall f, f ∈ Q -> acked h f T i.

Definition committed (h : history) (t : N) (p : list LogEntry) : Prop :=
  p = [] \/ exists T i L, T <= t /\ chosen h T i /\ h_logs h !! T = Some L /\ p `prefix_of` take i L.

Record disk_ok (h : history) (f : string) (d : disk) : Prop := {
  do_vote : dk_vote d = "" \/ dk_vote d ∈ members;
  do_log : log_ok h (dk_log d);
  do_terms : Forall (fun e => Term e <= dk_term d) (dk_log d);
  do_commit : (dk_commit d <= length (dk_log d))%nat;
  do_committed : committed h (dk_term d) (take (dk_commit d) (dk_log d));
  do_acks T i : acked h f T i ->
    T <= dk_term d /\ kept h T i (dk_term d) (dk_log d) /\ (dk_term d = T -> aligned h T (dk_log d));
  do_candidate U : is_Some (h_candidates h !! (f, U)) -> U <= dk_term d;
  do_ballot U v : is_Some (h_ballots h !! (f, U, v)) -> U < dk_term d \/ (U = dk_term d /\ v = dk_vote d) }.

(** How the Leader of term [T], whose log is [L], came to lead. *)
Record elected (h : history) (T : N) (L : list LogEntry) (el : election) : Prop := {
  ec_candidate : h_candidates h !! (el_owner el, T) = Some (el_base el);
  ec_base : el_base el `prefix_of` L;
  ec_more : (length (el_base el) < length L)%nat;
  ec_own i e : L !! i = Some e -> (length (el_base el) <= i)%nat -> Term e = T;
  ec_majority : majority (dom (el_voters el));
  ec_voters x l : el_voters el !! x = Some l ->
    h_ballots h !! (x, T, el_owner el) = Some l /\
    forall T' i, acked h x T' i -> T' < T -> kept h T' i (T - 1) l }.

Record history_ok (h : history) : Prop := {
  ho_log T L : h_logs h !! T = Some L ->
    0 < T /\ log_ok h L /\ sorted_terms L /\ Forall (fun e => Term e <= T) L /\
    numbered Index 1 L /\ Forall good L;
  ho_elected T L : h_logs h !! T = Some L -> exists el, h_elections h !! T = Some el /\ elected h T L el;
  ho_leads T : is_Some (h_elections h !! T) -> is_Some (h_logs h !! T);
  ho_candidate v U k : h_candidates h !! (v, U) = Some k ->
    v ∈ members /\ 0 < U /\ log_ok h k /\ Forall (fun e => Term e < U) k;
  ho_ballot x U v l : h_ballots h !! (x, U, v) = Some l ->
    x ∈ members /\ log_ok h l /\ (exists k, h_candidates h !! (v, U) = Some k /\ upToDate k l) /\
    forall T i, acked h x T i -> T < U -> kept h T i U l;
  ho_vote x U v v' : is_Some (h_ballots h !! (x, U, v)) -> is_Some (h_ballots h !! (x, U, v')) -> v = v';
  ho_ack f T j : (f, T, j) ∈ h_acks h -> exists L, h_logs h !! T = Some L /\ (j <= length L)%nat }.

(** A request carries entries of its Leader's log that reach an entry of the Leader's own term. *)
Definition request_ok (h : history) (r : AppendEntries) : Prop :=
  exists L, h_logs h !! ae_Term r = Some L /\
    let p := N.to_nat (ae_PrevLogIndex r) in
    (p + length (ae_Entries r) <= length L)%nat /\ ae_PrevLogTerm r = term_at L p /\
    ae_Entries r = take (length (ae_Entries r)) (drop p L) /\
    term_at L (p + length (ae_Entries r)) = ae_Term r /\
    (N.to_nat (ae_LeaderCommit r) <= length L)%nat /\
    committed h (ae_Term r) (take (N.to_nat (ae_LeaderCommit r)) L).

(** An applied entry is one of a chosen prefix. *)
Definition applied_ok (h : history) (e : LogEntry) : Prop :=
  exists T i L j, chosen h T i /\ h_logs h !! T = Some L /\ (j < i)%nat /\ L !! j = Some e /\
    Index e = N.of_nat j + 1.

Definition said_ok (h : history) (a : Action) : Prop :=
  match a with
  | SendVoteRequest _ r => exists k, h_candidates h !! (vq_From r : string, vq_Term r) = Some k /\
      vq_LastLogIndex r = len k /\ vq_LastLogTerm r = last_term k
  | SendVoteResponse v r => vr_Granted r = true -> is_Some (h_ballots h !! (vr_From r : string, vr_Term r, v : string))
  | SendAppendEntries _ r => request_ok h r
  | SendAppendEntriesResponse _ r => ar_Success r = true ->
      (ar_From r : string, ar_Term r, N.to_nat (ar_MatchIndex r)) ∈ h_acks h
  | ApplyEntry e => applied_ok h e
  | _ => True
  end.

(** ** Logs *)

Lemma prefix_same_lookup (p l : list LogEntry) i e : p `prefix_of` l -> p !! i = Some e -> l !! i = Some e.
Proof. intros; by eapply prefix_lookup_Some. Qed.

Lemma term_at_prefix p l i : p `prefix_of` l -> (i <= length p)%nat -> term_at p i = term_at l i.
Proof.
  intros [k ->] Hi. destruct i as [|i]; [done|]. cbn. by rewrite lookup_app_l by lia.
Qed.

Lemma term_at_lookup l i e : l !! i = Some e -> term_at l (S i) = Term e.
Proof. cbn. by intros ->. Qed.

Lemma term_at_pos l i : 0 < term_at l i -> exists j e, i = S j /\ l !! j = Some e /\ Term e = term_at l i.
Proof.
  destruct i as [|j]; cbn; [lia|]. destruct (l !! j) as [e|] eqn:He; cbn; [eauto|lia].
Qed.

Lemma last_term_pos l : 0 < last_term l ->
  exists j e, length l = S j /\ l !! j = Some e /\ Term e = last_term l.
Proof. apply term_at_pos. Qed.

(** A log ends with an entry of its last term, so it is a prefix of that term's Leader's. *)
Lemma log_ok_last h l : log_ok h l -> 0 < last_term l -> aligned h (last_term l) l.
Proof.
  intros Hl Hp. destruct (last_term_pos l Hp) as (j & e & Hj & He & Ht).
  destruct (Hl _ _ He) as (L & HL & Hpre). exists L. rewrite <- Ht. split; [done|].
  by rewrite take_ge in Hpre by lia.
Qed.

Lemma log_ok_prefix h p l : p `prefix_of` l -> log_ok h l -> log_ok h p.
Proof.
  intros Hp Hl i e He. destruct (Hl i e) as (L & HL & Hpre); [by eapply prefix_lookup_Some|].
  exists L. split; [done|]. etrans; [|done]. destruct Hp as [k ->].
  apply lookup_lt_Some in He. by rewrite take_app_le by lia.
Qed.

Lemma log_ok_nil h : log_ok h [].
Proof. intros i e. by rewrite lookup_nil. Qed.

Lemma log_ok_sorted h l : history_ok h -> log_ok h l -> sorted_terms l.
Proof.
  intros Hh Hl i j a b Hij Ha Hb. destruct (Hl _ _ Hb) as (L & HL & Hpre).
  destruct (ho_log _ Hh _ _ HL) as (_ & _ & Hs & _).
  eapply (Hs i j); [done|..]; (eapply prefix_lookup_Some; [|exact Hpre]); by rewrite lookup_take_lt by lia.
Qed.

Lemma log_ok_positive h l i e : history_ok h -> log_ok h l -> l !! i = Some e -> 0 < Term e.
Proof. intros Hh Hl He. destruct (Hl _ _ He) as (L & HL & _). by destruct (ho_log _ Hh _ _ HL). Qed.

Lemma log_ok_good h l : history_ok h -> log_ok h l -> Forall good l.
Proof.
  intros Hh Hl. apply Forall_lookup. intros i e He. destruct (Hl _ _ He) as (L & HL & Hp).
  destruct (ho_log _ Hh _ _ HL) as (_ & _ & _ & _ & _ & Hg). eapply (Forall_lookup_1 _ _ i); [exact Hg|].
  eapply prefix_lookup_Some; [|exact Hp]. rewrite lookup_take_lt by lia. done.
Qed.

Lemma log_ok_index h l i e : history_ok h -> log_ok h l -> l !! i = Some e -> Index e = N.of_nat i + 1.
Proof.
  intros Hh Hl He. destruct (Hl _ _ He) as (L & HL & Hp).
  destruct (ho_log _ Hh _ _ HL) as (_ & _ & _ & _ & Hn & _).
  rewrite (numbered_lookup _ _ L i e Hn); [lia|].
  eapply prefix_lookup_Some; [|exact Hp]. rewrite lookup_take_lt by lia. done.
Qed.

Lemma log_ok_numbered h l : history_ok h -> log_ok h l -> numbered Index 1 l.
Proof.
  intros Hh Hl. destruct (list.last l) as [e|] eqn:El.
  - rewrite last_lookup in El. destruct (Hl _ _ El) as (L & HL & Hp).
    pose proof (lookup_lt_Some _ _ _ El). rewrite take_ge in Hp by lia. destruct Hp as [k ->].
    destruct (ho_log _ Hh _ _ HL) as (_ & _ & _ & _ & Hn & _). by apply numbered_app in Hn as [? _].
  - by apply last_None in El as ->.
Qed.

Lemma sorted_last l i e : sorted_terms l -> l !! i = Some e -> Term e <= last_term l.
Proof.
  intros Hs He. unfold last_term. pose proof (lookup_lt_Some _ _ _ He) as Hi.
  destruct (length l) as [|n] eqn:Hn; [lia|]. cbn.
  destruct (lookup_lt_is_Some_2 l n) as [b Hb]; [lia|]. rewrite Hb. cbn. eapply (Hs i n); try done; lia.
Qed.

Lemma terms_take l t i : Forall (fun e => Term e <= t) l -> Forall (fun e => Term e <= t) (take i l).
Proof. apply Forall_take. Qed.

(** The entry of term [T] that the Leader of [T] appended when it was elected. *)
Lemma own_entry h T L : history_ok h -> h_logs h !! T = Some L -> exists i e, L !! i = Some e /\ Term e = T.
Proof.
  intros Hh HL. destruct (ho_elected _ Hh _ _ HL) as (el & _ & He).
  destruct (lookup_lt_is_Some_2 L (length (el_base el))) as [e Hl]; [by apply ec_more with (h := h) (T := T)|].
  exists (length (el_base el)), e. split; [done|]. by eapply (ec_own _ _ _ _ He).
Qed.

(** A log that reaches an entry of the current term is the current Leader's, as far as it goes. *)
Lemma reaches_aligned h t l i : history_ok h -> log_ok h l -> Forall (fun e => Term e <= t) l ->
  0 < t -> term_at l i = t -> (i <= length l)%nat -> aligned h t l.
Proof.
  intros Hh Hl Hts Ht Hi Hle. destruct (term_at_pos l i) as (j & e & -> & He & Hte); [lia|].
  assert (last_term l = t) as Hlast.
  { pose proof (sorted_last l j e (log_ok_sorted h l Hh Hl) He).
    destruct (last_term_pos l) as (n & b & _ & Hb & Hbt); [lia|].
    pose proof (Forall_lookup_1 _ _ _ _ Hts Hb) as Hmax. cbn in Hmax. lia. }
  rewrite <- Hlast. apply log_ok_last; [done|lia].
Qed.

(** ** Leader Completeness *)

Lemma quorums_meet Q1 Q2 : majority Q1 -> majority Q2 -> exists v, v ∈ Q1 /\ v ∈ Q2.
Proof. intros [H1 Hs1] [H2 Hs2]. by apply (majorities_meet members). Qed.

(** A candidate that is up to date with a log holding [p], which ends in term [T], holds [p] too. *)
Lemma upToDate_holds h T i L k l :
  history_ok h -> h_logs h !! T = Some L -> (0 < i <= length L)%nat -> term_at L i = T ->
  log_ok h k -> log_ok h l -> upToDate k l -> take i L `prefix_of` l ->
  (forall W M, T < W -> W <= last_term k -> h_logs h !! W = Some M -> take i L `prefix_of` M) ->
  take i L `prefix_of` k.
Proof.
  intros Hh HL Hi Ht Hk Hl Hup Hp Hlater.
  destruct (ho_log _ Hh _ _ HL) as (HT & _ & _ & HtL & _).
  destruct (term_at_pos L i) as (j & e & -> & He & Hte); [lia|].
  assert (Hle : l !! j = Some e).
  { eapply prefix_lookup_Some; [|done]. by rewrite lookup_take_lt by lia. }
  pose proof (sorted_last l j e (log_ok_sorted h l Hh Hl) Hle) as Hlast.
  destruct Hup as [Hup|[Heq Hlen]].
  - destruct (log_ok_last h k Hk) as (M & HM & HkM); [lia|].
    destruct (prefix_weak_total k (take (S j) L) M) as [Hkp|]; [done|eapply Hlater; [|done|done]; lia| |done].
    exfalso. destruct (last_term_pos k) as (n & b & _ & Hb & Hbt); [lia|].
    pose proof (prefix_lookup_Some _ _ _ _ Hb Hkp) as Hb'.
    apply (Forall_lookup_1 _ _ _ _ (terms_take _ _ (S j) HtL)) in Hb'. cbn in Hb'. lia.
  - destruct (log_ok_last h k Hk) as (M & HM & HkM); [lia|].
    destruct (log_ok_last h l Hl) as (M' & HM' & HlM); [lia|]. rewrite Heq in HM'.
    assert (M' = M) as -> by congruence. etrans; [done|].
    destruct (prefix_weak_total l k M) as [?|Hkl]; [done..|].
    by rewrite (prefix_length_eq k l).
Qed.

(** Every later Leader has what was chosen. *)
Lemma leader_completeness h T i L : history_ok h -> chosen h T i -> h_logs h !! T = Some L ->
  forall U M, T < U -> h_logs h !! U = Some M -> take i L `prefix_of` M.
Proof.
  intros Hh (L' & Q & HL' & Hi & Ht & HQ & Hacks) HL.
  assert (L' = L) as -> by congruence.
  intros U. induction U as [U IH] using (well_founded_induction N.lt_wf_0). intros M HU HM.
  destruct (ho_elected _ Hh _ _ HM) as (el & _ & [Hcand Hbase _ _ Hmaj Hvot]).
  destruct (quorums_meet _ _ HQ Hmaj) as (x & HxQ & Hx).
  apply elem_of_dom in Hx as [l Hx]. destruct (Hvot _ _ Hx) as [Hbal Hkept].
  destruct (ho_ballot _ Hh _ _ _ _ Hbal) as (_ & Hl & (k & Hk & Hup) & _).
  assert (k = el_base el) as -> by congruence.
  destruct (ho_candidate _ Hh _ _ _ Hcand) as (_ & _ & Hkl & Hkt).
  etrans; [|done].
  eapply (upToDate_holds h T i L (el_base el) l); try done.
  - destruct (Hkept T i (Hacks _ HxQ) HU) as (L2 & HL2 & _ & [Hp|(W & N' & HTW & HWU & HN & Hno)]).
    + congruence.
    + exfalso. apply Hno. assert (L2 = L) as -> by congruence. apply (IH W); [lia|done..].
  - intros W N' HTW HWk HN. apply (IH W); [|done..].
    destruct (last_term_pos (el_base el)) as (n & b & _ & Hb & Hbt); [lia|].
    pose proof (Forall_lookup_1 _ _ _ _ Hkt Hb) as Hlt. cbn in Hlt. lia.
Qed.

Lemma committed_in_leader h t p L : history_ok h -> committed h t p -> h_logs h !! t = Some L ->
  p `prefix_of` L.
Proof.
  intros Hh [->|(T & i & M & HT & Hch & HM & Hp)] HL; [apply prefix_nil|].
  etrans; [done|]. destruct (decide (T = t)) as [->|].
  - assert (M = L) as -> by congruence. apply prefix_take.
  - eapply leader_completeness; try done. lia.
Qed.

(** Committed prefixes agree. *)
Lemma chosen_agree h T i L T' i' L' : history_ok h ->
  chosen h T i -> chosen h T' i' -> h_logs h !! T = Some L -> h_logs h !! T' = Some L' ->
  T <= T' -> take i L `prefix_of` L'.
Proof.
  intros Hh Hc Hc' HL HL' Hle. destruct (decide (T = T')) as [->|].
  - assert (L' = L) as -> by congruence. apply prefix_take.
  - eapply leader_completeness; try done. lia.
Qed.

(** State Machine Safety: applied entries agree. *)
Lemma applied_agree h e e' : history_ok h -> applied_ok h e -> applied_ok h e' -> Index e = Index e' -> e = e'.
Proof.
  intros Hh (T & i & L & j & Hc & HL & Hj & He & Hix) (T' & i' & L' & j' & Hc' & HL' & Hj' & He' & Hix') Hsame.
  assert (j' = j) as -> by lia.
  destruct (N.le_ge_cases T T').
  - pose proof (chosen_agree h T i L T' i' L' Hh Hc Hc' HL HL' ltac:(done)) as Hp.
    apply (prefix_lookup_Some _ _ j e) in Hp; [congruence|]. by rewrite lookup_take_lt.
  - pose proof (chosen_agree h T' i' L' T i L Hh Hc' Hc HL' HL ltac:(lia)) as Hp.
    apply (prefix_lookup_Some _ _ j e') in Hp; [congruence|]. by rewrite lookup_take_lt.
Qed.
End Replication.
