(* ===== verification/ReplicationSteps.v ===== *)
(** How histories grow, and that the invariant of Replication survives it. *)

From S2P Require Import Prelude RaftTypes Replication.

Section Steps.
Context (members : list string) (members_nodup : NoDup members) (good : LogEntry -> Prop).

#[local] Abbreviation history_ok := (history_ok members good).
#[local] Abbreviation disk_ok := (disk_ok members).
#[local] Abbreviation chosen := (chosen members).
#[local] Abbreviation committed := (committed members).
#[local] Abbreviation said_ok := (said_ok members).
#[local] Abbreviation elected := (elected members).

(** ** Growth *)

Record extends (h h' : history) : Prop := {
  ex_logs T L : h_logs h !! T = Some L -> exists L', h_logs h' !! T = Some L' /\ L `prefix_of` L';
  ex_elections : h_elections h ⊆ h_elections h';
  ex_candidates : h_candidates h ⊆ h_candidates h';
  ex_ballots : h_ballots h ⊆ h_ballots h';
  ex_acks a : a ∈ h_acks h -> a ∈ h_acks h';
  ex_late x T j : (x, T, j) ∈ h_acks h' -> (x, T, j) ∈ h_acks h \/
    forall U v, is_Some (h_ballots h !! (x, U, v)) -> U <= T }.

#[export] Instance extends_preorder : PreOrder extends.
Proof.
  split.
  - intros h. split; eauto.
  - intros h1 h2 h3 H12 H23. split.
    + intros T L HL. destruct (ex_logs _ _ H12 _ _ HL) as (L2 & HL2 & ?).
      destruct (ex_logs _ _ H23 _ _ HL2) as (L3 & ? & ?). exists L3. split; [done|by etrans].
    + etrans; apply ex_elections; done.
    + etrans; apply ex_candidates; done.
    + etrans; apply ex_ballots; done.
    + intros a Ha. by apply (ex_acks _ _ H23), (ex_acks _ _ H12).
    + intros x T j Hj. destruct (ex_late _ _ H23 _ _ _ Hj) as [Hj2|Hl]; [by apply (ex_late _ _ H12)|].
      right. intros U v [l Hb]. apply (Hl U v). exists l. by eapply lookup_weaken, ex_ballots.
Qed.

Section Mono.
Context {h h' : history} (Hh : history_ok h) (Hx : extends h h').

Lemma log_ok_mono l : log_ok h l -> log_ok h' l.
Proof using Hx.
  intros Hl i e He. destruct (Hl i e He) as (L & HL & Hp).
  destruct (ex_logs _ _ Hx _ _ HL) as (L' & HL' & Hp'). exists L'. split; [done|by etrans].
Qed.

Lemma aligned_mono T l : aligned h T l -> aligned h' T l.
Proof using Hx.
  intros (L & HL & Hp). destruct (ex_logs _ _ Hx _ _ HL) as (L' & HL' & Hp').
  exists L'. split; [done|by etrans].
Qed.

Lemma acked_mono f T i : acked h f T i -> acked h' f T i.
Proof using Hx. intros (j & Hj & Hle). exists j. split; [by eapply ex_acks|done]. Qed.

(** A prefix of older entries that a Leader lacked stays lacking: its log goes on with its own entries. *)
Lemma overwritten_mono T t p :
  Forall (fun e => Term e <= T) p -> overwritten h T t p -> overwritten h' T t p.
Proof using Hh Hx.
  intros Hp (U & L & HTU & HU & HL & Hno). destruct (ex_logs _ _ Hx _ _ HL) as (L' & HL' & Hp').
  exists U, L'. split_and!; try done. intros Hin.
  destruct (prefix_weak_total p L L') as [?|HLp]; [done..|].
  destruct (own_entry members good h U L Hh HL) as (i & e & He & Ht).
  pose proof (prefix_lookup_Some _ _ _ _ He HLp) as He'.
  pose proof (Forall_lookup_1 _ _ _ _ Hp He') as Hle. cbn in Hle. lia.
Qed.

Lemma overwritten_later T t t' p : t <= t' -> overwritten h T t p -> overwritten h T t' p.
Proof using. intros Ht (U & L & ? & ? & ?). exists U, L. split_and!; [done|lia|naive_solver..]. Qed.

Lemma take_prefix_take (L L' : list LogEntry) i : L `prefix_of` L' -> (i <= length L)%nat -> take i L' = take i L.
Proof using. intros [k ->] Hi. by rewrite take_app_le. Qed.

Lemma kept_mono T i t t' l l' : t <= t' -> l `prefix_of` l' -> kept h T i t l -> kept h' T i t' l'.
Proof using Hh Hx.
  intros Ht Hl (L & HL & Hi & Hor). destruct (ex_logs _ _ Hx _ _ HL) as (L' & HL' & Hp).
  exists L'. split_and!; [done|apply prefix_length in Hp; lia|].
  rewrite (take_prefix_take L L' i) by done. destruct Hor as [Hin|Hov]; [left; by etrans|right].
  apply overwritten_mono; [|by eapply overwritten_later].
  apply terms_take. by destruct (ho_log _ _ _ Hh _ _ HL) as (_ & _ & _ & ? & _).
Qed.

Lemma chosen_mono T i : chosen h T i -> chosen h' T i.
Proof using Hx.
  intros (L & Q & HL & Hi & Ht & HQ & Hacks). destruct (ex_logs _ _ Hx _ _ HL) as (L' & HL' & Hp).
  exists L', Q. pose proof (prefix_length _ _ Hp). split_and!; try done; try lia.
  - by rewrite <- (term_at_prefix L L') by (done || lia).
  - intros f Hf. by apply acked_mono, Hacks.
Qed.

Lemma committed_mono t t' p : t <= t' -> committed h t p -> committed h' t' p.
Proof using Hx.
  intros Ht [->|(T & i & L & HT & Hc & HL & Hp)]; [by left|right].
  destruct (ex_logs _ _ Hx _ _ HL) as (L' & HL' & Hp'). exists T, i, L'.
  split_and!; [lia|by apply chosen_mono|done|].
  destruct Hc as (M & Q & HM & Hi & _). assert (M = L) as -> by congruence.
  by rewrite (take_prefix_take L L' i) by (done || lia).
Qed.

Lemma request_ok_mono r : request_ok members h r -> request_ok members h' r.
Proof using Hx.
  intros (L & HL & Hlen & Hpt & Hes & Hend & Hc & Hcom).
  destruct (ex_logs _ _ Hx _ _ HL) as (L' & HL' & Hp). exists L'. cbn.
  pose proof (prefix_length _ _ Hp). split_and!; try done; try lia.
  - rewrite Hpt. apply term_at_prefix; [done|lia].
  - rewrite Hes at 1. destruct Hp as [k ->]. rewrite drop_app_le by lia.
    rewrite take_app_le; [done|]. rewrite length_drop. lia.
  - rewrite <- Hend. symmetry. apply term_at_prefix; [done|lia].
  - rewrite (take_prefix_take L L') by done. by eapply committed_mono.
Qed.

Lemma applied_ok_mono e : applied_ok members h e -> applied_ok members h' e.
Proof using Hx.
  intros (T & i & L & j & Hc & HL & Hj & He & Hix).
  destruct (ex_logs _ _ Hx _ _ HL) as (L' & HL' & Hp). exists T, i, L', j.
  split_and!; try done; [by apply chosen_mono|by eapply prefix_lookup_Some].
Qed.

Lemma said_ok_mono a : said_ok h a -> said_ok h' a.
Proof using Hx.
  destruct a; cbn; auto using request_ok_mono, applied_ok_mono.
  - intros (k & Hk & ?). exists k. split; [by eapply lookup_weaken, ex_candidates|done].
  - intros H Hg. destruct (H Hg) as [l Hl]. exists l. by eapply lookup_weaken, ex_ballots.
  - intros H Hs. by eapply ex_acks, H.
Qed.

Lemma acked_late x T i U v : is_Some (h_ballots h !! (x, U, v)) -> acked h' x T i -> T < U -> acked h x T i.
Proof using Hx.
  intros [l Hl] (j & Hj & Hi) HTU. destruct (ex_late _ _ Hx _ _ _ Hj) as [?|Hlate]; [by exists j|].
  assert (U <= T); [|lia]. apply (Hlate U v). by exists l.
Qed.

Lemma elected_mono T L L' el : L `prefix_of` L' ->
  (forall i e, L' !! i = Some e -> (length L <= i)%nat -> Term e = T) ->
  elected h T L el -> elected h' T L' el.
Proof using Hh Hx.
  intros Hp Hnew [Hc Hb Hm Ho Hq Hv]. pose proof (prefix_length _ _ Hp). split; try done; try lia.
  - by eapply lookup_weaken, ex_candidates.
  - by etrans.
  - intros i e He Hi. destruct (decide (i < length L)%nat) as [Hlt|]; [|apply (Hnew i); [done|lia]].
    apply (Ho i); [|done]. destruct Hp as [k ->]. by rewrite lookup_app_l in He.
  - intros x l Hl. destruct (Hv x l Hl) as [Hbal Hk].
    split; [by eapply lookup_weaken, ex_ballots|]. intros T' i Ha HT.
    eapply kept_mono; [done|done|]. apply Hk; [|done]. by eapply acked_late.
Qed.

(** A disk stays right when what is newly recorded of its Node is true of it. *)
Lemma disk_ok_mono f d :
  (forall T j, (f, T, j) ∈ h_acks h' -> (f, T, j) ∈ h_acks h \/
     (dk_term d = T /\ aligned h' T (dk_log d) /\ (j <= length (dk_log d))%nat)) ->
  (forall U, is_Some (h_candidates h' !! (f, U)) -> is_Some (h_candidates h !! (f, U)) \/ U = dk_term d) ->
  (forall U v, is_Some (h_ballots h' !! (f, U, v)) -> is_Some (h_ballots h !! (f, U, v)) \/
     (U = dk_term d /\ v = dk_vote d)) ->
  disk_ok h f d -> disk_ok h' f d.
Proof using Hh Hx.
  intros Ha Hc Hb [Hvt Hl Ht Hcm Hco Hak Hca Hba]. split; [done|by apply log_ok_mono|done|done|by eapply committed_mono|..].
  - intros T i (j & Hj & Hi). destruct (Ha T j Hj) as [Hold|(HT & Hal & Hle)].
    + destruct (Hak T i) as (HT & Hk & Hal); [by exists j|]. split_and!; [done| |intros Heq; by apply aligned_mono, Hal].
      by eapply (kept_mono T i _ _ _ _ (N.le_refl _) (reflexivity _)).
    + split_and!; [lia| |done]. destruct Hal as (L & HL & Hp). exists L. pose proof (prefix_length _ _ Hp).
      split_and!; [done|lia|left]. rewrite (take_prefix_take (dk_log d) L) by (done || lia). apply prefix_take.
  - intros U [?| ->]%Hc; [auto|lia].
  - intros U v [?|?]%Hb; auto.
Qed.
End Mono.

Definition log_new (h : history) (T : N) (L : list LogEntry) : Prop :=
  0 < T /\ log_ok h L /\ sorted_terms L /\ Forall (fun e => Term e <= T) L /\
  numbered Index 1 L /\ Forall good L /\ exists el, h_elections h !! T = Some el /\ elected h T L el.

Definition candidate_new (h : history) (v : string) (U : N) (k : list LogEntry) : Prop :=
  v ∈ members /\ 0 < U /\ log_ok h k /\ Forall (fun e => Term e < U) k.

Definition ballot_new (h : history) (x : string) (U : N) (v : string) (l : list LogEntry) : Prop :=
  x ∈ members /\ log_ok h l /\ (exists k, h_candidates h !! (v, U) = Some k /\ upToDate k l) /\
  (forall T i, acked h x T i -> T < U -> kept h T i U l) /\
  (forall v', is_Some (h_ballots h !! (x, U, v')) -> v' = v).

Definition ack_new (h : history) (T : N) (j : nat) : Prop :=
  exists L, h_logs h !! T = Some L /\ (j <= length L)%nat.

(** A history that grows by right records stays right. *)
Lemma history_grows h h' : history_ok h -> extends h h' ->
  (forall T L, h_logs h' !! T = Some L -> h_logs h !! T = Some L \/ log_new h' T L) ->
  (forall T, is_Some (h_elections h' !! T) -> is_Some (h_elections h !! T) \/ is_Some (h_logs h' !! T)) ->
  (forall v U k, h_candidates h' !! (v, U) = Some k -> h_candidates h !! (v, U) = Some k \/ candidate_new h' v U k) ->
  (forall x U v l, h_ballots h' !! (x, U, v) = Some l ->
     h_ballots h !! (x, U, v) = Some l \/ ballot_new h' x U v l) ->
  (forall f T j, (f, T, j) ∈ h_acks h' -> (f, T, j) ∈ h_acks h \/ ack_new h' T j) ->
  history_ok h'.
Proof.
  intros Hh Hx Hlog Hel Hcand Hbal Hack. split.
  - intros T L [HL|Hn]%Hlog; [|unfold log_new in *; naive_solver].
    destruct (ho_log _ _ _ Hh _ _ HL) as (? & ? & ? & ? & ? & ?). split_and!; try done. by eapply log_ok_mono.
  - intros T L HL. destruct (Hlog _ _ HL) as [HL0|Hn]; [|unfold log_new in *; naive_solver].
    destruct (ho_elected _ _ _ Hh _ _ HL0) as (el & He & Hok). exists el.
    split; [by eapply lookup_weaken, ex_elections|]. eapply (elected_mono Hh Hx); [reflexivity| |done].
    intros i e He' Hi. apply lookup_lt_Some in He'. lia.
  - intros T [H|H]%Hel; [|done]. destruct (ho_leads _ _ _ Hh _ H) as [L HL].
    destruct (ex_logs _ _ Hx _ _ HL) as (L' & HL' & _). eauto.
  - intros v U k [Hk|Hn]%Hcand; [|done].
    destruct (ho_candidate _ _ _ Hh _ _ _ Hk) as (? & ? & ? & ?). split_and!; try done. by eapply log_ok_mono.
  - intros x U v l [Hl|Hn]%Hbal; [|unfold ballot_new in *; naive_solver].
    destruct (ho_ballot _ _ _ Hh _ _ _ _ Hl) as (Hx' & Hlo & (k & Hk & Hup) & Hkept). split_and!; [done|..].
    + by eapply log_ok_mono.
    + exists k. split; [by eapply lookup_weaken, ex_candidates|done].
    + intros T i Ha HT. eapply (kept_mono Hh Hx _ _ U U l l); [done|done|].
      apply Hkept; [|done]. by eapply (acked_late Hx).
  - intros x U v v' [l Hl] [l' Hl'].
    destruct (Hbal _ _ _ _ Hl) as [H|(_ & _ & _ & _ & H)]; [|symmetry; apply H; eauto].
    destruct (Hbal _ _ _ _ Hl') as [H'|(_ & _ & _ & _ & H')]; [|apply H'; eauto].
    by eapply (ho_vote _ _ _ Hh); eexists.
  - intros f T j [Hj|Hn]%Hack; [|done]. destruct (ho_ack _ _ _ Hh _ _ _ Hj) as (L & HL & Hle).
    destruct (ex_logs _ _ Hx _ _ HL) as (L' & HL' & Hp). exists L'. split; [done|].
    apply prefix_length in Hp. lia.
Qed.

(** What changes when only Node [f] acts. *)
Record local (f : string) (h h' : history) : Prop := {
  lc_logs T : h_logs h' !! T = h_logs h !! T \/
    exists el, h_elections h' !! T = Some el /\ el_owner el = f;
  lc_elections T el : h_elections h' !! T = Some el -> h_elections h !! T = Some el \/ el_owner el = f;
  lc_candidates g U : is_Some (h_candidates h' !! (g, U)) -> g = f \/ is_Some (h_candidates h !! (g, U));
  lc_ballots x U v : is_Some (h_ballots h' !! (x, U, v)) -> x = f \/ is_Some (h_ballots h !! (x, U, v));
  lc_acks g T j : (g, T, j) ∈ h_acks h' -> g = f \/ (g, T, j) ∈ h_acks h }.

Lemma local_trans f h1 h2 h3 : extends h2 h3 -> local f h1 h2 -> local f h2 h3 -> local f h1 h3.
Proof.
  intros Hx [Hl He Hc Hb Ha] [Hl' He' Hc' Hb' Ha']. split.
  - intros T. destruct (Hl' T) as [->|?]; [|by right].
    destruct (Hl T) as [->|(el & Hel & ?)]; [by left|right].
    exists el. split; [by eapply lookup_weaken, ex_elections|done].
  - intros T el [?%He|?]%He'; auto.
  - intros g U [?|?%Hc]%Hc'; auto.
  - intros x U v [?|?%Hb]%Hb'; auto.
  - intros g T j [?|?%Ha]%Ha'; auto.
Qed.

Lemma local_refl f h : local f h h.
Proof. split; auto. Qed.

End Steps.
