(* ===== verification/ReplicationMoves.v ===== *)
(** What a Node adds to the history: a candidacy, a vote, an election, entries of a
    Leader, an acknowledgement.  Each is right when the Node's disk justifies it. *)

From S2P Require Import Prelude RaftTypes Replication ReplicationSteps.

Section Moves.
Context (members : list string) (members_nodup : NoDup members) (good : LogEntry -> Prop).
Context (members_named : "" ∉ members).

#[local] Abbreviation history_ok := (history_ok members good).
#[local] Abbreviation disk_ok := (disk_ok members).
#[local] Abbreviation chosen := (chosen members).
#[local] Abbreviation committed := (committed members).
#[local] Abbreviation majority := (majority members).

(** Node [f], whose disk is [d], adds to the history. *)
Record advance (f : string) (d : disk) (h h' : history) : Prop := {
  av_extends : extends h h';
  av_local : local f h h';
  av_history : history_ok h';
  av_disk : disk_ok h' f d }.

Lemma advance_refl f d h : history_ok h -> disk_ok h f d -> advance f d h h.
Proof. split; [reflexivity|apply local_refl|done|done]. Qed.

Lemma advance_trans f d h1 h2 h3 : advance f d h1 h2 -> advance f d h2 h3 -> advance f d h1 h3.
Proof. intros [] []. split; [by etrans|by eapply local_trans|done|done]. Qed.

(** ** Acknowledgements *)

Definition with_ack (f : string) (T : N) (j : nat) (h : history) : history :=
  h <| h_acks := (f, T, j) :: h_acks h |>.

Lemma acknowledge f d h T L j :
  history_ok h -> disk_ok h f d -> dk_term d = T -> h_logs h !! T = Some L ->
  dk_log d `prefix_of` L -> (j <= length (dk_log d))%nat -> advance f d h (with_ack f T j h).
Proof.
  intros Hh Hd Ht HL Hp Hj.
  assert (Hx : extends h (with_ack f T j h)).
  { split; cbn; eauto.
    - intros a. by right.
    - intros x T' j'. rewrite elem_of_cons. intros [[= -> -> ->]|?]; [right|by left].
      intros U v Hb. destruct (do_ballot _ _ _ _ Hd _ _ Hb) as [?|[? _]]; lia. }
  split; [done| | |].
  - split; cbn; auto. intros g T' j'. rewrite elem_of_cons. intros [[= -> -> ->]|?]; auto.
  - eapply (history_grows members good); try done; cbn; auto.
    intros g T' j'. rewrite elem_of_cons. intros [[= -> -> ->]|?]; [right|by left].
    exists L. split; [done|]. apply prefix_length in Hp. lia.
  - apply (disk_ok_mono members good Hh Hx); cbn; auto. intros T' j'. rewrite elem_of_cons.
    intros [[= -> ->]|?]; [right|by left]. split_and!; try done. by exists L.
Qed.

(** ** Candidacies and votes *)

Definition with_candidate (f : string) (U : N) (k : list LogEntry) (h : history) : history :=
  h <| h_candidates := <[(f, U) := k]> (h_candidates h) |>.

Definition with_ballot (x : string) (U : N) (v : string) (l : list LogEntry) (h : history) : history :=
  h <| h_ballots := <[(x, U, v) := l]> (h_ballots h) |>.

Lemma stand f d h U :
  history_ok h -> disk_ok h f d -> f ∈ members -> 0 < U -> dk_term d = U ->
  Forall (fun e => Term e < U) (dk_log d) -> h_candidates h !! (f, U) = None ->
  advance f d h (with_candidate f U (dk_log d) h).
Proof.
  intros Hh Hd Hf HU Ht Hts Hno.
  assert (Hx : extends h (with_candidate f U (dk_log d) h)).
  { split; cbn; eauto. by apply insert_subseteq. }
  assert (Hnew : forall g W, is_Some (<[(f, U) := dk_log d]> (h_candidates h) !! (g, W)) ->
    (g = f /\ W = U) \/ is_Some (h_candidates h !! (g, W))).
  { intros g W. destruct (decide ((f, U) = (g, W))) as [[= -> ->]|]; [auto|]. rewrite lookup_insert_ne by done. auto. }
  split; [done| | |].
  - split; cbn; auto. intros g W [[-> _]|?]%Hnew; auto.
  - eapply (history_grows members good); try done; cbn; auto.
    intros v W k. destruct (decide ((f, U) = (v, W))) as [[= -> ->]|Hne].
    + rewrite lookup_insert_eq. intros [= <-]. right. unfold candidate_new. split_and!; try done.
      eapply log_ok_mono; [done|by apply Hd].
    + rewrite lookup_insert_ne by done. by left.
  - apply (disk_ok_mono members good Hh Hx); cbn; auto. intros W [[_ ->]|?]%Hnew; auto.
Qed.

Lemma vote f d h U v k :
  history_ok h -> disk_ok h f d -> f ∈ members -> dk_term d = U -> dk_vote d = v ->
  h_candidates h !! (v, U) = Some k -> upToDate k (dk_log d) ->
  exists h', advance f d h h' /\ is_Some (h_ballots h' !! (f, U, v)) /\ h_logs h' = h_logs h /\
    h_elections h' = h_elections h /\ h_candidates h' = h_candidates h /\ h_acks h' = h_acks h.
Proof.
  intros Hh Hd Hf Ht Hv Hk Hup. destruct (h_ballots h !! (f, U, v)) as [l|] eqn:Hno.
  { exists h. split_and!; try done. by apply advance_refl. }
  exists (with_ballot f U v (dk_log d) h). cbn. rewrite lookup_insert_eq. split_and!; [|done..].
  assert (Hx : extends h (with_ballot f U v (dk_log d) h)).
  { split; cbn; eauto. by apply insert_subseteq. }
  assert (Hnew : forall g W y, is_Some (<[(f, U, v) := dk_log d]> (h_ballots h) !! (g, W, y)) ->
    (g = f /\ W = U /\ y = v) \/ is_Some (h_ballots h !! (g, W, y))).
  { intros g W y. destruct (decide ((f, U, v) = (g, W, y))) as [[= -> -> ->]|]; [auto|].
    rewrite lookup_insert_ne by done. auto. }
  assert (Hkept : forall T i, acked h f T i -> kept (with_ballot f U v (dk_log d) h) T i U (dk_log d)).
  { intros T i Hak. destruct (do_acks _ _ _ _ Hd T i Hak) as (_ & Hk' & _).
    rewrite Ht in Hk'. by eapply (kept_mono members good Hh Hx _ _ _ _ _ _ (N.le_refl _) (reflexivity _)). }
  split; [done| | |].
  - split; cbn; auto. intros g W y [(-> & _)|?]%Hnew; auto.
  - eapply (history_grows members good); try done; cbn; auto.
    intros x W y l. destruct (decide ((f, U, v) = (x, W, y))) as [[= -> -> ->]|Hne].
    + rewrite lookup_insert_eq. intros [= <-]. right. unfold ballot_new. split_and!; [done| |by exists k|auto|].
      * eapply log_ok_mono; [done|by apply Hd].
      * cbn. intros y' [(_ & _ & ?)|Hb]%Hnew; [done|].
        destruct (do_ballot _ _ _ _ Hd _ _ Hb) as [?|[_ ?]]; [lia|congruence].
    + rewrite lookup_insert_ne by done. by left.
  - apply (disk_ok_mono members good Hh Hx); cbn; auto. intros W y [(_ & -> & ->)|?]%Hnew; auto.
Qed.

(** ** Leaders *)

Definition with_log (T : N) (L : list LogEntry) (h : history) : history :=
  h <| h_logs := <[T := L]> (h_logs h) |>.

Definition with_election (T : N) (el : election) (L : list LogEntry) (h : history) : history :=
  with_log T L h <| h_elections := <[T := el]> (h_elections h) |>.

Lemma terms_snoc l es T : sorted_terms l -> Forall (fun e => Term e <= T) l ->
  Forall (fun e => Term e = T) es -> sorted_terms (l ++ es).
Proof.
  intros Hs Hl He i j a b Hij Ha Hb. rewrite !lookup_app in *. rewrite Forall_lookup in Hl, He.
  destruct (l !! i) as [a'|] eqn:Hi, (l !! j) as [b'|] eqn:Hj.
  - simplify_eq. by eapply (Hs i j).
  - simplify_eq. rewrite (He _ _ Hb). by eapply Hl.
  - apply lookup_ge_None in Hi. apply lookup_lt_Some in Hj. lia.
  - by rewrite (He _ _ Ha), (He _ _ Hb).
Qed.

(** Entries appended in the term of the Leader. *)
Lemma log_ok_append h T l es : log_ok h l -> Forall (fun e => Term e = T) es ->
  h_logs h !! T = Some (l ++ es) -> log_ok h (l ++ es).
Proof.
  intros Hl He HT i e Hi. rewrite lookup_app in Hi. destruct (l !! i) as [a|] eqn:Ha.
  - injection Hi as ->. destruct (Hl _ _ Ha) as (L & HL & Hp). exists L. split; [done|].
    apply lookup_lt_Some in Ha. by rewrite take_app_le by lia.
  - exists (l ++ es). rewrite Forall_lookup in He. rewrite (He _ _ Hi). split; [done|apply prefix_take].
Qed.

(** The records behind a majority of granted votes. *)
Definition voters (h : history) (T : N) (f : string) (Q : gset string) : gmap string (list LogEntry) :=
  map_imap (fun x _ => h_ballots h !! (x, T, f)) (gset_to_gmap tt Q).

Lemma voters_lookup h T f Q x l : voters h T f Q !! x = Some l -> h_ballots h !! (x, T, f) = Some l.
Proof.
  unfold voters. rewrite map_lookup_imap, lookup_gset_to_gmap.
  destruct (decide (x ∈ Q)); [rewrite option_guard_True by done; done|by rewrite option_guard_False].
Qed.

Lemma voters_dom h T f Q : (forall x, x ∈ Q -> is_Some (h_ballots h !! (x, T, f))) -> dom (voters h T f Q) = Q.
Proof.
  intros HQ. apply set_eq. intros x. rewrite elem_of_dom. unfold voters.
  rewrite map_lookup_imap, lookup_gset_to_gmap. split.
  - intros [l Hl]. destruct (decide (x ∈ Q)); [done|by rewrite option_guard_False in Hl].
  - intros Hx. rewrite option_guard_True by done. by apply HQ.
Qed.

Lemma no_log h T : history_ok h -> h_elections h !! T = None -> h_logs h !! T = None.
Proof.
  intros Hh He. destruct (h_logs h !! T) as [L|] eqn:HL; [|done].
  destruct (ho_elected _ _ _ Hh _ _ HL) as (el & ? & _). congruence.
Qed.

(** Nobody else was elected in the term of a majority of votes. *)
Lemma election_fresh h T f Q : history_ok h -> majority Q ->
  (forall x, x ∈ Q -> is_Some (h_ballots h !! (x, T, f))) ->
  (forall el, h_elections h !! T = Some el -> el_owner el <> f) -> h_elections h !! T = None.
Proof.
  intros Hh HQ Hb Hno. destruct (h_elections h !! T) as [el|] eqn:He; [exfalso|done].
  destruct (ho_leads _ _ _ Hh T) as [L HL]; [by eauto|].
  destruct (ho_elected _ _ _ Hh _ _ HL) as (el' & He' & Hel). assert (el' = el) as -> by congruence.
  destruct (quorums_meet members members_nodup _ _ HQ (ec_majority _ _ _ _ _ Hel)) as (x & HxQ & Hx).
  apply elem_of_dom in Hx as [l Hx]. destruct (ec_voters _ _ _ _ _ Hel _ _ Hx) as [Hb' _].
  apply (Hno el eq_refl). by eapply (ho_vote _ _ _ Hh x T); [eexists|apply Hb].
Qed.

Lemma elect f d h T Q x :
  history_ok h -> disk_ok h f d -> dk_term d = T -> h_candidates h !! (f, T) = Some (dk_log d) ->
  majority Q -> (forall y, y ∈ Q -> is_Some (h_ballots h !! (y, T, f))) ->
  h_elections h !! T = None -> Term x = T -> numbered Index 1 (dk_log d ++ [x]) -> good x ->
  advance f d h (with_election T (mkElection f (dk_log d) (voters h T f Q)) (dk_log d ++ [x]) h).
Proof.
  intros Hh Hd Ht Hc HQ Hb He Hx Hnum Hgood. pose proof (no_log h T Hh He) as HL.
  destruct (ho_candidate _ _ _ Hh _ _ _ Hc) as (_ & Hpos & Hlog & Hts).
  set (h' := with_election _ _ _ _).
  assert (Hxt : extends h h').
  { split; cbn; eauto.
    - intros U M HU. exists M. rewrite lookup_insert_ne by congruence. done.
    - by apply insert_subseteq. }
  split; [done| | |].
  - split; cbn; auto.
    + intros U. destruct (decide (T = U)) as [->|]; [right|left; by rewrite lookup_insert_ne].
      eexists. rewrite lookup_insert_eq. by split.
    + intros U el. destruct (decide (T = U)) as [->|]; [|rewrite lookup_insert_ne by done; auto].
      rewrite lookup_insert_eq. intros [= <-]. by right.
  - eapply (history_grows members good); try done; cbn; auto.
    + intros U M. destruct (decide (T = U)) as [<-|]; [|rewrite lookup_insert_ne by done; auto].
      rewrite lookup_insert_eq. intros [= <-]. right.
      assert (Hle : Forall (fun e => Term e <= T) (dk_log d)) by (eapply Forall_impl; [done|]; cbn; lia).
      unfold log_new. split_and!; [done|..].
      * apply (log_ok_append h' T); [by eapply log_ok_mono|by repeat constructor|by apply lookup_insert_eq].
      * apply (terms_snoc _ _ T); [by eapply log_ok_sorted|done|by repeat constructor].
      * apply Forall_app. split; [done|]. repeat constructor. lia.
      * done.
      * apply Forall_app. split; [by eapply log_ok_good|by repeat constructor].
      * eexists. split; [by apply lookup_insert_eq|]. split; cbn; try done.
        -- by exists [x].
        -- rewrite length_app. cbn. lia.
        -- intros i e Hi Hge. rewrite lookup_app_r in Hi by done.
           apply list_lookup_singleton_Some in Hi as [_ <-]. done.
        -- by rewrite voters_dom.
        -- intros y l Hy%voters_lookup. split; [done|]. intros T' i Ha HT.
           destruct (ho_ballot _ _ _ Hh _ _ _ _ Hy) as (_ & _ & _ & Hk). specialize (Hk T' i Ha HT).
           eapply (kept_mono members good Hh Hxt _ _ (T - 1) (T - 1) l l); [done|done|].
           destruct Hk as (M & HM & Hi & Hor). exists M. split_and!; try done.
           destruct Hor as [?|(U & N' & ? & ? & HU & ?)]; [by left|right].
           exists U, N'. split_and!; try done. assert (U <> T) by congruence. lia.
    + intros U. destruct (decide (T = U)) as [<-|]; [|rewrite lookup_insert_ne by done; auto].
      rewrite !lookup_insert_eq. by right.
  - apply (disk_ok_mono members good Hh Hxt); cbn; auto.
Qed.

Lemma grow f d h T el es :
  history_ok h -> disk_ok h f d -> h_logs h !! T = Some (dk_log d) ->
  h_elections h !! T = Some el -> el_owner el = f -> Forall (fun e => Term e = T) es ->
  numbered Index (len (dk_log d) + 1) es -> Forall good es ->
  advance f d h (with_log T (dk_log d ++ es) h).
Proof.
  intros Hh Hd HL He Ho Hes Hnes Hges. destruct (ho_log _ _ _ Hh _ _ HL) as (Hpos & Hlog & Hs & Hts & Hnum & Hg).
  destruct (ho_elected _ _ _ Hh _ _ HL) as (el' & He' & Hel). assert (el' = el) as -> by congruence.
  set (h' := with_log _ _ _).
  assert (Hxt : extends h h').
  { split; cbn; eauto. intros U M HU. destruct (decide (T = U)) as [<-|].
    - eexists. rewrite lookup_insert_eq. split; [done|]. assert (M = dk_log d) as -> by congruence. by exists es.
    - exists M. rewrite lookup_insert_ne by done. done. }
  split; [done| | |].
  - split; cbn; auto. intros U. destruct (decide (T = U)) as [<-|]; [right; eauto|left; by rewrite lookup_insert_ne].
  - eapply (history_grows members good); try done; cbn; auto.
    intros U M. destruct (decide (T = U)) as [<-|]; [|rewrite lookup_insert_ne by done; auto].
    rewrite lookup_insert_eq. intros [= <-]. right. unfold log_new. split_and!; [done|..].
    + apply (log_ok_append h' T); [by eapply log_ok_mono|done|by apply lookup_insert_eq].
    + by apply (terms_snoc _ _ T).
    + apply Forall_app. split; [done|]. eapply Forall_impl; [exact Hes|]. cbn. lia.
    + apply numbered_app. by rewrite (N.add_comm 1).
    + by apply Forall_app.
    + exists el. split; [done|]. eapply (elected_mono members good Hh Hxt); [by exists es| |done].
      intros i e. intros Hi Hge. rewrite lookup_app_r in Hi by done. by eapply (Forall_lookup_1 _ _ _ _ Hes).
  - apply (disk_ok_mono members good Hh Hxt); cbn; auto.
Qed.

(** ** Disks *)

Lemma disk_bump h f d t v : history_ok h -> disk_ok h f d -> v = "" \/ v ∈ members ->
  dk_term d < t \/ (dk_term d = t /\ (dk_vote d = "" \/ dk_vote d = v)) ->
  disk_ok h f (mkDisk t v (dk_log d) (dk_commit d)).
Proof.
  intros Hh [Hvt Hl Hts Hc Hco Ha Hca Hba] Hvm Hf.
  assert (Hle : dk_term d <= t) by (destruct Hf as [?|[? _]]; lia).
  split; cbn; [done|done| |done|..].
  - eapply Forall_impl; [done|]. cbn. lia.
  - by eapply (committed_mono members (reflexivity h)).
  - intros T i Hak. destruct (Ha T i Hak) as (HT & Hk & Hal). split_and!; [lia| |].
    + by eapply (kept_mono members good Hh (reflexivity h) _ _ _ _ _ _ Hle (reflexivity _)).
    + intros ->. apply Hal. lia.
  - intros U HU. specialize (Hca U HU). lia.
  - intros U y Hb. destruct (Hba U y Hb) as [?|[-> ->]]; [left; lia|].
    destruct Hf as [?|[? [Hv|Hv]]]; [by left| |by right].
    exfalso. destruct Hb as [l Hb]. destruct (ho_ballot _ _ _ Hh _ _ _ _ Hb) as (_ & _ & (k & Hk & _) & _).
    destruct (ho_candidate _ _ _ Hh _ _ _ Hk) as (? & _). congruence.
Qed.

(** A Node that takes entries of its Leader's log without losing any that it has keeps its promises. *)
Lemma disk_adopt h f d L l : history_ok h -> disk_ok h f d -> h_logs h !! dk_term d = Some L ->
  l `prefix_of` L -> (forall p, p `prefix_of` dk_log d -> p `prefix_of` L -> p `prefix_of` l) ->
  disk_ok h f (mkDisk (dk_term d) (dk_vote d) l (dk_commit d)).
Proof.
  intros Hh [Hvt Hl Hts Hc Hco Ha Hca Hba] HL Hp Hkeep.
  destruct (ho_log _ _ _ Hh _ _ HL) as (_ & HlL & _ & HtL & _).
  assert (Hcl : take (dk_commit d) (dk_log d) `prefix_of` l).
  { apply Hkeep; [apply prefix_take|]. by eapply committed_in_leader. }
  assert (Hle : (dk_commit d <= length l)%nat).
  { apply prefix_length in Hcl. rewrite length_take in Hcl. lia. }
  split; cbn; [done|by eapply log_ok_prefix| |done| |..|done|done].
  - destruct Hp as [k ->]. by apply Forall_app in HtL as [? _].
  - replace (take (dk_commit d) l) with (take (dk_commit d) (dk_log d)); [done|].
    destruct Hcl as [k Hk]. rewrite Hk, take_app_le by (rewrite length_take; lia).
    by rewrite take_take, Nat.min_id.
  - intros T i Hak. destruct (Ha T i Hak) as (HT & (M & HM & Hi & Hor) & Hal).
    split_and!; [done| |intros <-; by exists L]. exists M. split_and!; try done.
    destruct Hor as [Hin|Hov]; [|by right].
    destruct (decide (T = dk_term d)) as [->|].
    + left. apply Hkeep; [done|]. assert (M = L) as -> by congruence. apply prefix_take.
    + destruct (decide (take i M `prefix_of` L)) as [?|Hno]; [left; by apply Hkeep|right].
      exists (dk_term d), L. split_and!; try done. lia.
Qed.

Lemma committed_prefix h t p q : p `prefix_of` q -> committed h t q -> committed h t p.
Proof.
  intros Hp [->|(T & i & L & ? & ? & ? & Hq)]; [left; by apply prefix_nil_inv|right].
  exists T, i, L. split_and!; try done. by etrans.
Qed.

Lemma disk_commit_to h f d c : disk_ok h f d -> (c <= length (dk_log d))%nat ->
  committed h (dk_term d) (take c (dk_log d)) ->
  disk_ok h f (mkDisk (dk_term d) (dk_vote d) (dk_log d) c).
Proof. intros [] ? ?. by split. Qed.

(** Logs that agree on the term of an entry agree up to it. *)
Lemma log_matching h l L i : history_ok h -> log_ok h l -> log_ok h L ->
  (i <= length l)%nat -> (i <= length L)%nat -> term_at l i = term_at L i -> take i l = take i L.
Proof.
  intros Hh Hl HL Hil HiL Ht. destruct i as [|i]; [done|].
  destruct (lookup_lt_is_Some_2 l i) as [a Ha]; [lia|].
  destruct (lookup_lt_is_Some_2 L i) as [b Hb]; [lia|].
  rewrite (term_at_lookup _ _ _ Ha), (term_at_lookup _ _ _ Hb) in Ht.
  destruct (Hl _ _ Ha) as (M & HM & Hp). destruct (HL _ _ Hb) as (M' & HM' & Hp').
  rewrite Ht in HM. assert (M' = M) as -> by congruence.
  destruct (prefix_weak_total (take (S i) l) (take (S i) L) M) as [H|H]; [done..| |].
  - apply prefix_length_eq; [done|]. rewrite !length_take. lia.
  - symmetry. apply prefix_length_eq; [done|]. rewrite !length_take. lia.
Qed.

(** What a Leader counts on a majority is chosen. *)
Lemma counted_chosen h f T L Q i (stored : string -> nat) :
  h_logs h !! T = Some L -> (0 < i <= length L)%nat -> term_at L i = T -> majority Q ->
  (f, T, length L) ∈ h_acks h -> (forall g, (0 < stored g)%nat -> (g, T, stored g) ∈ h_acks h) ->
  (forall g, g ∈ Q -> g = f \/ (i <= stored g)%nat) -> chosen h T i.
Proof.
  intros HL Hi Ht HQ Hself Hst Hm. exists L, Q. split_and!; try done; try lia.
  intros g Hg. destruct (Hm g Hg) as [->|Hle].
  - exists (length L). split; [done|lia].
  - exists (stored g). split; [apply Hst; lia|done].
Qed.
End Moves.
