(* ===== verification/Session.v ===== *)
(** The replicated state machine of [internal/node/session.go] and its capture
    and restoration in [internal/node/snapshot.go]: Client Sessions that make
    every mutation take effect exactly once, and the Key-Value map. *)

From S2P Require Import Prelude RaftTypes.

(** ** Data *)

Inductive sessionFailure :=
| sessionSucceeded | sessionLimitReached | sessionUnknown | sessionClosed
| sessionAlreadyExists | sessionStaleSequence | sessionOutOfOrderSequence.

Inductive sessionState := sessionActive | sessionPermanentlyClosed.

#[export] Instance sessionFailure_eq_dec : EqDecision sessionFailure.
Proof. solve_decision. Defined.
#[export] Instance sessionState_eq_dec : EqDecision sessionState.
Proof. solve_decision. Defined.

Record proposalResult := mkProposalResult {
  res_sessionID : SessionID; res_failure : sessionFailure; res_sequence : N;
  res_wantSequence : N; res_leaderID : NodeID; res_rejected : bool; res_existed : bool }.

Record sessionRecord := mkSessionRecord {
  sr_state : sessionState; sr_lastSequence : N; sr_lastMutationResult : sessionFailure;
  sr_lastDeleteExisted : bool }.

Record sessionMachine := mkSessionMachine {
  sm_limit : Z; sm_active : Z;
  sm_sessions : gmap SessionID sessionRecord; sm_values : gmap string (list byte) }.

#[export] Instance proposalResult_eq_dec : EqDecision proposalResult.
Proof. solve_decision. Defined.
#[export] Instance sessionRecord_eq_dec : EqDecision sessionRecord.
Proof. solve_decision. Defined.

#[export] Instance eta_result : Eta proposalResult :=
  fun r => mkProposalResult (res_sessionID r) (res_failure r) (res_sequence r)
             (res_wantSequence r) (res_leaderID r) (res_rejected r) (res_existed r).
#[export] Instance eta_record : Eta sessionRecord :=
  fun r => mkSessionRecord (sr_state r) (sr_lastSequence r) (sr_lastMutationResult r)
             (sr_lastDeleteExisted r).
#[export] Instance eta_machine : Eta sessionMachine :=
  fun m => mkSessionMachine (sm_limit m) (sm_active m) (sm_sessions m) (sm_values m).

Definition newResult (session : SessionID) (sequence : N) : proposalResult :=
  mkProposalResult session sessionSucceeded sequence 0 "" false false.

(** ** Operations *)

Definition newSessionMachine (limit : Z) : sessionMachine := mkSessionMachine limit 0 ∅ ∅.

(** The result of a mutation, and whether it is to be applied. *)
Definition evaluateMutation (m : sessionMachine) (session : SessionID) (sequence : N)
    : proposalResult * bool :=
  let result := newResult session sequence in
  match sm_sessions m !! session with
  | None => (result <| res_failure := sessionUnknown |>, false)
  | Some record =>
      if bool_decide (sr_state record = sessionPermanentlyClosed)
      then (result <| res_failure := sessionClosed |>, false)
      else if (sequence =? sr_lastSequence record) && negb (sequence =? 0)
      then (result <| res_failure := sr_lastMutationResult record |>
                   <| res_existed := sr_lastDeleteExisted record |>, false)
      else if sequence <? sr_lastSequence record
      then (result <| res_failure := sessionStaleSequence |>
                   <| res_wantSequence := sr_lastSequence record |>, false)
      else if negb (sequence =? sr_lastSequence record +! 1)
      then (result <| res_failure := sessionOutOfOrderSequence |>
                   <| res_wantSequence := sr_lastSequence record +! 1 |>, false)
      else (result, true)
  end.

(** Go reads of a missing key yield the zero record. *)
Definition recordOf (m : sessionMachine) (session : SessionID) : sessionRecord :=
  default (mkSessionRecord sessionActive 0 sessionSucceeded false) (sm_sessions m !! session).

Definition apply (m : sessionMachine) (entry : LogEntry) : proposalResult * sessionMachine :=
  let session := ESessionID entry in
  let result := newResult session 0 in
  match EType entry with
  | EntryNoOp => (result, m)
  | EntryOpenSession =>
      if bool_decide (is_Some (sm_sessions m !! session))
      then (result <| res_failure := sessionAlreadyExists |>, m)
      else if (sm_limit m <=? sm_active m)%Z
      then (result <| res_failure := sessionLimitReached |>, m)
      else (result, m <| sm_sessions := <[session := mkSessionRecord sessionActive 0 sessionSucceeded false]>
                                          (sm_sessions m) |>
                      <| sm_active := (sm_active m + 1)%Z |>)
  | EntryCloseSession =>
      match sm_sessions m !! session with
      | None => (result <| res_failure := sessionUnknown |>, m)
      | Some record =>
          if bool_decide (sr_state record = sessionPermanentlyClosed)
          then (result <| res_failure := sessionClosed |>, m)
          else (result, m <| sm_sessions := <[session := record <| sr_state := sessionPermanentlyClosed |>]>
                                              (sm_sessions m) |>
                          <| sm_active := (sm_active m - 1)%Z |>)
      end
  | EntrySet =>
      let '(result, doApply) := evaluateMutation m session (Sequence entry) in
      if negb doApply then (result, m)
      else
        let record := (recordOf m session) <| sr_lastSequence := Sequence entry |>
                        <| sr_lastMutationResult := res_failure result |>
                        <| sr_lastDeleteExisted := false |> in
        (result, m <| sm_values := <[Key entry := Value entry]> (sm_values m) |>
                   <| sm_sessions := <[session := record]> (sm_sessions m) |>)
  | EntryDelete =>
      let '(result, doApply) := evaluateMutation m session (Sequence entry) in
      if negb doApply then (result, m)
      else
        let existed := bool_decide (is_Some (sm_values m !! Key entry)) in
        let result := result <| res_existed := existed |> in
        let record := (recordOf m session) <| sr_lastSequence := Sequence entry |>
                        <| sr_lastMutationResult := res_failure result |>
                        <| sr_lastDeleteExisted := existed |> in
        (result, m <| sm_values := delete (Key entry) (sm_values m) |>
                   <| sm_sessions := <[session := record]> (sm_sessions m) |>)
  end.

(** [get]: the value (nil when missing) and whether the key exists. *)
Definition getValue (m : sessionMachine) (key : string) : list byte * bool :=
  (default [] (sm_values m !! key), bool_decide (is_Some (sm_values m !! key))).

(** Applying a committed prefix in order. *)
Definition applyAll (m : sessionMachine) (entries : list LogEntry) : sessionMachine :=
  foldl (fun m e => (apply m e).2) m entries.

(** ** Capture and restoration *)

(** The snapshot package's view of the machine. *)
Record snapIdentity := mkSnapIdentity {
  si_ClusterID : string; si_NodeID : string; si_MemberIDs : list string }.

Record snapSession := mkSnapSession {
  ss_ID : SessionID; ss_Closed : bool; ss_LastSequence : N; ss_LastResult : N;
  ss_LastDeleteExisted : bool }.

Record snapState := mkSnapState {
  sn_Identity : snapIdentity; sn_IncludedIndex : N; sn_IncludedTerm : N;
  sn_Values : gmap string (list byte); sn_Sessions : list snapSession }.

Definition failureCode (f : sessionFailure) : N :=
  match f with
  | sessionSucceeded => 0 | sessionLimitReached => 1 | sessionUnknown => 2 | sessionClosed => 3
  | sessionAlreadyExists => 4 | sessionStaleSequence => 5 | sessionOutOfOrderSequence => 6
  end.

Definition failureOf (code : N) : option sessionFailure :=
  match code with
  | 0 => Some sessionSucceeded | 1 => Some sessionLimitReached | 2 => Some sessionUnknown
  | 3 => Some sessionClosed | 4 => Some sessionAlreadyExists | 5 => Some sessionStaleSequence
  | 6 => Some sessionOutOfOrderSequence | _ => None
  end.

(** [bytes.Compare(a, b) <= 0] on equal-length identities. *)
Fixpoint bytes_leb (a b : list byte) : bool :=
  match a, b with
  | [], _ => true
  | _ :: _, [] => false
  | x :: a, y :: b =>
      if byte_to_N x <? byte_to_N y then true
      else if byte_to_N y <? byte_to_N x then false
      else bytes_leb a b
  end.

Definition session_le (a b : snapSession) : Prop := bytes_leb (ss_ID a) (ss_ID b) = true.
#[export] Instance session_le_dec a b : Decision (session_le a b).
Proof. unfold session_le. apply _. Defined.

Definition captureSession (id : SessionID) (record : sessionRecord) : snapSession :=
  mkSnapSession id (bool_decide (sr_state record = sessionPermanentlyClosed))
    (sr_lastSequence record) (failureCode (sr_lastMutationResult record))
    (sr_lastDeleteExisted record).

Definition snapshot (m : sessionMachine) (identity : snapIdentity) (index term : N) : snapState :=
  mkSnapState identity index term (sm_values m)
    (merge_sort session_le (map (fun p => captureSession p.1 p.2) (map_to_list (sm_sessions m)))).

(** The errors of [restore]. *)
Inductive restoreError := unknownResult (id : SessionID) (code : N) | tooManyActive (active : Z).

Definition restoreSession (saved : snapSession) : EM sessionMachine restoreError unit :=
  match failureOf (ss_LastResult saved) with
  | None => elift (Err (unknownResult (ss_ID saved) (ss_LastResult saved)))
  | Some failure =>
      let state := if ss_Closed saved then sessionPermanentlyClosed else sessionActive in
      let record := mkSessionRecord state (ss_LastSequence saved) failure
                      (ss_LastDeleteExisted saved) in
      emodify (fun m =>
        m <| sm_sessions := <[ss_ID saved := record]> (sm_sessions m) |>
          <| sm_active := if ss_Closed saved then sm_active m else (sm_active m + 1)%Z |>)
  end.

(** A failed restoration leaves the machine as far as it got. *)
Definition restore (state : option snapState) : EM sessionMachine restoreError unit :=
  match state with
  | None => eret tt
  | Some state =>
      do+ emodify (fun m => mkSessionMachine (sm_limit m) 0 ∅ (sn_Values state)) in
      do+ efor restoreSession (sn_Sessions state) in
      let+ m := eget in
      if (sm_limit m <? sm_active m)%Z then elift (Err (tooManyActive (sm_active m))) else eret tt
  end.
