(* ===== verification/SessionProps.v ===== *)
(** The replicated state machine against its contract: every mutation of a
    Client Session takes effect exactly once and in order, retries return the
    original result, closed sessions stay closed, the session limit holds, and a
    Snapshot restores the machine it was taken from. *)

From S2P Require Import Prelude RaftTypes Session.

(** ** The contract *)

Definition isMutation (e : LogEntry) : bool :=
  bool_decide (EType e = EntrySet) || bool_decide (EType e = EntryDelete).

(** Whether applying [e] changes the Key-Value map's history. *)
Definition effective (m : sessionMachine) (e : LogEntry) : bool :=
  isMutation e && (evaluateMutation m (ESessionID e) (Sequence e)).2.

(** The mutations of a committed log that take effect, in order. *)
Fixpoint effects (m : sessionMachine) (entries : list LogEntry) : list LogEntry :=
  match entries with
  | [] => []
  | e :: entries =>
      (if effective m e then [e] else []) ++ effects (apply m e).2 entries
  end.

(** A plain Key-Value store, with no sessions. *)
Definition rawApply (values : gmap string (list byte)) (e : LogEntry) : gmap string (list byte) :=
  match EType e with
  | EntrySet => <[Key e := Value e]> values
  | EntryDelete => delete (Key e) values
  | _ => values
  end.

Definition lastSequence (m : sessionMachine) (s : SessionID) : N := sr_lastSequence (recordOf m s).

Definition closedIn (m : sessionMachine) (s : SessionID) : Prop :=
  exists r, sm_sessions m !! s = Some r /\ sr_state r = sessionPermanentlyClosed.

Definition isActive (p : SessionID * sessionRecord) : Prop := sr_state p.2 = sessionActive.

Record machine_wf (m : sessionMachine) : Prop := {
  mw_active : sm_active m = Z.of_nat (size (filter isActive (sm_sessions m)));
  mw_limit : (sm_active m <= sm_limit m)%Z }.

(** [first, first+1, ...], [count] of them. *)
Fixpoint upFrom (first : N) (count : nat) : list N :=
  match count with O => [] | S count => first :: upFrom (first + 1) count end.

(** ** One entry *)

Lemma evaluate_true m s sequence r :
  evaluateMutation m s sequence = (r, true) ->
  r = newResult s sequence /\ sequence = lastSequence m s + 1 /\
  exists record, sm_sessions m !! s = Some record /\ sr_state record = sessionActive.
Proof.
  unfold evaluateMutation, lastSequence, recordOf. destruct (sm_sessions m !! s) as [record|]; [|done].
  destruct (bool_decide _) eqn:E1; [done|]. destruct (_ && _) eqn:E2; [done|].
  destruct (_ <? _) eqn:E3; [done|]. destruct (_ =? _ +! 1) eqn:E4; [|done]. cbn. intros [= <-].
  reflect_bools. split_and!; [done| |].
  - unfold u64 in E4. assert (sequence < two64) by (rewrite E4; apply N.mod_lt; done).
    destruct (N.eq_dec (sr_lastSequence record + 1) two64) as [Hw|].
    + rewrite Hw, N.Div0.mod_same in E4. unfold two64 in *. lia.
    + rewrite N.mod_small in E4 by (unfold two64 in *; lia). lia.
  - exists record. split; [done|]. by destruct (sr_state record).
Qed.

(** Case analysis on [apply]: an entry either leaves the machine alone, opens or
    closes its session, or is an effective mutation. *)
Inductive apply_case (m : sessionMachine) (e : LogEntry) : sessionMachine -> Prop :=
| case_same : effective m e = false -> apply_case m e m
| case_open :
    effective m e = false -> sm_sessions m !! ESessionID e = None -> (sm_active m < sm_limit m)%Z ->
    apply_case m e (m <| sm_sessions := <[ESessionID e := mkSessionRecord sessionActive 0 sessionSucceeded false]>
                                          (sm_sessions m) |> <| sm_active := (sm_active m + 1)%Z |>)
| case_close r :
    effective m e = false -> EType e = EntryCloseSession ->
    sm_sessions m !! ESessionID e = Some r -> sr_state r = sessionActive ->
    apply_case m e (m <| sm_sessions := <[ESessionID e := r <| sr_state := sessionPermanentlyClosed |>]>
                                          (sm_sessions m) |> <| sm_active := (sm_active m - 1)%Z |>)
| case_mutation r existed :
    effective m e = true -> sm_sessions m !! ESessionID e = Some r -> sr_state r = sessionActive ->
    Sequence e = sr_lastSequence r + 1 ->
    apply_case m e (m <| sm_values := rawApply (sm_values m) e |>
      <| sm_sessions := <[ESessionID e := mkSessionRecord sessionActive (Sequence e) sessionSucceeded existed]>
                          (sm_sessions m) |>).

Lemma apply_cases m e : apply_case m e (apply m e).2.
Proof.
  unfold apply. destruct (EType e) eqn:Et.
  - apply case_same. unfold effective, isMutation. by rewrite Et.
  - assert (Heff : effective m e = false) by (unfold effective, isMutation; by rewrite Et).
    destruct (bool_decide _) eqn:E1; [by apply case_same|].
    destruct (_ <=? _)%Z eqn:E2; [by apply case_same|]. apply case_open; [done| |lia].
    apply bool_decide_eq_false_1 in E1. by apply eq_None_not_Some.
  - assert (Heff : effective m e = false) by (unfold effective, isMutation; by rewrite Et).
    destruct (sm_sessions m !! ESessionID e) as [r|] eqn:El; [|by apply case_same].
    destruct (bool_decide _) eqn:E1; [by apply case_same|]. apply case_close; try done.
    apply bool_decide_eq_false_1 in E1. by destruct (sr_state r).
  - destruct (evaluateMutation m (ESessionID e) (Sequence e)) as [res [|]] eqn:Ee; cbn [negb].
    + assert (Heff : effective m e = true) by (unfold effective, isMutation; by rewrite Et, Ee).
      destruct (evaluate_true _ _ _ _ Ee) as (-> & Hseq & r & Hl & Hs).
      unfold lastSequence, recordOf in *. rewrite Hl in *. cbn in *.
      pose proof (case_mutation m e r false Heff Hl Hs Hseq) as Hcase.
      unfold rawApply in Hcase. rewrite Et in Hcase. destruct r as [[] ? ? ?]; [exact Hcase|done].
    + cbn [snd]. apply case_same. unfold effective, isMutation. by rewrite Et, Ee.
  - destruct (evaluateMutation m (ESessionID e) (Sequence e)) as [res [|]] eqn:Ee; cbn [negb].
    + assert (Heff : effective m e = true) by (unfold effective, isMutation; by rewrite Et, Ee).
      destruct (evaluate_true _ _ _ _ Ee) as (-> & Hseq & r & Hl & Hs).
      unfold lastSequence, recordOf in *. rewrite Hl in *. cbn in *.
      pose proof (case_mutation m e r (bool_decide (is_Some (sm_values m !! Key e))) Heff Hl Hs Hseq) as Hcase.
      unfold rawApply in Hcase. rewrite Et in Hcase. destruct r as [[] ? ? ?]; [exact Hcase|done].
    + cbn [snd]. apply case_same. unfold effective, isMutation. by rewrite Et, Ee.
Qed.

Lemma apply_values m e :
  sm_values (apply m e).2 = if effective m e then rawApply (sm_values m) e else sm_values m.
Proof. by destruct (apply_cases m e) as [->| ->|? ->|? ? ->]. Qed.

Lemma apply_lastSequence m e s :
  lastSequence (apply m e).2 s =
    lastSequence m s + (if effective m e && bool_decide (ESessionID e = s) then 1 else 0).
Proof.
  unfold lastSequence, recordOf.
  destruct (apply_cases m e) as [->| -> Hn _|r -> _ Hr _|r x -> Hr _ Hs]; cbn; try lia;
    (destruct (decide (ESessionID e = s)) as [<-|Hne];
     [rewrite lookup_insert_eq, ?Hn, ?Hr; cbn|rewrite lookup_insert_ne by done]).
  - lia.
  - lia.
  - lia.
  - lia.
  - rewrite bool_decide_true by done. lia.
  - rewrite bool_decide_false by done. lia.
Qed.

Lemma apply_wf m e : machine_wf m -> machine_wf (apply m e).2.
Proof.
  intros [Ha Hl]. destruct (apply_cases m e) as [|_ Hn Hlt|r _ _ Hr Hs|r x _ Hr Hs _]; [done|..];
    split; cbn [sm_active sm_sessions sm_limit set_with]; try lia.
  - cbn. rewrite map_filter_insert_True, map_size_insert_None; [lia| |done].
    by rewrite map_lookup_filter_None; left.
  - cbn. rewrite map_filter_insert_False by done.
    assert (He : filter isActive (sm_sessions m) !! ESessionID e = Some r)
      by (apply map_lookup_filter_Some; by split).
    rewrite map_filter_delete, map_size_delete_Some by (by exists r).
    assert (size (filter isActive (sm_sessions m)) <> 0)%nat; [|lia].
    apply map_size_non_empty_iff. intros E. by rewrite E in He.
  - cbn. rewrite map_filter_insert_True, map_size_insert_Some; [done| |done].
    exists r. apply map_lookup_filter_Some. by split.
Qed.

Lemma apply_closed m e s : closedIn m s -> closedIn (apply m e).2 s /\
  sm_sessions (apply m e).2 !! s = sm_sessions m !! s /\
  (effective m e = true -> ESessionID e <> s).
Proof.
  intros (r & Hr & Hs). unfold closedIn.
  destruct (apply_cases m e) as [He|He Hn _|r' He _ Hr' Hs'|r' x He Hr' Hs' _]; cbn;
    [by split_and!; [exists r| |rewrite He]|..];
    (destruct (decide (ESessionID e = s)) as [<-|Hne]; [exfalso; congruence|]);
    rewrite lookup_insert_ne by done; rewrite He; split_and!; try done; by exists r.
Qed.

(** ** Runs *)

Lemma applyAll_cons m e es : applyAll m (e :: es) = applyAll (apply m e).2 es.
Proof. done. Qed.

Lemma applyAll_app m es1 es2 : applyAll m (es1 ++ es2) = applyAll (applyAll m es1) es2.
Proof. unfold applyAll. apply foldl_app. Qed.

Lemma applyAll_wf m es : machine_wf m -> machine_wf (applyAll m es).
Proof. revert m. induction es as [|e es IH]; intros m Hm; [done|]. by apply IH, apply_wf. Qed.

Lemma new_machine_wf limit : (0 <= limit)%Z -> machine_wf (newSessionMachine limit).
Proof. intros H. by split. Qed.

Lemma applyAll_closed m es s :
  closedIn m s ->
  sm_sessions (applyAll m es) !! s = sm_sessions m !! s /\
  Forall (fun e => ESessionID e <> s) (effects m es).
Proof.
  revert m. induction es as [|e es IH]; intros m Hc; [by split|].
  destruct (apply_closed m e s Hc) as (Hc' & Hl & He). destruct (IH _ Hc') as [IH1 IH2].
  rewrite applyAll_cons. split; [by rewrite IH1|]. cbn [effects]. apply Forall_app_2; [|done].
  destruct (effective m e); [apply Forall_singleton; auto|constructor].
Qed.

(** An entry that cannot touch the latest mutation of session [s]: another
    session's, or a mutation of [s] that is not newer than [q]. *)
Definition harmless (s : SessionID) (q : N) (e : LogEntry) : Prop :=
  ESessionID e <> s \/ (isMutation e = true /\ Sequence e <= q).

Lemma apply_harmless m e s q r :
  sm_sessions m !! s = Some r -> sr_lastSequence r = q -> harmless s q e ->
  sm_sessions (apply m e).2 !! s = Some r.
Proof.
  intros Hr Hq Hh.
  destruct (apply_cases m e) as [He|He Hn _|r' He Ht Hr' Hs'|r' x He Hr' Hs' Hseq]; [done|..]; cbn;
    (destruct (decide (ESessionID e = s)) as [<-|Hne]; [|by rewrite lookup_insert_ne]).
  - congruence.
  - destruct Hh as [Hh|[Hm _]]; [done|]. unfold isMutation in Hm. by rewrite Ht in Hm.
  - destruct Hh as [Hh|[_ Hle]]; [done|]. assert (r' = r) by congruence. subst. lia.
Qed.

Lemma applyAll_harmless m es s q r :
  sm_sessions m !! s = Some r -> sr_lastSequence r = q -> Forall (harmless s q) es ->
  sm_sessions (applyAll m es) !! s = Some r.
Proof.
  intros Hr Hq Hall. revert m Hr. induction Hall as [|e es He _ IH]; intros m Hr; [done|].
  apply IH. by eapply apply_harmless.
Qed.

(** The record an effective mutation leaves, and what a retry of it answers. *)
Lemma effective_record m e :
  effective m e = true ->
  sm_sessions (apply m e).2 !! ESessionID e =
    Some (mkSessionRecord sessionActive (Sequence e) sessionSucceeded (res_existed (apply m e).1)) /\
  (apply m e).1 = (newResult (ESessionID e) (Sequence e)) <| res_existed := res_existed (apply m e).1 |> /\
  0 < Sequence e.
Proof.
  intros He. unfold effective in He. apply andb_true_iff in He as [Hm He].
  destruct (evaluateMutation m (ESessionID e) (Sequence e)) as [res b] eqn:Ee. cbn in He. subst b.
  destruct (evaluate_true _ _ _ _ Ee) as (-> & Hseq & r & Hr & Hs).
  unfold apply. destruct (EType e) eqn:Et; try (unfold isMutation in Hm; by rewrite Et in Hm).
  all: rewrite Ee; cbn; rewrite lookup_insert_eq; unfold recordOf; rewrite Hr; cbn.
  all: destruct r as [[] ? ? ?]; try done; split_and!; try done; lia.
Qed.

Lemma retry_answer m e r :
  isMutation e = true -> 0 < Sequence e ->
  sm_sessions m !! ESessionID e = Some (mkSessionRecord sessionActive (Sequence e) sessionSucceeded r) ->
  apply m e = ((newResult (ESessionID e) (Sequence e)) <| res_existed := r |>, m).
Proof.
  intros Hm Hpos Hr. unfold apply.
  assert (Ee : evaluateMutation m (ESessionID e) (Sequence e) =
    ((newResult (ESessionID e) (Sequence e)) <| res_existed := r |>, false)).
  { unfold evaluateMutation. rewrite Hr. cbn [sr_state sr_lastSequence].
    rewrite bool_decide_false by done. rewrite N.eqb_refl, (proj2 (N.eqb_neq _ _)) by lia. done. }
  destruct (EType e) eqn:Et; try (unfold isMutation in Hm; by rewrite Et in Hm).
  all: by rewrite Ee.
Qed.

(** ** Snapshots *)

Lemma failureOf_code f : failureOf (failureCode f) = Some f.
Proof. by destruct f. Qed.

Lemma restore_one s r m :
  restoreSession (captureSession s r) m =
    (Ok tt, m <| sm_sessions := <[s := r]> (sm_sessions m) |>
              <| sm_active := (sm_active m + if decide (isActive (s, r)) then 1 else 0)%Z |>).
Proof.
  unfold restoreSession, captureSession. cbn. rewrite failureOf_code. unfold emodify.
  unfold isActive. cbn. destruct r as [[] ? ? ?]; cbn; [done|]. by rewrite Z.add_0_r.
Qed.

Lemma restore_sessions l m :
  NoDup l.*1 ->
  efor restoreSession (map (fun p => captureSession p.1 p.2) l) m =
    (Ok tt, m <| sm_sessions := list_to_map l ∪ sm_sessions m |>
              <| sm_active := (sm_active m + Z.of_nat (length (filter isActive l)))%Z |>).
Proof.
  revert m. induction l as [|[s r] l IH]; intros m Hnd.
  { cbn. unfold eret. rewrite (left_id_L ∅ (∪)), Z.add_0_r. by destruct m. }
  cbn [fmap list_fmap fst] in Hnd. apply NoDup_cons in Hnd as [Hs Hnd].
  cbn [map efor fst snd]. unfold ebind. rewrite restore_one, IH by done.
  assert (Hu : list_to_map ((s, r) :: l) ∪ sm_sessions m = list_to_map l ∪ <[s := r]> (sm_sessions m)).
  { cbn. rewrite <- insert_union_l, insert_union_r; [done|]. by apply not_elem_of_list_to_map_1. }
  rewrite Hu. destruct (decide (isActive (s, r))).
  - rewrite filter_cons_True by done. cbn [length]. unfold set_with. cbn. f_equal. f_equal; lia.
  - rewrite filter_cons_False by done. unfold set_with. cbn. f_equal. f_equal; lia.
Qed.

Lemma size_filter_list (l : list (SessionID * sessionRecord)) :
  NoDup l.*1 ->
  size (filter isActive (list_to_map l : gmap SessionID sessionRecord)) = length (filter isActive l).
Proof.
  induction l as [|[s r] l IH]; intros Hnd; [done|].
  cbn [fmap list_fmap fst] in Hnd. apply NoDup_cons in Hnd as [Hs Hnd]. cbn [list_to_map].
  assert (Hn : (list_to_map l : gmap SessionID sessionRecord) !! s = None)
    by (by apply not_elem_of_list_to_map_1).
  cbn [list_to_map foldr uncurry curry fst snd]. destruct (decide (isActive (s, r))).
  - rewrite filter_cons_True, map_filter_insert_True by done.
    rewrite map_size_insert_None by (rewrite map_lookup_filter_None; by left). cbn. by rewrite IH.
  - rewrite filter_cons_False, map_filter_insert_not' by (done || (intros y; congruence)).
    by apply IH.
Qed.

Lemma snapshot_sessions m identity index t :
  exists l, sn_Sessions (snapshot m identity index t) = map (fun p => captureSession p.1 p.2) l /\
    l ≡ₚ map_to_list (sm_sessions m).
Proof.
  cbn. pose proof (merge_sort_Permutation session_le
    (map (fun p => captureSession p.1 p.2) (map_to_list (sm_sessions m)))) as Hp.
  apply Permutation_map_inv in Hp as (l & E & Hl). exists l. by split.
Qed.

Lemma restore_snapshot_machine m m0 identity index t :
  machine_wf m -> sm_limit m0 = sm_limit m ->
  restore (Some (snapshot m identity index t)) m0 = (Ok tt, m).
Proof.
  intros [Ha Hl] Hlim. unfold restore, ebind, emodify, eget.
  destruct (snapshot_sessions m identity index t) as (l & -> & Hp).
  rewrite restore_sessions by (rewrite Hp; apply NoDup_fst_map_to_list).
  assert (Hm : list_to_map l = sm_sessions m).
  { rewrite (list_to_map_proper l (map_to_list (sm_sessions m))); [apply list_to_map_to_list| |done].
    rewrite Hp. apply NoDup_fst_map_to_list. }
  assert (Hn : Z.of_nat (length (filter isActive l)) = sm_active m).
  { rewrite Ha, <- Hm, size_filter_list; [done|]. rewrite Hp. apply NoDup_fst_map_to_list. }
  cbn. rewrite Hm, (right_id_L ∅ (∪)), Hn, Hlim, Z.add_0_l.
  rewrite (proj2 (Z.ltb_ge _ _) Hl). unfold eret, set_with. cbn. by destruct m.
Qed.

(** ** Exactly once *)

(** What Clients may expect of a log: the Sessions that were opened and closed, and the mutations
    that count. *)
Record account := mkAccount {
  ac_opened : gset SessionID; ac_closed : gset SessionID; ac_taken : list LogEntry }.

Definition ofSession (s : SessionID) (es : list LogEntry) : list LogEntry := filter (fun e => ESessionID e = s) es.

(** A mutation counts when its Session is open and it carries the number after those of the
    Session that counted before. *)
Definition takes (a : account) (e : LogEntry) : Prop :=
  ESessionID e ∈ ac_opened a /\ ESessionID e ∉ ac_closed a /\
  Sequence e = len (ofSession (ESessionID e) (ac_taken a)) + 1 /\ Sequence e < two64.

#[global] Instance takes_dec a e : Decision (takes a e) := ltac:(unfold takes; apply _).

Definition settle (limit : Z) (a : account) (e : LogEntry) : account :=
  match EType e with
  | EntryNoOp => a
  | EntryOpenSession =>
      if bool_decide (ESessionID e ∈ ac_opened a) || (limit <=? Z.of_nat (size (ac_opened a ∖ ac_closed a)))%Z then a
      else mkAccount ({[ESessionID e]} ∪ ac_opened a) (ac_closed a) (ac_taken a)
  | EntryCloseSession =>
      if bool_decide (ESessionID e ∈ ac_opened a)
      then mkAccount (ac_opened a) ({[ESessionID e]} ∪ ac_closed a) (ac_taken a) else a
  | EntrySet | EntryDelete =>
      if bool_decide (takes a e) then mkAccount (ac_opened a) (ac_closed a) (ac_taken a ++ [e]) else a
  end.

Definition accountOf (limit : Z) (es : list LogEntry) : account := foldl (settle limit) (mkAccount ∅ ∅ []) es.

Record balanced (limit : Z) (m : sessionMachine) (a : account) : Prop := {
  ba_limit : sm_limit m = limit;
  ba_values : sm_values m = foldl rawApply ∅ (ac_taken a);
  ba_opened s : s ∈ ac_opened a <-> is_Some (sm_sessions m !! s);
  ba_closed s : s ∈ ac_closed a <-> closedIn m s;
  ba_active : sm_active m = Z.of_nat (size (ac_opened a ∖ ac_closed a));
  ba_sequence s : lastSequence m s = len (ofSession s (ac_taken a)) }.

Lemma evaluate_iff m s q :
  (evaluateMutation m s q).2 = true <->
  is_Some (sm_sessions m !! s) /\ ~ closedIn m s /\ q = lastSequence m s + 1 /\ q < two64.
Proof.
  split.
  - intros He. destruct (evaluateMutation m s q) as [r b] eqn:Ee. cbn in He. subst b.
    destruct (evaluate_true _ _ _ _ Ee) as (_ & Hq & record & Hr & Hs). rewrite Hr. split_and!; [by eexists| |done|].
    + intros (r' & Hr' & Hc). congruence.
    + unfold evaluateMutation in Ee. rewrite Hr in Ee. destruct (bool_decide _); [done|]. destruct (_ && _); [done|].
      destruct (_ <? _); [done|]. destruct (_ =? _ +! 1) eqn:E4; [|done]. apply N.eqb_eq in E4. rewrite E4. by apply N.mod_lt.
  - intros ([r Hr] & Hc & -> & Hlt). unfold evaluateMutation, lastSequence, recordOf in *. rewrite Hr in *. cbn in *.
    rewrite bool_decide_false by (intros Hs; apply Hc; by exists r).
    rewrite (proj2 (N.eqb_neq _ _)), (proj2 (N.ltb_ge _ _)) by lia. cbn [andb]. unfold u64. rewrite N.mod_small by done.
    by rewrite N.eqb_refl.
Qed.

Lemma mutation_sessions m x s :
  isMutation x = true ->
  (is_Some (sm_sessions (apply m x).2 !! s) <-> is_Some (sm_sessions m !! s)) /\
  (closedIn (apply m x).2 s <-> closedIn m s).
Proof.
  intros Hm. assert (Hs : (apply m x).2 = m \/ exists r r', sm_sessions m !! ESessionID x = Some r /\
    sr_state r = sessionActive /\ sr_state r' = sessionActive /\
    sm_sessions (apply m x).2 = <[ESessionID x := r']> (sm_sessions m)).
  { unfold apply, isMutation in *. destruct (EType x); try discriminate Hm;
      (destruct (evaluateMutation m _ _) as [res []] eqn:Ee; [right|by left]);
      destruct (evaluate_true _ _ _ _ Ee) as (_ & _ & r & Hr & Hst); cbn [negb snd]; exists r; unfold recordOf; rewrite Hr;
      eexists; (split_and!; [reflexivity|exact Hst| |reflexivity]); exact Hst. }
  destruct Hs as [->|(r & r' & Hr & Hst & Hst' & Hs)]; [done|]. unfold closedIn. rewrite Hs.
  destruct (decide (ESessionID x = s)) as [<-|Hne]; [|by rewrite lookup_insert_ne]. rewrite lookup_insert_eq, Hr.
  split; [split; by eexists|]. split; intros (y & [= <-] & Hy); congruence.
Qed.

Lemma balanced_open limit m a e :
  EType e = EntryOpenSession -> balanced limit m a -> balanced limit (apply m e).2 (settle limit a e).
Proof.
  intros Et [Hl Hv Ho Hc Ha Hs]. unfold apply, settle. rewrite Et, <- Ha, Hl, (bool_decide_ext _ _ (Ho (ESessionID e))).
  destruct (bool_decide _) eqn:Eb; cbn [orb]; [by split|]. destruct (_ <=? _)%Z; [by split|].
  apply bool_decide_eq_false_1 in Eb. pose proof Eb as Hn%eq_None_not_Some.
  assert (Hne : ESessionID e ∉ ac_closed a) by (rewrite Hc; intros (r & Hr & _); congruence).
  rewrite <- Ho in Eb.
  assert (Hsize : size (({[ESessionID e]} ∪ ac_opened a) ∖ ac_closed a) = S (size (ac_opened a ∖ ac_closed a))).
  { clear -Eb Hne. replace (({[ESessionID e]} ∪ ac_opened a) ∖ ac_closed a)
      with ({[ESessionID e]} ∪ (ac_opened a ∖ ac_closed a)) by set_solver.
    by rewrite size_union, size_singleton by set_solver. }
  split; try done.
  - intros s. cbn [ac_opened]. rewrite elem_of_union, elem_of_singleton, Ho. cbn. destruct (decide (ESessionID e = s)) as [<-|Hs'].
    + rewrite lookup_insert_eq. split; [by eexists|by left].
    + rewrite lookup_insert_ne by done. split; [by intros [?|?]|by right].
  - intros s. cbn [ac_closed]. rewrite Hc. unfold closedIn. cbn. destruct (decide (ESessionID e = s)) as [<-|Hs'].
    + rewrite lookup_insert_eq, Hn. split; [by intros (? & ? & _)|by intros (? & [= <-] & ?)].
    + by rewrite lookup_insert_ne.
  - cbn [ac_opened ac_closed]. rewrite Hsize. cbn. lia.
  - intros s. cbn [ac_taken]. rewrite <- Hs. unfold lastSequence, recordOf. cbn. destruct (decide (ESessionID e = s)) as [<-|Hs'].
    + by rewrite lookup_insert_eq, Hn.
    + by rewrite lookup_insert_ne.
Qed.

Lemma balanced_close limit m a e :
  EType e = EntryCloseSession -> balanced limit m a -> balanced limit (apply m e).2 (settle limit a e).
Proof.
  intros Et [Hl Hv Ho Hc Ha Hs]. unfold apply, settle. rewrite Et, (bool_decide_ext _ _ (Ho (ESessionID e))).
  destruct (sm_sessions m !! ESessionID e) as [r|] eqn:Hr; [|by rewrite bool_decide_false by (by intros [])].
  rewrite (bool_decide_true (is_Some _)) by eauto. destruct (bool_decide _) eqn:Eb.
  - apply bool_decide_eq_true in Eb. assert (Hin : ESessionID e ∈ ac_closed a) by (apply Hc; by exists r).
    assert ({[ESessionID e]} ∪ ac_closed a = ac_closed a) as -> by set_solver. by split.
  - apply bool_decide_eq_false_1 in Eb. assert (Hop : ESessionID e ∈ ac_opened a) by (apply Ho; rewrite Hr; eauto).
    assert (Hn : ESessionID e ∉ ac_closed a) by (rewrite Hc; intros (r' & Hr' & ?); congruence).
    assert (Hsize : size (ac_opened a ∖ ac_closed a) = S (size (ac_opened a ∖ ({[ESessionID e]} ∪ ac_closed a)))).
    { clear -Hop Hn. replace (ac_opened a ∖ ac_closed a) with ({[ESessionID e]} ∪ (ac_opened a ∖ ({[ESessionID e]} ∪ ac_closed a))).
      - by rewrite size_union, size_singleton by set_solver.
      - apply set_eq. intros s. destruct (decide (s = ESessionID e)) as [->|]; set_solver. }
    split; try done.
    + intros s. cbn [ac_opened]. rewrite Ho. cbn. destruct (decide (ESessionID e = s)) as [<-|]; [|by rewrite lookup_insert_ne].
      rewrite lookup_insert_eq, Hr. split; eauto.
    + intros s. cbn [ac_closed]. rewrite elem_of_union, elem_of_singleton, Hc. unfold closedIn. cbn.
      destruct (decide (ESessionID e = s)) as [<-|Hne].
      * rewrite lookup_insert_eq. split; [intros _; by eexists|by left].
      * rewrite lookup_insert_ne by done. split; [by intros [?|?]|by right].
    + cbn [ac_opened ac_closed]. cbn. lia.
    + intros s. cbn [ac_taken]. rewrite <- Hs. unfold lastSequence, recordOf. cbn. destruct (decide (ESessionID e = s)) as [<-|].
      * by rewrite lookup_insert_eq, Hr.
      * by rewrite lookup_insert_ne.
Qed.

Lemma balanced_mutation limit m a e :
  isMutation e = true -> balanced limit m a -> balanced limit (apply m e).2 (settle limit a e).
Proof.
  intros Hm [Hl Hv Ho Hc Ha Hs].
  assert (Heff : effective m e = bool_decide (takes a e)).
  { unfold effective. rewrite Hm. cbn [andb]. apply eq_true_iff_eq. rewrite evaluate_iff, bool_decide_eq_true.
    unfold takes. by rewrite Ho, Hc, Hs. }
  assert (Hset : settle limit a e = if effective m e then mkAccount (ac_opened a) (ac_closed a) (ac_taken a ++ [e]) else a).
  { rewrite Heff. unfold settle, isMutation in *. by destruct (EType e). }
  assert (Hfix : sm_limit (apply m e).2 = sm_limit m /\ sm_active (apply m e).2 = sm_active m).
  { unfold apply, isMutation in *. destruct (EType e); try discriminate Hm; by destruct (evaluateMutation _ _ _) as [? []]. }
  destruct Hfix as [Hl' Ha']. rewrite Hset. split.
  - congruence.
  - rewrite apply_values. destruct (effective m e); cbn; [|done]. by rewrite foldl_app, <- Hv.
  - intros s. rewrite (proj1 (mutation_sessions m e s Hm)), <- Ho. by destruct (effective m e).
  - intros s. rewrite (proj2 (mutation_sessions m e s Hm)), <- Hc. by destruct (effective m e).
  - rewrite Ha', Ha. by destruct (effective m e).
  - intros s. rewrite apply_lastSequence, Hs. destruct (effective m e); cbn [andb ac_taken]; [|lia].
    unfold ofSession. rewrite filter_app, len_app. f_equal. destruct (decide (ESessionID e = s)) as [E|E].
    + rewrite bool_decide_true by done. by rewrite filter_cons_True by done.
    + rewrite bool_decide_false by done. by rewrite filter_cons_False by done.
Qed.

Lemma balanced_apply limit m a e : balanced limit m a -> balanced limit (apply m e).2 (settle limit a e).
Proof.
  destruct (EType e) eqn:Et; intros Hb.
  - unfold apply, settle. by rewrite Et.
  - by apply balanced_open.
  - by apply balanced_close.
  - apply balanced_mutation; [|done]. unfold isMutation. by rewrite Et.
  - apply balanced_mutation; [|done]. unfold isMutation. by rewrite Et.
Qed.

Lemma balanced_new limit : balanced limit (newSessionMachine limit) (mkAccount ∅ ∅ []).
Proof.
  split; try done; intros s; cbn; (split; [by intros ?%elem_of_empty|]).
  - by intros [].
  - by intros (? & ? & _).
Qed.

Lemma balanced_all limit es : balanced limit (applyAll (newSessionMachine limit) es) (accountOf limit es).
Proof.
  unfold accountOf, applyAll. induction es as [|e es IH] using rev_ind; [apply balanced_new|].
  rewrite !foldl_app. by apply balanced_apply.
Qed.

Lemma upFrom_snoc first count : upFrom first count ++ [first + N.of_nat count] = upFrom first (S count).
Proof.
  revert first. induction count as [|count IH]; intros first; [cbn; by rewrite N.add_0_r|].
  change (upFrom first (S (S count))) with (first :: upFrom (first + 1) (S count)). rewrite <- (IH (first + 1)).
  cbn [upFrom app]. by replace (first + N.of_nat (S count)) with (first + 1 + N.of_nat count) by lia.
Qed.

(** The mutations that count come from the log, and their numbers are consecutive. *)
Lemma taken_order limit es :
  ac_taken (accountOf limit es) `sublist_of` filter (fun e => isMutation e = true) es /\
  forall s, let mine := ofSession s (ac_taken (accountOf limit es)) in map Sequence mine = upFrom 1 (length mine).
Proof.
  unfold accountOf. induction es as [|e es [IHs IHq]] using rev_ind; [by split|]. rewrite foldl_app, filter_app.
  set (a := foldl _ _ es) in *. cbn [foldl].
  assert (Hcase : ac_taken (settle limit a e) = ac_taken a \/
    ac_taken (settle limit a e) = ac_taken a ++ [e] /\ isMutation e = true /\ takes a e).
  { unfold settle, isMutation. destruct (EType e); try (by left); try (destruct (_ || _); by left);
      (destruct (bool_decide _) eqn:E; [|by left]); [by left|right..]; apply bool_decide_eq_true in E; by split_and!. }
  destruct Hcase as [->|(-> & Hm & Ht)]; [split; [by apply sublist_inserts_r|done]|]. split.
  - rewrite filter_cons_True by done. by apply sublist_app.
  - intros s. unfold ofSession in *. rewrite filter_app. destruct (decide (ESessionID e = s)) as [<-|].
    + rewrite filter_cons_True, filter_nil by done. destruct Ht as (_ & _ & Hq & _).
      rewrite map_app, IHq, length_app. change (length [e]) with 1%nat. rewrite Nat.add_1_r, <- upFrom_snoc.
      cbn [map]. rewrite Hq. by rewrite (N.add_comm 1).
    + rewrite filter_cons_False, filter_nil, app_nil_r by done. apply IHq.
Qed.

(** ** Claims *)

(** C20: mutations take effect exactly once.  After any log, the Values of the machine
    are those of a plain Key-Value store to which exactly the mutations that count were applied, in log order.
    A mutation counts if at its position its Session has been opened (within the limit on open
    Sessions) and not closed, and it carries the sequence number after the last one of the Session that counted:
    per Session the numbers that counted are 1, 2, 3, ... without gap or repetition.  Any
    other Set or Delete (a repetition, a number out of order, a Session that is unknown or closed)
    changes no Value.  The machine's open and closed Sessions and the sequence numbers
    it records are those of this account of the log. *)
Theorem mutations_take_effect_exactly_once limit entries :
  let m := applyAll (newSessionMachine limit) entries in
  let a := accountOf limit entries in
  sm_values m = foldl rawApply ∅ (ac_taken a) /\
  ac_taken a `sublist_of` filter (fun e => isMutation e = true) entries /\
  forall s,
    let mine := ofSession s (ac_taken a) in
    map Sequence mine = upFrom 1 (length mine) /\ lastSequence m s = len mine /\
    (is_Some (sm_sessions m !! s) <-> s ∈ ac_opened a) /\ (closedIn m s <-> s ∈ ac_closed a).
Proof.
  intros m a. destruct (balanced_all limit entries) as [_ Hv Ho Hc _ Hs]. destruct (taken_order limit entries) as [Hsub Hq].
  split_and!; [done..|]. intros s mine. split_and!; [apply Hq|apply Hs|..]; by rewrite ?Ho, ?Hc.
Qed.

(** Retrying a mutation that took effect, after any other entries that do
    not close the session or advance it further, returns the original result
    and changes nothing. *)
Theorem retry_returns_original_result m e between :
  effective m e = true -> Forall (harmless (ESessionID e) (Sequence e)) between ->
  let '(original, m1) := apply m e in
  apply (applyAll m1 between) e = (original, applyAll m1 between).
Proof.
  intros He Hall. destruct (effective_record m e He) as (Hr & Hres & Hpos).
  destruct (apply m e) as [original m1]. cbn [fst snd] in *. rewrite Hres.
  apply retry_answer; [|done|].
  - unfold effective in He. by apply andb_true_iff in He as [? _].
  - by eapply applyAll_harmless.
Qed.

(** A closed session is never reopened or changed by any further entry, and
    none of its mutations takes effect. *)
Theorem closed_sessions_stay_closed m entries s :
  closedIn m s ->
  sm_sessions (applyAll m entries) !! s = sm_sessions m !! s /\
  Forall (fun e => ESessionID e <> s) (effects m entries).
Proof. apply applyAll_closed. Qed.

(** The count of active sessions is exact and never exceeds the configured
    limit, over any committed log. *)
Theorem session_limit_is_respected limit entries :
  (0 <= limit)%Z ->
  let m := applyAll (newSessionMachine limit) entries in
  sm_active m = Z.of_nat (size (filter isActive (sm_sessions m))) /\ (sm_active m <= limit)%Z.
Proof.
  intros Hl m. assert (Hlim : sm_limit m = limit).
  { subst m. generalize (newSessionMachine limit) as m0, (eq_refl : sm_limit (newSessionMachine limit) = limit).
    induction entries as [|e es IH]; intros m0 Hm; [done|]. apply IH.
    destruct (apply_cases m0 e); done. }
  destruct (applyAll_wf (newSessionMachine limit) entries) as [Ha Hle]; [by apply new_machine_wf|].
  fold m in Ha, Hle. by rewrite <- Hlim.
Qed.

(** C21: a Node that restores a Snapshot taken after a prefix of the log and
    applies the rest reaches the same state as one that applied everything,
    whatever state it was in before. *)
Theorem snapshot_then_suffix_equals_full_log limit prefix suffix identity index t m0 :
  (0 <= limit)%Z -> sm_limit m0 = limit ->
  let taken := snapshot (applyAll (newSessionMachine limit) prefix) identity index t in
  exists m, restore (Some taken) m0 = (Ok tt, m) /\
    applyAll m suffix = applyAll (newSessionMachine limit) (prefix ++ suffix).
Proof.
  intros Hl Hm taken. eexists. split; [apply restore_snapshot_machine|by rewrite applyAll_app].
  - by apply applyAll_wf, new_machine_wf.
  - rewrite Hm. change limit with (sm_limit (newSessionMachine limit)) at 1.
    generalize (newSessionMachine limit) as m1. induction prefix as [|e es IH]; intros m1; [done|].
    rewrite applyAll_cons, <- IH. by destruct (apply_cases m1 e).
Qed.

(** ** Witnesses *)

Definition sessionA : SessionID := replicate 16 x61.
Definition openA : LogEntry := mkLogEntry 1 1 EntryOpenSession sessionA 0 "" [].
Definition setA : LogEntry := mkLogEntry 2 1 EntrySet sessionA 1 "k" [x01].
Definition closeA : LogEntry := mkLogEntry 3 1 EntryCloseSession sessionA 0 "" [].
Definition machineA : sessionMachine := applyAll (newSessionMachine 8) [openA].

Lemma retry_returns_original_result_witness :
  let '(original, m1) := apply machineA setA in
  apply (applyAll m1 [setA]) setA = (original, applyAll m1 [setA]).
Proof.
  apply (retry_returns_original_result machineA setA [setA]); [vm_compute; reflexivity|].
  apply Forall_singleton. right. by vm_compute.
Defined.

Lemma closed_sessions_stay_closed_witness :
  sm_sessions (applyAll (applyAll machineA [closeA]) [openA; setA]) !! sessionA
    = sm_sessions (applyAll machineA [closeA]) !! sessionA /\
  Forall (fun e => ESessionID e <> sessionA) (effects (applyAll machineA [closeA]) [openA; setA]).
Proof.
  apply (closed_sessions_stay_closed (applyAll machineA [closeA]) [openA; setA] sessionA).
  eexists. split; vm_compute; reflexivity.
Defined.

Lemma session_limit_is_respected_witness :
  let m := applyAll (newSessionMachine 8) [openA; setA] in
  sm_active m = Z.of_nat (size (filter isActive (sm_sessions m))) /\ (sm_active m <= 8)%Z.
Proof. apply (session_limit_is_respected 8 [openA; setA]). lia. Defined.

Lemma snapshot_then_suffix_equals_full_log_witness :
  let taken := snapshot (applyAll (newSessionMachine 8) [openA])
                 (mkSnapIdentity "c" "n1" ["n1"; "n2"; "n3"]) 1 1 in
  exists m, restore (Some taken) machineA = (Ok tt, m) /\
    applyAll m [setA] = applyAll (newSessionMachine 8) ([openA] ++ [setA]).
Proof.
  apply (snapshot_then_suffix_equals_full_log 8 [openA] [setA]
           (mkSnapIdentity "c" "n1" ["n1"; "n2"; "n3"]) 1 1 machineA); [lia|reflexivity].
Defined.
