(* ===== verification/Runtime.v ===== *)
(** The synchronous durability boundary of [internal/node/raft_runtime.go].

    [step] feeds one event to the core and executes the persistence actions it
    returns, delivering each completion only after the store accepted the
    records.  The store is an interface; the write-ahead log implements it.
    Running out of [fuel] in [drain] represents a process that dies after that
    many actions. *)

From S2P Require Import Prelude Bytes Wal RaftTypes RaftCore.

(** ** The durable store *)

Class DurableStore (S E : Type) := {
  saveHardState : N -> NodeID -> EM S E unit;
  truncateEntries : N -> EM S E unit;
  saveEntries : list LogEntry -> EM S E unit;
  saveCommitIndex : N -> EM S E unit }.

Definition entryTypeByte (t : EntryType) : byte :=
  match t with
  | EntryNoOp => x00 | EntryOpenSession => x01 | EntryCloseSession => x02
  | EntrySet => x03 | EntryDelete => x04
  end.

Definition entryTypeOf (b : byte) : option EntryType :=
  match b with
  | x00 => Some EntryNoOp | x01 => Some EntryOpenSession | x02 => Some EntryCloseSession
  | x03 => Some EntrySet | x04 => Some EntryDelete | _ => None
  end.

(** The durable form of a log entry, and back. *)
Definition toWal (e : LogEntry) : Wal.LogEntry :=
  Wal.mkLogEntry (Index e) (Term e) (entryTypeByte (EType e)) (ESessionID e) (Sequence e)
    (Key e) (Value e).

Definition ofWal (e : Wal.LogEntry) : option LogEntry :=
  option_map (fun t => mkLogEntry (Wal.Index e) (Wal.Term e) t (Wal.ESessionID e)
                         (Wal.Sequence e) (Wal.Key e) (Wal.Value e))
    (entryTypeOf (Wal.EType e)).

#[export] Instance walStore : DurableStore WAL Error := {|
  saveHardState t v := Wal.SaveHardState (Wal.mkHardState t v);
  truncateEntries := Wal.TruncateLog;
  saveEntries entries := Wal.SaveLogEntries (map toWal entries);
  saveCommitIndex := Wal.SaveCommitIndex |}.

(** ** The runtime *)

Inductive mutationBoundary :=
| mutationBeforeAppend | mutationAfterLocalPersistence | mutationAfterQuorumPersistence
| mutationAfterCommitment | mutationAfterApplication.

Record raftRuntime (S : Type) := mkRuntime {
  rt_core : Node; rt_wal : S;
  rt_observing : bool;
  rt_leaderMutations : gmap N LogEntry;
  rt_observed : list (mutationBoundary * LogEntry);
  rt_metrics : option N }.
Arguments mkRuntime {S}.
Arguments rt_core {S}.
Arguments rt_wal {S}.
Arguments rt_observing {S}.
Arguments rt_leaderMutations {S}.
Arguments rt_observed {S}.
Arguments rt_metrics {S}.

#[export] Instance eta_runtime {S} : Eta (raftRuntime S) :=
  fun r => mkRuntime (rt_core r) (rt_wal r) (rt_observing r) (rt_leaderMutations r)
             (rt_observed r) (rt_metrics r).

(** How a [step] ends: with the emitted actions, with a storage error, with a
    panic of the core, or with the death of the process when it was about to
    handle the action [next]. *)
Inductive outcome (S E : Type) :=
| Done (emitted : list Action) (r : raftRuntime S)
| Failed (e : E) (r : raftRuntime S)
| Panicked (r : raftRuntime S)
| Interrupted (next : Action) (r : raftRuntime S).
Arguments Done {S E}.
Arguments Failed {S E}.
Arguments Panicked {S E}.
Arguments Interrupted {S E}.

Definition isMutationEntry (e : LogEntry) : bool :=
  bool_decide (EType e = EntrySet) || bool_decide (EType e = EntryDelete).

Definition entry_le (a b : LogEntry) : Prop := Index a <= Index b.
#[export] Instance entry_le_dec a b : Decision (entry_le a b).
Proof. unfold entry_le. apply _. Defined.

Section Runtime.
Context {S E : Type} `{DurableStore S E}.

Definition committedLeaderMutations (r : raftRuntime S) (commitIndex : N) : list LogEntry :=
  merge_sort entry_le
    (map snd (filter (fun p : N * LogEntry => p.1 <= commitIndex)
                (map_to_list (rt_leaderMutations r)))).

Definition observe (boundary : mutationBoundary) (entries : list LogEntry) (r : raftRuntime S)
    : raftRuntime S :=
  r <| rt_observed := rt_observed r ++ map (fun e => (boundary, e)) entries |>.

(** Runs a store operation. *)
Definition store (op : EM S E unit) (r : raftRuntime S) : result E unit * raftRuntime S :=
  let '(res, w) := op (rt_wal r) in (res, r <| rt_wal := w |>).

(** Counts a completed sync when metrics are collected. *)
Definition synced (r : raftRuntime S) : raftRuntime S :=
  r <| rt_metrics := option_map (fun walSyncs => walSyncs +! 1) (rt_metrics r) |>.

(** Local observations of a Leader's own mutations. *)
Definition observeLocal (entries : list LogEntry) (r : raftRuntime S) : option (raftRuntime S) :=
  if negb (rt_observing r) then Some r
  else
    match getState (rt_core r) with
    | None => None
    | Some state =>
        if bool_decide (st_Role state = Leader) then
          let mutations := filter (fun e => isMutationEntry e) entries in
          Some (observe mutationAfterLocalPersistence mutations
                  (r <| rt_leaderMutations :=
                        foldl (fun m e => <[Index e := e]> m) (rt_leaderMutations r) mutations |>))
        else Some r
    end.

Definition saveLog (truncateFrom : N) (entries : list LogEntry) : EM S E unit :=
  do+ (if negb (truncateFrom =? 0) then truncateEntries truncateFrom else eret tt) in
  saveEntries entries.

(** What the loop body does with one action: it is passed to the caller, or it
    is made durable and earns a completion event, unless storage fails or the
    observation panics. *)
Inductive handled :=
| Emitted
| Completed (completion : Event) (r : raftRuntime S)
| StorageFailed (e : E) (r : raftRuntime S)
| ObserverPanicked (r : raftRuntime S).

Definition persist (action : Action) (r : raftRuntime S) : handled :=
  match action with
  | PersistHardState persistID t v =>
      let '(res, r) := store (saveHardState t v) r in
      match res with
      | Err e => StorageFailed e r
      | Ok _ => Completed (HardStatePersisted persistID) (synced r)
      end
  | PersistLogEntries persistID truncateFrom entries =>
      let '(res, r) := store (saveLog truncateFrom entries) r in
      match res with
      | Err e => StorageFailed e r
      | Ok _ =>
          match observeLocal entries (synced r) with
          | Some r => Completed (LogEntriesPersisted persistID) r
          | None => ObserverPanicked (synced r)
          end
      end
  | PersistCommitIndex persistID commitIndex =>
      let committed := if rt_observing r then committedLeaderMutations r commitIndex else [] in
      let r := observe mutationAfterQuorumPersistence committed r in
      let '(res, r) := store (saveCommitIndex commitIndex) r in
      match res with
      | Err e => StorageFailed e r
      | Ok _ =>
          let r := observe mutationAfterCommitment committed (synced r) in
          Completed (CommitIndexPersisted persistID)
            (r <| rt_leaderMutations :=
                 foldl (fun m e => delete (Index e) m) (rt_leaderMutations r) committed |>)
      end
  | _ => Emitted
  end.

(** The action loop. *)
Fixpoint drain (fuel : nat) (pending emitted : list Action) (r : raftRuntime S) : outcome S E :=
  match pending with
  | [] => Done emitted r
  | action :: pending =>
      match fuel with
      | O => Interrupted action r
      | Datatypes.S fuel =>
          match persist action r with
          | Emitted => drain fuel pending (emitted ++ [action]) r
          | StorageFailed e r => Failed e r
          | ObserverPanicked r => Panicked r
          | Completed completion r =>
              match Step completion (rt_core r) with
              | None => Panicked r
              | Some (more, core) =>
                  drain fuel (pending ++ more) emitted (r <| rt_core := core |>)
              end
          end
      end
  end.

Definition step (fuel : nat) (event : Event) (r : raftRuntime S) : outcome S E :=
  match Step event (rt_core r) with
  | None => Panicked r
  | Some (pending, core) => drain fuel pending [] (r <| rt_core := core |>)
  end.

End Runtime.

(** ** Opening *)

Fixpoint convertEntries (entries : list Wal.LogEntry) : option (list LogEntry) :=
  match entries with
  | [] => Some []
  | e :: entries =>
      match ofWal e, convertEntries entries with
      | Some e, Some entries => Some (e :: entries)
      | _, _ => None
      end
  end.

(** The part of [openRaftRuntime] after the WAL and the newest compatible
    Snapshot were loaded; [None] is the unsupported-entry-type error. *)
Definition recoveredState (recovered : Wal.RecoveredState) (snapshot : option (N * N))
    : option RecoveredState :=
  match convertEntries (Wal.rs_Log recovered) with
  | None => None
  | Some logEntries =>
      let '(snapshotIndex, snapshotTerm) := default (0, 0) snapshot in
      let logEntries :=
        match snapshot with
        | Some _ => drop (N.to_nat (coveredPrefix logEntries snapshotIndex)) logEntries
        | None => logEntries
        end in
      Some (mkRecoveredState
        (mkHardState (Wal.hs_Term (Wal.rs_HardState recovered))
                     (Wal.hs_VotedFor (Wal.rs_HardState recovered)))
        logEntries (Wal.rs_CommitIndex recovered) snapshotIndex snapshotTerm)
  end.

(** The observers a Node registers once the runtime is open. *)
Definition observedBy {S} (observing : bool) (metrics : option N) (r : raftRuntime S) : raftRuntime S :=
  r <| rt_observing := observing |> <| rt_metrics := metrics |>.

Definition openRuntime {S} (id : NodeID) (peers : list NodeID) (recovered : RecoveredState) (wal : S)
    : raftRuntime S :=
  mkRuntime (NewNodeFromRecoveredState id peers recovered) wal false ∅ [] None.
