(* ===== verification/RuntimeTermination.v ===== *)
(** The action loop of the runtime terminates: a completed hard-state request
    releases no further hard-state request, a completed log write at most commit
    requests, and a completed commit no request at all.  The obligations attached to
    outstanding requests are an invariant of every event. *)

From Stdlib Require Import Relation_Operators Lexicographic_Product Wf_nat.
From S2P Require Import Prelude Wal RaftTypes RaftCore Runtime.

(** ** Ranks *)

Definition rank (a : Action) : N :=
  match a with
  | PersistHardState _ _ _ => 3
  | PersistLogEntries _ _ _ => 2
  | PersistCommitIndex _ _ => 1
  | _ => 0
  end.

Abbreviation below k := (fun a => rank a <= k).

(** What outstanding requests release. *)
Record ranked (n : Node) : Prop := {
  rk_hard : map_Forall (fun _ p => Forall (below 2) (ph_after p)) (pendingHardState n);
  rk_commit : map_Forall (fun _ p => Forall (below 0) (pc_after p)) (pendingCommit n) }.

(** [m] keeps the obligations and returns actions of rank at most [k]. *)
Abbreviation releases k n m := (wlp m (fun acts n' => ranked n' /\ Forall (below k) acts) n).
Abbreviation keeps_ranks n m := (wlp m (fun _ n' => ranked n') n).

Lemma below_weaken j k acts : Forall (below j) acts -> j <= k -> Forall (below k) acts.
Proof. intros H Hk. eapply Forall_impl; [exact H|]. cbn. lia. Qed.

Lemma below_map {A} k (f : A -> Action) l :
  (forall x, below k (f x)) -> Forall (below k) (map f l).
Proof. intros H. apply Forall_map, Forall_true. exact H. Qed.

(** Updates of other fields keep the obligations. *)
Ltac ranked_update :=
  match goal with H : ranked _ |- ranked _ => destruct H; subst; split; assumption end.

Ltac solve_below :=
  repeat first
    [ eassumption
    | apply Forall_app_2 | apply Forall_cons_2 | apply Forall_nil_2
    | apply below_map; intros
    | progress cbn [rank] | lia
    | eapply below_weaken; [eassumption|lia] ].

Create HintDb ranks.
#[local] Hint Extern 1 (Forall _ _) => solve [solve_below] : ranks.

(** One step of a computation: a helper is replaced by its specification. *)
Ltac ranks_step :=
  lazymatch goal with
  | |- wlp (modify _) _ _ =>
      let s' := fresh "s" in let H := fresh "Hs" in
      apply wlp_modify; intros s' H;
      let R := fresh "R" in
      first [ assert (R : ranked s') by ranked_update; clear H
            | repeat match type of H with context [if ?b then _ else _] => destruct b end;
              assert (R : ranked s') by ranked_update; clear H
            | match type of H with context [match ?x with Some _ => _ | None => _ end] => destruct x end;
              assert (R : ranked s') by ranked_update; clear H ]
  | |- wlp (collect _ _) _ _ => idtac
  | _ => first
      [ wlp_step
      | eapply wlp_mono; [solve [eauto with ranks nocore]|];
        let F := fresh "F" in intros ? ? F; cbn beta in F;
        lazymatch type of F with ranked _ => idtac | _ => destruct F as [F ?] end ]
  end.

Ltac ranks_auto :=
  try (progress ranks_step; ranks_auto);
  try (first [split; [assumption|solve [solve_below]] | assumption]).

Lemma collect_releases {A} k n (body : A -> RM (list Action)) l :
  ranked n -> (forall x n, ranked n -> releases k n (body x)) -> releases k n (collect body l).
Proof. intros Hn Hbody. apply wlp_collect; [done|]. intros x s HI. by apply Hbody. Qed.

Lemma sendAppendEntriesTo_ranks n peer readID :
  ranked n -> releases 0 n (sendAppendEntriesTo peer readID).
Proof. intros Hn. unfold sendAppendEntriesTo. ranks_auto. Qed.
#[local] Hint Resolve sendAppendEntriesTo_ranks : ranks.

Lemma sendAppendEntries_ranks n readID : ranked n -> releases 0 n (sendAppendEntries readID).
Proof.
  intros Hn. unfold sendAppendEntries. do 2 wlp_step. apply collect_releases; [done|].
  intros x s Hs. ranks_auto.
Qed.

Lemma completeReads_ranks n : ranked n -> releases 0 n completeReads.
Proof.
  intros Hn. unfold completeReads. do 2 wlp_step. apply collect_releases; [done|].
  intros x s Hs. unfold completeRead. ranks_auto.
Qed.
#[local] Hint Resolve sendAppendEntries_ranks completeReads_ranks : ranks.

Lemma applyLoop_ranks n count : ranked n -> releases 0 n (applyLoop count).
Proof.
  revert n. induction count as [|count IH]; intros n Hn; cbn [applyLoop]; [ranks_auto|].
  unfold applyNext. ranks_auto.
Qed.
#[local] Hint Resolve applyLoop_ranks : ranks.

Lemma applyThrough_ranks n index : ranked n -> releases 0 n (applyThrough index).
Proof. intros Hn. unfold applyThrough. ranks_auto. Qed.

Lemma persistLog_ranks n entries pending : ranked n -> releases 2 n (persistLog entries pending).
Proof. intros Hn. unfold persistLog. ranks_auto. Qed.

Lemma persistCommit_ranks n after :
  ranked n -> Forall (below 0) after -> releases 1 n (persistCommit after).
Proof.
  intros Hn Ha. unfold persistCommit. wlp_step. ranks_step. do 4 wlp_step. wlp_step.
  split; [|solve_below]. destruct R. subst. split; cbn; [done|]. by apply map_Forall_insert_2.
Qed.

Lemma persistHardState_ranks n after :
  ranked n -> Forall (below 2) after -> releases 3 n (persistHardState after).
Proof.
  intros Hn Ha. unfold persistHardState. wlp_step. ranks_step. do 4 wlp_step. wlp_step.
  split; [|solve_below]. destruct R. subst. split; cbn; [|done]. by apply map_Forall_insert_2.
Qed.
#[local] Hint Resolve applyThrough_ranks persistLog_ranks persistCommit_ranks persistHardState_ranks : ranks.

Lemma appendEntries_ranks n entries : ranked n -> keeps_ranks n (appendEntries entries).
Proof. intros Hn. unfold appendEntries. ranks_auto. Qed.

Lemma truncateLog_ranks n first : ranked n -> keeps_ranks n (truncateLog first).
Proof. intros Hn. unfold truncateLog. ranks_auto. Qed.

Lemma compactLog_ranks n index t : ranked n -> keeps_ranks n (compactLog index t).
Proof. intros Hn. unfold compactLog. ranks_auto. Qed.

Lemma advanceLeaderCommit_ranks n : ranked n -> keeps_ranks n advanceLeaderCommit.
Proof. intros Hn. unfold advanceLeaderCommit. ranks_auto. Qed.

Lemma becomeFollower_ranks n t leader : ranked n -> keeps_ranks n (becomeFollower t leader).
Proof. intros Hn. unfold becomeFollower. ranks_auto. Qed.
#[local] Hint Resolve appendEntries_ranks truncateLog_ranks compactLog_ranks advanceLeaderCommit_ranks
  becomeFollower_ranks : ranks.

Lemma advanceFollowerCommit_ranks n leaderCommit after :
  ranked n -> Forall (below 0) after -> releases 1 n (advanceFollowerCommit leaderCommit after).
Proof. intros Hn Ha. unfold advanceFollowerCommit. ranks_auto. Qed.

Lemma leaderAppend_ranks n entry first :
  ranked n -> Forall (below 0) first -> releases 2 n (leaderAppend entry first).
Proof. intros Hn Hf. unfold leaderAppend. ranks_auto. Qed.

Lemma recordProgress_ranks n response : ranked n -> keeps_ranks n (recordProgress response).
Proof. intros Hn. unfold recordProgress. ranks_auto. Qed.

Lemma acknowledgeRead_ranks n response : ranked n -> releases 0 n (acknowledgeRead response).
Proof. intros Hn. unfold acknowledgeRead. ranks_auto. Qed.

Lemma installSnapshotLog_ranks n index t : ranked n -> keeps_ranks n (installSnapshotLog index t).
Proof. intros Hn. unfold installSnapshotLog. ranks_auto. Qed.

Lemma acceptLeader_ranks n t from : ranked n -> keeps_ranks n (acceptLeader t from).
Proof. intros Hn. unfold acceptLeader. ranks_auto. Qed.

Lemma finish_ranks n b after : ranked n -> Forall (below 2) after -> releases 3 n (finish b after).
Proof. intros Hn Ha. unfold finish. ranks_auto. Qed.

Lemma startElection_ranks n : ranked n -> releases 3 n startElection.
Proof. intros Hn. unfold startElection. ranks_auto. Qed.
#[local] Hint Resolve advanceFollowerCommit_ranks leaderAppend_ranks recordProgress_ranks
  acknowledgeRead_ranks installSnapshotLog_ranks acceptLeader_ranks finish_ranks startElection_ranks : ranks.

(** ** Completions *)

Lemma hardStatePersisted_ranks n persistID : ranked n -> releases 2 n (hardStatePersisted persistID).
Proof.
  intros Hn. unfold hardStatePersisted. do 3 wlp_step; [|ranks_auto].
  assert (Ha : Forall (below 2) (ph_after p)) by (by eapply (rk_hard n Hn persistID)).
  wlp_step. wlp_step. assert (ranked s).
  { destruct Hn. subst. split; cbn; [by apply map_Forall_delete|done]. }
  ranks_auto.
Qed.

Lemma logEntriesPersisted_ranks n persistID : ranked n -> releases 1 n (logEntriesPersisted persistID).
Proof. intros Hn. unfold logEntriesPersisted. ranks_auto. Qed.

Lemma commitIndexPersisted_ranks n persistID : ranked n -> releases 0 n (commitIndexPersisted persistID).
Proof.
  intros Hn. unfold commitIndexPersisted. do 3 wlp_step; [|ranks_auto].
  assert (Ha : Forall (below 0) (pc_after p)) by (by eapply (rk_commit n Hn persistID)).
  wlp_step. wlp_step. assert (ranked s).
  { destruct Hn. subst. split; cbn; [done|by apply map_Forall_delete]. }
  ranks_auto.
Qed.

(** ** Every event *)

Lemma step_ranks n e : ranked n -> releases 3 n (Step e).
Proof.
  intros Hn. destruct e; cbn [Step].
  - unfold startPreVote. ranks_auto.
  - unfold heartbeatRound. ranks_auto.
  - unfold checkQuorum. ranks_auto.
  - eapply wlp_mono; [by apply hardStatePersisted_ranks|]. intros acts n' [? ?]. split; solve_below.
  - eapply wlp_mono; [by apply logEntriesPersisted_ranks|]. intros acts n' [? ?]. split; solve_below.
  - eapply wlp_mono; [by apply commitIndexPersisted_ranks|]. intros acts n' [? ?]. split; solve_below.
  - ranks_auto.
  - ranks_auto.
  - unfold RaftCore.proposeSession. ranks_auto.
  - unfold proposeSet. ranks_auto.
  - unfold proposeDelete. ranks_auto.
  - unfold confirmRead. ranks_auto.
  - unfold handlePreVoteRequest. ranks_auto.
  - unfold handlePreVoteResponse. ranks_auto.
  - unfold handleVoteRequest. ranks_auto.
  - unfold handleVoteResponse. ranks_auto.
  - unfold handleAppendEntries. ranks_auto.
  - unfold handleAppendEntriesResponse. ranks_auto.
  - unfold handleAppendEntriesFailed. ranks_auto.
  - unfold handleInstallSnapshot. ranks_auto.
  - unfold handleInstallSnapshotResponse. ranks_auto.
Qed.

(** ** The loop *)

Section Termination.
Context {S E : Type} `{DurableStore S E}.

Definition interrupted (o : outcome S E) : Prop :=
  match o with Interrupted _ _ => True | _ => False end.

(** With enough fuel the result no longer depends on it and is not an interruption. *)
Definition settles (run : nat -> outcome S E) : Prop :=
  exists fuel o, ~ interrupted o /\ forall fuel', (fuel <= fuel')%nat -> run fuel' = o.

(** The completion that answers a request has a lower rank. *)
Lemma persist_rank action (r : raftRuntime S) :
  match persist (E := E) action r with
  | Emitted => rank action = 0
  | Completed completion r' =>
      rt_core r' = rt_core r /\ 0 < rank action /\
      (ranked (rt_core r) -> releases (rank action - 1) (rt_core r) (Step completion))
  | _ => True
  end.
Proof.
  destruct action; cbn [persist rank]; try done; unfold store.
  - destruct (saveHardState _ _ _) as [[|] w]; [|done]. split_and!; [done|done|].
    intros Hr. by apply hardStatePersisted_ranks.
  - destruct (saveLog _ _ _) as [[|] w]; [|done].
    unfold observeLocal. destruct (rt_observing _); cbn [negb]; [|split_and!; [done|done|]].
    + destruct (getState _); [|done]. destruct (bool_decide _); (split_and!; [done|done|]);
        intros Hr; by apply logEntriesPersisted_ranks.
    + intros Hr. by apply logEntriesPersisted_ranks.
  - destruct (saveCommitIndex _ _) as [[|] w]; [|done]. split_and!; [done|done|].
    intros Hr. by apply commitIndexPersisted_ranks.
Qed.

Definition countRank (k : N) (l : list Action) : nat := length (filter (fun a => rank a = k) l).

Lemma countRank_app k l l' : countRank k (l ++ l') = (countRank k l + countRank k l')%nat.
Proof. unfold countRank. by rewrite filter_app, length_app. Qed.

Lemma countRank_above k j l : Forall (below j) l -> j < k -> countRank k l = 0%nat.
Proof.
  intros Hl Hk. unfold countRank. induction Hl as [|a l Ha _ IH]; [done|].
  rewrite filter_cons_False by lia. done.
Qed.

Lemma countRank_cons k a l :
  countRank k (a :: l) = ((if (rank a =? k)%N then 1 else 0) + countRank k l)%nat.
Proof. unfold countRank. rewrite filter_cons. by destruct (decide _), (N.eqb_spec (rank a) k). Qed.

(** Requests by rank, then the length of the queue. *)
Definition weight (l : list Action) : nat * (nat * (nat * nat)) :=
  (countRank 3 l, (countRank 2 l, (countRank 1 l, length l))).

Definition lighter : nat * (nat * (nat * nat)) -> nat * (nat * (nat * nat)) -> Prop :=
  slexprod _ _ lt (slexprod _ _ lt (slexprod _ _ lt lt)).

Lemma lighter_wf : well_founded lighter.
Proof. repeat apply wf_slexprod; apply lt_wf. Qed.

Lemma emitted_lighter a l : rank a = 0 -> lighter (weight l) (weight (a :: l)).
Proof.
  intros Ha. unfold weight. rewrite !countRank_cons, Ha. cbn. repeat apply right_slex. lia.
Qed.

Lemma completed_lighter a l more :
  0 < rank a -> Forall (below (rank a - 1)) more -> lighter (weight (l ++ more)) (weight (a :: l)).
Proof.
  intros Ha Hm. assert (Hr : rank a = 3 \/ rank a = 2 \/ rank a = 1) by (destruct a; cbn in *; lia).
  unfold weight. rewrite !countRank_app, !countRank_cons.
  destruct Hr as [Hr|[Hr|Hr]]; rewrite Hr in *; cbn -[countRank].
  - apply left_slex. rewrite (countRank_above 3 _ more Hm) by lia. lia.
  - rewrite (countRank_above 3 _ more Hm), Nat.add_0_r by lia. apply right_slex, left_slex.
    rewrite (countRank_above 2 _ more Hm) by lia. lia.
  - rewrite (countRank_above 3 _ more Hm), (countRank_above 2 _ more Hm), !Nat.add_0_r by lia.
    do 2 apply right_slex. apply left_slex. rewrite (countRank_above 1 _ more Hm) by lia. lia.
Qed.

Lemma settles_const o : ~ interrupted o -> settles (fun _ => o).
Proof. intros Ho. by exists 0%nat, o. Qed.

Lemma drain_settles pending emitted (r : raftRuntime S) :
  ranked (rt_core r) -> settles (fun fuel => drain fuel pending emitted r).
Proof.
  remember (weight pending) as w eqn:Hw. revert pending emitted r Hw.
  induction w as [w IH] using (well_founded_induction lighter_wf). intros pending emitted r -> Hr.
  destruct pending as [|action pending]; [exists 0%nat; eexists; split; [|by intros [|f]]; by intros []|].
  pose proof (persist_rank action r) as Hp.
  assert (Hnext : settles (fun fuel => drain (Datatypes.S fuel) (action :: pending) emitted r)).
  { cbn [drain]. destruct (persist action r) as [|completion r'| |]; try (apply settles_const; by intros []).
    - eapply IH; [|done|done]. by apply emitted_lighter.
    - destruct Hp as (Hcore & Hpos & Hrel). specialize (Hrel Hr). unfold wlp in Hrel. rewrite Hcore.
      destruct (Step completion (rt_core r)) as [[more core]|]; [|apply settles_const; by intros []].
      destruct Hrel as [Hrk Hmore]. eapply IH; [|done|done]. by apply completed_lighter. }
  destruct Hnext as (fuel & o & Ho & Hrun). exists (Datatypes.S fuel), o. split; [done|].
  intros [|fuel'] Hle; [lia|]. apply Hrun. lia.
Qed.

Lemma step_reaches_end event (r : raftRuntime S) :
  ranked (rt_core r) -> settles (fun fuel => step fuel event r).
Proof.
  intros Hr. unfold step. pose proof (step_ranks (rt_core r) event Hr) as Hs. unfold wlp in Hs.
  destruct (Step event (rt_core r)) as [[pending core]|]; [|apply settles_const; by intros []].
  apply drain_settles. apply Hs.
Qed.

Lemma drain_ranked fuel pending emitted (r : raftRuntime S) acts r' :
  drain (E := E) fuel pending emitted r = Done acts r' -> ranked (rt_core r) -> ranked (rt_core r').
Proof.
  revert pending emitted r. induction fuel as [|fuel IH]; intros [|action pending] emitted r;
    cbn [drain]; try done; try (by intros [= <- <-]).
  pose proof (persist_rank action r) as Hp.
  destruct (persist action r) as [|completion r1| |]; try done; [apply IH|].
  destruct Hp as (Hcore & _ & Hrel). rewrite Hcore. intros Hd Hr. specialize (Hrel Hr).
  unfold wlp in Hrel. destruct (Step completion (rt_core r)) as [[more core]|]; [|done].
  eapply IH; [exact Hd|]. apply Hrel.
Qed.

Lemma step_ranked fuel event (r : raftRuntime S) acts r' :
  step (E := E) fuel event r = Done acts r' -> ranked (rt_core r) -> ranked (rt_core r').
Proof.
  unfold step. intros Hd Hr. pose proof (step_ranks (rt_core r) event Hr) as Hs. unfold wlp in Hs.
  destruct (Step event (rt_core r)) as [[pending core]|]; [|done].
  eapply drain_ranked; [exact Hd|]. apply Hs.
Qed.

(** The runtimes a process reaches: opened from durable state, then stepped. *)
Inductive serves : raftRuntime S -> Prop :=
| serves_opened id ps recovered r :
    rt_core r = NewNodeFromRecoveredState id ps recovered -> serves r
| serves_stepped fuel event r acts r' :
    serves r -> step (E := E) fuel event r = Done acts r' -> serves r'.

Lemma serves_ranked r : serves r -> ranked (rt_core r).
Proof.
  induction 1 as [id ps recovered r Hr|fuel event r acts r' _ IH Hstep]; [|by eapply step_ranked].
  rewrite Hr. unfold NewNodeFromRecoveredState. destruct (last_entry _); split; cbn; apply map_Forall_empty.
Qed.

(** C24: the action loop of the runtime terminates: for every event there is an amount of
    fuel from which on the result is the same, and it is not the running out of fuel. *)
Theorem runtime_step_terminates event r :
  serves r ->
  exists fuel o, ~ interrupted o /\ forall fuel', (fuel <= fuel')%nat -> step fuel' event r = o.
Proof. intros Hr. apply step_reaches_end. by apply serves_ranked. Qed.
End Termination.

Lemma runtime_step_terminates_witness :
  exists fuel o, ~ interrupted o /\ forall fuel', (fuel <= fuel')%nat ->
    step fuel' (EvVoteRequest (mkVoteRequest "n2" 3 0 0))
      (openRuntime "n1" ["n2"; "n3"] (mkRecoveredState (mkHardState 2 "") [] 0 0 0)
         (mkWAL [] 4096 0 false 0 0 0 (Wal.mkHardState 0 "") (mkIdentity "c" "n1") 0 0 ∅)) = o.
Proof. apply (runtime_step_terminates (S := WAL) (E := Error)). by eapply serves_opened. Defined.
