(* ===== verification/RuntimeActions.v ===== *)
(** What a runtime step emits: the actions of the core, in order, with the persistence
    requests replaced by what their completions released. *)

From S2P Require Import Prelude RaftTypes RaftCore RaftLog RaftInvariant RaftElection RaftActions RaftAppend Runtime.

Definition isPersist (a : Action) : bool :=
  match a with
  | PersistHardState _ _ _ | PersistLogEntries _ _ _ | PersistCommitIndex _ _ => true
  | _ => false
  end.

Section RuntimeActions.
Context {S E : Type} `{DurableStore S E}.

Lemma persist_shape action (r : raftRuntime S) :
  match persist (E := E) action r with
  | Emitted => isPersist action = false
  | Completed completion r' =>
      rt_core r' = rt_core r /\ isPersist action = true /\ is_completion completion = true
  | _ => True
  end.
Proof.
  destruct action; cbn [persist]; try done; unfold store.
  - by destruct (saveHardState _ _ _) as [[|] w].
  - destruct (saveLog _ _ _) as [[|] w]; [|done]. unfold observeLocal.
    destruct (rt_observing _); cbn [negb]; [|done]. destruct (getState _); [|done].
    by destruct (bool_decide _).
  - by destruct (saveCommitIndex _ _) as [[|] w].
Qed.

(** A property of the actions so far and the core holds at the end of the loop when
    every completion keeps it. *)
Lemma drain_rule (J : list Action -> Node -> Prop) :
  (forall before action after core completion more core',
     isPersist action = true -> is_completion completion = true ->
     J (before ++ action :: after) core -> Step completion core = Some (more, core') ->
     J (before ++ after ++ more) core') ->
  forall fuel pending emitted (r : raftRuntime S) acts r',
  drain (E := E) fuel pending emitted r = Done acts r' ->
  J (emitted ++ pending) (rt_core r) -> J acts (rt_core r').
Proof.
  intros Hstep fuel. induction fuel as [|fuel IH]; intros [|action pending] emitted r acts r';
    cbn [drain]; try done; try (intros [= <- <-]; by rewrite app_nil_r).
  pose proof (persist_shape action r) as Hp.
  destruct (persist action r) as [|completion r1| |]; try done.
  - intros Hd HJ. eapply IH; [exact Hd|]. by rewrite <- app_assoc.
  - destruct Hp as (Hc & Ha & Hcomp). rewrite Hc.
    destruct (Step completion (rt_core r)) as [[more core]|] eqn:Es; [|done].
    intros Hd HJ. eapply IH; [exact Hd|]. cbn. by eapply Hstep.
Qed.

Lemma step_rule (J : list Action -> Node -> Prop) fuel event (r : raftRuntime S) acts r' :
  (forall before action after core completion more core',
     isPersist action = true -> is_completion completion = true ->
     J (before ++ action :: after) core -> Step completion core = Some (more, core') ->
     J (before ++ after ++ more) core') ->
  step (E := E) fuel event r = Done acts r' ->
  (forall pending core, Step event (rt_core r) = Some (pending, core) -> J pending core) ->
  J acts (rt_core r').
Proof.
  unfold step. intros Hrule Hd Hinit. destruct (Step event (rt_core r)) as [[pending core]|] eqn:Es; [|done].
  eapply drain_rule; [exact Hrule|exact Hd|]. by apply Hinit.
Qed.

(** Plain actions of the core reach the caller. *)
Lemma step_emits fuel event (r : raftRuntime S) acts r' pending core a :
  step (E := E) fuel event r = Done acts r' -> Step event (rt_core r) = Some (pending, core) ->
  isPersist a = false -> a ∈ pending -> a ∈ acts.
Proof.
  intros Hd Hs Ha Hin. eapply (step_rule (fun acts _ => a ∈ acts)); [|exact Hd|].
  - intros before action after core0 completion more core' Hp _ Hi _. cbn.
    rewrite !elem_of_app, elem_of_cons in *. destruct Hi as [?|[->|?]]; [auto|congruence|auto].
  - intros pending' core'. rewrite Hs. by intros [= <- <-].
Qed.

(** ** Verdicts *)

Lemma step_gives_verdicts fuel event (r : raftRuntime S) acts r' :
  step (E := E) fuel event r = Done acts r' -> verdict_guarded (rt_core r) ->
  verdict_guarded (rt_core r') /\ (verdicts acts <= if isProposal event then 1 else 0)%nat.
Proof.
  intros Hd Hg.
  apply (step_rule (fun acts n => verdict_guarded n /\
           (verdicts acts <= if isProposal event then 1 else 0)%nat) fuel event r acts r'); [|exact Hd|].
  - intros before action after core completion more core' Hp Hc [Hg' Hv] Hs.
    pose proof (wlp_elim _ _ _ _ _ (step_verdicts core completion Hg') Hs) as [Hg'' Hm].
    assert (isProposal completion = false) as Hnp by (by destruct completion). rewrite Hnp in Hm.
    split; [done|]. rewrite verdicts_app, verdicts_cons in Hv. rewrite !verdicts_app. lia.
  - intros pending core Hs. by apply (wlp_elim _ _ _ _ _ (step_verdicts (rt_core r) event Hg) Hs).
Qed.

(** ** Applications *)

Lemma persist_not_applied a : isPersist a = true -> applied [a] = [].
Proof. by destruct a. Qed.

(** The entries are applied in order, each one the log's. *)
Record applying (la : N) (l : list LogEntry) (base : N) (acts : list Action) (n : Node) : Prop := {
  ap_wf : wf n; ap_caught : caught_up_node n; ap_log : log n = l; ap_base : logBaseIndex n = base;
  ap_position : base <= la <= lastApplied n;
  ap_entries : applied acts = entriesBetween n la (lastApplied n) }.

Lemma applying_completion la l base before action after core completion more core' :
  isPersist action = true -> is_completion completion = true ->
  applying la l base (before ++ action :: after) core -> Step completion core = Some (more, core') ->
  applying la l base (before ++ after ++ more) core'.
Proof.
  intros Hp Hc [Hwf Hcu Hl Hb Hla Ha] Hs.
  destruct (wp_elim _ _ _ _ _ (completion_applies core completion Hwf Hcu Hc) Hs)
    as (Hwf' & Hcu' & Hle & Hm & Hl' & Hb').
  split; try done; [congruence..|lia|].
  assert (Heq : forall a b, entriesBetween core' a b = entriesBetween core a b)
    by (intros; unfold entriesBetween; by rewrite Hl', Hb').
  rewrite Heq, (entriesBetween_app core la (lastApplied core)) by lia.
  rewrite app_assoc, applied_app, Hm, <- Ha. f_equal. change (action :: after) with ([action] ++ after).
  by rewrite !applied_app, (persist_not_applied _ Hp).
Qed.

Lemma step_applies_in_order fuel event (r : raftRuntime S) acts r' :
  step (E := E) fuel event r = Done acts r' ->
  wf (rt_core r) -> caught_up_node (rt_core r) -> event_ok (rt_core r) event ->
  appliesEntries event = false ->
  wf (rt_core r') /\ caught_up_node (rt_core r') /\
  logBaseIndex (rt_core r') <= lastApplied (rt_core r) <= lastApplied (rt_core r') /\
  applied acts = entriesBetween (rt_core r') (lastApplied (rt_core r)) (lastApplied (rt_core r')) /\
  retains (appliedPart (rt_core r)) (rt_core r').
Proof.
  intros Hd Hwf Hcu Hok Ha. pose proof (step_wf _ _ Hwf Hok) as Hw.
  destruct (wp_run _ _ _ Hw) as (pending & core & Hs & Hwf1).
  destruct (wlp_elim _ _ _ _ _ (step_applies_nothing _ _ Hcu Ha) Hs) as (Hcu1 & Hla & Happ).
  assert (Hap : applying (lastApplied (rt_core r)) (log core) (logBaseIndex core) acts (rt_core r')).
  { eapply step_rule; [|exact Hd|].
    - intros *. apply applying_completion.
    - intros pending' core'. rewrite Hs. intros [= <- <-].
      pose proof (wf_base _ Hwf1). split; try done; [lia|]. by rewrite Happ, Hla, entriesBetween_same. }
  pose proof (wlp_elim _ _ _ _ _ (step_keeps_applied _ _ Hwf Hok Ha) Hs) as Hr.
  destruct Hap. split_and!; try done; [lia..|]. eapply retains_trans; [exact Hr|]. by apply retains_frame.
Qed.

(** Without persistence requests the loop returns the actions as they are. *)
Lemma drain_plain fuel pending emitted (r : raftRuntime S) acts r' :
  drain (E := E) fuel pending emitted r = Done acts r' -> Forall (fun a => isPersist a = false) pending ->
  acts = emitted ++ pending /\ r' = r.
Proof.
  revert pending emitted. induction fuel as [|fuel IH]; intros [|action pending] emitted; cbn [drain];
    try done; try (intros [= <- <-]; by rewrite app_nil_r).
  intros Hd [Ha Hp]%Forall_cons. pose proof (persist_shape action r) as Hs.
  destruct (persist action r) as [|? ?| |]; try done; [|destruct Hs as (_ & ? & _); congruence].
  destruct (IH _ _ Hd Hp) as [-> ->]. by rewrite <- app_assoc.
Qed.

Lemma apply_effects n through acts :
  Forall (apply_effect n through) acts -> role n <> Leader -> pendingReads n = ∅ ->
  acts = map ApplyEntry (applied acts).
Proof.
  intros Hall Hr Hp. induction Hall as [|a acts Ha _ IH]; [done|]. unfold applied in *. cbn.
  destruct a; cbn in Ha; try done; [cbn; f_equal; exact IH|by destruct Ha|].
  destruct Ha as (r & Hl & _). by rewrite Hp, lookup_empty in Hl.
Qed.

(** Recovery applies exactly what is durably committed. *)
Lemma recover_applies fuel (r : raftRuntime S) acts r' :
  step (E := E) fuel RecoverCommitted r = Done acts r' -> wf (rt_core r) ->
  pendingReads (rt_core r) = ∅ -> role (rt_core r) <> Leader ->
  apply_frame (durableCommitIndex (rt_core r)) (rt_core r) (rt_core r') /\
  acts = map ApplyEntry
    (entriesBetween (rt_core r) (lastApplied (rt_core r)) (durableCommitIndex (rt_core r))).
Proof.
  intros Hd Hwf Hp Hr. set (n := rt_core r) in *.
  assert (Hspec : wp (Step RecoverCommitted) (fun acts n' => apply_frame (durableCommitIndex n) n n' /\
    acts = map ApplyEntry (entriesBetween n (lastApplied n) (durableCommitIndex n))) n).
  { cbn [Step]. wp_step. wp_step. eapply wp_mono; [apply applyThrough_spec; [done|destruct Hwf; lia]|].
    intros acts' n' (Hf & Happ & Heff). split; [done|]. rewrite <- Happ. by eapply apply_effects. }
  destruct (wp_run _ _ _ Hspec) as (pending & core & Hs & Hf & ->).
  unfold step in Hd. fold n in Hd. rewrite Hs in Hd.
  apply drain_plain in Hd as [-> ->]; [by split|]. by apply Forall_map, Forall_true.
Qed.

(** ** Timers *)

Lemma completions_not_raised fuel event (r : raftRuntime S) acts r' pending core :
  step (E := E) fuel event r = Done acts r' -> Step event (rt_core r) = Some (pending, core) ->
  not_raised core (rt_core r').
Proof.
  intros Hd Hs. eapply (step_rule (fun _ n => not_raised core n)); [|exact Hd|].
  - intros before action after core0 completion more core' _ Hc H0 Hs'.
    assert (Hh : humble core0 (Step completion)) by (apply step_humble; by destruct completion).
    pose proof (wlp_elim _ _ _ _ _ Hh Hs') as H1. unfold not_raised in *. auto.
  - intros pending' core'. rewrite Hs. intros [= <- <-]. by intros ?.
Qed.

(** Only an election makes a Leader. *)
Lemma step_not_raised fuel event (r : raftRuntime S) acts r' :
  step (E := E) fuel event r = Done acts r' ->
  match event with EvVoteResponse _ => False | _ => True end -> not_raised (rt_core r) (rt_core r').
Proof.
  intros Hd He. destruct (Step event (rt_core r)) as [[pending core]|] eqn:Hs; [|by unfold step in Hd; rewrite Hs in Hd].
  pose proof (completions_not_raised _ _ _ _ _ _ _ Hd Hs).
  pose proof (wlp_elim _ _ _ _ _ (step_humble _ _ He) Hs). unfold not_raised in *. auto.
Qed.

(** Timer requests reach the caller. *)
Lemma step_serves_timers fuel event (r : raftRuntime S) acts r' :
  step (E := E) fuel event r = Done acts r' -> timers_served (rt_core r) event acts (rt_core r').
Proof.
  intros Hd. destruct (Step event (rt_core r)) as [[pending core]|] eqn:Hs; [|by unfold step in Hd; rewrite Hs in Hd].
  pose proof (completions_not_raised _ _ _ _ _ _ _ Hd Hs) as Hr.
  pose proof (wlp_elim _ _ _ _ _ (step_timers _ _) Hs) as Ht.
  intros Hl. specialize (Ht (Hr Hl)) as (Hb & Hh & Hq).
  assert (He : forall a, isPersist a = false -> a ∈ pending -> a ∈ acts)
    by (intros a Ha Hin; by eapply step_emits).
  split_and!; [|auto|auto]. destruct Hb as [Hb|[? ?]]; [by left|right]; auto.
Qed.

(** The election timer is requested again unless the Node leads. *)
Lemma step_rearms_election fuel (r : raftRuntime S) acts r' :
  step (E := E) fuel ElectionTimeout r = Done acts r' -> role (rt_core r) <> Leader ->
  ResetElectionTimer ∈ acts.
Proof.
  intros Hd Hr. destruct (Step ElectionTimeout (rt_core r)) as [[pending core]|] eqn:Hs;
    [|by unfold step in Hd; rewrite Hs in Hd].
  eapply step_emits; [exact Hd|exact Hs|done|].
  assert (Hw : wlp startPreVote (fun acts _ => ResetElectionTimer ∈ acts) (rt_core r)).
  { unfold startPreVote. do 3 wlp_step; [by reflect_bools|]. do 4 wlp_step. wlp_step; [wlp_step|wlp_step; set_solver].
    eapply (wlp_mono _ (fun _ _ => True)); [unfold wlp; by destruct (startElection s) as [[]|]|].
    intros. wlp_step. set_solver. }
  exact (wlp_elim _ _ _ _ _ Hw Hs).
Qed.
(** ** The Leader's log *)

(** A Leader that is still the Leader after a runtime step has kept its log. *)
Lemma step_retains_log fuel event (r : raftRuntime S) acts r' :
  step (E := E) fuel event r = Done acts r' -> wf (rt_core r) -> event_ok (rt_core r) event ->
  role (rt_core r) = Leader -> role (rt_core r') = Leader -> retains (rt_core r) (rt_core r').
Proof.
  intros Hd Hwf Hok Hl. pose (J (_ : list Action) n := wf n /\ leader_retains (rt_core r) n).
  assert (HJ : J acts (rt_core r')).
  { eapply step_rule; [|exact Hd|].
    - intros before action after core completion more core' _ Hc [Hwf' Hr] Hs.
      assert (Hok' : event_ok core completion) by (by destruct completion).
      split; [exact (wp_elim _ _ _ _ _ (step_wf _ _ Hwf' Hok') Hs)|]. intros Hl'.
      assert (Hh : humble core (Step completion)) by (apply step_humble; by destruct completion).
      pose proof (wlp_elim _ _ _ _ _ Hh Hs Hl') as Hl1.
      eapply retains_trans; [by apply Hr|].
      exact (wlp_elim _ _ _ _ _ (step_retains _ _ Hwf' Hl1) Hs Hl').
    - intros pending core Hs. split; [exact (wp_elim _ _ _ _ _ (step_wf _ _ Hwf Hok) Hs)|].
      exact (wlp_elim _ _ _ _ _ (step_retains _ _ Hwf Hl) Hs). }
  by apply HJ.
Qed.

Definition unaccepted (a : Action) : Prop :=
  match a with ProposalAccepted _ _ => False | _ => True end.

Lemma unaccepted_verdicts acts : verdicts acts = 0%nat -> Forall unaccepted acts.
Proof.
  induction acts as [|a acts IH]; [constructor|]. rewrite verdicts_cons. intros Hv.
  constructor; [|apply IH; lia]. destruct a; done || (cbn in Hv; lia).
Qed.

(** The verdict comes first, and an accepted entry is in the log. *)
Definition settled (n0 : Node) (event : Event) (acts : list Action) (n : Node) : Prop :=
  Forall unaccepted acts \/
  exists id rest, acts = ProposalAccepted id (lastLogIndex n0 + 1) :: rest /\ Forall unaccepted rest /\
    role n0 = Leader /\ exists x, proposedEntry (lastLogIndex n0 + 1) (term n0) event = Some x /\
      entryAt n (lastLogIndex n0 + 1) = Some x.

Lemma settled_completion n0 event before action after core more core' :
  isPersist action = true -> verdicts more = 0%nat -> log_frame core core' ->
  settled n0 event (before ++ action :: after) core -> settled n0 event (before ++ after ++ more) core'.
Proof.
  intros Hp Hv [Hl Hb] Hs.
  assert (Hm : forall l, Forall unaccepted (l ++ action :: after) -> Forall unaccepted (l ++ after ++ more)).
  { intros l. rewrite !Forall_app, Forall_cons. intros (? & _ & ?). split_and!; [done..|].
    by apply unaccepted_verdicts. }
  destruct Hs as [Hs|(id & rest & Ha & Hr & Hrole & He)]; [left; by apply Hm|right].
  destruct before as [|b before]; cbn in Ha; injection Ha as -> Ha; [discriminate Hp|].
  eexists _, _. split_and!; [reflexivity|apply Hm; by rewrite Ha|done|].
  unfold entryAt in *. by rewrite Hl, Hb.
Qed.

Lemma step_settles fuel event (r : raftRuntime S) acts r' :
  step (E := E) fuel event r = Done acts r' -> wf (rt_core r) -> caught_up_node (rt_core r) ->
  verdict_guarded (rt_core r) -> event_ok (rt_core r) event -> appliesEntries event = false ->
  settled (rt_core r) event acts (rt_core r').
Proof.
  intros Hd Hwf Hcu Hg Hok Ha.
  pose (J acts n := wf n /\ caught_up_node n /\ verdict_guarded n /\ settled (rt_core r) event acts n).
  assert (HJ : J acts (rt_core r')); [|apply HJ]. eapply step_rule; [|exact Hd|].
  - intros before action after core completion more core' Hp Hc (Hwf' & Hcu' & Hg' & Hs') Hs.
    destruct (wp_elim _ _ _ _ _ (completion_applies _ _ Hwf' Hcu' Hc) Hs) as (? & ? & _ & _ & Hlf).
    destruct (wlp_elim _ _ _ _ _ (step_verdicts _ completion Hg') Hs) as [? Hv].
    split_and!; [done..|]. eapply settled_completion; [done| |done|exact Hs'].
    destruct completion; try discriminate Hc; cbn in Hv; lia.
  - intros pending core Hs.
    destruct (wlp_elim _ _ _ _ _ (step_applies_nothing _ _ Hcu Ha) Hs) as (? & _).
    destruct (wlp_elim _ _ _ _ _ (step_verdicts _ event Hg) Hs) as [? Hv].
    split_and!; [exact (wp_elim _ _ _ _ _ (step_wf _ _ Hwf Hok) Hs)|done..|].
    destruct (isProposal event) eqn:Hp; [|left; apply unaccepted_verdicts; lia].
    destruct (wlp_elim _ _ _ _ _ (proposal_decided _ _ Hwf Hok Hp) Hs) as [->|[(id & leader & ->)|(id & rest & -> & Hr & He)]].
    + left. constructor.
    + left. by repeat constructor.
    + right. exists id, rest. split_and!; try done. apply unaccepted_verdicts. rewrite verdicts_cons in Hv. cbn in Hv. lia.
Qed.

End RuntimeActions.
