(* ===== verification/Durability.v ===== *)
(** What the runtime promises about votes.

    [DurableLaws] states what a store owes the runtime: which hard state a
    restart reads back after a completed, failed or interrupted save.  Against
    this interface the file proves that one [step] of the runtime refines the
    abstract election machine, that it releases a vote only once the vote is the
    only hard state a restart can find, and that an interrupted [step] leaves
    the old hard state or one that may follow it. *)

From S2P Require Import Prelude RaftTypes RaftCore RaftElection Runtime.

(** ** The contract of the store *)

(** [h'] may follow [h]: a later term, a first vote in the same term, or no change. *)
Definition hard_follows (h h' : HardState) : Prop :=
  hs_Term h < hs_Term h' \/ (hs_Term h = hs_Term h' /\ hs_VotedFor h = "") \/ h = h'.

(** Every restart from [s] reads back a hard state in [P] and continues from a
    store [settled] on it. *)
Definition leaves_with {S} (reopens : S -> RecoveredState -> S -> Prop)
    (settled : S -> HardState -> Prop) (s : S) (P : HardState -> Prop) : Prop :=
  forall r s', reopens s r s' -> P (rs_HardState r) /\ settled s' (rs_HardState r).

(** [settled s h]: any restart from [s] reads back [h].  [reopens s r s']: a
    restart from [s] may recover [r] and continue with [s'].  [partial a s s']:
    a process that dies while it executes action [a] in [s] may leave [s']. *)
Class DurableLaws (S E : Type) `{DurableStore S E} := {
  settled : S -> HardState -> Prop;
  reopens : S -> RecoveredState -> S -> Prop;
  partial : Action -> S -> S -> Prop;
  settled_leaves s h : settled s h -> leaves_with reopens settled s (eq h);
  saveHardState_settled s h t v s' :
    settled s h -> t < two64 -> hard_follows h (mkHardState t v) ->
    saveHardState t v s = (Ok tt, s') ->
    settled s' (mkHardState t v);
  saveHardState_failed s h t v e s' :
    settled s h -> t < two64 -> hard_follows h (mkHardState t v) ->
    saveHardState t v s = (Err e, s') ->
    leaves_with reopens settled s' (fun h' => h' = h \/ h' = mkHardState t v);
  truncateEntries_settled s h first res s' :
    settled s h -> truncateEntries first s = (res, s') -> settled s' h;
  saveEntries_settled s h entries res s' :
    settled s h -> saveEntries entries s = (res, s') -> settled s' h;
  saveCommitIndex_settled s h index res s' :
    settled s h -> saveCommitIndex index s = (res, s') -> settled s' h;
  partial_hard s h persistID t v s' :
    settled s h -> t < two64 -> hard_follows h (mkHardState t v) ->
    partial (PersistHardState persistID t v) s s' ->
    leaves_with reopens settled s' (fun h' => h' = h \/ h' = mkHardState t v);
  partial_other s h a s' :
    settled s h -> match a with PersistHardState _ _ _ => False | _ => True end ->
    partial a s s' -> settled s' h }.

(** ** Definitions *)

Definition hardOf (n : Node) : HardState := mkHardState (term n) (votedFor n).

(** The fields the election machine talks about. *)
Definition same_election (n n' : Node) : Prop :=
  node_id n' = node_id n /\ peers n' = peers n /\ role n' = role n /\ term n' = term n /\
  votedFor n' = votedFor n /\ votes n' = votes n.

Section Durability.
Context {S E : Type} `{DurableLaws S E}.

Abbreviation leaves := (leaves_with reopens settled).

(** The store holds exactly the hard state the core believes to be durable. *)
Record steady (r : raftRuntime S) : Prop := {
  sd_clean : clean (rt_core r);
  sd_commits : commits_vote_free (rt_core r);
  sd_settled : settled (rt_wal r) (hardOf (rt_core r)) }.

(** An interrupted run leaves hard states in [P], whether or not the next action
    was begun. *)
Definition dead_ok (P : HardState -> Prop) (o : outcome S E) : Prop :=
  match o with
  | Done _ _ => True
  | Failed _ r | Panicked r => leaves (rt_wal r) P
  | Interrupted next r =>
      leaves (rt_wal r) P /\ forall s', partial next (rt_wal r) s' -> leaves s' P
  end.

(** A finished run ends in a [steady] runtime and emitted only votes that are durable. *)
Definition done_ok (Q : Node -> Prop) (o : outcome S E) : Prop :=
  match o with
  | Done emitted r => steady r /\ Q (rt_core r) /\ Forall (vote_ok (rt_core r)) emitted
  | _ => True
  end.

(** ** Lemmas *)

Lemma leaves_mono s (P Q : HardState -> Prop) : leaves s P -> (forall h, P h -> Q h) -> leaves s Q.
Proof. intros HP Himp r s' Hr. destruct (HP r s' Hr). auto. Qed.

Lemma leaves_settled s h (P : HardState -> Prop) : settled s h -> P h -> leaves s P.
Proof. intros Hs HP. eapply leaves_mono; [by apply settled_leaves|]. by intros ? <-. Qed.

Lemma elect_step_follows n e n' : elect_step n e n' -> hard_follows (hardOf n) (hardOf n').
Proof.
  unfold hard_follows, hardOf. destruct 1; cbn.
  - right; right. congruence.
  - by left.
  - right; left. by split.
  - left. lia.
  - right; right. congruence.
Qed.

Lemma elect_step_bound n e n' :
  elect_step n e n' -> term n + 1 < two64 -> event_term e < two64 -> term n' < two64.
Proof. destruct 1; lia. Qed.

Lemma saveLog_settled s h truncateFrom entries res s' :
  settled s h -> saveLog truncateFrom entries s = (res, s') -> settled s' h.
Proof.
  unfold saveLog, ebind. intros Hs. destruct (negb _).
  - destruct (truncateEntries truncateFrom s) as [[[]|e] s1] eqn:E1.
    + intros. eapply saveEntries_settled; [|done]. by eapply truncateEntries_settled.
    + intros [= <- <-]. by eapply truncateEntries_settled.
  - cbn. intros. by eapply saveEntries_settled.
Qed.

Lemma observeLocal_same entries (r r' : raftRuntime S) :
  observeLocal entries r = Some r' -> rt_core r' = rt_core r /\ rt_wal r' = rt_wal r.
Proof.
  unfold observeLocal. destruct (negb _); [by intros [= <-]|].
  destruct (getState _) as [state|]; [|done].
  destruct (bool_decide _); by intros [= <-].
Qed.

(** An action other than a hard-state request keeps the store settled. *)
Definition handled_ok (r : raftRuntime S) (h : HardState) (x : handled (S := S) (E := E)) : Prop :=
  match x with
  | Emitted => True
  | Completed e r' =>
      rt_core r' = rt_core r /\ settled (rt_wal r') h /\
      exists id, e = LogEntriesPersisted id \/ e = CommitIndexPersisted id
  | StorageFailed _ r' | ObserverPanicked r' => settled (rt_wal r') h
  end.

Lemma persist_other a r h :
  match a with PersistHardState _ _ _ => False | _ => True end ->
  settled (rt_wal r) h -> handled_ok r h (persist a r).
Proof.
  intros Ha Hs. destruct a; try done; cbn [persist]; unfold store.
  - destruct (saveLog TruncateFrom Entries (rt_wal r)) as [[[]|e] w] eqn:E1.
    all: assert (settled w h) by (by eapply saveLog_settled).
    + destruct (observeLocal _ _) as [r'|] eqn:E2; [|done].
      apply observeLocal_same in E2 as [Ec Ew]. cbn in *. rewrite Ec, Ew. eauto.
    + done.
  - cbn. destruct (saveCommitIndex CommitIndex (rt_wal r)) as [[[]|e] w] eqn:E1.
    all: assert (settled w h) by (by eapply saveCommitIndex_settled).
    all: cbn; eauto.
Qed.

(** Completions of log and commit saves do not concern the election state. *)
Lemma completion_neutral n e id :
  commits_vote_free n -> e = LogEntriesPersisted id \/ e = CommitIndexPersisted id ->
  neutral n (Step e).
Proof.
  intros Hc [->| ->]; cbn [Step]; [apply logEntriesPersisted_neutral|by apply commitIndexPersisted_neutral].
Qed.

Lemma eframe_clean n n' : eframe n n' -> clean n -> clean n'.
Proof. unfold eframe, clean. intros. destruct_and!. split_and!; congruence. Qed.

Lemma eframe_hardOf n n' : eframe n n' -> hardOf n' = hardOf n.
Proof. unfold eframe, hardOf. intros. destruct_and!. congruence. Qed.

Lemma eframe_commits n n' : eframe n n' -> commits_vote_free n -> commits_vote_free n'.
Proof. unfold eframe. intros. destruct_and!. auto. Qed.

Lemma eframe_vote_ok n n' a : eframe n n' -> vote_ok n a -> vote_ok n' a.
Proof. unfold eframe. intros. destruct_and!. destruct a; try done. cbn in *. by intuition congruence. Qed.

Lemma eframe_votes_ok n n' acts : eframe n n' -> Forall (vote_ok n) acts -> Forall (vote_ok n') acts.
Proof. intros F Hall. eapply Forall_impl; [exact Hall|]. intros a. by apply eframe_vote_ok. Qed.

Lemma vote_ok_other n a : vote_ok n a -> match a with PersistHardState _ _ _ => False | _ => True end.
Proof. by destruct a. Qed.

Lemma vote_free_other a : vote_free a -> match a with PersistHardState _ _ _ => False | _ => True end.
Proof. by destruct a. Qed.

Lemma same_trans n1 n2 n3 : same_election n1 n2 -> same_election n2 n3 -> same_election n1 n3.
Proof. unfold same_election. intros. destruct_and!. split_and!; congruence. Qed.

Lemma eframe_same n n' : eframe n n' -> same_election n n'.
Proof. unfold eframe, same_election. intros. by destruct_and!. Qed.

Lemma elect_step_same n e n1 n2 : elect_step n e n1 -> same_election n1 n2 -> elect_step n e n2.
Proof.
  intros Hs (Hid & Hp & Hr & Ht & Hv & Hvs). inversion Hs; subst.
  - apply es_keep; [congruence..|]. rewrite Hr, Hvs. auto.
  - apply es_newer; [congruence..|]. rewrite Hv. auto.
  - apply es_grant; congruence.
  - apply es_start; congruence.
  - apply es_vote; congruence.
Qed.

(** With no hard-state request outstanding the loop keeps the runtime steady. *)
Lemma drain_steady fuel pending emitted r n :
  steady r -> eframe n (rt_core r) ->
  Forall (vote_ok (rt_core r)) pending -> Forall (vote_ok (rt_core r)) emitted ->
  done_ok (eframe n) (drain fuel pending emitted r) /\
  dead_ok (eq (hardOf n)) (drain fuel pending emitted r).
Proof.
  revert pending emitted r.
  induction fuel as [|fuel IH]; intros [|a pending] emitted r Hsd F Hp He; cbn [drain].
  all: pose proof (sd_settled r Hsd) as Hset; rewrite (eframe_hardOf _ _ F) in Hset.
  1,3: by split_and!.
  - apply Forall_cons in Hp as [Ha _]. split; [done|]. split; [by eapply leaves_settled|].
    intros s' Hpart. eapply leaves_settled; [|done].
    by eapply partial_other; [done|by eapply vote_ok_other|].
  - apply Forall_cons in Hp as [Ha Hp].
    pose proof (persist_other a r _ (vote_ok_other _ _ Ha) Hset) as Hh.
    destruct (persist a r) as [|c r1|x r1|r1]; cbn in Hh.
    + apply IH; try done. apply Forall_app_2; [done|]. by apply Forall_singleton.
    + destruct Hh as (Hc & Hset1 & id & Hcomp).
      pose proof (completion_neutral (rt_core r1) c id) as Hn. rewrite Hc in Hn.
      specialize (Hn (sd_commits r Hsd) Hcomp). rewrite Hc.
      destruct (Step c (rt_core r)) as [[more core]|] eqn:Es.
      2:{ split; [done|]. by eapply leaves_settled. }
      apply (wlp_elim _ _ _ _ _ Hn) in Es as [F1 Hmore].
      apply IH; cbn.
      * split; cbn; [eapply eframe_clean; [done|apply Hsd]|eapply eframe_commits; [done|apply Hsd]|].
        by rewrite (eframe_hardOf _ _ F1), (eframe_hardOf _ _ F).
      * by etransitivity.
      * apply Forall_app_2; [by eapply eframe_votes_ok|by apply neutral_vote_ok].
      * by eapply eframe_votes_ok.
    + split; [done|]. by eapply leaves_settled.
    + split; [done|]. by eapply leaves_settled.
Qed.

Lemma done_ok_mono (P Q : Node -> Prop) o : done_ok P o -> (forall n, P n -> Q n) -> done_ok Q o.
Proof. destruct o; cbn; try done. intros (? & ? & ?) Himp. auto. Qed.

Lemma dead_ok_mono (P Q : HardState -> Prop) o : dead_ok P o -> (forall h, P h -> Q h) -> dead_ok Q o.
Proof.
  intros HP Himp. destruct o; cbn in *; try done; [by eapply leaves_mono..|].
  destruct HP as [HP1 HP2]. split; [by eapply leaves_mono|]. intros s' Hs. eapply leaves_mono; eauto.
Qed.

(** The outstanding hard-state request of a core that changed its term or vote. *)
Record changing (n : Node) (h : HardState) (id : N) (after : list Action) (r : raftRuntime S)
    : Prop := {
  cg_frame : eframe n (rt_core r);
  cg_commits : commits_vote_free (rt_core r);
  cg_settled : settled (rt_wal r) h;
  cg_pending : pendingHardState (rt_core r) = {[ id := mkPendingHardState (term n) (votedFor n) after ]} }.

(** The request itself: the store moves to the new hard state, the waiting
    actions are released, and the loop continues steadily. *)
Lemma drain_request fuel rest emitted r n h id after :
  changing n h id after r -> term n < two64 -> hard_follows h (hardOf n) ->
  Forall vote_free rest -> Forall vote_free emitted -> Forall (vote_ok n) after ->
  let o := drain fuel (PersistHardState id (term n) (votedFor n) :: rest) emitted r in
  done_ok (same_election n) o /\ dead_ok (fun h' => h' = h \/ h' = hardOf n) o.
Proof.
  intros [F Hc Hset Hp] Hb Hfol Hrest Hem Hafter. destruct fuel as [|fuel]; cbn [drain].
  { split; [done|]. split; [eapply leaves_settled; [done|by left]|].
    intros s' Hpart. by eapply partial_hard. }
  cbn [persist]. unfold store.
  destruct (saveHardState (term n) (votedFor n) (rt_wal r)) as [[[]|x] w] eqn:Esave.
  2:{ split; [done|]. by eapply saveHardState_failed. }
  assert (Hset' : settled w (hardOf n)) by (by eapply saveHardState_settled).
  pose proof (eframe_same _ _ F) as Hsame. pose proof Hsame as (Hid & _ & _ & Ht & Hv & _).
  rewrite <- Ht, <- Hv in Hp.
  pose proof (hardStatePersisted_clean _ _ _ Hp) as Hw.
  change (rt_core (synced _)) with (rt_core r).
  change (Step (HardStatePersisted id)) with (hardStatePersisted id).
  destruct (hardStatePersisted id (rt_core r)) as [[more core]|] eqn:Es.
  2:{ split; [done|]. eapply leaves_settled; [done|by right]. }
  apply (wlp_elim _ _ _ _ _ Hw) in Es as (-> & Hclean & _ & Ht' & Hv' & Hr' & Hvs' & Hid' & Hps' & Hpc').
  assert (Hsame' : same_election n core).
  { unfold same_election in *. destruct_and!. split_and!; congruence. }
  assert (Hok : Forall (vote_ok core) after).
  { eapply Forall_impl; [exact Hafter|]. intros a. unfold same_election in Hsame'. destruct_and!.
    destruct a; try done. cbn. by intuition congruence. }
  destruct (drain_steady fuel (rest ++ after) emitted
    ((synced (r <| rt_wal := w |>)) <| rt_core := core |>) core) as [Hd Hx].
  - split; cbn; [done| |].
    + unfold commits_vote_free. by rewrite Hpc'.
    + unfold hardOf. rewrite Ht', Hv', Ht, Hv. done.
  - reflexivity.
  - apply Forall_app_2; [by apply neutral_vote_ok|done].
  - by apply neutral_vote_ok.
  - split.
    + eapply done_ok_mono; [exact Hd|]. intros n' F'. eapply same_trans; [done|by apply eframe_same].
    + eapply dead_ok_mono; [exact Hx|]. intros h' <-. right. unfold hardOf. congruence.
Qed.

(** Until the request is reached only vote-free actions are handled. *)
Lemma drain_changing fuel pre rest emitted r n h id after :
  changing n h id after r -> term n < two64 -> hard_follows h (hardOf n) ->
  Forall vote_free pre -> Forall vote_free rest -> Forall vote_free emitted ->
  Forall (vote_ok n) after ->
  let o := drain fuel (pre ++ PersistHardState id (term n) (votedFor n) :: rest) emitted r in
  done_ok (same_election n) o /\ dead_ok (fun h' => h' = h \/ h' = hardOf n) o.
Proof.
  intros Hcg Hb Hfol Hpre. revert fuel rest emitted r Hcg.
  induction Hpre as [|a pre Ha _ IH]; intros fuel rest emitted r Hcg Hrest Hem Hafter.
  { by apply (drain_request _ _ _ _ _ _ _ after). }
  pose proof Hcg as [F Hc Hset Hp]. destruct fuel as [|fuel]; cbn [app drain].
  { split; [done|]. split; [eapply leaves_settled; [done|by left]|]. intros s' Hpart.
    eapply leaves_settled; [|by left]. by eapply partial_other; [done|by apply vote_free_other|]. }
  pose proof (persist_other a r _ (vote_free_other _ Ha) Hset) as Hh.
  destruct (persist a r) as [|c r1|x r1|r1]; cbn in Hh.
  - apply IH; try done. apply Forall_app_2; [done|]. by apply Forall_singleton.
  - destruct Hh as (Ec & Hset1 & id' & Hcomp). rewrite Ec.
    pose proof (completion_neutral (rt_core r) c id' Hc Hcomp) as Hn.
    destruct (Step c (rt_core r)) as [[more core]|] eqn:Es.
    2:{ split; [done|]. eapply leaves_settled; [done|by left]. }
    apply (wlp_elim _ _ _ _ _ Hn) in Es as [F1 Hmore].
    rewrite <- app_assoc. cbn [app]. apply IH; try done; [|by apply Forall_app_2].
    split; cbn; [by etransitivity|by eapply eframe_commits|done|].
    unfold eframe in F1. destruct_and!. congruence.
  - split; [done|]. eapply leaves_settled; [done|by left].
  - split; [done|]. eapply leaves_settled; [done|by left].
Qed.

(** One step of the runtime refines the abstract election machine; it releases a
    vote only when the vote is the only hard state a restart can find; and if it
    does not finish, a restart finds the old hard state or one that may follow it. *)
Lemma step_durable fuel e r :
  steady r -> is_completion e = false -> term (rt_core r) + 1 < two64 -> event_term e < two64 ->
  done_ok (fun n' => elect_step (rt_core r) e n' /\ node_id n' = node_id (rt_core r) /\
                     peers n' = peers (rt_core r)) (step fuel e r) /\
  dead_ok (hard_follows (hardOf (rt_core r))) (step fuel e r).
Proof.
  intros [Hclean Hc Hset] He Hb Hev. unfold step.
  pose proof (step_elect (rt_core r) e Hclean Hc He Hb) as Hw.
  destruct (Step e (rt_core r)) as [[acts core]|] eqn:Es.
  2:{ split; [done|]. eapply leaves_settled; [done|]. by right; right. }
  apply (wlp_elim _ _ _ _ _ Hw) in Es as (Hel & Hsh & Hc' & Hid & Hps).
  pose proof (elect_step_follows _ _ _ Hel) as Hfol.
  assert (Hq : forall n', same_election core n' ->
    elect_step (rt_core r) e n' /\ node_id n' = node_id (rt_core r) /\ peers n' = peers (rt_core r)).
  { intros n' Hs. split; [by eapply elect_step_same|].
    unfold same_election in Hs. destruct_and!. split; congruence. }
  destruct Hsh as [(Hcl & Ht & Hv & Hok)|(pre & id & after & -> & Hpre & Hafter & Hp)].
  - destruct (drain_steady fuel acts [] (r <| rt_core := core |>) core) as [Hd Hx]; try done.
    + split; cbn; [done..|]. unfold hardOf in *. by rewrite Ht, Hv.
    + split; [eapply done_ok_mono; [exact Hd|]; intros; by apply Hq, eframe_same|].
      eapply dead_ok_mono; [exact Hx|]. by intros h <-.
  - destruct (drain_changing fuel pre [] [] (r <| rt_core := core |>) core
                (hardOf (rt_core r)) id after) as [Hd Hx]; try done; try constructor; try done.
    + by eapply elect_step_bound.
    + by eapply done_ok_mono.
    + eapply dead_ok_mono; [exact Hx|]. intros h [->| ->]; [by right; right|done].
Qed.

End Durability.
