(* ===== verification/LogStore.v ===== *)
(** What the runtime promises about the whole of a Node's disk.

    [LogStore] extends the contract of the store to the log and the commit index: which
    disk a restart reads back after a completed, failed or interrupted save.  [drains]
    is a weakest precondition for the action loop of the runtime: a set of final states and a
    set of disks a dying process may leave. *)

From S2P Require Import Prelude RaftTypes RaftCore RaftElection Runtime RuntimeActions Durability Replication.

(** ** Persistence on disks *)

Definition cut (truncateFrom : N) (l : list LogEntry) : list LogEntry :=
  if truncateFrom =? 0 then l else take (N.to_nat (truncateFrom - 1)) l.

Definition effect (a : Action) (d : disk) : disk :=
  match a with
  | PersistHardState _ t v => mkDisk t v (dk_log d) (dk_commit d)
  | PersistLogEntries _ truncateFrom entries =>
      mkDisk (dk_term d) (dk_vote d) (cut truncateFrom (dk_log d) ++ entries) (dk_commit d)
  | PersistCommitIndex _ index => mkDisk (dk_term d) (dk_vote d) (dk_log d) (N.to_nat index)
  | _ => d
  end.

(** What is left when the action does not finish. *)
Definition torn (a : Action) (d d' : disk) : Prop :=
  d' = d \/ d' = effect a d \/
  match a with
  | PersistLogEntries _ truncateFrom entries => exists i,
      d' = mkDisk (dk_term d) (dk_vote d) (cut truncateFrom (dk_log d) ++ take i entries) (dk_commit d)
  | _ => False
  end.

Definition completionOf (a : Action) : option Event :=
  match a with
  | PersistHardState id _ _ => Some (HardStatePersisted id)
  | PersistLogEntries id _ _ => Some (LogEntriesPersisted id)
  | PersistCommitIndex id _ => Some (CommitIndexPersisted id)
  | _ => None
  end.

Definition hardOfDisk (d : disk) : HardState := mkHardState (dk_term d) (dk_vote d).

Definition diskOf (r : RecoveredState) : disk :=
  mkDisk (hs_Term (rs_HardState r)) (hs_VotedFor (rs_HardState r)) (rs_Log r) (N.to_nat (rs_CommitIndex r)).

Definition unsnapshotted (r : RecoveredState) : Prop := rs_SnapshotIndex r = 0 /\ rs_SnapshotTerm r = 0.

(** Every restart from [s] without a Snapshot reads back a disk in [P] and goes on from a store that holds it. *)
Definition remains_with {S} (reopens : S -> RecoveredState -> S -> Prop) (holds : S -> disk -> Prop)
    (s : S) (P : disk -> Prop) : Prop :=
  forall r s', reopens s r s' -> unsnapshotted r -> P (diskOf r) /\ holds s' (diskOf r).

(** The requests the runtime makes, given what the store can record. *)
Definition valid (storable : LogEntry -> Prop) (nameable : NodeID -> Prop) (a : Action) (d : disk) : Prop :=
  match a with
  | PersistHardState _ t v => t < two64 /\ nameable v /\ hard_follows (hardOfDisk d) (mkHardState t v)
  | PersistLogEntries _ truncateFrom entries =>
      let kept := cut truncateFrom (dk_log d) in
      entries <> [] /\ numbered Index (len kept + 1) entries /\ Forall storable entries /\
      len kept + len entries + 1 < two64 /\
      (truncateFrom = 0 \/ (N.of_nat (dk_commit d) < truncateFrom <= len (dk_log d)))
  | PersistCommitIndex _ index => N.of_nat (dk_commit d) <= index <= len (dk_log d)
  | _ => True
  end.

(** ** The action loop, without the store *)

Definition passes (acts : list Action) : Prop := Forall (fun a => isPersist a = false) acts.

(** Handling the actions [acts] from core [n] and disk [d] ends in [F], and a process that
    dies on the way leaves a disk in [D]; the requests on the way are [ok]. *)
Inductive drains (ok : Action -> disk -> Prop) (F : list Action -> Node -> disk -> Prop) (D : disk -> Prop)
    : list Action -> Node -> disk -> Prop :=
| drains_done acts n d : passes acts -> D d -> F acts n d -> drains ok F D acts n d
| drains_persist before a after n d completion :
    passes before -> completionOf a = Some completion -> ok a d -> (forall d', torn a d d' -> D d') ->
    (forall more n', Step completion n = Some (more, n') ->
       drains ok F D (before ++ after ++ more) n' (effect a d)) ->
    drains ok F D (before ++ a :: after) n d.

Lemma torn_same a d : torn a d d.
Proof. by left. Qed.

Lemma torn_effect a d : torn a d (effect a d).
Proof. by right; left. Qed.

(** The first persistence action of a list. *)
Lemma first_persist before a after before' a' after' :
  passes before -> passes before' -> isPersist a = true -> isPersist a' = true ->
  before ++ a :: after = before' ++ a' :: after' -> before = before' /\ a = a' /\ after = after'.
Proof.
  revert before'. induction before as [|x before IH]; intros [|x' before'] Hb Hb' Ha Ha'; cbn.
  - by intros [= -> ->].
  - intros [= -> _]. apply Forall_cons in Hb' as [? _]. congruence.
  - intros [= -> _]. apply Forall_cons in Hb as [? _]. congruence.
  - apply Forall_cons in Hb as [_ Hb], Hb' as [_ Hb']. intros [= -> Heq].
    destruct (IH before') as (-> & -> & ->); done.
Qed.

Lemma completion_persist a c : completionOf a = Some c -> isPersist a = true.
Proof. by destruct a. Qed.

Lemma drains_now ok F D acts n d : drains ok F D acts n d -> D d.
Proof. destruct 1 as [|? ? ? ? ? ? _ _ _ Ht]; [done|]. by apply Ht, torn_same. Qed.

Lemma drains_step ok F D emitted a rest n d :
  passes emitted -> isPersist a = true -> drains ok F D (emitted ++ a :: rest) n d ->
  exists c, completionOf a = Some c /\ ok a d /\ (forall d', torn a d d' -> D d') /\
    forall more n', Step c n = Some (more, n') -> drains ok F D (emitted ++ rest ++ more) n' (effect a d).
Proof.
  intros He Ha Hd. remember (emitted ++ a :: rest) as acts eqn:Heq.
  destruct Hd as [acts n d Hp|before x after n d c Hb Hc Hv Ht Hs].
  - subst acts. apply Forall_app in Hp as [_ [Hp _]%Forall_cons]. congruence.
  - apply first_persist in Heq as (-> & -> & ->); try done; [eauto|by eapply completion_persist].
Qed.

Lemma drain_end ok F D emitted n d : passes emitted -> drains ok F D emitted n d -> F emitted n d.
Proof.
  intros He Hd. destruct Hd as [|before x after n d c Hb Hc]; [done|].
  apply Forall_app in He as [_ [Hp _]%Forall_cons]. apply completion_persist in Hc. congruence.
Qed.

Definition perform {S E} `{DurableStore S E} (a : Action) : EM S E unit :=
  match a with
  | PersistHardState _ t v => saveHardState t v
  | PersistLogEntries _ truncateFrom entries => saveLog truncateFrom entries
  | PersistCommitIndex _ index => saveCommitIndex index
  | _ => eret tt
  end.

(** [holds s d]: any restart from [s] without a Snapshot reads back [d]. *)
Class LogStore (S E : Type) `{DurableLaws S E} := {
  holds : S -> disk -> Prop;
  storable : LogEntry -> Prop;
  nameable : NodeID -> Prop;
  nameable_none : nameable "";
  storable_noop index t : index < two64 -> t < two64 ->
    storable (mkLogEntry index t EntryNoOp zeroSessionID 0 "" []);
  holds_settled s d : holds s d -> settled s (hardOfDisk d);
  holds_remains s d : holds s d -> remains_with reopens holds s (eq d);
  perform_holds s d a s' : holds s d -> valid storable nameable a d ->
    perform a s = (Ok tt, s') -> holds s' (effect a d);
  perform_fails s d a e s' : holds s d -> valid storable nameable a d ->
    perform a s = (Err e, s') -> remains_with reopens holds s' (torn a d);
  partial_remains s d a s' : holds s d -> valid storable nameable a d ->
    partial a s s' -> remains_with reopens holds s' (torn a d) }.

(** ** The action loop, with the store *)

Section Loop.
Context {S E : Type} `{LogStore S E}.

Abbreviation remains := (remains_with reopens holds).

Lemma remains_mono s (P Q : disk -> Prop) : remains s P -> (forall d, P d -> Q d) -> remains s Q.
Proof. intros HP HPQ r s' Hr Hu. destruct (HP r s' Hr Hu). auto. Qed.

Lemma holds_in s d (P : disk -> Prop) : holds s d -> P d -> remains s P.
Proof. intros Hs HP. eapply remains_mono; [by apply holds_remains|]. by intros ? <-. Qed.

(** What a run of the loop establishes. *)
Definition run_ok (F : list Action -> Node -> disk -> Prop) (D : disk -> Prop) (o : outcome S E) : Prop :=
  match o with
  | Done emitted r => exists d, holds (rt_wal r) d /\ F emitted (rt_core r) d
  | Failed _ r | Panicked r => remains (rt_wal r) D
  | Interrupted next r => remains (rt_wal r) D /\ forall s', partial next (rt_wal r) s' -> remains s' D
  end.

(** One persistence action of the loop. *)
Lemma persist_holds a completion (r : raftRuntime S) d :
  completionOf a = Some completion -> holds (rt_wal r) d -> valid storable nameable a d ->
  match persist a r with
  | Emitted => False
  | Completed c r' => c = completion /\ rt_core r' = rt_core r /\ holds (rt_wal r') (effect a d)
  | StorageFailed _ r' => remains (rt_wal r') (torn a d)
  | ObserverPanicked r' => holds (rt_wal r') (effect a d)
  end.
Proof.
  intros Hc Hs Hv. pose proof (fun s' => perform_holds (rt_wal r) d a s' Hs Hv) as Hok.
  pose proof (fun e s' => perform_fails (rt_wal r) d a e s' Hs Hv) as Hno.
  destruct a; try done; cbn [completionOf] in Hc; injection Hc as <-; cbn [persist perform] in *; unfold store.
  - destruct (saveHardState _ _ _) as [[[]|x] w] eqn:Ep; cbn; [|by eapply Hno]. split_and!; try done. by eapply Hok.
  - destruct (saveLog _ _ _) as [[[]|x] w] eqn:Ep; cbn; [|by eapply Hno].
    destruct (observeLocal _ _) as [r'|] eqn:Eo; [|by eapply Hok].
    apply observeLocal_same in Eo as [-> ->]. split_and!; try done. by eapply Hok.
  - cbn. destruct (saveCommitIndex _ _) as [[[]|x] w] eqn:Ep; cbn; [|by eapply Hno]. split_and!; try done. by eapply Hok.
Qed.

(** The loop does what [drains] says. *)
Lemma drain_correct F D fuel : forall pending emitted (r : raftRuntime S) d,
  holds (rt_wal r) d -> passes emitted ->
  drains (valid storable nameable) F D (emitted ++ pending) (rt_core r) d -> run_ok F D (drain fuel pending emitted r).
Proof.
  induction fuel as [|fuel IH]; intros [|a pending] emitted r d Hs He Hd; cbn [drain].
  1,3: rewrite app_nil_r in Hd; exists d; split; [done|by apply drain_end in Hd].
  - split; [eapply holds_in; [done|by eapply drains_now]|]. intros s' Hp.
    destruct (isPersist a) eqn:Ha.
    + destruct (drains_step _ F D emitted a pending _ d He Ha Hd) as (c & _ & Hv & Ht & _).
      eapply remains_mono; [by eapply partial_remains|done].
    + eapply remains_mono; [eapply partial_remains; [done| |done]; by destruct a|].
      intros d' Hd'. assert (d' = d) as ->; [|by eapply drains_now].
      destruct a; try discriminate Ha; unfold torn in Hd'; cbn in Hd'; naive_solver.
  - destruct (isPersist a) eqn:Ha.
    + destruct (drains_step _ F D emitted a pending _ d He Ha Hd) as (c & Hc & Hv & Ht & Hnext).
      pose proof (persist_holds a c r d Hc Hs Hv) as Hp.
      destruct (persist a r) as [|c' r'|x r'|r']; [done| |by eapply remains_mono|eapply holds_in; [done|by apply Ht, torn_effect]].
      destruct Hp as (-> & Hcore & Hs'). rewrite Hcore.
      destruct (Step c (rt_core r)) as [[more n']|] eqn:Es; [|eapply holds_in; [done|by apply Ht, torn_effect]].
      apply (IH _ _ _ (effect a d)); [done|done|]. cbn. by apply Hnext.
    + assert (persist a r = Emitted (S := S) (E := E)) as -> by (by destruct a).
      apply (IH _ _ _ d); [done|apply Forall_app_2; [done|by apply Forall_singleton]|].
      by rewrite <- app_assoc.
Qed.

Lemma step_correct F D fuel e (r : raftRuntime S) d :
  holds (rt_wal r) d -> D d -> wlp (Step e) (fun acts n => drains (valid storable nameable) F D acts n d) (rt_core r) ->
  run_ok F D (step fuel e r).
Proof.
  intros Hs HD Hw. unfold step. destruct (Step e (rt_core r)) as [[acts n]|] eqn:Es.
  - apply (drain_correct F D _ _ [] _ d); [done|constructor|]. by apply (wlp_elim _ _ _ _ _ Hw).
  - by eapply holds_in.
Qed.
End Loop.
