(* ===== verification/RaftReplication.v ===== *)
(** One runtime step as a change of the replicated state.

    Between steps a Node is [idle]: its memory is its disk.  [change] lists what one
    event may do to the part of the state replication is about, [speaks] what the Node may then say, [between]
    which disks a process that dies on the way leaves.  [step_changes] shows that the code does nothing else, for a Node that never had a
    Snapshot and whose log fits one request. *)

From S2P Require Import Prelude RaftTypes RaftCore RaftLog RaftInvariant RaftElection RaftActions RaftAppend RuntimeActions Durability Replication LogStore.

(** ** The replicated state of a Node *)

Definition coreDisk (n : Node) : disk :=
  mkDisk (term n) (votedFor n) (log n) (N.to_nat (commitIndex n)).

Record idle (n : Node) : Prop := {
  id_wf : wf n;
  id_named : node_id n <> "";
  id_base : logBaseIndex n = 0;
  id_baseTerm : logBaseTerm n = 0;
  id_clean : clean n;
  id_pendingLog : pendingLog n = ∅;
  id_pendingCommit : pendingCommit n = ∅;
  id_durableLog : durableLogIndex n = lastLogIndex n;
  id_durableCommit : durableCommitIndex n = commitIndex n;
  id_self : role n = Candidate \/ role n = Leader -> votedFor n = node_id n }.

Record view := mkView {
  v_role : Role; v_term : N; v_vote : NodeID; v_log : list LogEntry; v_commit : N;
  v_match : gmap string N; v_votes : gset string }.

Definition viewOf (n : Node) : view :=
  mkView (role n) (term n) (votedFor n) (log n) (commitIndex n) (matchIndex n) (votes n).

Definition active (r : Role) : Prop := r = Candidate \/ r = Leader.

(** ** What an event may change *)

(** The log [l'] takes entries of request [q], keeping the common part of [l]. *)
Definition adopts (l : list LogEntry) (commit : N) (q : AppendEntries) (l' : list LogEntry) : Prop :=
  let p := N.to_nat (ae_PrevLogIndex q) in
  exists m new, (p <= m <= length l)%nat /\ term_at l p = ae_PrevLogTerm q /\
    drop (m - p) (ae_Entries q) = new /\ new <> [] /\
    (forall k x, (p + k < m)%nat -> ae_Entries q !! k = Some x -> term_at l (S (p + k)) = Term x) /\
    (m - p <= length (ae_Entries q))%nat /\
    (m = length l \/ exists x y, l !! m = Some x /\ new !! 0%nat = Some y /\ Term x <> Term y) /\
    (N.to_nat commit <= m)%nat /\ l' = take m l ++ new.

(** The term a request ends with, and a log that reaches it. *)
Definition end_term (q : AppendEntries) : N :=
  match list.last (ae_Entries q) with Some x => Term x | None => ae_PrevLogTerm q end.

Definition reaches (l : list LogEntry) (q : AppendEntries) : Prop :=
  let i := (N.to_nat (ae_PrevLogIndex q) + length (ae_Entries q))%nat in
  (i <= length l)%nat /\ term_at l i = end_term q.

Inductive change (n : Node) : Event -> view -> Prop :=
| ch_quiet e v :
    v_term v = term n -> v_vote v = votedFor n -> v_log v = log n -> v_commit v = commitIndex n ->
    (active (v_role v) -> v_role v = role n /\ v_votes v = votes n /\ v_match v = matchIndex n) ->
    change n e v
| ch_hard e v :
    hard_follows (hardOf n) (mkHardState (v_term v) (v_vote v)) -> v_log v = log n ->
    v_commit v = commitIndex n -> ~ active (v_role v) ->
    (v_vote v = "" \/ exists q, e = EvVoteRequest q /\ v_vote v = vq_From q) ->
    (v_term v = term n \/ v_term v = event_term e) ->
    change n e v
| ch_campaign e v :
    v_term v = term n + 1 -> v_role v = Candidate -> v_vote v = node_id n ->
    v_votes v = {[ node_id n ]} -> v_log v = log n -> v_commit v = commitIndex n ->
    change n e v
| ch_count r v :
    role n = Candidate -> v_role v = Candidate -> vr_Term r = term n -> vr_Granted r = true ->
    v_term v = term n -> v_vote v = votedFor n -> v_log v = log n -> v_commit v = commitIndex n ->
    v_votes v = {[ vr_From r ]} ∪ votes n ->
    change n (EvVoteResponse r) v
| ch_elect r x v :
    role n = Candidate -> v_role v = Leader -> vr_Term r = term n -> vr_Granted r = true ->
    v_term v = term n -> v_vote v = votedFor n -> v_commit v = commitIndex n ->
    v_votes v = {[ vr_From r ]} ∪ votes n -> quorum n <= N.of_nat (size (v_votes v)) ->
    v_match v = ∅ -> x = mkLogEntry (len (log n) + 1) (term n) EntryNoOp zeroSessionID 0 "" [] ->
    v_log v = log n ++ [x] ->
    change n (EvVoteResponse r) v
| ch_append e x v :
    role n = Leader -> v_role v = Leader -> v_term v = term n -> v_vote v = votedFor n ->
    v_commit v = commitIndex n -> v_votes v = votes n -> v_match v = matchIndex n ->
    proposedEntry (len (log n) + 1) (term n) e = Some x -> v_log v = log n ++ [x] ->
    change n e v
| ch_progress r v :
    role n = Leader -> v_role v = Leader -> ar_Term r = term n ->
    v_term v = term n -> v_vote v = votedFor n -> v_log v = log n -> v_votes v = votes n ->
    (v_match v = matchIndex n \/
     (ar_Success r = true /\ v_match v = <[ar_From r := ar_MatchIndex r]> (matchIndex n))) ->
    (v_commit v = commitIndex n \/
     (commitIndex n < v_commit v <= len (log n) /\
      term_at (log n) (N.to_nat (v_commit v)) = term n /\
      quorum n <= 1 + len (filter (fun peer => v_commit v <= map_get (v_match v) peer) (peers n)))) ->
    change n (EvAppendEntriesResponse r) v
| ch_follow q v :
    term n <= ae_Term q -> v_term v = ae_Term q ->
    v_vote v = (if term n <? ae_Term q then "" else votedFor n) -> v_role v = Follower ->
    (v_log v = log n \/ adopts (log n) (commitIndex n) q (v_log v)) ->
    (v_commit v = commitIndex n \/
     (commitIndex n < v_commit v /\ v_commit v <= ae_LeaderCommit q /\ v_commit v <= len (v_log v) /\
      (reaches (v_log v) q \/ adopts (log n) (commitIndex n) q (v_log v)))) ->
    change n (EvAppendEntries q) v.

(** ** What the Node says afterwards *)

Definition speaks (n : Node) (e : Event) (v : view) (a : Action) : Prop :=
  match a with
  | SendVoteRequest _ r =>
      term n < v_term v /\ v_role v = Candidate /\ vq_From r = node_id n /\ vq_Term r = v_term v /\
      vq_LastLogIndex r = len (v_log v) /\ vq_LastLogTerm r = last_term (v_log v)
  | SendVoteResponse to r => vr_Granted r = true ->
      vr_From r = node_id n /\ vr_Term r = v_term v /\ v_vote v = to /\
      exists q, e = EvVoteRequest q /\ vq_From q = to /\ vq_Term q = v_term v /\
        logIsAtLeastAsUpToDate (vq_LastLogTerm q) (vq_LastLogIndex q)
          (last_term (v_log v)) (len (v_log v)) = true
  | SendAppendEntries _ r =>
      let p := N.to_nat (ae_PrevLogIndex r) in
      v_role v = Leader /\ ae_Term r = v_term v /\ (p <= length (v_log v))%nat /\
      ae_PrevLogTerm r = term_at (v_log v) p /\ ae_Entries r = drop p (v_log v) /\
      ae_LeaderCommit r = v_commit v
  | SendAppendEntriesResponse _ r => ar_Success r = true ->
      ar_From r = node_id n /\ ar_Term r = v_term v /\ ar_MatchIndex r = len (v_log v) /\
      exists q, e = EvAppendEntries q /\ ae_Term q = v_term v /\
        (reaches (v_log v) q \/ adopts (log n) (commitIndex n) q (v_log v))
  | ApplyEntry x => exists j, v_log v !! j = Some x /\ N.of_nat j < v_commit v
  | PersistHardState _ _ _ | PersistLogEntries _ _ _ | PersistCommitIndex _ _ => False
  | _ => True
  end.

(** ** What a process that dies on the way leaves *)

Definition between (d : disk) (v : view) (d' : disk) : Prop :=
  d' = d \/
  (exists l, d' = mkDisk (v_term v) (v_vote v) l (dk_commit d) /\
     (l = dk_log d \/ (l `prefix_of` v_log v /\
        forall p, p `prefix_of` dk_log d -> p `prefix_of` v_log v -> p `prefix_of` l))) \/
  d' = mkDisk (v_term v) (v_vote v) (v_log v) (N.to_nat (v_commit v)).

(** ** What a finished step leaves *)

Definition finished (n : Node) (e : Event) (v : view) (acts : list Action) (n' : Node) (d : disk) : Prop :=
  idle n' /\ viewOf n' = v /\ node_id n' = node_id n /\ peers n' = peers n /\
  d = coreDisk n' /\ Forall (speaks n e v) acts.

(** ** Logs as lists *)

Section Lists.
Context (n : Node) (Hwf : wf n) (Hb : logBaseIndex n = 0).

Lemma last_len : lastLogIndex n = len (log n).
Proof using Hwf Hb. rewrite (wf_last n Hwf), Hb. lia. Qed.

Lemma entryAt_list i : entryAt n i = match N.to_nat i with O => None | S j => log n !! j end.
Proof using Hb.
  unfold entryAt. rewrite Hb. destruct (N.ltb_spec 0 i) as [Hi|Hi].
  - destruct (N.to_nat i) as [|j] eqn:Ej; [lia|]. f_equal. lia.
  - by replace (N.to_nat i) with 0%nat by lia.
Qed.

Lemma termAt_list i : logBaseTerm n = 0 -> termAt n i = Some (term_at (log n) (N.to_nat i)).
Proof using Hwf Hb.
  intros Hbt. destruct (N.eq_dec i 0) as [->|Hi].
  - rewrite <- Hb at 1. rewrite termAt_base, Hbt. done.
  - destruct (N.le_gt_cases i (lastLogIndex n)) as [Hle|Hgt].
    + destruct (entryAt_is_Some n Hwf i) as [e He]; [lia..|]. rewrite (termAt_entry n Hwf i e He).
      rewrite entryAt_list in He. destruct (N.to_nat i) as [|j]; [done|]. by rewrite (term_at_lookup _ _ _ He).
    + rewrite (termAt_outside n Hwf) by auto. pose proof last_len as Hl. unfold len in Hl.
      destruct (N.to_nat i) as [|j] eqn:Ej; [lia|]. cbn. rewrite lookup_ge_None_2 by lia. done.
Qed.

Lemma lastTerm_list : logBaseTerm n = 0 -> lastLogTerm n = last_term (log n).
Proof using Hwf Hb.
  intros Hbt. pose proof (termAt_last n Hwf) as Ht. rewrite termAt_list, last_len in Ht by done. injection Ht as <-.
  unfold last_term, len. by rewrite Nat2N.id.
Qed.

Lemma entriesBetween_drop p : entriesBetween n p (lastLogIndex n) = drop (N.to_nat p) (log n).
Proof using Hwf Hb.
  unfold entriesBetween. rewrite Hb, N.sub_0_r, last_len. apply take_ge. rewrite length_drop. unfold len. lia.
Qed.
End Lists.

Lemma batchSize_drop p l : batchSize (drop p l) <= batchSize l.
Proof. rewrite <- (take_drop p l) at 2. rewrite batchSize_app. lia. Qed.

Lemma batchSize_take p l : batchSize (take p l) <= batchSize l.
Proof. rewrite <- (take_drop p l) at 2. rewrite batchSize_app. lia. Qed.

Definition fits (l : list LogEntry) : Prop := batchSize l <= maxAppendEntriesBytes.

Lemma batchSize_len l : 64 * len l <= batchSize l.
Proof.
  induction l as [|e l IH]; [done|]. rewrite len_cons.
  change (batchSize (e :: l)) with (entrySize e + batchSize l). unfold entrySize. lia.
Qed.

Lemma fits_length l : fits l -> len l <= 16448.
Proof.
  unfold fits. intros Hl. pose proof (batchSize_len l).
  assert (maxAppendEntriesBytes = 1052672) as Hm by done. lia.
Qed.

(** ** Persistence requests and their completions *)

Definition hardened (n : Node) : Node :=
  n <| pendingHardState := ∅ |> <| durableTerm := term n |> <| durableVotedFor := votedFor n |>.

Definition logged (n : Node) (pd : pendingLogPersistence) : Node :=
  n <| pendingLog := ∅ |>
    <| durableLogIndex := if durableLogIndex n <? pl_lastIndex pd then pl_lastIndex pd else durableLogIndex n |>.

Definition settled_at (n : Node) (c : N) : Node :=
  n <| pendingCommit := ∅ |>
    <| durableCommitIndex := if durableCommitIndex n <? c then c else durableCommitIndex n |>.

Lemma hardStatePersisted_eq n id after :
  pendingHardState n = {[ id := mkPendingHardState (term n) (votedFor n) after ]} ->
  hardStatePersisted id n = Some (after, hardened n).
Proof.
  intros Hp. unfold hardStatePersisted, bind, get. rewrite Hp, lookup_singleton_eq.
  cbn [ph_term ph_votedFor ph_after modify]. rewrite N.eqb_refl, bool_decide_false by (intros []; done). cbn.
  unfold ret, hardened. rewrite Hp, delete_singleton_eq. done.
Qed.

(** The rest of [logEntriesPersisted] after the bookkeeping. *)
Definition logDone (pd : pendingLogPersistence) : RM (list Action) :=
  let! n := get in
  match pl_purpose pd with
  | persistLeaderEntry =>
      if negb (bool_decide (role n = Leader)) || negb (term n =? pl_term pd)
         || (lastLogIndex n <? pl_lastIndex pd) then ret []
      else sendAppendEntries 0
  | persistFollowerAppend =>
      if negb (term n =? pl_term pd) || negb (bool_decide (role n = Follower))
         || negb (bool_decide (leaderID n = pl_leader pd)) then ret []
      else
        advanceFollowerCommit (pl_leaderCommit pd)
          (appendEntriesResponse n (pl_leader pd) (pl_requestID pd) true (pl_lastIndex pd) 0 0 (pl_readID pd))
  end.

Lemma logEntriesPersisted_eq n id pd :
  pendingLog n = {[ id := pd ]} -> logEntriesPersisted id n = logDone pd (logged n pd).
Proof.
  intros Hp. unfold logEntriesPersisted. unfold bind at 1. cbn [get]. rewrite Hp, lookup_singleton_eq.
  unfold bind at 1. cbn [modify]. rewrite Hp, delete_singleton_eq. done.
Qed.

Lemma commitIndexPersisted_eq n id c after :
  pendingCommit n = {[ id := mkPendingCommit c after ]} ->
  commitIndexPersisted id n =
    (let! acts := applyThrough c in ret (acts ++ after)) (settled_at n c).
Proof.
  intros Hp. unfold commitIndexPersisted. unfold bind at 1. cbn [get]. rewrite Hp, lookup_singleton_eq.
  unfold bind at 1. cbn [modify pc_commitIndex pc_after]. rewrite Hp, delete_singleton_eq. done.
Qed.

(** ** The stages of a step *)

(** Only durability is missing from [v]. *)
Record ready (n0 : Node) (v : view) (n : Node) : Prop := {
  rd_wf : wf n;
  rd_named : node_id n0 <> "";
  rd_base : logBaseIndex n = 0;
  rd_baseTerm : logBaseTerm n = 0;
  rd_id : node_id n = node_id n0;
  rd_peers : peers n = peers n0;
  rd_role : role n = v_role v;
  rd_term : term n = v_term v;
  rd_vote : votedFor n = v_vote v;
  rd_log : log n = v_log v;
  rd_match : matchIndex n = v_match v;
  rd_votes : votes n = v_votes v;
  rd_self : active (v_role v) -> v_vote v = node_id n0;
  rd_durableLog : pendingLog n = ∅ -> durableLogIndex n = lastLogIndex n }.

(** The log is durable: nothing is missing, or the commit index, over a disk with commit index [c]. *)
Inductive late (n0 : Node) (e : Event) (v : view) (c : N) : list Action -> Node -> Prop :=
| late_done acts n :
    ready n0 v n -> pendingLog n = ∅ -> pendingCommit n = ∅ -> durableCommitIndex n = commitIndex n ->
    commitIndex n = v_commit v -> v_commit v = c -> Forall (speaks n0 e v) acts ->
    late n0 e v c acts n
| late_commit pre id post after n :
    ready n0 v n -> pendingLog n = ∅ -> durableCommitIndex n = c ->
    commitIndex n = v_commit v -> c < v_commit v ->
    pendingCommit n = {[ id := mkPendingCommit (v_commit v) after ]} ->
    Forall (speaks n0 e v) pre -> Forall (speaks n0 e v) post -> Forall (speaks n0 e v) after ->
    late n0 e v c (pre ++ PersistCommitIndex id (v_commit v) :: post) n.

(** The commit index a Follower reaches. *)
Definition followed (c leaderCommit last : N) : N :=
  if c <? N.min leaderCommit last then N.min leaderCommit last else c.

(** The term and vote are durable; the disk has log [l] and commit index [c]. *)
Inductive stage (n0 : Node) (e : Event) (v : view) (l : list LogEntry) (c : N) : list Action -> Node -> Prop :=
| stage_late acts n : v_log v = l -> late n0 e v c acts n -> stage n0 e v l c acts n
| stage_lead pre id es post pd n :
    ready n0 v n -> pendingLog n = {[ id := pd ]} -> pendingCommit n = ∅ ->
    durableCommitIndex n = c -> commitIndex n = c -> v_commit v = c -> v_role v = Leader ->
    durableLogIndex n <= lastLogIndex n -> v_log v = l ++ es -> es <> [] -> fits (v_log v) ->
    pl_purpose pd = persistLeaderEntry -> pl_term pd = term n -> pl_lastIndex pd = lastLogIndex n ->
    Forall (speaks n0 e v) pre -> Forall (speaks n0 e v) post ->
    stage n0 e v l c (pre ++ PersistLogEntries id 0 es :: post) n
| stage_follow pre id tr es post pd n :
    ready n0 v n -> pendingLog n = {[ id := pd ]} -> pendingCommit n = ∅ ->
    durableCommitIndex n = c -> commitIndex n = c -> v_role v = Follower ->
    v_commit v = followed c (pl_leaderCommit pd) (lastLogIndex n) ->
    durableLogIndex n <= lastLogIndex n -> v_log v = cut tr l ++ es -> es <> [] ->
    (tr = 0 \/ (c < tr <= len l /\ exists x y, l !! N.to_nat (tr - 1) = Some x /\ es !! 0%nat = Some y /\ x <> y)) ->
    pl_purpose pd = persistFollowerAppend -> pl_term pd = term n -> leaderID n = pl_leader pd ->
    pl_lastIndex pd = lastLogIndex n ->
    Forall (speaks n0 e v)
      (appendEntriesResponse n (pl_leader pd) (pl_requestID pd) true (pl_lastIndex pd) 0 0 (pl_readID pd)) ->
    Forall (speaks n0 e v) pre -> Forall (speaks n0 e v) post ->
    stage n0 e v l c (pre ++ PersistLogEntries id tr es :: post) n.

(** The whole step: the term or the vote may still be missing. *)
Inductive staged (n0 : Node) (e : Event) (v : view) : list Action -> Node -> Prop :=
| staged_clean acts n :
    clean n -> v_term v = term n0 -> v_vote v = votedFor n0 ->
    stage n0 e v (log n0) (commitIndex n0) acts n -> staged n0 e v acts n
| staged_hard pre id post after n :
    pendingHardState n = {[ id := mkPendingHardState (v_term v) (v_vote v) after ]} ->
    hard_follows (hardOf n0) (mkHardState (v_term v) (v_vote v)) ->
    Forall (speaks n0 e v) pre -> Forall (speaks n0 e v) post ->
    stage n0 e v (log n0) (commitIndex n0) after n ->
    staged n0 e v (pre ++ PersistHardState id (v_term v) (v_vote v) :: post) n.

(** ** Lemmas *)

Lemma speaks_passes n e v acts : Forall (speaks n e v) acts -> passes acts.
Proof. intros H. eapply Forall_impl; [exact H|]. by intros []. Qed.

(** A state that differs in nothing [ready] is about. *)
Ltac still_ready :=
  match goal with H : ready ?n0 ?v ?n |- ready ?n0 ?v _ =>
    destruct H; split; cbn; try done end.

(** The bookkeeping of the hard state is the same. *)
Definition same_hard (n n' : Node) : Prop :=
  pendingHardState n' = pendingHardState n /\ durableTerm n' = durableTerm n /\
  durableVotedFor n' = durableVotedFor n.

Lemma clean_same n0 v n n' : ready n0 v n -> ready n0 v n' -> same_hard n n' -> clean n -> clean n'.
Proof.
  intros [] [] (? & ? & ?) (? & ? & ?). unfold clean. split_and!; congruence.
Qed.

Lemma apply_speaks n0 e v n la through acts :
  logBaseIndex n = 0 -> log n = v_log v -> through <= v_commit v ->
  applied acts = entriesBetween n la through ->
  Forall (fun a => match a with ApplyEntry _ | BecameReadReady _ | ReadConfirmed _ _ => True | _ => False end) acts ->
  Forall (speaks n0 e v) acts.
Proof.
  intros Hb Hl Hc Ha Hk. apply Forall_forall. intros a Hin.
  pose proof (proj1 (Forall_forall _ _) Hk a Hin) as Hka. destruct a; try done. cbn.
  assert (Hap : Entry ∈ applied acts) by (apply list_elem_of_omap; by exists (ApplyEntry Entry)).
  rewrite Ha in Hap. apply list_elem_of_lookup in Hap as [i Hi]. unfold entriesBetween in Hi.
  rewrite lookup_take_Some in Hi. destruct Hi as [Hi Hlt].
  rewrite lookup_drop, Hb, Hl in Hi. eexists. split; [exact Hi|]. lia.
Qed.

Lemma applyThrough_speaks n0 e v n through :
  ready n0 v n -> pendingLog n = ∅ -> pendingCommit n = ∅ ->
  through <= v_commit v -> through <= durableCommitIndex n ->
  wp (applyThrough through) (fun acts n' => ready n0 v n' /\ Forall (speaks n0 e v) acts /\
    pendingLog n' = ∅ /\ pendingCommit n' = ∅ /\ durableCommitIndex n' = durableCommitIndex n /\
    commitIndex n' = commitIndex n /\ same_hard n n') n.
Proof.
  intros Hr Hpl Hpc Hv Hd. pose proof (rd_wf _ _ _ Hr) as Hwf. pose proof (rd_durableLog _ _ _ Hr Hpl) as Hdl.
  assert (Hle : through <= lastLogIndex n) by (destruct Hwf; lia).
  eapply wp_mono; [by apply applyThrough_spec|]. intros acts n' (Hf & Ha & Heff).
  pose proof (apply_frame_wf _ _ _ Hf Hd Hwf) as Hwf'. destruct Hf as (b & p & -> & _).
  split_and!; try done.
  - still_ready.
  - eapply apply_speaks; [apply Hr|apply Hr|exact Hv|exact Ha|].
    eapply Forall_impl; [exact Heff|]. intros []; done.
Qed.

Lemma advance_late n0 e v c leaderCommit after n :
  ready n0 v n -> pendingLog n = ∅ -> pendingCommit n = ∅ -> durableCommitIndex n = c -> commitIndex n = c ->
  v_commit v = followed c leaderCommit (lastLogIndex n) -> Forall (speaks n0 e v) after ->
  wp (advanceFollowerCommit leaderCommit after) (fun acts n' =>
    late n0 e v c acts n' /\ ready n0 v n' /\ same_hard n n') n.
Proof.
  intros Hr Hpl Hpc Hd Hc Hv Ha. unfold advanceFollowerCommit, followed in *. wp_step. wp_step. cbv zeta.
  rewrite Hc. destruct (N.ltb_spec c (N.min leaderCommit (lastLogIndex n))) as [Hlt|Hge].
  - unfold persistCommit. wp_auto.
    assert (Hr' : forall i id, ready n0 v (n <| commitIndex := N.min leaderCommit (lastLogIndex n) |>
      <| nextCommitPersistence := i |>
      <| pendingCommit := {[ id := mkPendingCommit (N.min leaderCommit (lastLogIndex n)) after ]} |>)).
    { intros i id. destruct Hr. split; cbn; try done. destruct rd_wf0. split; cbn; try done; try lia.
      by apply map_Forall_singleton. }
    cbn. rewrite Hpc, insert_empty. split; [|split; [apply Hr'|done]].
    rewrite <- Hv in *. eapply (late_commit n0 e v c []); try done; apply Hr'.
  - wp_step. eapply wp_mono; [eapply applyThrough_speaks; try done; rewrite ?Hv, ?Hd; done|].
    cbn beta. intros acts n' (Hr' & Hs & Hpl' & Hpc' & Hd' & Hc' & Hh). wp_step. split_and!; try done.
    apply late_done; try done; [congruence..|]. by apply Forall_app_2.
Qed.

(** Replication requests of a Leader whose log is durable and fits. *)
Lemma sends_speak n0 e v n acts :
  ready n0 v n -> pendingLog n = ∅ -> v_role v = Leader -> fits (v_log v) -> v_commit v = commitIndex n ->
  Forall (replication n) acts -> Forall (speaks n0 e v) acts.
Proof.
  intros Hr Hpl Hl Hf Hc Ha. eapply Forall_impl; [exact Ha|]. intros a Hrep.
  destruct a; try done. cbn in *. destruct Hrep as (Hfrom & Ht & Hcm & _ & Htp & Hle & Hes & Hmax & _).
  pose proof (rd_wf _ _ _ Hr) as Hwf. pose proof (rd_base _ _ _ Hr) as Hb.
  rewrite (rd_durableLog _ _ _ Hr Hpl), N.min_id in *.
  rewrite (termAt_list n Hwf Hb) in Htp by apply Hr. injection Htp as Htp.
  pose proof (last_len n Hwf Hb) as Hlen. rewrite <- (rd_log _ _ _ Hr) in *.
  assert (Hend : ae_PrevLogIndex Request + len (ae_Entries Request) = lastLogIndex n).
  { destruct Hmax as [?|Hbig]; [done|]. exfalso. unfold fits in Hf.
    assert (batchSize (entriesBetween n (ae_PrevLogIndex Request)
      (ae_PrevLogIndex Request + len (ae_Entries Request) + 1)) <= batchSize (log n)); [|lia].
    unfold entriesBetween. etrans; [apply batchSize_take|apply batchSize_drop]. }
  rewrite Hend, (entriesBetween_drop n Hwf Hb) in Hes. rewrite <- (rd_term _ _ _ Hr). split_and!; try done.
  - unfold len in *. lia.
  - congruence.
Qed.

Lemma sends_late n0 e v c readID n :
  ready n0 v n -> pendingLog n = ∅ -> pendingCommit n = ∅ -> durableCommitIndex n = commitIndex n ->
  commitIndex n = v_commit v -> v_commit v = c -> v_role v = Leader -> fits (v_log v) ->
  wp (sendAppendEntries readID) (fun acts n' => late n0 e v c acts n' /\ ready n0 v n' /\ same_hard n n') n.
Proof.
  intros Hr Hpl Hpc Hd Hc Hv Hl Hf. eapply wp_mono; [apply sendAppendEntries_spec, Hr|].
  intros acts n' [Hfr Ha]. pose proof (sends_frame_wf _ _ Hfr (rd_wf _ _ _ Hr)).
  pose proof Hr as Hr0. destruct Hfr as (x & y & z & ->). assert (Hr' : ready n0 v (n <| nextRequestID := x |> <| snapshotInFlight := y |> <| appendInFlight := z |>)) by still_ready.
  split_and!; try done. apply late_done; try done. by eapply sends_speak.
Qed.

(** What two logs share lies before the first difference. *)
Lemma common_before (p l es : list LogEntry) m x y :
  p `prefix_of` l -> p `prefix_of` take m l ++ es -> (m <= length l)%nat ->
  l !! m = Some x -> es !! 0%nat = Some y -> x <> y -> p `prefix_of` take m l.
Proof.
  intros Hl Hes Hm Hx Hy Hne.
  assert (Hlen : (length p <= m)%nat).
  { apply Nat.nlt_ge. intros Hlt. destruct (lookup_lt_is_Some_2 p m Hlt) as [z Hz].
    pose proof (prefix_lookup_Some _ _ _ _ Hz Hl). pose proof (prefix_lookup_Some _ _ _ _ Hz Hes) as Hz2.
    rewrite lookup_app_r in Hz2 by (rewrite length_take; lia).
    rewrite length_take, Nat.min_l, Nat.sub_diag in Hz2 by done. congruence. }
  destruct Hl as [k ->]. rewrite take_app_ge by done. by apply prefix_app_r.
Qed.

Lemma late_app n0 e v c l acts n : Forall (speaks n0 e v) l -> late n0 e v c acts n -> late n0 e v c (l ++ acts) n.
Proof.
  intros Hl [acts' n' ? ? ? ? ? ? ?|pre id post after n' ? ? ? ? ? ? ? ? ?].
  - apply late_done; try done. by apply Forall_app_2.
  - rewrite app_assoc. eapply late_commit; try done. by apply Forall_app_2.
Qed.

Lemma stage_app n0 e v l c k acts n : Forall (speaks n0 e v) k -> stage n0 e v l c acts n -> stage n0 e v l c (k ++ acts) n.
Proof.
  intros Hk [acts' n'|pre id es post pd n'|pre id tr es post pd n'].
  - apply stage_late; [done|]. by apply late_app.
  - rewrite app_assoc. eapply stage_lead; try done. by apply Forall_app_2.
  - rewrite app_assoc. eapply stage_follow; try done. by apply Forall_app_2.
Qed.

Lemma stage_ready n0 e v l c acts n : stage n0 e v l c acts n -> ready n0 v n.
Proof. intros [? ? _ Hl|? ? ? ? ? ? Hr|? ? ? ? ? ? ? Hr]; [by destruct Hl|done|done]. Qed.

(** The bookkeeping of the hard state does not concern the later stages. *)
Lemma stage_hard n0 e v l c acts n a b x y : stage n0 e v l c acts n ->
  stage n0 e v l c acts (n <| nextHardStatePersistence := a |> <| pendingHardState := b |>
    <| durableTerm := x |> <| durableVotedFor := y |>).
Proof.
  assert (Hr : forall n, ready n0 v n -> ready n0 v (n <| nextHardStatePersistence := a |>
    <| pendingHardState := b |> <| durableTerm := x |> <| durableVotedFor := y |>)).
  { intros m []. split; cbn; try done. destruct rd_wf0. by split. }
  intros [acts' n' Hv [k m|pre id post after m]|pre id es post pd n'|pre id tr es post pd n'].
  - apply stage_late; [done|]. apply late_done; try done. by apply Hr.
  - apply stage_late; [done|]. eapply late_commit; try done. by apply Hr.
  - eapply stage_lead; try done. by apply Hr.
  - eapply stage_follow; try done. by apply Hr.
Qed.

(** ** The stages complete *)

Lemma finished_intro n0 e v acts n :
  ready n0 v n -> clean n -> pendingLog n = ∅ -> pendingCommit n = ∅ ->
  durableCommitIndex n = commitIndex n -> commitIndex n = v_commit v -> Forall (speaks n0 e v) acts ->
  finished n0 e v acts n (mkDisk (v_term v) (v_vote v) (v_log v) (N.to_nat (v_commit v))).
Proof.
  intros Hr Hcl Hpl Hpc Hd Hc Ha. pose proof (rd_durableLog _ _ _ Hr Hpl).
  destruct Hr. unfold finished, viewOf, coreDisk. split_and!; try congruence.
  - split; try done; [congruence|]. unfold active in *. rewrite rd_role0, rd_vote0, rd_id0. done.
  - destruct v; cbn in *; congruence.
Qed.

Lemma between_hard d v d' : between (mkDisk (v_term v) (v_vote v) (dk_log d) (dk_commit d)) v d' -> between d v d'.
Proof.
  intros [->|[(l & -> & Hl)| ->]]; [|right; left; by exists l|right; by right].
  right; left. eexists. split; [done|]. by left.
Qed.

Section Completion.
Context (storable : LogEntry -> Prop) (nameable : NodeID -> Prop) (n0 : Node) (e : Event) (v : view)
  (D : disk -> Prop).

Let ok := valid storable nameable.
Let F := finished n0 e v.

Lemma late_drains c acts n :
  late n0 e v c acts n -> clean n ->
  D (mkDisk (v_term v) (v_vote v) (v_log v) (N.to_nat c)) ->
  D (mkDisk (v_term v) (v_vote v) (v_log v) (N.to_nat (v_commit v))) ->
  drains ok F D acts n (mkDisk (v_term v) (v_vote v) (v_log v) (N.to_nat c)).
Proof.
  intros [acts' n' Hr Hpl Hpc Hd Hc Hv Ha|pre id post after n' Hr Hpl Hd Hc Hlt Hpc H1 H2 H3] Hcl HD1 HD2.
  - apply drains_done; [by eapply speaks_passes|done|]. rewrite <- Hv. by apply finished_intro.
  - pose proof (rd_wf _ _ _ Hr) as Hwf. pose proof (last_len n' Hwf (rd_base _ _ _ Hr)) as Hlen.
    rewrite (rd_log _ _ _ Hr) in Hlen.
    eapply drains_persist; [by eapply speaks_passes|done|..].
    + cbn. destruct Hwf. rewrite <- Hc, <- Hlen in *. lia.
    + intros d' [->|[->|[]]]; done.
    + cbn [Step effect dk_term dk_vote dk_log]. intros more n'' Hs.
      rewrite (commitIndexPersisted_eq _ _ _ _ Hpc) in Hs.
      assert (Hr' : ready n0 v (settled_at n' (v_commit v))).
      { destruct Hr. split; cbn; try done. destruct rd_wf0. split; cbn; try done.
        all: destruct (durableCommitIndex n' <? v_commit v); lia. }
      assert (Hds : durableCommitIndex (settled_at n' (v_commit v)) = v_commit v).
      { cbn. rewrite Hd. by rewrite (proj2 (N.ltb_lt _ _)). }
      assert (Hw : wp (let! acts := applyThrough (v_commit v) in ret (acts ++ after))
        (fun more n'' => drains ok F D (pre ++ post ++ more) n''
           (mkDisk (v_term v) (v_vote v) (v_log v) (N.to_nat (v_commit v)))) (settled_at n' (v_commit v))).
      { wp_step. eapply wp_mono; [apply (applyThrough_speaks n0 e v); try done; by rewrite Hds|].
        cbn beta. intros acts2 n2 (Hr2 & Hs2 & Hpl2 & Hpc2 & Hd2 & Hc2 & Hh2). wp_step.
        assert (Hall : Forall (speaks n0 e v) (pre ++ post ++ acts2 ++ after)) by (by repeat apply Forall_app_2).
        apply drains_done; [by eapply speaks_passes|done|]. apply finished_intro; try done.
        - by eapply (clean_same n0 v (settled_at n' (v_commit v))).
        - rewrite Hd2, Hds, Hc2. done.
        - by rewrite Hc2. }
      exact (wp_elim _ _ _ _ _ Hw Hs).
Qed.

(** A save of entries leaves the old log, or the new one up to some entry. *)
Lemma torn_between l c tr es d' :
  v_log v = cut tr l ++ es ->
  (tr = 0 \/ (c < tr <= len l /\ exists x y, l !! N.to_nat (tr - 1) = Some x /\ es !! 0%nat = Some y /\ x <> y)) ->
  forall id, torn (PersistLogEntries id tr es) (mkDisk (v_term v) (v_vote v) l (N.to_nat c)) d' ->
  between (mkDisk (v_term v) (v_vote v) l (N.to_nat c)) v d'.
Proof.
  intros Hv Htr id [->|Ht]; [by left|]. right; left.
  assert (exists i, d' = mkDisk (v_term v) (v_vote v) (cut tr l ++ take i es) (N.to_nat c)) as [i ->].
  { destruct Ht as [->|[i ->]]; [|by exists i]. exists (length es). cbn. by rewrite firstn_all. }
  eexists. split; [done|]. right. cbn [dk_log]. rewrite Hv. split.
  - apply prefix_app, prefix_take.
  - intros p Hp Hp'. apply prefix_app_r. unfold cut in *. destruct Htr as [->|(Hc & x & y & Hx & Hy & Hne)]; [done|].
    rewrite (proj2 (N.eqb_neq _ _)) in * by lia. eapply (common_before p l es _ x y); try done.
    apply lookup_lt_Some in Hx. lia.
Qed.

(** A save of entries, then a late stage. *)
Lemma save_drains l c n pre id tr es post pd :
  clean n -> Forall storable (v_log v) ->
  (forall d', between (mkDisk (v_term v) (v_vote v) l (N.to_nat c)) v d' -> D d') ->
  ready n0 v n -> pendingLog n = {[ id := pd ]} -> v_log v = cut tr l ++ es -> es <> [] ->
  (tr = 0 \/ (c < tr <= len l /\ exists x y, l !! N.to_nat (tr - 1) = Some x /\ es !! 0%nat = Some y /\ x <> y)) ->
  Forall (speaks n0 e v) pre -> Forall (speaks n0 e v) post ->
  wp (logDone pd) (fun acts n' => late n0 e v c acts n' /\ ready n0 v n' /\ same_hard n n') (logged n pd) ->
  drains ok F D (pre ++ PersistLogEntries id tr es :: post) n (mkDisk (v_term v) (v_vote v) l (N.to_nat c)).
Proof.
  intros Hcl Hsto HD Hr Hpl Hv Hes Htr Hpre Hpost Hw.
  pose proof (rd_wf _ _ _ Hr) as Hwf. pose proof (wf_numbered n Hwf) as Hnum. pose proof (wf_bound n Hwf) as Hbd.
  rewrite (last_len n Hwf (rd_base _ _ _ Hr)), (rd_log _ _ _ Hr), Hv, len_app in Hbd.
  rewrite (rd_base _ _ _ Hr), (rd_log _ _ _ Hr), Hv, numbered_app in Hnum. destruct Hnum as [_ Hnum].
  rewrite Hv in Hsto. apply Forall_app in Hsto as [_ Hsto].
  eapply drains_persist; [by eapply speaks_passes|done|..].
  - cbn. rewrite N.add_comm. split_and!; try done; lia.
  - intros d' Hd'. apply HD. by eapply torn_between.
  - cbn [Step effect dk_term dk_vote dk_log dk_commit]. rewrite <- Hv. intros more n' Hs.
    rewrite (logEntriesPersisted_eq _ _ _ Hpl) in Hs.
    destruct (wp_elim _ _ _ _ _ Hw Hs) as (Hlate & Hr' & Hh).
    rewrite app_assoc. apply late_drains; [apply late_app; [by apply Forall_app_2|done]|by eapply (clean_same n0 v n)|..].
    + apply HD. right; left. exists (v_log v). split; [done|]. right. by split.
    + apply HD. right; by right.
Qed.

Lemma ready_logged n pd : ready n0 v n -> durableLogIndex n <= lastLogIndex n ->
  pl_lastIndex pd = lastLogIndex n -> ready n0 v (logged n pd).
Proof.
  intros Hr Hle Hpd. destruct Hr. split; cbn; try done.
  - destruct rd_wf0. by split.
  - intros _. rewrite Hpd. destruct (N.ltb_spec (durableLogIndex n) (lastLogIndex n)); [done|lia].
Qed.

Lemma stage_drains l c acts n :
  stage n0 e v l c acts n -> clean n -> Forall storable (v_log v) ->
  (forall d', between (mkDisk (v_term v) (v_vote v) l (N.to_nat c)) v d' -> D d') ->
  drains ok F D acts n (mkDisk (v_term v) (v_vote v) l (N.to_nat c)).
Proof.
  intros Hst Hcl Hsto HD.
  destruct Hst as [acts n Hv Hlate|pre id es post pd n Hr Hpl Hpc Hd Hc Hvc Hl Hdl Hv Hes Hf Hpu Ht Hi Hpre Hpost
    |pre id tr es post pd n Hr Hpl Hpc Hd Hc Hl Hvc Hdl Hv Hes Htr Hpu Ht Hld Hi Hresp Hpre Hpost].
  - rewrite <- Hv in *. apply late_drains; try done; apply HD; [by left|right; by right].
  - eapply save_drains; try done; [by left|]. pose proof (ready_logged n pd Hr Hdl Hi) as Hr'.
    unfold logDone. wp_step. wp_step. rewrite Hpu. cbn [logged].
    change (role (logged n pd)) with (role n). change (term (logged n pd)) with (term n).
    change (lastLogIndex (logged n pd)) with (lastLogIndex n).
    rewrite (rd_role _ _ _ Hr), Hl, bool_decide_true, Ht, N.eqb_refl, Hi, N.ltb_irrefl by done. cbn [negb orb].
    eapply wp_mono; [apply (sends_late n0 e v c); try done; cbn; congruence|]. done.
  - eapply save_drains; try done. pose proof (ready_logged n pd Hr Hdl Hi) as Hr'.
    unfold logDone. wp_step. wp_step. rewrite Hpu.
    change (role (logged n pd)) with (role n). change (term (logged n pd)) with (term n).
    change (leaderID (logged n pd)) with (leaderID n).
    rewrite (rd_role _ _ _ Hr), Hl, Ht, N.eqb_refl, !bool_decide_true by done. cbn [negb orb].
    eapply wp_mono; [apply (advance_late n0 e v c); done|]. done.
Qed.

(** A step that reached [staged] finishes as it should, or dies between the disks. *)
Lemma staged_drains acts n :
  staged n0 e v acts n -> Forall storable (v_log v) -> v_term v < two64 -> nameable (v_vote v) ->
  (forall d', between (coreDisk n0) v d' -> D d') -> drains ok F D acts n (coreDisk n0).
Proof.
  intros Hst Hsto Ht Hn HD.
  destruct Hst as [acts n Hcl Hvt Hvv Hst|pre id post after n Hp Hf Hpre Hpost Hst].
  - unfold coreDisk in *. rewrite <- Hvt, <- Hvv in *. by apply stage_drains.
  - eapply drains_persist; [by eapply speaks_passes|done|..].
    + cbn. split_and!; done.
    + intros d' [->|[->|[]]]; apply HD; [by left|]. right; left. eexists. split; [done|]. by left.
    + cbn [Step effect coreDisk dk_log dk_commit]. intros more n' Hs. pose proof (stage_ready _ _ _ _ _ _ _ Hst) as Hr.
      rewrite <- (rd_term _ _ _ Hr), <- (rd_vote _ _ _ Hr) in Hp. rewrite (hardStatePersisted_eq _ _ _ Hp) in Hs.
      injection Hs as <- <-. apply stage_drains; try done.
      * rewrite app_assoc. apply stage_app; [by apply Forall_app_2|].
        by apply (stage_hard _ _ _ _ _ _ n (nextHardStatePersistence n)).
      * intros d' Hd'. apply HD. by apply between_hard.
Qed.
End Completion.
