(* ===== verification/RaftChanges.v ===== *)
(** The code of each event handler reaches [staged]: what a runtime step can do to the
    replicated state of a Node that never had a Snapshot and whose log fits one request. *)

From S2P Require Import Prelude RaftTypes RaftCore RaftLog RaftInvariant RaftElection RaftActions RaftAppend RuntimeActions Durability Replication LogStore RaftReplication.

(** Events of an execution without Snapshots. *)
Definition ordinary (e : Event) : bool :=
  match e with
  | SnapshotCompacted _ _ | EvInstallSnapshot _ | EvInstallSnapshotResponse _ => false
  | _ => negb (is_completion e)
  end.

(** What an event may add to the log of a Leader. *)
Definition growth (e : Event) : N :=
  match e with
  | EvVoteResponse _ | ProposeSession _ _ _ => 64
  | ProposeSet _ _ _ key value => 64 + N.of_nat (String.length key) + len value
  | ProposeDelete _ _ _ key => 64 + N.of_nat (String.length key)
  | _ => 0
  end.

Definition room (n : Node) (e : Event) : Prop := batchSize (log n) + growth e <= maxAppendEntriesBytes.

Lemma room_fits n e : room n e -> fits (log n).
Proof. unfold room, fits. lia. Qed.

Definition goes (n : Node) (e : Event) (acts : list Action) (n' : Node) : Prop :=
  exists v, change n e v /\ staged n e v acts n'.

(** ** Nothing durable changes *)

Record quiet (n n' : Node) : Prop := {
  qt_wf : wf n';
  qt_base : logBaseIndex n' = logBaseIndex n; qt_baseTerm : logBaseTerm n' = logBaseTerm n;
  qt_id : node_id n' = node_id n; qt_peers : peers n' = peers n;
  qt_term : term n' = term n; qt_vote : votedFor n' = votedFor n; qt_log : log n' = log n;
  qt_commit : commitIndex n' = commitIndex n; qt_dcommit : durableCommitIndex n' = durableCommitIndex n;
  qt_dlog : durableLogIndex n' = durableLogIndex n;
  qt_pendingLog : pendingLog n' = pendingLog n; qt_pendingCommit : pendingCommit n' = pendingCommit n;
  qt_hard : same_hard n n' }.

Lemma quiet_ready n n' : idle n -> quiet n n' -> (active (role n') -> votedFor n = node_id n) ->
  ready n (viewOf n') n'.
Proof.
  intros Hi Hq Ha. destruct Hi, Hq. split; cbn; try congruence; [by intros ?; rewrite qt_vote0; auto|].
  intros _. rewrite qt_dlog0, id_durableLog. pose proof (wf_last n id_wf). pose proof (wf_last n' qt_wf0). congruence.
Qed.

Lemma quiet_clean n n' : idle n -> quiet n n' -> clean n'.
Proof.
  intros [] [? ? ? ? ? ? ? ? ? ? ? ? ? (? & ? & ?)]. destruct id_clean as (? & ? & ?).
  unfold clean. split_and!; congruence.
Qed.

Lemma quiet_goes n e n' acts : idle n -> quiet n n' ->
  (active (role n') -> role n' = role n /\ votes n' = votes n /\ matchIndex n' = matchIndex n) ->
  Forall (speaks n e (viewOf n')) acts -> goes n e acts n'.
Proof.
  intros Hi Hq Ha Hs. exists (viewOf n'). pose proof (quiet_clean _ _ Hi Hq) as Hcl.
  assert (Hr : ready n (viewOf n') n').
  { apply quiet_ready; [done..|]. intros Hr. apply (id_self n Hi). destruct (Ha Hr) as (<- & _). done. }
  destruct Hq, Hi. split; [apply ch_quiet; done|]. apply staged_clean; [done..|]. apply stage_late; [done|].
  apply late_done; cbn; try done; congruence.
Qed.

(** Solves [quiet] for a state given as updates. *)
Ltac solve_quiet :=
  match goal with
  | Hi : idle ?n |- quiet ?n _ => split; cbn; try done; destruct (id_wf n Hi); split; cbn; done
  end.

Lemma quiet_refl n : idle n -> quiet n n.
Proof. intros Hi. solve_quiet. Qed.

(** Actions that carry no promise. *)
Definition silent (a : Action) : Prop := forall n e v, speaks n e v a.

Lemma silent_speaks n e v acts : Forall silent acts -> Forall (speaks n e v) acts.
Proof. intros H. eapply Forall_impl; [exact H|]. intros a Ha. apply Ha. Qed.

(** ** The hard state changes, the log does not *)

(** The request for durability follows a state that differs from [n] in term, vote and role. *)
Lemma persistHardState_goes n e n1 pre after :
  idle n -> Forall silent pre -> wf n1 -> logBaseIndex n1 = logBaseIndex n -> logBaseTerm n1 = logBaseTerm n ->
  node_id n1 = node_id n -> peers n1 = peers n -> log n1 = log n -> commitIndex n1 = commitIndex n ->
  durableCommitIndex n1 = durableCommitIndex n -> durableLogIndex n1 = durableLogIndex n ->
  pendingLog n1 = pendingLog n -> pendingCommit n1 = pendingCommit n -> pendingHardState n1 = pendingHardState n ->
  (active (role n1) -> votedFor n1 = node_id n) ->
  hard_follows (hardOf n) (hardOf n1) -> change n e (viewOf n1) -> Forall (speaks n e (viewOf n1)) after ->
  wp (persistHardState after) (fun acts n2 => goes n e (pre ++ acts) n2) n1.
Proof.
  intros Hi Hpre Hwf Hb Hbt Hid Hps Hl Hc Hdc Hdl Hpl Hpc Hph Hself Hf Hch Hs.
  unfold persistHardState. wp_auto. exists (viewOf n1). split; [done|]. destruct (id_clean n Hi) as (Hno & _ & _).
  eapply (staged_hard n e (viewOf n1) pre _ []); try done; [cbn; by rewrite Hph, Hno, insert_empty|by apply silent_speaks|].
  apply stage_late; [done|]. destruct Hi. apply late_done; cbn; try congruence.
  split; cbn; try congruence; try done; [by destruct Hwf|].
  intros _. pose proof (wf_last n id_wf). pose proof (wf_last n1 Hwf). congruence.
Qed.

Lemma stepDown_goes n e t : idle n -> term n < t -> t = event_term e ->
  wp (do! becomeFollower t "" in persistHardState []) (goes n e) n.
Proof.
  intros Hi Ht Hte. unfold becomeFollower. wp_step. wp_update n1 E1. rewrite (proj2 (N.ltb_lt _ _) Ht) in E1.
  apply (persistHardState_goes n e n1 [] []); subst n1; cbn; try done; [by destruct (id_wf n Hi)|by intros [?|?]|by left|].
  apply ch_hard; cbn; try done; [by left|by intros [?|?]|by left|by right].
Qed.

Lemma startElection_goes n e n1 pre :
  idle n -> quiet n n1 -> Forall silent pre -> term n + 1 < two64 ->
  wp startElection (fun acts n2 => goes n e (pre ++ acts) n2) n1.
Proof.
  intros Hi Hq Hpre Hb. pose proof (id_wf n Hi) as Hwf.
  pose proof (last_len n1 (qt_wf _ _ Hq) (eq_trans (qt_base _ _ Hq) (id_base n Hi))) as Hlast.
  pose proof (lastTerm_list n1 (qt_wf _ _ Hq) (eq_trans (qt_base _ _ Hq) (id_base n Hi)) (eq_trans (qt_baseTerm _ _ Hq) (id_baseTerm n Hi))) as Hlt.
  destruct Hq as [Hwf1 ? ? ? ? Ht ? ? ? ? ? ? ? (? & ? & ?)].
  unfold startElection. wp_step. wp_step. wp_step. wp_step. cbv zeta.
  apply persistHardState_goes; cbn; try done; rewrite ?Ht, ?(u64_small (term n + 1)) by done.
  - destruct Hwf1. by split.
  - left. cbn. lia.
  - apply ch_campaign; cbn; congruence.
  - constructor; [done|]. apply Forall_map, Forall_true. intros peer. cbn.
    split_and!; try done; lia.
Qed.

(** ** Elections *)

Lemma startPreVote_goes n e : idle n -> term n + 1 < two64 -> wp startPreVote (goes n e) n.
Proof.
  intros Hi Hb. unfold startPreVote. wp_step. wp_step. destruct (bool_decide (role n = Leader)) eqn:Er.
  { wp_step. apply quiet_goes; [done|by apply quiet_refl|done|constructor]. }
  do 4 wp_step. cbv zeta.
  match goal with |- context [wp _ _ ?x] => set (n1 := x); assert (Hq : quiet n n1) by solve_quiet end.
  assert (Hs : Forall silent (ResetElectionTimer :: map (fun peer => SendPreVoteRequest peer
    (mkPreVoteRequest (node_id n1) (term n1 +! 1) (lastLogIndex n1) (lastLogTerm n1))) (peers n1))).
  { constructor; [done|]. by apply Forall_map, Forall_true. }
  wp_step.
  - wp_step. eapply wp_mono; [by eapply (startElection_goes n e n1)|]. intros acts n2 Hg. wp_step. exact Hg.
  - wp_step. apply quiet_goes; [done|done|by intros [?|?]|by apply silent_speaks].
Qed.

Lemma handlePreVoteRequest_goes n request :
  idle n -> wp (handlePreVoteRequest request) (goes n (EvPreVoteRequest request)) n.
Proof.
  intros Hi. unfold handlePreVoteRequest. wp_auto. apply quiet_goes; [done|by apply quiet_refl|done|by repeat constructor].
Qed.

Lemma handlePreVoteResponse_goes n response : idle n -> term n + 1 < two64 ->
  wp (handlePreVoteResponse response) (goes n (EvPreVoteResponse response)) n.
Proof.
  intros Hi Hb. unfold handlePreVoteResponse. wp_step. wp_step. wp_step; reflect_bools; [by apply stepDown_goes|].
  destruct (_ || _); [wp_step; apply quiet_goes; [done|by apply quiet_refl|done|constructor]|].
  do 4 wp_step. match goal with |- context [wp _ _ ?x] => set (n1 := x); assert (Hq : quiet n n1) by solve_quiet end.
  wp_step; [|by apply (startElection_goes n _ n1 [])].
  wp_step. apply quiet_goes; [done|done|done|constructor].
Qed.

(** A vote names the candidate that asked, whose log is up to date. *)
Lemma voteResponse_speaks n q n1 grant :
  idle n -> wf n1 -> logBaseIndex n1 = 0 -> logBaseTerm n1 = 0 -> node_id n1 = node_id n ->
  (grant = true -> term n1 = vq_Term q /\ votedFor n1 = vq_From q /\
    candidateLogIsUpToDate n1 (vq_LastLogTerm q) (vq_LastLogIndex q) = true) ->
  Forall (speaks n (EvVoteRequest q) (viewOf n1)) (voteResponse n1 (vq_From q) grant).
Proof.
  intros Hi Hwf Hb Hbt Hid Hg. unfold voteResponse. apply Forall_singleton. cbn. intros Ht.
  destruct (Hg Ht) as (Ht' & Hv & Hup). split_and!; try done. exists q. split_and!; try done.
  unfold candidateLogIsUpToDate in Hup.
  by rewrite (lastTerm_list n1 Hwf Hb Hbt), (last_len n1 Hwf Hb) in Hup.
Qed.

(** The rest of [handleVoteRequest] once the request's term was adopted. *)
Definition castVote (request : VoteRequest) (termChanged : bool) : RM (list Action) :=
  let! n := get in
  let canVote := bool_decide (votedFor n = "") || bool_decide (votedFor n = vq_From request) in
  let grant := canVote
               && candidateLogIsUpToDate n (vq_LastLogTerm request) (vq_LastLogIndex request) in
  do! (if grant then modify (fun n => n <| votedFor := vq_From request |>) else ret tt) in
  let! n := get in
  let response := voteResponse n (vq_From request) grant in
  if termChanged || (grant && negb (voteIsDurable n (vq_From request)))
  then persistHardState response
  else ret response.

(** Its effect on the state, and on what it answers. *)
Lemma castVote_steps n request termChanged n1 (Q : list Action -> Node -> Prop) :
  idle n -> wf n1 -> logBaseIndex n1 = 0 -> logBaseTerm n1 = 0 -> node_id n1 = node_id n ->
  term n1 = vq_Term request ->
  (forall grant : bool,
     let n2 := if grant then n1 <| votedFor := vq_From request |> else n1 in
     wf n2 -> (grant = true -> votedFor n1 = "" \/ votedFor n1 = vq_From request) ->
     Forall (speaks n (EvVoteRequest request) (viewOf n2)) (voteResponse n2 (vq_From request) grant) ->
     wp (if termChanged || (grant && negb (voteIsDurable n2 (vq_From request)))
         then persistHardState (voteResponse n2 (vq_From request) grant)
         else ret (voteResponse n2 (vq_From request) grant)) Q n2) ->
  wp (castVote request termChanged) Q n1.
Proof.
  intros Hi Hwf Hb Hbt Hid Ht HQ. unfold castVote. wp_step. wp_step. cbv zeta. set (grant := _ && _). wp_step.
  set (n2 := if grant then n1 <| votedFor := vq_From request |> else n1).
  assert (Hsame : wp (if grant then modify (fun n => n <| votedFor := vq_From request |>) else ret tt)
    (fun _ s => s = n2) n1) by (subst n2; destruct grant; wp_auto; done).
  eapply wp_mono; [exact Hsame|]. intros _ ? ->. wp_step. wp_step.
  assert (Hw2 : wf n2) by (subst n2; destruct grant; [destruct Hwf; by split|done]).
  assert (Hg : grant = true -> (votedFor n1 = "" \/ votedFor n1 = vq_From request) /\
    candidateLogIsUpToDate n1 (vq_LastLogTerm request) (vq_LastLogIndex request) = true).
  { unfold grant. intros [Hc Hup]%andb_true_iff. split; [|done].
    apply orb_true_iff in Hc as [Hc|Hc]; apply bool_decide_eq_true in Hc; auto. }
  apply HQ; [done|intros Hgr; by destruct (Hg Hgr)|].
  apply voteResponse_speaks; try done; try (subst n2; by destruct grant).
  intros Hgr. destruct (Hg Hgr) as [_ Hup]. subst n2. by rewrite Hgr.
Qed.

Lemma handleVoteRequest_goes n request :
  idle n -> wp (handleVoteRequest request) (goes n (EvVoteRequest request)) n.
Proof.
  intros Hi. unfold handleVoteRequest. wp_step. wp_step. wp_step; reflect_bools.
  { wp_step. apply quiet_goes; [done|by apply quiet_refl|done|by repeat constructor]. }
  cbv zeta. fold (castVote request (term n <? vq_Term request)).
  destruct (id_clean n Hi) as (Hno & Hdt & Hdv). wp_step. destruct (term n <? vq_Term request) eqn:Et; reflect_bools.
  - apply wp_modify_named. intros n1 E1. rewrite (proj2 (N.ltb_lt _ _)) in E1 by done.
    apply (castVote_steps n); try done; try (subst n1; apply Hi); try (by subst n1).
    { subst n1. destruct (id_wf n Hi). by split. }
    intros grant n2 Hw2 Hg Hs. cbn [orb].
    apply (persistHardState_goes n _ n2 []); try done; try (subst n2 n1; by destruct grant).
    + intros Ha. exfalso. subst n2 n1. by destruct grant, Ha.
    + left. subst n2 n1. destruct grant; cbn; lia.
    + apply ch_hard; try (subst n2 n1; by destruct grant).
      * left. subst n2 n1. destruct grant; cbn; lia.
      * intros Ha. subst n2 n1. by destruct grant, Ha.
      * subst n2 n1. destruct grant; cbn; [right; eauto|by left].
      * right. subst n2 n1. by destruct grant.
  - wp_step. apply (castVote_steps n); try done; try apply Hi; [lia|]. intros grant n2 Hw2 Hg Hs. cbn [orb].
    destruct (grant && negb (voteIsDurable n2 (vq_From request))) eqn:Ep.
    + apply andb_true_iff in Ep as [-> Hd]. specialize (Hg eq_refl).
      assert (Hv : votedFor n = "").
      { destruct Hg as [?|Hv]; [done|exfalso]. subst n2. unfold voteIsDurable in Hd. cbn in Hd.
        rewrite Hdt, Hdv, Hv, N.eqb_refl, bool_decide_true in Hd by done. done. }
      assert (Ha : ~ active (role n)).
      { intros Ha. apply (id_named n Hi). rewrite <- (id_self n Hi); [done|]. done. }
      apply (persistHardState_goes n _ n2 []); try done; subst n2; cbn.
      * by right; left.
      * apply ch_hard; cbn; try done; [by right; left|right; eauto|by left].
    + wp_step. apply quiet_goes; try done; [|subst n2; by destruct grant].
      assert (Hn2 : votedFor n2 = votedFor n).
      { subst n2. destruct grant; [|done]. cbn in Ep. apply negb_false_iff in Ep. unfold voteIsDurable in Ep. cbn in Ep.
        apply andb_true_iff in Ep as [_ Ep]. apply bool_decide_eq_true in Ep. cbn. congruence. }
      subst n2. destruct grant; [|by apply quiet_refl]. cbn in Hn2. split; cbn; done.
Qed.

(** ** A Leader appends *)

Lemma persistLog_goes n e n2 x pd pre :
  idle n -> Forall silent pre -> wf n2 -> logBaseIndex n2 = logBaseIndex n -> logBaseTerm n2 = logBaseTerm n ->
  node_id n2 = node_id n -> peers n2 = peers n -> term n2 = term n -> votedFor n2 = votedFor n ->
  log n2 = log n ++ [x] -> commitIndex n2 = commitIndex n -> durableCommitIndex n2 = durableCommitIndex n ->
  durableLogIndex n2 = durableLogIndex n -> pendingLog n2 = pendingLog n -> pendingCommit n2 = pendingCommit n ->
  same_hard n n2 -> role n2 = Leader -> votedFor n = node_id n -> fits (log n2) ->
  pl_purpose pd = persistLeaderEntry -> pl_term pd = term n2 -> pl_lastIndex pd = lastLogIndex n2 ->
  pl_truncateFrom pd = 0 -> change n e (viewOf n2) ->
  wp (let! persist := persistLog [x] pd in ret (pre ++ persist)) (goes n e) n2.
Proof.
  intros Hi Hpre Hwf Hb Hbt Hid Hps Ht Hv Hl Hc Hdc Hdl Hpl Hpc (Hh1 & Hh2 & Hh3) Hr Hself Hf Hpu Hpt Hli Htr Hch.
  unfold persistLog. wp_auto. rewrite Htr. cbn. exists (viewOf n2). split; [done|].
  pose proof (id_clean n Hi) as (Hno & Hdt & Hdv).
  apply staged_clean; [unfold clean; cbn; split_and!; congruence|done..|].
  assert (Hlast : durableLogIndex n <= lastLogIndex n2).
  { rewrite (id_durableLog n Hi), (last_len n (id_wf n Hi) (id_base n Hi)), (last_len n2 Hwf), Hl, len_app by (by rewrite Hb; apply Hi). lia. }
  eapply (stage_lead _ _ _ _ _ pre _ [x] [] pd); cbn; try done; try (destruct Hi; congruence).
  - destruct Hi. split; cbn; try congruence; [by destruct Hwf|]. intros Hcontra.
    exfalso. rewrite Hpl, id_pendingLog, insert_empty in Hcontra. by apply map_non_empty_singleton in Hcontra.
  - destruct Hi. by rewrite Hpl, id_pendingLog, insert_empty.
  - by apply silent_speaks.
Qed.

Lemma fits_snoc n e x : room n e -> entrySize x <= growth e -> fits (log n ++ [x]).
Proof. unfold room, fits. intros. rewrite batchSize_app. cbn [batchSize foldr]. lia. Qed.

Lemma room_bound n e : idle n -> room n e -> lastLogIndex n + 2 < two64.
Proof.
  intros Hi Hr. pose proof (fits_length _ (room_fits _ _ Hr)). pose proof (last_len n (id_wf n Hi) (id_base n Hi)).
  assert (two64 = 18446744073709551616) by done. lia.
Qed.

Lemma leaderAppend_goes n e x id :
  idle n -> room n e -> role n = Leader -> proposedEntry (len (log n) + 1) (term n) e = Some x ->
  wp (leaderAppend x [ProposalAccepted id (Index x)]) (goes n e) n.
Proof.
  intros Hi Hroom Hr Hx. pose proof (room_bound n e Hi Hroom) as Hb. pose proof (id_wf n Hi) as Hwf.
  pose proof (last_len n Hwf (id_base n Hi)) as Hlen.
  assert (Hix : Index x = lastLogIndex n + 1 /\ entrySize x <= growth e).
  { rewrite Hlen. unfold proposedEntry, entrySize in *. destruct e; try done; [destruct type; try done|..];
      injection Hx as <-; cbn -[len]; rewrite ?len_nil; split; lia || done. }
  destruct Hix as [Hix Hsz]. unfold leaderAppend. wp_step.
  eapply wp_mono; [apply appendEntries_spec; [done|done|by split|]; rewrite len_cons, len_nil; lia|].
  intros _ n2 (Hwf2 & i & t & Hlast & E2). rewrite len_cons, len_nil in Hlast. wp_step. wp_step.
  assert (Hfit : fits (log n2)) by (subst n2; by eapply fits_snoc).
  assert (Hself : votedFor n = node_id n) by (apply (id_self n Hi); by right).
  apply (persistLog_goes n e n2 x); try done; try (subst n2; done).
  - by repeat constructor.
  - cbn. lia.
  - subst n2. eapply ch_append; cbn; done.
Qed.

Lemma propose_goes n e : idle n -> room n e -> isProposal e = true -> wp (Step e) (goes n e) n.
Proof.
  intros Hi Hroom He. pose proof (room_bound n e Hi Hroom) as Hb.
  pose proof (last_len n (id_wf n Hi) (id_base n Hi)) as Hlen.
  assert (Hq : forall acts, Forall silent acts -> goes n e acts n).
  { intros acts Ha. apply quiet_goes; [done|by apply quiet_refl|done|by apply silent_speaks]. }
  destruct e; try done; cbn [Step]; unfold proposeSession, proposeSet, proposeDelete; wp_step; wp_step;
    (destruct (bool_decide (role n = Leader)) eqn:Er; cbn [negb]; [|wp_step; by apply Hq; repeat constructor]);
    apply bool_decide_eq_true in Er.
  - destruct (negb _ && _) eqn:Et; [wp_step; by apply Hq|].
    apply leaderAppend_goes; try done. rewrite (u64_small (lastLogIndex n + 1)), Hlen by lia.
    destruct type; cbn in Et |- *; done.
  - apply leaderAppend_goes; try done. by rewrite (u64_small (lastLogIndex n + 1)), Hlen by lia.
  - apply leaderAppend_goes; try done. by rewrite (u64_small (lastLogIndex n + 1)), Hlen by lia.
Qed.

Lemma handleVoteResponse_goes n response : idle n -> room n (EvVoteResponse response) ->
  wp (handleVoteResponse response) (goes n (EvVoteResponse response)) n.
Proof.
  intros Hi Hroom. pose proof (room_bound n _ Hi Hroom) as Hb. pose proof (id_wf n Hi) as Hwf.
  pose proof (last_len n Hwf (id_base n Hi)) as Hlen.
  unfold handleVoteResponse. wp_step. wp_step. wp_step; reflect_bools; [by apply stepDown_goes|].
  destruct (_ || _) eqn:Eo; [wp_step; apply quiet_goes; [done|by apply quiet_refl|done|constructor]|].
  reflect_bools. destruct_and?. do 2 wp_step. wp_step. wp_step.
  match goal with |- context [wp _ _ ?x] => set (n1 := x) end.
  assert (Hwf1 : wf n1) by (destruct Hwf; by split).
  wp_step; reflect_bools.
  - wp_step. exists (viewOf n1). split; [apply ch_count; cbn; try done; congruence|].
    assert (Hq : quiet n n1) by solve_quiet.
    apply staged_clean; [by eapply quiet_clean|done..|]. apply stage_late; [done|].
    apply late_done; try (by destruct Hi).
  - do 4 wp_step. cbv zeta.
    match goal with |- context [wp _ _ ?x] => set (n2 := x) end. assert (Hwf2 : wf n2) by (destruct Hwf; by split).
    assert (Hself : votedFor n = node_id n) by (apply (id_self n Hi); left; congruence).
    change (lastLogIndex n2) with (lastLogIndex n). change (term n2) with (term n).
    rewrite (u64_small (lastLogIndex n + 1)) by lia. wp_step.
    eapply wp_mono; [apply appendEntries_spec; [done|done|by split|]; rewrite len_cons, len_nil; change (lastLogIndex n2) with (lastLogIndex n); lia|].
    intros _ n3 (Hwf3 & i & t & Hlast & E3). rewrite len_cons, len_nil in Hlast. cbn [lastLogIndex n2] in Hlast.
    wp_step. wp_update n4 E4. wp_step. wp_step.
    assert (Hwf4 : wf n4) by (subst n4; destruct Hwf3; by split).
    assert (Hfit : fits (log n4)).
    { subst n4 n3. eapply fits_snoc; [exact Hroom|]. by vm_compute. }
    eapply (persistLog_goes n _ n4);
      lazymatch goal with |- fits _ => exact Hfit | |- change _ _ _ => idtac | |- pl_lastIndex _ = _ => idtac
      | _ => try done; try (subst n4 n3; done) end.
    + by repeat constructor.
    + subst n4. cbn. by rewrite Hlast.
    + subst n4 n3. eapply ch_elect; cbn; try done; try congruence.
Qed.

(** ** Rounds of a Leader, reads, recovery *)

Lemma sends_goes n e n1 pre readID : idle n -> quiet n n1 -> role n1 = role n -> role n = Leader ->
  votes n1 = votes n -> matchIndex n1 = matchIndex n -> fits (log n) -> Forall silent pre ->
  wp (sendAppendEntries readID) (fun acts n2 => goes n e (pre ++ acts) n2) n1.
Proof.
  intros Hi Hq Hr Hl Hvs Hm Hf Hpre.
  assert (Hr1 : ready n (viewOf n1) n1).
  { apply quiet_ready; [done..|]. intros _. apply (id_self n Hi). by right. }
  pose proof (quiet_clean n n1 Hi Hq) as Hcl. destruct Hi, Hq.
  eapply wp_mono; [apply (sends_late n e (viewOf n1) (commitIndex n)); cbn; try congruence|].
  intros acts n2 (Hlate & Hr2 & Hh). exists (viewOf n1). split.
  - apply ch_quiet; cbn; done.
  - apply staged_clean; cbn; [by eapply (clean_same n (viewOf n1) n1)|done..|].
    apply stage_late; [done|]. apply late_app; [by apply silent_speaks|done].
Qed.

Lemma heartbeatRound_goes n e : idle n -> fits (log n) -> wp heartbeatRound (goes n e) n.
Proof.
  intros Hi Hf. unfold heartbeatRound. wp_step. wp_step.
  destruct (bool_decide (role n = Leader)) eqn:Er; cbn [negb]; reflect_bools.
  - wp_step. wp_step. wp_step.
    eapply wp_mono; [apply (sends_goes n e _ [ResetHeartbeatTimer]); try done; [solve_quiet|by repeat constructor]|].
    intros acts n2 Hg. wp_step. exact Hg.
  - wp_step. apply quiet_goes; [done|by apply quiet_refl|done|constructor].
Qed.

Lemma confirmRead_goes n read : idle n -> fits (log n) -> wp (confirmRead read) (goes n (ConfirmRead read)) n.
Proof.
  intros Hi Hf. unfold confirmRead. wp_step. wp_step.
  destruct (bool_decide (role n = Leader)) eqn:Er; cbn [negb]; reflect_bools.
  - wp_step; [wp_step; apply quiet_goes; [done|by apply quiet_refl|done|by repeat constructor]|].
    wp_step. wp_step. apply (sends_goes n _ _ []); try done. solve_quiet.
  - wp_step. apply quiet_goes; [done|by apply quiet_refl|done|by repeat constructor].
Qed.

Lemma checkQuorum_goes n e : idle n -> wp checkQuorum (goes n e) n.
Proof.
  intros Hi. unfold checkQuorum, becomeFollower. wp_step. wp_step.
  destruct (bool_decide (role n = Leader)) eqn:Er; cbn [negb]; reflect_bools.
  - wp_step; wp_step; wp_step.
    + wp_step. rewrite N.ltb_irrefl. apply quiet_goes; [done|solve_quiet|by intros [?|?]|by repeat constructor].
    + wp_step. apply quiet_goes; [done|solve_quiet|done|by repeat constructor].
  - wp_step. apply quiet_goes; [done|by apply quiet_refl|done|constructor].
Qed.

Lemma recover_goes n : idle n -> wp (Step RecoverCommitted) (goes n RecoverCommitted) n.
Proof.
  intros Hi. cbn [Step]. wp_step. wp_step.
  assert (Hr : ready n (viewOf n) n).
  { apply quiet_ready; [done|by apply quiet_refl|]. by apply id_self. }
  pose proof (id_clean n Hi) as Hcl. destruct Hi.
  eapply wp_mono; [apply (applyThrough_speaks n RecoverCommitted (viewOf n)); try done; cbn; lia|].
  cbn beta. intros acts n' (Hr' & Hs & Hpl & Hpc & Hd & Hc & Hh). exists (viewOf n). split; [by apply ch_quiet|].
  apply staged_clean; [by eapply (clean_same n (viewOf n) n)|done..|]. apply stage_late; [done|].
  apply late_done; try done; cbn; congruence.
Qed.

Lemma handleAppendEntriesFailed_goes n to requestID :
  idle n -> wp (handleAppendEntriesFailed to requestID) (goes n (AppendEntriesFailed to requestID)) n.
Proof.
  intros Hi. unfold handleAppendEntriesFailed. wp_step. wp_update n1 E1. wp_step. wp_update n2 E2. wp_step.
  apply quiet_goes; [done| | |constructor]; subst n2 n1; repeat case_match; try done; solve_quiet.
Qed.

(** ** A Leader hears from a Follower *)

Lemma late_reads n0 e v c acts n n' more :
  late n0 e v c acts n -> reads_frame n n' -> Forall silent more ->
  late n0 e v c (acts ++ more) n' /\ same_hard n n'.
Proof.
  intros Hl (p & ->) Hm. split; [|done].
  assert (Hr : forall m, ready n0 v m -> ready n0 v (m <| pendingReads := p |>)).
  { intros m []. split; cbn; try done. destruct rd_wf. by split. }
  destruct Hl as [acts n ? ? ? ? ? ? ?|pre id post after n ? ? ? ? ? ? ? ? ?].
  - apply late_done; try done; [by apply Hr|]. apply Forall_app_2; [done|by apply silent_speaks].
  - rewrite <- app_assoc. cbn [app]. eapply late_commit; try done; [by apply Hr|].
    apply Forall_app_2; [done|by apply silent_speaks].
Qed.

(** What a Leader does after it recorded the progress of a Follower. *)
Definition respond (response : AppendEntriesResponse) (pending : pendingAppend) (advanced : bool) : RM (list Action) :=
  if advanced then
    let! sends := sendAppendEntries 0 in persistCommit sends
  else
    let! n := get in
    let readID := pendingReadFor n (ar_From response) in
    let durableLastIndex := N.min (durableLogIndex n) (lastLogIndex n) in
    if negb (ar_Success response) || (map_get (nextIndex n) (ar_From response) <=? durableLastIndex)
       || negb (readID =? 0) || (pa_leaderCommit pending <? commitIndex n)
    then sendAppendEntriesTo (ar_From response) readID
    else ret [].

Lemma respond_late n e v response pending (advanced : bool) n3 :
  idle n -> ready n v n3 -> pendingLog n3 = ∅ -> pendingCommit n3 = ∅ ->
  durableCommitIndex n3 = commitIndex n -> commitIndex n3 = v_commit v -> v_role v = Leader -> fits (v_log v) ->
  (if advanced then commitIndex n < v_commit v else v_commit v = commitIndex n) ->
  wp (respond response pending advanced)
    (fun acts n4 => late n e v (commitIndex n) acts n4 /\ same_hard n3 n4) n3.
Proof.
  intros Hi Hr Hpl Hpc Hd Hc Hl Hf Hadv. unfold respond.
  assert (Hsend : forall acts n', sends_frame n3 n' -> Forall (replication n3) acts ->
    ready n v n' /\ same_hard n3 n' /\ Forall (speaks n e v) acts /\
    pendingLog n' = ∅ /\ pendingCommit n' = ∅ /\ durableCommitIndex n' = commitIndex n /\ commitIndex n' = v_commit v).
  { intros acts n' Hfr Ha. pose proof (sends_frame_wf _ _ Hfr (rd_wf _ _ _ Hr)).
    destruct Hfr as (x & y & z & ->). split_and!; try done; [destruct Hr; by split|by eapply (sends_speak n e v n3)]. }
  destruct advanced.
  - wp_step. eapply wp_mono; [apply sendAppendEntries_spec, Hr|]. intros sends n4 [Hfr Ha].
    destruct (Hsend _ _ Hfr Ha) as (Hr4 & Hh4 & Hs & Hpl4 & Hpc4 & Hd4 & Hc4).
    unfold persistCommit. wp_auto. split; [|done]. cbn. rewrite Hpc4, insert_empty, Hc4.
    eapply (late_commit n e v _ []); try done. destruct Hr4. split; cbn; try done.
    destruct rd_wf. split; cbn; try done. apply map_Forall_singleton. cbn. lia.
  - wp_step. wp_step. cbv zeta. wp_step.
    + eapply wp_mono; [apply sendAppendEntriesTo_spec, Hr|]. intros sends n4 [Hfr Ha].
      destruct (Hsend _ _ Hfr Ha) as (Hr4 & Hh4 & Hs & Hpl4 & Hpc4 & Hd4 & Hc4).
      split; [|done]. apply late_done; try done. congruence.
    + wp_step. split; [|done]. apply late_done; try done. congruence.
Qed.

Lemma handleAppendEntriesResponse_goes n response : idle n -> fits (log n) ->
  wp (handleAppendEntriesResponse response) (goes n (EvAppendEntriesResponse response)) n.
Proof.
  intros Hi Hf. pose proof (id_wf n Hi) as Hwf. unfold handleAppendEntriesResponse.
  assert (Hq : goes n (EvAppendEntriesResponse response) [] n)
    by (apply quiet_goes; [done|by apply quiet_refl|done|constructor]).
  wp_step. wp_step. wp_step; reflect_bools; [by apply stepDown_goes|].
  destruct (_ || _) eqn:Eo; [by wp_step|]. reflect_bools. destruct_and?. cbv zeta.
  wp_step; [by wp_step|]. clear E0. wp_update n1 E1.
  assert (Hwf1 : wf n1) by (subst n1; destruct Hwf; by split). wp_step.
  eapply wp_mono; [by apply recordProgress_frame|]. intros _ n2 (m & x & E2 & Hm).
  assert (Hwf2 : wf n2) by (subst n2; destruct Hwf1; by split). wp_step.
  eapply wp_mono; [by apply advanceLeaderCommit_spec|]. intros advanced n3 Hadv. wp_step.
  fold (respond response (inFlightAppend n (ar_From response)) advanced).
  assert (Hn3 : wf n3 /\ ready n (viewOf n3) n3 /\ pendingLog n3 = ∅ /\ pendingCommit n3 = ∅ /\
    durableCommitIndex n3 = commitIndex n /\ same_hard n n3 /\ log n3 = log n /\
    matchIndex n3 = m /\ role n3 = role n /\ votes n3 = votes n /\ term n3 = term n /\ votedFor n3 = votedFor n).
  { assert (Hwf3 : wf n3) by (destruct advanced; [by destruct Hadv as (? & _ & ? & _)|by subst]).
    split; [done|]. pose proof (id_self n Hi) as Hself. destruct Hi.
    assert (exists i, n3 = n2 <| commitIndex := i |>) as [i ->].
    { destruct advanced; [destruct Hadv as (i & -> & _); by exists i|exists (commitIndex n2); subst; by destruct n]. }
    subst n2 n1. split_and!; done. }
  destruct Hn3 as (Hwf3 & Hr3 & Hpl3 & Hpc3 & Hd3 & Hh3 & Hl3 & Hm3 & Hro3 & Hvs3 & Ht3 & Hv3).
  assert (Hcm : if advanced then commitIndex n < commitIndex n3 <= len (log n) /\
      term_at (log n) (N.to_nat (commitIndex n3)) = term n /\
      quorum n <= 1 + len (filter (fun peer => commitIndex n3 <= map_get m peer) (peers n))
    else commitIndex n3 = commitIndex n).
  { destruct advanced; [|by subst n3 n2 n1]. destruct Hadv as (i & -> & _ & Hlt & Hti & Hquo).
    rewrite (termAt_list n2 Hwf2) in Hti by (subst n2 n1; apply Hi). injection Hti as Hti.
    pose proof (last_len n Hwf (id_base n Hi)). subst n2 n1. cbn in *. unfold quorum, replicatedCount in *. cbn in *.
    split_and!; try done; lia. }
  eapply wp_mono; [apply (respond_late n (EvAppendEntriesResponse response) (viewOf n3)); try done|].
  { cbn. congruence. }
  { cbn. by rewrite Hl3. }
  { cbn. destruct advanced; [by destruct Hcm as ((? & _) & _)|done]. }
  cbn beta. intros acts n4 [Hlate Hh4]. wp_step. eapply wp_mono; [apply acknowledgeRead_frame|].
  intros reads n5 [Hfr Hcf]. wp_step.
  assert (Hsil : Forall silent reads) by (eapply Forall_impl; [exact Hcf|]; intros []; done).
  destruct (late_reads _ _ _ _ _ _ _ _ Hlate Hfr Hsil) as [Hlate5 Hh5].
  exists (viewOf n3). split.
  - apply ch_progress; cbn; try congruence.
    + rewrite Hm3. destruct Hm as [Hm|[? Hm]]; [left|right; split; [done|]]; rewrite Hm; by subst n1.
    + destruct advanced; [right|by left]. rewrite Hm3. exact Hcm.
  - apply staged_clean; cbn; try done; [|apply stage_late; done].
    destruct (id_clean n Hi) as (Hno & Hdt & Hdv). destruct Hh3 as (? & ? & ?), Hh4 as (? & ? & ?), Hh5 as (? & ? & ?).
    assert (ready n (viewOf n3) n5) as [] by (by destruct Hlate5). unfold clean. cbn in *. split_and!; congruence.
Qed.

(** ** A Follower takes entries *)

(** [n1] is [n] after it accepted the sender of [q] as Leader. *)
Record led (n : Node) (q : AppendEntries) (n1 : Node) : Prop := {
  ld_quiet : wf n1 /\ logBaseIndex n1 = 0 /\ logBaseTerm n1 = 0 /\ node_id n1 = node_id n /\
    peers n1 = peers n /\ log n1 = log n /\ commitIndex n1 = commitIndex n /\
    durableCommitIndex n1 = commitIndex n /\ durableLogIndex n1 = lastLogIndex n1 /\
    pendingLog n1 = ∅ /\ pendingCommit n1 = ∅ /\ same_hard n n1;
  ld_role : role n1 = Follower;
  ld_leader : leaderID n1 = ae_From q;
  ld_newTerm : term n1 = ae_Term q;
  ld_vote : votedFor n1 = if term n <? ae_Term q then "" else votedFor n }.

Lemma acceptLeader_led n q : idle n -> term n <= ae_Term q ->
  wp (acceptLeader (ae_Term q) (ae_From q)) (fun b n1 => b = (term n <? ae_Term q) /\ led n q n1) n.
Proof.
  intros Hi Hle. unfold acceptLeader, becomeFollower. wp_step. wp_step. cbv zeta. wp_step.
  destruct (N.ltb_spec (term n) (ae_Term q)) as [Hlt|Hge].
  - wp_update n1 E1. rewrite (proj2 (N.ltb_lt _ _) Hlt) in E1. wp_auto. split; [done|]. destruct Hi, id_wf.
    subst n1. split; cbn; try done. by rewrite (proj2 (N.ltb_lt _ _) Hlt).
  - wp_auto. split; [done|]. destruct Hi, id_wf. split; cbn; try done; [lia|].
    by rewrite (proj2 (N.ltb_ge _ _)).
Qed.

Lemma matches_list n i t : wf n -> logBaseIndex n = 0 -> logBaseTerm n = 0 -> matches n i t = Some true ->
  (N.to_nat i <= length (log n))%nat /\ term_at (log n) (N.to_nat i) = t.
Proof.
  intros Hwf Hb Hbt. unfold matches. pose proof (last_len n Hwf Hb) as Hl. unfold len in Hl.
  destruct (_ && _) eqn:Ez; reflect_bools; destruct_and?; subst; [intros _; split; [lia|done]|]; clear Ez.
  destruct (N.leb_spec i (lastLogIndex n)); [|done]. rewrite (termAt_list n Hwf Hb i Hbt). cbn.
  intros [= ?%N.eqb_eq]. split; [lia|done].
Qed.

(** Where request [q] finds its entries in the log. *)
Lemma matched_entry n q k x :
  wf n -> logBaseIndex n = 0 -> logBaseTerm n = 0 -> numbered Index (ae_PrevLogIndex q + 1) (ae_Entries q) ->
  ae_Entries q !! k = Some x -> entryMatches n x ->
  (N.to_nat (ae_PrevLogIndex q) + k < length (log n))%nat /\
  term_at (log n) (S (N.to_nat (ae_PrevLogIndex q) + k)) = Term x.
Proof.
  intros Hwf Hb Hbt Hn Hx [Hle Ht]. pose proof (last_len n Hwf Hb) as Hl. unfold len in Hl.
  rewrite (numbered_lookup _ _ _ _ _ Hn Hx) in Hle, Ht. rewrite (termAt_list n Hwf Hb _ Hbt) in Ht.
  injection Ht as Ht. split; [lia|]. rewrite <- Ht. f_equal. lia.
Qed.

Lemma matched_reaches n q :
  wf n -> logBaseIndex n = 0 -> logBaseTerm n = 0 -> numbered Index (ae_PrevLogIndex q + 1) (ae_Entries q) ->
  matches n (ae_PrevLogIndex q) (ae_PrevLogTerm q) = Some true -> Forall (entryMatches n) (ae_Entries q) ->
  reaches (log n) q.
Proof.
  intros Hwf Hb Hbt Hn Hm Ha. destruct (matches_list n _ _ Hwf Hb Hbt Hm) as [Hp Ht].
  unfold reaches, end_term. destruct (list.last (ae_Entries q)) as [x|] eqn:El.
  - rewrite last_lookup in El. pose proof (Forall_lookup_1 _ _ _ _ Ha El) as Hx.
    pose proof (lookup_lt_Some _ _ _ El).
    destruct (matched_entry n q _ x Hwf Hb Hbt Hn El Hx) as [Hlt Hte].
    split; [lia|]. rewrite <- Hte. f_equal. lia.
  - apply last_None in El. rewrite El. cbn. by rewrite Nat.add_0_r.
Qed.

Lemma matched_adopts n q pre y new :
  wf n -> logBaseIndex n = 0 -> logBaseTerm n = 0 -> numbered Index (ae_PrevLogIndex q + 1) (ae_Entries q) ->
  matches n (ae_PrevLogIndex q) (ae_PrevLogTerm q) = Some true ->
  ae_Entries q = pre ++ y :: new -> Forall (entryMatches n) pre ->
  let m := (N.to_nat (ae_PrevLogIndex q) + length pre)%nat in
  (m = length (log n) \/ ((m < length (log n))%nat /\ term_at (log n) (S m) <> Term y)) ->
  (N.to_nat (commitIndex n) <= m)%nat ->
  adopts (log n) (commitIndex n) q (take m (log n) ++ y :: new).
Proof.
  intros Hwf Hb Hbt Hn Hm He Ha m Hcase Hc. destruct (matches_list n _ _ Hwf Hb Hbt Hm) as [Hp Ht].
  assert (Hd : drop (m - N.to_nat (ae_PrevLogIndex q)) (ae_Entries q) = y :: new).
  { rewrite He. unfold m. replace (_ + length pre - _)%nat with (length pre) by lia. by rewrite drop_app_length. }
  exists m, (y :: new). split_and!; try done; try lia.
  - intros k x Hk Hx. assert (Hpx : pre !! k = Some x).
    { rewrite He, lookup_app_l in Hx by lia. done. }
    destruct (matched_entry n q k x Hwf Hb Hbt Hn Hx) as [_ ?]; [|done]. by eapply Forall_lookup_1.
  - rewrite He, length_app. cbn. lia.
  - destruct Hcase as [?|[Hlt Hne]]; [by left|right].
    destruct (lookup_lt_is_Some_2 (log n) m Hlt) as [x Hx]. exists x, y.
    rewrite (term_at_lookup _ _ _ Hx) in Hne. done.
Qed.

Lemma finish_goes n q v n2 after :
  idle n -> change n (EvAppendEntries q) v -> stage n (EvAppendEntries q) v (log n) (commitIndex n) after n2 ->
  same_hard n n2 -> term n <= ae_Term q -> v_term v = ae_Term q ->
  v_vote v = (if term n <? ae_Term q then "" else votedFor n) ->
  wp (finish (term n <? ae_Term q) after) (goes n (EvAppendEntries q)) n2.
Proof.
  intros Hi Hch Hst (Hh1 & Hh2 & Hh3) Hle Ht Hv. pose proof (stage_ready _ _ _ _ _ _ _ Hst) as Hr.
  destruct (id_clean n Hi) as (Hno & Hdt & Hdv). unfold finish.
  destruct (N.ltb_spec (term n) (ae_Term q)) as [Hlt|Hge].
  - unfold persistHardState. wp_auto. cbn. exists v. split; [done|].
    rewrite Hh1, Hno, insert_empty, (rd_term _ _ _ Hr), (rd_vote _ _ _ Hr).
    eapply (staged_hard n _ v [] _ []); try done; [left; cbn; lia|].
    match goal with |- stage _ _ _ _ _ _ (_ <| nextHardStatePersistence := ?a |> <| pendingHardState := ?b |>) =>
      exact (stage_hard _ _ _ _ _ _ n2 a b (durableTerm n2) (durableVotedFor n2) Hst) end.
  - assert (term n = ae_Term q) by lia. wp_step. exists v. split; [done|]. apply staged_clean; try done; [|lia].
    destruct Hr. unfold clean. split_and!; congruence.
Qed.

Lemma led_ready n q n1 : idle n -> led n q n1 -> ready n (viewOf n1) n1.
Proof.
  intros Hi [Hq Hr Hl Ht Hv]. destruct_and!. split; cbn; try done; try congruence; [by apply id_named|].
  rewrite Hr. by intros [?|?].
Qed.

(** The request is refused. *)
Lemma refused_goes n q n1 acts : idle n -> led n q n1 -> term n <= ae_Term q -> Forall silent acts ->
  wp (finish (term n <? ae_Term q) acts) (goes n (EvAppendEntries q)) n1.
Proof.
  intros Hi Hled Hle Ha. pose proof (led_ready n q n1 Hi Hled) as Hr. destruct Hled as [Hq Hro Hl Ht Hv].
  destruct_and!. apply (finish_goes n q (viewOf n1)); try done.
  - apply ch_follow; cbn; auto.
  - apply stage_late; [done|]. apply late_done; cbn; try done; [congruence|by apply silent_speaks].
Qed.

(** All entries are there already. *)
Lemma heartbeat_goes n q n1 : idle n -> led n q n1 -> term n <= ae_Term q -> reaches (log n) q ->
  wp (let! commit := advanceFollowerCommit (ae_LeaderCommit q)
        (appendEntriesResponse n1 (ae_From q) (ae_RequestID q) true (lastLogIndex n1) 0 0 (ae_ReadID q)) in
      finish (term n <? ae_Term q) ([ResetElectionTimer] ++ commit)) (goes n (EvAppendEntries q)) n1.
Proof.
  intros Hi Hled Hle Hre. pose proof (led_ready n q n1 Hi Hled) as Hr. destruct Hled as [Hq Hro Hl Ht Hv].
  destruct_and!. set (c' := followed (commitIndex n) (ae_LeaderCommit q) (lastLogIndex n1)).
  set (v := mkView Follower (ae_Term q) (votedFor n1) (log n) c' (matchIndex n1) (votes n1)).
  assert (Hrv : ready n v n1) by (destruct Hr; split; cbn in *; try done; by intros [?|?]).
  assert (Hlast : lastLogIndex n1 = len (log n)) by (rewrite (last_len n1); congruence). wp_step.
  eapply wp_mono; [apply (advance_late n (EvAppendEntries q) v (commitIndex n)); try done|].
  - apply Forall_singleton. cbn. intros _. split_and!; try done. exists q. split_and!; try done. by left.
  - cbn beta. intros acts n2 (Hlate & Hr2 & Hh2). destruct Hh2 as (? & ? & ?).
    match goal with H : same_hard n n1 |- _ => destruct H as (? & ? & ?) end.
    apply (finish_goes n q v); try done.
    + apply ch_follow; cbn; auto. unfold c', followed in *. rewrite Hlast.
      destruct (N.ltb_spec (commitIndex n) (N.min (ae_LeaderCommit q) (len (log n)))); [right|by left].
      split_and!; [lia..|by left].
    + apply stage_late; [done|]. by apply (late_app _ _ _ _ [ResetElectionTimer]); [repeat constructor|].
    + split_and!; congruence.
Qed.

(** Where the entries to append begin, and that cutting the log there is what [adopts] says. *)
Lemma cut_adopts n q pre y new tr :
  wf n -> logBaseIndex n = 0 -> logBaseTerm n = 0 -> numbered Index (ae_PrevLogIndex q + 1) (ae_Entries q) ->
  matches n (ae_PrevLogIndex q) (ae_PrevLogTerm q) = Some true ->
  ae_Entries q = pre ++ y :: new -> Forall (entryMatches n) pre ->
  (tr = 0 /\ Index y = lastLogIndex n + 1) \/
  (tr = Index y /\ commitIndex n < tr <= lastLogIndex n /\ termAt n tr <> Some (Term y)) ->
  adopts (log n) (commitIndex n) q (cut tr (log n) ++ y :: new) /\
  (tr = 0 \/ (commitIndex n < tr <= len (log n) /\ exists a b, log n !! N.to_nat (tr - 1) = Some a /\
     (y :: new) !! 0%nat = Some b /\ a <> b)).
Proof.
  intros Hwf Hb Hbt Hn Hm He Ha Hcase. pose proof (last_len n Hwf Hb) as Hlast. pose proof (wf_commit n Hwf) as Hcm.
  set (m := (N.to_nat (ae_PrevLogIndex q) + length pre)%nat).
  assert (Hy : Index y = N.of_nat m + 1).
  { rewrite He in Hn. apply numbered_app in Hn as [_ [-> _]]. unfold len, m. lia. }
  unfold len in *. destruct Hcase as [[-> Hix]|(-> & Hlt & Hne)].
  - split; [|by left]. unfold cut. cbn [N.eqb]. rewrite <- (firstn_all (log n)) at 2.
    replace (length (log n)) with m by lia. apply (matched_adopts n q pre y new); try done; [left; lia|lia].
  - rewrite (termAt_list n Hwf Hb _ Hbt) in Hne.
    assert (Hm' : N.to_nat (Index y) = S m) by lia. rewrite Hm' in Hne.
    destruct (lookup_lt_is_Some_2 (log n) m) as [a Ha']; [lia|]. split.
    + unfold cut. rewrite (proj2 (N.eqb_neq _ _)) by lia. replace (N.to_nat (Index y - 1)) with m by lia.
      apply (matched_adopts n q pre y new); try done; [right; split; [lia|intros Hte; apply Hne; f_equal; exact Hte]|lia].
    + right. split; [lia|]. exists a, y. replace (N.to_nat (Index y - 1)) with m by lia. split_and!; try done.
      intros ->. apply Hne. by rewrite (term_at_lookup _ _ _ Ha').
Qed.

(** The log after the truncation, if there is one. *)
Lemma truncated n tr :
  wf n -> logBaseIndex n = 0 -> durableLogIndex n = lastLogIndex n ->
  (tr = 0 \/ commitIndex n < tr <= lastLogIndex n) ->
  wp (if negb (tr =? 0) then truncateLog tr else ret tt)
    (fun _ n2 => wf n2 /\ lastLogIndex n2 = len (cut tr (log n)) /\ exists i t d,
       n2 = n <| log := cut tr (log n) |> <| lastLogIndex := i |> <| lastLogTerm := t |> <| durableLogIndex := d |> /\
       d <= len (cut tr (log n))) n.
Proof.
  intros Hwf Hb Hd Hcase. pose proof (last_len n Hwf Hb) as Hlast. unfold cut.
  destruct (N.eqb_spec tr 0) as [->|Hne]; cbn [negb].
  - wp_step. split_and!; try done. exists (lastLogIndex n), (lastLogTerm n), (durableLogIndex n).
    split; [by destruct n|]. lia.
  - eapply wp_mono; [apply truncateLog_spec; [done|lia..]|]. intros _ n2 (Hwf2 & Hl2 & t & E2).
    rewrite Hb, N.sub_0_r in E2. rewrite Hl2. split; [done|].
    assert (Hlen : len (take (N.to_nat (tr - 1)) (log n)) = tr - 1).
    { unfold len in *. rewrite length_take. lia. }
    split; [done|]. exists (tr - 1), t, (N.min (durableLogIndex n) (tr - 1)). split; [by subst n2|]. lia.
Qed.

(** New entries are cut in, appended and made durable. *)
Definition takeEntries (q : AppendEntries) (termChanged : bool) (entries : list LogEntry) (tr : N) : RM (list Action) :=
  do! (if negb (tr =? 0) then truncateLog tr else ret tt) in
  do! appendEntries entries in
  let! n := get in
  let! persist := persistLog entries
    {| pl_purpose := persistFollowerAppend; pl_term := ae_Term q;
       pl_leader := ae_From q; pl_requestID := ae_RequestID q;
       pl_truncateFrom := tr; pl_lastIndex := lastLogIndex n;
       pl_leaderCommit := ae_LeaderCommit q; pl_readID := ae_ReadID q |} in
  finish termChanged ([ResetElectionTimer] ++ persist).

(** The state once the entries are in the log, not yet durable. *)
Record taken (n : Node) (q : AppendEntries) (n1 : Node) (l : list LogEntry) (n3 : Node) : Prop := {
  tk_wf : wf n3; tk_log : log n3 = l; tk_base : logBaseIndex n3 = 0; tk_baseTerm : logBaseTerm n3 = 0;
  tk_id : node_id n3 = node_id n; tk_peers : peers n3 = peers n; tk_role : role n3 = Follower;
  tk_term : term n3 = ae_Term q; tk_vote : votedFor n3 = votedFor n1; tk_match : matchIndex n3 = matchIndex n1;
  tk_votes : votes n3 = votes n1; tk_leader : leaderID n3 = ae_From q;
  tk_pendingLog : pendingLog n3 = ∅; tk_pendingCommit : pendingCommit n3 = ∅;
  tk_durableCommit : durableCommitIndex n3 = commitIndex n; tk_commit : commitIndex n3 = commitIndex n;
  tk_durableLog : durableLogIndex n3 <= lastLogIndex n3; tk_hard : same_hard n n3 }.

Lemma entries_taken n q n1 entries tr :
  led n q n1 -> (tr = 0 \/ commitIndex n1 < tr <= lastLogIndex n1) -> entries <> [] ->
  numbered Index (len (cut tr (log n)) + 1) entries -> len (cut tr (log n)) + len entries + 1 < two64 ->
  wp (do! (if negb (tr =? 0) then truncateLog tr else ret tt) in appendEntries entries)
    (fun _ n3 => taken n q n1 (cut tr (log n) ++ entries) n3) n1.
Proof.
  intros [(Hwf & Hb & Hbt & Hid & Hps & Hl & Hc & Hdc & Hdl & Hpl & Hpc & Hh) Hro Hld Ht Hv] Htr Hne Hnum Hbd.
  wp_step. eapply wp_mono; [by apply truncated|]. intros _ n2 (Hwf2 & Hlast2 & i & t & d & E2 & Hd).
  rewrite Hl in E2, Hlast2, Hd.
  eapply wp_mono; [apply appendEntries_spec; [done|done|by rewrite Hlast2|by rewrite Hlast2]|].
  intros _ n3 (Hwf3 & i3 & t3 & Hlast3 & E3). rewrite Hlast2 in Hlast3. destruct Hh as (? & ? & ?).
  assert (Hd3 : durableLogIndex n3 = d) by (subst n3 n2; done).
  split; [done|..]; try (subst n3 n2; done). lia.
Qed.

Lemma takeEntries_goes n q n1 pre y new tr :
  idle n -> led n q n1 -> term n <= ae_Term q -> event_ok n (EvAppendEntries q) ->
  matches n1 (ae_PrevLogIndex q) (ae_PrevLogTerm q) = Some true ->
  ae_Entries q = pre ++ y :: new -> Forall (entryMatches n1) pre ->
  (tr = 0 /\ Index y = lastLogIndex n1 + 1) \/
  (tr = Index y /\ commitIndex n1 < tr <= lastLogIndex n1 /\ termAt n1 tr <> Some (Term y)) ->
  wp (takeEntries q (term n <? ae_Term q) (y :: new) tr) (goes n (EvAppendEntries q)) n1.
Proof.
  intros Hi Hled Hle [Hnum Hbd] Hm He Ha Hcase.
  pose proof Hled as [(Hwf & Hb & Hbt & _ & _ & Hl & Hc & _) _ _ _ Hv].
  destruct (cut_adopts n1 q pre y new tr Hwf Hb Hbt Hnum Hm He Ha Hcase) as [Had Htr].
  pose proof (last_len n1 Hwf Hb) as Hlast. rewrite Hl, Hc in Had, Htr.
  assert (Hy : Index y = len (cut tr (log n)) + 1).
  { destruct Hcase as [[-> Hix]|(-> & Hlt & _)]; [rewrite <- Hl; unfold cut; cbn [N.eqb]; lia|].
    unfold cut. rewrite (proj2 (N.eqb_neq _ _)) by lia. unfold len in *. rewrite length_take, <- Hl. lia. }
  rewrite He in Hnum, Hbd. apply numbered_app in Hnum as [_ [Hy' Hnew]]. rewrite len_app in Hbd.
  unfold takeEntries.
  apply (wp_assoc _ (fun _ => appendEntries (y :: new))), wp_bind.
  eapply wp_mono; [apply (entries_taken n q); try done|].
  { destruct Hcase as [[? _]|(? & ? & _)]; [by left|by right]. }
  { rewrite <- Hy. split; [done|]. rewrite Hy'. exact Hnew. }
  { rewrite Hy in Hy'. lia. }
  intros [] n3 Htk. cbn beta in Htk. set (l' := cut tr (log n) ++ y :: new) in *.
  set (v := mkView Follower (ae_Term q) (votedFor n1) l' (followed (commitIndex n) (ae_LeaderCommit q) (lastLogIndex n3)) (matchIndex n1) (votes n1)).
  pose proof Htk as [Hwf3 Hl3 Hb3 Hbt3 Hid3 Hps3 Hro3 Ht3 Hv3 Hm3 Hvs3 Hld3 Hpl3 Hpc3 Hdc3 Hc3 Hdl3 Hh3].
  assert (Hlen3 : lastLogIndex n3 = len l') by (rewrite <- Hl3; by apply last_len).
  wp_step. wp_step. unfold persistLog. do 7 wp_step.
  match goal with |- wp _ _ ?x => set (n4 := x) end.
  assert (Hr4 : ready n v n4).
  { split; cbn; try done; [destruct Hwf3; by split|by apply id_named|by intros [?|?]|].
    rewrite Hpl3, insert_empty. intros Hcontra. exfalso. by apply map_non_empty_singleton in Hcontra. }
  apply (finish_goes n q v); try done.
  - apply ch_follow; cbn; auto. unfold followed. rewrite Hlen3.
    destruct (N.ltb_spec (commitIndex n) (N.min (ae_LeaderCommit q) (len l'))); [right|by left].
    split_and!; [lia..|by right].
  - eapply (stage_follow _ _ _ _ _ [ResetElectionTimer] _ tr (y :: new) [] _ n4);
      [done|cbn; by rewrite Hpl3, insert_empty|..]; try done.
    + apply Forall_singleton. cbn. intros _. split_and!; try done. exists q. split_and!; try done. by right.
    + by repeat constructor.
Qed.

Lemma handleAppendEntries_goes n q : idle n -> event_ok n (EvAppendEntries q) ->
  wp (handleAppendEntries q) (goes n (EvAppendEntries q)) n.
Proof.
  intros Hi Hok. unfold handleAppendEntries. wp_step. wp_step. wp_step; reflect_bools.
  { wp_step. apply quiet_goes; [done|by apply quiet_refl|done|by repeat constructor]. }
  wp_step. eapply wp_mono; [by apply acceptLeader_led|]. cbn beta. intros b n1 [-> Hled]. cbv zeta.
  pose proof Hled as [(Hwf & Hb & Hbt & _ & _ & Hl & _ & _ & Hdl & _) _ _ _ _]. wp_step. wp_step. wp_step.
  destruct (matches_total n1 Hwf (ae_PrevLogIndex q) (ae_PrevLogTerm q)) as [m Hm].
  apply wp_lift with m; [done|]. destruct m; cbn [negb].
  2:{ wp_step. destruct (conflictHint_total n1 Hwf (ae_PrevLogIndex q)) as (ct & ci & ?).
      apply wp_lift with (ct, ci); [done|]. apply refused_goes; try done. by repeat constructor. }
  pose proof Hok as [Hnum Hbd].
  wp_step. destruct (entriesToAppendFrom_spec n1 Hwf (ae_PrevLogIndex q) 0 (ae_Entries q))
    as (new & tr & ok & Heq & Hspec); [by rewrite N.add_0_r|lia|].
  apply wp_lift with (new, tr, ok); [done|]. destruct ok; cbn [negb].
  2:{ wp_step. destruct (conflictHint_total n1 Hwf (ae_PrevLogIndex q +! 1)) as (ct & ci & ?).
      apply wp_lift with (ct, ci); [done|]. apply refused_goes; try done. by repeat constructor. }
  destruct new as [|y new].
  - destruct Hspec as [_ Hall]. change (0 <? len []) with false. cbv iota.
    destruct (N.ltb_spec (durableLogIndex n1) (lastLogIndex n1)); [lia|]. apply heartbeat_goes; try done.
    rewrite <- Hl. by apply matched_reaches.
  - destruct Hspec as (pre & He & Hpre & Hcase). rewrite len_cons, (proj2 (N.ltb_lt _ _)) by lia.
    by apply (takeEntries_goes n q n1 pre y new tr).
Qed.

(** One event does one of the listed things. *)
Lemma step_goes n e : idle n -> ordinary e = true -> room n e -> term n + 1 < two64 -> event_ok n e ->
  wp (Step e) (goes n e) n.
Proof.
  intros Hi He Hroom Hb Hok. pose proof (room_fits n e Hroom).
  destruct e; try discriminate He; try (by apply propose_goes); cbn [Step].
  - by apply startPreVote_goes.
  - by apply heartbeatRound_goes.
  - by apply checkQuorum_goes.
  - by apply recover_goes.
  - by apply confirmRead_goes.
  - by apply handlePreVoteRequest_goes.
  - by apply handlePreVoteResponse_goes.
  - by apply handleVoteRequest_goes.
  - by apply handleVoteResponse_goes.
  - by apply handleAppendEntries_goes.
  - by apply handleAppendEntriesResponse_goes.
  - by apply handleAppendEntriesFailed_goes.
Qed.
