(* ===== verification/RaftReads.v ===== *)
(** Reads that wait for a quorum.

    What the core keeps of them through any event but those of Snapshots: a read is pending only
    at a Leader that has committed an entry of its own term, its acknowledgements are of that
    term, and it is confirmed at a commit index captured once a quorum acknowledged it.  The
    lemmas are over predicates [heard] and [fresh]: who may have acknowledged a read, and which
    commit indexes answer it. *)

From S2P Require Import Prelude RaftTypes RaftCore RaftLog RaftInvariant RaftElection RaftActions Runtime RuntimeActions RaftChanges.

(** The Node has committed an entry of its term. *)
Definition own (n : Node) : Prop :=
  exists j x, log n !! j = Some x /\ Term x = term n /\ logBaseIndex n + N.of_nat j < commitIndex n.

(** No read is pending and none may begin. *)
Definition dormant (n : Node) : Prop := pendingReads n = ∅ /\ readReady n = false.

Lemma between_lookup n through e : wf n -> e ∈ entriesBetween n (lastApplied n) through ->
  exists j, log n !! j = Some e /\ logBaseIndex n + N.of_nat j < through.
Proof.
  intros Hwf He. pose proof (wf_base n Hwf). unfold entriesBetween in He.
  apply list_elem_of_lookup in He as [k Hk]. pose proof (lookup_lt_Some _ _ _ Hk) as Hlt.
  rewrite length_take in Hlt. rewrite lookup_take_lt, lookup_drop in Hk by lia.
  eexists. split; [exact Hk|]. lia.
Qed.

Section Reads.
Context (heard : ReadID -> NodeID -> Prop) (fresh : ReadID -> N -> Prop).
Context (id0 : NodeID) (term0 quorum0 commit0 : N) (led0 : Prop).
Context (fresh_mono : forall read k k', fresh read k -> k <= k' -> fresh read k').

(** What waits for the disk, and most of what is said: no confirmations. *)
Definition held (a : Action) : Prop :=
  match a with
  | ReadConfirmed _ _ => False
  | SendAppendEntries to r => ae_From r = id0 /\ to <> id0
  | SendAppendEntriesResponse to r => ar_From r = id0 /\ to <> id0 /\ term0 <= ar_Term r
  | _ => True
  end.

(** A confirmed read is applied. *)
Definition told (la : N) (a : Action) : Prop :=
  match a with ReadConfirmed read k => fresh read k /\ k <= la | _ => held a end.

(** Confirmations come after the entries that are applied. *)
Definition reads_last (acts : list Action) : Prop :=
  exists first others, acts = first ++ others /\ Forall held first /\ applied others = [].

Definition waiting (read : ReadID) (p : pendingRead) : Prop :=
  (forall f, f ∈ pr_acknowledgements p -> heard read f) /\
  (pr_confirmed p = true -> fresh read (pr_commitIndex p)).

(** The request that waits for the disk came from another Node. *)
Definition foreign (p : pendingLogPersistence) : Prop :=
  pl_purpose p = persistFollowerAppend -> pl_leader p <> id0.

(** The state between and within the steps of a Node that was at [term0] and [commit0], where
    [led0] says whether it could serve reads. *)
Record reading (n : Node) : Prop := {
  rg_id : node_id n = id0;
  rg_others : id0 ∉ peers n;
  rg_term : term0 <= term n;
  rg_quorum : quorum n = quorum0;
  rg_dormant : role n <> Leader -> dormant n;
  rg_own : readReady n = true \/ pendingReads n <> ∅ -> own n;
  rg_here : pendingReads n <> ∅ -> led0 /\ term n = term0 /\ commit0 <= commitIndex n;
  rg_waiting : map_Forall waiting (pendingReads n);
  rg_log : map_Forall (fun _ => foreign) (pendingLog n);
  rg_hard : map_Forall (fun _ p => Forall held (ph_after p)) (pendingHardState n);
  rg_commit : map_Forall (fun _ p => Forall held (pc_after p)) (pendingCommit n) }.

Abbreviation yields n m := (wlp m (fun acts n' => reading n' /\ Forall held acts) n).
Abbreviation tells n m := (wlp m (fun acts n' => reading n' /\ Forall (told (lastApplied n')) acts) n).
Abbreviation keeps n m := (wlp m (fun _ n' => reading n') n).

Lemma held_told la a : held a -> told la a.
Proof. by destruct a. Qed.

Lemma yields_tells n m : yields n m -> tells n m.
Proof.
  intros Hm. eapply wlp_mono; [exact Hm|]. intros acts n' [? Ha]. split; [done|].
  eapply Forall_impl; [exact Ha|]. intros a. apply held_told.
Qed.

Lemma held_map {A} (f : A -> Action) l : (forall x, held (f x)) -> Forall held (map f l).
Proof. intros Hf. induction l as [|x l IH]; constructor; auto. Qed.

Lemma reply_held n to request success matched t index read : reading n -> to <> id0 ->
  Forall held (appendEntriesResponse n to request success matched t index read).
Proof. intros [] Hto. apply Forall_singleton. by split_and!. Qed.

(** ** Updates of other fields *)

Ltac reading_update :=
  match goal with H : reading _ |- reading _ => destruct H; subst; split; cbn in *; assumption end.

Ltac solve_held :=
  repeat first
    [ eassumption
    | apply reply_held
    | apply Forall_app_2 | apply Forall_cons_2 | apply Forall_nil_2
    | apply held_map; intros; exact I
    | exact I ].

Create HintDb reads.
#[local] Hint Extern 1 (Forall _ _) => solve [solve_held] : reads.
#[local] Hint Extern 1 (foreign _) => solve [intros ?; discriminate | intros _; assumption] : reads.

Ltac reads_step :=
  lazymatch goal with
  | Hg : reading _ |- wlp (modify _) _ _ =>
      let s' := fresh "s" in let H := fresh "Hs" in
      apply wlp_modify; intros s' H;
      let R := fresh "R" in
      first [ assert (R : reading s') by reading_update; clear H
            | repeat match type of H with context [if ?b then _ else _] => destruct b end;
              assert (R : reading s') by reading_update; clear H ]
  | |- wlp (collect _ _) _ _ => idtac
  | _ => first
      [ wlp_step
      | eapply wlp_mono; [solve [eauto with reads nocore]|];
        let F := fresh "F" in intros ? ? F; cbn beta in F;
        lazymatch type of F with reading _ => idtac | _ => destruct F as [F ?] end ]
  end.

Ltac reads_auto :=
  try (progress reads_step; reads_auto);
  try (first [split; [assumption|solve [solve_held]] | assumption]).

(** ** Sending and persisting *)

Lemma sendAppendEntriesTo_reading n peer read : reading n -> peer <> id0 -> yields n (sendAppendEntriesTo peer read).
Proof.
  intros Hn Hp. unfold sendAppendEntriesTo. reads_auto. split; [done|]. apply Forall_singleton.
  split; [by apply rg_id|done].
Qed.
#[local] Hint Resolve sendAppendEntriesTo_reading : reads.

Lemma sendAppendEntries_reading n read : reading n -> yields n (sendAppendEntries read).
Proof.
  intros Hn. unfold sendAppendEntries. do 2 wlp_step. apply wlp_collect_elem; [done|].
  intros x s Hx Hs. assert (x <> id0) by (intros ->; by apply (rg_others n Hn)). reads_auto.
Qed.

Lemma persistLog_reading n entries pending : reading n -> foreign pending ->
  yields n (persistLog entries pending).
Proof.
  intros Hn Hp. unfold persistLog. wlp_step. reads_step. do 4 wlp_step. wlp_step.
  split; [|solve_held]. destruct R. subst. split; cbn; try done. by apply map_Forall_insert_2.
Qed.

Lemma persistCommit_reading n after : reading n -> Forall held after -> yields n (persistCommit after).
Proof.
  intros Hn Ha. unfold persistCommit. wlp_step. reads_step. do 4 wlp_step. wlp_step.
  split; [|solve_held]. destruct R. subst. split; cbn; try done. by apply map_Forall_insert_2.
Qed.

Lemma persistHardState_reading n after : reading n -> Forall held after -> yields n (persistHardState after).
Proof.
  intros Hn Ha. unfold persistHardState. wlp_step. reads_step. do 4 wlp_step. wlp_step.
  split; [|solve_held]. destruct R. subst. split; cbn; try done. by apply map_Forall_insert_2.
Qed.
#[local] Hint Resolve sendAppendEntries_reading persistLog_reading persistCommit_reading
  persistHardState_reading : reads.

(** ** The log and the commit index *)

Lemma appendEntries_reading n entries : reading n -> keeps n (appendEntries entries).
Proof.
  intros []. unfold appendEntries. do 4 wlp_step. wlp_step. subst. split; cbn; try done.
  intros Hr. destruct (rg_own0 Hr) as (j & x & Hj & ? & ?). exists j, x. split; [|done]. by apply lookup_app_l_Some.
Qed.

Lemma commit_reading n index : reading n -> commitIndex n < index -> reading (n <| commitIndex := index |>).
Proof.
  intros [] Hi. split; cbn; try done.
  - intros Hr. destruct (rg_own0 Hr) as (j & x & ? & ? & ?). exists j, x. cbn. split_and!; [done..|lia].
  - intros Hp. destruct (rg_here0 Hp) as (? & ? & ?). split_and!; [done..|lia].
Qed.

Lemma leaderCommitIndex_above n k index : leaderCommitIndex n k = Some (Some index) -> commitIndex n < index.
Proof.
  induction k as [|k IH]; [done|]. cbn [leaderCommitIndex]. destruct (termAt n _); [|done].
  destruct (negb _); [done|]. destruct (_ <=? _); [|done]. intros [= <-]. lia.
Qed.

Lemma advanceLeaderCommit_reading n : reading n -> keeps n advanceLeaderCommit.
Proof.
  intros Hn. unfold advanceLeaderCommit. do 4 wlp_step. destruct a as [index|]; [|by wlp_step].
  wlp_step. wlp_step. wlp_step. subst. apply commit_reading; [done|]. by eapply leaderCommitIndex_above.
Qed.

(** A Node without reads may lose entries. *)
Lemma dormant_reading n n' : reading n -> dormant n' -> node_id n' = node_id n -> peers n' = peers n ->
  term n <= term n' -> pendingHardState n' = pendingHardState n -> pendingLog n' = pendingLog n ->
  pendingCommit n' = pendingCommit n -> reading n'.
Proof.
  intros [] [Hp Hr] Hi Hps Ht Hh Hl Hc. split; rewrite ?Hp, ?Hr, ?Hh, ?Hl, ?Hc, ?Hi, ?Hps; try done.
  - lia.
  - unfold quorum in *. by rewrite Hps.
  - by intros [?|?].
Qed.

Lemma becomeFollower_reading n t leader : reading n -> term n <= t ->
  wlp (becomeFollower t leader) (fun _ n' => reading n' /\ dormant n' /\ role n' = Follower) n.
Proof.
  intros Hn Ht. unfold becomeFollower. wlp_step. subst.
  split; [|by destruct (_ <? _)]. eapply dormant_reading; [exact Hn|..]; by destruct (_ <? _).
Qed.

Lemma truncateLog_reading n first : reading n -> dormant n ->
  wlp (truncateLog first) (fun _ n' => reading n' /\ dormant n' /\ role n' = role n) n.
Proof.
  intros Hn Hd. unfold truncateLog. repeat wlp_step. subst. split; [|done]. by apply (dormant_reading n).
Qed.
#[local] Hint Resolve appendEntries_reading advanceLeaderCommit_reading : reads.

(** ** Applying entries and completing reads *)

Lemma forget_reading n p : reading n -> p ⊆ pendingReads n -> reading (n <| pendingReads := p |>).
Proof.
  intros [] Hp. assert (Hne : p <> ∅ -> pendingReads n <> ∅).
  { intros Hne He. rewrite He in Hp. apply Hne, (anti_symm (⊆)); [done|apply map_empty_subseteq]. }
  split; cbn; try done; [|tauto..|intros i x Hx; apply rg_waiting0; by eapply lookup_weaken].
  intros Hr. destruct (rg_dormant0 Hr) as [Hpe ?]. split; [|done]. rewrite Hpe in Hp. apply (anti_symm (⊆)); [done|apply map_empty_subseteq].
Qed.

Lemma confirmation_told n la a : reading n -> read_confirmation (pendingReads n) la a -> told la a.
Proof.
  intros Hn. destruct a; try done. intros (r & Hr & Hc & <- & Hle). split; [|done]. by apply (rg_waiting n Hn _ _ Hr).
Qed.

Lemma completeReads_reading n : reading n -> tells n completeReads.
Proof.
  intros Hn. apply wp_wlp. eapply wp_mono; [apply completeReads_spec|].
  intros acts n' ((p & ->) & Hp & Ha). split; [by apply forget_reading|].
  eapply Forall_impl; [exact Ha|]. intros a. by apply (confirmation_told n).
Qed.

Lemma completeReads_dormant n : reading n -> role n <> Leader ->
  wlp completeReads (fun acts n' => acts = [] /\ reading n' /\ role n' = role n) n.
Proof.
  intros Hn Hr. destruct (rg_dormant n Hn Hr) as [Hp _]. unfold completeReads. wlp_step. wlp_step.
  rewrite Hp, map_to_list_empty. change (sortReadIDs (map fst [])) with (@nil ReadID). cbn [collect]. by wlp_step.
Qed.

Lemma applyLoop_held n count : wlp (applyLoop count) (fun acts _ => Forall held acts) n.
Proof.
  revert n. induction count as [|count IH]; intros n; cbn [applyLoop]; [by wlp_step|].
  unfold applyNext. do 8 wlp_step.
  all: repeat wlp_step; (eapply wlp_mono; [apply IH|]); intros acts n' Hacts; wlp_step; by repeat constructor.
Qed.

Lemma applyThrough_last n index : wlp (applyThrough index) (fun acts _ => reads_last acts) n.
Proof.
  assert (Hc : forall n, wlp completeReads (fun acts _ => applied acts = []) n).
  { intros m. apply wp_wlp. eapply wp_mono; [apply completeReads_spec|]. intros acts n' (_ & _ & Ha).
    by eapply applied_read_confirmations. }
  unfold applyThrough. wlp_step. wlp_step. wlp_step.
  - eapply wlp_mono; [apply Hc|]. intros acts s Ha. by exists [], acts.
  - wlp_step. eapply wlp_mono; [apply applyLoop_held|]. intros first s Hf. wlp_step.
    eapply wlp_mono; [apply Hc|]. intros others s' Ho. wlp_step. by exists first, others.
Qed.

(** A Leader becomes ready for reads by applying a committed entry of its term. *)
Lemma applyThrough_reading n index : reading n -> wf n -> index <= commitIndex n -> tells n (applyThrough index).
Proof.
  intros Hn Hwf Hi. pose proof (wf_commit n Hwf). apply wp_wlp. eapply wp_mono; [apply applyThrough_spec; [done|lia]|].
  intros acts n' ((r & p & -> & Hp & Hr) & _ & Ha). split.
  - apply (forget_reading (n <| lastApplied := _ |> <| readReady := r |>)); [|done].
    destruct Hn. split; cbn; try done.
    + intros Hl. destruct (rg_dormant0 Hl) as [? Hf]. split; [done|]. destruct r; [|done].
      destruct Hr as [?|[? _]]; [done|congruence|done].
    + intros [->|Hne]; [|by apply rg_own0; right]. destruct Hr as [?|(_ & e & He & _ & Ht)]; [done|by apply rg_own0; left|].
      destruct (between_lookup n index e Hwf He) as (j & Hj & Hlt). exists j, e. cbn. split_and!; [done..|lia].
  - eapply Forall_impl; [exact Ha|]. intros a Hae. destruct a; try done. by apply (confirmation_told n).
Qed.

(** Without reads, and not leading, it only applies. *)
Lemma applyLoop_dormant n count : role n <> Leader ->
  wlp (applyLoop count) (fun acts n' => (exists a, n' = n <| lastApplied := a |>) /\ Forall held acts) n.
Proof.
  revert n. induction count as [|count IH]; intros n Hr; cbn [applyLoop].
  { wlp_step. split; [exists (lastApplied n); by destruct n|constructor]. }
  unfold applyNext. do 8 wlp_step; [subst; reflect_bools; done|]. wlp_step. wlp_step.
  eapply wlp_mono; [apply IH; by subst|]. intros acts n' [[b ->] Hacts]. wlp_step. subst.
  split; [by exists b|by constructor].
Qed.

Lemma applyThrough_dormant n index : reading n -> role n <> Leader -> yields n (applyThrough index).
Proof.
  intros Hn Hr. unfold applyThrough. wlp_step. wlp_step. wlp_step.
  { eapply wlp_mono; [by apply completeReads_dormant|]. by intros acts n' (-> & ? & _). }
  wlp_step. eapply wlp_mono; [by apply applyLoop_dormant|]. intros acts n' [[a ->] Ha]. wlp_step.
  eapply wlp_mono; [apply completeReads_dormant; [by destruct Hn; split|done]|].
  intros more n' (-> & Hn' & _). wlp_step. split; [done|by rewrite app_nil_r].
Qed.

Lemma advanceFollowerCommit_reading n leaderCommit after : reading n -> role n <> Leader -> Forall held after ->
  yields n (advanceFollowerCommit leaderCommit after).
Proof.
  intros Hn Hr Ha. unfold advanceFollowerCommit. do 3 wlp_step.
  - wlp_step. wlp_step. reflect_bools. subst. apply persistCommit_reading; [|done]. by apply commit_reading.
  - wlp_step. eapply wlp_mono; [by apply applyThrough_dormant|]. intros acts n' [? ?]. wlp_step.
    split; [done|by apply Forall_app_2].
Qed.
Lemma recordProgress_reading n response : reading n -> keeps n (recordProgress response).
Proof. intros Hn. unfold recordProgress. reads_auto. Qed.
#[local] Hint Resolve recordProgress_reading : reads.

(** ** Acknowledgements *)

Lemma insert_reading n read p : reading n -> waiting read p -> role n = Leader -> own n -> led0 ->
  term n = term0 -> commit0 <= commitIndex n -> reading (n <| pendingReads := <[read := p]> (pendingReads n) |>).
Proof.
  intros [] Hw Hl Ho Hled Ht Hc. split; cbn; try done. by apply map_Forall_insert_2.
Qed.

Hypothesis quorum_fresh : forall read (Q : gset string), led0 -> (forall f, f ∈ Q -> heard read f) -> quorum0 <= N.of_nat (size Q) -> fresh read commit0.

Lemma acknowledgeRead_reading n response : reading n -> heard (ar_ReadID response) (ar_From response) ->
  tells n (acknowledgeRead response).
Proof.
  intros Hn Hh. unfold acknowledgeRead. do 3 wlp_step; [|by wlp_step]. wlp_step; [by wlp_step|]. reflect_bools.
  assert (Hne : pendingReads n <> ∅) by (intros He; by rewrite He, lookup_empty in E).
  assert (Hl : role n = Leader) by (destruct (decide (role n = Leader)); [done|by destruct (rg_dormant n Hn)]).
  destruct (rg_here n Hn Hne) as (Hled & Ht & Hc). assert (Ho : own n) by (apply (rg_own n Hn); by right).
  destruct (rg_waiting n Hn _ _ E) as [Ha _].
  assert (Hacks : forall f, f ∈ {[ar_From response]} ∪ pr_acknowledgements p -> heard (ar_ReadID response) f).
  { intros f [->%elem_of_singleton|?]%elem_of_union; auto. }
  wlp_step. wlp_step. assert (Hs1 : reading s) by (subst; apply insert_reading; try done; by split).
  wlp_step; [by wlp_step|]. wlp_step. wlp_step. apply completeReads_reading. reflect_bools. subst.
  apply (insert_reading (n <| pendingReads := _ |>)); try done. split; [done|]. cbn. intros _.
  apply (fresh_mono _ commit0); [|done]. eapply quorum_fresh; [done|exact Hacks|]. by rewrite <- (rg_quorum n Hn).
Qed.

Lemma handleAppendEntriesResponse_reading n response : reading n ->
  (ar_Term response = term n -> heard (ar_ReadID response) (ar_From response)) -> ar_From response <> id0 ->
  tells n (handleAppendEntriesResponse response).
Proof.
  intros Hn Hh Hfrom. unfold handleAppendEntriesResponse. do 3 wlp_step.
  { apply yields_tells. wlp_step. eapply wlp_mono; [apply becomeFollower_reading; [done|by reflect_bools; lia]|].
    intros [] s (Hs & _). reads_auto. }
  wlp_step; [apply yields_tells; reads_auto|]. reflect_bools. wlp_step; [apply yields_tells; reads_auto|].
  wlp_step. reads_step. wlp_step.
  eapply wlp_mono; [by apply recordProgress_reading|]. intros [] s1 Hs1. wlp_step.
  eapply wlp_mono; [by apply advanceLeaderCommit_reading|]. intros b s2 Hs2. wlp_step.
  eapply (wlp_mono _ (fun acts n' => reading n' /\ Forall held acts)).
  { destruct b; reads_auto. }
  intros acts s3 [Hs3 Ha]. wlp_step. eapply wlp_mono; [by apply acknowledgeRead_reading; auto|].
  intros more s4 [Hs4 Hm]. wlp_step. split; [done|].
  apply Forall_app_2; [|done]. eapply Forall_impl; [exact Ha|]. intros a. apply held_told.
Qed.

(** ** Elections and new Leaders *)

Lemma startElection_reading n : reading n -> dormant n -> term n + 1 < two64 -> yields n startElection.
Proof.
  intros Hn [Hp Hr] Ht. unfold startElection. wlp_step. wlp_step. wlp_step. wlp_step.
  apply persistHardState_reading; [|solve_held]. subst. apply (dormant_reading n); try done. cbn.
  rewrite u64_small by done. lia.
Qed.

Lemma startPreVote_reading n : reading n -> term n + 1 < two64 -> yields n startPreVote.
Proof.
  intros Hn Ht. unfold startPreVote. do 3 wlp_step; [reads_auto|]. reflect_bools.
  pose proof (rg_dormant n Hn ltac:(done)) as Hd. wlp_step. wlp_step.
  assert (Hs' : reading s) by (subst; by apply (dormant_reading n)).
  wlp_step. wlp_step. wlp_step; [|reads_auto]. wlp_step.
  eapply wlp_mono; [apply startElection_reading; [done|by subst..]|]. intros acts s1 [? ?]. reads_auto.
Qed.

Lemma handlePreVoteResponse_reading n response : reading n -> term n + 1 < two64 -> yields n (handlePreVoteResponse response).
Proof.
  intros Hn Ht. unfold handlePreVoteResponse. do 3 wlp_step.
  { wlp_step. eapply wlp_mono; [apply becomeFollower_reading; [done|by reflect_bools; lia]|]. intros [] s (Hs & _). reads_auto. }
  wlp_step; [reads_auto|]. reflect_bools. assert (Hd : dormant n) by (apply (rg_dormant n Hn); congruence).
  wlp_step. wlp_step. wlp_step. wlp_step. assert (Hs' : reading s) by (subst; by apply (dormant_reading n)).
  wlp_step; [reads_auto|]. apply startElection_reading; [done|by subst..].
Qed.

Lemma handleVoteRequest_reading n request : reading n -> yields n (handleVoteRequest request).
Proof.
  intros Hn. unfold handleVoteRequest. do 3 wlp_step; [reads_auto|]. wlp_step.
  eapply (wlp_mono _ (fun _ n' => reading n')); [|intros [] s Hs; reads_auto].
  wlp_step; [|by wlp_step]. eapply wlp_mono; [apply becomeFollower_reading; [done|by reflect_bools; lia]|]. by intros ? ? [].
Qed.

(** A new Leader has no reads yet. *)
Lemma handleVoteResponse_reading n response : reading n -> yields n (handleVoteResponse response).
Proof.
  intros Hn. unfold handleVoteResponse. do 3 wlp_step.
  { wlp_step. eapply wlp_mono; [apply becomeFollower_reading; [done|by reflect_bools; lia]|]. intros [] s (Hs & _). reads_auto. }
  wlp_step; [reads_auto|]. reflect_bools. assert (Hd : dormant n) by (apply (rg_dormant n Hn); congruence).
  wlp_step. wlp_step. wlp_step. wlp_step. assert (Hs' : reading s) by (subst; by apply (dormant_reading n)).
  wlp_step; [reads_auto|]. wlp_step. wlp_step. assert (Hs1 : reading s0).
  { apply (dormant_reading s); try (subst; done). destruct Hd. by subst. }
  clear Hs Hs0 Hs'. reads_auto.
Qed.

(** ** Followers *)

(** No request reaches a Leader in its own term. *)
Lemma acceptLeader_reading n t from : reading n -> (role n = Leader -> t <> term n) -> term n <= t ->
  wlp (acceptLeader t from) (fun _ n' => reading n' /\ dormant n' /\ role n' = Follower) n.
Proof.
  intros Hn Hl Ht. unfold acceptLeader. do 3 wlp_step.
  eapply (wlp_mono _ (fun _ n' => reading n' /\ dormant n' /\ role n' = Follower)).
  - wlp_step; [apply becomeFollower_reading; [done|by reflect_bools; lia]|]. reflect_bools.
    assert (Hd : dormant n) by (apply (rg_dormant n Hn); intros ?; apply Hl; [done|lia]).
    wlp_step. destruct Hd. subst. split; [|done]. by apply (dormant_reading n).
  - intros [] s (Hs & Hd & Hr). do 3 wlp_step. subst. split; [by apply (dormant_reading s)|done].
Qed.

Lemma finish_reading n b after : reading n -> Forall held after -> yields n (finish b after).
Proof. intros Hn Ha. unfold finish. reads_auto. Qed.
#[local] Hint Resolve finish_reading : reads.

Lemma handleAppendEntries_reading n request : reading n -> (role n = Leader -> ae_Term request <> term n) ->
  ae_From request <> id0 -> yields n (handleAppendEntries request).
Proof.
  intros Hn Hl Hfrom. unfold handleAppendEntries. do 3 wlp_step; [reads_auto|]. reflect_bools. wlp_step.
  eapply wlp_mono; [by apply acceptLeader_reading|]. intros changed s (Hs & Hd & Hr).
  wlp_step. wlp_step. wlp_step. wlp_step. wlp_step; [reads_auto|]. wlp_step. wlp_step. destruct a0 as [[new first] ok].
  wlp_step; [reads_auto|]. wlp_step.
  - wlp_step. eapply (wlp_mono _ (fun _ n' => reading n')); [|intros [] s1 Hs1; reads_auto].
    wlp_step; [|by wlp_step]. eapply wlp_mono; [by apply truncateLog_reading|]. by intros ? ? [].
  - wlp_step; [reads_auto|]. wlp_step.
    eapply wlp_mono; [apply advanceFollowerCommit_reading; [done|by rewrite Hr|solve_held]|].
    intros acts s1 [Hs1 Ha1]. reads_auto.
Qed.

(** ** Completions *)

Lemma hardStatePersisted_reading n persistID : reading n -> yields n (hardStatePersisted persistID).
Proof.
  intros Hn. unfold hardStatePersisted. do 3 wlp_step; [|reads_auto].
  assert (Ha : Forall held (ph_after p)) by (by eapply (rg_hard n Hn persistID)).
  wlp_step. wlp_step. assert (reading s) by (destruct Hn; subst; split; cbn; try done; by apply map_Forall_delete).
  reads_auto.
Qed.

Lemma logEntriesPersisted_reading n persistID : reading n -> yields n (logEntriesPersisted persistID).
Proof.
  intros Hn. unfold logEntriesPersisted. do 3 wlp_step; [|reads_auto].
  pose proof (rg_log n Hn _ _ E) as Hp. cbn beta in Hp. wlp_step. wlp_step.
  assert (reading s) by (destruct Hn; subst; split; cbn; try done; by apply map_Forall_delete). clear Hs. wlp_step. wlp_step.
  wlp_step; [reads_auto|]. wlp_step; [reads_auto|]. reflect_bools.
  apply advanceFollowerCommit_reading; [done|congruence|apply reply_held; auto].
Qed.

Lemma commitIndexPersisted_reading n persistID : reading n -> wf n -> tells n (commitIndexPersisted persistID).
Proof.
  intros Hn Hwf. unfold commitIndexPersisted. do 3 wlp_step; [|apply yields_tells; reads_auto].
  assert (Ha : Forall held (pc_after p)) by (by eapply (rg_commit n Hn persistID)).
  assert (Hp : pc_commitIndex p <= commitIndex n) by (by eapply (wf_pendingCommit n Hwf)).
  wlp_step. wlp_step. assert (reading s) by (destruct Hn; subst; split; cbn; try done; by apply map_Forall_delete).
  assert (wf s).
  { destruct Hwf. subst. split; cbn; try done; destruct (N.ltb_spec (durableCommitIndex n) (pc_commitIndex p)); try lia.
    all: by apply map_Forall_delete. }
  wlp_step. eapply wlp_mono; [apply applyThrough_reading; [done..|by subst]|].
  intros acts s1 [Hs1 Ha1]. wlp_step. split; [done|].
  apply Forall_app_2; [done|]. eapply Forall_impl; [exact Ha|]. intros a. apply held_told.
Qed.

Lemma commitIndexPersisted_last n persistID : caught_up_node n ->
  wlp (commitIndexPersisted persistID) (fun acts _ => reads_last acts) n.
Proof.
  intros Hcu. unfold commitIndexPersisted. do 3 wlp_step; [|wlp_step; by exists [], []].
  assert (Hpl : Forall (fun a => plain a = true) (pc_after p)) by (by eapply (gd_commit _ _ n Hcu persistID)).
  do 3 wlp_step. eapply wlp_mono; [apply applyThrough_last|].
  intros acts s1 (first & others & -> & Hf & Ho). wlp_step.
  exists first, (others ++ pc_after p). rewrite app_assoc, applied_app, Ho, (plain_applied _ Hpl). done.
Qed.

(** ** One event *)

Definition read_event (n : Node) (e : Event) : Prop :=
  match e with
  | ConfirmRead read => (role n = Leader -> readReady n = true -> led0) /\
      heard read (node_id n) /\ term n = term0 /\ commit0 <= commitIndex n
  | ElectionTimeout | EvPreVoteResponse _ => term n + 1 < two64
  | EvAppendEntries q => ae_From q <> id0 /\ (role n = Leader -> ae_Term q <> term n)
  | EvAppendEntriesResponse r => ar_From r <> id0 /\ (ar_Term r = term n -> heard (ar_ReadID r) (ar_From r))
  | _ => True
  end.

Lemma confirmRead_reading n read : reading n -> read_event n (ConfirmRead read) -> yields n (confirmRead read).
Proof.
  intros Hn (Hled & Hh & Ht & Hc). unfold confirmRead. do 3 wlp_step; [reads_auto|]. wlp_step; [reads_auto|]. reflect_bools.
  wlp_step. wlp_step. apply sendAppendEntries_reading. subst. apply insert_reading; try done.
  - split; [|done]. cbn. by intros f ->%elem_of_singleton.
  - apply (rg_own n Hn). by left.
  - auto.
Qed.

Lemma step_reading n e : reading n -> wf n -> read_event n e ->
  ordinary e = true \/ is_completion e = true -> tells n (Step e).
Proof.
  intros Hn Hwf He Ho. destruct e; try (by destruct Ho);
    lazymatch goal with
    | |- wlp (Step (CommitIndexPersisted _)) _ _ => idtac
    | |- wlp (Step RecoverCommitted) _ _ => idtac
    | |- wlp (Step (EvAppendEntriesResponse _)) _ _ => idtac
    | _ => apply yields_tells
    end; cbn [Step] in *.
  - by apply startPreVote_reading.
  - unfold heartbeatRound. reads_auto.
  - unfold checkQuorum. do 3 wlp_step; [reads_auto|]. wlp_step; [|reads_auto]. wlp_step.
    eapply wlp_mono; [apply becomeFollower_reading; [done|by reflect_bools; lia]|]. intros [] s (Hs & _). reads_auto.
  - by apply hardStatePersisted_reading.
  - by apply logEntriesPersisted_reading.
  - by apply commitIndexPersisted_reading.
  - do 2 wlp_step. apply applyThrough_reading; [done..|apply Hwf].
  - unfold proposeSession, leaderAppend. reads_auto.
  - unfold proposeSet, leaderAppend. reads_auto.
  - unfold proposeDelete, leaderAppend. reads_auto.
  - by apply confirmRead_reading.
  - unfold handlePreVoteRequest. reads_auto.
  - by apply handlePreVoteResponse_reading.
  - by apply handleVoteRequest_reading.
  - by apply handleVoteResponse_reading.
  - destruct He. by apply handleAppendEntries_reading.
  - destruct He. by apply handleAppendEntriesResponse_reading.
  - unfold handleAppendEntriesFailed. reads_auto.
Qed.

Lemma step_last n e : caught_up_node n -> ordinary e = true \/ is_completion e = true ->
  wlp (Step e) (fun acts _ => reads_last acts) n.
Proof.
  intros Hcu Ho. destruct (appliesEntries e) eqn:Ha.
  - destruct e; try discriminate Ha; [by apply commitIndexPersisted_last|by destruct Ho].
  - eapply wlp_mono; [by apply step_applies_nothing|]. intros acts n' (_ & _ & Happ). by exists [], acts.
Qed.
End Reads.

(** ** One step of the runtime *)

Lemma told_mono fresh id t la la' a : la <= la' -> told fresh id t la a -> told fresh id t la' a.
Proof. intros Hle. destruct a; try done. intros [? ?]. split; [done|lia]. Qed.

(** Every confirmation follows the entries it waits for, counted from position [la]. *)
Definition timely (la : N) (acts : list Action) : Prop :=
  forall first read k others, acts = first ++ ReadConfirmed read k :: others -> k <= la + len (applied first).

Lemma timely_app la acts more :
  timely la acts -> timely (la + len (applied acts)) more -> timely la (acts ++ more).
Proof.
  intros Ha Hm first read k others Heq. apply app_eq_inv in Heq as [(l & -> & Hl)|(l & -> & Hl)].
  - destruct l as [|a l]; cbn in Hl.
    + rewrite app_nil_r in Hm. symmetry in Hl. specialize (Hm [] read k others Hl). change (len (applied [])) with 0 in Hm. lia.
    + injection Hl as <- ->. by eapply Ha.
  - specialize (Hm l read k others Hl). rewrite applied_app, len_app. lia.
Qed.

(** Confirmations that come last wait for no more than was applied. *)
Lemma told_timely fresh id t la acts :
  Forall (told fresh id t (la + len (applied acts))) acts -> reads_last id t acts -> timely la acts.
Proof.
  intros Ht (xs & ys & -> & Hx & Hy) first read k others Heq.
  assert (Hk : k <= la + len (applied (xs ++ ys))).
  { rewrite Forall_forall in Ht. apply (Ht (ReadConfirmed read k)). rewrite Heq. set_solver. }
  rewrite applied_app, Hy, app_nil_r in Hk. apply app_eq_inv in Heq as [(l & -> & Hl)|(l & -> & Hl)].
  - destruct l as [|a l]; cbn in Hl; [by rewrite app_nil_r in Hk|]. injection Hl as <- _.
    apply Forall_app in Hx as [_ Hx]. by apply Forall_cons in Hx as [? _].
  - rewrite applied_app, len_app. lia.
Qed.

Lemma timely_persisted la before action after :
  isPersist action = true -> timely la (before ++ action :: after) -> timely la (before ++ after).
Proof.
  intros Hp Ht first read k others Heq. apply app_eq_inv in Heq as [(l & -> & Hl)|(l & -> & Hl)].
  - destruct l as [|a l]; cbn in Hl; [|injection Hl as <- ->; apply (Ht first read k (l ++ action :: after)); by rewrite <- app_assoc].
    subst after. specialize (Ht (first ++ [action]) read k others). rewrite app_nil_r, <- app_assoc in Ht.
    specialize (Ht eq_refl). by rewrite applied_app, (persist_not_applied _ Hp), app_nil_r in Ht.
  - specialize (Ht (before ++ action :: l) read k others). rewrite <- app_assoc, Hl in Ht. specialize (Ht eq_refl).
    change (action :: l) with ([action] ++ l) in Ht. rewrite !applied_app, (persist_not_applied _ Hp) in Ht.
    by rewrite applied_app.
Qed.

Section Runtime.
Context {S E : Type} `{DurableStore S E}.
Context (heard : ReadID -> NodeID -> Prop) (fresh : ReadID -> N -> Prop).
Context (fresh_mono : forall read k k', fresh read k -> k <= k' -> fresh read k').
Context (id : NodeID) (term0 quorum0 commit0 : N) (led0 : Prop).
Context (quorum_fresh : forall read (Q : gset string), led0 -> (forall f, f ∈ Q -> heard read f) ->
  quorum0 <= N.of_nat (size Q) -> fresh read commit0).

#[local] Abbreviation reading := (reading heard fresh id term0 quorum0 commit0 led0).

Lemma runtime_reading fuel e (r : raftRuntime S) acts r' :
  step (E := E) fuel e r = Done acts r' -> reading (rt_core r) -> wf (rt_core r) ->
  event_ok (rt_core r) e -> ordinary e = true -> read_event heard id term0 commit0 led0 (rt_core r) e ->
  reading (rt_core r') /\ exists la, Forall (told fresh id term0 la) acts.
Proof using fresh_mono quorum_fresh.
  intros Hd Hr Hwf Hok Hord Hev.
  pose (J acts n := wf n /\ reading n /\ exists la, Forall (told fresh id term0 la) acts).
  assert (HJ : J acts (rt_core r')); [|by destruct HJ]. eapply step_rule; [|exact Hd|].
  - intros before action after core completion more core' _ Hc (Hwf' & Hr' & la & Ha) Hs.
    assert (Hok' : event_ok core completion) by (by destruct completion).
    assert (Hev' : read_event heard id term0 commit0 led0 core completion) by (by destruct completion).
    destruct (wlp_elim _ _ _ _ _ (step_reading _ _ _ _ _ _ _ fresh_mono quorum_fresh core completion Hr' Hwf' Hev' (or_intror Hc)) Hs)
      as [Hr'' Hm].
    split_and!; [exact (wp_elim _ _ _ _ _ (step_wf _ _ Hwf' Hok') Hs)|done|]. exists (la + lastApplied core').
    apply (Forall_impl _ (told fresh id term0 (la + lastApplied core'))) in Ha; [|intros a; apply told_mono; lia].
    apply (Forall_impl _ (told fresh id term0 (la + lastApplied core'))) in Hm; [|intros a; apply told_mono; lia].
    rewrite !Forall_app, Forall_cons in *. tauto.
  - intros pending core Hs.
    destruct (wlp_elim _ _ _ _ _ (step_reading _ _ _ _ _ _ _ fresh_mono quorum_fresh _ e Hr Hwf Hev (or_introl Hord)) Hs)
      as [Hr'' Hm].
    split_and!; [exact (wp_elim _ _ _ _ _ (step_wf _ _ Hwf Hok) Hs)|done|by eexists].
Qed.

(** The actions so far, from position [la], of a Node that has applied what it committed. *)
Record telling (la : N) (acts : list Action) (n : Node) : Prop := {
  tl_wf : wf n; tl_caught : caught_up_node n; tl_reading : reading n;
  tl_position : lastApplied n = la + len (applied acts); tl_timely : timely la acts }.

Lemma telling_step n e acts n' : wf n -> caught_up_node n -> reading n -> event_ok n e ->
  read_event heard id term0 commit0 led0 n e -> ordinary e = true \/ is_completion e = true ->
  Step e n = Some (acts, n') -> telling (lastApplied n) acts n'.
Proof using fresh_mono quorum_fresh.
  intros Hwf Hcu Hr Hok Hev Ho Hs.
  destruct (wlp_elim _ _ _ _ _ (step_reading _ _ _ _ _ _ _ fresh_mono quorum_fresh n e Hr Hwf Hev Ho) Hs) as [Hr' Ht].
  pose proof (wlp_elim _ _ _ _ _ (step_last id term0 n e Hcu Ho) Hs) as Hl.
  pose proof (wp_elim _ _ _ _ _ (step_wf _ _ Hwf Hok) Hs) as Hwf'.
  assert (Hpos : caught_up_node n' /\ lastApplied n' = lastApplied n + len (applied acts)).
  { destruct (is_completion e) eqn:Hc.
    - destruct (wp_elim _ _ _ _ _ (completion_applies n e Hwf Hcu Hc) Hs) as (_ & Hcu' & Hle & Happ & Hlog & Hbase).
      split; [done|]. destruct Hwf, Hwf'. rewrite Hlog, Hbase in *.
      rewrite Happ, len_entriesBetween by (done || lia). lia.
    - assert (Ha : appliesEntries e = false) by (destruct Ho; [by destruct e|congruence]).
      destruct (wlp_elim _ _ _ _ _ (step_applies_nothing _ _ Hcu Ha) Hs) as (? & -> & ->). split; [done|].
      unfold len. cbn. lia. }
  destruct Hpos as [Hcu' Hla]. split; try done. eapply told_timely; [|exact Hl]. by rewrite <- Hla.
Qed.

Lemma runtime_telling fuel e (r : raftRuntime S) acts r' :
  step (E := E) fuel e r = Done acts r' -> reading (rt_core r) -> wf (rt_core r) -> caught_up_node (rt_core r) ->
  event_ok (rt_core r) e -> ordinary e = true -> read_event heard id term0 commit0 led0 (rt_core r) e ->
  timely (lastApplied (rt_core r)) acts.
Proof using fresh_mono quorum_fresh.
  intros Hd Hr Hwf Hcu Hok Hord Hev. set (la := lastApplied (rt_core r)).
  apply (tl_timely la acts (rt_core r')).
  eapply (step_rule (telling la)); [|exact Hd|intros pending core Hs; apply (telling_step (rt_core r) e); auto].
  intros before action after core completion more core' Hp Hc [Hwf' Hcu' Hr' Hpos Hti] Hs.
  assert (Hok' : event_ok core completion) by (by destruct completion).
  assert (Hev' : read_event heard id term0 commit0 led0 core completion) by (by destruct completion).
  destruct (telling_step core completion more core' Hwf' Hcu' Hr' Hok' Hev' (or_intror Hc) Hs) as [? ? ? Hpm Htim].
  assert (Happ : applied (before ++ action :: after) = applied (before ++ after)).
  { change (action :: after) with ([action] ++ after). by rewrite !applied_app, (persist_not_applied _ Hp). }
  rewrite Happ in Hpos. split; try done; rewrite ?(app_assoc before).
  - rewrite applied_app, len_app. lia.
  - apply timely_app; [by eapply timely_persisted|]. by rewrite <- Hpos.
Qed.
End Runtime.

(** What confirming a read requires of a Node. *)
Definition serves (n : Node) : Prop := role n = Leader /\ own n.

(** Between steps the marks move on to the Node's own. *)
Lemma reread heard heard' fresh id term0 quorum0 commit0 led0 n :
  reading heard fresh id term0 quorum0 commit0 led0 n -> pendingHardState n = ∅ -> pendingLog n = ∅ -> pendingCommit n = ∅ ->
  (forall read f, term n = term0 -> heard read f -> heard' read f) ->
  reading heard' fresh id (term n) (quorum n) (commitIndex n) (serves n) n.
Proof.
  intros [] Hh Hl Hc Hheard. split; rewrite ?Hh, ?Hl, ?Hc; try done.
  { intros Hne. split_and!; [split; [|by apply rg_own0; right]|done..].
    destruct (decide (role n = Leader)); [done|]. by destruct rg_dormant0. }
  intros read p Hp. destruct (rg_waiting0 read p Hp) as [Ha ?]. split; [|done]. intros f Hf.
  apply Hheard; [|by apply Ha]. apply rg_here0. intros He. by rewrite He, lookup_empty in Hp.
Qed.

(** A Node that does not lead starts with nothing. *)
Lemma dormant_reads heard fresh id n :
  node_id n = id -> id ∉ peers n -> dormant n -> pendingHardState n = ∅ -> pendingLog n = ∅ -> pendingCommit n = ∅ ->
  reading heard fresh id (term n) (quorum n) (commitIndex n) (serves n) n.
Proof.
  intros Hi Hps [Hp Hr] Hh Hl Hc. split; rewrite ?Hh, ?Hl, ?Hc, ?Hp, ?Hr; try done. by intros [?|?].
Qed.
