(* ===== verification/Promises.v ===== *)
(** What the changes of a Node mean for the replication argument.

    [promises h i v] relates the replicated state [v] of a running Node [i] to a history; every
    change the code makes can be recorded in the history so that the Node's promises, those it
    may leave on disk when it dies, and what it says afterwards are kept. *)

From S2P Require Import Prelude RaftTypes RaftCore RaftLog RaftElection RaftAppend Durability Replication ReplicationSteps ReplicationMoves LogStore RaftReplication RaftChanges.

Definition viewDisk (v : view) : disk := mkDisk (v_term v) (v_vote v) (v_log v) (N.to_nat (v_commit v)).

Definition storedBy (v : view) (g : string) : nat := N.to_nat (map_get (v_match v) g).

Record leads_ok (h : history) (i : string) (v : view) : Prop := {
  lo_owner : exists el, h_elections h !! v_term v = Some el /\ el_owner el = i;
  lo_log : h_logs h !! v_term v = Some (v_log v);
  lo_self : (i, v_term v, length (v_log v)) ∈ h_acks h;
  lo_stored g : (0 < storedBy v g)%nat -> (g, v_term v, storedBy v g) ∈ h_acks h }.

Record stands_ok (h : history) (i : string) (v : view) : Prop := {
  sk_candidate : h_candidates h !! (i, v_term v) = Some (v_log v);
  sk_fresh el : h_elections h !! v_term v = Some el -> el_owner el <> i;
  sk_votes x : x ∈ v_votes v -> is_Some (h_ballots h !! (x, v_term v, i)) }.

Section Promises.
Context (members : list string) (members_nodup : NoDup members) (good : LogEntry -> Prop)
  (members_named : "" ∉ members).

#[local] Abbreviation history_ok := (history_ok members good).
#[local] Abbreviation disk_ok := (disk_ok members).
#[local] Abbreviation advance := (advance members good).
#[local] Abbreviation committed := (committed members).
#[local] Abbreviation said_ok := (said_ok members).

Record promises (h : history) (i : string) (v : view) : Prop := {
  pm_disk : disk_ok h i (viewDisk v);
  pm_leads : v_role v = Leader -> leads_ok h i v;
  pm_stands : v_role v = Candidate -> stands_ok h i v }.

(** What another Node does keeps them. *)
Lemma promises_other h h' f i v : history_ok h -> extends h h' -> local f h h' -> i <> f ->
  promises h i v -> promises h' i v.
Proof.
  intros Hh Hx Hlc Hne [Hd Hl Hs]. split.
  - apply (disk_ok_mono members good Hh Hx); [..|done]; intros *; intros H'; left; by apply Hlc in H' as [->|?].
  - intros [(el & He & Ho) HL Hself Hst]%Hl.
    pose proof (lookup_weaken _ _ _ _ He (ex_elections _ _ Hx)) as He'. split.
    + by exists el.
    + destruct (lc_logs _ _ _ Hlc (v_term v)) as [->|(el' & Hel' & Ho')]; [done|]. destruct Hne. congruence.
    + by eapply ex_acks.
    + intros g Hg. by eapply ex_acks, Hst.
  - intros [Hc Hf Hv]%Hs. split.
    + by eapply lookup_weaken, ex_candidates.
    + intros el He. apply (lc_elections _ _ _ Hlc) in He as [He|He]; [auto|congruence].
    + intros x Hx'. destruct (Hv x Hx') as [l Hb]. exists l. by eapply lookup_weaken, ex_ballots.
Qed.

(** Recording votes and acknowledgements of its own keeps them. *)
Lemma promises_more h h' i v : advance i (viewDisk v) h h' ->
  h_logs h' = h_logs h -> h_elections h' = h_elections h -> promises h i v -> promises h' i v.
Proof.
  intros [Hx _ _ Hd] HL He [_ Hl Hs]. split; [done|..].
  - intros [Ho Hlog Hself Hst]%Hl. split; rewrite ?HL, ?He; try done; [by eapply ex_acks|].
    intros g Hg. by eapply ex_acks, Hst.
  - intros [Hc Hf Hv]%Hs. split; rewrite ?He; [by eapply lookup_weaken, ex_candidates|done|].
    intros x Hx'. destruct (Hv x Hx') as [l Hb]. exists l. by eapply lookup_weaken, ex_ballots.
Qed.

(** ** What a Node says *)

(** The last entry of a Leader is its own. *)
Lemma leads_last h i v : history_ok h -> leads_ok h i v -> last_term (v_log v) = v_term v.
Proof.
  intros Hh [_ HL _ _]. destruct (ho_elected _ _ _ Hh _ _ HL) as (el & _ & He).
  pose proof (ec_more _ _ _ _ _ He) as Hm.
  destruct (lookup_lt_is_Some_2 (v_log v) (length (v_log v) - 1)) as [x Hx]; [lia|].
  unfold last_term. replace (length (v_log v)) with (S (length (v_log v) - 1)) by lia.
  rewrite (term_at_lookup _ _ _ Hx). eapply (ec_own _ _ _ _ _ He); [done|lia].
Qed.

Lemma leads_request h i v r : history_ok h -> promises h i v -> v_role v = Leader ->
  let p := N.to_nat (ae_PrevLogIndex r) in
  ae_Term r = v_term v -> (p <= length (v_log v))%nat -> ae_PrevLogTerm r = term_at (v_log v) p ->
  ae_Entries r = drop p (v_log v) -> ae_LeaderCommit r = v_commit v -> request_ok members h r.
Proof.
  intros Hh Hp Hr p Ht Hle Hpt Hes Hc. pose proof (pm_leads _ _ _ Hp Hr) as Hl.
  pose proof (leads_last h i v Hh Hl) as Hlast. destruct (pm_disk _ _ _ Hp) as [_ _ _ Hcm Hco _ _ _]. cbn in *.
  exists (v_log v). fold p. rewrite Ht, Hes, length_drop, Hc. split; [by apply Hl|]. cbv zeta. split_and!; try done; [lia| |].
  - rewrite take_ge; [done|]. rewrite length_drop. lia.
  - replace (p + (length (v_log v) - p))%nat with (length (v_log v)) by lia. exact Hlast.
Qed.

Lemma applied_promises h i v j x : history_ok h -> promises h i v ->
  v_log v !! j = Some x -> N.of_nat j < v_commit v -> applied_ok members h x.
Proof.
  intros Hh [[_ Hl _ _ Hco _ _ _] _ _] Hx Hj. cbn in *.
  pose proof (log_ok_index members good _ _ _ _ Hh Hl Hx) as Hix.
  assert (Hp : take (N.to_nat (v_commit v)) (v_log v) !! j = Some x) by (rewrite lookup_take_lt; [done|lia]).
  destruct Hco as [Hnil|(T & i' & L & _ & Hch & HL & Hpre)]; [by rewrite Hnil in Hp|].
  pose proof (prefix_lookup_Some _ _ _ _ Hp Hpre) as HxL. apply lookup_take_Some in HxL as [HxL Hlt].
  by exists T, i', L, j.
Qed.

(** What a request that was sent, and a vote that was asked for, amount to. *)
Definition delivered (h : history) (i : string) (e : Event) : Prop :=
  match e with
  | EvVoteRequest q => exists k, h_candidates h !! (vq_From q : string, vq_Term q) = Some k /\
      vq_LastLogIndex q = len k /\ vq_LastLogTerm q = last_term k
  | EvVoteResponse r => vr_Granted r = true -> is_Some (h_ballots h !! (vr_From r : string, vr_Term r, i))
  | EvAppendEntries q => request_ok members h q
  | EvAppendEntriesResponse r => ar_Success r = true ->
      (ar_From r : string, ar_Term r, N.to_nat (ar_MatchIndex r)) ∈ h_acks h
  | _ => True
  end.

Lemma delivered_mono h h' i e : extends h h' -> delivered h i e -> delivered h' i e.
Proof.
  intros Hx. destruct e; cbn; auto.
  - intros (k & Hk & ?). exists k. split; [by eapply lookup_weaken, ex_candidates|done].
  - intros H Hg. destruct (H Hg) as [l Hl]. exists l. by eapply lookup_weaken, ex_ballots.
  - by apply request_ok_mono.
  - intros H Hs. by eapply ex_acks, H.
Qed.

(** ** Following a Leader *)

Lemma request_log h q : history_ok h -> request_ok members h q ->
  exists L, h_logs h !! ae_Term q = Some L /\ log_ok h L /\ 0 < ae_Term q.
Proof.
  intros Hh (L & HL & _). exists L. by destruct (ho_log _ _ _ Hh _ _ HL) as (? & ? & _).
Qed.

Lemma request_end h q L : request_ok members h q -> h_logs h !! ae_Term q = Some L ->
  end_term q = ae_Term q.
Proof.
  intros (L' & HL' & Hlen & Hpt & Hes & Hend & _) HL. assert (L' = L) as -> by congruence.
  unfold end_term. destruct (list.last (ae_Entries q)) as [x|] eqn:El.
  - rewrite last_lookup in El. pose proof (lookup_lt_Some _ _ _ El) as Hlt. rewrite <- Hend.
    rewrite Hes in El. rewrite lookup_take_Some, lookup_drop in El. destruct El as [El _].
    rewrite <- (term_at_lookup _ _ _ El). f_equal. rewrite <- Hes. lia.
  - apply last_None in El. rewrite El in Hend. cbn in Hend. rewrite Nat.add_0_r in Hend. congruence.
Qed.

Lemma reaches_leader h q l : history_ok h -> request_ok members h q -> log_ok h l ->
  Forall (fun e => Term e <= ae_Term q) l -> reaches l q -> aligned h (ae_Term q) l.
Proof.
  intros Hh Hq Hl Hts [Hle Ht]. destruct (request_log h q Hh Hq) as (L & HL & _ & Hpos).
  rewrite (request_end h q L Hq HL) in Ht. by eapply reaches_aligned.
Qed.

(** The entries taken are the Leader's, and none of its own that the Node had is lost. *)
Lemma adopts_leader h q l c l' L : history_ok h -> request_ok members h q -> log_ok h l ->
  h_logs h !! ae_Term q = Some L -> adopts l c q l' ->
  l' `prefix_of` L /\ forall p, p `prefix_of` l -> p `prefix_of` L -> p `prefix_of` l'.
Proof.
  intros Hh (L' & HL' & Hlen & Hpt & Hes & _) Hl HL (m & new & Hm & Htp & Hnew & Hne & Hmatch & Hk & Hcase & _ & ->).
  assert (L' = L) as -> by congruence. destruct (ho_log _ _ _ Hh _ _ HL) as (_ & HlL & _).
  set (p := N.to_nat (ae_PrevLogIndex q)) in *. set (es := ae_Entries q) in *.
  assert (Hlook : forall k, (k < length es)%nat -> L !! (p + k)%nat = es !! k).
  { intros k Hlt. rewrite Hes, lookup_take_lt, lookup_drop by done. done. }
  assert (Htm : term_at l m = term_at L m).
  { destruct (decide (m = p)) as [->|]; [congruence|].
    destruct (lookup_lt_is_Some_2 es (m - p - 1)) as [x Hx]; [lia|].
    pose proof (Hmatch (m - p - 1)%nat x ltac:(lia) Hx) as Hx1.
    replace (S (p + (m - p - 1))) with m in Hx1 by lia. rewrite Hx1.
    replace m with (S (p + (m - p - 1))) by lia. symmetry. apply term_at_lookup. rewrite Hlook by lia. done. }
  assert (Htake : take m l = take m L) by (apply (log_matching members good h); try done; lia).
  assert (HnL : new `prefix_of` drop m L).
  { rewrite <- Hnew, Hes, skipn_firstn_comm, drop_drop.
    replace (p + (m - p))%nat with m by lia. apply prefix_take. }
  assert (HL2 : L = take m l ++ drop m L) by (rewrite Htake; by rewrite take_drop). split.
  - rewrite HL2 at 1. by apply prefix_app.
  - intros r Hrl HrL. apply prefix_app_r. destruct Hcase as [->|(x & y & Hx & Hy & Hxy)]; [by rewrite firstn_all|].
    rewrite HL2 in HrL. eapply (common_before r l (drop m L) m x y); try done; try lia; [|congruence].
    by eapply prefix_lookup_Some.
Qed.

(** Every disk on the way keeps the promises. *)
Lemma follow_disks h i n q v d' : history_ok h -> disk_ok h i (coreDisk n) -> request_ok members h q ->
  term n <= ae_Term q -> v_term v = ae_Term q -> v_vote v = (if term n <? ae_Term q then "" else votedFor n) ->
  (v_log v = log n \/ adopts (log n) (commitIndex n) q (v_log v)) ->
  (v_commit v = commitIndex n \/
   (commitIndex n < v_commit v /\ v_commit v <= ae_LeaderCommit q /\ v_commit v <= len (v_log v) /\
    (reaches (v_log v) q \/ adopts (log n) (commitIndex n) q (v_log v)))) ->
  between (coreDisk n) v d' -> disk_ok h i d'.
Proof.
  intros Hh Hd Hq Hle Ht Hv Hlog Hcm. set (d1 := mkDisk (v_term v) (v_vote v) (log n) (N.to_nat (commitIndex n))).
  assert (Hd1 : disk_ok h i d1).
  { apply (disk_bump members good members_named h i (coreDisk n)); try done; cbn; rewrite ?Ht, Hv;
      [pose proof (do_vote _ _ _ _ Hd); destruct (_ <? _); auto|].
    destruct (N.ltb_spec (term n) (ae_Term q)); [by left|right]. split; [lia|by right]. }
  destruct (request_log h q Hh Hq) as (L & HL & HlL & Hpos).
  pose proof (do_log _ _ _ _ Hd) as Hln. cbn in Hln.
  assert (Hmid : forall l, l = log n \/ (l `prefix_of` v_log v /\
      forall p, p `prefix_of` log n -> p `prefix_of` v_log v -> p `prefix_of` l) ->
    disk_ok h i (mkDisk (v_term v) (v_vote v) l (N.to_nat (commitIndex n)))).
  { intros l [->|[Hlp Hkeep]]; [done|]. destruct Hlog as [Heq|Had].
    - rewrite Heq in *. assert (l = log n) as ->; [|done].
      apply prefix_length_eq; [done|]. apply prefix_length. by apply Hkeep.
    - destruct (adopts_leader h q (log n) _ _ L Hh Hq Hln HL Had) as [HvL HkL].
      apply (disk_adopt members members_nodup good h i d1 L l); try done; cbn; [by rewrite Ht|by etrans|].
      intros p Hp HpL. apply Hkeep; [done|]. by apply HkL. }
  intros [->|[(l & -> & Hl)| ->]]; [done|by apply Hmid|].
  assert (Hfin : disk_ok h i (mkDisk (v_term v) (v_vote v) (v_log v) (N.to_nat (commitIndex n)))).
  { apply Hmid. by right. }
  destruct Hcm as [->|(Hlt & Hlc & Hlen & Hre)]; [done|].
  apply (disk_commit_to members h i (mkDisk (v_term v) (v_vote v) (v_log v) (N.to_nat (commitIndex n)))); [done|cbn; unfold len in Hlen; lia|].
  cbn. assert (Hal : v_log v `prefix_of` L).
  { destruct Hre as [Hre|Had]; [|by destruct (adopts_leader h q (log n) _ _ L Hh Hq Hln HL Had)].
    destruct (reaches_leader h q (v_log v) Hh Hq) as (L' & HL' & ?); [apply Hfin| |done|congruence].
    rewrite <- Ht. apply (do_terms _ _ _ _ Hfin). }
  destruct Hq as (L' & HL' & _ & _ & _ & _ & Hcl & Hco). assert (L' = L) as -> by congruence. rewrite Ht.
  eapply committed_prefix; [|exact Hco].
  assert (Hlv : (N.to_nat (v_commit v) <= length (v_log v))%nat) by (unfold len in Hlen; lia).
  destruct Hal as [k ->]. rewrite <- (take_app_le (v_log v) k) by done.
  replace (N.to_nat (v_commit v)) with (N.to_nat (v_commit v) `min` N.to_nat (ae_LeaderCommit q))%nat by lia.
  rewrite <- take_take. apply prefix_take.
Qed.

(** ** Recording a change *)

(** [hg] accounts for every disk a process may leave on the way to [v], [h'] for [v] itself. *)
Definition recorded (h : history) (i : string) (n : Node) (v : view) : Prop :=
  exists hg h', advance i (coreDisk n) h hg /\ (forall d, between (coreDisk n) v d -> disk_ok hg i d) /\
    advance i (viewDisk v) hg h' /\ promises h' i v.

Section Change.
Context (h : history) (i : string) (n : Node).
Hypothesis history_holds : history_ok h.
Hypothesis promises_hold : promises h i (viewOf n).
Hypothesis node_idle : idle n.
Hypothesis node_named : node_id n = i.
Hypothesis node_member : i ∈ members.

Let disk_holds : disk_ok h i (coreDisk n) := pm_disk _ _ _ promises_hold.

(** Nothing on the way but the disk before and the disk after. *)
Lemma between_unlogged v d : v_log v = log n -> between (coreDisk n) v d ->
  d = coreDisk n \/ d = mkDisk (v_term v) (v_vote v) (log n) (N.to_nat (commitIndex n)) \/ d = viewDisk v.
Proof.
  intros Hl [->|[(l & -> & Hll)| ->]]; [by left| |by right; right]. right; left. cbn in Hll. f_equal.
  rewrite Hl in Hll. destruct Hll as [->|[Hp Hk]]; [done|].
  apply prefix_length_eq; [done|]. apply prefix_length. by apply Hk.
Qed.

Lemma recorded_hard v h' : v_log v = log n -> v_commit v = commitIndex n ->
  advance i (viewDisk v) h h' -> disk_ok h i (viewDisk v) -> promises h' i v -> recorded h i n v.
Proof.
  intros Hl Hc Ha Hd Hp. exists h, h'. split_and!; [by apply advance_refl| |done|done].
  intros d Hb. unfold viewDisk in *. rewrite Hl, Hc in *.
  destruct (between_unlogged v d Hl Hb) as [->|[->|Hv]]; [done|done|].
  rewrite Hv. unfold viewDisk. by rewrite Hl, Hc.
Qed.

Lemma record_quiet v :
  v_term v = term n -> v_vote v = votedFor n -> v_log v = log n -> v_commit v = commitIndex n ->
  (active (v_role v) -> v_role v = role n /\ v_votes v = votes n /\ v_match v = matchIndex n) ->
  recorded h i n v.
Proof.
  intros Ht Hv Hl Hc Ha.
  assert (Hd : viewDisk v = coreDisk n) by (unfold viewDisk, coreDisk; congruence).
  apply (recorded_hard v h); try done; [rewrite Hd; by apply advance_refl|by rewrite Hd|].
  pose proof promises_hold as [_ Hlead Hst]. split; [by rewrite Hd|..]; intros Hr.
  - destruct Ha as (Hro & Hvs & Hm); [by right|]. destruct Hlead as [Ho HL Hself Hsto]; [cbn; congruence|].
    unfold storedBy in Hsto. cbn in *. split; unfold storedBy; rewrite ?Ht, ?Hl, ?Hm; done.
  - destruct Ha as (Hro & Hvs & Hm); [by left|]. destruct Hst as [Hk Hf Hvo]; [cbn; congruence|].
    cbn in *. split; rewrite ?Ht, ?Hl, ?Hvs; done.
Qed.

Lemma hard_disk t vote : vote = "" \/ vote ∈ members -> hard_follows (hardOf n) (mkHardState t vote) ->
  disk_ok h i (mkDisk t vote (log n) (N.to_nat (commitIndex n))).
Proof.
  intros Hvm Hf. apply (disk_bump members good members_named h i (coreDisk n)); try done. cbn.
  destruct Hf as [?|[[? ?]|[= ? ?]]]; cbn in *; auto.
Qed.

Lemma record_hard v :
  hard_follows (hardOf n) (mkHardState (v_term v) (v_vote v)) -> v_log v = log n ->
  v_commit v = commitIndex n -> ~ active (v_role v) -> v_vote v = "" \/ v_vote v ∈ members -> recorded h i n v.
Proof.
  intros Hf Hl Hc Hr Hvm. pose proof (hard_disk _ _ Hvm Hf) as Hd. unfold active in Hr.
  assert (Hv : viewDisk v = mkDisk (v_term v) (v_vote v) (log n) (N.to_nat (commitIndex n))) by (unfold viewDisk; congruence).
  apply (recorded_hard v h); try done; [rewrite Hv; by apply advance_refl|by rewrite Hv|].
  split; [by rewrite Hv|intros ?; tauto..].
Qed.

Lemma record_campaign v :
  v_term v = term n + 1 -> v_role v = Candidate -> v_vote v = node_id n -> v_votes v = {[ node_id n ]} ->
  v_log v = log n -> v_commit v = commitIndex n -> recorded h i n v.
Proof.
  intros Ht Hr Hv Hvs Hl Hc. rewrite node_named in *.
  assert (Hd : disk_ok h i (viewDisk v)).
  { unfold viewDisk. rewrite Hl, Hc. apply hard_disk; [right; by rewrite Hv|left; cbn; lia]. }
  assert (Hnone : h_candidates h !! (i, v_term v) = None).
  { apply eq_None_not_Some. intros Hs. pose proof (do_candidate _ _ _ _ disk_holds _ Hs). cbn in *. lia. }
  assert (Hfresh : forall el, h_elections h !! v_term v = Some el -> el_owner el <> i).
  { intros el He Ho. destruct (ho_leads _ _ _ history_holds (v_term v)) as [L HL]; [by eauto|].
    destruct (ho_elected _ _ _ history_holds _ _ HL) as (el' & He' & Hel). assert (el' = el) as -> by congruence.
    pose proof (ec_candidate _ _ _ _ _ Hel). congruence. }
  assert (Hstand : advance i (viewDisk v) h (with_candidate i (v_term v) (v_log v) h)).
  { apply (stand members good i (viewDisk v)); try done; [lia|]. cbn.
    eapply Forall_impl; [rewrite Hl; exact (do_terms _ _ _ _ disk_holds)|]. cbn. lia. }
  set (h1 := with_candidate i (v_term v) (v_log v) h) in *.
  destruct (vote members good i (viewDisk v) h1 (v_term v) i (v_log v)) as (h2 & Ha2 & Hb & HL & He & Hcn & _);
    try done; try apply Hstand.
  { unfold h1. cbn. apply lookup_insert_eq. }
  { right. done. }
  apply (recorded_hard v h2); try done; [by eapply advance_trans|]. split; [apply Ha2|congruence|]. intros _. split.
  - rewrite Hcn. unfold h1. cbn. apply lookup_insert_eq.
  - rewrite He. exact Hfresh.
  - intros x. rewrite Hvs, elem_of_singleton. by intros ->.
Qed.

Lemma record_count r v :
  is_Some (h_ballots h !! (vr_From r : string, vr_Term r, i)) ->
  role n = Candidate -> v_role v = Candidate -> vr_Term r = term n ->
  v_term v = term n -> v_vote v = votedFor n -> v_log v = log n -> v_commit v = commitIndex n ->
  v_votes v = {[ vr_From r ]} ∪ votes n -> recorded h i n v.
Proof.
  intros Hb Hr Hr' Hrt Ht Hv Hl Hc Hvs.
  assert (Hd : viewDisk v = coreDisk n) by (unfold viewDisk, coreDisk; congruence).
  apply (recorded_hard v h); try done; [rewrite Hd; by apply advance_refl|by rewrite Hd|].
  destruct (pm_stands _ _ _ promises_hold Hr) as [Hk Hf Hvo]. cbn in *.
  split; [by rewrite Hd|congruence|]. intros _. split; rewrite ?Ht, ?Hl; try done.
  intros x. rewrite Hvs, elem_of_union, elem_of_singleton. intros [->|Hx]; [by rewrite <- Hrt|auto].
Qed.

(** A Leader's log grew by [es]; the Leader counts itself once they are durable. *)
Lemma recorded_grown v hg es el :
  advance i (coreDisk n) h hg -> h_logs hg !! term n = Some (log n ++ es) ->
  h_elections hg !! term n = Some el -> el_owner el = i ->
  v_role v = Leader -> v_term v = term n -> v_vote v = votedFor n -> v_commit v = commitIndex n ->
  v_log v = log n ++ es -> (forall g, (0 < storedBy v g)%nat -> (g, term n, storedBy v g) ∈ h_acks hg) ->
  recorded h i n v.
Proof.
  intros Ha HL He Ho Hr Ht Hv Hc Hl Hst. pose proof (av_history _ _ _ _ _ _ Ha) as Hh. pose proof (av_disk _ _ _ _ _ _ Ha) as Hd.
  assert (Hmid : forall l, l = log n \/ (l `prefix_of` log n ++ es /\
      forall p, p `prefix_of` log n -> p `prefix_of` log n ++ es -> p `prefix_of` l) ->
    disk_ok hg i (mkDisk (term n) (votedFor n) l (N.to_nat (commitIndex n)))).
  { intros l [->|[Hp Hk]]; [done|]. by apply (disk_adopt members members_nodup good hg i (coreDisk n) (log n ++ es)). }
  assert (Hfin : disk_ok hg i (viewDisk v)).
  { unfold viewDisk. rewrite Ht, Hv, Hl, Hc. apply Hmid. by right. }
  assert (Hack : advance i (viewDisk v) hg (with_ack i (term n) (length (v_log v)) hg)).
  { apply (acknowledge members good i (viewDisk v) hg (term n) (log n ++ es)); try done. cbn. by rewrite Hl. }
  eexists hg, _. split_and!; [done| |exact Hack|].
  - intros d Hb. destruct Hb as [->|[(l & -> & Hll)| ->]]; [done| |exact Hfin].
    cbn. rewrite Ht, Hv. apply Hmid. cbn in Hll. by rewrite Hl in Hll.
  - split; [apply Hack| |congruence]. intros _. split; cbn; rewrite ?Ht.
    + by exists el.
    + by rewrite Hl.
    + by left.
    + intros g Hg. right. by apply Hst.
Qed.

Lemma record_elect r x v Q :
  is_Some (h_ballots h !! (vr_From r : string, vr_Term r, i)) ->
  role n = Candidate -> v_role v = Leader -> vr_Term r = term n ->
  v_term v = term n -> v_vote v = votedFor n -> v_commit v = commitIndex n ->
  Q = {[ vr_From r ]} ∪ votes n -> (length members < 2 * size Q)%nat ->
  v_match v = ∅ -> Term x = term n -> Index x = len (log n) + 1 -> good x -> v_log v = log n ++ [x] ->
  recorded h i n v.
Proof.
  intros Hb Hr Hr' Hrt Ht Hv Hc HQ Hsize Hm Hxt Hxi Hg Hl.
  destruct (pm_stands _ _ _ promises_hold Hr) as [Hk Hf Hvo]. cbn in *.
  assert (Hbal : forall y, y ∈ Q -> is_Some (h_ballots h !! (y, term n, i))).
  { intros y. rewrite HQ, elem_of_union, elem_of_singleton. intros [->|Hy]; [by rewrite <- Hrt|auto]. }
  assert (Hmaj : majority members Q).
  { split; [|done]. intros y [l Hy]%Hbal. by destruct (ho_ballot _ _ _ history_holds _ _ _ _ Hy). }
  pose proof (election_fresh members members_nodup good h (term n) i Q history_holds Hmaj Hbal Hf) as Hnone.
  assert (Hnum : numbered Index 1 (log n ++ [x])).
  { apply numbered_app. split; [|split; [lia|done]].
    pose proof (wf_numbered n (id_wf n node_idle)) as Hn. by rewrite (id_base n node_idle) in Hn. }
  pose proof (elect members good i (coreDisk n) h (term n) Q x history_holds disk_holds eq_refl Hk Hmaj Hbal Hnone Hxt Hnum Hg) as Ha.
  eapply (recorded_grown v _ [x]); [exact Ha|..]; try done; cbn.
  - by rewrite lookup_insert_eq.
  - by rewrite lookup_insert_eq.
  - done.
  - intros g. unfold storedBy. rewrite Hm. unfold map_get. rewrite lookup_empty. cbn. lia.
Qed.

Lemma record_append x v :
  role n = Leader -> v_role v = Leader -> v_term v = term n -> v_vote v = votedFor n ->
  v_commit v = commitIndex n -> v_match v = matchIndex n ->
  Term x = term n -> Index x = len (log n) + 1 -> good x -> v_log v = log n ++ [x] -> recorded h i n v.
Proof.
  intros Hr Hr' Ht Hv Hc Hm Hxt Hxi Hg Hl.
  destruct (pm_leads _ _ _ promises_hold Hr) as [(el & He & Ho) HL Hself Hst]. cbn in *.
  assert (Ha : advance i (coreDisk n) h (with_log (term n) (log n ++ [x]) h)).
  { apply (grow members good i (coreDisk n) h (term n) el); try done; by repeat constructor. }
  eapply (recorded_grown v _ [x] el); [exact Ha|..]; try done; cbn.
  - by rewrite lookup_insert_eq.
  - unfold storedBy in *. rewrite Hm. exact Hst.
Qed.

(** What the matched peers store once a response is counted. *)
Lemma progress_stored r v :
  (ar_Success r = true -> (ar_From r : string, ar_Term r, N.to_nat (ar_MatchIndex r)) ∈ h_acks h) ->
  role n = Leader -> ar_Term r = term n ->
  (v_match v = matchIndex n \/
   (ar_Success r = true /\ v_match v = <[ar_From r := ar_MatchIndex r]> (matchIndex n))) ->
  forall g, (0 < storedBy v g)%nat -> (g, term n, storedBy v g) ∈ h_acks h.
Proof.
  intros Hack Hr Hrt Hm g. destruct (pm_leads _ _ _ promises_hold Hr) as [_ _ _ Hst]. cbn in Hst.
  unfold storedBy in *. destruct Hm as [->|[Hs ->]]; [apply Hst|].
  unfold map_get. destruct (decide (g = ar_From r)) as [->|Hne].
  - rewrite lookup_insert_eq. cbn. intros _. rewrite <- Hrt. by apply Hack.
  - rewrite lookup_insert_ne by done. apply Hst.
Qed.

(** What a Leader commits is chosen. *)
Lemma progress_chosen v :
  NoDup (peers n) -> (forall g, g ∈ peers n -> g ∈ members /\ g <> i) ->
  (length (peers n) + 1 = length members)%nat -> role n = Leader ->
  (forall g, (0 < storedBy v g)%nat -> (g, term n, storedBy v g) ∈ h_acks h) ->
  commitIndex n < v_commit v <= len (log n) -> term_at (log n) (N.to_nat (v_commit v)) = term n ->
  quorum n <= 1 + len (filter (fun peer => v_commit v <= map_get (v_match v) peer) (peers n)) ->
  chosen members h (term n) (N.to_nat (v_commit v)).
Proof.
  intros Hnd Hps Hlen Hr Hst [Hlt Hle] Hterm Hq. destruct (pm_leads _ _ _ promises_hold Hr) as [Ho HL Hself _]. cbn in *.
  set (F := filter (fun peer => v_commit v <= map_get (v_match v) peer) (peers n)) in *.
  apply (counted_chosen members h i (term n) (log n) ({[ i ]} ∪ list_to_set F) _ (storedBy v)); try done.
  - unfold len in Hle. lia.
  - split.
    + intros g. rewrite elem_of_union, elem_of_singleton, elem_of_list_to_set. unfold F.
      rewrite list_elem_of_filter. intros [->|[_ Hg]]; [done|]. by apply Hps.
    + rewrite size_union, size_singleton, size_list_to_set.
      * unfold quorum, len in Hq.
        pose proof (N.div_mod (N.of_nat (length (peers n)) + 1) 2). pose proof (N.mod_lt (N.of_nat (length (peers n)) + 1) 2).
        unfold NodeID in *. lia.
      * by apply NoDup_filter.
      * intros g. rewrite elem_of_singleton, elem_of_list_to_set. unfold F. rewrite list_elem_of_filter.
        intros -> [_ Hg]. by apply Hps in Hg as [_ ?].
  - intros g. rewrite elem_of_union, elem_of_singleton, elem_of_list_to_set. unfold F.
    rewrite list_elem_of_filter. intros [->|[Hg _]]; [by left|right]. unfold storedBy. lia.
Qed.

Lemma record_progress r v :
  (ar_Success r = true -> (ar_From r : string, ar_Term r, N.to_nat (ar_MatchIndex r)) ∈ h_acks h) ->
  NoDup (peers n) -> (forall g, g ∈ peers n -> g ∈ members /\ g <> i) ->
  (length (peers n) + 1 = length members)%nat ->
  role n = Leader -> v_role v = Leader -> ar_Term r = term n ->
  v_term v = term n -> v_vote v = votedFor n -> v_log v = log n ->
  (v_match v = matchIndex n \/
   (ar_Success r = true /\ v_match v = <[ar_From r := ar_MatchIndex r]> (matchIndex n))) ->
  (v_commit v = commitIndex n \/
   (commitIndex n < v_commit v <= len (log n) /\
    term_at (log n) (N.to_nat (v_commit v)) = term n /\
    quorum n <= 1 + len (filter (fun peer => v_commit v <= map_get (v_match v) peer) (peers n)))) ->
  recorded h i n v.
Proof.
  intros Hack Hnd Hps Hlen Hr Hr' Hrt Ht Hv Hl Hm Hc.
  destruct (pm_leads _ _ _ promises_hold Hr) as [Ho HL Hself Hst]. cbn in *.
  pose proof (progress_stored r v Hack Hr Hrt Hm) as Hst'.
  assert (Hd : disk_ok h i (viewDisk v)).
  { unfold viewDisk. rewrite Ht, Hv, Hl. destruct Hc as [->|(Hlt & Hterm & Hq)]; [done|].
    apply (disk_commit_to members h i (coreDisk n)); try done; cbn; [unfold len in Hlt; lia|].
    right. exists (term n), (N.to_nat (v_commit v)), (log n). split_and!; try done. by apply progress_chosen. }
  exists h, h. split_and!; [by apply advance_refl| |by apply advance_refl|].
  - intros d Hb. destruct (between_unlogged v d Hl Hb) as [->|[->| ->]]; [done| |done]. rewrite Ht, Hv. done.
  - split; [done| |congruence]. intros _. split; rewrite ?Ht, ?Hl; done.
Qed.

Lemma record_follow q v :
  request_ok members h q -> term n <= ae_Term q -> v_term v = ae_Term q ->
  v_vote v = (if term n <? ae_Term q then "" else votedFor n) -> v_role v = Follower ->
  (v_log v = log n \/ adopts (log n) (commitIndex n) q (v_log v)) ->
  (v_commit v = commitIndex n \/
   (commitIndex n < v_commit v /\ v_commit v <= ae_LeaderCommit q /\ v_commit v <= len (v_log v) /\
    (reaches (v_log v) q \/ adopts (log n) (commitIndex n) q (v_log v)))) -> recorded h i n v.
Proof.
  intros Hq Hle Ht Hv Hr Hl Hc.
  assert (Hb : forall d, between (coreDisk n) v d -> disk_ok h i d) by (intros d; by apply (follow_disks h i n q v)).
  assert (Hd : disk_ok h i (viewDisk v)) by (apply Hb; right; by right).
  exists h, h. split_and!; [by apply advance_refl|done|by apply advance_refl|].
  split; [done|congruence..].
Qed.
End Change.

(** ** Recording what is said *)

(** Given the vote and the acknowledgement it may announce, all a Node says is right. *)
Lemma speaks_said h i n e v a : history_ok h -> promises h i v -> node_id n = i ->
  (forall q, e = EvVoteRequest q -> vq_Term q = v_term v -> v_vote v = vq_From q ->
     logIsAtLeastAsUpToDate (vq_LastLogTerm q) (vq_LastLogIndex q) (last_term (v_log v)) (len (v_log v)) = true ->
     is_Some (h_ballots h !! (i, v_term v, vq_From q : string))) ->
  (forall q, e = EvAppendEntries q -> ae_Term q = v_term v ->
     reaches (v_log v) q \/ adopts (log n) (commitIndex n) q (v_log v) ->
     (i, v_term v, length (v_log v)) ∈ h_acks h) ->
  speaks n e v a -> said_ok h a.
Proof.
  intros Hh Hp Hid Hvote Hack. destruct a; cbn; try done.
  - intros (_ & Hr & Hfrom & Ht & Hli & Hlt). destruct (pm_stands _ _ _ Hp Hr) as [Hk _ _].
    exists (v_log v). rewrite Hfrom, Ht, Hid. done.
  - intros Hg Hgr. destruct (Hg Hgr) as (Hfrom & Ht & Hv & q & -> & Hto & Hqt & Hup).
    rewrite Hfrom, Ht, Hid, <- Hto. apply (Hvote q); try done. by rewrite Hto.
  - intros (Hr & Ht & Hle & Hpt & Hes & Hc). by eapply leads_request.
  - intros Hs Hsu. destruct (Hs Hsu) as (Hfrom & Ht & Hm & q & -> & Hqt & Hre).
    rewrite Hfrom, Ht, Hid, Hm. unfold len. rewrite Nat2N.id. by apply (Hack q).
  - intros (j & Hj & Hlt). by eapply applied_promises.
Qed.

Lemma logUpToDate_iff k l : logIsAtLeastAsUpToDate (last_term k) (len k) (last_term l) (len l) = true -> upToDate k l.
Proof.
  unfold logIsAtLeastAsUpToDate, upToDate, len. intros H. apply orb_true_iff in H as [H|H].
  - left. by apply N.ltb_lt.
  - apply andb_true_iff in H as [Ht Hl]. apply N.eqb_eq in Ht. apply N.leb_le in Hl. right. split; [done|lia].
Qed.

Lemma spoken h i n e v : history_ok h -> promises h i v -> node_id n = i -> i ∈ members ->
  log_ok h (log n) -> delivered h i e ->
  exists h', advance i (viewDisk v) h h' /\ promises h' i v /\ forall a, speaks n e v a -> said_ok h' a.
Proof.
  intros Hh Hp Hid Hi Hl Hde. pose proof (pm_disk _ _ _ Hp) as Hd.
  assert (Hstay : (forall q, e = EvVoteRequest q -> vq_Term q = v_term v -> v_vote v = vq_From q ->
      logIsAtLeastAsUpToDate (vq_LastLogTerm q) (vq_LastLogIndex q) (last_term (v_log v)) (len (v_log v)) = true -> False) ->
    (forall q, e = EvAppendEntries q -> ae_Term q = v_term v ->
      reaches (v_log v) q \/ adopts (log n) (commitIndex n) q (v_log v) -> False) ->
    exists h', advance i (viewDisk v) h h' /\ promises h' i v /\ forall a, speaks n e v a -> said_ok h' a).
  { intros H1 H2. exists h. split_and!; [by apply advance_refl|done|]. intros a.
    apply (speaks_said _ i n); try done; intros q; intros; exfalso; eauto. }
  destruct e as [| | | | | | | | | | | | | |q| |q| | | |]; try (apply Hstay; intros; done).
  - destruct Hde as (k & Hk & Hli & Hlt).
    destruct (decide (vq_Term q = v_term v /\ v_vote v = vq_From q)) as [[Ht Hv]|Hno];
      [|apply Hstay; [|done]; intros ? [= <-] ? ? _; tauto].
    destruct (logIsAtLeastAsUpToDate (vq_LastLogTerm q) (vq_LastLogIndex q) (last_term (v_log v)) (len (v_log v))) eqn:Hup;
      [|apply Hstay; [|done]; intros ? [= <-] ? ?; congruence].
    rewrite Hli, Hlt in Hup. apply logUpToDate_iff in Hup. rewrite Ht in Hk.
    destruct (vote members good i (viewDisk v) h (v_term v) (vq_From q) k) as (h' & Ha & Hb & HL & He & _); try done.
    assert (Hp' : promises h' i v) by (by eapply promises_more). exists h'. split_and!; [done|done|].
    intros a. apply (speaks_said _ i n); try done; [apply Ha|]. by intros ? [= <-].
  - cbn in Hde. destruct (decide (ae_Term q = v_term v)) as [Ht|Hno];
      [|apply Hstay; [done|]; intros ? [= <-] ?; done].
    destruct (request_log h q Hh Hde) as (L & HL & HlL & _).
    destruct (decide (v_log v `prefix_of` L)) as [Hpre|Hno].
    + rewrite Ht in HL.
      pose proof (acknowledge members good i (viewDisk v) h (v_term v) L (length (v_log v)) Hh Hd eq_refl HL Hpre (le_n _)) as Ha.
      eexists. split; [exact Ha|]. assert (Hp' : promises (with_ack i (v_term v) (length (v_log v)) h) i v)
        by (by eapply promises_more). split; [done|]. intros a. apply (speaks_said _ i n); try done; [apply Ha|].
      intros ? [= <-] _ _. by left.
    + apply Hstay; [done|]. intros ? [= <-] _ Hre. apply Hno. destruct Hre as [Hre|Had].
      * destruct (reaches_leader h q (v_log v) Hh Hde) as (L' & HL' & ?); [apply Hd| |done|congruence].
        rewrite Ht. apply (do_terms _ _ _ _ Hd).
      * by destruct (adopts_leader h q (log n) _ _ L Hh Hde Hl HL Had).
Qed.

(** ** One change, recorded *)

(** The peers of Node [i] are the other members. *)
Record placed (i : string) (n : Node) : Prop := {
  pd_id : node_id n = i;
  pd_nodup : NoDup (peers n);
  pd_peers g : g ∈ peers n -> g ∈ members /\ g <> i;
  pd_count : (length (peers n) + 1 = length members)%nat }.

Lemma proposed_at index t e x : proposedEntry index t e = Some x -> Index x = index /\ Term x = t.
Proof. destruct e; cbn; try done; [destruct type|..]; try done; by intros [= <-]. Qed.

Lemma change_recorded h i n e v : history_ok h -> promises h i (viewOf n) -> idle n -> placed i n -> i ∈ members ->
  delivered h i e -> good (mkLogEntry (len (log n) + 1) (term n) EntryNoOp zeroSessionID 0 "" []) ->
  (forall x, proposedEntry (len (log n) + 1) (term n) e = Some x -> good x) ->
  change n e v -> recorded h i n v.
Proof.
  intros Hh Hp Hi [Hid Hnd Hps Hct] Hm Hde Hnoop Hprop Hch.
  destruct Hch as [e v Ht Hv Hl Hc Ha|e v Hf Hl Hc Hr Hvv _|e v Ht Hr Hv Hvs Hl Hc
    |r v Hr Hr' Hrt Hg Ht Hv Hl Hc Hvs|r x v Hr Hr' Hrt Hg Ht Hv Hc Hvs Hq Hmt Hx Hl
    |e x v Hr Hr' Ht Hv Hc Hvs Hmt Hx Hl|r v Hr Hr' Hrt Ht Hv Hl Hvs Hmt Hc|q v Hle Ht Hv Hr Hl Hc].
  - by apply record_quiet.
  - apply record_hard; try done. destruct Hvv as [?|(q & -> & ->)]; [by left|right].
    destruct Hde as (k & Hk & _). by destruct (ho_candidate _ _ _ Hh _ _ _ Hk).
  - by apply record_campaign.
  - apply (record_count h i n Hh Hp r); try done. by apply Hde.
  - apply (record_elect h i n Hh Hp Hi r x v (v_votes v)); try done; try (by subst x); [by apply Hde|].
    unfold quorum, len in Hq. unfold NodeID in *.
    pose proof (N.div_mod (N.of_nat (length (peers n)) + 1) 2). pose proof (N.mod_lt (N.of_nat (length (peers n)) + 1) 2). lia.
  - destruct (proposed_at _ _ _ _ Hx) as [? ?]. apply (record_append h i n Hh Hp x); try done. by apply Hprop.
  - by apply (record_progress h i n Hh Hp Hm r).
  - by apply (record_follow h i n Hh Hp q).
Qed.

Lemma change_kept h i n e v : history_ok h -> promises h i (viewOf n) -> idle n -> placed i n -> i ∈ members ->
  delivered h i e -> good (mkLogEntry (len (log n) + 1) (term n) EntryNoOp zeroSessionID 0 "" []) ->
  (forall x, proposedEntry (len (log n) + 1) (term n) e = Some x -> good x) ->
  change n e v ->
  exists hg h', advance i (coreDisk n) h hg /\ (forall d, between (coreDisk n) v d -> disk_ok hg i d) /\
    advance i (viewDisk v) hg h' /\ promises h' i v /\ (forall a, speaks n e v a -> said_ok h' a).
Proof.
  intros Hh Hp Hi Hpl Hm Hde Hnoop Hprop Hch.
  destruct (change_recorded h i n e v) as (hg & h1 & Ha1 & Hb & Ha2 & Hp1); try done.
  assert (Hx : extends h h1) by (etrans; [apply Ha1|apply Ha2]).
  destruct (spoken h1 i n e v) as (h2 & Ha3 & Hp2 & Hs); try done; [apply Ha2|apply Hpl| |by eapply delivered_mono|].
  { eapply (log_ok_mono Hx), (do_log _ _ _ _ (pm_disk _ _ _ Hp)). }
  exists hg, h2. split_and!; try done. by eapply advance_trans.
Qed.
End Promises.
