(* ===== verification/Cluster.v ===== *)
(** Election safety of a cluster whose processes crash and restart.

    A cluster is a set of processes, each a running runtime or a store left by a
    dead process, and the actions they emitted.  Messages are lost, delayed,
    duplicated and reordered freely, and every event that is not a vote may be
    invented by the environment; only vote responses have to have been sent.
    Every store that satisfies [DurableLaws] yields at most one Leader per term. *)

From S2P Require Import Prelude RaftTypes RaftCore RaftElection Runtime Durability.

(** ** The cluster *)

Inductive proc (S : Type) :=
| Up (r : raftRuntime S)
| Down (s : S).
Arguments Up {S}.
Arguments Down {S}.

Record cluster (S : Type) := mkCluster {
  procs : gmap string (proc S);
  sent : list Action }.
Arguments mkCluster {S}.
Arguments procs {S}.
Arguments sent {S}.

Section Cluster.
Context {S E : Type} `{DurableLaws S E}.
Variable members : list NodeID.

Abbreviation leaves := (leaves_with reopens settled).

Definition peersOf (i : NodeID) : list NodeID := filter (fun j => j <> i) members.

(** Events the environment may present to process [i]. *)
Definition enabled (c : cluster S) (i : NodeID) (n : Node) (e : Event) : Prop :=
  is_completion e = false /\ term n + 1 < two64 /\ event_term e < two64 /\
  forall response, e = EvVoteResponse response -> SendVoteResponse i response ∈ sent c.

(** The store a run leaves when it does not finish. *)
Definition halted (o : outcome S E) (s : S) : Prop :=
  match o with
  | Done _ _ => False
  | Failed _ r | Panicked r => s = rt_wal r
  | Interrupted next r => s = rt_wal r \/ partial next (rt_wal r) s
  end.

Inductive cluster_step (c : cluster S) : cluster S -> Prop :=
| cs_step i r e fuel emitted r' :
    procs c !! i = Some (Up r) -> enabled c i (rt_core r) e ->
    step fuel e r = Done emitted r' ->
    cluster_step c (mkCluster (<[i := Up r']> (procs c)) (sent c ++ emitted))
| cs_halt i r e fuel s :
    procs c !! i = Some (Up r) -> enabled c i (rt_core r) e ->
    halted (step fuel e r) s ->
    cluster_step c (mkCluster (<[i := Down s]> (procs c)) (sent c))
| cs_kill i r :
    procs c !! i = Some (Up r) ->
    cluster_step c (mkCluster (<[i := Down (rt_wal r)]> (procs c)) (sent c))
| cs_restart i s recovered s' observing metrics :
    procs c !! i = Some (Down s) -> reopens s recovered s' ->
    cluster_step c
      (mkCluster (<[i := Up (observedBy observing metrics (openRuntime i (peersOf i) recovered s'))]> (procs c)) (sent c)).

(** All processes are down and nothing was sent. *)
Definition initial (c : cluster S) : Prop :=
  sent c = [] /\
  forall i p, procs c !! i = Some p ->
    i ∈ members /\ exists s, p = Down s /\ leaves s (fun _ => True).

Definition leads (c : cluster S) (i : NodeID) (t : N) : Prop :=
  exists r, procs c !! i = Some (Up r) /\ role (rt_core r) = Leader /\ term (rt_core r) = t.

(** ** The invariant *)

(** [v] told [i] that it votes for it in term [t]. *)
Definition ballot (c : cluster S) (v : NodeID) (t : N) (i : NodeID) : Prop :=
  exists response, SendVoteResponse i response ∈ sent c /\ vr_From response = v /\
    vr_Term response = t /\ vr_Granted response = true.

(** The hard state rules out a vote in term [t] for a Node other than [i]. *)
Definition hard_locked (t : N) (i : NodeID) (h : HardState) : Prop :=
  t < hs_Term h \/ h = mkHardState t i.

Definition proc_locked (t : N) (i : NodeID) (p : proc S) : Prop :=
  match p with
  | Up r => hard_locked t i (hardOf (rt_core r))
  | Down s => leaves s (hard_locked t i)
  end.

(** [v] voted for [i] in term [t], for good. *)
Definition locked (c : cluster S) (v : NodeID) (t : N) (i : NodeID) : Prop :=
  (forall p, procs c !! v = Some p -> proc_locked t i p) /\
  (forall j, j ∈ members -> ballot c v t j -> j = i).

(** A Candidate or Leader voted for itself and counts only votes it was sent. *)
Definition electing (c : cluster S) (i : NodeID) (n : Node) : Prop :=
  role n = Candidate \/ role n = Leader ->
  votedFor n = i /\ (forall v, v ∈ votes n -> v = i \/ ballot c v (term n) i) /\
  (role n = Leader -> quorum n <= N.of_nat (size (votes n))).

Record up_ok (c : cluster S) (i : NodeID) (r : raftRuntime S) : Prop := {
  uo_steady : steady r;
  uo_id : node_id (rt_core r) = i;
  uo_peers : len (peers (rt_core r)) + 1 = len members;
  uo_electing : electing c i (rt_core r) }.

Record cluster_inv (c : cluster S) : Prop := {
  ci_member i p : procs c !! i = Some p -> i ∈ members;
  ci_up i r : procs c !! i = Some (Up r) -> up_ok c i r;
  ci_down i s : procs c !! i = Some (Down s) -> leaves s (fun _ => True);
  ci_ballot v t i : ballot c v t i -> v ∈ members /\ (i ∈ members -> locked c v t i) }.

(** ** Proofs *)

Hypothesis members_nodup : NoDup members.
Hypothesis members_named : "" ∉ members.

Lemma hard_locked_follows t i h h' :
  i <> "" -> hard_locked t i h -> hard_follows h h' -> hard_locked t i h'.
Proof.
  unfold hard_locked, hard_follows. intros Hi [Hlt| ->] [Hf|[[Hf Hv]| ->]]; cbn in *; auto.
  - left. lia.
  - left. lia.
  - done.
Qed.

Lemma hard_locked_at t i n : hard_locked t i (hardOf n) -> term n = t -> votedFor n = i.
Proof. unfold hard_locked, hardOf. cbn. intros [?|[= ? ?]] ?; [lia|done]. Qed.

Lemma member_named i : i ∈ members -> i <> "".
Proof. by intros Hi ->. Qed.

Lemma len_peersOf i : i ∈ members -> len (peersOf i) + 1 = len members.
Proof.
  intros Hi. unfold peersOf.
  assert (Hperm : members ≡ₚ i :: filter (fun j => j <> i) members).
  { apply NoDup_Permutation; [done|constructor; [|by apply NoDup_filter]|].
    - rewrite list_elem_of_filter. tauto.
    - intros x. rewrite elem_of_cons, list_elem_of_filter.
      destruct (decide (x = i)) as [->|Hx]; [by split; auto|].
      split; [by right|]. by intros [?|[??]]. }
  apply Permutation_length in Hperm. cbn in Hperm. unfold len. lia.
Qed.

(** A ballot sent in a step names the sender's vote. *)
Lemma ballot_step c i r' emitted v t j :
  Forall (vote_ok (rt_core r')) emitted -> node_id (rt_core r') = i ->
  ballot (mkCluster (<[i := Up r']> (procs c)) (sent c ++ emitted)) v t j ->
  ballot c v t j \/ (v = i /\ hardOf (rt_core r') = mkHardState t j).
Proof.
  intros Hok Hid (response & Hin & Hf & Ht & Hg). cbn in Hin.
  apply elem_of_app in Hin as [Hin|Hin]; [left; by exists response|right].
  rewrite Forall_forall in Hok. specialize (Hok _ Hin) as [Hfrom Hok]. specialize (Hok Hg).
  unfold hardOf. split; [congruence|]. destruct Hok. congruence.
Qed.

(** Every process's next hard state may follow its previous one. *)
Definition proc_follows (p p' : proc S) : Prop :=
  forall t i, i <> "" -> proc_locked t i p -> proc_locked t i p'.

Lemma run_down r e fuel s :
  steady r -> is_completion e = false -> term (rt_core r) + 1 < two64 -> event_term e < two64 ->
  halted (step fuel e r) s -> leaves s (hard_follows (hardOf (rt_core r))).
Proof.
  intros Hsd He Hb Hev. destruct (step_durable fuel e r Hsd He Hb Hev) as [_ Hdead].
  destruct (step fuel e r); cbn in *; [done|by intros ->..|].
  destruct Hdead as [? Hp]. intros [->|Hs]; auto.
Qed.

Lemma openRuntime_ok i recovered s' observing metrics :
  i ∈ members -> settled s' (rs_HardState recovered) ->
  let r := observedBy observing metrics (openRuntime i (peersOf i) recovered s') in
  steady r /\ node_id (rt_core r) = i /\ len (peers (rt_core r)) + 1 = len members /\
  role (rt_core r) = Follower /\ hardOf (rt_core r) = rs_HardState recovered.
Proof.
  intros Hi Hs. cbv zeta. unfold observedBy, openRuntime, NewNodeFromRecoveredState. cbn [rt_core rt_wal set_with].
  assert (Eh : rs_HardState (compatRecoveredLog recovered) = rs_HardState recovered).
  { unfold compatRecoveredLog. by repeat case_match. }
  assert (Hh : forall n, term n = hs_Term (rs_HardState (compatRecoveredLog recovered)) ->
    votedFor n = hs_VotedFor (rs_HardState (compatRecoveredLog recovered)) ->
    hardOf n = rs_HardState recovered).
  { intros n Ht Hv. unfold hardOf. rewrite Ht, Hv, Eh. by destruct (rs_HardState recovered). }
  assert (Hlen : len (merge_sort string_le (peersOf i)) + 1 = len members).
  { rewrite <- (len_peersOf i Hi). unfold len. by rewrite (merge_sort_Permutation string_le (peersOf i)). }
  destruct (last_entry _) as [e|]; split_and!; try done; try (by apply Hh).
  all: split; [done|by apply map_Forall_empty|]; cbn [rt_wal rt_core]; by rewrite Hh.
Qed.

(** What every step has in common: one process moves on, and the ballots it adds
    name its own recorded vote. *)
Record moved (c c' : cluster S) (i : NodeID) (p p' : proc S) : Prop := {
  mv_from : procs c !! i = Some p;
  mv_procs : procs c' = <[i := p']> (procs c);
  mv_follows : proc_follows p p';
  mv_kept v t j : ballot c v t j -> ballot c' v t j;
  mv_added v t j : ballot c' v t j ->
    ballot c v t j \/ (v = i /\ exists r', p' = Up r' /\ hardOf (rt_core r') = mkHardState t j);
  mv_ok : match p' with Up r' => up_ok c' i r' | Down s => leaves s (fun _ => True) end }.

Lemma electing_mono c c' i n :
  (forall v t j, ballot c v t j -> ballot c' v t j) -> electing c i n -> electing c' i n.
Proof.
  intros Hb Hel Hr. destruct (Hel Hr) as (Hv & Hvs & Hq). split_and!; try done.
  intros v Hin. destruct (Hvs v Hin); auto.
Qed.

(** The abstract machine keeps the candidacy honest. *)
Lemma elect_step_electing c i n e n' :
  i <> "" -> node_id n = i -> peers n' = peers n ->
  (forall response, e = EvVoteResponse response -> SendVoteResponse i response ∈ sent c) ->
  electing c i n -> elect_step n e n' -> electing c i n'.
Proof.
  intros Hi Hid Hps Hdel Hel Hstep Hr.
  assert (Hq : quorum n' = quorum n) by (unfold quorum; by rewrite Hps).
  inversion Hstep as [? ? Ht Hv Hk|? ? _ _ Hrole|r ? Ht _ Hnone _ Hrole Hvs|? ? Ht Hrole Hv Hvs
    |r ? Hc Hrt Hg Ht Hv Hvs Hrole]; subst.
  - destruct (Hk Hr) as [Hr' Hvs]. rewrite Hr' in Hr. unfold electing in Hel.
    rewrite Hv, Hvs, Ht, Hr', Hq. by apply Hel.
  - rewrite Hrole in Hr. by destruct Hr.
  - rewrite Hrole in Hr. destruct (Hel Hr) as [Hself _]. congruence.
  - rewrite Hrole. split_and!; [congruence| |done]. intros v. rewrite Hvs, elem_of_singleton. auto.
  - destruct (Hel (or_introl Hc)) as (Hself & Hall & _). split_and!; [congruence| |].
    + intros v. rewrite Hvs, elem_of_union, elem_of_singleton, Ht. intros [->|Hin]; [|auto].
      right. exists r. split_and!; auto.
    + intros Hl. destruct Hrole as [Hn|[_ Hsize]]; [congruence|]. by rewrite Hq.
Qed.

Lemma step_moved c i r e fuel emitted r' :
  cluster_inv c -> procs c !! i = Some (Up r) -> enabled c i (rt_core r) e ->
  step fuel e r = Done emitted r' ->
  moved c (mkCluster (<[i := Up r']> (procs c)) (sent c ++ emitted)) i (Up r) (Up r').
Proof.
  intros Hinv Hi (He & Hb & Hev & Hdel) Hrun.
  destruct (ci_up c Hinv i r Hi) as [Hsd Hid Hps Hel].
  destruct (step_durable fuel e r Hsd He Hb Hev) as [Hdone _]. rewrite Hrun in Hdone.
  destruct Hdone as (Hsd' & (Hstep & Hid' & Hps') & Hok).
  assert (Hkept : forall v t j, ballot c v t j ->
    ballot (mkCluster (<[i := Up r']> (procs c)) (sent c ++ emitted)) v t j).
  { intros v t j (response & Hin & ?). exists response. split; [|done]. apply elem_of_app. by left. }
  pose proof (member_named i (ci_member c Hinv i _ Hi)) as Hnamed.
  split; try done.
  - intros t j Hj. cbn. intros Hl. eapply hard_locked_follows; [done..|by eapply elect_step_follows].
  - intros v t j Hbal. apply ballot_step in Hbal as [?|[-> ?]]; [by left| |done|congruence].
    right. eauto.
  - split; [done|congruence|by rewrite Hps'|]. eapply electing_mono; [exact Hkept|].
    by eapply elect_step_electing.
Qed.

Lemma down_moved c i p s :
  procs c !! i = Some p -> leaves s (fun _ => True) -> proc_follows p (Down s) ->
  moved c (mkCluster (<[i := Down s]> (procs c)) (sent c)) i p (Down s).
Proof. intros Hi Hs Hf. split; try done. intros v t j Hb. by left. Qed.

Lemma cluster_step_moved c c' :
  cluster_inv c -> cluster_step c c' -> exists i p p', moved c c' i p p'.
Proof.
  intros Hinv [i r e fuel emitted r' Hi Hen Hrun|i r e fuel s Hi Hen Hhalt|i r Hi|i s rec s' ob me Hi Hre].
  - eexists i, _, _. by eapply step_moved.
  - pose proof (ci_up c Hinv i r Hi) as [Hsd _ _ _]. destruct Hen as (He & Hb & Hev & _).
    pose proof (run_down r e fuel s Hsd He Hb Hev Hhalt) as Hl.
    eexists i, _, _. apply down_moved; [exact Hi|by eapply leaves_mono|].
    intros t j Hj Hlock. eapply leaves_mono; [exact Hl|]. intros h. by eapply hard_locked_follows.
  - pose proof (ci_up c Hinv i r Hi) as [[_ _ Hset] _ _ _].
    eexists i, _, _. apply down_moved; [exact Hi|by eapply leaves_settled|].
    intros t j Hj Hlock. by eapply leaves_settled.
  - destruct (ci_down c Hinv i s Hi rec s' Hre) as [_ Hset].
    destruct (openRuntime_ok i rec s' ob me (ci_member c Hinv i _ Hi) Hset) as (Hsd & Hid & Hps & Hr & Hh).
    eexists i, _, _. split; [exact Hi|done| |done| |].
    + intros t j Hj Hlock. unfold proc_locked. rewrite Hh. by apply (Hlock rec s').
    + intros v t j Hb. by left.
    + split; [done..|]. intros [?|?]; congruence.
Qed.

(** A vote cast stays cast. *)
Lemma locked_moved c c' i p p' v t j :
  moved c c' i p p' -> j ∈ members -> locked c v t j -> locked c' v t j.
Proof.
  intros Hmv Hj [Hp Hb]. assert (Hp' : forall q, procs c' !! v = Some q -> proc_locked t j q).
  { intros q. rewrite (mv_procs _ _ _ _ _ Hmv). destruct (decide (i = v)) as [<-|Hne].
    - rewrite lookup_insert_eq. intros [= <-]. apply (mv_follows _ _ _ _ _ Hmv); [by apply member_named|].
      apply Hp, Hmv.
    - rewrite lookup_insert_ne by done. apply Hp. }
  split; [exact Hp'|]. intros k Hk Hbal.
  destruct (mv_added _ _ _ _ _ Hmv _ _ _ Hbal) as [?|[-> (r' & -> & Hh)]]; [auto|].
  specialize (Hp' (Up r')). rewrite (mv_procs _ _ _ _ _ Hmv), lookup_insert_eq in Hp'.
  specialize (Hp' eq_refl). cbn in Hp'. rewrite Hh in Hp'.
  destruct Hp' as [Hlt|[= ->]]; [cbn in Hlt; lia|done].
Qed.

(** The vote of a running process, when it names a member, is the only one. *)
Lemma own_vote_locked c v r t j :
  (forall k, k ∈ members -> ballot c v t k -> locked c v t k) ->
  procs c !! v = Some (Up r) -> hardOf (rt_core r) = mkHardState t j -> locked c v t j.
Proof.
  intros Hall Hv Hh. split.
  - intros q. rewrite Hv. intros [= <-]. cbn. by right.
  - intros k Hk Hb. destruct (Hall k Hk Hb) as [Hp _]. specialize (Hp _ Hv). cbn in Hp.
    rewrite Hh in Hp. destruct Hp as [Hlt|[= ->]]; [cbn in Hlt; lia|done].
Qed.

Lemma cluster_inv_moved c c' i p p' : cluster_inv c -> moved c c' i p p' -> cluster_inv c'.
Proof.
  intros Hinv Hmv. pose proof (ci_member c Hinv i p (mv_from _ _ _ _ _ Hmv)) as Hi.
  assert (Hat : forall k q, procs c' !! k = Some q -> (k = i /\ q = p') \/ procs c !! k = Some q).
  { intros k q. rewrite (mv_procs _ _ _ _ _ Hmv). destruct (decide (i = k)) as [<-|Hne].
    - rewrite lookup_insert_eq. intros [= <-]. by left.
    - rewrite lookup_insert_ne by done. by right. }
  pose proof (mv_ok _ _ _ _ _ Hmv) as Hok. split.
  - intros k q [[-> _]|Hk]%Hat; [done|by eapply ci_member].
  - intros k r [[-> <-]|Hk]%Hat; [done|]. destruct (ci_up c Hinv k r Hk).
    split; try done. eapply electing_mono; [apply Hmv|done].
  - intros k s [[-> <-]|Hk]%Hat; [done|by eapply ci_down].
  - assert (Hold : forall v t j, j ∈ members -> ballot c v t j -> locked c' v t j).
    { intros v t j Hj Hb. eapply locked_moved; [done..|]. by apply (ci_ballot c Hinv v t j Hb). }
    intros v t j Hb. destruct (mv_added _ _ _ _ _ Hmv _ _ _ Hb) as [Hb'|[-> (r' & -> & Hh)]].
    { split; [by apply (ci_ballot c Hinv v t j Hb')|auto]. }
    split; [done|]. intros Hj.
    assert (Hself : procs c' !! i = Some (Up r')).
    { rewrite (mv_procs _ _ _ _ _ Hmv). apply lookup_insert_eq. }
    split; [intros q; rewrite Hself; intros [= <-]; by right|]. intros k Hk Hbk.
    destruct (mv_added _ _ _ _ _ Hmv _ _ _ Hbk) as [Hbk'|[_ (r'' & [= <-] & Hh')]]; [|congruence].
    destruct (Hold i t k Hk Hbk') as [Hp _]. specialize (Hp _ Hself). cbn in Hp. rewrite Hh in Hp.
    destruct Hp as [Hlt|[= ->]]; [cbn in Hlt; lia|done].
Qed.

Lemma initial_inv c : initial c -> cluster_inv c.
Proof.
  intros [Hs Hp]. split.
  - intros i p Hi. by apply Hp in Hi as [? _].
  - intros i r Hi. by apply Hp in Hi as (_ & s & ? & _).
  - intros i s Hi. by apply Hp in Hi as (_ & s' & [= <-] & ?).
  - intros v t i (response & Hin & _). rewrite Hs in Hin. by apply not_elem_of_nil in Hin.
Qed.

Lemma reachable_inv c c' : cluster_inv c -> rtc cluster_step c c' -> cluster_inv c'.
Proof.
  intros Hinv Hr. induction Hr as [|c1 c2 c3 Hs _ IH]; [done|]. apply IH.
  destruct (cluster_step_moved _ _ Hinv Hs) as (i & p & p' & Hmv). by eapply cluster_inv_moved.
Qed.

Lemma reachable_locked c c' v t j :
  cluster_inv c -> rtc cluster_step c c' -> j ∈ members -> locked c v t j -> locked c' v t j.
Proof.
  intros Hinv Hr Hj. induction Hr as [|c1 c2 c3 Hs _ IH]; [done|]. intros Hl.
  destruct (cluster_step_moved _ _ Hinv Hs) as (i & p & p' & Hmv).
  apply IH; [by eapply cluster_inv_moved|by eapply locked_moved].
Qed.

(** The voters a Leader counted form a majority of the members. *)
Lemma leader_votes c i r :
  cluster_inv c -> procs c !! i = Some (Up r) -> role (rt_core r) = Leader ->
  (forall v, v ∈ votes (rt_core r) -> v ∈ members /\ locked c v (term (rt_core r)) i) /\
  (length members < 2 * size (votes (rt_core r)))%nat.
Proof.
  intros Hinv Hi Hr. destruct (ci_up c Hinv i r Hi) as [_ _ Hps Hel].
  destruct (Hel (or_intror Hr)) as (Hself & Hvs & Hq). pose proof (ci_member c Hinv i _ Hi) as Him.
  assert (Hlocks : forall v t k, k ∈ members -> ballot c v t k -> locked c v t k).
  { intros v t k Hk Hb. by apply (ci_ballot c Hinv v t k Hb). }
  split.
  - intros v Hv. destruct (Hvs v Hv) as [->|Hb]; [|split; [by eapply ci_ballot|auto]].
    split; [done|]. eapply own_vote_locked; [eauto|done|]. unfold hardOf. by rewrite Hself.
  - specialize (Hq Hr). unfold quorum, len in *.
    pose proof (N.div_mod (N.of_nat (length (peers (rt_core r))) + 1) 2).
    pose proof (N.mod_lt (N.of_nat (length (peers (rt_core r))) + 1) 2). lia.
Qed.

(** At most one Leader per term, over the whole life of the cluster. *)
Lemma one_leader_per_term c0 c1 c2 i j t :
  initial c0 -> rtc cluster_step c0 c1 -> rtc cluster_step c1 c2 ->
  leads c1 i t -> leads c2 j t -> i = j.
Proof.
  intros Hini H01 H12 (r1 & Hi & Hr1 & Ht1) (r2 & Hj & Hr2 & Ht2).
  assert (Hinv1 : cluster_inv c1) by (eapply reachable_inv; [by apply initial_inv|done]).
  assert (Hinv2 : cluster_inv c2) by (by eapply reachable_inv).
  destruct (leader_votes _ _ _ Hinv1 Hi Hr1) as [Hv1 Hs1].
  destruct (leader_votes _ _ _ Hinv2 Hj Hr2) as [Hv2 Hs2].
  destruct (majorities_meet members (votes (rt_core r1)) (votes (rt_core r2))) as (v & Hin1 & Hin2);
    [done|intros v Hin; by apply Hv1|intros v Hin; by apply Hv2|done|done|].
  destruct (Hv1 v Hin1) as [_ Hl1]. rewrite Ht1 in Hl1.
  pose proof (ci_member c1 Hinv1 i _ Hi) as Him.
  pose proof (ci_member c2 Hinv2 j _ Hj) as Hjm.
  apply (reachable_locked _ _ _ _ _ Hinv1 H12 Him) in Hl1 as [Hp1 Hb1].
  destruct (ci_up c2 Hinv2 j r2 Hj) as [_ _ _ Hel].
  destruct (Hel (or_intror Hr2)) as (Hself & Hvs & _). rewrite Ht2 in Hvs.
  destruct (Hvs v Hin2) as [->|Hb].
  - specialize (Hp1 _ Hj). cbn in Hp1. apply hard_locked_at in Hp1; congruence.
  - symmetry. by apply Hb1.
Qed.

End Cluster.
