(* ===== verification/ReplicatedCluster.v ===== *)
(** State Machine Safety of the cluster.

    The processes of Cluster.v, over stores that keep the whole disk, in executions without
    Snapshots and in which the events admitted leave every log room in one AppendEntries request;
    votes, requests and acknowledgements that are delivered were sent.  Processes crash and restart, messages are lost,
    delayed, duplicated and reordered.  Entries applied at the same index, by any
    processes at any time, are equal. *)

From S2P Require Import Prelude RaftTypes RaftCore RaftLog RaftInvariant RaftElection RaftAppend Runtime RuntimeActions Durability Replication ReplicationSteps ReplicationMoves LogStore RaftReplication RaftChanges Promises Cluster.

Section Replicated.
Context {S E : Type} `{LogStore S E}.
Variable members : list NodeID.
Variable admits : Node -> Event -> Prop.

Abbreviation remains := (remains_with reopens holds).

(** ** Executions *)

(** The message that brings an event, if it has to have been sent. *)
Definition brought_by (i : NodeID) (e : Event) : option Action :=
  match e with
  | EvVoteRequest r => Some (SendVoteRequest i r)
  | EvVoteResponse r => Some (SendVoteResponse i r)
  | EvAppendEntries r => Some (SendAppendEntries i r)
  | EvAppendEntriesResponse r => Some (SendAppendEntriesResponse i r)
  | _ => None
  end.

(** Events the environment may present to process [i]: nothing of Snapshots, only what the core
    [admits], terms in range, proposals the store can record. *)
Record replicable (c : cluster S) (i : NodeID) (n : Node) (e : Event) : Prop := {
  rb_ordinary : ordinary e = true;
  rb_term : term n + 1 < two64;
  rb_event_term : event_term e < two64;
  rb_admits : admits n e;
  rb_sent a : brought_by i e = Some a -> a ∈ sent c;
  rb_storable x : proposedEntry (len (log n) + 1) (term n) e = Some x -> storable x }.

Inductive replicates (c : cluster S) : cluster S -> Prop :=
| rs_step i r e fuel emitted r' :
    procs c !! i = Some (Up r) -> replicable c i (rt_core r) e ->
    step fuel e r = Done emitted r' ->
    replicates c (mkCluster (<[i := Up r']> (procs c)) (sent c ++ emitted))
| rs_halt i r e fuel s :
    procs c !! i = Some (Up r) -> replicable c i (rt_core r) e ->
    halted (step fuel e r) s ->
    replicates c (mkCluster (<[i := Down s]> (procs c)) (sent c))
| rs_kill i r :
    procs c !! i = Some (Up r) ->
    replicates c (mkCluster (<[i := Down (rt_wal r)]> (procs c)) (sent c))
| rs_restart i s recovered s' observing metrics :
    procs c !! i = Some (Down s) -> reopens s recovered s' -> unsnapshotted recovered ->
    replicates c
      (mkCluster (<[i := Up (observedBy observing metrics (openRuntime i (peersOf members i) recovered s'))]> (procs c)) (sent c)).

(** All processes are down with empty disks and nothing was sent. *)
Definition blank (c : cluster S) : Prop :=
  sent c = [] /\
  forall i p, procs c !! i = Some p -> i ∈ members /\ exists s, p = Down s /\ holds s (mkDisk 0 "" [] 0).

(** These are executions of the cluster. *)
Lemma replicates_cluster c c' : replicates c c' -> cluster_step members c c'.
Proof.
  assert (Hen : forall i n e, replicable c i n e -> enabled c i n e).
  { intros i n e [Ho Ht Het _ Hs _]. split_and!; try done; [by destruct e|].
    intros response ->. by apply Hs. }
  intros [i r e fuel emitted r' Hi Hr Hd|i r e fuel s Hi Hr Hh|i r Hi|i s rec s' ob me Hi Hr Hu].
  - eapply cs_step; eauto.
  - eapply cs_halt; eauto.
  - by apply cs_kill.
  - by eapply cs_restart.
Qed.

(** ** The invariant *)

(** A no-op, or the entry of a proposal that was admitted. *)
Definition allowed (x : LogEntry) : Prop :=
  EType x = EntryNoOp \/ exists n e, admits n e /\ proposedEntry (len (log n) + 1) (term n) e = Some x.

Definition good (x : LogEntry) : Prop := storable x /\ Index x + 2 < two64 /\ allowed x.

Record replicated (c : cluster S) (h : history) : Prop := {
  rp_history : history_ok members good h;
  rp_sent : Forall (said_ok members h) (sent c);
  rp_member i p : procs c !! i = Some p -> i ∈ members;
  rp_up i r : procs c !! i = Some (Up r) ->
    idle (rt_core r) /\ placed members i (rt_core r) /\ promises members h i (viewOf (rt_core r)) /\
    holds (rt_wal r) (coreDisk (rt_core r));
  rp_down i s : procs c !! i = Some (Down s) -> remains s (disk_ok members h i) }.

Hypothesis admits_room : forall n e, admits n e -> room n e.
Hypothesis members_nodup : NoDup members.
Hypothesis members_named : "" ∉ members.
Hypothesis members_nameable : Forall nameable members.

Lemma empty_history : history_ok members good (mkHistory ∅ ∅ ∅ ∅ []).
Proof. split; cbn; intros *; rewrite ?lookup_empty; try done; try (by intros []); by intros ?%elem_of_nil. Qed.

Lemma blank_replicated c : blank c -> replicated c (mkHistory ∅ ∅ ∅ ∅ []).
Proof.
  intros [Hs Hp]. split; [apply empty_history|by rewrite Hs| | |].
  - intros i p Hi. by apply Hp in Hi as [? _].
  - intros i r Hi. by apply Hp in Hi as (_ & s & ? & _).
  - intros i s Hi. apply Hp in Hi as (_ & s' & [= <-] & Hh). eapply holds_in; [exact Hh|].
    split; cbn; try done; [by left|by left|..].
    + intros T j (k & Hk & _). by apply elem_of_nil in Hk.
    + intros U. rewrite lookup_empty. by intros [].
    + intros U v. rewrite lookup_empty. by intros [].
Qed.

(** Moving one process, with the history it adds. *)
Lemma replicated_move c h h' i d p out :
  replicated c h -> advance members good i d h h' -> i ∈ members ->
  Forall (said_ok members h') out ->
  match p with
  | Up r => idle (rt_core r) /\ placed members i (rt_core r) /\ promises members h' i (viewOf (rt_core r)) /\
      holds (rt_wal r) (coreDisk (rt_core r))
  | Down s => remains s (disk_ok members h' i)
  end ->
  extends h h' /\ replicated (mkCluster (<[i := p]> (procs c)) (sent c ++ out)) h'.
Proof.
  intros [Hh Hs Hm Hu Hd] [Hx Hlc Hh' _] Hi Hout Hp. split; [done|]. split; cbn; [done|..].
  - apply Forall_app. split; [|done]. eapply Forall_impl; [exact Hs|]. intros a. by apply said_ok_mono.
  - intros j q. destruct (decide (i = j)) as [<-|]; [by rewrite lookup_insert_eq|]. rewrite lookup_insert_ne by done. apply Hm.
  - intros j r. destruct (decide (i = j)) as [<-|Hne].
    + rewrite lookup_insert_eq. by intros [= ->].
    + rewrite lookup_insert_ne by done. intros (? & ? & ? & ?)%Hu. split_and!; try done.
      by eapply (promises_other members good h).
  - intros j s. destruct (decide (i = j)) as [<-|Hne].
    + rewrite lookup_insert_eq. by intros [= ->].
    + rewrite lookup_insert_ne by done. intros Hr%Hd. eapply remains_mono; [exact Hr|]. intros d'.
      apply (disk_ok_mono members good Hh Hx); intros *; intros H'; left; by apply Hlc in H' as [->|?].
Qed.

(** ** Steps *)

Lemma sent_delivered c h i n e : replicated c h -> replicable c i n e -> delivered members h i e.
Proof.
  intros Hrp Hrb. pose proof (proj1 (Forall_forall _ _) (rp_sent _ _ Hrp)) as Hall.
  pose proof (rb_sent _ _ _ _ Hrb) as Hs. destruct e; try done; exact (Hall _ (Hs _ eq_refl)).
Qed.

Lemma leader_log_bound h T L : history_ok members good h -> h_logs h !! T = Some L -> len L + 2 < two64.
Proof.
  intros Hh HL. destruct (ho_log _ _ _ Hh _ _ HL) as (_ & _ & _ & _ & Hn & Hg).
  destruct (list.last L) as [x|] eqn:El.
  - rewrite last_lookup in El. pose proof (lookup_lt_Some _ _ _ El).
    destruct (Forall_lookup_1 _ _ _ _ Hg El) as (_ & Hb & _). rewrite (numbered_lookup _ _ _ _ _ Hn El) in Hb.
    unfold len. lia.
  - apply last_None in El. subst L. done.
Qed.

Lemma delivered_ok h i n e : history_ok members good h -> idle n -> ordinary e = true -> room n e ->
  delivered members h i e -> event_ok n e.
Proof.
  intros Hh Hi Ho Hr Hd. pose proof (room_bound n e Hi Hr). destruct e; try done.
  destruct Hd as (L & HL & Hlen & _ & Hes & _). pose proof (leader_log_bound _ _ _ Hh HL) as Hb.
  destruct (ho_log _ _ _ Hh _ _ HL) as (_ & _ & _ & _ & Hn & _). cbn. unfold len in *. split.
  - rewrite Hes. apply numbered_take.
    replace (ae_PrevLogIndex request + 1) with (1 + N.of_nat (N.to_nat (ae_PrevLogIndex request))) by lia.
    apply numbered_drop; [done|lia].
  - lia.
Qed.

Lemma replicable_ok c h i r e : replicated c h -> procs c !! i = Some (Up r) -> replicable c i (rt_core r) e ->
  event_ok (rt_core r) e.
Proof.
  intros Hrp Hi Hrb. destruct (rp_up _ _ Hrp _ _ Hi) as (Hidle & _).
  apply (delivered_ok h i); [apply Hrp|done|apply Hrb|apply admits_room, Hrb|by eapply sent_delivered].
Qed.

Lemma change_bound n e v : change n e v -> term n + 1 < two64 -> event_term e < two64 -> v_term v < two64.
Proof. destruct 1; cbn in *; destruct_or?; lia. Qed.

Lemma vote_nameable h i d : disk_ok members h i d -> nameable (dk_vote d).
Proof.
  intros Hd. destruct (do_vote _ _ _ _ Hd) as [->|Hv]; [apply nameable_none|].
  by eapply (proj1 (Forall_forall _ _) members_nameable).
Qed.

Lemma room_good n e : idle n -> admits n e -> term n + 1 < two64 ->
  good (mkLogEntry (len (log n) + 1) (term n) EntryNoOp zeroSessionID 0 "" []) /\
  forall x, proposedEntry (len (log n) + 1) (term n) e = Some x -> storable x -> good x.
Proof using admits_room.
  intros Hi Ha Ht. pose proof (fits_length _ (room_fits _ _ (admits_room _ _ Ha))).
  assert (Hb : two64 = 18446744073709551616) by done. split.
  - split_and!; [apply storable_noop; lia|cbn; lia|by left].
  - intros x Hx Hs. split_and!; [done| |right; by exists n, e]. destruct (proposed_at _ _ _ _ Hx) as [-> _]. lia.
Qed.

(** One step of a process is a change of its state, and so is what a process that dies leaves. *)
Lemma step_replicated c h i r e fuel :
  replicated c h -> procs c !! i = Some (Up r) -> replicable c i (rt_core r) e ->
  exists v, change (rt_core r) e v /\
  (forall emitted r', step fuel e r = Done emitted r' -> exists h', extends h h' /\
     replicated (mkCluster (<[i := Up r']> (procs c)) (sent c ++ emitted)) h' /\
     viewOf (rt_core r') = v /\ Forall (speaks (rt_core r) e v) emitted) /\
  (forall s, halted (step fuel e r) s -> exists h', extends h h' /\
     replicated (mkCluster (<[i := Down s]> (procs c)) (sent c)) h' /\
     remains s (between (coreDisk (rt_core r)) v)).
Proof.
  intros Hrp Hi Hrb. set (n := rt_core r) in *. pose proof (rp_member _ _ Hrp _ _ Hi) as Him.
  destruct (rp_up _ _ Hrp _ _ Hi) as (Hidle & Hpl & Hpm & Hho). fold n in Hidle, Hpl, Hpm, Hho.
  pose proof (rp_history _ _ Hrp) as Hh. pose proof (sent_delivered _ _ _ _ _ Hrp Hrb) as Hde.
  pose proof Hrb as [Hord Ht Het Hadm _ Hsto]. destruct (room_good n e Hidle Hadm Ht) as [Hnoop Hprop].
  pose proof (admits_room _ _ Hadm) as Hroom.
  pose proof (step_goes n e Hidle Hord Hroom Ht (delivered_ok h i n e Hh Hidle Hord Hroom Hde)) as Hgo.
  destruct (wp_run _ _ _ Hgo) as (acts & n1 & Hs & v & Hch & Hst).
  destruct (change_kept members members_nodup good members_named h i n e v) as (hg & h' & Ha1 & Hb & Ha2 & Hp' & Hsay); try done; [by auto|].
  pose proof (av_history _ _ _ _ _ _ Ha2) as Hh'. pose proof (pm_disk _ _ _ _ Hp') as Hd'.
  assert (Hrun : run_ok (finished n e v) (between (coreDisk n) v) (step fuel e r)).
  { apply (step_correct _ _ _ _ _ (coreDisk n)); [done|by left|]. fold n. unfold wlp. rewrite Hs.
    apply staged_drains; try done.
    - eapply Forall_impl; [eapply (log_ok_good members good h'); [done|apply Hd']|]. by intros x [].
    - by eapply change_bound.
    - exact (vote_nameable h' i (viewDisk v) Hd'). }
  exists v. split; [exact Hch|]. split.
  - intros emitted r' Hdone. rewrite Hdone in Hrun. destruct Hrun as (d & Hd & Hid' & Hv & Hnode & Hpeers & -> & Hsp).
    exists h'. rewrite (and_assoc (extends h h')). split; [|done].
    eapply (replicated_move c h h' i (viewDisk v) (Up r')); try done.
    + split; [etrans; [apply Ha1|apply Ha2]|eapply local_trans; [apply Ha2|apply Ha1|apply Ha2]|done|done].
    + eapply Forall_impl; [exact Hsp|exact Hsay].
    + rewrite Hv. split_and!; try done. destruct Hpl. split; rewrite ?Hnode, ?Hpeers; done.
  - intros s Hhalt. exists hg. assert (Hre : remains s (between (coreDisk n) v)).
    { destruct (step fuel e r) as [|x r'|r'|next r']; cbn in *; [done|by subst s..|].
      destruct Hrun as [Hr1 Hr2]. destruct Hhalt as [->|Hpart]; auto. }
    rewrite (and_assoc (extends h hg)). split; [|done]. rewrite <- (app_nil_r (sent c)).
    eapply (replicated_move c h hg i _ (Down s)); [done|exact Ha1|done|constructor|].
    by eapply remains_mono.
Qed.

(** ** Restarts *)

Lemma peersOf_placed i n : i ∈ members -> node_id n = i -> peers n = merge_sort string_le (peersOf members i) ->
  placed members i n.
Proof.
  intros Hi Hid Hp. pose proof (merge_sort_Permutation string_le (peersOf members i)) as Hperm.
  pose proof (len_peersOf members members_nodup i Hi) as Hlen.
  assert (Hnd : NoDup (peersOf members i)) by (by apply NoDup_filter). split; [done|..]; rewrite Hp.
  - by rewrite Hperm.
  - intros g. rewrite Hperm. unfold peersOf. rewrite list_elem_of_filter. tauto.
  - unfold len in Hlen. rewrite Hperm. unfold NodeID in *. lia.
Qed.

Lemma compat_unsnapshotted r : unsnapshotted r -> compatRecoveredLog r = r.
Proof. intros [Hs _]. unfold compatRecoveredLog. destruct (rs_Log r); [done|]. by rewrite Hs. Qed.

Lemma restart_idle h i r (s' : S) : history_ok members good h -> disk_ok members h i (diskOf r) -> i ∈ members ->
  unsnapshotted r -> let n := rt_core (openRuntime i (peersOf members i) r s') in
  idle n /\ placed members i n /\ role n = Follower /\ coreDisk n = diskOf r.
Proof.
  intros Hh Hd Hi Hu n. pose proof (compat_unsnapshotted r Hu) as Hcompat. destruct Hu as [Hsi Hst].
  pose proof (do_log _ _ _ _ Hd) as Hl. pose proof (do_commit _ _ _ _ Hd) as Hc. cbn in Hl, Hc.
  assert (Hok : recovered_ok r).
  { pose proof (log_ok_numbered members good h _ Hh Hl) as Hn. pose proof (log_ok_good members good h _ Hh Hl) as Hg.
    unfold recovered_ok. rewrite Hsi. unfold len in *. split_and!; try done; try lia.
    destruct (list.last (rs_Log r)) as [x|] eqn:El; [|apply last_None in El; rewrite El; done].
    rewrite last_lookup in El. pose proof (lookup_lt_Some _ _ _ El). destruct (Forall_lookup_1 _ _ _ _ Hg El) as (_ & Hb & _).
    rewrite (numbered_lookup _ _ _ _ _ Hn El) in Hb. lia. }
  assert (Hwf : wf n) by (apply new_node_wf; by rewrite Hcompat).
  assert (Hn : exists x y z, n = mkNode i (merge_sort string_le (peersOf members i)) Follower
    (hs_Term (rs_HardState r)) (hs_VotedFor (rs_HardState r)) "" x y z 0 0 (rs_Log r) (rs_CommitIndex r) 0 false
    ∅ ∅ ∅ ∅ ∅ ∅ ∅ 0 ∅ false (hs_Term (rs_HardState r)) (hs_VotedFor (rs_HardState r)) 0 ∅ 0 ∅ (rs_CommitIndex r) 0 ∅ /\ z = x).
  { subst n. unfold openRuntime, NewNodeFromRecoveredState. cbn [rt_core]. rewrite Hcompat, Hsi, Hst.
    destruct (last_entry (rs_Log r)); by eexists _, _, _. }
  destruct Hn as (x & y & z & En & ->). split_and!.
  - rewrite En in Hwf |- *. split; try done; [cbn; by intros ->|by intros [?|?]].
  - apply peersOf_placed; [done|by rewrite En|by rewrite En].
  - by rewrite En.
  - by rewrite En.
Qed.

Lemma replicates_replicated c h c' : replicated c h -> replicates c c' ->
  exists h', extends h h' /\ replicated c' h'.
Proof.
  intros Hrp [i r e fuel emitted r' Hi Hrb Hd|i r e fuel s Hi Hrb Hh|i r Hi|i s rec s' ob me Hi Hre Hu].
  - destruct (step_replicated c h i r e fuel Hrp Hi Hrb) as (v & _ & Hdone & _).
    destruct (Hdone _ _ Hd) as (h' & ? & ? & _). eauto.
  - destruct (step_replicated c h i r e fuel Hrp Hi Hrb) as (v & _ & _ & Hhalt).
    destruct (Hhalt _ Hh) as (h' & ? & ? & _). eauto.
  - exists h. destruct (rp_up _ _ Hrp _ _ Hi) as (_ & _ & Hp & Hho). rewrite <- (app_nil_r (sent c)).
    eapply (replicated_move c h h i _ (Down (rt_wal r))); [done|apply advance_refl; [apply Hrp|apply Hp]|by eapply rp_member|constructor|].
    eapply holds_in; [exact Hho|apply Hp].
  - exists h. pose proof (rp_member _ _ Hrp _ _ Hi) as Him.
    destruct (rp_down _ _ Hrp _ _ Hi rec s' Hre Hu) as [Hd Hho].
    destruct (restart_idle h i rec s' (rp_history _ _ Hrp) Hd Him Hu) as (Hid & Hpl & Hr & Hcd).
    rewrite <- (app_nil_r (sent c)).
    eapply (replicated_move c h h i _ (Up _)); [done|apply advance_refl; [apply Hrp|exact Hd]|done|constructor|].
    set (r := openRuntime i (peersOf members i) rec s') in *.
    change (rt_core (observedBy ob me r)) with (rt_core r). change (rt_wal (observedBy ob me r)) with s'.
    split_and!; [done|done| |by rewrite Hcd]. split; [|intros Hl; unfold viewOf in Hl; cbn [v_role] in Hl; congruence..].
    change (viewDisk (viewOf (rt_core r))) with (coreDisk (rt_core r)). by rewrite Hcd.
Qed.

Lemma rtc_replicated c h c' : replicated c h -> rtc replicates c c' -> exists h', extends h h' /\ replicated c' h'.
Proof.
  intros Hh Hr. revert h Hh. induction Hr as [|c1 c2 c3 Hs _ IH]; intros h Hh; [by exists h|].
  destruct (replicates_replicated c1 h c2 Hh Hs) as (h1 & Hx1 & Hh1).
  destruct (IH h1 Hh1) as (h2 & Hx2 & Hh2). exists h2. split; [by etrans|done].
Qed.

Lemma reachable_replicated c c' : blank c -> rtc replicates c c' -> exists h, replicated c' h.
Proof.
  intros Hb Hr. destruct (rtc_replicated c _ c' (blank_replicated c Hb) Hr) as (h & _ & Hh). by exists h.
Qed.

(** Entries applied at the same index are equal. *)
Lemma applied_entries_agree c c' e e' : blank c -> rtc replicates c c' ->
  ApplyEntry e ∈ sent c' -> ApplyEntry e' ∈ sent c' -> Index e = Index e' -> e = e'.
Proof.
  intros Hb Hr He He' Hix. destruct (reachable_replicated c c' Hb Hr) as [h Hrp].
  pose proof (proj1 (Forall_forall _ _) (rp_sent _ _ Hrp)) as Hall.
  exact (applied_agree members members_nodup good h e e' (rp_history _ _ Hrp) (Hall _ He) (Hall _ He') Hix).
Qed.

(** Nothing is applied that was not proposed. *)
Lemma applied_allowed c c' x : blank c -> rtc replicates c c' -> ApplyEntry x ∈ sent c' -> allowed x.
Proof.
  intros Hb Hr Hx. destruct (reachable_replicated c c' Hb Hr) as [h Hrp].
  destruct (proj1 (Forall_forall _ _) (rp_sent _ _ Hrp) _ Hx) as (T & k & L & j & _ & HL & _ & Hj & _).
  destruct (ho_log _ _ _ (rp_history _ _ Hrp) _ _ HL) as (_ & _ & _ & _ & _ & Hg).
  by destruct (Forall_lookup_1 _ _ _ _ Hg Hj) as (_ & _ & ?).
Qed.

(** Logs that agree on the term of an entry agree up to it. *)
Lemma running_logs_match c c' i j r s k : blank c -> rtc replicates c c' ->
  procs c' !! i = Some (Up r) -> procs c' !! j = Some (Up s) ->
  (k <= length (log (rt_core r)))%nat -> (k <= length (log (rt_core s)))%nat ->
  term_at (log (rt_core r)) k = term_at (log (rt_core s)) k ->
  take k (log (rt_core r)) = take k (log (rt_core s)).
Proof.
  intros Hb Hr Hi Hj Hki Hkj Ht. destruct (reachable_replicated c c' Hb Hr) as [h Hrp].
  destruct (rp_up _ _ Hrp _ _ Hi) as (_ & _ & Hpi & _). destruct (rp_up _ _ Hrp _ _ Hj) as (_ & _ & Hpj & _).
  apply (log_matching members good h); try done; [apply Hrp|apply (do_log _ _ _ _ (pm_disk _ _ _ _ Hpi))|
    apply (do_log _ _ _ _ (pm_disk _ _ _ _ Hpj))].
Qed.

(** What a process has committed is in the log of every Leader of its term or a later one, then
    and from then on. *)
Lemma committed_in_later_leader c c1 c2 i j r s : blank c -> rtc replicates c c1 -> rtc replicates c1 c2 ->
  procs c1 !! i = Some (Up r) -> procs c2 !! j = Some (Up s) ->
  role (rt_core s) = Leader -> term (rt_core r) <= term (rt_core s) ->
  take (N.to_nat (commitIndex (rt_core r))) (log (rt_core r)) `prefix_of` log (rt_core s).
Proof.
  intros Hb Hr1 Hr2 Hi Hj Hl Ht. destruct (reachable_replicated c c1 Hb Hr1) as [h Hrp].
  destruct (rtc_replicated c1 h c2 Hrp Hr2) as (h' & Hx & Hrp').
  destruct (rp_up _ _ Hrp _ _ Hi) as (Hid & _ & Hpi & _). destruct (rp_up _ _ Hrp' _ _ Hj) as (_ & _ & Hpj & _).
  pose proof (do_committed _ _ _ _ (pm_disk _ _ _ _ Hpi)) as Hc.
  apply (committed_mono members Hx _ (term (rt_core s))) in Hc; [|done].
  eapply (committed_in_leader members); [exact members_nodup|apply Hrp'|exact Hc|].
  exact (lo_log _ _ _ (pm_leads _ _ _ _ Hpj Hl)).
Qed.
End Replicated.

(** Admitting more events allows more executions. *)
Lemma replicates_mono {S E} `{LogStore S E} members (P Q : Node -> Event -> Prop) (c c' : cluster S) :
  (forall n e, P n e -> Q n e) -> replicates members P c c' -> replicates members Q c c'.
Proof.
  intros HPQ. assert (Hr : forall i n e, replicable P c i n e -> replicable Q c i n e).
  { intros i n e []. split; auto. }
  intros []; [eapply rs_step|eapply rs_halt|eapply rs_kill|eapply rs_restart]; eauto.
Qed.

(** What was sent stays. *)
Lemma replicates_sent {S E} `{LogStore S E} members admits (c c' : cluster S) :
  rtc (replicates members admits) c c' -> exists more, sent c' = sent c ++ more.
Proof.
  induction 1 as [c|c1 c2 c3 Hs _ [more IH]]; [exists []; by rewrite app_nil_r|].
  destruct Hs; cbn in IH; rewrite IH, <- ?app_assoc; by eexists.
Qed.
