(* ===== verification/ClusterReads.v ===== *)
(** Confirmed reads of the cluster.

    In the executions of ReplicatedCluster.v, a record of the commit index each Leader has reached
    is kept beside the history.  Every applied entry is covered by it, a Leader is never behind the record of its own term,
    and a quorum that answers a read in a term has stored nothing for a later one.  So a read that
    is confirmed after it began waits for everything that was applied before. *)

From S2P Require Import Prelude RaftTypes RaftCore RaftLog RaftInvariant RaftElection RaftActions RaftAppend Runtime RuntimeActions Durability Replication ReplicationSteps ReplicationMoves LogStore RaftReplication RaftChanges RaftReads Promises Cluster ReplicatedCluster.

(** ** What Leaders have committed *)

Definition covered (D : gmap N N) (k : N) : Prop := k = 0 \/ exists T m, D !! T = Some m /\ k <= m.

Definition grows (D D' : gmap N N) : Prop :=
  forall T m, D !! T = Some m -> exists m', D' !! T = Some m' /\ m <= m'.

#[export] Instance grows_preorder : PreOrder grows.
Proof.
  split.
  - intros D T m Hm. exists m. split; [done|lia].
  - intros D1 D2 D3 H12 H23 T m (m2 & Hm2 & ?)%H12. destruct (H23 _ _ Hm2) as (m3 & ? & ?). exists m3. split; [done|lia].
Qed.

Lemma covered_grows D D' k : grows D D' -> covered D k -> covered D' k.
Proof.
  intros Hg [->|(T & m & Hm & Hk)]; [by left|right]. destruct (Hg _ _ Hm) as (m' & ? & ?). exists T, m'. split; [done|lia].
Qed.

Lemma covered_below D k k' : k' <= k -> covered D k -> covered D k'.
Proof. intros Hle [->|(T & m & ? & ?)]; [left; lia|right]. exists T, m. split; [done|lia]. Qed.

(** A Node that leads after an event led before, or was elected. *)
Lemma change_leader n e v : change n e v -> v_role v = Leader ->
  v_term v = term n /\ ((role n = Leader /\ commitIndex n <= v_commit v) \/ role n = Candidate).
Proof.
  intros [? w Ht _ _ Hc Ha|? w _ _ _ Hr _ _|? w _ Hr _ _ _ _|? w Hr Hr' _ _ _ _ _ _ _|? ? w Hr _ _ _ Ht _ _ _ _ _ _ _
    |? ? w Hr _ Ht _ Hc _ _ _ _|? w Hr _ _ Ht _ _ _ _ Hc|? w _ _ _ Hr _ _] Hl; try congruence.
  - destruct Ha as (Hr & _); [by right|]. split; [done|]. left. split; [congruence|lia].
  - exfalso. apply Hr. by right.
  - split; [done|by right].
  - split; [done|]. left. split; [done|lia].
  - split; [done|]. left. split; [done|]. destruct Hc as [->|[? _]]; lia.
Qed.

Section ClusterReads.
Context {S E : Type} `{LogStore S E}.
Variable members : list NodeID.
Variable admits : Node -> Event -> Prop.
Hypothesis admits_room : forall n e, admits n e -> room n e.
Hypothesis members_nodup : NoDup members.
Hypothesis members_named : "" ∉ members.
Hypothesis members_nameable : Forall nameable members.

Abbreviation remains := (remains_with reopens holds).
#[local] Abbreviation replicated := (replicated members admits).
#[local] Abbreviation replicates := (replicates members admits).
#[local] Abbreviation replicable := (replicable admits).
#[local] Abbreviation attentive i n :=
  (reading (fun _ _ => True) (fun _ _ => True) i (term n) (quorum n) (commitIndex n) (serves n) n).

(** ** The invariant *)

(** A message about reads goes from one Node to another, a request from the Leader of its term. *)
Definition routed (h : history) (D : gmap N N) (a : Action) : Prop :=
  match a with
  | SendAppendEntries to q => ae_From q <> to /\ covered D (ae_LeaderCommit q) /\
      exists el, h_elections h !! ae_Term q = Some el /\ el_owner el = ae_From q
  | SendAppendEntriesResponse to r => ar_From r <> to
  | ApplyEntry x => covered D (Index x)
  | _ => True
  end.

Record watched (c : cluster S) (h : history) (D : gmap N N) : Prop := {
  wt_chosen T m : D !! T = Some m -> chosen members h T (N.to_nat m);
  wt_sent : Forall (routed h D) (sent c);
  wt_up i r : procs c !! i = Some (Up r) ->
    covered D (commitIndex (rt_core r)) /\ attentive i (rt_core r) /\
    (role (rt_core r) = Leader -> forall m, D !! term (rt_core r) = Some m -> m <= commitIndex (rt_core r));
  wt_down i s : procs c !! i = Some (Down s) -> remains s (fun d => covered D (N.of_nat (dk_commit d))) }.

Lemma routed_mono h h' D D' a : extends h h' -> grows D D' -> routed h D a -> routed h' D' a.
Proof.
  intros Hx Hg. destruct a; cbn; try done; [|by apply covered_grows].
  intros (? & Hc & el & He & ?). split_and!; [done|by eapply covered_grows|]. exists el. split; [|done].
  by eapply lookup_weaken, ex_elections.
Qed.

Lemma blank_watched c : blank members c -> watched c (mkHistory ∅ ∅ ∅ ∅ []) ∅.
Proof.
  intros [Hs Hp]. split.
  - intros T m. by rewrite lookup_empty.
  - by rewrite Hs.
  - intros i r Hi. by apply Hp in Hi as (_ & s & ? & _).
  - intros i s Hi. apply Hp in Hi as (_ & s' & [= <-] & Hh). eapply holds_in; [exact Hh|]. by left.
Qed.

(** ** One step *)

(** The Leader of a term is the Node that was elected. *)
Lemma leader_owner c h i r : replicated c h -> procs c !! i = Some (Up r) -> role (rt_core r) = Leader ->
  exists el, h_elections h !! term (rt_core r) = Some el /\ el_owner el = i.
Proof.
  intros Hrp Hi Hl. destruct (rp_up _ _ _ _ Hrp _ _ Hi) as (_ & _ & Hp & _). apply (pm_leads _ _ _ _ Hp Hl).
Qed.

(** What an event may ask of a process, given who may have acknowledged a read. *)
Lemma event_read heard c h D i r e :
  replicated c h -> watched c h D -> procs c !! i = Some (Up r) -> replicable c i (rt_core r) e ->
  (forall read, heard read i) ->
  (forall a, e = EvAppendEntriesResponse a -> ar_Term a = term (rt_core r) -> heard (ar_ReadID a) (ar_From a)) ->
  read_event heard i (term (rt_core r)) (commitIndex (rt_core r)) (serves (rt_core r)) (rt_core r) e.
Proof.
  intros Hrp Hw Hi Hrb Hself Hresp. destruct (wt_up _ _ _ Hw _ _ Hi) as (_ & Ha & _).
  pose proof (rb_sent _ _ _ _ _ Hrb) as Hs. pose proof (proj1 (Forall_forall _ _) (wt_sent _ _ _ Hw)) as Hall.
  destruct e; cbn; try done; try apply Hrb.
  - split_and!; [|by rewrite (rg_id _ _ _ _ _ _ _ _ Ha)|done..].
    intros Hl Hr. split; [done|]. apply (rg_own _ _ _ _ _ _ _ _ Ha). by left.
  - destruct (Hall _ (Hs _ eq_refl)) as (Hne & _ & el & He & Ho). split; [done|]. intros Hl Ht.
    destruct (leader_owner _ _ _ _ Hrp Hi Hl) as (el' & He' & Ho'). rewrite Ht in He. congruence.
  - split; [exact (Hall _ (Hs _ eq_refl))|]. by apply Hresp.
Qed.

(** What a process that takes an event keeps of its reads, and what it says. *)
Lemma step_reads heard heard' fresh c h D i r e fuel emitted r' :
  (forall read k k', fresh read k -> k <= k' -> fresh read k') ->
  (forall read (Q : gset string), serves (rt_core r) -> (forall f, f ∈ Q -> heard read f) ->
     quorum (rt_core r) <= N.of_nat (size Q) -> fresh read (commitIndex (rt_core r))) ->
  (forall read, heard read i) ->
  (forall a, e = EvAppendEntriesResponse a -> ar_Term a = term (rt_core r) -> heard (ar_ReadID a) (ar_From a)) ->
  (forall read f, term (rt_core r') = term (rt_core r) -> heard read f -> heard' read f) ->
  replicated c h -> watched c h D -> procs c !! i = Some (Up r) -> replicable c i (rt_core r) e ->
  step fuel e r = Done emitted r' -> idle (rt_core r') ->
  reading heard fresh i (term (rt_core r)) (quorum (rt_core r)) (commitIndex (rt_core r)) (serves (rt_core r)) (rt_core r) ->
  reading heard' fresh i (term (rt_core r')) (quorum (rt_core r')) (commitIndex (rt_core r')) (serves (rt_core r')) (rt_core r') /\
  exists la, Forall (told fresh i (term (rt_core r)) la) emitted.
Proof using admits_room.
  intros Hmono Hq Hself Hresp Hheard Hrp Hw Hi Hrb Hd Hidle Hrd. destruct (rp_up _ _ _ _ Hrp _ _ Hi) as (Hid & _).
  destruct (runtime_reading (S := S) (E := E) heard fresh Hmono i (term (rt_core r)) (quorum (rt_core r))
    (commitIndex (rt_core r)) (serves (rt_core r)) Hq fuel e r emitted r') as [Hr Hans]; try done.
  - apply Hid.
  - by eapply (replicable_ok members admits).
  - apply Hrb.
  - by eapply event_read.
  - split; [|done]. eapply reread; [exact Hr|apply Hidle..|done].
Qed.

(** Nothing about reads goes wrong at any process. *)
Lemma attentive_step c h D i r e fuel emitted r' :
  replicated c h -> watched c h D -> procs c !! i = Some (Up r) -> replicable c i (rt_core r) e ->
  step fuel e r = Done emitted r' -> idle (rt_core r') ->
  attentive i (rt_core r') /\ exists la, Forall (told (fun _ _ => True) i (term (rt_core r)) la) emitted.
Proof using admits_room.
  intros Hrp Hw Hi Hrb Hd Hidle. destruct (wt_up _ _ _ Hw _ _ Hi) as (_ & Ha & _).
  by eapply (step_reads (fun _ _ => True)).
Qed.

(** Confirmations follow the entries they wait for. *)
Lemma step_timely c h D i r e fuel emitted r' :
  replicated c h -> watched c h D -> procs c !! i = Some (Up r) -> replicable c i (rt_core r) e ->
  step fuel e r = Done emitted r' -> caught_up_node (rt_core r) -> timely (lastApplied (rt_core r)) emitted.
Proof using admits_room.
  intros Hrp Hw Hi Hrb Hd Hcu. destruct (rp_up _ _ _ _ Hrp _ _ Hi) as (Hid & _).
  destruct (wt_up _ _ _ Hw _ _ Hi) as (_ & Ha & _).
  eapply (runtime_telling (S := S) (E := E) (fun _ _ => True) (fun _ _ => True)); try done; [apply Hid| |apply Hrb|].
  - by eapply (replicable_ok members admits).
  - by eapply event_read.
Qed.

(** What the record becomes: a Leader that commits is entered. *)
Lemma change_covered c h D i r e v :
  replicated c h -> watched c h D -> procs c !! i = Some (Up r) -> replicable c i (rt_core r) e ->
  change (rt_core r) e v ->
  exists D', grows D D' /\ covered D' (v_commit v) /\
    forall T m, D' !! T = Some m -> chosen members h T (N.to_nat m) /\
      (D !! T = Some m \/ (T = term (rt_core r) /\ role (rt_core r) = Leader /\ m = v_commit v)).
Proof.
  intros Hrp Hw Hi Hrb Hch. set (n := rt_core r) in *.
  destruct (rp_up _ _ _ _ Hrp _ _ Hi) as (_ & [Hid Hnd Hps Hct] & Hp & _). fold n in Hid, Hnd, Hps, Hct, Hp.
  destruct (wt_up _ _ _ Hw _ _ Hi) as (Hcov & _ & Hlead). fold n in Hcov, Hlead.
  assert (Hstay : covered D (v_commit v) -> exists D', grows D D' /\ covered D' (v_commit v) /\
    forall T m, D' !! T = Some m -> chosen members h T (N.to_nat m) /\
      (D !! T = Some m \/ (T = term n /\ role n = Leader /\ m = v_commit v))).
  { intros Hc. exists D. split_and!; [done|done|]. intros T m Hm. split; [by apply (wt_chosen _ _ _ Hw)|by left]. }
  pose proof (rb_sent _ _ _ _ _ Hrb) as Hs. pose proof (proj1 (Forall_forall _ _) (rp_sent _ _ _ _ Hrp)) as Hall.
  destruct Hch as [? w _ _ _ Hc _|? w _ _ Hc _ _ _|? w _ _ _ _ _ Hc|? w _ _ _ _ _ _ _ Hc _|? ? w _ _ _ _ _ _ Hc _ _ _ _ _
    |? ? w _ _ _ _ Hc _ _ _ _|q w Hr _ Hrt _ _ _ _ Hm Hc|q w _ _ _ _ _ Hc]; try (apply Hstay; by rewrite Hc).
  - destruct Hc as [Hc|(Hlt & Hterm & Hq)]; [apply Hstay; by rewrite Hc|].
    pose proof (progress_stored members h i n Hp q w (Hall _ (Hs _ eq_refl)) Hr Hrt Hm) as Hst.
    pose proof (progress_chosen members h i n Hp (rp_member _ _ _ _ Hrp _ _ Hi) w Hnd Hps Hct Hr Hst Hlt Hterm Hq) as Hchosen.
    exists (<[term n := v_commit w]> D). split_and!.
    + intros T m Hm'. destruct (decide (term n = T)) as [<-|Hne].
      * exists (v_commit w). rewrite lookup_insert_eq. split; [done|]. specialize (Hlead Hr _ Hm'). lia.
      * exists m. rewrite lookup_insert_ne by done. split; [done|lia].
    + right. exists (term n), (v_commit w). rewrite lookup_insert_eq. split; [done|lia].
    + intros T m. destruct (decide (term n = T)) as [<-|Hne].
      * rewrite lookup_insert_eq. intros [= <-]. split; [done|by right].
      * rewrite lookup_insert_ne by done. intros Hm'. split; [by apply (wt_chosen _ _ _ Hw)|by left].
  - destruct Hc as [Hc|(_ & Hle & _)]; [apply Hstay; by rewrite Hc|]. apply Hstay.
    destruct (proj1 (Forall_forall _ _) (wt_sent _ _ _ Hw) _ (Hs _ eq_refl)) as (_ & Hcq & _). by eapply covered_below.
Qed.

(** The Leader of a term is not behind the record. *)
Lemma leader_ahead c h h' D i n e v m :
  replicated c h -> watched c h D -> extends h h' -> promises members h i (viewOf n) -> promises members h' i v ->
  (role n = Leader -> forall m, D !! term n = Some m -> m <= commitIndex n) ->
  change n e v -> v_role v = Leader -> D !! v_term v = Some m -> m <= v_commit v.
Proof.
  intros Hrp Hw Hx Hp Hp' Hlead Hch Hl Hm. destruct (change_leader _ _ _ Hch Hl) as [Ht [[Hr Hle]|Hr]]; rewrite Ht in Hm.
  - specialize (Hlead Hr _ Hm). lia.
  - exfalso. destruct (wt_chosen _ _ _ Hw _ _ Hm) as (L & _ & HL & _).
    destruct (ho_elected _ _ _ (rp_history _ _ _ _ Hrp) _ _ HL) as (el & He & _).
    pose proof (sk_fresh _ _ _ (pm_stands _ _ _ _ Hp Hr) el He) as Hne.
    destruct (lo_owner _ _ _ (pm_leads _ _ _ _ Hp' Hl)) as (el' & He' & Ho). rewrite Ht in He'.
    pose proof (lookup_weaken _ _ _ _ He (ex_elections _ _ Hx)). cbn in *. congruence.
Qed.

(** What a process says is routed. *)
Lemma speaks_routed h D i n e v la a : history_ok members (good admits) h -> promises members h i v -> covered D (v_commit v) ->
  told (fun _ _ => True) i (term n) la a -> speaks n e v a -> routed h D a.
Proof.
  intros Hh Hp Hc Ha Hs. destruct a; cbn in *; try done.
  - destruct Ha as [Hfrom Hto], Hs as (Hr & Ht & _ & _ & _ & ->). rewrite Hfrom, Ht. split_and!; [by intros ->|done|].
    apply (pm_leads _ _ _ _ Hp Hr).
  - destruct Ha as (-> & Hto & _). by intros ->.
  - destruct Hs as (j & Hj & Hlt).
    rewrite (log_ok_index members (good admits) h _ j _ Hh (do_log _ _ _ _ (pm_disk _ _ _ _ Hp)) Hj). eapply covered_below; [|exact Hc]. lia.
Qed.

(** Moving one process. *)
Lemma watched_move c h h' D D' i p out :
  watched c h D -> extends h h' -> grows D D' ->
  (forall T m, D' !! T = Some m -> chosen members h T (N.to_nat m)) ->
  (forall T m j r, D' !! T = Some m -> j <> i -> procs c !! j = Some (Up r) -> role (rt_core r) = Leader ->
     term (rt_core r) = T -> D !! T = Some m) ->
  Forall (routed h' D') out ->
  match p with
  | Up r => covered D' (commitIndex (rt_core r)) /\ attentive i (rt_core r) /\
      (role (rt_core r) = Leader -> forall m, D' !! term (rt_core r) = Some m -> m <= commitIndex (rt_core r))
  | Down s => remains s (fun d => covered D' (N.of_nat (dk_commit d)))
  end ->
  watched (mkCluster (<[i := p]> (procs c)) (sent c ++ out)) h' D'.
Proof.
  intros [Hch Hs Hu Hd] Hx Hg Hch' Hoth Hout Hp. split; cbn.
  - intros T m Hm. by apply (chosen_mono members Hx), Hch'.
  - apply Forall_app. split; [|done]. eapply Forall_impl; [exact Hs|]. intros a. by apply routed_mono.
  - intros j r. destruct (decide (i = j)) as [<-|Hne].
    + rewrite lookup_insert_eq. by intros [= ->].
    + rewrite lookup_insert_ne by done. intros Hj. destruct (Hu _ _ Hj) as (Hc & Ha & Hl).
      split_and!; [by eapply covered_grows|done|]. intros Hr m Hm. apply Hl; [done|].
      apply (Hoth _ _ j r); [exact Hm|congruence|done..].
  - intros j s. destruct (decide (i = j)) as [<-|Hne].
    + rewrite lookup_insert_eq. by intros [= ->].
    + rewrite lookup_insert_ne by done. intros Hj. eapply remains_mono; [by apply (Hd j)|]. intros d. by apply covered_grows.
Qed.

Lemma between_covered D n v d : covered D (commitIndex n) -> covered D (v_commit v) -> between (coreDisk n) v d ->
  covered D (N.of_nat (dk_commit d)).
Proof. intros Hn Hv [->|[(l & -> & _)| ->]]; cbn; by rewrite N2Nat.id. Qed.

(** No other process leads the term of a Leader. *)
Lemma sole_leader c h i j r s : replicated c h -> procs c !! i = Some (Up r) -> procs c !! j = Some (Up s) ->
  role (rt_core r) = Leader -> role (rt_core s) = Leader -> term (rt_core s) = term (rt_core r) -> i = j.
Proof.
  intros Hrp Hi Hj Hr Hs Ht. destruct (leader_owner _ _ _ _ Hrp Hi Hr) as (el & He & Ho).
  destruct (leader_owner _ _ _ _ Hrp Hj Hs) as (el' & He' & Ho'). rewrite Ht in He'. congruence.
Qed.

Lemma watched_done c h D i r e fuel emitted r' :
  replicated c h -> watched c h D -> procs c !! i = Some (Up r) -> replicable c i (rt_core r) e ->
  step fuel e r = Done emitted r' -> let c' := mkCluster (<[i := Up r']> (procs c)) (sent c ++ emitted) in
  exists h' D', extends h h' /\ grows D D' /\ replicated c' h' /\ watched c' h' D'.
Proof using admits_room members_nodup members_named members_nameable.
  intros Hrp Hw Hi Hrb Hd c'.
  destruct (step_replicated members admits admits_room members_nodup members_named members_nameable c h i r e fuel Hrp Hi Hrb)
    as (v & Hch & Hdone & _). destruct (Hdone _ _ Hd) as (h' & Hx & Hrp' & Hv & Hsp).
  destruct (change_covered c h D i r e v Hrp Hw Hi Hrb Hch) as (D' & Hg & Hcov & HD').
  assert (Hi' : procs c' !! i = Some (Up r')) by apply lookup_insert_eq.
  destruct (rp_up _ _ _ _ Hrp' _ _ Hi') as (Hid' & _ & Hp' & _). destruct (rp_up _ _ _ _ Hrp _ _ Hi) as (_ & _ & Hp & _).
  destruct (attentive_step c h D i r e fuel emitted r' Hrp Hw Hi Hrb Hd Hid') as [Hatt [la Hans]].
  exists h', D'. split_and!; [done..|]. subst v. apply (watched_move c h h' D D'); try done.
  - intros T m Hm. by apply HD'.
  - intros T m j s Hm Hne Hj Hl Ht. destruct (proj2 (HD' _ _ Hm)) as [?|(-> & Hr & _)]; [done|].
    destruct Hne. symmetry. by apply (sole_leader c h i j r s).
  - apply Forall_forall. intros a Ha. apply (speaks_routed h' D' i (rt_core r) e (viewOf (rt_core r')) la); try done; [apply Hrp'|..];
      by eapply (proj1 (Forall_forall _ _)).
  - split_and!; [done..|]. intros Hl m Hm. destruct (proj2 (HD' _ _ Hm)) as [Hm'|(_ & _ & ->)]; [|cbn; lia].
    destruct (wt_up _ _ _ Hw _ _ Hi) as (_ & _ & Hlead).
    by apply (leader_ahead c h h' D i (rt_core r) e (viewOf (rt_core r')) m).
Qed.

Lemma watched_halt c h D i r e fuel s :
  replicated c h -> watched c h D -> procs c !! i = Some (Up r) -> replicable c i (rt_core r) e ->
  halted (step fuel e r) s -> let c' := mkCluster (<[i := Down s]> (procs c)) (sent c) in
  exists h' D', extends h h' /\ grows D D' /\ replicated c' h' /\ watched c' h' D'.
Proof using admits_room members_nodup members_named members_nameable.
  intros Hrp Hw Hi Hrb Hh c'.
  destruct (step_replicated members admits admits_room members_nodup members_named members_nameable c h i r e fuel Hrp Hi Hrb)
    as (v & Hch & _ & Hhalt). destruct (Hhalt _ Hh) as (h' & Hx & Hrp' & Hrem).
  destruct (change_covered c h D i r e v Hrp Hw Hi Hrb Hch) as (D' & Hg & Hcov & HD').
  exists h', D'. split_and!; [done..|]. subst c'. rewrite <- (app_nil_r (sent c)). apply (watched_move c h h' D D'); try done.
  - intros T m Hm. by apply HD'.
  - intros T m j s' Hm Hne Hj Hl Ht. destruct (proj2 (HD' _ _ Hm)) as [?|(-> & Hr & _)]; [done|].
    destruct Hne. symmetry. by apply (sole_leader c h i j r s').
  - eapply remains_mono; [exact Hrem|]. intros d. apply between_covered; [|done].
    destruct (wt_up _ _ _ Hw _ _ Hi) as (? & _). by eapply covered_grows.
Qed.

Lemma opened_dormant i ps rec (s : S) : let n := rt_core (openRuntime i ps rec s) in
  dormant n /\ node_id n = i /\ pendingHardState n = ∅ /\ pendingLog n = ∅ /\ pendingCommit n = ∅.
Proof. unfold openRuntime, NewNodeFromRecoveredState. cbn [rt_core]. by destruct (last_entry _). Qed.

(** Where a process does not take part, the record stays. *)
Lemma watched_idle c h D i p : watched c h D ->
  match p with
  | Up r => covered D (commitIndex (rt_core r)) /\ attentive i (rt_core r) /\ role (rt_core r) = Follower
  | Down s => remains s (fun d => covered D (N.of_nat (dk_commit d)))
  end -> watched (mkCluster (<[i := p]> (procs c)) (sent c)) h D.
Proof.
  intros Hw Hp. rewrite <- (app_nil_r (sent c)). apply (watched_move c h h D D); try done.
  - apply (wt_chosen _ _ _ Hw).
  - destruct p; [|done]. destruct Hp as (? & ? & Hr). split_and!; [done..|]. by rewrite Hr.
Qed.

Lemma watched_later c h h' D : watched c h D -> extends h h' -> watched c h' D.
Proof.
  intros [Hch Hs Hu Hd] Hx. split; [|eapply Forall_impl; [exact Hs|]; intros a; by apply routed_mono|done..].
  intros T m Hm. by apply (chosen_mono members Hx), Hch.
Qed.

Lemma watched_restart c h D i s rec s' observing metrics :
  replicated c h -> watched c h D -> procs c !! i = Some (Down s) -> reopens s rec s' -> unsnapshotted rec ->
  watched (mkCluster (<[i := Up (observedBy observing metrics (openRuntime i (peersOf members i) rec s'))]> (procs c)) (sent c)) h D.
Proof using members_nodup members_named.
  intros Hrp Hw Hi Hre Hu. pose proof (rp_member _ _ _ _ Hrp _ _ Hi) as Him.
  destruct (rp_down _ _ _ _ Hrp _ _ Hi rec s' Hre Hu) as [Hd _].
  destruct (wt_down _ _ _ Hw _ _ Hi rec s' Hre Hu) as [Hc _].
  destruct (restart_idle members admits members_nodup members_named h i rec s' (rp_history _ _ _ _ Hrp) Hd Him Hu) as (_ & Hpl & Hr & Hcd).
  destruct (opened_dormant i (peersOf members i) rec s') as (Hdo & Hid & Hh & Hl & Hpc).
  apply watched_idle; [done|]. cbn [rt_core observedBy].
  set (n := rt_core (openRuntime i (peersOf members i) rec s')) in *.
  change (covered D (commitIndex n) /\ attentive i n /\ role n = Follower). split_and!; [|apply dormant_reads; try done|done].
  - replace (commitIndex n) with (N.of_nat (dk_commit (coreDisk n))) by apply N2Nat.id. by rewrite Hcd.
  - intros Hin. by destruct (pd_peers _ _ _ Hpl i Hin).
Qed.

Lemma watched_step c h D c' : replicated c h -> watched c h D -> replicates c c' ->
  exists h' D', extends h h' /\ grows D D' /\ replicated c' h' /\ watched c' h' D'.
Proof using admits_room members_nodup members_named members_nameable.
  intros Hrp Hw Hstep.
  destruct (replicates_replicated members admits admits_room members_nodup members_named members_nameable c h _ Hrp Hstep)
    as (h' & Hx & Hrp'). pose proof (watched_later _ _ _ _ Hw Hx) as Hw'.
  destruct Hstep as [i r e fuel emitted r' Hi Hrb Hd|i r e fuel s Hi Hrb Hh|i r Hi|i s rec s' ob me Hi Hre Hu].
  - by eapply watched_done.
  - by eapply watched_halt.
  - exists h', D. split_and!; [done..|]. apply watched_idle; [done|]. destruct (rp_up _ _ _ _ Hrp _ _ Hi) as (_ & _ & _ & Hho).
    destruct (wt_up _ _ _ Hw _ _ Hi) as (? & _). eapply holds_in; [exact Hho|]. cbn. by rewrite N2Nat.id.
  - exists h', D. split_and!; [done..|]. eapply watched_later; [by eapply watched_restart|done].
Qed.

(** ** A read that begins *)

Section Read.
Variables (reader : NodeID) (read0 : ReadID) (h0 : history) (D0 : gmap N N).

(** [f] has stored nothing for a term after [t] when the read begins. *)
Definition heard_in (t : N) (read : ReadID) (f : NodeID) : Prop :=
  read = read0 -> f ∈ members /\ forall T m, acked h0 f T m -> T <= t.

(** The commit index reaches all that was committed when the read begins. *)
Definition caught_up_to (read : ReadID) (k : N) : Prop :=
  read = read0 -> forall T m, D0 !! T = Some m -> m <= k.

#[local] Abbreviation serving n :=
  (reading (heard_in (term n)) caught_up_to reader (term n) (quorum n) (commitIndex n) (serves n) n).

Record since (c : cluster S) : Prop := {
  sn_replies r : SendAppendEntriesResponse reader r ∈ sent c -> heard_in (ar_Term r) (ar_ReadID r) (ar_From r);
  sn_serving r : procs c !! reader = Some (Up r) -> serving (rt_core r) }.

Lemma caught_up_mono read k k' : caught_up_to read k -> k <= k' -> caught_up_to read k'.
Proof. intros Hk Hle He T m Hm. specialize (Hk He T m Hm). lia. Qed.

(** What a process has stored is of its term. *)
Lemma stored_heard c h i r t read : replicated c h -> extends h0 h -> procs c !! i = Some (Up r) ->
  term (rt_core r) <= t -> heard_in t read i.
Proof.
  intros Hrp Hx Hi Ht _. split; [by eapply rp_member|]. intros T m Ha.
  destruct (rp_up _ _ _ _ Hrp _ _ Hi) as (_ & _ & Hp & _).
  destruct (do_acks _ _ _ _ (pm_disk _ _ _ _ Hp) T m (acked_mono Hx _ _ _ Ha)) as [Hle _]. cbn in Hle. lia.
Qed.

Lemma replies_heard c h i r t la a : replicated c h -> extends h0 h -> procs c !! i = Some (Up r) -> t = term (rt_core r) ->
  told (fun _ _ => True) i t la a ->
  forall resp, a = SendAppendEntriesResponse reader resp -> heard_in (ar_Term resp) (ar_ReadID resp) (ar_From resp).
Proof. intros Hrp Hx Hi -> Ha resp ->. destruct Ha as (-> & _ & Ht). by eapply stored_heard. Qed.

(** A quorum that answers in the term of a Leader that serves: the Leader has caught up. *)
Lemma quorum_caught_up c h D r read (Q : gset string) :
  replicated c h -> watched c h D -> extends h0 h -> grows D0 D ->
  (forall T m, D0 !! T = Some m -> chosen members h0 T (N.to_nat m)) ->
  procs c !! reader = Some (Up r) -> serves (rt_core r) ->
  (forall f, f ∈ Q -> heard_in (term (rt_core r)) read f) -> quorum (rt_core r) <= N.of_nat (size Q) ->
  caught_up_to read (commitIndex (rt_core r)).
Proof using members_nodup members_named.
  intros Hrp Hw Hx Hg Hch0 Hi [Hl (j & x & Hj & Hxt & Hlt)] HQ Hsize -> T m Hm. set (n := rt_core r) in *.
  destruct (rp_up _ _ _ _ Hrp _ _ Hi) as (Hid & [_ _ _ Hct] & Hp & _). fold n in Hid, Hct, Hp.
  destruct (wt_up _ _ _ Hw _ _ Hi) as (_ & _ & Hlead). fold n in Hlead.
  pose proof (Hch0 _ _ Hm) as Hc0. pose proof (chosen_mono members Hx _ _ Hc0) as Hc.
  destruct Hc0 as (L0 & Q0 & _ & _ & _ & HQ0 & Hacks).
  assert (HmajQ : majority members Q).
  { split; [intros f Hf; by apply HQ|]. unfold quorum, len in Hsize.
    pose proof (N.div_mod (N.of_nat (length (peers n)) + 1) 2). pose proof (N.mod_lt (N.of_nat (length (peers n)) + 1) 2).
    unfold NodeID in *. lia. }
  destruct (quorums_meet members members_nodup _ _ HQ0 HmajQ) as (f & Hf0 & Hf).
  destruct (HQ f Hf eq_refl) as [_ Hterm]. specialize (Hterm T _ (Hacks f Hf0)).
  destruct (decide (T = term n)) as [->|Hne].
  - destruct (Hg _ _ Hm) as (m' & Hm' & ?). specialize (Hlead Hl _ Hm'). lia.
  - destruct Hc as (L & Q' & HL & Hil & Hrest).
    pose proof (leader_completeness members members_nodup (good admits) h T (N.to_nat m) L (rp_history _ _ _ _ Hrp)
      ltac:(by exists L, Q') HL (term n) (log n) ltac:(lia) (lo_log _ _ _ (pm_leads _ _ _ _ Hp Hl))) as Hpre.
    destruct (N.le_gt_cases m (commitIndex n)) as [?|Hgt]; [done|exfalso].
    rewrite (id_base n Hid) in Hlt.
    assert (Hin : take (N.to_nat m) L !! j = Some x).
    { destruct (lookup_lt_is_Some_2 (take (N.to_nat m) L) j) as [y Hy]; [rewrite length_take; lia|].
      pose proof (prefix_lookup_Some _ _ _ _ Hy Hpre). congruence. }
    destruct (ho_log _ _ _ (rp_history _ _ _ _ Hrp) _ _ HL) as (_ & _ & _ & Hts & _).
    pose proof (Forall_lookup_1 _ _ _ _ (terms_take _ _ (N.to_nat m) Hts) Hin) as Hmax. cbn in Hmax. lia.
Qed.

Hypothesis recorded0 : forall T m, D0 !! T = Some m -> chosen members h0 T (N.to_nat m).

(** The process that serves the read keeps it sound, and confirms it when it has caught up. *)
Lemma serving_step c h D r e fuel emitted r' :
  replicated c h -> watched c h D -> extends h0 h -> grows D0 D -> since c ->
  procs c !! reader = Some (Up r) -> replicable c reader (rt_core r) e ->
  step fuel e r = Done emitted r' -> idle (rt_core r') ->
  serving (rt_core r') /\ exists la, Forall (told caught_up_to reader (term (rt_core r)) la) emitted.
Proof using admits_room members_nodup members_named recorded0.
  intros Hrp Hw Hx Hg [Hre Hsv] Hi Hrb Hd Hidle. specialize (Hsv _ Hi).
  eapply (step_reads (heard_in (term (rt_core r)))); try done.
  - apply caught_up_mono.
  - intros read Q Hs HQ Hsz. by eapply quorum_caught_up.
  - intros read. eapply stored_heard; [done..|lia].
  - intros a -> Ht. rewrite <- Ht. apply Hre. exact (rb_sent _ _ _ _ _ Hrb _ eq_refl).
  - by intros read f ->.
Qed.

Lemma since_step c h D c' : replicated c h -> watched c h D -> extends h0 h -> grows D0 D -> since c ->
  replicates c c' -> since c'.
Proof using admits_room members_nodup members_named members_nameable recorded0.
  intros Hrp Hw Hx Hg Hsn Hstep.
  destruct (replicates_replicated members admits admits_room members_nodup members_named members_nameable c h _ Hrp Hstep)
    as (h' & _ & Hrp'). pose proof Hsn as [Hre Hsv].
  destruct Hstep as [i r e fuel emitted r' Hi Hrb Hd|i r e fuel s Hi Hrb Hh|i r Hi|i s rec s' ob me Hi Hreo Hu].
  - destruct (rp_up _ _ _ _ Hrp' i r' (lookup_insert_eq _ _ _)) as (Hid' & _).
    destruct (attentive_step c h D i r e fuel emitted r' Hrp Hw Hi Hrb Hd Hid') as [_ [la Hans]]. split; cbn.
    + intros resp [?|Hin]%elem_of_app; [by apply Hre|].
      eapply (replies_heard c h i r); [done..| |done]. exact (proj1 (Forall_forall _ _) Hans _ Hin).
    + intros r1. destruct (decide (i = reader)) as [->|Hne].
      * rewrite lookup_insert_eq. intros [= <-]. by destruct (serving_step c h D r e fuel emitted r').
      * rewrite lookup_insert_ne by done. apply Hsv.
  - split; [exact Hre|]. cbn. intros r1. destruct (decide (i = reader)) as [->|Hne];
      [by rewrite lookup_insert_eq|rewrite lookup_insert_ne by done; apply Hsv].
  - split; [exact Hre|]. cbn. intros r1. destruct (decide (i = reader)) as [->|Hne];
      [by rewrite lookup_insert_eq|rewrite lookup_insert_ne by done; apply Hsv].
  - split; [exact Hre|]. cbn. intros r1. destruct (decide (i = reader)) as [->|Hne];
      [|rewrite lookup_insert_ne by done; apply Hsv].
    rewrite lookup_insert_eq. intros [= <-].
    destruct (rp_up _ _ _ _ Hrp' _ _ (lookup_insert_eq _ _ _)) as (_ & Hpl & _).
    destruct (opened_dormant reader (peersOf members reader) rec s') as (Hdo & Hid & Hph & Hpg & Hpc).
    apply dormant_reads; try done. intros Hin. by destruct (pd_peers _ _ _ Hpl reader Hin).
Qed.

Lemma since_run c h D c' : replicated c h -> watched c h D -> extends h0 h -> grows D0 D -> since c -> rtc replicates c c' ->
  exists h' D', extends h0 h' /\ grows D0 D' /\ replicated c' h' /\ watched c' h' D' /\ since c'.
Proof using admits_room members_nodup members_named members_nameable recorded0.
  intros Hrp Hw Hx Hg Hsn Hr. revert h D Hrp Hw Hx Hg Hsn.
  induction Hr as [c|c1 c2 c3 Hs _ IH]; intros h D Hrp Hw Hx Hg Hsn; [by exists h, D|].
  destruct (watched_step _ _ _ _ Hrp Hw Hs) as (h1 & D1 & Hx1 & Hg1 & Hrp1 & Hw1).
  apply (IH h1 D1); [done|done|by etrans|by etrans|]. by apply (since_step c1 h D c2).
Qed.
End Read.

Lemma watched_run c h D c' : replicated c h -> watched c h D -> rtc replicates c c' ->
  exists h' D', extends h h' /\ grows D D' /\ replicated c' h' /\ watched c' h' D'.
Proof using admits_room members_nodup members_named members_nameable.
  intros Hrp Hw Hr. revert h D Hrp Hw. induction Hr as [c|c1 c2 c3 Hs _ IH]; intros h D Hrp Hw; [by exists h, D|].
  destruct (watched_step _ _ _ _ Hrp Hw Hs) as (h1 & D1 & Hx1 & Hg1 & Hrp1 & Hw1).
  destruct (IH h1 D1 Hrp1 Hw1) as (h2 & D2 & Hx2 & Hg2 & ? & ?). exists h2, D2. split_and!; [by etrans|by etrans|done..].
Qed.

(** No message about the read is under way to [i], and [i] has not begun it. *)
Definition unread (c : cluster S) (i : NodeID) (read : ReadID) : Prop :=
  (forall a, SendAppendEntriesResponse i a ∈ sent c -> ar_ReadID a <> read) /\
  (forall r, procs c !! i = Some (Up r) -> pendingReads (rt_core r) !! read = None).

Lemma unread_since c h D i read : replicated c h -> watched c h D -> unread c i read -> since i read h D c.
Proof.
  intros Hrp Hw [Hs Hp]. split.
  - intros a Ha Hr. by destruct (Hs a Ha).
  - intros r Hi. specialize (Hp r Hi). destruct (wt_up _ _ _ Hw _ _ Hi) as (_ & [] & _).
    destruct (rp_up _ _ _ _ Hrp _ _ Hi) as (Hid & _). destruct (id_clean _ Hid) as [Hh _].
    split; rewrite ?Hh, ?(id_pendingLog _ Hid), ?(id_pendingCommit _ Hid); try done.
    intros read' p Hp'. split; intros; intros ->; congruence.
Qed.

(** A read that is confirmed after it began is confirmed at an index that covers all that was
    applied before. *)
Lemma confirmed_covers c c0 c1 i read r e fuel emitted r' k x : blank members c ->
  rtc replicates c c0 -> unread c0 i read -> rtc replicates c0 c1 ->
  procs c1 !! i = Some (Up r) -> replicable c1 i (rt_core r) e -> step fuel e r = Done emitted r' ->
  ReadConfirmed read k ∈ emitted -> ApplyEntry x ∈ sent c0 -> Index x <= k.
Proof using admits_room members_nodup members_named members_nameable.
  intros Hb Hr0 Hun Hr1 Hi Hrb Hd Hk Hx.
  destruct (watched_run c _ _ c0 (blank_replicated members admits c Hb) (blank_watched c Hb) Hr0) as (h0 & D0 & _ & _ & Hrp0 & Hw0).
  destruct (since_run i read h0 D0 (wt_chosen _ _ _ Hw0) c0 h0 D0 c1) as (h & D & Hxh & Hg & Hrp & Hw & Hsn); try done.
  { by apply unread_since. }
  destruct (step_replicated members admits admits_room members_nodup members_named members_nameable c1 h i r e fuel Hrp Hi Hrb)
    as (v & _ & Hdone & _). destruct (Hdone _ _ Hd) as (h' & _ & Hrp' & _).
  destruct (rp_up _ _ _ _ Hrp' i r' (lookup_insert_eq _ _ _)) as (Hid' & _).
  destruct (serving_step i read h0 D0 (wt_chosen _ _ _ Hw0) c1 h D r e fuel emitted r') as [_ [la Hans]]; try done.
  pose proof (proj1 (proj1 (Forall_forall _ _) Hans _ Hk) eq_refl) as Hcaught.
  destruct (proj1 (Forall_forall _ _) (wt_sent _ _ _ Hw0) _ Hx) as [Hz|(T & m & Hm & Hle)]; [cbn in Hz; lia|].
  specialize (Hcaught T m Hm). lia.
Qed.
End ClusterReads.
