(* ===== verification/MemoryStore.v ===== *)
(** A disk in memory, and scripted executions.

    The simplest store that keeps the contract, which the simulator's Nodes use as well: a save
    changes the disk at once.  [runMoves] runs a script of restarts, events and deliveries of
    messages that were sent, and every script that runs is an execution of the cluster. *)

From S2P Require Import Prelude RaftTypes RaftCore RaftElection Runtime Durability Replication LogStore Cluster RaftChanges ReplicatedCluster.

(** ** The store *)

#[export] Instance memoryStore : DurableStore disk Empty_set := {|
  saveHardState t v d := (Ok tt, mkDisk t v (dk_log d) (dk_commit d));
  truncateEntries first d := (Ok tt, mkDisk (dk_term d) (dk_vote d) (cut first (dk_log d)) (dk_commit d));
  saveEntries entries d := (Ok tt, mkDisk (dk_term d) (dk_vote d) (dk_log d ++ entries) (dk_commit d));
  saveCommitIndex index d := (Ok tt, mkDisk (dk_term d) (dk_vote d) (dk_log d) (N.to_nat index)) |}.

Definition memoryRecovered (d : disk) : RecoveredState :=
  mkRecoveredState (hardOfDisk d) (dk_log d) (N.of_nat (dk_commit d)) 0 0.

Definition memoryReopens (d : disk) (r : RecoveredState) (d' : disk) : Prop :=
  r = memoryRecovered d /\ d' = d.

Lemma torn_hard a d d' : torn a d d' ->
  hardOfDisk d' = hardOfDisk d \/ exists id t v, a = PersistHardState id t v /\ hardOfDisk d' = mkHardState t v.
Proof.
  intros [->|[->|Ht]]; [by left| |]; destruct a; try (by left); try done; [right; by eexists _, _, _|].
  destruct Ht as [i ->]. by left.
Qed.

#[export] Program Instance memoryLaws : DurableLaws disk Empty_set := {|
  settled d h := hardOfDisk d = h; reopens := memoryReopens; partial := torn |}.
Next Obligation. by intros d h <- r d' [-> ->]. Qed.
Next Obligation. by intros d h t v d' _ _ _ [= <-]. Qed.
Next Obligation. by intros d h t v []. Qed.
Next Obligation. by intros d h first res d' Hs [= _ <-]. Qed.
Next Obligation. by intros d h first res d' Hs [= _ <-]. Qed.
Next Obligation. by intros d h first res d' Hs [= _ <-]. Qed.
Next Obligation.
  intros d h id t v d' <- _ _ Ht r s' [-> ->]. split; [|done]. cbn.
  apply torn_hard in Ht as [->|(? & ? & ? & [= -> -> ->] & ->)]; auto.
Qed.
Next Obligation.
  intros d h a d' <- Ha Ht. apply torn_hard in Ht as [->|(? & ? & ? & -> & _)]; done.
Qed.

#[export] Program Instance memoryLogStore : LogStore disk Empty_set := {|
  holds := eq; storable _ := True; nameable _ := True |}.
Next Obligation. done. Qed.
Next Obligation. done. Qed.
Next Obligation. by intros d d' ->. Qed.
Next Obligation.
  intros d d' <- r s' [-> ->] _. unfold diskOf, memoryRecovered. cbn. rewrite Nat2N.id. by destruct d.
Qed.
Next Obligation.
  intros d d' a s' <- Hv Hp. destruct a; cbn in *; try (injection Hp; intros; congruence).
  unfold saveLog, ebind in Hp. destruct (N.eqb_spec TruncateFrom 0) as [->|]; cbn in Hp; by injection Hp as <-.
Qed.
Next Obligation. by intros d d' a []. Qed.
Next Obligation.
  intros d d' a s' <- Hv Ht r s2 [-> ->] _. unfold diskOf, memoryRecovered. cbn. rewrite Nat2N.id. by destruct s'.
Qed.

(** ** Scripts *)

Inductive move :=
| Boot (i : NodeID)
| Kill (i : NodeID)
| Fire (i : NodeID) (e : Event)
| Deliver (k : nat).

(** The event a message becomes at its receiver. *)
Definition arrival (a : Action) : option (NodeID * Event) :=
  match a with
  | SendPreVoteRequest i r => Some (i, EvPreVoteRequest r)
  | SendPreVoteResponse i r => Some (i, EvPreVoteResponse r)
  | SendVoteRequest i r => Some (i, EvVoteRequest r)
  | SendVoteResponse i r => Some (i, EvVoteResponse r)
  | SendAppendEntries i r => Some (i, EvAppendEntries r)
  | SendAppendEntriesResponse i r => Some (i, EvAppendEntriesResponse r)
  | _ => None
  end.

Section Scripts.
Variable members : list NodeID.
Variable admitted : Node -> Event -> bool.

Definition fire (i : NodeID) (e : Event) (c : cluster disk) : option (cluster disk) :=
  match procs c !! i with
  | Some (Up r) =>
      let n := rt_core r in
      if ordinary e && (term n + 1 <? two64) && (event_term e <? two64) && admitted n e then
        match step 20 e r with
        | Done emitted r' => Some (mkCluster (<[i := Up r']> (procs c)) (sent c ++ emitted))
        | _ => None
        end
      else None
  | _ => None
  end.

Definition runMove (c : cluster disk) (m : move) : option (cluster disk) :=
  match m with
  | Boot i =>
      match procs c !! i with
      | Some (Down d) =>
          Some (mkCluster (<[i := Up (openRuntime i (peersOf members i) (memoryRecovered d) d)]> (procs c)) (sent c))
      | _ => None
      end
  | Kill i =>
      match procs c !! i with
      | Some (Up r) => Some (mkCluster (<[i := Down (rt_wal r)]> (procs c)) (sent c))
      | _ => None
      end
  | Fire i e => if brought_by i e then None else fire i e c
  | Deliver k =>
      match sent c !! k with
      | Some a => match arrival a with Some (i, e) => fire i e c | None => None end
      | None => None
      end
  end.

Fixpoint runMoves (c : cluster disk) (ms : list move) : option (cluster disk) :=
  match ms with
  | [] => Some c
  | m :: ms => match runMove c m with Some c => runMoves c ms | None => None end
  end.

Abbreviation executes := (replicates members (fun n e => admitted n e = true)).

Lemma fire_sound i e c c' :
  (forall a, brought_by i e = Some a -> a ∈ sent c) -> fire i e c = Some c' -> executes c c'.
Proof.
  intros Hs. unfold fire. destruct (procs c !! i) as [[r|]|] eqn:Hi; try done. cbv zeta.
  destruct (_ && _) eqn:Hb; [|done]. reflect_bools.
  destruct (step 20 e r) as [emitted r'| | |] eqn:Hst; try done. intros [= <-].
  by apply (rs_step _ _ _ i r e 20).
Qed.

Lemma runMove_sound c m c' : runMove c m = Some c' -> executes c c'.
Proof.
  destruct m as [i|i|i e|k]; cbn [runMove].
  - destruct (procs c !! i) as [[|d]|] eqn:Hi; try done. intros [= <-]. by apply (rs_restart _ _ _ _ d _ _ false None).
  - destruct (procs c !! i) as [[r|]|] eqn:Hi; try done. intros [= <-]. by apply rs_kill.
  - destruct (brought_by i e) eqn:Hb; [done|]. apply fire_sound. intros a. by rewrite Hb.
  - destruct (sent c !! k) as [a|] eqn:Ha; [|done]. destruct (arrival a) as [[i e]|] eqn:He; [|done].
    apply fire_sound. apply list_elem_of_lookup_2 in Ha.
    destruct a; try done; injection He as <- <-; cbn; by intros ? [= <-].
Qed.

Lemma runMoves_sound ms c c' : runMoves c ms = Some c' -> rtc executes c c'.
Proof.
  revert c. induction ms as [|m ms IH]; intros c; cbn; [by intros [= ->]|].
  destruct (runMove c m) as [c1|] eqn:Hm; [|done]. intros Hr.
  eapply rtc_l; [by eapply runMove_sound|by apply IH].
Qed.

End Scripts.

(** Every member is down with an empty disk. *)
Definition newCluster (members : list NodeID) : cluster disk :=
  mkCluster (list_to_map (map (fun i => (i, Down (mkDisk 0 "" [] 0))) members)) [].

Lemma newCluster_blank members : blank members (newCluster members).
Proof.
  split; [done|]. intros i p Hp. apply elem_of_list_to_map_2, list_elem_of_fmap in Hp as (j & [= -> ->] & Hj).
  split; [done|]. by eexists.
Qed.

(** The entries the processes applied. *)
Definition appliedIn (c : cluster disk) : list LogEntry :=
  omap (fun a => match a with ApplyEntry e => Some e | _ => None end) (sent c).

Lemma appliedIn_sent c e : e ∈ appliedIn c -> ApplyEntry e ∈ sent c.
Proof. unfold appliedIn. rewrite list_elem_of_omap. intros ([] & Ha & He); try done. by injection He as ->. Qed.
