(* ===== verification/ReplicationProps.v ===== *)
(** Safety of the replicated log.

    The three properties of the log in every execution of the cluster in which the logs leave room
    in one AppendEntries request, and an execution with larger logs in which two Nodes apply
    different entries at one index. *)

From S2P Require Import Prelude RaftTypes RaftCore RaftLog Runtime RuntimeActions Durability Replication LogStore RaftReplication RaftChanges Cluster ReplicatedCluster MemoryStore.

(** ** Three Nodes in memory *)

Definition nodes : list NodeID := ["n1"; "n2"; "n3"].

Lemma nodes_nodup : NoDup nodes.
Proof. by apply (bool_decide_unpack _). Qed.

Lemma nodes_named : "" ∉ nodes.
Proof. by apply (bool_decide_unpack _). Qed.

Lemma nodes_nameable : Forall (nameable (S := disk) (E := Empty_set)) nodes.
Proof. by apply Forall_true. Qed.

Definition roomy (n : Node) (e : Event) : bool := batchSize (log n) + growth e <=? maxAppendEntriesBytes.

Lemma roomy_room n e : roomy n e = true -> room n e.
Proof. apply N.leb_le. Qed.

(** n1 is elected by n2, brings its no-op to n2 and commits it; n2 learns of the commitment. *)
Definition commitScript : list move :=
  [Boot "n1"; Boot "n2"; Boot "n3"; Fire "n1" ElectionTimeout; Deliver 1; Deliver 3; Deliver 5; Deliver 7;
   Deliver 11; Deliver 14; Deliver 15; Deliver 17; Deliver 20].

Definition noop1 : LogEntry := mkLogEntry 1 1 EntryNoOp zeroSessionID 0 "" [].

(** Role, term, log and commit index of a running process. *)
Definition summary (i : NodeID) (c : cluster disk) : option (bool * N * list LogEntry * N) :=
  match procs c !! i with
  | Some (Up r) =>
      let n := rt_core r in Some (bool_decide (role n = Leader), term n, log n, commitIndex n)
  | _ => None
  end.


(** A script whose events leave room is an execution. *)
Lemma runMoves_roomy c ms c' : runMoves nodes roomy c ms = Some c' -> rtc (replicates nodes room) c c'.
Proof.
  intros Hr%runMoves_sound. revert Hr. apply rtc_subrel. intros x y. apply replicates_mono, roomy_room.
Qed.

(** The execution exists, and its outcome. *)
Lemma commitScript_runs : exists c, rtc (replicates nodes room) (newCluster nodes) c /\
  appliedIn c = [noop1; noop1] /\ summary "n1" c = Some (true, 1, [noop1], 1) /\
  summary "n2" c = Some (false, 1, [noop1], 1).
Proof.
  assert (Hc : (fun c => (appliedIn c, summary "n1" c, summary "n2" c)) <$>
      runMoves nodes roomy (newCluster nodes) commitScript =
    Some ([noop1; noop1], Some (true, 1, [noop1], 1), Some (false, 1, [noop1], 1)))
    by (vm_compute; reflexivity).
  destruct (runMoves nodes roomy (newCluster nodes) commitScript) as [c|] eqn:Hr; [|done].
  injection Hc as Ha H1 H2. exists c. split_and!; [|exact Ha|exact H1|exact H2].
  by apply runMoves_roomy in Hr.
Qed.

(** ** The guarantees *)

(** C4: State Machine Safety.  Entries that are applied at the same index, by any Nodes at
    any time, are equal: for every store that keeps the disk contract, through elections,
    crashes in the middle of a save, restarts that apply again, and messages that are lost, delayed,
    duplicated and reordered, as long as every log fits one AppendEntries request and nothing is
    compacted. *)
Theorem state_machine_safety {S E} `{LogStore S E} (members : list NodeID) (c c' : cluster S) e e' :
  NoDup members -> "" ∉ members -> Forall nameable members -> blank members c ->
  rtc (replicates members room) c c' ->
  ApplyEntry e ∈ sent c' -> ApplyEntry e' ∈ sent c' -> Index e = Index e' -> e = e'.
Proof. intros Hnd Hne Hna. by apply (applied_entries_agree members room). Qed.

Lemma state_machine_safety_witness : exists c,
  rtc (replicates nodes room) (newCluster nodes) c /\ ApplyEntry noop1 ∈ sent c /\
  forall c' e, rtc (replicates nodes room) c c' -> ApplyEntry noop1 ∈ sent c' -> ApplyEntry e ∈ sent c' ->
    Index e = 1 -> e = noop1.
Proof.
  destruct commitScript_runs as (c & Hr & Ha & _). exists c. split; [exact Hr|]. split.
  - apply appliedIn_sent. rewrite Ha. apply list_elem_of_here.
  - intros c' e Hr' H1 He Hi.
    apply (state_machine_safety nodes (newCluster nodes) c' e noop1 nodes_nodup nodes_named nodes_nameable
      (newCluster_blank nodes)); [by etrans|exact He|exact H1|exact Hi].
Defined.





(** ** Logs that exceed one request *)

(** Two values of this size do not fit one AppendEntries request. *)
Definition bulk : list byte := replicate (N.to_nat 530000) x00.

(** Term 1: n1 leads, all three logs are [no-op, bulk, bulk], and message 58, an empty
    AppendEntries for n3, is delayed.  Term 2: n3 leads and appends an entry no one else stores.
    Term 3: n1 is elected by n2; n3 has learned of the term when message 58 arrives, so
    that the rejection 90 carries term 3 and no hint; n1, whose own request to n3 was reported
    lost, takes it for the answer, starts over at index 1, and sends what fits: the first two entries.
    n3 holds them and acknowledges its whole log with the entry of term 2 in it; n1
    commits its entry at index 4.  Term 4: n3 is elected by n2 and commits its own. *)
Definition divergenceScript : list move :=
  [Boot "n1"; Boot "n2"; Boot "n3"; Fire "n1" ElectionTimeout] ++
  map Deliver [1; 3; 5; 7; 11; 14; 15; 17; 12; 22; 23; 26; 20; 29]%nat ++
  Fire "n1" (ProposeSet 1 zeroSessionID 1 "k" bulk) :: map Deliver [31; 34; 32; 38; 36; 42]%nat ++
  Fire "n1" (ProposeSet 2 zeroSessionID 1 "k" bulk) :: map Deliver [44; 46; 39; 51; 52; 55]%nat ++
  [Fire "n1" HeartbeatTimeout; Fire "n2" ElectionTimeout; Fire "n3" ElectionTimeout] ++
  map Deliver [64; 65; 68; 69; 67]%nat ++
  Fire "n1" ElectionTimeout :: map Deliver [77; 79; 81; 83; 82; 58]%nat ++
  Fire "n1" (AppendEntriesFailed "n3" 16) :: map Deliver [90; 91; 93]%nat ++
  [Fire "n2" ElectionTimeout; Fire "n3" ElectionTimeout] ++
  map Deliver [102; 103; 106; 107; 112; 114; 115; 118]%nat.

(** The terms of the entries applied at an index. *)
Definition termsAt (index : N) (c : cluster disk) : list N :=
  omap (fun e => if Index e =? index then Some (Term e) else None) (appliedIn c).

Lemma termsAt_sent index t c : t ∈ termsAt index c ->
  exists e, ApplyEntry e ∈ sent c /\ Index e = index /\ Term e = t.
Proof.
  unfold termsAt. rewrite list_elem_of_omap. intros (e & He & Ht). exists e.
  destruct (N.eqb_spec (Index e) index); [|done]. injection Ht as <-. split; [by apply appliedIn_sent|done].
Qed.

(** C14: the bound of State Machine Safety is needed.  Without room in one request, two Nodes apply
    different entries at the same index: a Follower acknowledges its whole log for a request
    that ends before the entries it holds of another Leader. *)
Theorem oversized_logs_diverge : exists (c : cluster disk) e e',
  rtc (replicates nodes (fun _ _ => True)) (newCluster nodes) c /\
  ApplyEntry e ∈ sent c /\ ApplyEntry e' ∈ sent c /\ Index e = Index e' /\ Term e <> Term e'.
Proof.
  assert (Hc : termsAt 4 <$> runMoves nodes (fun _ _ => true) (newCluster nodes) divergenceScript = Some [3; 2])
    by (vm_compute; reflexivity).
  destruct (runMoves nodes (fun _ _ => true) (newCluster nodes) divergenceScript) as [c|] eqn:Hr; [|done].
  injection Hc as Ht.
  destruct (termsAt_sent 4 3 c) as (e & He & Hi & He3); [rewrite Ht; by constructor|].
  destruct (termsAt_sent 4 2 c) as (e' & He' & Hi' & He2); [rewrite Ht; by repeat constructor|].
  exists c, e, e'. split_and!; [|exact He|exact He'|congruence|by rewrite He3, He2].
  apply runMoves_sound in Hr. revert Hr. apply rtc_subrel. intros x y. by apply replicates_mono.
Qed.

(** ** Reads whose identifier is in use *)

(** Term 1: n1 leads and begins read 1; its requests 30 and 31 are delayed, and n1 crashes.  Term
    2: n1 leads again, with counters that start over; n3 has learned of the term when request 31
    arrives, and its rejection 58 carries term 2 and read 1.  Term 3: n3 is elected by n2 and
    applies an entry at index 3. *)
Definition reuseScript : list move :=
  [Boot "n1"; Boot "n2"; Boot "n3"; Fire "n1" ElectionTimeout] ++
  map Deliver [1; 3; 5; 7; 11; 14; 15; 17; 20; 23; 12; 25; 26; 29]%nat ++
  [Fire "n1" (ConfirmRead 1); Kill "n1"; Boot "n1"; Fire "n2" ElectionTimeout; Fire "n1" ElectionTimeout] ++
  map Deliver [36; 38; 40; 42; 46; 49; 50; 52; 41; 31; 47; 60; 61]%nat ++
  [Fire "n2" ElectionTimeout; Fire "n3" ElectionTimeout] ++
  map Deliver [70; 71; 74; 75; 80; 82; 83; 86]%nat.

(** n1, which has not heard of term 3, begins its first read; its request to n3 is lost, and
    message 58 is taken for the answer. *)
Definition staleScript : list move := [Fire "n1" (ConfirmRead 1); Fire "n1" (AppendEntriesFailed "n3" 5); Deliver 58].

(** No running process has a read. *)
Definition readless (c : cluster disk) : bool :=
  forallb (fun x => match x.2 with Up r => bool_decide (map_to_list (pendingReads (rt_core r)) = []) | Down _ => true end)
    (map_to_list (procs c)).

Lemma readless_pending c i r : readless c = true -> procs c !! i = Some (Up r) -> pendingReads (rt_core r) = ∅.
Proof.
  intros Hc Hi. apply elem_of_map_to_list, list_elem_of_In in Hi.
  pose proof (proj1 (forallb_forall _ _) Hc _ Hi) as Hr. cbn in Hr. by apply bool_decide_eq_true, map_to_list_empty_iff in Hr.
Qed.

(** The last step confirms read 1 at index 2. *)
Definition staleRun (c0 : cluster disk) : bool :=
  bool_decide (termsAt 3 c0 = [3]) && readless c0 &&
  match runMoves nodes roomy c0 staleScript with
  | Some c1 =>
      (length (sent c0) <? length (sent c1))%nat &&
      match list.last (sent c1) with Some (ReadConfirmed read k) => (read =? 1) && (k =? 2) | _ => false end
  | None => false
  end.

(** C15: identifiers of reads have to be fresh.  A read that begins after an entry was
    applied can be confirmed at an earlier index: the identifiers of a restarted
    Node start over, and a late answer to a read of its former life counts for the new one. *)
Theorem reused_read_ids_are_stale : exists (c0 c1 : cluster disk) x more k,
  rtc (replicates nodes room) (newCluster nodes) c0 /\ ApplyEntry x ∈ sent c0 /\
  (forall i r, procs c0 !! i = Some (Up r) -> pendingReads (rt_core r) = ∅) /\
  rtc (replicates nodes room) c0 c1 /\ sent c1 = sent c0 ++ more /\ ReadConfirmed 1 k ∈ more /\ k < Index x.
Proof.
  assert (Hc : match runMoves nodes roomy (newCluster nodes) reuseScript with
               | Some c0 => staleRun c0 | None => false end = true) by (vm_compute; reflexivity).
  destruct (runMoves nodes roomy (newCluster nodes) reuseScript) as [c0|] eqn:H0; [|discriminate Hc].
  unfold staleRun in Hc. apply andb_prop in Hc as [[Ht Hp]%andb_prop Hc]. apply bool_decide_eq_true in Ht.
  destruct (runMoves nodes roomy c0 staleScript) as [c1|] eqn:H1; [|discriminate Hc].
  apply andb_prop in Hc as [Hlen Hlast]. apply Nat.ltb_lt in Hlen.
  apply (runMoves_roomy (newCluster nodes)) in H0. apply (runMoves_roomy c0) in H1.
  destruct (termsAt_sent 3 3 c0) as (x & Hx & Hix & _); [rewrite Ht; apply list_elem_of_here|].
  destruct (replicates_sent _ _ _ _ H1) as [more Hmore].
  exists c0, c1, x, more, 2. split_and!; [exact H0|exact Hx| |exact H1|exact Hmore| |rewrite Hix; reflexivity].
  - intros i r. apply readless_pending. exact Hp.
  - assert (Hne : more <> []).
    { intros ->. rewrite app_nil_r in Hmore. rewrite Hmore in Hlen. lia. }
    destruct (exists_last Hne) as (l & y & ->). rewrite Hmore, app_assoc, last_snoc in Hlast.
    destruct y as [| | | | | | | | | | | | | | | | | | | |read k|]; try discriminate Hlast.
    apply andb_prop in Hlast as [->%N.eqb_eq ->%N.eqb_eq]. apply elem_of_app. right. apply list_elem_of_here.
Qed.
