(* ===== verification/WalStore.v ===== *)
(** The write-ahead log implements the store contract of the runtime.

    [settled] is read off the bytes: whatever is left of the directory when the
    process dies, replaying it yields the given hard state.  A restart is the death of the
    process, alone or with the power, followed by [Open] and the conversion of [openRaftRuntime]. *)

From S2P Require Import Prelude Bytes Wal WalRecovery WalOps RaftTypes RaftCore RaftElection Runtime Durability.

(** The core's view of a WAL hard state. *)
Definition ofHard (h : Wal.HardState) : HardState :=
  mkHardState (Wal.hs_Term h) (Wal.hs_VotedFor h).

(** A record that concerns neither the hard state nor the identity. *)
Definition quiet `{CheckpointCodec} (r : rec) : Prop :=
  ordinary r /\ forall st st', applyRec r st = Ok st' ->
    Wal.rs_HardState st' = Wal.rs_HardState st /\ rs_Identity st' = rs_Identity st.

(** At least the first [m] records survive, and whatever survives replays to [h]. *)
Record keeps `{CheckpointCodec} (w : WAL) (rss : list (list rec)) (m : nat) (P : HardState -> Prop)
    : Prop := {
  kp_layout : layout w rss m;
  kp_synced : (m <= length (concat rss))%nat;
  kp_replay i st : (m <= i)%nat -> recoverRecords (take i (concat rss)) = Ok st ->
    P (ofHard (Wal.rs_HardState st)) }.

Definition walSettled `{CheckpointCodec} (w : WAL) (h : HardState) : Prop :=
  exists rss m, keeps w rss m (eq h).

(** The death of the process, [Open], and the conversion to the core's recovered state. *)
Definition walReopens `{CheckpointCodec} (w : WAL) (r : RecoveredState) (w' : WAL) : Prop :=
  exists files' recovered snapshot,
    dies (w_directory w) files' /\ Open (w_identity w) files' = Ok (w', recovered) /\
    recoveredState recovered snapshot = Some r.

(** The write loop of [SaveLogEntries]. *)
Definition writeEntries (entries : list Wal.LogEntry) : WM unit :=
  efor (fun entry =>
    let payload := encodeLogEntry entry in
    do+ appendRecord recordLogEntryV3 payload in
    emodify (fun w => w <| w_entryBytes :=
      <[Wal.Index entry := frameHeaderSize + 1 + len payload]> (w_entryBytes w) |>)) entries.

(** Where a process may die inside an operation: records written, not yet
    synced.  What is left of them is the choice of [dies]. *)
Definition walPartial (a : Action) (w w' : WAL) : Prop :=
  match a with
  | PersistHardState _ t v =>
      w' = snd (appendRecord recordHardState (encodeHardState (Wal.mkHardState t v)) w)
  | PersistLogEntries _ truncateFrom entries =>
      (truncateFrom <> 0 /\ w' = snd (appendRecord recordLogTruncation (be_put 8 truncateFrom) w)) \/
      exists i, w' = snd ((do+ (if negb (truncateFrom =? 0) then TruncateLog truncateFrom else eret tt) in
                           writeEntries (take i (map toWal entries))) w)
  | PersistCommitIndex _ index =>
      w' = snd (appendRecord recordCommitIndex (be_put 8 index) w)
  | _ => False
  end.

Section Store.
Context `{CheckpointCodec}.

(** ** Records *)

Lemma quiet_entry payload : quiet (recordLogEntryV3, payload).
Proof.
  split; [done|]. intros st st'. unfold applyRec, recordLogEntryV3. cbn [fst snd applyRecord].
  destruct (decodeLogEntry payload) as [e|]; [|done]. cbn [rbind]. unfold recoverEntry, guard.
  repeat case_match; by intros [= <-].
Qed.

Lemma quiet_truncation payload : quiet (recordLogTruncation, payload).
Proof.
  split; [done|]. intros st st'. unfold applyRec, recordLogTruncation. cbn [fst snd applyRecord].
  unfold guard, rbind. repeat case_match; try done. by intros [= <-].
Qed.

Lemma quiet_commit payload : quiet (recordCommitIndex, payload).
Proof.
  split; [done|]. intros st st'. unfold applyRec, recordCommitIndex. cbn [fst snd applyRecord].
  unfold guard, rbind. repeat case_match; try done; by intros [= <-].
Qed.

(** Replaying one more ordinary record replays the ones before it first. *)
Lemma recoverRecords_snoc rs (r : rec) st :
  ordinary r ->
  (forall st0 st1, applyRec r st0 = Ok st1 -> rs_Identity st1 = rs_Identity st0) ->
  recoverRecords (rs ++ [r]) = Ok st ->
  exists st0, recoverRecords rs = Ok st0 /\ applyRec r st0 = Ok st.
Proof.
  intros Hord Hid. unfold recoverRecords. rewrite rfold_app.
  destruct (rfold _ rs zeroCheckpoint) as [c|]; [|done]. cbn [rbind].
  rewrite visit_ordinary by (by apply Forall_singleton). cbn [rbind]. rewrite rfold_app.
  destruct (rfold applyRec rs _) as [st0|]; [|done]. cbn [rbind rfold].
  destruct (applyRec r st0) as [st1|] eqn:E; [|done]. cbn [rbind]. rewrite <- (Hid _ _ E).
  destruct (_ || _); [done|]. cbn. intros [= <-]. by exists st0.
Qed.

Lemma apply_hard_inv st hs st' :
  Wal.hs_Term hs < two64 -> hard_le (Wal.rs_HardState st) hs ->
  applyRec (hardRec hs) st = Ok st' -> Wal.rs_HardState st' = hs /\ rs_Identity st' = rs_Identity st.
Proof.
  intros Ht Hle E. destruct (decide (Wal.NodeID (rs_Identity st) = "")) as [Hid|Hid].
  - unfold applyRec, hardRec, recordHardState in E. cbn [fst snd applyRecord] in E.
    by rewrite bool_decide_true in E.
  - rewrite apply_hard in E by done. by injection E as <-.
Qed.

(** ** Keeping a hard state *)

Lemma layout_ext w w' rss m :
  w_open w' = w_open w -> w_directory w' = w_directory w -> w_segment w' = w_segment w ->
  w_offset w' = w_offset w -> layout w rss m -> layout w' rss m.
Proof. intros Ho Hd Hs Hf []. by split; rewrite ?Ho, ?Hd, ?Hs, ?Hf. Qed.

Lemma layout_le w rss m m' : (m' <= m)%nat -> layout w rss m -> layout w rss m'.
Proof.
  intros Hle [? ? (init & file & rinit & rs & j & ?)]. destruct_and!. split; [done..|].
  exists init, file, rinit, rs, j. split_and!; try done. lia.
Qed.

Lemma settled_ext w w' h :
  w_open w' = w_open w -> w_directory w' = w_directory w -> w_segment w' = w_segment w ->
  w_offset w' = w_offset w -> walSettled w h -> walSettled w' h.
Proof.
  intros ???? (rss & m & [Hl Hm Hr]). exists rss, m. split; try done. by eapply layout_ext.
Qed.

Lemma settled_sync w h : walSettled w h -> walSettled (snd (sync w)) h.
Proof.
  intros (rss & m & [Hl Hm Hr]). destruct (sync_layout w rss m Hl) as (w' & E & Hl' & _).
  rewrite E. exists rss, (length (concat rss)). split; [done..|]. intros i st Hi. apply Hr. lia.
Qed.

(** An appended record either changes nothing or is the last one. *)
Lemma append_keeps w rss m (r : rec) :
  layout w rss m -> (m <= length (concat rss))%nat ->
  (exists e, appendRecord r.1 r.2 w = (Err e, w)) \/
  (exists w' rss', appendRecord r.1 r.2 w = (Ok tt, w') /\ layout w' rss' m /\
     concat rss' = concat rss ++ [r]).
Proof.
  intros Hl Hm. destruct (N.lt_ge_cases maxRecordSize (len (bodyOf r))) as [Hbig|Hfit].
  - left. unfold appendRecord. change (r.1 :: r.2) with (bodyOf r).
    rewrite (proj2 (N.ltb_lt _ _)) by done. by eexists.
  - right. destruct (appendRecord_layout w rss m r) as (w' & rss' & ? & ? & ? & _); eauto.
Qed.

Lemma take_snoc {A} i (l : list A) x :
  take i (l ++ [x]) = take i l \/ take i (l ++ [x]) = l ++ [x].
Proof.
  destruct (Nat.le_gt_cases i (length l)) as [Hi|Hi].
  - left. by rewrite take_app_le.
  - right. rewrite take_ge; [done|]. rewrite length_app. cbn. lia.
Qed.

Lemma settled_append w h (r : rec) : quiet r -> walSettled w h -> walSettled (snd (appendRecord r.1 r.2 w)) h.
Proof.
  intros [Hord Hq] (rss & m & Hk). pose proof Hk as [Hl Hm Hr].
  destruct (append_keeps w rss m r Hl Hm) as [[e ->]|(w' & rss' & -> & Hl' & Hcat)];
    [by exists rss, m|].
  exists rss', m. split; [done|rewrite Hcat, length_app; lia|]. intros i st Hi. rewrite Hcat.
  destruct (take_snoc i (concat rss) r) as [->| ->]; [by apply Hr|].
  intros Hrec. destruct (recoverRecords_snoc _ _ _ Hord (fun a b E => proj2 (Hq a b E)) Hrec) as (st0 & Hrec0 & Ha).
  rewrite (proj1 (Hq _ _ Ha)). apply (Hr (length (concat rss)) st0 Hm). by rewrite firstn_all.
Qed.

Lemma apply_hard_identity payload st st' :
  applyRec (recordHardState, payload) st = Ok st' -> rs_Identity st' = rs_Identity st.
Proof.
  unfold applyRec, recordHardState. cbn [fst snd applyRecord]. unfold guard, rbind.
  repeat case_match; try done; by intros [= <-].
Qed.

(** A hard-state record moves the log to the old or the new hard state, and to
    the new one once it is synced. *)
Lemma append_hard w h t v :
  walSettled w h -> t < two64 -> hard_follows h (mkHardState t v) ->
  (exists e, appendRecord recordHardState (encodeHardState (Wal.mkHardState t v)) w = (Err e, w)) \/
  exists w' rss m, appendRecord recordHardState (encodeHardState (Wal.mkHardState t v)) w = (Ok tt, w') /\
    keeps w' rss m (fun h' => h' = h \/ h' = mkHardState t v) /\
    forall st, recoverRecords (concat rss) = Ok st -> ofHard (Wal.rs_HardState st) = mkHardState t v.
Proof.
  intros (rss & m & [Hl Hm Hr]) Ht Hfol.
  destruct (append_keeps w rss m (hardRec (Wal.mkHardState t v)) Hl Hm)
    as [?|(w' & rss' & Hap & Hl' & Hcat)]; [by left|right].
  assert (Hnew : forall st, recoverRecords (concat rss') = Ok st ->
    ofHard (Wal.rs_HardState st) = mkHardState t v).
  { intros st Hrec. rewrite Hcat in Hrec.
    apply recoverRecords_snoc in Hrec as (st0 & Hrec0 & Ha); [|done|apply apply_hard_identity].
    assert (Hh : h = ofHard (Wal.rs_HardState st0)).
    { apply (Hr (length (concat rss))); [done|]. by rewrite firstn_all. }
    apply apply_hard_inv in Ha as [-> _]; [done|done|].
    rewrite Hh in Hfol. destruct (Wal.rs_HardState st0) as [t0 v0].
    unfold hard_follows, hard_le, ofHard in *. cbn in *.
    destruct Hfol as [?|[?|[= -> ->]]]; auto. }
  exists w', rss', m. split_and!; try done. split; [done|rewrite Hcat, length_app; lia|].
  intros i st Hi. rewrite Hcat. destruct (take_snoc i (concat rss) (hardRec (Wal.mkHardState t v))) as [->| ->].
  - intros Hrec. left. symmetry. by apply (Hr i).
  - rewrite <- Hcat. intros Hrec. right. by apply Hnew.
Qed.

(** ** Restarting *)

(** A restart reads back a prefix of the records that contains the secured ones, and
    continues from a log in which these are secured. *)
Lemma reopen_layout w rss m r w' :
  layout w rss m -> walReopens w r w' ->
  exists i st rss', (m <= i)%nat /\ recoverRecords (take i (concat rss)) = Ok st /\
    rs_HardState r = ofHard (Wal.rs_HardState st) /\
    concat rss' = take i (concat rss) /\ layout w' rss' (length (concat rss')).
Proof.
  intros Hl (files' & recovered & snapshot & Hcrash & Ho & Hconv).
  destruct (dies_layout _ _ _ _ Hl Hcrash)
    as (init & file & -> & Hsort & [[Hshort _]|(rss' & t & i & Hh & Ht & Hi & Hcut)]).
  { by destruct (short_open _ _ _ _ _ Hsort Hshort Ho). }
  apply (open_holds_inv init file rss' t) in Ho as [Hrec Hl']; try done.
  exists i, recovered, rss'. rewrite <- Hcut. split_and!; try done.
  unfold recoveredState in Hconv. destruct (convertEntries _); [|done].
  destruct (default _ _). by injection Hconv as <-.
Qed.

Lemma keeps_leaves w rss m P :
  keeps w rss m P -> leaves_with walReopens walSettled w P.
Proof.
  intros [Hl Hm Hr] r w' Hre.
  destruct (reopen_layout _ _ _ _ _ Hl Hre) as (i & st & rss' & Hi & Hrec & Hh & Hcut & Hl').
  rewrite Hh. split; [by apply (Hr i)|].
  exists rss', (length (concat rss')). split; [done..|]. intros k st' Hk.
  rewrite take_ge, Hcut, Hrec by done. by intros [= <-].
Qed.

(** ** The operations *)

Lemma settled_open w h : walSettled w h -> w_open w = true.
Proof. intros (rss & m & [[] _ _]). done. Qed.

(** Appending a quiet record and syncing, as the log operations do. *)
Lemma append_sync_settled (r : rec) (k : unit -> WM unit) w h res w' :
  quiet r -> walSettled w h ->
  (forall w1 res1 w2, walSettled w1 h -> k tt w1 = (res1, w2) -> walSettled w2 h) ->
  ebind (appendRecord r.1 r.2) (fun _ => ebind sync k) w = (res, w') -> walSettled w' h.
Proof.
  intros Hq Hw Hk. pose proof (settled_append w h r Hq Hw) as Ha.
  unfold ebind. destruct (appendRecord r.1 r.2 w) as [[[]|e] w1]; cbn in Ha; [|by intros [= <- <-]].
  pose proof (settled_sync w1 h Ha) as Hs. destruct (sync w1) as [[[]|e] w2]; cbn in Hs;
    [by apply Hk|by intros [= <- <-]].
Qed.

Lemma truncateLog_settled w h first res w' :
  walSettled w h -> TruncateLog first w = (res, w') -> walSettled w' h.
Proof.
  intros Hw. unfold TruncateLog. rewrite (ebind_ok _ _ _ w w) by done.
  rewrite (settled_open w h Hw). cbn [negb].
  destruct (_ || _); [by intros [= <- <-]|]. destruct (first <=? _); [by intros [= <- <-]|].
  apply (append_sync_settled (recordLogTruncation, be_put 8 first)); [apply quiet_truncation|done|].
  intros w1 res1 w2 H1. cbn. intros [= <- <-]. by apply (settled_ext w1).
Qed.

Lemma saveCommit_settled w h index res w' :
  walSettled w h -> SaveCommitIndex index w = (res, w') -> walSettled w' h.
Proof.
  intros Hw. unfold SaveCommitIndex. rewrite (ebind_ok _ _ _ w w) by done.
  rewrite (settled_open w h Hw). cbn [negb].
  destruct (index <? _); [by intros [= <- <-]|]. destruct (_ <? index); [by intros [= <- <-]|].
  destruct (index =? _); [by intros [= <- <-]|].
  apply (append_sync_settled (recordCommitIndex, be_put 8 index)); [apply quiet_commit|done|].
  intros w1 res1 w2 H1. cbn. intros [= <- <-]. by apply (settled_ext w1).
Qed.

Lemma writeEntries_settled w h entries :
  walSettled w h -> walSettled (snd (writeEntries entries w)) h.
Proof.
  revert w. induction entries as [|e entries IH]; intros w Hw; [done|].
  unfold writeEntries. cbn [efor]. fold (writeEntries entries).
  pose proof (settled_append w h (recordLogEntryV3, encodeLogEntry e) (quiet_entry _) Hw) as Ha.
  unfold ebind at 1. cbv zeta. unfold ebind at 1. cbn [fst snd] in Ha.
  destruct (appendRecord _ _ w) as [[[]|x] w1]; [|done]. cbn [snd] in *. cbn [emodify].
  apply IH. by apply (settled_ext w1).
Qed.

Lemma saveEntries_settles w h entries res w' :
  walSettled w h -> SaveLogEntries entries w = (res, w') -> walSettled w' h.
Proof.
  intros Hw. unfold SaveLogEntries. rewrite (ebind_ok _ _ _ w w) by done.
  rewrite (settled_open w h Hw). cbn [negb].
  destruct (len entries =? 0); [by intros [= <- <-]|]. unfold ebind at 1, elift.
  destruct (checkEntryIndexes _ _ _) as [[]|x]; [|by intros [= <- <-]].
  fold (writeEntries entries). pose proof (writeEntries_settled w h entries Hw) as Hw1.
  unfold ebind. destruct (writeEntries entries w) as [[[]|x] w1]; [|by intros [= <- <-]].
  pose proof (settled_sync w1 h Hw1) as Hw2. destruct (sync w1) as [[[]|x] w2]; [|by intros [= <- <-]].
  intros [= <- <-]. by apply (settled_ext w2).
Qed.

Lemma saveHard_settles w h t v w' :
  walSettled w h -> t < two64 -> hard_follows h (mkHardState t v) ->
  SaveHardState (Wal.mkHardState t v) w = (Ok tt, w') -> walSettled w' (mkHardState t v).
Proof.
  intros Hw Ht Hfol. unfold SaveHardState. rewrite (ebind_ok _ _ _ w w) by done.
  rewrite (settled_open w h Hw). cbn [negb]. unfold ebind.
  destruct (append_hard w h t v Hw Ht Hfol) as [[x ->]|(w1 & rss & m & -> & [Hl Hm _] & Hnew)]; [done|].
  destruct (sync_layout w1 rss m Hl) as (w2 & -> & Hl2 & _). cbn. intros [= <-].
  exists rss, (length (concat rss)). split; [by apply (layout_ext w2)|done|].
  intros i st Hi. rewrite take_ge by done. intros Hrec. symmetry. by apply Hnew.
Qed.

Lemma saveHard_fails w h t v e w' :
  walSettled w h -> t < two64 -> hard_follows h (mkHardState t v) ->
  SaveHardState (Wal.mkHardState t v) w = (Err e, w') -> w' = w.
Proof.
  intros Hw Ht Hfol. unfold SaveHardState. rewrite (ebind_ok _ _ _ w w) by done.
  rewrite (settled_open w h Hw). cbn [negb]. unfold ebind.
  destruct (append_hard w h t v Hw Ht Hfol) as [[x ->]|(w1 & rss & m & -> & [Hl Hm _] & Hnew)];
    [by intros [= _ <-]|].
  by destruct (sync_layout w1 rss m Hl) as (w2 & -> & _).
Qed.

Lemma settled_keeps w h : walSettled w h -> leaves_with walReopens walSettled w (eq h).
Proof. intros (rss & m & Hk). by eapply keeps_leaves. Qed.

Lemma partial_hard_leaves w h t v :
  walSettled w h -> t < two64 -> hard_follows h (mkHardState t v) ->
  leaves_with walReopens walSettled
    (snd (appendRecord recordHardState (encodeHardState (Wal.mkHardState t v)) w))
    (fun h' => h' = h \/ h' = mkHardState t v).
Proof.
  intros Hw Ht Hfol.
  destruct (append_hard w h t v Hw Ht Hfol) as [[x ->]|(w1 & rss & m & -> & Hk & _)]; cbn [snd].
  - intros r s' Hr. destruct (settled_keeps w h Hw r s' Hr) as [<- ?]. auto.
  - by eapply keeps_leaves.
Qed.

Lemma partial_log_settled a w h w' :
  walSettled w h -> match a with PersistHardState _ _ _ => False | _ => True end ->
  walPartial a w w' -> walSettled w' h.
Proof.
  intros Hw Ha. destruct a; try done; cbn [walPartial].
  - intros [[_ ->]|[i ->]].
    + apply (settled_append w h (recordLogTruncation, _)); [apply quiet_truncation|done].
    + unfold ebind. destruct (negb _).
      * destruct (TruncateLog TruncateFrom w) as [[[]|x] w1] eqn:Et;
          apply (truncateLog_settled w h) in Et; try done. by apply writeEntries_settled.
      * by apply writeEntries_settled.
  - intros ->. apply (settled_append w h (recordCommitIndex, _)); [apply quiet_commit|done].
Qed.

(** The log satisfies the contract. *)
#[export] Program Instance walLaws : DurableLaws WAL Error := {|
  settled := walSettled; reopens := walReopens; partial := walPartial |}.
Next Obligation. intros w h Hw. by apply settled_keeps. Qed.
Next Obligation. intros w h t v w' Hw Ht Hf Hs. by eapply saveHard_settles. Qed.
Next Obligation.
  intros w h t v e w' Hw Ht Hf Hs. apply (saveHard_fails w h) in Hs as ->; try done.
  intros r s' Hr. destruct (settled_keeps w h Hw r s' Hr) as [<- ?]. auto.
Qed.
Next Obligation. intros w h first res w' Hw Hs. by eapply truncateLog_settled. Qed.
Next Obligation. intros w h entries res w' Hw Hs. by apply (saveEntries_settles w h (map toWal entries) res). Qed.
Next Obligation. intros w h index res w' Hw Hs. by eapply saveCommit_settled. Qed.
Next Obligation. intros w h id t v w' Hw Ht Hf ->. by apply partial_hard_leaves. Qed.
Next Obligation. intros w h a w' Hw Ha Hp. by eapply partial_log_settled. Qed.

(** A log that stands for a recovered state is settled on its hard state. *)
Lemma wal_inv_settled w st : wal_inv w st -> walSettled w (ofHard (Wal.rs_HardState st)).
Proof.
  intros Hinv. destruct (wi_disk w st Hinv) as (rss & Hl & Hrec).
  exists rss, (length (concat rss)). split; [done..|]. intros i st' Hi.
  rewrite take_ge, Hrec by done. by intros [= <-].
Qed.

End Store.
