(* ===== verification/WalLogStore.v ===== *)
(** The write-ahead log keeps the whole disk.

    The instance of [LogStore] for the write-ahead log: a save that returns has
    changed what a restart reads back the way the action says, and a process that dies
    inside one leaves the disk before it, the disk after it, or a batch cut short. *)

From S2P Require Import Prelude Bytes Wal WalRecovery WalOps WalSpec RaftTypes RaftCore RaftInvariant RaftElection Runtime RuntimeActions Durability Replication LogStore WalStore.

Section WalLog.
Context `{CheckpointCodec}.

(** ** What a log stands for *)

Definition stands (st : Wal.RecoveredState) (d : disk) : Prop :=
  Wal.rs_SnapshotIndex st = 0 /\ Wal.rs_HardState st = Wal.mkHardState (dk_term d) (dk_vote d) /\
  Wal.rs_Log st = map toWal (dk_log d) /\ Wal.rs_CommitIndex st = N.of_nat (dk_commit d).

Definition walHolds (w : WAL) (d : disk) : Prop :=
  exists st, wal_inv w st /\ state_wf st /\ stands st d.

Definition walStorable (e : LogEntry) : Prop := entry_wf (toWal e).

Definition walNameable (v : NodeID) : Prop := 9 + N.of_nat (String.length v) <= maxRecordSize.

Lemma ofWal_toWal e : ofWal (toWal e) = Some e.
Proof. by destruct e as [? ? [] ? ? ? ?]. Qed.

Lemma convertEntries_toWal l : convertEntries (map toWal l) = Some l.
Proof. induction l as [|e l IH]; [done|]. cbn [map convertEntries]. by rewrite ofWal_toWal, IH. Qed.

Lemma numbered_toWal first l : numbered Wal.Index first (map toWal l) <-> numbered Index first l.
Proof. revert first. induction l as [|e l IH]; intros first; cbn; [done|]. by rewrite IH. Qed.

Lemma recovered_disk st d snapshot r :
  state_wf st -> stands st d -> recoveredState st snapshot = Some r -> unsnapshotted r -> diskOf r = d.
Proof.
  intros Hwf (Hs & Hh & Hl & Hc). pose proof (sw_numbered st Hwf) as Hn.
  rewrite Hl, Hs, numbered_toWal in Hn. unfold recoveredState. rewrite Hl, convertEntries_toWal, Hh, Hc.
  destruct d as [t v l c]. destruct snapshot as [[i t']|]; cbn in *; intros [= <-] [Hi Ht]; cbn in *.
  - subst i. rewrite (coveredPrefix_numbered l 0) by done. rewrite N.sub_0_r, N.min_0_r.
    unfold diskOf. cbn. by rewrite Nat2N.id.
  - unfold diskOf. cbn. by rewrite Nat2N.id.
Qed.

(** ** Operations *)

Lemma runs_op w st op st1 :
  wal_inv w st -> state_wf st -> op_ok op st -> specOp op st = Ok st1 ->
  exists w1, runOp op w = (Ok tt, w1) /\ wal_inv w1 st1 /\ state_wf st1.
Proof.
  intros Hinv Hwf Hok Hs. pose proof (runOp_refines w st op Hinv Hok) as Hr. rewrite Hs in Hr.
  destruct Hr as (w1 & ? & ?). exists w1. split_and!; try done. by apply (specOp_wf op st).
Qed.

(** What an action of the core asks of the log. *)
Definition truncation (truncateFrom : N) (st st1 : Wal.RecoveredState) : Prop :=
  if truncateFrom =? 0 then st1 = st else specOp (OpTruncate truncateFrom) st = Ok st1.

Lemma truncates st d f :
  stands st d -> f = 0 \/ (N.of_nat (dk_commit d) < f <= len (dk_log d)) ->
  exists st1, truncation f st st1 /\
    stands st1 (mkDisk (dk_term d) (dk_vote d) (cut f (dk_log d)) (dk_commit d)).
Proof.
  intros Hst Hf. pose proof Hst as (Hs & Hh & Hl & Hc). unfold truncation, cut.
  destruct (N.eqb_spec f 0) as [->|Hf0].
  { exists st. split; [done|]. by destruct d. }
  destruct Hf as [?|Hf]; [done|]. cbn [specOp]. unfold lastIndex. rewrite Hs, Hl, Hc, len_map.
  rewrite (proj2 (N.eqb_neq _ _)), (proj2 (N.ltb_ge _ _)), (proj2 (N.leb_gt _ _)) by lia.
  eexists. split; [done|]. split_and!; try done. cbn. by rewrite firstn_map, N.sub_0_r.
Qed.

Lemma appends st d es :
  stands st d -> es <> [] -> numbered Index (len (dk_log d) + 1) es -> Forall walStorable es ->
  len (dk_log d) + len es + 1 < two64 ->
  op_ok (OpLogEntries (map toWal es)) st /\
  specOp (OpLogEntries (map toWal es)) st = Ok (st <| Wal.rs_Log := Wal.rs_Log st ++ map toWal es |>).
Proof.
  intros (Hs & Hh & Hl & Hc) Hne Hn Hall Hb. cbn [op_ok specOp]. unfold lastIndex.
  rewrite Hs, Hl, !len_map, !N.add_0_l. split; [by rewrite Forall_map|].
  apply numbered_toWal, misplaced_numbered in Hn. destruct es as [|e es]; [done|].
  cbn [map] in *. by rewrite Hn.
Qed.

Lemma stands_appended st d es :
  stands st d -> stands (st <| Wal.rs_Log := Wal.rs_Log st ++ map toWal es |>)
                   (mkDisk (dk_term d) (dk_vote d) (dk_log d ++ es) (dk_commit d)).
Proof. intros (? & ? & Hl & ?). split_and!; try done. cbn. by rewrite Hl, map_app. Qed.

Lemma commits st d index :
  stands st d -> N.of_nat (dk_commit d) <= index <= len (dk_log d) ->
  specOp (OpCommit index) st = Ok (st <| Wal.rs_CommitIndex := index |>) /\
  stands (st <| Wal.rs_CommitIndex := index |>) (mkDisk (dk_term d) (dk_vote d) (dk_log d) (N.to_nat index)).
Proof.
  intros (Hs & Hh & Hl & Hc) Hi. cbn [specOp]. unfold lastIndex. rewrite Hs, Hl, Hc, len_map.
  rewrite !(proj2 (N.ltb_ge _ _)) by lia. split; [done|]. split_and!; try done. cbn. lia.
Qed.

Lemma hardens st d t v :
  stands st d -> t < two64 -> walNameable v -> hard_follows (hardOfDisk d) (mkHardState t v) ->
  op_ok (OpHardState (Wal.mkHardState t v)) st.
Proof.
  intros (_ & Hh & _) Ht Hv Hf. split_and!; try done. rewrite Hh.
  unfold hard_le, hard_follows, hardOfDisk in *. cbn in *. destruct Hf as [?|[?|[= -> ->]]]; auto.
Qed.

(** Every request of the runtime succeeds. *)
Lemma saves a w d :
  walHolds w d -> valid walStorable walNameable a d ->
  exists w', perform a w = (Ok tt, w') /\ walHolds w' (effect a d).
Proof.
  intros (st & Hinv & Hwf & Hst) Hv. destruct a; try (by exists w; split; [|exists st]); cbn [perform effect].
  - destruct Hv as (Ht & Hn & Hf).
    destruct (runs_op w st _ _ Hinv Hwf (hardens st d _ _ Hst Ht Hn Hf) eq_refl) as (w1 & Hr & Hi & Hw).
    exists w1. split; [done|]. eexists. split_and!; try done; by destruct Hst as (? & ? & ? & ?).
  - destruct Hv as (Hne & Hnum & Hall & Hb & Htr).
    destruct (truncates st d TruncateFrom Hst Htr) as (st1 & Hs1 & Hst1).
    assert (exists w1, (if negb (TruncateFrom =? 0) then truncateEntries TruncateFrom else eret tt) w
      = (Ok tt, w1) /\ wal_inv w1 st1 /\ state_wf st1) as (w1 & Hr1 & Hi1 & Hw1).
    { unfold truncation in Hs1. destruct (TruncateFrom =? 0); [subst st1; by exists w|].
      by apply (runs_op w st (OpTruncate TruncateFrom)). }
    destruct (appends st1 _ Entries Hst1) as [Hok Hs]; [done..|].
    destruct (runs_op w1 st1 _ _ Hi1 Hw1 Hok Hs) as (w2 & Hr2 & Hi2 & Hw2).
    exists w2. unfold saveLog. rewrite (ebind_ok _ _ _ tt w1) by done. split; [done|].
    eexists. split_and!; [done|done|]. by apply (stands_appended st1 _ Entries) in Hst1.
  - destruct (commits st d CommitIndex Hst Hv) as [Hs Hst1].
    destruct (runs_op w st (OpCommit CommitIndex) _ Hinv Hwf I Hs) as (w1 & Hr & Hi & Hw).
    exists w1. split; [done|]. by eexists.
Qed.

(** ** Deaths *)

(** Some records of an operation were written and not synced. *)
Definition written (op : WalOp) (st : Wal.RecoveredState) (w1 : WAL) : Prop :=
  exists rss rss1 k, recoverRecords (concat rss) = Ok st /\ layout w1 rss1 (length (concat rss)) /\
    concat rss1 = concat rss ++ take k (opRecords op) /\ w_identity w1 = rs_Identity st.

Lemma written_remains op st st1 w1 (P : disk -> Prop) :
  written op st w1 -> state_wf st -> op_ok op st -> specOp op st = Ok st1 ->
  (forall st', opPrefix op st st' -> exists d, stands st' d /\ P d) ->
  remains_with walReopens walHolds w1 P.
Proof.
  intros (rss & rss1 & k & Hrec & Hlay & Hcat & Hid) Hwf Hok Hs HP r w' (files & got & snap & Hc & Ho & Hr) Hu.
  assert (Hne : Wal.NodeID (rs_Identity st) <> "").
  { intros E. pose proof (sw_node st Hwf) as Hn. by rewrite E in Hn. }
  destruct (dies_recovers st rss (take k (opRecords op)) w1 rss1 files defaultSegmentSize)
    as [(i & st' & w2 & Ha & Ho' & Hi')|[_ Hno]]; try done; [..|by destruct (Hno _ _ Ho)].
  - apply Forall_take. destruct op; cbn; try (by apply Forall_singleton). by apply Forall_map, Forall_true.
  - intros i. destruct (opPrefix_records op st st1 k i) as (st' & ? & _ & ? & ?); [done..|]. by exists st'.
  - unfold Open in Ho. rewrite Hid, Ho' in Ho. injection Ho as <- <-.
    destruct (opPrefix_records op st st1 k i) as (st2 & Ha2 & Hpre & Hwf2 & _); [done..|].
    rewrite Ha in Ha2. injection Ha2 as <-. destruct (HP st' Hpre) as (d & Hst & Hd).
    rewrite (recovered_disk st' d snap r) by done. split; [done|]. by exists st'.
Qed.

Lemma written_none op w st : wal_inv w st -> written op st w.
Proof.
  intros Hinv. destruct (wi_disk w st Hinv) as (rss & Hl & Hr). exists rss, rss, 0%nat.
  rewrite app_nil_r. split_and!; try done. apply Hinv.
Qed.

Lemma written_one op (r : rec) w st :
  wal_inv w st -> opRecords op = [r] -> fits r -> written op st (snd (appendRecord r.1 r.2 w)).
Proof.
  intros Hinv Hop Hfit. destruct (wi_disk w st Hinv) as (rss & Hl & Hr).
  destruct (appendRecord_layout w rss _ r Hl) as (w1 & rss1 & -> & Hl1 & Hcat & Hm & _); [done..|].
  exists rss, rss1, 1%nat. rewrite Hop. split_and!; try done. cbn [snd].
  destruct Hm as (_ & _ & _ & _ & -> & _). apply Hinv.
Qed.

Lemma written_entries es i w st :
  wal_inv w st -> Forall entry_wf es -> written (OpLogEntries es) st (snd (writeEntries (take i es) w)).
Proof.
  intros Hinv Hall. destruct (wi_disk w st Hinv) as (rss & Hl & Hr).
  destruct (appendEntries_layout w rss _ (take i es) Hl) as (w1 & rss1 & He & Hl1 & Hcat & Hm);
    [done|by apply Forall_take|].
  assert (writeEntries (take i es) w = (Ok tt, w1)) as -> by exact He. exists rss, rss1, i. cbn [opRecords snd]. rewrite firstn_map.
  split_and!; try done. destruct Hm as (_ & _ & _ & _ & -> & _). apply Hinv.
Qed.
(** A process dies inside a save. *)
Lemma partial_log persistID f entries w d w' :
  walHolds w d -> valid walStorable walNameable (PersistLogEntries persistID f entries) d ->
  walPartial (PersistLogEntries persistID f entries) w w' ->
  remains_with walReopens walHolds w' (torn (PersistLogEntries persistID f entries) d).
Proof.
  intros (st & Hinv & Hwf & Hst) (Hne & Hnum & Hall & Hb & Htr) Hp.
  destruct (truncates st d f Hst Htr) as (st1 & Hs1 & Hst1). unfold truncation in Hs1.
  assert (Hcut : torn (PersistLogEntries persistID f entries) d
    (mkDisk (dk_term d) (dk_vote d) (cut f (dk_log d)) (dk_commit d))).
  { right; right. exists 0%nat. by rewrite app_nil_r. }
  destruct Hp as [[Hf ->]|[i ->]].
  - rewrite (proj2 (N.eqb_neq f 0)) in Hs1 by done.
    eapply (written_remains (OpTruncate f) st st1); try done.
    + apply (written_one (OpTruncate f) (truncRec f)); [done..|]. apply fits_small. by rewrite len_be_put.
    + intros st' [->|Heq]; [by exists d; split; [|left]|]. rewrite Hs1 in Heq. injection Heq as <-.
      by eexists.
  - assert (exists w1, (if negb (f =? 0) then TruncateLog f else eret tt) w = (Ok tt, w1) /\
      wal_inv w1 st1 /\ state_wf st1) as (w1 & Hr1 & Hi1 & Hw1).
    { destruct (f =? 0); [subst st1; by exists w|]. by apply (runs_op w st (OpTruncate f)). }
    rewrite (ebind_ok _ _ _ tt w1) by done. destruct (appends st1 _ entries Hst1) as [Hok Hs]; [done..|].
    eapply (written_remains (OpLogEntries (map toWal entries)) st1); [|done..|].
    + apply written_entries; [done|]. by rewrite Forall_map.
    + intros st' [k ->]. rewrite firstn_map. eexists. split; [by apply stands_appended|].
      right; right. by exists k.
Qed.

Lemma partial_save a w d w' :
  walHolds w d -> valid walStorable walNameable a d -> walPartial a w w' ->
  remains_with walReopens walHolds w' (torn a d).
Proof.
  intros Hh Hv Hp. destruct a; try done; [|by eapply partial_log|];
    destruct Hh as (st & Hinv & Hwf & Hst); cbn [walPartial] in Hp; subst w'.
  - destruct Hv as (Ht & Hn & Hf). pose proof (hardens st d _ _ Hst Ht Hn Hf) as Hok.
    eapply (written_remains (OpHardState (Wal.mkHardState Term VotedFor)) st); try done.
    + apply (written_one _ (hardRec (Wal.mkHardState Term VotedFor))); [done..|].
      unfold fits, bodyOf, hardRec, encodeHardState. cbn [fst snd].
      rewrite len_cons, len_app, len_be_put, len_string_bytes. unfold walNameable in Hn. cbn in *. lia.
    + intros st' [->|[= <-]]; [by exists d; split; [|left]|]. eexists. split; [|by right; left].
      by destruct Hst as (? & ? & ? & ?).
  - destruct (commits st d CommitIndex Hst Hv) as [Hs Hst1].
    eapply (written_remains (OpCommit CommitIndex) st); try done.
    + apply (written_one _ (commitRec CommitIndex)); [done..|]. apply fits_small. by rewrite len_be_put.
    + intros st' [->|Heq]; [by exists d; split; [|left]|]. rewrite Hs in Heq. injection Heq as <-.
      eexists. split; [done|by right; left].
Qed.

#[export] Program Instance walLogStore : LogStore WAL Error := {|
  holds := walHolds; storable := walStorable; nameable := walNameable |}.
Next Obligation. by vm_compute. Qed.
Next Obligation. intros index t Hi Ht. by split. Qed.
Next Obligation.
  intros w d (st & Hinv & _ & _ & Hh & _). apply wal_inv_settled in Hinv. by rewrite Hh in Hinv.
Qed.
Next Obligation.
  intros w d (st & Hinv & Hwf & Hst).
  destruct (commits st d (N.of_nat (dk_commit d)) Hst) as [Hs Hst1].
  { pose proof (sw_order st Hwf) as Ho. destruct Hst as (Hs & _ & Hl & Hc).
    rewrite Hs, Hl, Hc, len_map in Ho. lia. }
  eapply (written_remains (OpCommit (N.of_nat (dk_commit d))) st); try done; [by apply written_none|].
  intros st' Hp. exists d. split; [|done]. destruct Hp as [->|Heq]; [done|].
  rewrite Hs in Heq. injection Heq as <-. rewrite Nat2N.id in Hst1. by destruct d.
Qed.
Next Obligation.
  intros w d a w' Hh Hv Hp. destruct (saves a w d Hh Hv) as (w1 & Hp' & ?). rewrite Hp in Hp'.
  by injection Hp' as <-.
Qed.
Next Obligation.
  intros w d a e w' Hh Hv Hp. destruct (saves a w d Hh Hv) as (w1 & Hp' & ?). by rewrite Hp in Hp'.
Qed.
Next Obligation. intros w d a w' Hh Hv Hp. by eapply partial_save. Qed.

End WalLog.
