(* ===== verification/ClusterProps.v ===== *)
(** The guarantees of the durable cluster, with a concrete election run on
    write-ahead logs that exercises them. *)

From S2P Require Import Prelude Bytes Wal WalJson WalRecovery WalOps WalSpec.
From S2P Require Import RaftTypes RaftCore RaftElection Runtime Durability Cluster WalStore.

(** ** An executable scheduler *)

Section Scheduler.
Context {S E : Type} `{DurableLaws S E}.
Variable members : list NodeID.

Definition isBallot (i : NodeID) (response : VoteResponse) (a : Action) : bool :=
  match a with
  | SendVoteResponse to r =>
      bool_decide (to = i) && bool_decide (vr_From r = vr_From response)
      && (vr_Term r =? vr_Term response) && eqb (vr_Granted r) (vr_Granted response)
  | _ => false
  end.

Definition enabledb (c : cluster S) (i : NodeID) (n : Node) (e : Event) : bool :=
  negb (is_completion e) && (term n + 1 <? two64) && (event_term e <? two64) &&
  match e with EvVoteResponse response => existsb (isBallot i response) (sent c) | _ => true end.

(** Presents one event to a running process. *)
Definition deliver (c : cluster S) (x : NodeID * Event) : option (cluster S) :=
  match procs c !! x.1 with
  | Some (Up r) =>
      if enabledb c x.1 (rt_core r) x.2 then
        match step 100 x.2 r with
        | Done emitted r' => Some (mkCluster (<[x.1 := Up r']> (procs c)) (sent c ++ emitted))
        | _ => None
        end
      else None
  | _ => None
  end.

Fixpoint deliverAll (c : cluster S) (xs : list (NodeID * Event)) : option (cluster S) :=
  match xs with
  | [] => Some c
  | x :: xs => match deliver c x with Some c' => deliverAll c' xs | None => None end
  end.

Lemma isBallot_sound i response a : isBallot i response a = true -> a = SendVoteResponse i response.
Proof.
  destruct a; try done. cbn. intros Hb. reflect_bools.
  match goal with H : eqb _ _ = true |- _ => apply eqb_prop in H end.
  destruct Response, response. cbn in *. congruence.
Qed.

Lemma enabledb_sound c i n e : enabledb c i n e = true -> enabled c i n e.
Proof.
  unfold enabledb. intros Hb. reflect_bools. split_and!; try done.
  intros response ->.
  match goal with H : existsb _ _ = true |- _ => apply existsb_exists in H as (a & Ha & Hb) end.
  apply isBallot_sound in Hb as ->. by apply list_elem_of_In.
Qed.

Lemma deliverAll_sound c xs c' : deliverAll c xs = Some c' -> rtc (cluster_step members) c c'.
Proof.
  revert c. induction xs as [|[i e] xs IH]; intros c; cbn [deliverAll]; [by intros [= <-]|].
  destruct (deliver c (i, e)) as [c1|] eqn:Ed; [|done]. intros Hr. eapply rtc_l; [|by apply IH].
  unfold deliver in Ed. cbn [fst snd] in Ed. destruct (procs c !! i) as [[r|s]|] eqn:Ei; try done.
  destruct (enabledb c i (rt_core r) e) eqn:Een; [|done].
  destruct (step 100 e r) as [emitted r'| | |] eqn:Es; try done. injection Ed as <-.
  eapply cs_step; [done|by apply enabledb_sound|done].
Qed.

End Scheduler.

(** ** An election among three Nodes on fresh logs *)

Definition trio : list NodeID := ["n1"; "n2"; "n3"].

(** The directory a first boot leaves behind. *)
Definition freshWal (i : NodeID) : WAL :=
  match Open (mkIdentity "ternion" i) [] with
  | Ok (w, _) => w
  | Err _ => mkWAL [] 0 0 false 0 0 0 (Wal.mkHardState 0 "") (mkIdentity "" "") 0 0 ∅
  end.

Definition trioDown : cluster WAL :=
  mkCluster (list_to_map (map (fun i => (i, Down (freshWal i))) trio)) [].

(** The runtime of a Node that restarts with nothing lost. *)
Definition reopened (i : NodeID) : raftRuntime WAL :=
  match Open (mkIdentity "ternion" i) (w_directory (freshWal i)) with
  | Ok (w, recovered) =>
      match recoveredState recovered None with
      | Some r => openRuntime i (peersOf trio i) r w
      | None => openRuntime i [] (mkRecoveredState (mkHardState 0 "") [] 0 0 0) w
      end
  | Err _ => openRuntime i [] (mkRecoveredState (mkHardState 0 "") [] 0 0 0) (freshWal i)
  end.

Definition trioUp : cluster WAL :=
  mkCluster (<["n3" := Up (reopened "n3")]> (<["n2" := Up (reopened "n2")]>
    (<["n1" := Up (reopened "n1")]> (procs trioDown)))) [].

(** n1 times out, gathers a pre-vote and a vote of n2, and becomes Leader. *)
Definition campaign : list (NodeID * Event) :=
  [("n1", ElectionTimeout);
   ("n1", EvPreVoteResponse (mkPreVoteResponse "n2" 1 0 true));
   ("n2", EvVoteRequest (mkVoteRequest "n1" 1 0 0));
   ("n1", EvVoteResponse (mkVoteResponse "n2" 1 true))].

Lemma trio_cases i : i ∈ trio -> i = "n1" \/ i = "n2" \/ i = "n3".
Proof.
  unfold trio. rewrite !elem_of_cons. intros [->|[->|[->|Hi]]]; auto. by apply not_elem_of_nil in Hi.
Qed.

Lemma trio_nodup : NoDup trio.
Proof. by apply (bool_decide_unpack _). Qed.

Lemma trio_named : "" ∉ trio.
Proof. by apply (bool_decide_unpack _). Qed.

Lemma freshWal_settled i : i ∈ trio -> settled (freshWal i) (mkHardState 0 "").
Proof.
  intros Hi.
  assert (Hw : exists w, Open (mkIdentity "ternion" i) [] = Ok (w, initialState (mkIdentity "ternion" i)) /\
    wal_inv w (initialState (mkIdentity "ternion" i))).
  { destruct (trio_cases i Hi) as [->|[->| ->]]; apply fresh_inv; vm_compute; done. }
  destruct Hw as (w & Ho & Hinv). unfold freshWal. rewrite Ho. by apply (wal_inv_settled _ _ Hinv).
Qed.

Lemma trioDown_initial : initial trio trioDown.
Proof.
  split; [done|]. intros i p Hp. unfold trioDown in Hp. cbn [procs] in Hp.
  apply elem_of_list_to_map_2 in Hp. apply list_elem_of_fmap in Hp as (j & [= -> ->] & Hj).
  split; [done|]. exists (freshWal j). split; [done|].
  by eapply leaves_settled; [by apply freshWal_settled|].
Qed.

Lemma reopen_fresh i :
  i ∈ trio -> exists r w, reopens (freshWal i) r w /\ reopened i = openRuntime i (peersOf trio i) r w.
Proof.
  intros Hi. unfold reopened.
  assert (Hc : exists w recovered, Open (mkIdentity "ternion" i) (w_directory (freshWal i)) = Ok (w, recovered) /\
    dies (w_directory (freshWal i)) (w_directory (freshWal i)) /\
    w_identity (freshWal i) = mkIdentity "ternion" i /\ Wal.rs_Log recovered = []).
  { destruct (trio_cases i Hi) as [->|[->| ->]].
    all: eexists _, _; split; [vm_compute; reflexivity|]; split_and!; [|done..].
    all: left; eexists [], _, 100; split_and!; [vm_compute; reflexivity|vm_compute; done..]. }
  destruct Hc as (w & recovered & Ho & Hcr & Hid & Hlog). rewrite Ho.
  unfold recoveredState. rewrite Hlog. cbn [convertEntries]. eexists _, w. split; [|done].
  exists (w_directory (freshWal i)), recovered, None. split_and!; [done|by rewrite Hid|].
  unfold recoveredState. by rewrite Hlog.
Qed.

(** The term process [i] leads. *)
Definition leadership {S} (i : NodeID) (c : cluster S) : option N :=
  match procs c !! i with
  | Some (Up r) => if bool_decide (role (rt_core r) = Leader) then Some (term (rt_core r)) else None
  | _ => None
  end.

Lemma leadership_leads {S} i (c : cluster S) t : leadership i c = Some t -> leads c i t.
Proof.
  unfold leadership, leads. destruct (procs c !! i) as [[r|s]|] eqn:E; try done.
  case_bool_decide; [|done]. intros [= <-]. by exists r.
Qed.

#[local] Opaque freshWal reopened.

(** The three processes restart. *)
Lemma trio_boots : rtc (cluster_step trio) trioDown trioUp.
Proof.
  destruct (reopen_fresh "n1") as (r1 & w1 & Hr1 & E1); [by repeat constructor|].
  destruct (reopen_fresh "n2") as (r2 & w2 & Hr2 & E2); [by repeat constructor|].
  destruct (reopen_fresh "n3") as (r3 & w3 & Hr3 & E3); [by repeat constructor|].
  unfold trioUp. rewrite E1, E2, E3.
  eapply rtc_l; [apply (cs_restart trio trioDown "n1" (freshWal "n1") r1 w1 false None); [reflexivity|exact Hr1]|].
  eapply rtc_l; [apply (cs_restart trio _ "n2" (freshWal "n2") r2 w2 false None); [reflexivity|exact Hr2]|].
  eapply rtc_l; [apply (cs_restart trio _ "n3" (freshWal "n3") r3 w3 false None); [reflexivity|exact Hr3]|].
  reflexivity.
Qed.

Lemma trio_elects :
  exists c, rtc (cluster_step trio) trioDown c /\ leads c "n1" 1.
Proof.
  assert (Hc : (deliverAll trioUp campaign) ≫= leadership "n1" = Some 1) by (vm_compute; reflexivity).
  destruct (deliverAll trioUp campaign) as [c|] eqn:Hd; [|done]. exists c. split.
  - etransitivity; [exact trio_boots|]. by eapply deliverAll_sound.
  - by apply leadership_leads.
Qed.

(** ** The guarantees *)

(** C6: at most one Node ever leads a term.  For every store that keeps the
    durability contract, in every execution in which messages are lost,
    duplicated, delayed and reordered, and in which processes die at any point,
    even in the middle of a save, and restart, two Leaders of the same term are
    the same Node, no matter how far apart in the execution they led. *)
Theorem election_safety {S E} `{DurableLaws S E} (members : list NodeID)
    (c0 c1 c2 : cluster S) (i j : NodeID) (t : N) :
  NoDup members -> "" ∉ members -> initial members c0 ->
  rtc (cluster_step members) c0 c1 -> rtc (cluster_step members) c1 c2 ->
  leads c1 i t -> leads c2 j t -> i = j.
Proof. intros Hnd Hne. by apply one_leader_per_term. Qed.

Lemma election_safety_witness :
  exists c, rtc (cluster_step trio) trioDown c /\ leads c "n1" 1 /\
    forall c' j, rtc (cluster_step trio) c c' -> leads c' j 1 -> "n1" = j.
Proof.
  destruct trio_elects as (c & Hc & Hl). exists c. split; [exact Hc|]. split; [exact Hl|].
  intros c' j Hc' Hj.
  apply (election_safety trio trioDown c c' "n1" j 1); try done.
  - exact trio_nodup.
  - exact trio_named.
  - exact trioDown_initial.
Defined.

(** C9: a granted vote is never forgotten.  In every execution of a cluster over a store that keeps the
    durability contract, processes dying in the middle of saves included, once a member's response that
    grants a vote has been released, the voter's term has passed the term of the vote, or
    its vote is the one it granted: in memory while it runs, and in whatever any restart from its
    store reads back. *)
Theorem granted_vote_is_durable {S E} `{DurableLaws S E} (members : list NodeID)
    (c0 c1 c2 : cluster S) (candidate : NodeID) response p :
  NoDup members -> "" ∉ members -> initial members c0 ->
  rtc (cluster_step members) c0 c1 -> rtc (cluster_step members) c1 c2 ->
  candidate ∈ members -> SendVoteResponse candidate response ∈ sent c1 -> vr_Granted response = true ->
  procs c2 !! vr_From response = Some p ->
  let kept h := vr_Term response < hs_Term h \/ h = mkHardState (vr_Term response) candidate in
  match p with
  | Up r => kept (hardOf (rt_core r)) /\ leaves_with reopens settled (rt_wal r) kept
  | Down s => leaves_with reopens settled s kept
  end.
Proof.
  intros Hnd Hne Hini H01 H12 Hc Hin Hg Hp kept.
  assert (Hinv1 : cluster_inv members c1) by (eapply reachable_inv; [done|done|by apply initial_inv|done]).
  assert (Hinv2 : cluster_inv members c2) by (by eapply reachable_inv).
  destruct (ci_ballot _ c1 Hinv1 (vr_From response) (vr_Term response) candidate) as [_ Hl]; [by exists response|].
  apply (reachable_locked members Hnd Hne _ _ _ _ _ Hinv1 H12 Hc) in Hl as [Hlock _]; [|done].
  specialize (Hlock p Hp). destruct p as [r|s]; [|exact Hlock]. split; [exact Hlock|].
  destruct (ci_up _ c2 Hinv2 _ r Hp) as [[_ _ Hset] _ _ _]. by eapply leaves_settled.
Qed.

(** n2 has granted its vote and the cluster goes on. *)
Lemma trio_votes :
  exists c r, rtc (cluster_step trio) trioDown c /\ procs c !! "n2" = Some (Up r) /\
    SendVoteResponse "n1" (mkVoteResponse "n2" 1 true) ∈ sent c.
Proof.
  assert (Hc : match deliverAll trioUp campaign with
    | Some c => existsb (isBallot "n1" (mkVoteResponse "n2" 1 true)) (sent c) &&
                match procs c !! "n2" with Some (Up _) => true | _ => false end
    | None => false end = true) by (vm_compute; reflexivity).
  destruct (deliverAll trioUp campaign) as [c|] eqn:Hd; [|discriminate Hc]. apply andb_true_iff in Hc as [Hb Hp].
  apply existsb_exists in Hb as (a & Ha & Hb). apply isBallot_sound in Hb as ->.
  destruct (procs c !! "n2") as [[r|]|] eqn:E; try discriminate Hp. exists c, r.
  split; [etransitivity; [exact trio_boots|by eapply deliverAll_sound]|]. split; [done|by apply list_elem_of_In].
Qed.

Lemma granted_vote_is_durable_witness :
  exists c r, rtc (cluster_step trio) trioDown c /\ procs c !! "n2" = Some (Up r) /\
    leaves_with reopens settled (rt_wal r) (fun h => 1 < hs_Term h \/ h = mkHardState 1 "n1").
Proof.
  destruct trio_votes as (c & r & Hc & Hr & Hin). exists c, r. split; [exact Hc|]. split; [exact Hr|].
  apply (granted_vote_is_durable trio trioDown c c "n1" (mkVoteResponse "n2" 1 true) (Up r) trio_nodup trio_named
    trioDown_initial Hc (rtc_refl _ _)); [by repeat constructor|exact Hin|reflexivity|exact Hr].
Defined.
