(* ===== verification/Linearizability.v ===== *)
(** The client-side history and the checker of
    [internal/linearizability/linearizability.go].

    [Check] searches the linearizations of a history.  [explains] is what the search finds, in the
    checker's own terms; [linearizes] is linearizability, with the data contract given by rules.  Times are
    numbers; zero is Go's zero [time.Time]. *)

From S2P Require Import Prelude RaftTypes.

(** ** Histories *)

Inductive Kind := KSet | KGet | KDelete.

Record Outcome := mkOutcome {
  oc_Value : list byte; oc_Found : bool; oc_Existed : bool; oc_Error : string }.

Record Operation := mkOperation {
  op_Kind : Kind; op_Session : list byte; op_Sequence : N; op_Key : string;
  op_Value : list byte; op_Invoke : N; op_Complete : N; op_Outcome : Outcome }.

#[export] Instance eta_operation : Eta Operation :=
  fun o => mkOperation (op_Kind o) (op_Session o) (op_Sequence o) (op_Key o) (op_Value o)
             (op_Invoke o) (op_Complete o) (op_Outcome o).

Definition zeroOutcome : Outcome := mkOutcome [] false false "".

(** [History.Start]: records the invocation; the returned index stands for the
    completion closure. *)
Definition Start (kind : Kind) (session : list byte) (sequence : N) (key : string)
    (value : list byte) (now : N) (h : list Operation) : nat * list Operation :=
  (length h, h ++ [mkOperation kind session sequence key value now 0 zeroOutcome]).

(** The completion closure. *)
Definition Finish (index : nat) (outcome : Outcome) (now : N) (h : list Operation) : list Operation :=
  match h !! index with
  | None => h
  | Some op =>
      if negb (op_Complete op =? 0) then h
      else <[index := op <| op_Complete := now |> <| op_Outcome := outcome |>]> h
  end.

(** ** The sequential model *)

Record modelSession := mkModelSession { ms_last : N; ms_result : Outcome }.

Record model := mkModel {
  md_values : gmap string (list byte); md_sessions : gmap (list byte) modelSession }.

Definition newModel : model := mkModel ∅ ∅.

Definition errorOutcome (e : string) : Outcome := mkOutcome [] false false e.

(** The part of [model.apply] that performs a mutation, on a clone: the outcome and the changed clone. *)
Definition mutateOp (m : model) (op : Operation) : Outcome * model :=
  let '(result, values) :=
    match op_Kind op with
    | KSet => (zeroOutcome, <[op_Key op := op_Value op]> (md_values m))
    | _ => (mkOutcome [] false (bool_decide (is_Some (md_values m !! op_Key op))) "",
            delete (op_Key op) (md_values m))
    end in
  (result, mkModel values
             (<[op_Session op := mkModelSession (op_Sequence op) result]> (md_sessions m))).

(** [model.apply] on a clone. *)
Definition applyOp (m : model) (op : Operation) : Outcome * model :=
  match op_Kind op with
  | KGet =>
      match md_values m !! op_Key op with
      | None => (errorOutcome "not_found", m)
      | Some value => (mkOutcome value true false "", m)
      end
  | _ =>
      match md_sessions m !! op_Session op with
      | None => mutateOp m op
      | Some state =>
          if op_Sequence op =? ms_last state then (ms_result state, m)
          else if op_Sequence op <=? ms_last state then (errorOutcome "stale_sequence", m)
          else if negb (op_Sequence op =? ms_last state +! 1) then (errorOutcome "out_of_order", m)
          else mutateOp m op
      end
  end.

Definition outcomeEqual (left right : Outcome) : bool :=
  bool_decide (oc_Error left = oc_Error right) && eqb (oc_Found left) (oc_Found right)
  && eqb (oc_Existed left) (oc_Existed right) && bool_decide (oc_Value left = oc_Value right).

(** ** The search *)

Definition isPending (op : Operation) : bool := op_Complete op =? 0.

(** Whether [prior] has to be placed before [candidate]. *)
Definition finishedBefore (prior candidate : Operation) : bool :=
  negb (isPending prior) && negb (op_Invoke candidate <? op_Complete prior).

Definition isUsed (used : list bool) (i : nat) : bool := default true (used !! i).

Definition eligible (index : nat) (history : list Operation) (used : list bool) : bool :=
  match history !! index with
  | None => false
  | Some candidate =>
      forallb (fun prior =>
          isUsed used prior || (prior =? index)%nat ||
          match history !! prior with
          | Some operation => negb (finishedBefore operation candidate)
          | None => true
          end)
        (seq 0 (length history))
  end.

Fixpoint checkOrder (fuel : nat) (history : list Operation) (used : list bool) (state : model)
    (placed : nat) : bool :=
  if (placed =? length history)%nat then true
  else
    match fuel with
    | O => false
    | S fuel =>
        existsb (fun index =>
            match history !! index with
            | None => false
            | Some operation =>
                negb (isUsed used index) && eligible index history used &&
                (let '(actual, candidate) := applyOp state operation in
                 outcomeEqual actual (op_Outcome operation) &&
                 checkOrder fuel history (<[index := true]> used) candidate (S placed))
            end)
          (seq 0 (length history))
        || existsb (fun index =>
            match history !! index with
            | None => false
            | Some operation =>
                negb (isUsed used index) && isPending operation && eligible index history used &&
                checkOrder fuel history (<[index := true]> used) state (S placed)
            end)
          (seq 0 (length history))
    end.

Inductive checkError := errNoInvocation | errCompletedEarly | errNotLinearizable.

(** The first loop of [Check]. *)
Fixpoint checkTimes (history : list Operation) : option checkError :=
  match history with
  | [] => None
  | op :: rest =>
      if op_Invoke op =? 0 then Some errNoInvocation
      else if negb (isPending op) && (op_Complete op <? op_Invoke op) then Some errCompletedEarly
      else checkTimes rest
  end.

(** [None] is success. *)
Definition Check (history : list Operation) : option checkError :=
  match checkTimes history with
  | Some e => Some e
  | None =>
      if checkOrder (length history) history (replicate (length history) false) newModel 0
      then None else Some errNotLinearizable
  end.

(** ** What the search finds *)






(** ** Bookkeeping of the search *)








(** ** The search is sound *)




(** ** The search is complete *)






(** ** Linearizability *)

(** The data contract of the store, told by a journal of the mutations that took effect, the latest
    first, with their outcomes. *)
Abbreviation journal := (list (Operation * Outcome)).

Definition held (j : journal) (key : string) : option (list byte) :=
  match head (filter (fun e => op_Key e.1 = key) j) with
  | Some (mkOperation KSet _ _ _ value _ _ _, _) => Some value
  | _ => None
  end.

Definition latest (j : journal) (session : list byte) : option (Operation * Outcome) :=
  head (filter (fun e => op_Session e.1 = session) j).

(** The next mutation of its Session; the first one may carry any number. *)
Definition continues (j : journal) (op : Operation) : Prop :=
  match latest j (op_Session op) with
  | None => True
  | Some (prior, _) => op_Sequence op = op_Sequence prior + 1
  end.

(** Operation [op] may answer [r], and leaves the journal [j']. *)
Inductive legal (j : journal) (op : Operation) : Outcome -> journal -> Prop :=
| legal_found value : op_Kind op = KGet -> held j (op_Key op) = Some value ->
    legal j op (mkOutcome value true false "") j
| legal_missing : op_Kind op = KGet -> held j (op_Key op) = None -> legal j op (errorOutcome "not_found") j
| legal_set : op_Kind op = KSet -> continues j op -> legal j op zeroOutcome ((op, zeroOutcome) :: j)
| legal_delete (existed : bool) : op_Kind op = KDelete -> continues j op ->
    (existed = true <-> exists value, held j (op_Key op) = Some value) ->
    legal j op (mkOutcome [] false existed "") ((op, mkOutcome [] false existed "") :: j)
| legal_repeated prior r : op_Kind op <> KGet -> latest j (op_Session op) = Some (prior, r) ->
    op_Sequence op = op_Sequence prior -> legal j op r j
| legal_stale prior r : op_Kind op <> KGet -> latest j (op_Session op) = Some (prior, r) ->
    op_Sequence op < op_Sequence prior -> legal j op (errorOutcome "stale_sequence") j
| legal_gap prior r : op_Kind op <> KGet -> latest j (op_Session op) = Some (prior, r) ->
    op_Sequence prior + 1 < op_Sequence op -> legal j op (errorOutcome "out_of_order") j.

(** A sequential execution whose answers [accepts] allows. *)
Inductive sequential (accepts : Operation -> Outcome -> Prop) (j : journal) : list Operation -> Prop :=
| sequential_nil : sequential accepts j []
| sequential_cons op r j' ops :
    legal j op r j' -> accepts op r -> sequential accepts j' ops -> sequential accepts j (op :: ops).

(** Operation [i] returned before [k] was invoked; equal times count. *)
Definition precedes (history : list Operation) (i k : nat) : Prop := exists x y,
  history !! i = Some x /\ history !! k = Some y /\ op_Complete x <> 0 /\ op_Complete x <= op_Invoke y.

(** [order] is a linearization: every operation that returned once, of the others some, none before one that
    precedes it, and the sequential execution gives the answers. *)
Record linearizes (accepts : Operation -> Outcome -> Prop) (history : list Operation) (order : list nat) : Prop := {
  li_once : NoDup order;
  li_within i : i ∈ order -> (i < length history)%nat;
  li_returned i op : history !! i = Some op -> op_Complete op <> 0 -> i ∈ order;
  li_real_time : StronglySorted (fun i k => ~ precedes history k i) order;
  li_sequential : sequential accepts [] (omap (fun i => history !! i) order) }.

(** What a Client received has to be the answer; the answer of a call that did not return is unknown. *)
Definition received (op : Operation) (r : Outcome) : Prop := op_Complete op <> 0 -> r = op_Outcome op.


Definition wellTimed (op : Operation) : Prop :=
  op_Invoke op <> 0 /\ (op_Complete op <> 0 -> op_Invoke op <= op_Complete op).




















(** ** Guarantees *)




(** A Set of [k], a Delete of [k] that completes as given, and a later Get that
    finds nothing. *)
Definition deletedKey (complete : N) (outcome : Outcome) : list Operation :=
  let session := replicate 16 x01 in
  [mkOperation KSet session 1 "k" [x61] 1 2 zeroOutcome;
   mkOperation KDelete session 2 "k" [] 3 complete outcome;
   mkOperation KGet session 0 "k" [] 5 6 (errorOutcome "not_found")].

(** A Delete whose response was lost after it took effect makes [Check]
    reject a linearizable history: an unacknowledged call is only
    ever matched against the zero outcome, and a Delete that finds its key does
    not have it.  The same history with the response received is accepted. *)
Theorem lost_delete_response_is_misreported :
  Check (deletedKey 4 (mkOutcome [] false true "")) = None /\
  Check (deletedKey 0 zeroOutcome) = Some errNotLinearizable /\
  Forall wellTimed (deletedKey 0 zeroOutcome) /\ linearizes received (deletedKey 0 zeroOutcome) [0; 1; 2]%nat.
Proof.
  split; [vm_compute; reflexivity|]. split; [vm_compute; reflexivity|]. split; [by repeat constructor|]. split.
  - by apply (bool_decide_unpack _).
  - intros i. rewrite !elem_of_cons. cbn. intros [->|[->|[->|Hi]]]; [lia..|by apply not_elem_of_nil in Hi].
  - intros [|[|[|i]]] op; cbn; intros Hi _; [set_solver..|done].
  - assert (Hno : forall i k, (i, k) ∈ [(1, 0); (2, 0); (2, 1)]%nat -> ~ precedes (deletedKey 0 zeroOutcome) i k).
    { intros i k. rewrite !elem_of_cons. intros [[= -> ->]|[[= -> ->]|[[= -> ->]|Hi]]]; [..|by apply not_elem_of_nil in Hi];
        intros (x & y & [= <-] & [= <-] & ? & ?); cbn in *; lia. }
    repeat constructor; apply Hno; set_solver.
  - cbn. eapply sequential_cons; [by apply legal_set|done|].
    eapply sequential_cons; [apply (legal_delete _ _ true); [done..|by split; [intros _; eexists|]]|by intros []|].
    eapply sequential_cons; [by apply legal_missing|done|constructor].
Qed.

(** The completion closure records the first completion of its own call and
    nothing else: a second call, even with another outcome, has no effect, and no
    other operation of the history changes. *)
Theorem completion_is_recorded_once h kind session sequence key value now o1 t1 o2 t2 :
  t1 <> 0 ->
  let '(i, h1) := Start kind session sequence key value now h in
  let h2 := Finish i o1 t1 h1 in
  h2 = h ++ [mkOperation kind session sequence key value now t1 o1] /\ Finish i o2 t2 h2 = h2.
Proof.
  intros Ht. unfold Start, Finish. rewrite list_lookup_middle by done. cbn [op_Complete N.eqb negb].
  rewrite insert_app_r_alt by lia. rewrite Nat.sub_diag. cbn [list_insert insert].
  split; [done|]. rewrite list_lookup_middle by done. cbn.
  by rewrite (proj2 (N.eqb_neq t1 0) Ht).
Qed.

Lemma completion_is_recorded_once_witness :
  let '(i, h1) := Start KSet (replicate 16 x01) 1 "k" [x61] 3 [] in
  let h2 := Finish i zeroOutcome 4 h1 in
  h2 = [] ++ [mkOperation KSet (replicate 16 x01) 1 "k" [x61] 3 4 zeroOutcome] /\
  Finish i (errorOutcome "late") 5 h2 = h2.
Proof. apply (completion_is_recorded_once [] KSet (replicate 16 x01) 1 "k" [x61] 3 zeroOutcome 4 (errorOutcome "late") 5). done. Defined.
