(* ===== verification/Coordinator.v ===== *)
(** The command coordinator of [internal/node/command_coordinator.go]: the
    replicated state and the Client requests that wait for it.

    A result channel is a number.  Channels are created with capacity one, so a
    second answer would block the Raft loop for good; [cc_answers] records every
    send.  A context is a number too, and [canceled] tells which ones are done. *)

From S2P Require Import Prelude RaftTypes Session Runtime.

(** ** Inputs and waiting requests *)

Record readResult := mkReadResult {
  rr_value : list byte; rr_found : bool; rr_leaderID : NodeID; rr_rejected : bool }.

Inductive runtimeInput :=
| raftEventInput (event : Event)
| proposalInput (event : Event) (result ctx : N)
| readInput (read : ReadID) (result ctx : N) (key : string)
| snapshotInput (result : N).

Record pendingProposal := mkPendingProposal { pp_result : N; pp_ctx : N }.

Record inFlightMutation := mkInFlight { if_sequence : N; if_index : N }.

Record pendingRead := mkPendingRead { wr_result : N; wr_ctx : N; wr_key : string }.

Inductive answer :=
| AnsweredProposal (r : proposalResult)
| AnsweredRead (r : readResult).

Record commandCoordinator := mkCoordinator {
  cc_state : sessionMachine;
  cc_pending : gmap N (list pendingProposal);
  cc_inFlightMutations : gmap SessionID inFlightMutation;
  cc_pendingReads : gmap N pendingRead;
  cc_metrics : option N;
  cc_observing : bool;
  cc_observed : list (mutationBoundary * LogEntry);
  cc_answers : list (N * answer) }.

#[export] Instance eta_coordinator : Eta commandCoordinator := fun c =>
  mkCoordinator (cc_state c) (cc_pending c) (cc_inFlightMutations c) (cc_pendingReads c)
    (cc_metrics c) (cc_observing c) (cc_observed c) (cc_answers c).

(** ** Operations *)

Definition newCommandCoordinator (limit : Z) (metrics : option N) (observing : bool)
    : commandCoordinator :=
  mkCoordinator (newSessionMachine limit) ∅ ∅ ∅ metrics observing [] [].

(** [ch <- a]. *)
Definition send (ch : N) (a : answer) (c : commandCoordinator) : commandCoordinator :=
  c <| cc_answers := cc_answers c ++ [(ch, a)] |>.

Definition sendAll (answers : list (N * answer)) (c : commandCoordinator) : commandCoordinator :=
  c <| cc_answers := cc_answers c ++ answers |>.

Definition rejection (leaderID : NodeID) : proposalResult :=
  mkProposalResult zeroSessionID sessionSucceeded 0 0 leaderID true false.

Definition readRejection (leaderID : NodeID) : readResult := mkReadResult [] false leaderID true.

Definition proposedMutation (event : Event) : option (SessionID * N) :=
  match event with
  | ProposeSet _ session sequence _ _ => Some (session, sequence)
  | ProposeDelete _ session sequence _ => Some (session, sequence)
  | _ => None
  end.

Definition entryForMutation (event : Event) : option LogEntry :=
  match event with
  | ProposeSet _ session sequence key value =>
      Some (mkLogEntry 0 0 EntrySet session sequence key value)
  | ProposeDelete _ session sequence key =>
      Some (mkLogEntry 0 0 EntryDelete session sequence key [])
  | _ => None
  end.

Definition note (boundary : mutationBoundary) (entry : LogEntry) (c : commandCoordinator)
    : commandCoordinator :=
  if cc_observing c then c <| cc_observed := cc_observed c ++ [(boundary, entry)] |> else c.

(** [c.pending[index] = append(c.pending[index], proposal)]. *)
Definition wait (index : N) (proposal : pendingProposal) (c : commandCoordinator)
    : commandCoordinator :=
  c <| cc_pending := <[index := default [] (cc_pending c !! index) ++ [proposal]]> (cc_pending c) |>.

Inductive recoverError := unexpectedAction (a : Action).

(** [recover]; the entries before an unexpected action stay applied. *)
Fixpoint recover (actions : list Action) (c : commandCoordinator)
    : result recoverError unit * commandCoordinator :=
  match actions with
  | [] => (Ok tt, c)
  | ApplyEntry entry :: actions => recover actions (c <| cc_state := (apply (cc_state c) entry).2 |>)
  | action :: _ => (Err (unexpectedAction action), c)
  end.

Definition pruneCanceled (canceled : N -> bool) (c : commandCoordinator) : commandCoordinator :=
  c <| cc_pending := omap (fun proposals =>
         match filter (fun p => canceled (pp_ctx p) = false) proposals with
         | [] => None
         | active => Some active
         end) (cc_pending c) |>
    <| cc_pendingReads := filter (fun p : N * pendingRead => canceled (wr_ctx p.2) = false)
                            (cc_pendingReads c) |>.

(** The event to step, if any. *)
Definition beginProposal (event : Event) (result ctx : N) (c : commandCoordinator)
    : option Event * commandCoordinator :=
  match proposedMutation event with
  | None => (Some event, c)
  | Some (session, sequence) =>
      let propose :=
        match evaluateMutation (cc_state c) session sequence with
        | (answered, false) => (None, send result (AnsweredProposal answered) c)
        | (_, true) =>
            (Some event,
             match entryForMutation event with
             | Some entry => note mutationBeforeAppend entry c
             | None => c
             end)
        end in
      match cc_inFlightMutations c !! session with
      | Some inFlight =>
          if if_sequence inFlight =? sequence
          then (None, wait (if_index inFlight) (mkPendingProposal result ctx) c)
          else propose
      | None => propose
      end
  end.

Definition beginRead (read : ReadID) (result ctx : N) (key : string) (c : commandCoordinator)
    : Event * commandCoordinator :=
  (ConfirmRead read,
   c <| cc_pendingReads := <[read := mkPendingRead result ctx key]> (cc_pendingReads c) |>).

(** The entry's result goes to every request that waits for its index. *)
Definition applyCommitted (entry : LogEntry) (c : commandCoordinator) : commandCoordinator :=
  let '(outcome, state) := apply (cc_state c) entry in
  let c := c <| cc_state := state |> in
  let c := if isMutationEntry entry then note mutationAfterApplication entry c else c in
  let inFlight := default (mkInFlight 0 0) (cc_inFlightMutations c !! ESessionID entry) in
  let c := if isMutationEntry entry && (if_sequence inFlight =? Sequence entry)
           then c <| cc_inFlightMutations := delete (ESessionID entry) (cc_inFlightMutations c) |>
           else c in
  match cc_pending c !! Index entry with
  | Some proposals =>
      (sendAll (map (fun p => (pp_result p, AnsweredProposal outcome)) proposals) c)
        <| cc_pending := delete (Index entry) (cc_pending c) |>
  | None => c
  end.

Definition handle (action : Action) (current : option runtimeInput) (c : commandCoordinator)
    : bool * commandCoordinator :=
  match action with
  | ProposalAccepted _ index =>
      let c := c <| cc_metrics := option_map (fun proposals => proposals +! 1) (cc_metrics c) |> in
      match current with
      | Some (proposalInput event result ctx) =>
          let c := wait index (mkPendingProposal result ctx) c in
          (true,
           match proposedMutation event with
           | Some (session, sequence) =>
               c <| cc_inFlightMutations := <[session := mkInFlight sequence index]>
                                              (cc_inFlightMutations c) |>
           | None => c
           end)
      | _ => (true, c)
      end
  | ProposalRejected _ leaderID =>
      match current with
      | Some (proposalInput _ result _) =>
          (true, send result (AnsweredProposal (rejection leaderID)) c)
      | _ => (true, c)
      end
  | ApplyEntry entry => (true, applyCommitted entry c)
  | ReadConfirmed read _ =>
      match cc_pendingReads c !! read with
      | Some waiting =>
          let '(value, found) := getValue (cc_state c) (wr_key waiting) in
          (true, (send (wr_result waiting) (AnsweredRead (mkReadResult value found "" false)) c)
                   <| cc_pendingReads := delete read (cc_pendingReads c) |>)
      | None => (true, c)
      end
  | ReadRejected read leaderID =>
      match cc_pendingReads c !! read with
      | Some waiting =>
          (true, (send (wr_result waiting) (AnsweredRead (readRejection leaderID)) c)
                   <| cc_pendingReads := delete read (cc_pendingReads c) |>)
      | None => (true, c)
      end
  | _ => (false, c)
  end.

Definition lostLeadership (leaderID : NodeID) (c : commandCoordinator) : commandCoordinator :=
  let proposals := concat (map snd (map_to_list (cc_pending c))) in
  let reads := map snd (map_to_list (cc_pendingReads c)) in
  (sendAll (map (fun p => (pp_result p, AnsweredProposal (rejection leaderID))) proposals
            ++ map (fun r => (wr_result r, AnsweredRead (readRejection leaderID))) reads) c)
    <| cc_pending := ∅ |> <| cc_inFlightMutations := ∅ |> <| cc_pendingReads := ∅ |>.

(** The action loop of the Raft loop, as far as commands are concerned. *)
Fixpoint handleAll (actions : list Action) (current : option runtimeInput) (c : commandCoordinator)
    : commandCoordinator :=
  match actions with
  | [] => c
  | action :: actions => handleAll actions current (handle action current c).2
  end.
