(* ===== verification/CoordinatorProps.v ===== *)
(** Every Client request is answered at most once, none is forgotten, and the
    answers come from the replicated state in log order. *)

From S2P Require Import Prelude RaftTypes RaftCore RaftInvariant RaftActions Session Runtime Coordinator.

(** ** One round of the Raft loop *)

Definition channelOf (input : option runtimeInput) : list N :=
  match input with
  | Some (proposalInput _ result _) | Some (readInput _ result _ _) => [result]
  | _ => []
  end.

(** What the loop asks of the coordinator for one input: [actions] are those the
    runtime returned, [lost] names the new Leader when leadership was lost. *)
Definition serve (canceled : N -> bool) (input : option runtimeInput) (actions : list Action)
    (lost : option NodeID) (c : commandCoordinator) : commandCoordinator :=
  let c := pruneCanceled canceled c in
  let finish c :=
    let c := handleAll actions input c in
    match lost with Some leaderID => lostLeadership leaderID c | None => c end in
  match input with
  | Some (proposalInput event result ctx) =>
      match beginProposal event result ctx c with
      | (None, c) => c
      | (Some _, c) => finish c
      end
  | Some (readInput read result ctx key) => finish (beginRead read result ctx key c).2
  | Some (snapshotInput _) => c
  | _ => finish c
  end.

Record round := mkRound {
  rd_canceled : N -> bool; rd_input : option runtimeInput; rd_actions : list Action;
  rd_lost : option NodeID }.

Definition serveAll (rounds : list round) (c : commandCoordinator) : commandCoordinator :=
  foldl (fun c r => serve (rd_canceled r) (rd_input r) (rd_actions r) (rd_lost r) c) c rounds.

Definition channels (rounds : list round) : list N := concat (map (fun r => channelOf (rd_input r)) rounds).

(** ** The ledger of channels *)

Definition pendingChannels (m : gmap N (list pendingProposal)) : list N :=
  concat (map (fun p => map pp_result p.2) (map_to_list m)).

Definition readChannels (m : gmap N pendingRead) : list N :=
  map (fun p => wr_result p.2) (map_to_list m).

Definition waiting (c : commandCoordinator) : list N :=
  pendingChannels (cc_pending c) ++ readChannels (cc_pendingReads c).

Definition answered (c : commandCoordinator) : list N := map fst (cc_answers c).

(** Every channel that waits or was answered, with multiplicity. *)
Definition ledger (c : commandCoordinator) : list N := waiting c ++ answered c.

(** ** Lemmas *)

Lemma pendingChannels_delete m i l :
  m !! i = Some l -> pendingChannels m ≡ₚ map pp_result l ++ pendingChannels (delete i m).
Proof.
  intros Hi. unfold pendingChannels. rewrite <- (insert_delete_id m i l Hi) at 1.
  rewrite map_to_list_insert by apply lookup_delete_eq. done.
Qed.

Lemma pendingChannels_insert m i l :
  pendingChannels (<[i := l]> m) ≡ₚ map pp_result l ++ pendingChannels (delete i m).
Proof.
  unfold pendingChannels. rewrite <- insert_delete_eq.
  rewrite map_to_list_insert by apply lookup_delete_eq. done.
Qed.

Lemma readChannels_delete m i r :
  m !! i = Some r -> readChannels m ≡ₚ wr_result r :: readChannels (delete i m).
Proof.
  intros Hi. unfold readChannels. rewrite <- (insert_delete_id m i r Hi) at 1.
  rewrite map_to_list_insert by apply lookup_delete_eq. done.
Qed.

Lemma readChannels_insert m i r :
  readChannels (<[i := r]> m) ≡ₚ wr_result r :: readChannels (delete i m).
Proof.
  unfold readChannels. rewrite <- insert_delete_eq.
  rewrite map_to_list_insert by apply lookup_delete_eq. done.
Qed.

Lemma answered_send ch a c : answered (send ch a c) = answered c ++ [ch].
Proof. unfold answered, send. cbn. by rewrite map_app. Qed.

Lemma ledger_send ch a c : ledger (send ch a c) ≡ₚ ch :: ledger c.
Proof.
  unfold ledger. rewrite answered_send. change (waiting (send ch a c)) with (waiting c).
  rewrite app_assoc. symmetry. apply Permutation_cons_append.
Qed.

Lemma ledger_wait index p c : ledger (wait index p c) ≡ₚ pp_result p :: ledger c.
Proof.
  unfold ledger, waiting, wait, answered. cbn. rewrite pendingChannels_insert.
  destruct (cc_pending c !! index) as [l|] eqn:Hi; cbn.
  - rewrite (pendingChannels_delete _ _ _ Hi), map_app. cbn. solve_Permutation.
  - rewrite delete_id by done. solve_Permutation.
Qed.

(** Fields that do not hold channels. *)
Lemma ledger_ext c c' :
  cc_pending c' = cc_pending c -> cc_pendingReads c' = cc_pendingReads c ->
  cc_answers c' = cc_answers c -> ledger c' = ledger c.
Proof. unfold ledger, waiting, answered. by intros -> -> ->. Qed.

Lemma ledger_note b e c : ledger (note b e c) = ledger c.
Proof. unfold note. by destruct (cc_observing c). Qed.

Lemma map_answers (f : proposalResult) (l : list pendingProposal) :
  map fst (map (fun p => (pp_result p, AnsweredProposal f)) l) = map pp_result l.
Proof. rewrite map_map. done. Qed.

(** Answering everybody who waits for an entry. *)
Lemma ledger_applyCommitted entry c : ledger (applyCommitted entry c) ≡ₚ ledger c.
Proof.
  unfold applyCommitted. destruct (apply (cc_state c) entry) as [outcome state].
  set (c1 := c <| cc_state := state |>).
  set (c2 := if isMutationEntry entry then note mutationAfterApplication entry c1 else c1).
  set (c3 := if _ && _ then _ else c2).
  assert (E : ledger c3 = ledger c).
  { subst c3. transitivity (ledger c2); [by destruct (_ && _)|]. subst c2.
    destruct (isMutationEntry entry); [rewrite ledger_note|]; done. }
  rewrite <- E. destruct (cc_pending c3 !! Index entry) as [l|] eqn:Hi; [|done].
  unfold ledger, waiting, answered. cbn. rewrite map_app, map_answers.
  rewrite (pendingChannels_delete _ _ _ Hi). solve_Permutation.
Qed.

Lemma ledger_handle action current c :
  ledger (handle action current c).2 ≡ₚ
    (if isVerdict action
     then match current with Some (proposalInput _ result _) => [result] | _ => [] end
     else []) ++ ledger c.
Proof.
  destruct action; cbn [handle isVerdict]; try done.
  - apply ledger_applyCommitted.
  - destruct current as [[]|]; try done. cbn [snd].
    rewrite (ledger_ext (wait Index (mkPendingProposal result ctx)
               (c <| cc_metrics := option_map (fun proposals => proposals +! 1) (cc_metrics c) |>)))
      by (by destruct (proposedMutation event) as [[]|]).
    by rewrite ledger_wait.
  - destruct current as [[]|]; try done. cbn [snd]. by rewrite ledger_send.
  - destruct (cc_pendingReads c !! read) as [r|] eqn:Hr; [|done].
    destruct (getValue _ _) as [value found]. cbn [snd]. unfold ledger, waiting, answered. cbn.
    rewrite map_app, (readChannels_delete _ _ _ Hr). cbn. solve_Permutation.
  - destruct (cc_pendingReads c !! read) as [r|] eqn:Hr; [|done]. cbn [snd].
    unfold ledger, waiting, answered. cbn.
    rewrite map_app, (readChannels_delete _ _ _ Hr). cbn. solve_Permutation.
Qed.

Lemma ledger_handleAll actions current c :
  ledger (handleAll actions current c) ≡ₚ
    match current with
    | Some (proposalInput _ result _) => replicate (verdicts actions) result
    | _ => []
    end ++ ledger c.
Proof.
  revert c. induction actions as [|a actions IH]; intros c; cbn [handleAll].
  { by destruct current as [[]|]. }
  rewrite IH, ledger_handle, verdicts_cons. destruct current as [[]|]; try by destruct (isVerdict a).
  destruct (isVerdict a); [|done]. cbn. solve_Permutation.
Qed.

Lemma ledger_lost leaderID c : ledger (lostLeadership leaderID c) ≡ₚ ledger c.
Proof.
  unfold lostLeadership, ledger, waiting, answered. cbn. rewrite !map_app, map_answers, !map_map.
  cbn. change (pendingChannels ∅) with (@nil N). change (readChannels ∅) with (@nil N). cbn.
  replace (map pp_result (concat (map snd (map_to_list (cc_pending c)))))
    with (pendingChannels (cc_pending c))
    by (unfold pendingChannels; by rewrite concat_map, map_map).
  replace (map (fun x => wr_result (snd x)) (map_to_list (cc_pendingReads c)))
    with (readChannels (cc_pendingReads c)) by done.
  solve_Permutation.
Qed.

(** The requests a prune forgets: those whose context is done. *)
Definition canceledChannels (canceled : N -> bool) (c : commandCoordinator) : list N :=
  concat (map (fun p => map pp_result (filter (fun w => canceled (pp_ctx w) = true) p.2))
            (map_to_list (cc_pending c)))
  ++ map (fun p => wr_result p.2)
       (filter (fun p : N * pendingRead => canceled (wr_ctx p.2) = true)
          (map_to_list (cc_pendingReads c))).

Lemma split_canceled {A} (f : A -> bool) (l : list A) :
  l ≡ₚ filter (fun x => f x = true) l ++ filter (fun x => f x = false) l.
Proof.
  induction l as [|x l IH]; [done|]. rewrite !filter_cons. destruct (f x) eqn:Ef.
  - rewrite decide_True, decide_False by done. cbn. by constructor.
  - rewrite decide_False, decide_True by done. rewrite <- Permutation_middle. by constructor.
Qed.

Lemma pendingChannels_prune canceled (m : gmap N (list pendingProposal)) :
  pendingChannels m ≡ₚ
    concat (map (fun p => map pp_result (filter (fun w => canceled (pp_ctx w) = true) p.2)) (map_to_list m))
    ++ pendingChannels (omap (fun proposals =>
         match filter (fun p => canceled (pp_ctx p) = false) proposals with
         | [] => None
         | active => Some active
         end) m).
Proof.
  induction m as [|i l m Hi IH] using map_ind; [done|].
  rewrite map_to_list_insert by done. cbn [map concat fst snd].
  rewrite pendingChannels_insert, delete_id by done. rewrite IH.
  pose proof (split_canceled (fun p => canceled (pp_ctx p)) l) as Hl.
  apply (Permutation_map pp_result) in Hl. rewrite map_app in Hl.
  assert (Ho : omap (M := gmap N) (fun proposals =>
      match filter (fun p => canceled (pp_ctx p) = false) proposals with
      | [] => None | active => Some active end) m !! i = None) by (by rewrite lookup_omap, Hi).
  destruct (filter (fun p => canceled (pp_ctx p) = false) l) as [|p active] eqn:Ef.
  - rewrite omap_insert_None by (by rewrite Ef). rewrite delete_id by done.
    rewrite Hl. cbn. solve_Permutation.
  - rewrite (omap_insert_Some _ _ _ _ (p :: active)) by (by rewrite Ef).
    rewrite pendingChannels_insert, delete_id by done. rewrite Hl. solve_Permutation.
Qed.

Lemma map_to_list_filter (m : gmap N pendingRead) (f : pendingRead -> bool) :
  map_to_list (filter (fun p : N * pendingRead => f p.2 = false) m) ≡ₚ
  filter (fun p => f p.2 = false) (map_to_list m).
Proof.
  induction m as [|i r m Hi IH] using map_ind; [done|].
  rewrite map_to_list_insert, filter_cons by done. destruct (f r) eqn:Ef; cbn.
  - rewrite decide_False by (cbn; congruence).
    rewrite map_filter_insert_False, delete_id by (done || (cbn; congruence)). exact IH.
  - rewrite decide_True by done. rewrite map_filter_insert_True by done.
    rewrite map_to_list_insert by (by apply map_lookup_filter_None; left). by rewrite IH.
Qed.

Lemma readChannels_prune canceled (m : gmap N pendingRead) :
  readChannels m ≡ₚ
    map (fun p => wr_result p.2)
      (filter (fun p : N * pendingRead => canceled (wr_ctx p.2) = true) (map_to_list m))
    ++ readChannels (filter (fun p : N * pendingRead => canceled (wr_ctx p.2) = false) m).
Proof.
  unfold readChannels. rewrite (map_to_list_filter m (fun r => canceled (wr_ctx r))).
  rewrite (split_canceled (fun p : N * pendingRead => canceled (wr_ctx p.2)) (map_to_list m)) at 1.
  by rewrite map_app.
Qed.

Lemma ledger_prune canceled c :
  ledger c ≡ₚ canceledChannels canceled c ++ ledger (pruneCanceled canceled c).
Proof.
  unfold ledger, waiting, canceledChannels, pruneCanceled, answered. cbn.
  rewrite (pendingChannels_prune canceled) at 1. rewrite (readChannels_prune canceled) at 1.
  solve_Permutation.
Qed.

Lemma ledger_beginRead read result ctx key c :
  exists dropped, result :: ledger c ≡ₚ dropped ++ ledger (beginRead read result ctx key c).2 /\
    (cc_pendingReads c !! read = None -> dropped = []).
Proof.
  unfold ledger, waiting, answered. cbn [beginRead snd].
  destruct (cc_pendingReads c !! read) as [r|] eqn:Hr.
  - exists [wr_result r]. split; [|done]. cbn. rewrite readChannels_insert.
    rewrite (readChannels_delete _ _ _ Hr). cbn. solve_Permutation.
  - exists []. split; [|done]. cbn. rewrite readChannels_insert.
    rewrite delete_id by done. cbn. solve_Permutation.
Qed.

Lemma ledger_beginProposal event result ctx c :
  match beginProposal event result ctx c with
  | (None, c') => ledger c' ≡ₚ result :: ledger c
  | (Some _, c') => ledger c' = ledger c
  end.
Proof.
  unfold beginProposal. destruct (proposedMutation event) as [[session sequence]|]; [|done].
  assert (Hp : match match evaluateMutation (cc_state c) session sequence with
      | (answered, false) => (None, send result (AnsweredProposal answered) c)
      | (_, true) => (Some event, match entryForMutation event with
                                  | Some entry => note mutationBeforeAppend entry c
                                  | None => c end)
      end with
    | (None, c') => ledger c' ≡ₚ result :: ledger c
    | (Some _, c') => ledger c' = ledger c
    end).
  { destruct (evaluateMutation _ _ _) as [answered []]; [|apply ledger_send].
    destruct (entryForMutation event); [apply ledger_note|done]. }
  destruct (cc_inFlightMutations c !! session) as [inFlight|]; [|done].
  destruct (if_sequence inFlight =? sequence); [apply ledger_wait|done].
Qed.

(** What the runtime owes the coordinator in a round: a proposal that was stepped
    gets at most one verdict; [exact] asks for precisely one, and for a read
    number that is not in use. *)
Definition round_ok (exact : bool) (c : commandCoordinator) (r : round) : Prop :=
  let c := pruneCanceled (rd_canceled r) c in
  match rd_input r with
  | Some (proposalInput event result ctx) =>
      if exact then (beginProposal event result ctx c).1 <> None -> verdicts (rd_actions r) = 1%nat
      else (verdicts (rd_actions r) <= 1)%nat
  | Some (readInput read _ _ _) => exact = true -> cc_pendingReads c !! read = None
  | _ => True
  end.

Lemma ledger_finish actions input lost c :
  ledger (let c := handleAll actions input c in
          match lost with Some leaderID => lostLeadership leaderID c | None => c end)
  ≡ₚ ledger (handleAll actions input c).
Proof. cbv zeta. destruct lost; [apply ledger_lost|done]. Qed.

(** One round adds the input's channel to the ledger, at most once, and drops
    only canceled requests when the round is exact. *)
Lemma ledger_serve exact c r :
  round_ok exact c r ->
  exists dropped,
    channelOf (rd_input r) ++ ledger c ≡ₚ
      dropped ++ ledger (serve (rd_canceled r) (rd_input r) (rd_actions r) (rd_lost r) c) /\
    (exact = true -> dropped = canceledChannels (rd_canceled r) c).
Proof.
  intros Hok. unfold round_ok in Hok. unfold serve. set (pruned := pruneCanceled (rd_canceled r) c) in *.
  pose proof (ledger_prune (rd_canceled r) c) as Hpr. fold pruned in Hpr.
  set (cancel := canceledChannels (rd_canceled r) c) in *. cbv zeta in *.
  assert (Hplain : forall input, channelOf input = [] ->
    ledger (handleAll (rd_actions r) input pruned) ≡ₚ ledger pruned).
  { intros input Hi. rewrite ledger_handleAll. by destruct input as [[]|]. }
  destruct (rd_input r) as [[event|event result ctx|read result ctx key|result]|]; cbn [channelOf app].
  - exists cancel. split; [|done]. rewrite ledger_finish, Hplain by done. exact Hpr.
  - pose proof (ledger_beginProposal event result ctx pruned) as Hb.
    destruct (beginProposal event result ctx pruned) as [[ev|] c1]; cbn [fst] in Hok.
    + assert (Hl : ledger (let c := handleAll (rd_actions r) (Some (proposalInput event result ctx)) c1 in
                 match rd_lost r with Some leaderID => lostLeadership leaderID c | None => c end)
               ≡ₚ replicate (verdicts (rd_actions r)) result ++ ledger pruned)
        by (by rewrite ledger_finish, ledger_handleAll, Hb).
      destruct exact.
      * exists cancel. split; [|done]. rewrite Hl, Hok by done. cbn. rewrite Hpr. solve_Permutation.
      * assert (Hc : verdicts (rd_actions r) = 1%nat \/ verdicts (rd_actions r) = 0%nat) by lia.
        destruct Hc as [Hc|Hc]; rewrite Hc in Hl; cbn [replicate app] in Hl.
        -- exists cancel. split; [|done]. rewrite Hl, Hpr. solve_Permutation.
        -- exists (result :: cancel). split; [|done]. rewrite Hl, Hpr. solve_Permutation.
    + exists cancel. split; [|done]. rewrite Hb, Hpr. solve_Permutation.
  - destruct (ledger_beginRead read result ctx key pruned) as (dropped & Hd & Hn).
    exists (dropped ++ cancel). split.
    + rewrite ledger_finish, ledger_handleAll. cbn [app]. rewrite Hpr.
      rewrite (Permutation_middle cancel (ledger pruned) result), Hd. solve_Permutation.
    + intros He. by rewrite Hn by auto.
  - exists cancel. by split.
  - exists cancel. split; [|done]. rewrite ledger_finish, Hplain by done. exact Hpr.
Qed.

(** Rounds in sequence. *)
Fixpoint rounds_ok (exact : bool) (c : commandCoordinator) (rounds : list round) : Prop :=
  match rounds with
  | [] => True
  | r :: rounds =>
      round_ok exact c r /\
      (exact = true -> canceledChannels (rd_canceled r) c = []) /\
      rounds_ok exact (serve (rd_canceled r) (rd_input r) (rd_actions r) (rd_lost r) c) rounds
  end.

Lemma ledger_serveAll exact rounds c :
  rounds_ok exact c rounds ->
  exists dropped, channels rounds ++ ledger c ≡ₚ dropped ++ ledger (serveAll rounds c) /\
    (exact = true -> dropped = []).
Proof.
  revert c. induction rounds as [|r rounds IH]; intros c Hok; [by exists []|].
  destruct Hok as (Hr & Hc & Hok). destruct (ledger_serve exact c r Hr) as (d1 & H1 & E1).
  destruct (IH _ Hok) as (d2 & H2 & E2). exists (d2 ++ d1). split.
  - unfold channels in *. cbn [map concat].
    change (serveAll (r :: rounds) c) with
      (serveAll rounds (serve (rd_canceled r) (rd_input r) (rd_actions r) (rd_lost r) c)).
    set (rest := concat _) in *. transitivity (rest ++ channelOf (rd_input r) ++ ledger c); [solve_Permutation|].
    rewrite H1. transitivity (d1 ++ rest ++ ledger (serve (rd_canceled r) (rd_input r) (rd_actions r) (rd_lost r) c));
      [solve_Permutation|].
    rewrite H2. solve_Permutation.
  - intros He. by rewrite E1, E2, Hc.
Qed.

(** ** Guarantees *)

Lemma NoDup_answered c dropped l :
  NoDup l -> l ≡ₚ dropped ++ ledger c -> NoDup (answered c).
Proof.
  intros Hnd Hp. rewrite Hp in Hnd. unfold ledger in Hnd.
  apply NoDup_app in Hnd as (_ & _ & Hnd). by apply NoDup_app in Hnd as (_ & _ & Hnd).
Qed.

(** No result channel receives a second answer.  Whatever the rounds, as long
    as requests come on distinct channels and the core gives each proposal at most
    one verdict, every channel is answered at most once, so the sends of the
    coordinator, on channels of capacity one, never block the Raft loop. *)
Theorem requests_are_answered_at_most_once limit metrics observing rounds :
  NoDup (channels rounds) ->
  rounds_ok false (newCommandCoordinator limit metrics observing) rounds ->
  NoDup (map fst (cc_answers (serveAll rounds (newCommandCoordinator limit metrics observing)))).
Proof.
  intros Hnd Hok. destruct (ledger_serveAll false rounds _ Hok) as (dropped & Hp & _).
  eapply NoDup_answered; [|exact Hp]. by rewrite app_nil_r.
Qed.

(** No request is forgotten.  When no context is canceled, each stepped
    proposal gets its verdict and read numbers are not reused, the requests that
    wait together with those answered are exactly the requests received, each
    once; and losing leadership answers all of them. *)
Theorem no_request_is_forgotten limit metrics observing rounds leaderID :
  let c0 := newCommandCoordinator limit metrics observing in
  rounds_ok true c0 rounds ->
  channels rounds ≡ₚ waiting (serveAll rounds c0) ++ map fst (cc_answers (serveAll rounds c0)) /\
  channels rounds ≡ₚ map fst (cc_answers (lostLeadership leaderID (serveAll rounds c0))).
Proof.
  intros c0 Hok. destruct (ledger_serveAll true rounds c0 Hok) as (dropped & Hp & Hd).
  rewrite (Hd eq_refl) in Hp. change (ledger c0) with (@nil N) in Hp. rewrite app_nil_r in Hp.
  split; [exact Hp|]. rewrite Hp. cbn [app]. rewrite <- (ledger_lost leaderID). done.
Qed.

Lemma state_handle action current c :
  cc_state (handle action current c).2 = applyAll (cc_state c) (applied [action]).
Proof.
  destruct action; cbn [handle]; try done.
  - unfold applyCommitted. cbn. destruct (apply (cc_state c) Entry) as [outcome state].
    set (c2 := if isMutationEntry Entry then _ else _).
    assert (Ec : cc_state c2 = state).
    { subst c2. unfold note. by repeat case_match. }
    set (c3 := if _ && _ then _ else c2).
    assert (Ec3 : cc_state c3 = state) by (subst c3; by destruct (_ && _)).
    by destruct (cc_pending c3 !! Index Entry).
  - destruct current as [[]|]; try done. by destruct (proposedMutation _) as [[]|].
  - by destruct current as [[]|].
  - destruct (cc_pendingReads c !! read); [|done]. by destruct (getValue _ _).
  - by destruct (cc_pendingReads c !! read).
Qed.

Lemma state_handleAll actions current c :
  cc_state (handleAll actions current c) = applyAll (cc_state c) (applied actions).
Proof.
  revert c. induction actions as [|a actions IH]; intros c; [done|]. cbn [handleAll].
  rewrite IH, state_handle. unfold applied. cbn. by destruct (applied_entry a).
Qed.

(** The coordinator's state is the log's.  Handling the actions of a step
    applies exactly the entries the core asks to apply, in their order, whatever
    requests wait. *)
Theorem coordinator_applies_the_log actions current c :
  cc_state (handleAll actions current c) = applyAll (cc_state c) (applied actions).
Proof. apply state_handleAll. Qed.

(** Whoever waits for a log position, the first proposer and every retry that
    joined it, receives the result of applying the entry committed there, and
    nobody waits for it any longer. *)
Theorem waiters_receive_the_applied_result entry c p proposals :
  cc_pending c !! Index entry = Some proposals -> p ∈ proposals ->
  let c' := (handle (ApplyEntry entry) None c).2 in
  (pp_result p, AnsweredProposal (apply (cc_state c) entry).1) ∈ cc_answers c' /\
  cc_pending c' !! Index entry = None.
Proof.
  intros Hi Hp. cbn [handle snd]. unfold applyCommitted. destruct (apply (cc_state c) entry) as [outcome state].
  set (c2 := if isMutationEntry entry then _ else _).
  assert (Ec : cc_pending c2 = cc_pending c) by (subst c2; unfold note; by repeat case_match).
  set (c3 := if _ && _ then _ else c2).
  assert (Ec3 : cc_pending c3 = cc_pending c) by (subst c3; by destruct (_ && _)).
  rewrite Ec3, Hi. cbn. split; [|apply lookup_delete_eq].
  apply elem_of_app. right. apply list_elem_of_fmap. by exists p.
Qed.

(** A mutation that is retried while the original is in flight is not
    proposed again: it waits for the original's log position. *)
Theorem retry_in_flight_joins_the_original event session sequence index result ctx c :
  proposedMutation event = Some (session, sequence) ->
  cc_inFlightMutations c !! session = Some (mkInFlight sequence index) ->
  exists c', beginProposal event result ctx c = (None, c') /\ cc_answers c' = cc_answers c /\
    exists waiters, cc_pending c' !! index = Some (waiters ++ [mkPendingProposal result ctx]).
Proof.
  intros Hm Hf. unfold beginProposal. rewrite Hm, Hf. cbn. rewrite N.eqb_refl.
  eexists. split; [done|]. split; [done|]. cbn. rewrite lookup_insert_eq. by eexists.
Qed.

(** ** Witnesses *)

Definition sampleSession : SessionID := replicate 16 x01.

Definition openRound : round :=
  mkRound (fun _ => false) (Some (proposalInput (ProposeSession 1 EntryOpenSession sampleSession) 1 1))
    [ProposalAccepted 1 1; ApplyEntry (mkLogEntry 1 1 EntryOpenSession sampleSession 0 "" [])] None.

Definition setRound (ch index : N) : round :=
  mkRound (fun _ => false) (Some (proposalInput (ProposeSet 2 sampleSession 1 "k" [x61]) ch ch))
    [ProposalAccepted 2 index] None.

Definition readRound : round :=
  mkRound (fun _ => false) (Some (readInput 7 4 4 "k")) [] None.

(** A Session is opened, a Set is proposed, retried while in flight, and a read
    waits. *)
Definition sampleRounds : list round := [openRound; setRound 2 2; setRound 3 3; readRound].

Lemma requests_are_answered_at_most_once_witness :
  NoDup (map fst (cc_answers (serveAll sampleRounds (newCommandCoordinator 10 None false)))).
Proof.
  apply (requests_are_answered_at_most_once 10 None false sampleRounds).
  - by apply (bool_decide_unpack _).
  - cbn [rounds_ok sampleRounds]. split_and!; try done; vm_compute; auto.
Defined.

Lemma no_request_is_forgotten_witness :
  let c := serveAll sampleRounds (newCommandCoordinator 10 None false) in
  channels sampleRounds ≡ₚ waiting c ++ map fst (cc_answers c) /\
  channels sampleRounds ≡ₚ map fst (cc_answers (lostLeadership "n2" c)).
Proof.
  apply (no_request_is_forgotten 10 None false sampleRounds "n2").
  cbn [rounds_ok sampleRounds]. split_and!; try done; vm_compute; try done; congruence.
Defined.

Lemma waiters_receive_the_applied_result_witness :
  exists c c', (3, AnsweredProposal (apply (cc_state c) (mkLogEntry 2 1 EntrySet sampleSession 1 "k" [x61])).1)
    ∈ cc_answers c' /\ cc_pending c' !! 2 = None.
Proof.
  exists (serveAll sampleRounds (newCommandCoordinator 10 None false)). eexists.
  apply (waiters_receive_the_applied_result (mkLogEntry 2 1 EntrySet sampleSession 1 "k" [x61])
    (serveAll sampleRounds (newCommandCoordinator 10 None false)) (mkPendingProposal 3 3)
    [mkPendingProposal 2 2; mkPendingProposal 3 3]); [vm_compute; reflexivity|].
  apply elem_of_cons. right. by apply elem_of_cons; left.
Defined.

Lemma retry_in_flight_joins_the_original_witness :
  exists c c', beginProposal (ProposeSet 9 sampleSession 1 "k" [x61]) 5 5 c = (None, c') /\
    exists waiters, cc_pending c' !! 2 = Some (waiters ++ [mkPendingProposal 5 5]).
Proof.
  exists (serveAll sampleRounds (newCommandCoordinator 10 None false)).
  destruct (retry_in_flight_joins_the_original (ProposeSet 9 sampleSession 1 "k" [x61]) sampleSession 1 2 5 5
    (serveAll sampleRounds (newCommandCoordinator 10 None false)))
    as (c' & Hb & _ & Hw); [reflexivity|vm_compute; reflexivity|].
  exists c'. by split.
Defined.
