(* ===== verification/Float.v ===== *)
(** IEEE 754 binary64, as Go's [float64] of the durations and percentiles. *)

From S2P Require Import Prelude.
From Stdlib Require Import SpecFloat.

(** [float64] arithmetic, round to nearest even. *)
Definition f64 (z : Z) : spec_float := binary_normalize 53 1024 z 0 false.
Definition f64_div := SFdiv 53 1024.
Definition f64_mul := SFmul 53 1024.
Definition f64_add := SFadd 53 1024.

(** [int(math.Ceil(x))]. *)
Definition ceil (x : spec_float) : Z :=
  match x with
  | S754_finite s m e =>
      let signed := if s then Z.neg m else Z.pos m in
      if (0 <=? e)%Z then (signed * 2 ^ e)%Z else (- ((- signed) / 2 ^ (- e)))%Z
  | _ => 0%Z
  end.

(** The conversion to an integer of a number that is not negative. *)
Definition truncate (x : spec_float) : Z :=
  match x with
  | S754_finite false m e => if (0 <=? e)%Z then (Z.pos m * 2 ^ e)%Z else (Z.pos m / 2 ^ (- e))%Z
  | _ => 0%Z
  end.
