(* ===== verification/Flags.v ===== *)
(** Command line flags: what the commands use of Go's [flag] package, with the integers and durations
    its values are parsed as ([strconv.ParseInt] with base 0 and [time.ParseDuration]). *)

From S2P Require Import Prelude Bytes Float.

Local Open Scope Z_scope.

(** ** Integers *)

Definition isDigit (b : byte) : bool := ((48 <=? byte_to_N b) && (byte_to_N b <=? 57))%N.

(** [lower] of strconv: it sets the bit that tells cases apart. *)
Definition lower (b : byte) : N := N.lor (byte_to_N b) 32.

Definition digitValue (b : byte) : option Z :=
  if isDigit b then Some (Z.of_N (byte_to_N b) - 48)
  else if ((97 <=? lower b) && (lower b <=? 122))%N then Some (Z.of_N (lower b) - 87)
  else None.

(** The base a literal announces, and what follows the announcement. *)
Definition literalBase (l : list byte) : Z * list byte :=
  match l with
  | [] => (10, [])
  | zero :: rest =>
      if negb (bool_decide (zero = x30)) then (10, l)
      else
        match rest with
        | x :: d :: more =>
            if (lower x =? 98)%N then (2, d :: more)
            else if (lower x =? 111)%N then (8, d :: more)
            else if (lower x =? 120)%N then (16, d :: more)
            else (8, rest)
        | _ => (8, rest)
        end
  end.

(** The digits of a literal; [None] is a syntax error or a value out of range. *)
Fixpoint literalDigits (base : Z) (l : list byte) (n : Z) : option Z :=
  match l with
  | [] => Some n
  | b :: l =>
      if bool_decide (b = x5f) then literalDigits base l n
      else match digitValue b with
           | Some d => if (d <? base) && (n * base + d <? 18446744073709551616) then literalDigits base l (n * base + d) else None
           | None => None
           end
  end.

(** What [underscoreOK] saw last: the start, a digit, an underscore or something else. *)
Inductive saw := sawStart | sawDigit | sawUnderscore | sawOther.

Fixpoint underscoresBetween (hex : bool) (last : saw) (l : list byte) : bool :=
  match l with
  | [] => match last with sawUnderscore => false | _ => true end
  | b :: l =>
      if isDigit b || hex && ((97 <=? lower b) && (lower b <=? 102))%N then underscoresBetween hex sawDigit l
      else if bool_decide (b = x5f) then match last with sawDigit => underscoresBetween hex sawUnderscore l | _ => false end
      else match last with sawUnderscore => false | _ => underscoresBetween hex sawOther l end
  end.

Definition underscoreOK (l : list byte) : bool :=
  match l with
  | zero :: x :: rest =>
      if bool_decide (zero = x30) && ((lower x =? 98) || (lower x =? 111) || (lower x =? 120))%N
      then underscoresBetween (lower x =? 120)%N sawDigit rest
      else underscoresBetween false sawStart l
  | _ => underscoresBetween false sawStart l
  end.

(** [strconv.ParseUint(s, 0, 64)]. *)
Definition parseUnsigned (l : list byte) : option Z :=
  match l with
  | [] => None
  | _ =>
      let '(base, digits) := literalBase l in
      match literalDigits base digits 0 with
      | Some n => if existsb (fun b => bool_decide (b = x5f)) digits && negb (underscoreOK l) then None else Some n
      | None => None
      end
  end.

(** The sign of a number and the rest. *)
Definition readSign (l : list byte) : bool * list byte :=
  match l with
  | b :: rest => if bool_decide (b = x2d) then (true, rest) else if bool_decide (b = x2b) then (false, rest) else (false, l)
  | [] => (false, [])
  end.

(** [strconv.ParseInt(s, 0, 64)]. *)
Definition parseInt (s : string) : option Z :=
  let '(negative, l) := readSign (string_bytes s) in
  match parseUnsigned l with
  | Some n =>
      if negative then (if n <=? 9223372036854775808 then Some (- n) else None)
      else (if n <? 9223372036854775808 then Some n else None)
  | None => None
  end.

(** ** Durations *)

Definition maxDuration : Z := 9223372036854775808.

(** [leadingInt]: the leading digits as a number; [None] is an overflow. *)
Fixpoint leadingInt (l : list byte) (x : Z) : option (Z * list byte) :=
  match l with
  | b :: rest =>
      if isDigit b then
        if maxDuration / 10 <? x then None
        else
          let x := x * 10 + (Z.of_N (byte_to_N b) - 48) in
          if maxDuration <? x then None else leadingInt rest x
      else Some (x, l)
  | [] => Some (x, [])
  end.

(** [leadingFraction]: the digits of a fraction, the power of ten they stand over, and the rest; further digits are ignored. *)
Fixpoint leadingFraction (l : list byte) (x scale : Z) (overflow : bool) : Z * Z * list byte :=
  match l with
  | b :: rest =>
      if isDigit b then
        let y := x * 10 + (Z.of_N (byte_to_N b) - 48) in
        if overflow || ((maxDuration - 1) / 10 <? x) || (maxDuration <? y) then leadingFraction rest x scale true
        else leadingFraction rest y (scale * 10) false
      else (x, scale, l)
  | [] => (x, scale, [])
  end.

(** A fraction, if one follows. *)
Definition readFraction (l : list byte) : Z * Z * list byte :=
  match l with
  | point :: rest => if bool_decide (point = x2e) then leadingFraction rest 0 1 false else (0, 1, l)
  | [] => (0, 1, [])
  end.

(** The characters of a unit. *)
Fixpoint leadingUnit (l : list byte) : list byte * list byte :=
  match l with
  | b :: rest =>
      if isDigit b || bool_decide (b = x2e) then ([], l)
      else let '(u, rest) := leadingUnit rest in (b :: u, rest)
  | [] => ([], [])
  end.

(** [unitMap]; the micro sign and the Greek letter are two bytes of UTF-8 each. *)
Definition unitOf (u : list byte) : option Z :=
  if bool_decide (u = string_bytes "ns") then Some 1
  else if bool_decide (u = string_bytes "us") || bool_decide (u = [xc2; xb5; x73]) || bool_decide (u = [xce; xbc; x73])
  then Some 1000
  else if bool_decide (u = string_bytes "ms") then Some 1000000
  else if bool_decide (u = string_bytes "s") then Some 1000000000
  else if bool_decide (u = string_bytes "m") then Some 60000000000
  else if bool_decide (u = string_bytes "h") then Some 3600000000000
  else None.

(** One number with its unit, in nanoseconds, and the rest. *)
Definition readTerm (l : list byte) : option (Z * list byte) :=
  match l with
  | b :: _ =>
      if isDigit b || bool_decide (b = x2e) then
        match leadingInt l 0 with
        | None => None
        | Some (v, l1) =>
            let '(f, scale, l2) := readFraction l1 in
            let digits := isDigit b || match l1 with point :: d :: _ => bool_decide (point = x2e) && isDigit d | _ => false end in
            let '(u, rest) := leadingUnit l2 in
            if negb digits then None
            else
              match unitOf u with
              | None => None
              | Some unit =>
                  if maxDuration / unit <? v then None
                  else
                    let v := v * unit + (if 0 <? f then truncate (f64_mul (f64 f) (f64_div (f64 unit) (f64 scale))) else 0) in
                    if maxDuration <? v then None else Some (v, rest)
              end
        end
      else None
  | [] => None
  end.

Fixpoint readTerms (fuel : nat) (l : list byte) (d : Z) : option Z :=
  match l, fuel with
  | [], _ => Some d
  | _, O => None
  | _, S fuel =>
      match readTerm l with
      | Some (v, rest) =>
          let d := (d + v) mod 18446744073709551616 in
          if maxDuration <? d then None else readTerms fuel rest d
      | None => None
      end
  end.

(** [time.ParseDuration], in nanoseconds. *)
Definition parseDuration (s : string) : option Z :=
  let '(negative, l) := readSign (string_bytes s) in
  if bool_decide (l = [x30]) then Some 0
  else
    match l with
    | [] => None
    | _ =>
        match readTerms (length l) l 0 with
        | Some d => if negative then Some (- d) else if maxDuration - 1 <? d then None else Some d
        | None => None
        end
    end.

(** ** Flags *)

(** The value of a flag, of the type it was declared with. *)
Inductive flagValue := stringFlag (s : string) | intFlag (z : Z) | durationFlag (nanoseconds : Z).

(** [Value.Set]; [None] is an error. *)
Definition setFlag (old : flagValue) (text : string) : option flagValue :=
  match old with
  | stringFlag _ => Some (stringFlag text)
  | intFlag _ => option_map intFlag (parseInt text)
  | durationFlag _ => option_map durationFlag (parseDuration text)
  end.

Inductive flagError :=
| badSyntax (argument : string) | undefinedFlag (name : string) | helpRequested
| missingArgument (name : string) | invalidValue (text name : string).

(** An argument that begins with a dash: the name of a flag and the value given with it. *)
Inductive argument := plainArgument | terminator | malformed | flagArgument (name : string) (given : option string).

Fixpoint indexEquals (l : list byte) : option nat :=
  match l with [] => None | b :: l => if bool_decide (b = x3d) then Some 0%nat else option_map S (indexEquals l) end.

(** Cuts at the first [=] after the first byte. *)
Definition cutValue (l : list byte) : string * option string :=
  match l with
  | [] => ("", None)
  | b :: l =>
      match indexEquals l with
      | Some i => (bytes_string (b :: take i l), Some (bytes_string (drop (S i) l)))
      | None => (bytes_string (b :: l), None)
      end
  end.

Definition readName (l : list byte) : argument :=
  match l with
  | [] => malformed
  | b :: _ =>
      if bool_decide (b = x2d) || bool_decide (b = x3d) then malformed
      else let '(name, given) := cutValue l in flagArgument name given
  end.

Definition readArgument (s : string) : argument :=
  match string_bytes s with
  | dash :: b :: l =>
      if negb (bool_decide (dash = x2d)) then plainArgument
      else if bool_decide (b = x2d) then match l with [] => terminator | _ => readName l end
      else readName (b :: l)
  | _ => plainArgument
  end.

(** [FlagSet.Parse]: the values of the flags and the arguments after them. *)
Fixpoint parseFlags (formal : gmap string flagValue) (arguments : list string)
    : result flagError (gmap string flagValue * list string) :=
  match arguments with
  | [] => Ok (formal, [])
  | s :: rest =>
      match readArgument s with
      | plainArgument => Ok (formal, arguments)
      | terminator => Ok (formal, rest)
      | malformed => Err (badSyntax s)
      | flagArgument name given =>
          match formal !! name with
          | None => Err (if bool_decide (name = "help") || bool_decide (name = "h") then helpRequested else undefinedFlag name)
          | Some old =>
              match given, rest with
              | Some text, _ =>
                  match setFlag old text with
                  | Some value => parseFlags (<[name := value]> formal) rest
                  | None => Err (invalidValue text name)
                  end
              | None, text :: rest =>
                  match setFlag old text with
                  | Some value => parseFlags (<[name := value]> formal) rest
                  | None => Err (invalidValue text name)
                  end
              | None, [] => Err (missingArgument name)
              end
          end
      end
  end.

(** ** Durations are read to their end *)

Lemma leadingInt_shrinks l x v rest : leadingInt l x = Some (v, rest) -> (length rest <= length l)%nat.
Proof.
  revert x. induction l as [|b l IH]; intros x; cbn [leadingInt]; [by intros [= <- <-]|].
  destruct (isDigit b); [|by intros [= <- <-]]. cbn zeta. destruct (_ <? _)%Z; [done|]. destruct (_ <? _)%Z; [done|].
  intros ?%IH. cbn. lia.
Qed.

Lemma leadingFraction_shrinks l x scale o f scale' rest :
  leadingFraction l x scale o = (f, scale', rest) -> (length rest <= length l)%nat.
Proof.
  revert x scale o. induction l as [|b l IH]; intros x scale o; cbn [leadingFraction]; [by intros [= <- <- <-]|].
  destruct (isDigit b); [|by intros [= <- <- <-]]. cbn zeta. destruct (_ || _); intros ?%IH; cbn; lia.
Qed.

Lemma leadingUnit_shrinks l u rest : leadingUnit l = (u, rest) -> (length u + length rest = length l)%nat.
Proof.
  revert u. induction l as [|b l IH]; intros u; cbn [leadingUnit]; [by intros [= <- <-]|].
  destruct (_ || _); [by intros [= <- <-]|]. destruct (leadingUnit l) as [u' rest'].
  intros [= <- <-]. cbn. by rewrite (IH u').
Qed.

Lemma readTerm_shrinks l v rest : readTerm l = Some (v, rest) -> (length rest < length l)%nat.
Proof.
  unfold readTerm. destruct l as [|b l]; [done|]. destruct (_ || _); [|done].
  destruct (leadingInt (b :: l) 0) as [[x l1]|] eqn:Hi; [|done]. apply leadingInt_shrinks in Hi.
  destruct (readFraction l1) as [[f scale] l2] eqn:Hf.
  assert (Hl : (length l2 <= length l1)%nat).
  { unfold readFraction in Hf. destruct l1 as [|c l1]; [by injection Hf as <- <- <-|].
    destruct (bool_decide _); [apply leadingFraction_shrinks in Hf; cbn; lia|by injection Hf as <- <- <-]. }
  destruct (leadingUnit l2) as [u rest'] eqn:Hu. apply leadingUnit_shrinks in Hu.
  destruct (negb _); [done|]. destruct (unitOf u) as [unit|] eqn:Hun; [|done].
  assert (u <> []) by (intros ->; done). destruct u; [done|]. cbn in Hu.
  destruct (_ <? _); [done|]. cbn zeta. destruct (_ <? _); [done|]. intros [= <- <-]. lia.
Qed.

(** The length of the text is fuel enough. *)
Lemma readTerms_fuel fuel l d : (length l <= fuel)%nat -> readTerms fuel l d = readTerms (length l) l d.
Proof.
  revert l d. induction fuel as [fuel IH] using lt_wf_ind; intros l d Hf.
  destruct l as [|b l]; [by destruct fuel|]. destruct fuel as [|fuel]; [cbn in Hf; lia|]. cbn [readTerms length].
  destruct (readTerm (b :: l)) as [[v rest]|] eqn:Hr; [|done]. apply readTerm_shrinks in Hr. cbn in Hr, Hf.
  cbn zeta. destruct (_ <? _); [done|]. rewrite (IH fuel), (IH (length l)) by lia. done.
Qed.

(** ** Flags that are printed are parsed *)

(** A flag and its value as one argument. *)
Definition printFlag (setting : string * string) : string :=
  bytes_string (x2d :: string_bytes setting.1 ++ x3d :: string_bytes setting.2).

(** A name that can be given on a command line. *)
Definition nameable_flag (name : string) : Prop :=
  exists b l, string_bytes name = b :: l /\ b <> x2d /\ (x3d ∉ b :: l).

(** The flags after the settings, in their order. *)
Fixpoint applySettings (formal : gmap string flagValue) (settings : list (string * string)) : option (gmap string flagValue) :=
  match settings with
  | [] => Some formal
  | (name, text) :: settings =>
      match formal !! name with
      | Some old =>
          match setFlag old text with
          | Some value => applySettings (<[name := value]> formal) settings
          | None => None
          end
      | None => None
      end
  end.

Lemma indexEquals_app l k : x3d ∉ l -> indexEquals (l ++ x3d :: k) = Some (length l).
Proof.
  induction l as [|b l IH]; intros Hn; cbn; [done|]. apply not_elem_of_cons in Hn as [Hb Hn].
  rewrite bool_decide_eq_false_2 by congruence. by rewrite IH.
Qed.

Lemma readArgument_print name text : nameable_flag name -> readArgument (printFlag (name, text)) = flagArgument name (Some text).
Proof.
  intros (b & l & Hb & Hd & He). apply not_elem_of_cons in He as [He Hl].
  unfold readArgument, printFlag. rewrite string_bytes_of_bytes. cbn [fst snd]. rewrite Hb. cbn [app].
  rewrite bool_decide_eq_true_2, bool_decide_eq_false_2 by done. cbn [negb]. unfold readName, cutValue.
  rewrite !bool_decide_eq_false_2 by congruence. cbn [orb]. rewrite indexEquals_app by done. rewrite take_app_length.
  rewrite drop_app_ge, Nat.sub_succ_l, Nat.sub_diag by lia. cbn [drop]. rewrite <- Hb, drop_0.
  by rewrite !bytes_string_of_string.
Qed.

Lemma parseFlags_settings formal settings words formal' :
  Forall (fun s => nameable_flag s.1) settings -> applySettings formal settings = Some formal' ->
  parseFlags formal (map printFlag settings ++ words) = parseFlags formal' words.
Proof.
  intros Hf. revert formal. induction Hf as [|[name text] settings Hn Hf IH]; intros formal; cbn [applySettings map app].
  { by intros [= <-]. }
  destruct (formal !! name) as [old|] eqn:Ho; [|done]. destruct (setFlag old text) as [value|] eqn:Hs; [|done].
  intros Hset. cbn [parseFlags]. rewrite readArgument_print by done. rewrite Ho. cbn. rewrite Hs. by apply IH.
Qed.

(** ** Values stay in range *)

(** What every value that can be set satisfies, the parsed flags satisfy. *)
Lemma parseFlags_keeps (P : flagValue -> Prop) formal arguments formal' words :
  (forall old text value, setFlag old text = Some value -> P value) ->
  (forall name value, formal !! name = Some value -> P value) ->
  parseFlags formal arguments = Ok (formal', words) -> forall name value, formal' !! name = Some value -> P value.
Proof.
  intros Hset. remember (length arguments) as n eqn:Hn. revert arguments Hn formal.
  induction n as [n IH] using lt_wf_ind. intros arguments Hn formal Hf.
  assert (Hstep : forall name old text value rest, setFlag old text = Some value -> (length rest < n)%nat ->
    parseFlags (<[name := value]> formal) rest = Ok (formal', words) -> forall name value, formal' !! name = Some value -> P value).
  { intros name old text value rest Hs Hl. apply (IH (length rest) Hl rest eq_refl). intros name' value'.
    destruct (decide (name' = name)) as [->|Hne]; [rewrite lookup_insert_eq; intros [= <-]; by eapply Hset|].
    rewrite lookup_insert_ne by done. apply Hf. }
  destruct arguments as [|s rest]; cbn [parseFlags]; [by intros [= <- <-]|]. cbn in Hn.
  destruct (readArgument s) as [| | |name given]; [by intros [= <- <-]|by intros [= <- <-]|done|].
  destruct (formal !! name) as [old|]; [|done].
  destruct given as [text|]; [|destruct rest as [|text rest]; [done|]]; (destruct (setFlag old text) as [value|] eqn:Hs; [|done]);
    apply (Hstep name old text value rest Hs); cbn in Hn; lia.
Qed.

(** A 64-bit integer. *)
Definition flagInRange (value : flagValue) : Prop :=
  match value with intFlag z => -9223372036854775808 <= z < 9223372036854775808 | _ => True end.

Lemma digitValue_nonneg b d : digitValue b = Some d -> 0 <= d.
Proof.
  unfold digitValue, isDigit. destruct (_ && _)%N eqn:Hd; [apply andb_prop in Hd as [Hd _]; apply N.leb_le in Hd; intros [= <-]; lia|].
  clear Hd. destruct ((97 <=? lower b) && (lower b <=? 122))%N eqn:Hl; [|by intros [=]].
  apply andb_prop in Hl as [Hl _]. apply N.leb_le in Hl. intros [= <-]. lia.
Qed.

Lemma literalDigits_nonneg base l n m : 0 <= base -> 0 <= n -> literalDigits base l n = Some m -> 0 <= m.
Proof.
  intros Hb. revert n. induction l as [|b l IH]; intros n Hn; cbn [literalDigits]; [by intros [= <-]|].
  case_bool_decide; [by apply IH|]. destruct (digitValue b) as [d|] eqn:Hd; [|done]. apply digitValue_nonneg in Hd.
  destruct (_ && _); [|done]. apply IH. nia.
Qed.

Lemma literalBase_nonneg l base digits : literalBase l = (base, digits) -> 0 <= base.
Proof.
  unfold literalBase. destruct l as [|c l]; [intros [= <- <-]; lia|]. destruct (negb _); [intros [= <- <-]; lia|].
  destruct l as [|x [|d l]]; try (intros [= <- <-]; lia). repeat destruct (_ =? _)%N; intros [= <- <-]; lia.
Qed.

Lemma parseUnsigned_nonneg l n : parseUnsigned l = Some n -> 0 <= n.
Proof.
  unfold parseUnsigned. destruct l as [|c l]; [done|]. destruct (literalBase (c :: l)) as [base digits] eqn:Hb.
  apply literalBase_nonneg in Hb. destruct (literalDigits base digits 0) as [m|] eqn:Hl; [|done].
  destruct (_ && _); [done|]. intros [= <-]. by eapply literalDigits_nonneg in Hl.
Qed.

Lemma parseInt_range s z : parseInt s = Some z -> -9223372036854775808 <= z < 9223372036854775808.
Proof.
  unfold parseInt. destruct (readSign _) as [negative l]. destruct (parseUnsigned l) as [n|] eqn:Hu; [|done].
  apply parseUnsigned_nonneg in Hu. destruct negative; [destruct (_ <=? _) eqn:Hl|destruct (_ <? _) eqn:Hl]; try done;
    intros [= <-]; [apply Z.leb_le in Hl|apply Z.ltb_lt in Hl]; lia.
Qed.

Lemma setFlag_range old text value : setFlag old text = Some value -> flagInRange value.
Proof.
  destruct old; cbn; [by intros [= <-]| |destruct (parseDuration text); [by intros [= <-]|done]].
  destruct (parseInt text) eqn:Hp; [|done]. intros [= <-]. by apply parseInt_range in Hp.
Qed.
