(* ===== verification/Config.v ===== *)
(** The static configuration of [internal/config/config.go].  [Validate] returns
    the list of problems it joins into one error; Go visits the members in an
    unspecified order, the model in the order of the map's keys. *)

From S2P Require Import Prelude Bytes RaftTypes.

(** ** Data *)

Record Member := mkMember { mb_PeerAddress : string; mb_ClientAddress : string }.

Record NodeConfig := mkNodeConfig {
  nc_ID : string; nc_DataDir : string; nc_MetricsAddress : string }.

Record Config := mkConfig {
  cf_Version : Z; cf_ClusterID : string; cf_ActiveSessionLimit : Z;
  cf_SnapshotThresholdBytes : Z; cf_Node : NodeConfig; cf_Members : gmap string Member }.

Definition DefaultSnapshotThresholdBytes : Z := 67108864.

(** ** Addresses *)

(** [strings.IndexByte] and [strings.LastIndexByte]. *)
Fixpoint indexByte (b : byte) (l : list byte) : option nat :=
  match l with
  | [] => None
  | x :: l => if bool_decide (x = b) then Some 0%nat else option_map S (indexByte b l)
  end.

Fixpoint lastIndexByte (b : byte) (l : list byte) : option nat :=
  match l with
  | [] => None
  | x :: l =>
      match lastIndexByte b l with
      | Some i => Some (S i)
      | None => if bool_decide (x = b) then Some 0%nat else None
      end
  end.

Definition contains (b : byte) (l : list byte) : bool := bool_decide (is_Some (indexByte b l)).

(** [net.SplitHostPort]; [None] is an error. *)
Definition SplitHostPort (hostport : list byte) : option (list byte * list byte) :=
  let colon := x3a in let open_ := x5b in let close := x5d in
  match lastIndexByte colon hostport with
  | None => None
  | Some i =>
      let finish host j k :=
        if contains open_ (drop j hostport) || contains close (drop k hostport) then None
        else Some (host, drop (S i) hostport) in
      if bool_decide (hostport !! 0%nat = Some open_) then
        match indexByte close hostport with
        | None => None
        | Some close_at =>
            if (S close_at =? i)%nat
            then finish (drop 1 (take close_at hostport)) 1%nat (S close_at)
            else None
        end
      else if contains colon (take i hostport) then None
      else finish (take i hostport) 0%nat 0%nat
  end.

Inductive addressProblem :=
| addressRequired | addressSyntax | hostRequired | portNonZero.

Definition validateAddress (address : string) : option addressProblem :=
  if blank_string address then Some addressRequired
  else
    match SplitHostPort (string_bytes address) with
    | None => Some addressSyntax
    | Some (host, port) =>
        if bool_decide (host = []) then Some hostRequired
        else if bool_decide (port = []) || bool_decide (port = [x30]) then Some portNonZero
        else None
    end.

(** ** Validation *)

Inductive addressField := peerAddress (id : string) | clientAddress (id : string) | metricsAddress.

Inductive problem :=
| versionMustBe1 | clusterIDRequired | sessionLimitTooSmall | sessionLimitTooLarge
| negativeThreshold | nodeIDRequired | dataDirRequired
| badAddress (field : addressField) (p : addressProblem)
| wrongMemberCount | nodeNotMember | emptyMemberID
| duplicateAddress (field owner : addressField).

(** One address of the member loop, with the addresses seen so far. *)
Definition checkAddress (seen : gmap string addressField) (field : addressField) (address : string)
    : list problem * gmap string addressField :=
  match validateAddress address with
  | Some p => ([badAddress field p], seen)
  | None =>
      match seen !! address with
      | Some owner => ([duplicateAddress field owner], seen)
      | None => ([], <[address := field]> seen)
      end
  end.

Fixpoint checkMembers (seen : gmap string addressField) (members : list (string * Member))
    : list problem :=
  match members with
  | [] => []
  | (id, member) :: members =>
      let named := if blank_string id then [emptyMemberID] else [] in
      let '(p1, seen) := checkAddress seen (peerAddress id) (mb_PeerAddress member) in
      let '(p2, seen) := checkAddress seen (clientAddress id) (mb_ClientAddress member) in
      named ++ p1 ++ p2 ++ checkMembers seen members
  end.

Definition Validate (c : Config) : list problem :=
  (if negb (cf_Version c =? 1)%Z then [versionMustBe1] else [])
  ++ (if blank_string (cf_ClusterID c) then [clusterIDRequired] else [])
  ++ (if (cf_ActiveSessionLimit c <? 1)%Z then [sessionLimitTooSmall]
      else if (4294967295 <? cf_ActiveSessionLimit c)%Z then [sessionLimitTooLarge] else [])
  ++ (if (cf_SnapshotThresholdBytes c <? 0)%Z then [negativeThreshold] else [])
  ++ (if blank_string (nc_ID (cf_Node c)) then [nodeIDRequired] else [])
  ++ (if blank_string (nc_DataDir (cf_Node c)) then [dataDirRequired] else [])
  ++ (if negb (bool_decide (nc_MetricsAddress (cf_Node c) = "")) then
        match validateAddress (nc_MetricsAddress (cf_Node c)) with
        | Some p => [badAddress metricsAddress p]
        | None => []
        end
      else [])
  ++ (if negb (size (cf_Members c) =? 3)%nat then [wrongMemberCount] else [])
  ++ (if negb (bool_decide (nc_ID (cf_Node c) = ""))
         && bool_decide (cf_Members c !! nc_ID (cf_Node c) = None) then [nodeNotMember] else [])
  ++ checkMembers ∅ (map_to_list (cf_Members c)).

Definition LocalMember (c : Config) : Member :=
  default (mkMember "" "") (cf_Members c !! nc_ID (cf_Node c)).

Definition EffectiveSnapshotThresholdBytes (c : Config) : Z :=
  if (cf_SnapshotThresholdBytes c =? 0)%Z then DefaultSnapshotThresholdBytes
  else cf_SnapshotThresholdBytes c.

(** ** What a valid configuration is *)

Definition memberAddresses (members : list (string * Member)) : list string :=
  concat (map (fun p => [mb_PeerAddress p.2; mb_ClientAddress p.2]) members).

Definition unbracketed (l : list byte) : Prop := (x5b ∉ l) /\ (x5d ∉ l).

(** A host and a port: [host:port], or [[host]:port] when the host has colons of its own. *)
Inductive hostAndPort (host port : list byte) : list byte -> Prop :=
| hp_name : x3a ∉ host -> unbracketed host -> unbracketed port -> x3a ∉ port ->
    hostAndPort host port (host ++ [x3a] ++ port)
| hp_bracketed : unbracketed host -> unbracketed port -> x3a ∉ port ->
    hostAndPort host port ([x5b] ++ host ++ [x5d; x3a] ++ port).

(** The host is not empty, and the port neither empty nor [0]. *)
Definition wellFormed (address : string) : Prop :=
  exists host port, hostAndPort host port (string_bytes address) /\ host <> [] /\ port <> [] /\ port <> string_bytes "0".

Record valid (c : Config) : Prop := {
  vl_version : cf_Version c = 1%Z;
  vl_cluster : blank_string (cf_ClusterID c) = false;
  vl_limit : (1 <= cf_ActiveSessionLimit c <= 4294967295)%Z;
  vl_threshold : (0 <= cf_SnapshotThresholdBytes c)%Z;
  vl_dataDir : blank_string (nc_DataDir (cf_Node c)) = false;
  vl_metrics : nc_MetricsAddress (cf_Node c) = "" \/ wellFormed (nc_MetricsAddress (cf_Node c));
  vl_three : size (cf_Members c) = 3%nat;
  vl_local : is_Some (cf_Members c !! nc_ID (cf_Node c));
  vl_names id : is_Some (cf_Members c !! id) -> blank_string id = false;
  vl_addresses : Forall wellFormed (memberAddresses (map_to_list (cf_Members c)));
  vl_distinct : NoDup (memberAddresses (map_to_list (cf_Members c))) }.

Lemma indexByte_spec b l :
  match indexByte b l with
  | Some i => exists before after, l = before ++ b :: after /\ length before = i /\ b ∉ before
  | None => b ∉ l
  end.
Proof.
  induction l as [|x l IH]; cbn; [apply not_elem_of_nil|]. case_bool_decide as Hx.
  - subst. exists [], l. split_and!; [done|done|apply not_elem_of_nil].
  - destruct (indexByte b l) as [i|]; cbn.
    + destruct IH as (before & after & -> & <- & Hn). exists (x :: before), after. split_and!; [done|done|].
      apply not_elem_of_cons. by split; [apply not_eq_sym|].
    + apply not_elem_of_cons. by split; [apply not_eq_sym|].
Qed.

Lemma lastIndexByte_spec b l :
  match lastIndexByte b l with
  | Some i => exists before after, l = before ++ b :: after /\ length before = i /\ b ∉ after
  | None => b ∉ l
  end.
Proof.
  induction l as [|x l IH]; cbn; [apply not_elem_of_nil|]. destruct (lastIndexByte b l) as [i|].
  - destruct IH as (before & after & -> & <- & Hn). by exists (x :: before), after.
  - case_bool_decide as Hx; [subst; by exists [], l|]. apply not_elem_of_cons. by split; [apply not_eq_sym|].
Qed.

Lemma contains_false b l : contains b l = false <-> b ∉ l.
Proof.
  unfold contains. rewrite bool_decide_eq_false. pose proof (indexByte_spec b l) as H.
  destruct (indexByte b l) as [i|]; [|split; [done|by intros _ []]].
  destruct H as (before & after & -> & _ & _). split; [intros []; by eexists|].
  intros Hn. destruct Hn. apply elem_of_app. right. apply list_elem_of_here.
Qed.

(** The last occurrence determines the split. *)
Lemma lastIndexByte_at b before after : b ∉ after -> lastIndexByte b (before ++ b :: after) = Some (length before).
Proof.
  intros Hn. induction before as [|x before IH]; cbn; [|by rewrite IH].
  pose proof (lastIndexByte_spec b after) as H. destruct (lastIndexByte b after).
  - destruct H as (u & v & -> & _ & _). destruct Hn. apply elem_of_app. right. apply list_elem_of_here.
  - by rewrite bool_decide_true.
Qed.

Lemma indexByte_at b before after : b ∉ before -> indexByte b (before ++ b :: after) = Some (length before).
Proof.
  induction before as [|x before IH]; cbn; [by rewrite bool_decide_true|]. intros [Hx Hn]%not_elem_of_cons.
  rewrite bool_decide_false by auto. by rewrite IH.
Qed.

Lemma drop_past {A} (l k : list A) x : drop (S (length l)) (l ++ x :: k) = k.
Proof. by induction l. Qed.

Lemma split_complete l host port : hostAndPort host port l -> SplitHostPort l = Some (host, port).
Proof.
  unfold SplitHostPort. destruct 1 as [Hc [Ho1 Hc1] [Ho2 Hc2] Hp|[Ho1 Hc1] [Ho2 Hc2] Hp].
  - cbn [app]. rewrite lastIndexByte_at by done. rewrite bool_decide_false.
    + rewrite take_app_length, (proj2 (contains_false x3a host)) by done. cbv beta iota zeta.
      rewrite drop_past, !drop_0. rewrite !(proj2 (contains_false _ _)); [done|..];
        rewrite elem_of_app, elem_of_cons; intuition done.
    + destruct host as [|x host]; cbn; [done|]. intros [= ->]. apply Ho1, list_elem_of_here.
  - remember ([x5b] ++ host ++ [x5d; x3a] ++ port) as l eqn:El.
    assert (E1 : l = (x5b :: host) ++ x5d :: x3a :: port) by done.
    assert (E2 : l = (x5b :: host ++ [x5d]) ++ x3a :: port) by (rewrite El; cbn; by rewrite <- app_assoc).
    assert (Hi : lastIndexByte x3a l = Some (S (length (x5b :: host)))).
    { rewrite E2, lastIndexByte_at by done. cbn. by rewrite length_app, Nat.add_1_r. }
    assert (Hc : indexByte x5d l = Some (length (x5b :: host))) by (rewrite E1; apply indexByte_at, not_elem_of_cons; done).
    assert (Hp1 : drop (S (S (length (x5b :: host)))) l = port).
    { rewrite <- (drop_past (x5b :: host ++ [x5d]) port x3a), <- E2. cbn. by rewrite length_app, Nat.add_1_r. }
    assert (Hp2 : drop (S (length (x5b :: host))) l = x3a :: port) by (rewrite E1; apply drop_past).
    assert (Hp3 : drop 1 l = host ++ x5d :: x3a :: port) by (by rewrite E1).
    assert (Hp4 : take (length (x5b :: host)) l = x5b :: host) by (rewrite E1; apply take_app_length).
    rewrite Hi, Hc, Nat.eqb_refl, Hp1, Hp2, Hp3, Hp4. rewrite bool_decide_true by (by rewrite E1).
    rewrite !(proj2 (contains_false _ _)); [done|..]; rewrite ?elem_of_app, !elem_of_cons; intuition done.
Qed.

Lemma split_sound l host port : SplitHostPort l = Some (host, port) -> hostAndPort host port l.
Proof.
  unfold SplitHostPort. pose proof (lastIndexByte_spec x3a l) as Hl. destruct (lastIndexByte x3a l) as [i|]; [|done].
  destruct Hl as (before & after & El & <- & Hafter). rewrite El. rewrite drop_past, take_app_length. case_bool_decide as H0.
  - pose proof (indexByte_spec x5d (before ++ x3a :: after)) as Hc. destruct (indexByte _ _) as [close|]; [|done].
    destruct Hc as (u & v & Eu & <- & Hu). destruct (Nat.eqb_spec (S (length u)) (length before)) as [Hlen|]; [|done].
    destruct (_ || _) eqn:Ho; [done|]. apply orb_false_iff in Ho as [Ho1 Ho2]. rewrite contains_false in Ho1, Ho2.
    intros [= <- <-]. destruct u as [|x u]; [rewrite Eu in H0; done|].
    assert (x = x5b) as -> by (rewrite Eu in H0; by injection H0).
    change ((x5b :: u) ++ x5d :: v) with ([x5b] ++ u ++ [x5d] ++ v) in Eu. rewrite !app_assoc in Eu.
    apply app_inj_1 in Eu as [-> <-]; [|rewrite !length_app; cbn in *; lia].
    assert (E1 : (([x5b] ++ u) ++ [x5d]) ++ x3a :: after = (x5b :: u) ++ x5d :: x3a :: after) by (by rewrite <- !app_assoc).
    rewrite E1 in *. rewrite take_app_length. rewrite drop_past, elem_of_cons in Ho2.
    cbn [drop app] in Ho1. rewrite drop_0, elem_of_app, !elem_of_cons in Ho1. rewrite elem_of_cons in Hu.
    apply hp_bracketed; unfold unbracketed; rewrite ?drop_0; intuition done.
  - destruct (contains x3a before) eqn:Hb; [done|]. destruct (_ || _) eqn:Ho; [done|].
    rewrite !drop_0 in Ho. apply orb_false_iff in Ho as [Ho1 Ho2]. rewrite contains_false in Hb, Ho1, Ho2.
    rewrite elem_of_app, elem_of_cons in Ho1, Ho2. intros [= <- <-]. apply hp_name; unfold unbracketed; intuition done.
Qed.

(** No white space has the byte of a colon. *)
Lemma space1_no_colon : is_space1 x3a = false.
Proof. reflexivity. Qed.

Lemma space2_no_colon a b : is_space2 a b = true -> x3a ∉ [a; b].
Proof.
  unfold is_space2. intros [Ha Hb]%andb_prop. apply bool_decide_eq_true_1 in Ha as ->.
  rewrite !elem_of_cons, elem_of_nil. intros [|[<-|[]]]; [done|by vm_compute in Hb].
Qed.

Lemma space3_no_colon a b c : is_space3 a b c = true -> x3a ∉ [a; b; c].
Proof.
  unfold is_space3. rewrite !orb_true_iff, !andb_true_iff, !bool_decide_eq_true.
  rewrite !elem_of_cons, !elem_of_nil. intuition congruence.
Qed.

Lemma blank_no_colon l : blank l = true -> x3a ∉ l.
Proof.
  induction l as [l IH] using (well_founded_ind (well_founded_ltof _ length)). unfold ltof in IH.
  destruct l as [|a l1]; [intros _; apply not_elem_of_nil|]. cbn [blank]. destruct (is_space1 a) eqn:E1.
  { intros Hb%IH; [|cbn; lia]. apply not_elem_of_cons. split; [intros <-; by rewrite space1_no_colon in E1|done]. }
  destruct l1 as [|b l2]; [done|]. destruct (is_space2 a b) eqn:E2.
  { intros Hb%IH; [|cbn; lia]. apply space2_no_colon in E2. change (a :: b :: l2) with ([a; b] ++ l2). rewrite elem_of_app. tauto. }
  destruct l2 as [|c l3]; [done|]. intros [E3%space3_no_colon Hb]%andb_prop. apply IH in Hb; [|cbn; lia].
  change (a :: b :: c :: l3) with ([a; b; c] ++ l3). rewrite elem_of_app. tauto.
Qed.

Lemma validateAddress_ok address : validateAddress address = None <-> wellFormed address.
Proof.
  unfold validateAddress, wellFormed, blank_string. split.
  - destruct (blank _); [done|]. destruct (SplitHostPort _) as [[host port]|] eqn:Hs; [|done]. apply split_sound in Hs.
    repeat case_bool_decide; try done. intros _. by exists host, port.
  - intros (host & port & Hp & Hh & H1 & H2). rewrite (split_complete _ _ _ Hp).
    rewrite !bool_decide_false by done. destruct (blank _) eqn:Hb; [|done]. exfalso. apply blank_no_colon in Hb. apply Hb.
    destruct Hp; rewrite !elem_of_app, !elem_of_cons; naive_solver.
Qed.

Lemma checkAddress_ok seen field address :
  (checkAddress seen field address).1 = [] <->
  validateAddress address = None /\ seen !! address = None.
Proof.
  unfold checkAddress. destruct (validateAddress address); [split; [done|by intros []]|].
  by destruct (seen !! address); (split; [|intros []]).
Qed.

Lemma checkAddress_seen seen field address :
  (checkAddress seen field address).1 = [] ->
  (checkAddress seen field address).2 = <[address := field]> seen.
Proof.
  unfold checkAddress. destruct (validateAddress address); [done|]. by destruct (seen !! address).
Qed.

Lemma app_nil_iff {A} (l k : list A) : l ++ k = [] <-> l = [] /\ k = [].
Proof. split; [apply app_nil|by intros [-> ->]]. Qed.

Lemma if_nil {A} (b : bool) (x : A) : (if b then [x] else []) = [] <-> b = false.
Proof. by destruct b. Qed.

(** The member loop reports nothing exactly when the names are not blank and the
    addresses are well formed, new, and distinct. *)
Lemma checkMembers_ok seen members :
  checkMembers seen members = [] <->
  Forall (fun p => blank_string p.1 = false) members /\
  Forall (fun a => validateAddress a = None /\ seen !! a = None) (memberAddresses members) /\
  NoDup (memberAddresses members).
Proof.
  revert seen. induction members as [|[id member] members IH]; intros seen.
  { cbn. split; [|done]. intros _. split; [constructor|]. split; constructor. }
  cbn [checkMembers]. unfold memberAddresses in *. cbn [map concat snd fst app].
  pose proof (checkAddress_ok seen (peerAddress id) (mb_PeerAddress member)) as H1.
  pose proof (checkAddress_seen seen (peerAddress id) (mb_PeerAddress member)) as E1.
  destruct (checkAddress seen (peerAddress id) (mb_PeerAddress member)) as [p1 seen1]. cbn in H1, E1.
  pose proof (checkAddress_ok seen1 (clientAddress id) (mb_ClientAddress member)) as H2.
  pose proof (checkAddress_seen seen1 (clientAddress id) (mb_ClientAddress member)) as E2.
  destruct (checkAddress seen1 (clientAddress id) (mb_ClientAddress member)) as [p2 seen2]. cbn in H2, E2.
  rewrite !app_nil_iff, if_nil, H1, H2, IH, !Forall_cons, !NoDup_cons. cbn.
  rewrite !elem_of_cons. setoid_rewrite Forall_forall.
  split.
  - intros (Hid & Hp1 & Hp2 & Hn & Hall & Hnd). assert (Hs1 := E1 (proj2 H1 Hp1)).
    subst seen1. assert (Hs2 := E2 (proj2 H2 Hp2)). subst seen2.
    destruct Hp1 as [Hv1 Hs1], Hp2 as [Hv2 Hs2]. apply lookup_insert_None in Hs2 as [Hs2 Hne].
    split_and!; try done.
    + intros a Ha. destruct (Hall a Ha) as [? Hs]. rewrite !lookup_insert_None in Hs. tauto.
    + intros [?|Hin]; [congruence|]. destruct (Hall _ Hin) as [_ Hs]. rewrite !lookup_insert_None in Hs.
      tauto.
    + intros Hin. destruct (Hall _ Hin) as [_ Hs]. rewrite lookup_insert_None in Hs. tauto.
  - intros ((Hid & Hn) & ((Hv1 & Hs1) & (Hv2 & Hs2) & Hall) & Hni & Hni2 & Hnd).
    assert (Hp1 := E1 (proj2 H1 (conj Hv1 Hs1))). subst seen1.
    assert (Hc : (<[mb_PeerAddress member := peerAddress id]> seen) !! mb_ClientAddress member = None).
    { apply lookup_insert_None. split; [done|]. intros Heq. apply Hni. by left. }
    assert (Hp2 := E2 (proj2 H2 (conj Hv2 Hc))). subst seen2. split_and!; try done.
    intros a Ha. destruct (Hall a Ha). split; [done|]. rewrite !lookup_insert_None. split_and!; try done.
    + intros Heq. apply Hni. right. congruence.
    + intros Heq. apply Hni2. congruence.
Qed.

(** ** Guarantees *)

(** C37: [Validate] reports no problem exactly for the valid configurations: version 1; a cluster ID and a data
    directory that are not blank; a Session limit from 1 to the largest uint32; a Snapshot threshold that is not
    negative; three members with names that are not blank, this Node among them; six member addresses, each different
    from the others; and a metrics address that is empty or an address.  An address is host:port or [host]:port
    with a host that is not empty and a port that is neither empty nor 0; they have no brackets, the port no colon, and the
    host one only between brackets.  The metrics address may be a member's. *)
Theorem validate_accepts_exactly_valid_configurations c : Validate c = [] <-> valid c.
Proof.
  unfold Validate. rewrite !app_nil_iff, !if_nil, checkMembers_ok. setoid_rewrite validateAddress_ok.
  setoid_rewrite Forall_forall. split.
  - intros (Hv & Hc & Hl & Ht & Hn & Hd & Hm & H3 & Hloc & Hnames & Haddr & Hnd).
    reflect_bools. assert (Hid : nc_ID (cf_Node c) <> "") by (intros Hx; by rewrite Hx in Hn).
    split; try done.
    + by apply Z.eqb_eq.
    + destruct (cf_ActiveSessionLimit c <? 1)%Z eqn:E1; [done|].
      destruct (4294967295 <? cf_ActiveSessionLimit c)%Z eqn:E2; [done|]. lia.
    + lia.
    + destruct (bool_decide (nc_MetricsAddress (cf_Node c) = "")) eqn:E; [left; by reflect_bools|right].
      cbn in Hm. apply validateAddress_ok. by destruct (validateAddress _).
    + by apply Nat.eqb_eq.
    + rewrite bool_decide_false in Hloc by done. cbn in Hloc. reflect_bools. by apply not_eq_None_Some.
    + intros id [m Hm']. apply (Hnames (id, m)). by apply elem_of_map_to_list.
    + apply Forall_forall. intros a Ha. by apply Haddr.
  - intros [Hv Hc Hl Ht Hd Hm H3 [m Hloc] Hnames Haddr Hnd]. rewrite Forall_forall in Haddr.
    split_and!; try done.
    + by rewrite Hv.
    + rewrite (proj2 (Z.ltb_ge _ _)), (proj2 (Z.ltb_ge _ _)) by lia. done.
    + lia.
    + apply Hnames. by exists m.
    + destruct Hm as [->|Hm%validateAddress_ok]; [done|]. rewrite Hm. by destruct (negb _).
    + by rewrite H3.
    + rewrite Hloc. rewrite (bool_decide_false (Some m = None)) by done. by rewrite andb_false_r.
    + intros [id m'] Hin. apply elem_of_map_to_list in Hin. apply Hnames. by exists m'.
    + intros a Ha. split; [by apply Haddr|apply lookup_empty].
Qed.
