(* ===== verification/Paths.v ===== *)
(** Strings cut at a separator, and the lexical path operations of Go's [path/filepath] on Unix that
    internal/config/config.go and cmd/ternionsim/main.go use. *)

From S2P Require Import Prelude Bytes Config.

(** ** Splitting and joining *)

(** [strings.Split] and [strings.Join] for a separator of one byte. *)
Fixpoint splitBytes (sep : byte) (l : list byte) : list (list byte) :=
  match l with
  | [] => [[]]
  | b :: l =>
      if bool_decide (b = sep) then [] :: splitBytes sep l
      else match splitBytes sep l with [] => [[b]] | w :: ws => (b :: w) :: ws end
  end.

Fixpoint joinBytes (sep : byte) (ws : list (list byte)) : list byte :=
  match ws with
  | [] => []
  | [w] => w
  | w :: ws => w ++ sep :: joinBytes sep ws
  end.

Lemma splitBytes_cons sep l : exists w ws, splitBytes sep l = w :: ws.
Proof. destruct l as [|b l]; cbn; [by eauto|]. case_bool_decide; [by eauto|]. destruct (splitBytes sep l); eauto. Qed.

Lemma splitBytes_word sep w rest : sep ∉ w -> splitBytes sep (w ++ sep :: rest) = w :: splitBytes sep rest.
Proof.
  induction w as [|b w IH]; intros Hs; cbn.
  - by rewrite bool_decide_eq_true_2.
  - apply not_elem_of_cons in Hs as [Hb Hw]. rewrite bool_decide_eq_false_2 by congruence. by rewrite IH.
Qed.

Lemma splitBytes_last sep w : sep ∉ w -> splitBytes sep w = [w].
Proof.
  induction w as [|b w IH]; intros Hs; [done|]. cbn. apply not_elem_of_cons in Hs as [Hb Hw].
  rewrite bool_decide_eq_false_2 by congruence. by rewrite IH.
Qed.

Lemma splitBytes_join sep ws : ws <> [] -> Forall (fun w => sep ∉ w) ws -> splitBytes sep (joinBytes sep ws) = ws.
Proof.
  intros Hn Hf. induction Hf as [|w ws Hw Hf IH]; [done|]. destruct ws as [|w' ws].
  - by apply splitBytes_last.
  - change (joinBytes sep (w :: w' :: ws)) with (w ++ sep :: joinBytes sep (w' :: ws)).
    rewrite splitBytes_word by done. by rewrite IH.
Qed.

Lemma joinBytes_split sep l : joinBytes sep (splitBytes sep l) = l.
Proof.
  induction l as [|b l IH]; [done|]. cbn. case_bool_decide as Hb.
  - subst. destruct (splitBytes_cons sep l) as (w & ws & Hs). rewrite Hs in *. cbn. f_equal. exact IH.
  - destruct (splitBytes_cons sep l) as (w & ws & Hs). rewrite Hs in *. destruct ws; cbn in *; by rewrite IH.
Qed.

Lemma splitBytes_app sep l k : splitBytes sep (l ++ sep :: k) = splitBytes sep l ++ splitBytes sep k.
Proof.
  induction l as [|b l IH]; cbn.
  - by rewrite bool_decide_eq_true_2.
  - case_bool_decide; [by rewrite IH|]. rewrite IH. by destruct (splitBytes_cons sep l) as (w & ws & ->).
Qed.

Lemma splitBytes_free sep l : Forall (fun w => sep ∉ w) (splitBytes sep l).
Proof.
  induction l as [|b l IH]; cbn; [constructor; [apply not_elem_of_nil|done]|]. case_bool_decide as Hb.
  - constructor; [apply not_elem_of_nil|done].
  - destruct (splitBytes sep l) as [|w ws]; [by repeat constructor; apply not_elem_of_cons; split; [congruence|apply not_elem_of_nil]|].
    inversion_clear IH. constructor; [|done]. apply not_elem_of_cons. split; [congruence|done].
Qed.

(** ** Paths *)

Definition slash : byte := x2f.
Definition dot : list byte := [x2e].
Definition dotdot : list byte := [x2e; x2e].

(** [filepath.IsAbs]. *)
Definition IsAbs (path : list byte) : bool := match path with b :: _ => bool_decide (b = slash) | [] => false end.

(** One component of [filepath.Clean]; [stack] holds the components kept so far, last first. *)
Definition cleanStep (rooted : bool) (stack : list (list byte)) (w : list byte) : list (list byte) :=
  if bool_decide (w = []) || bool_decide (w = dot) then stack
  else if bool_decide (w = dotdot) then
    match stack with
    | top :: rest => if bool_decide (top = dotdot) then dotdot :: stack else rest
    | [] => if rooted then [] else [dotdot]
    end
  else w :: stack.

(** The components a path leads through, last first, starting from [stack]. *)
Definition walk (rooted : bool) (stack : list (list byte)) (path : list byte) : list (list byte) :=
  foldl (cleanStep rooted) stack (splitBytes slash path).

Definition render (rooted : bool) (stack : list (list byte)) : list byte :=
  match (if rooted then [slash] else []) ++ joinBytes slash (rev stack) with [] => dot | out => out end.

Definition Clean (path : list byte) : list byte :=
  match path with
  | [] => dot
  | _ => render (IsAbs path) (walk (IsAbs path) [] path)
  end.

(** [filepath.Join]: the empty elements before the first other one are ignored. *)
Fixpoint Join (elements : list (list byte)) : list byte :=
  match elements with
  | [] => []
  | [] :: elements => Join elements
  | _ => Clean (joinBytes slash elements)
  end.

(** [filepath.Dir]. *)
Definition Dir (path : list byte) : list byte :=
  Clean match lastIndexByte slash path with Some i => take (S i) path | None => [] end.

(** ** Clean paths *)

(** The components of a clean path, last first: names, after parent directories only if the path is relative. *)
Inductive tidy (rooted : bool) : list (list byte) -> Prop :=
| tidy_root : tidy rooted []
| tidy_up stack : rooted = false -> Forall (fun w => w = dotdot) stack -> tidy rooted (dotdot :: stack)
| tidy_name w stack : w <> [] -> w <> dot -> w <> dotdot -> slash ∉ w -> tidy rooted stack -> tidy rooted (w :: stack).

Lemma tidy_tail rooted w stack : tidy rooted (w :: stack) -> tidy rooted stack.
Proof.
  inversion 1 as [|? Hr Hf|]; subst; [|done]. inversion Hf as [|? ? -> Hf']; subst; [constructor|by constructor].
Qed.

Lemma cleanStep_tidy rooted stack w : slash ∉ w -> tidy rooted stack -> tidy rooted (cleanStep rooted stack w).
Proof.
  intros Hw Ht. unfold cleanStep. case_bool_decide; [done|]. case_bool_decide; [done|]. cbn.
  case_bool_decide; [|by constructor]. destruct stack as [|top stack].
  - destruct rooted; repeat constructor.
  - case_bool_decide; [|by eapply tidy_tail]. subst. inversion Ht; subst; [|done]. by repeat constructor.
Qed.

Lemma walk_tidy rooted stack path : tidy rooted stack -> tidy rooted (walk rooted stack path).
Proof.
  unfold walk. pose proof (splitBytes_free slash path) as Hf. revert stack.
  induction Hf as [|w ws Hw _ IH]; intros stack Ht; [done|]. cbn. by apply IH, cleanStep_tidy.
Qed.

Lemma slash_dotdot : slash ∉ dotdot.
Proof. unfold dotdot. rewrite !not_elem_of_cons. split_and!; [done|done|apply not_elem_of_nil]. Qed.

Lemma tidy_free rooted stack : tidy rooted stack -> Forall (fun w => (slash ∉ w) /\ (w <> [])) stack.
Proof.
  induction 1 as [|stack Hr Hf|]; [done| |by repeat constructor].
  constructor; [by split; [apply slash_dotdot|]|].
  eapply Forall_impl; [exact Hf|]. intros ? ->. by split; [apply slash_dotdot|].
Qed.

(** A clean path leads through its own components. *)
Lemma walk_clean rooted stack : tidy rooted stack -> foldl (cleanStep rooted) [] (rev stack) = stack.
Proof.
  induction 1 as [|stack Hr Hf|w stack H1 H2 H3 H4 Ht IH]; [done| |]; cbn; rewrite foldl_app; cbn.
  - subst. assert (foldl (cleanStep false) [] (rev stack) = stack) as ->; [|by destruct Hf as [|? ? -> ?]].
    induction Hf as [|? stack -> Hf IH]; [done|]. cbn. rewrite foldl_app, IH. by destruct Hf as [|? ? -> ?].
  - rewrite IH. unfold cleanStep. by rewrite !bool_decide_eq_false_2.
Qed.

Lemma render_cons rooted stack : exists b out, render rooted stack = b :: out.
Proof. unfold render. destruct (_ ++ _); [by exists x2e, []|by eauto]. Qed.

Lemma join_rev_cons stack : stack <> [] -> Forall (fun w => (slash ∉ w) /\ (w <> [])) stack ->
  exists b out, joinBytes slash (rev stack) = b :: out /\ b <> slash.
Proof.
  intros Hn Hf. apply Forall_rev in Hf. destruct (rev stack) as [|w ws] eqn:Hr.
  { apply (f_equal (@rev _)) in Hr. by rewrite rev_involutive in Hr. }
  inversion_clear Hf as [|? ? [Hs Hw] _]. destruct w as [|b w]; [done|]. apply not_elem_of_cons in Hs as [Hs _].
  destruct ws; cbn; exists b; eexists; (split; [done|congruence]).
Qed.

Lemma render_abs rooted stack : tidy rooted stack -> IsAbs (render rooted stack) = rooted.
Proof.
  intros Ht. unfold render. destruct rooted; cbn; [by rewrite bool_decide_eq_true_2|].
  destruct (decide (stack = [])) as [->|Hn]; [done|].
  destruct (join_rev_cons stack Hn (tidy_free _ _ Ht)) as (b & out & -> & Hb). cbn. by rewrite bool_decide_eq_false_2.
Qed.

Lemma walk_render rooted stack : tidy rooted stack -> walk rooted [] (render rooted stack) = stack.
Proof.
  intros Ht. pose proof (tidy_free _ _ Ht) as Hf. unfold walk.
  destruct (decide (stack = [])) as [->|Hn]; [by destruct rooted|].
  assert (Hs : splitBytes slash (joinBytes slash (rev stack)) = rev stack).
  { apply splitBytes_join; [by intros ?%(f_equal (@rev _)); rewrite rev_involutive in *|].
    apply Forall_rev. eapply Forall_impl; [exact Hf|]. by intros ? []. }
  unfold render. destruct rooted; cbn [app].
  - cbn. rewrite bool_decide_eq_true_2 by done. cbn. rewrite Hs. by apply walk_clean.
  - destruct (join_rev_cons stack Hn Hf) as (b & out & Hj & _). rewrite Hj, <- Hj, Hs. by apply walk_clean.
Qed.

Lemma Clean_render path : exists rooted stack, Clean path = render rooted stack /\ tidy rooted stack /\
  (path <> [] -> rooted = IsAbs path).
Proof.
  destruct path as [|b path]; [exists false, []; split_and!; [done|constructor|done]|].
  exists (IsAbs (b :: path)), (walk (IsAbs (b :: path)) [] (b :: path)). split_and!; [done| |done]. apply walk_tidy. constructor.
Qed.

Lemma render_clean rooted stack : tidy rooted stack -> Clean (render rooted stack) = render rooted stack.
Proof.
  intros Ht. pose proof (render_abs _ _ Ht) as Ha. pose proof (walk_render _ _ Ht) as Hw.
  unfold Clean. rewrite Ha, Hw. by destruct (render_cons rooted stack) as (b & out & ->).
Qed.

Lemma Clean_idempotent path : Clean (Clean path) = Clean path.
Proof. destruct (Clean_render path) as (rooted & stack & -> & Ht & _). by apply render_clean. Qed.

(** Joining a path to a clean one walks on from there. *)
Lemma Join_walk rooted stack path : tidy rooted stack ->
  Join [render rooted stack; path] = render rooted (walk rooted stack path).
Proof.
  intros Ht. pose proof (render_abs _ _ Ht) as Ha. pose proof (walk_render _ _ Ht) as Hw.
  destruct (render_cons rooted stack) as (b & out & Hr). rewrite Hr in *. cbn [Join joinBytes].
  change (IsAbs (b :: out)) with (IsAbs (b :: out ++ slash :: path)) in Ha.
  unfold Clean. cbn [app]. rewrite Ha. f_equal. unfold walk in *.
  change (b :: out ++ slash :: path) with ((b :: out) ++ slash :: path). by rewrite splitBytes_app, foldl_app, Hw.
Qed.

Lemma lastIndexByte_head b l : is_Some (lastIndexByte b (b :: l)).
Proof. cbn. destruct (lastIndexByte b l); [by eauto|]. rewrite bool_decide_eq_true_2 by done. by eauto. Qed.

(** The directory of a path, as the components it leads through. *)
Lemma Dir_render path : exists stack, Dir path = render (IsAbs path) stack /\ tidy (IsAbs path) stack.
Proof.
  unfold Dir. destruct path as [|b path]; [exists []; split; [done|constructor]|].
  destruct (lastIndexByte slash (b :: path)) as [i|] eqn:Hi.
  - exists (walk (IsAbs (b :: path)) [] (b :: take i path)). split; [done|]. apply walk_tidy. constructor.
  - assert (IsAbs (b :: path) = false) as ->; [|by exists []; split; [|constructor]].
    cbn [IsAbs]. case_bool_decide as Hb; [|done]. subst b. destruct (lastIndexByte_head slash path) as [j Hj]. by rewrite Hj in Hi.
Qed.
