(* ===== verification/ConfigLoad.v ===== *)
(** Loading a configuration: [Load] of internal/config/config.go.  Reading the file and decoding its YAML are
    parameters of the model. *)

From S2P Require Import Prelude Bytes Config Paths.

Inductive loadError := cannotRead (e : string) | cannotDecode (e : string) | invalidConfig (problems : list problem).

Definition withDataDir (dataDir : string) (cfg : Config) : Config :=
  mkConfig (cf_Version cfg) (cf_ClusterID cfg) (cf_ActiveSessionLimit cfg) (cf_SnapshotThresholdBytes cfg)
    (mkNodeConfig (nc_ID (cf_Node cfg)) dataDir (nc_MetricsAddress (cf_Node cfg))) (cf_Members cfg).

Section Load.
(** [os.ReadFile] and [Decode] of a YAML decoder that knows its fields. *)
Variable readFile : string -> result string (list byte).
Variable decode : list byte -> result string Config.

Definition Load (path : string) : result loadError Config :=
  match readFile path with
  | Err e => Err (cannotRead e)
  | Ok contents =>
      match decode contents with
      | Err e => Err (cannotDecode e)
      | Ok cfg =>
          match Validate cfg with
          | [] =>
              let dataDir := string_bytes (nc_DataDir (cf_Node cfg)) in
              Ok (if negb (IsAbs dataDir)
                  then withDataDir (bytes_string (Clean (Join [Dir (string_bytes path); dataDir]))) cfg
                  else cfg)
          | problems => Err (invalidConfig problems)
          end
      end
  end.
End Load.

(** C38: what [Load] returns.  A configuration that loads was read from the file, decoded and found valid, and differs
    from what was decoded in its data directory only.  An absolute data directory is kept; a
    relative one is where it leads from the directory of the file, as a clean path, absolute if the path of the file is. *)
Theorem loaded_data_directory_is_resolved readFile decode path cfg :
  Load readFile decode path = Ok cfg ->
  exists contents raw, readFile path = Ok contents /\ decode contents = Ok raw /\ Validate raw = [] /\
    cfg = withDataDir (nc_DataDir (cf_Node cfg)) raw /\
    (IsAbs (string_bytes (nc_DataDir (cf_Node raw))) = true -> cfg = raw) /\
    (IsAbs (string_bytes (nc_DataDir (cf_Node raw))) = false ->
     let rooted := IsAbs (string_bytes path) in
     exists stack, Dir (string_bytes path) = render rooted stack /\ tidy rooted stack /\
       string_bytes (nc_DataDir (cf_Node cfg)) = render rooted (walk rooted stack (string_bytes (nc_DataDir (cf_Node raw)))) /\
       IsAbs (string_bytes (nc_DataDir (cf_Node cfg))) = rooted /\
       Clean (string_bytes (nc_DataDir (cf_Node cfg))) = string_bytes (nc_DataDir (cf_Node cfg))).
Proof.
  unfold Load. destruct (readFile path) as [contents|] eqn:Hr; [|done]. destruct (decode contents) as [raw|] eqn:Hd; [|done].
  destruct (Validate raw) eqn:Hv; [|done].
  assert (Hok : forall a b : Config, @Ok loadError _ a = Ok b -> a = b) by congruence. intros <-%Hok. exists contents, raw.
  destruct (IsAbs (string_bytes (nc_DataDir (cf_Node raw)))) eqn:Ha; unfold negb.
  { split_and!; try done. by destruct raw as [? ? ? ? [] ?]. }
  do 5 (split; [done|]). intros _. set (rooted := IsAbs (string_bytes path)). destruct (Dir_render (string_bytes path)) as (stack & Hdir & Ht).
  fold rooted in Hdir, Ht. pose proof (walk_tidy rooted stack (string_bytes (nc_DataDir (cf_Node raw))) Ht) as Hw.
  exists stack. cbn [withDataDir cf_Node nc_DataDir]. rewrite string_bytes_of_bytes, Hdir, Join_walk, render_clean by done.
  split_and!; try done; [by apply render_abs|by apply render_clean].
Qed.

(** A file in /etc/ternion whose data directory is ../data. *)
Definition sampleFile : Config :=
  mkConfig 1 "ternion" 8 0 (mkNodeConfig "n1" "../data" "")
    (list_to_map [("n1", mkMember "a:1" "a:2"); ("n2", mkMember "b:1" "b:2"); ("n3", mkMember "c:1" "c:2")]).

Lemma loaded_data_directory_is_resolved_witness :
  let load := Load (fun _ => Ok []) (fun _ => Ok sampleFile) "/etc/ternion/node.yaml" in
  load = Ok (withDataDir "/etc/data" sampleFile) /\ exists raw, Validate raw = [] /\ withDataDir "/etc/data" sampleFile = withDataDir "/etc/data" raw.
Proof.
  assert (Hl : Load (fun _ => Ok []) (fun _ => Ok sampleFile) "/etc/ternion/node.yaml" = Ok (withDataDir "/etc/data" sampleFile))
    by (vm_compute; reflexivity).
  split; [exact Hl|]. destruct (loaded_data_directory_is_resolved _ _ _ _ Hl) as (contents & raw & _ & _ & Hv & Heq & _).
  exists raw. split; [exact Hv|exact Heq].
Defined.
