(* ===== verification/Peer.v ===== *)
(** The peer protocol of [internal/node/peer.go]: the translation between the
    core's messages and the protocol-buffer messages of [gen/ternion/v1], the
    checks a Node makes on its peers, and the chunks of a Snapshot transfer.  The
    message types carry the prefix [Pb]; gRPC delivers a message as it was sent,
    or not at all. *)

From S2P Require Import Prelude Bytes RaftTypes Config.

(** ** Protocol-buffer messages *)

(** An open enumeration: a newer peer may send a number this Node does not know. *)
Inductive RaftEntryType :=
| RAFT_ENTRY_TYPE_UNSPECIFIED | RAFT_ENTRY_TYPE_NO_OP | RAFT_ENTRY_TYPE_OPEN_SESSION
| RAFT_ENTRY_TYPE_CLOSE_SESSION | RAFT_ENTRY_TYPE_SET | RAFT_ENTRY_TYPE_DELETE
| RAFT_ENTRY_TYPE_UNKNOWN (code : Z).

Record RaftLogEntry := mkRaftLogEntry {
  le_Index : N; le_Term : N; le_Type : RaftEntryType; le_SessionId : list byte;
  le_Sequence : N; le_Key : string; le_Value : list byte }.

Record PbPreVoteRequest := mkPbPreVoteRequest {
  bpq_Term : N; bpq_LastLogIndex : N; bpq_LastLogTerm : N }.
Record PbPreVoteResponse := mkPbPreVoteResponse {
  bpr_Term : N; bpr_CurrentTerm : N; bpr_Granted : bool }.
Record PbVoteRequest := mkPbVoteRequest {
  bvq_Term : N; bvq_LastLogIndex : N; bvq_LastLogTerm : N }.
Record PbVoteResponse := mkPbVoteResponse { bvr_Term : N; bvr_Granted : bool }.
Record PbAppendEntriesRequest := mkPbAppendEntriesRequest {
  baq_Term : N; baq_RequestId : N; baq_PreviousLogIndex : N; baq_PreviousLogTerm : N;
  baq_Entries : list RaftLogEntry; baq_LeaderCommit : N; baq_ReadId : N }.
Record PbAppendEntriesResponse := mkPbAppendEntriesResponse {
  bar_Term : N; bar_RequestId : N; bar_Success : bool; bar_MatchIndex : N;
  bar_ConflictTerm : N; bar_ConflictIndex : N; bar_ReadId : N }.
Record PbInstallSnapshotRequest := mkPbInstallSnapshotRequest {
  biq_Term : N; biq_RequestId : N; biq_SnapshotIndex : N; biq_SnapshotTerm : N;
  biq_SnapshotLength : N; biq_SnapshotChecksum : N; biq_Offset : N; biq_Data : list byte;
  biq_Done : bool }.
Record PbInstallSnapshotResponse := mkPbInstallSnapshotResponse {
  bir_Term : N; bir_RequestId : N; bir_Success : bool; bir_NextOffset : N;
  bir_SnapshotIndex : N; bir_Done : bool }.

Inductive SendRequest_Message :=
| SendRequest_PreVoteRequest (m : PbPreVoteRequest)
| SendRequest_PreVoteResponse (m : PbPreVoteResponse)
| SendRequest_VoteRequest (m : PbVoteRequest)
| SendRequest_VoteResponse (m : PbVoteResponse)
| SendRequest_AppendEntriesRequest (m : PbAppendEntriesRequest)
| SendRequest_AppendEntriesResponse (m : PbAppendEntriesResponse)
| SendRequest_InstallSnapshotRequest (m : PbInstallSnapshotRequest)
| SendRequest_InstallSnapshotResponse (m : PbInstallSnapshotResponse).

Record SendRequest := mkSendRequest {
  sq_ProtocolVersion : N; sq_ClusterId : string; sq_FromNodeId : string; sq_ToNodeId : string;
  sq_Message : option SendRequest_Message }.

Record HandshakeRequest := mkHandshakeRequest {
  hq_ProtocolVersion : N; hq_ClusterId : string; hq_NodeId : string; hq_TargetNodeId : string;
  hq_ActiveSessionLimit : N }.

Record HandshakeResponse := mkHandshakeResponse {
  hr_ProtocolVersion : N; hr_ClusterId : string; hr_NodeId : string; hr_ActiveSessionLimit : N }.

Definition peerProtocolVersion : N := 1.

(** ** Log entries *)

Definition encodeEntryType (t : EntryType) : RaftEntryType :=
  match t with
  | EntryNoOp => RAFT_ENTRY_TYPE_NO_OP
  | EntryOpenSession => RAFT_ENTRY_TYPE_OPEN_SESSION
  | EntryCloseSession => RAFT_ENTRY_TYPE_CLOSE_SESSION
  | EntrySet => RAFT_ENTRY_TYPE_SET
  | EntryDelete => RAFT_ENTRY_TYPE_DELETE
  end.

Inductive decodeError :=
| unsupportedEntryType (t : RaftEntryType) | badSessionLength (length : N) | missingPayload.

Definition decodeEntryType (t : RaftEntryType) : result decodeError EntryType :=
  match t with
  | RAFT_ENTRY_TYPE_NO_OP => Ok EntryNoOp
  | RAFT_ENTRY_TYPE_OPEN_SESSION => Ok EntryOpenSession
  | RAFT_ENTRY_TYPE_CLOSE_SESSION => Ok EntryCloseSession
  | RAFT_ENTRY_TYPE_SET => Ok EntrySet
  | RAFT_ENTRY_TYPE_DELETE => Ok EntryDelete
  | _ => Err (unsupportedEntryType t)
  end.

Definition encodeEntry (e : LogEntry) : RaftLogEntry :=
  mkRaftLogEntry (Index e) (Term e) (encodeEntryType (EType e)) (ESessionID e) (Sequence e)
    (Key e) (Value e).

(** [copy(sessionID[:], src)] into a zeroed array of 16 bytes. *)
Definition copySession (src : list byte) : SessionID :=
  take 16 src ++ drop (length (take 16 src)) zeroSessionID.

Definition decodeEntry (e : RaftLogEntry) : result decodeError LogEntry :=
  let? t := decodeEntryType (le_Type e) in
  let n := len (le_SessionId e) in
  fail? negb (bool_decide (t = EntryNoOp)) && negb (n =? 16) with badSessionLength n in
  fail? bool_decide (t = EntryNoOp) && negb (n =? 0) && negb (n =? 16) with badSessionLength n in
  Ok (mkLogEntry (le_Index e) (le_Term e) t (copySession (le_SessionId e)) (le_Sequence e)
        (le_Key e) (le_Value e)).

Fixpoint decodeEntries (entries : list RaftLogEntry) : result decodeError (list LogEntry) :=
  match entries with
  | [] => Ok []
  | e :: entries =>
      let? e := decodeEntry e in
      let? entries := decodeEntries entries in
      Ok (e :: entries)
  end.

(** ** Messages *)

(** The addressee and the request; [None] is the unsupported-action error. *)
Definition encodeRaftAction (cfg : Config) (action : Action) : option (NodeID * SendRequest) :=
  let wrap to message :=
    Some (to, mkSendRequest peerProtocolVersion (cf_ClusterID cfg) (nc_ID (cf_Node cfg)) to
                (Some message)) in
  match action with
  | SendPreVoteRequest to r =>
      wrap to (SendRequest_PreVoteRequest
        (mkPbPreVoteRequest (pvq_Term r) (pvq_LastLogIndex r) (pvq_LastLogTerm r)))
  | SendPreVoteResponse to r =>
      wrap to (SendRequest_PreVoteResponse
        (mkPbPreVoteResponse (pvr_Term r) (pvr_CurrentTerm r) (pvr_Granted r)))
  | SendVoteRequest to r =>
      wrap to (SendRequest_VoteRequest
        (mkPbVoteRequest (vq_Term r) (vq_LastLogIndex r) (vq_LastLogTerm r)))
  | SendVoteResponse to r =>
      wrap to (SendRequest_VoteResponse (mkPbVoteResponse (vr_Term r) (vr_Granted r)))
  | SendAppendEntries to r =>
      wrap to (SendRequest_AppendEntriesRequest
        (mkPbAppendEntriesRequest (ae_Term r) (ae_RequestID r) (ae_PrevLogIndex r) (ae_PrevLogTerm r)
           (map encodeEntry (ae_Entries r)) (ae_LeaderCommit r) (ae_ReadID r)))
  | SendAppendEntriesResponse to r =>
      wrap to (SendRequest_AppendEntriesResponse
        (mkPbAppendEntriesResponse (ar_Term r) (ar_RequestID r) (ar_Success r) (ar_MatchIndex r)
           (ar_ConflictTerm r) (ar_ConflictIndex r) (ar_ReadID r)))
  | SendInstallSnapshotResponse to r =>
      wrap to (SendRequest_InstallSnapshotResponse
        (mkPbInstallSnapshotResponse (ir_Term r) (ir_RequestID r) (ir_Success r) (ir_NextOffset r)
           (ir_SnapshotIndex r) (ir_Done r)))
  | _ => None
  end.

Definition decodeRaftMessage (request : SendRequest) : result decodeError Event :=
  let from := sq_FromNodeId request in
  match sq_Message request with
  | Some (SendRequest_PreVoteRequest m) =>
      Ok (EvPreVoteRequest (mkPreVoteRequest from (bpq_Term m) (bpq_LastLogIndex m) (bpq_LastLogTerm m)))
  | Some (SendRequest_PreVoteResponse m) =>
      Ok (EvPreVoteResponse (mkPreVoteResponse from (bpr_Term m) (bpr_CurrentTerm m) (bpr_Granted m)))
  | Some (SendRequest_VoteRequest m) =>
      Ok (EvVoteRequest (mkVoteRequest from (bvq_Term m) (bvq_LastLogIndex m) (bvq_LastLogTerm m)))
  | Some (SendRequest_VoteResponse m) =>
      Ok (EvVoteResponse (mkVoteResponse from (bvr_Term m) (bvr_Granted m)))
  | Some (SendRequest_AppendEntriesRequest m) =>
      let? entries := decodeEntries (baq_Entries m) in
      Ok (EvAppendEntries (mkAppendEntries from (baq_Term m) (baq_RequestId m) (baq_PreviousLogIndex m)
            (baq_PreviousLogTerm m) entries (baq_LeaderCommit m) (baq_ReadId m)))
  | Some (SendRequest_AppendEntriesResponse m) =>
      Ok (EvAppendEntriesResponse (mkAppendEntriesResponse from (bar_Term m) (bar_RequestId m)
            (bar_Success m) (bar_MatchIndex m) (bar_ConflictTerm m) (bar_ConflictIndex m) (bar_ReadId m)))
  | Some (SendRequest_InstallSnapshotRequest m) =>
      Ok (EvInstallSnapshot (mkInstallSnapshot from (biq_Term m) (biq_RequestId m) (biq_SnapshotIndex m)
            (biq_SnapshotTerm m) (biq_SnapshotLength m) (biq_SnapshotChecksum m) (biq_Offset m)
            (biq_Data m) (biq_Done m) false 0 false))
  | Some (SendRequest_InstallSnapshotResponse m) =>
      Ok (EvInstallSnapshotResponse (mkInstallSnapshotResponse from (bir_Term m) (bir_RequestId m)
            (bir_SnapshotIndex m) (bir_Success m) (bir_NextOffset m) (bir_Done m)))
  | None => Err missingPayload
  end.

(** ** Snapshot transfer *)

Definition chunkSize : N := 65536.

Inductive sendSnapshotError := offsetBeyondLength (offset length : N).

(** The request that carries the bytes from [offset] on, as [sendSnapshot] builds it, of the Snapshot file [contents]. *)
Definition snapshotChunk (cfg : Config) (to : NodeID) (term requestID index snapshotTerm offset : N)
    (contents : list byte) : result sendSnapshotError SendRequest :=
  fail? len contents <? offset with offsetBeyondLength offset (len contents) in
  let end_ := if len contents <? offset +! chunkSize then len contents else offset +! chunkSize in
  Ok (mkSendRequest peerProtocolVersion (cf_ClusterID cfg) (nc_ID (cf_Node cfg)) to
        (Some (SendRequest_InstallSnapshotRequest
           (mkPbInstallSnapshotRequest term requestID index snapshotTerm (len contents)
              (crc32 contents) offset
              (take (N.to_nat (end_ - offset)) (drop (N.to_nat offset) contents))
              (end_ =? len contents))))).

(** ** Identity checks *)

Inductive peerError :=
| wrongProtocol | wrongCluster | wrongTarget | claimedLocal | notMember | wrongSessionLimit.

Definition validatePeer (cfg : Config) (version : N) (clusterID fromNodeID targetNodeID : string)
    : result peerError unit :=
  fail? negb (version =? peerProtocolVersion) with wrongProtocol in
  fail? negb (bool_decide (clusterID = cf_ClusterID cfg)) with wrongCluster in
  fail? negb (bool_decide (targetNodeID = nc_ID (cf_Node cfg))) with wrongTarget in
  fail? bool_decide (fromNodeID = nc_ID (cf_Node cfg)) with claimedLocal in
  fail? negb (bool_decide (is_Some (cf_Members cfg !! fromNodeID))) with notMember in
  Ok tt.

(** [uint32(limit)]. *)
Definition sessionLimit32 (cfg : Config) : N := Z.to_N (cf_ActiveSessionLimit cfg mod 4294967296).

Definition Handshake (cfg : Config) (request : HandshakeRequest) : result peerError HandshakeResponse :=
  let? _ := validatePeer cfg (hq_ProtocolVersion request) (hq_ClusterId request) (hq_NodeId request)
              (hq_TargetNodeId request) in
  fail? negb (hq_ActiveSessionLimit request =? sessionLimit32 cfg) with wrongSessionLimit in
  Ok (mkHandshakeResponse peerProtocolVersion (cf_ClusterID cfg) (nc_ID (cf_Node cfg))
        (sessionLimit32 cfg)).

(** The request a Node opens a connection to [id] with, and the check it makes on
    the answer. *)
Definition handshakeRequest (cfg : Config) (id : NodeID) : HandshakeRequest :=
  mkHandshakeRequest peerProtocolVersion (cf_ClusterID cfg) (nc_ID (cf_Node cfg)) id
    (sessionLimit32 cfg).

Definition handshakeAccepted (cfg : Config) (id : NodeID) (response : HandshakeResponse) : bool :=
  (hr_ProtocolVersion response =? peerProtocolVersion)
  && bool_decide (hr_ClusterId response = cf_ClusterID cfg)
  && bool_decide (hr_NodeId response = id)
  && (hr_ActiveSessionLimit response =? sessionLimit32 cfg).

(** [Send] up to the hand-over to the Raft loop. *)
Definition Send (cfg : Config) (request : SendRequest) : result (peerError + decodeError) Event :=
  match validatePeer cfg (sq_ProtocolVersion request) (sq_ClusterId request) (sq_FromNodeId request)
          (sq_ToNodeId request) with
  | Err e => Err (inl e)
  | Ok _ =>
      match decodeRaftMessage request with
      | Err e => Err (inr e)
      | Ok event => Ok event
      end
  end.

(** ** What a message means to its addressee *)

(** The event the addressee should see. *)
Definition messageOf (action : Action) : option (NodeID * Event) :=
  match action with
  | SendPreVoteRequest to r => Some (to, EvPreVoteRequest r)
  | SendPreVoteResponse to r => Some (to, EvPreVoteResponse r)
  | SendVoteRequest to r => Some (to, EvVoteRequest r)
  | SendVoteResponse to r => Some (to, EvVoteResponse r)
  | SendAppendEntries to r => Some (to, EvAppendEntries r)
  | SendAppendEntriesResponse to r => Some (to, EvAppendEntriesResponse r)
  | SendInstallSnapshotResponse to r => Some (to, EvInstallSnapshotResponse r)
  | _ => None
  end.

(** The sender's name in an event of the peer protocol, and the Go invariant that
    a [SessionID] is an array of 16 bytes. *)
Definition fromOf (e : Event) : NodeID :=
  match e with
  | EvPreVoteRequest r => pvq_From r
  | EvPreVoteResponse r => pvr_From r
  | EvVoteRequest r => vq_From r
  | EvVoteResponse r => vr_From r
  | EvAppendEntries r => ae_From r
  | EvAppendEntriesResponse r => ar_From r
  | EvInstallSnapshotResponse r => ir_From r
  | _ => ""
  end.

Definition sessions16 (e : Event) : Prop :=
  match e with
  | EvAppendEntries r => Forall (fun x => length (ESessionID x) = 16%nat) (ae_Entries r)
  | _ => True
  end.

Lemma decode_encode_type t : decodeEntryType (encodeEntryType t) = Ok t.
Proof. by destruct t. Qed.

Lemma copySession_full s : length s = 16%nat -> copySession s = s.
Proof.
  intros Hs. unfold copySession. rewrite take_ge by lia. rewrite drop_ge by (cbn; lia).
  apply app_nil_r.
Qed.

Lemma decode_encode_log_entry e : length (ESessionID e) = 16%nat -> decodeEntry (encodeEntry e) = Ok e.
Proof.
  intros Hs. unfold decodeEntry, encodeEntry. cbn [le_Type le_SessionId]. rewrite decode_encode_type.
  cbn [rbind]. unfold len. rewrite Hs. cbn. rewrite andb_false_r. cbn. rewrite copySession_full by done.
  destruct (bool_decide _); by destruct e.
Qed.

Lemma decode_encode_entries es :
  Forall (fun x => length (ESessionID x) = 16%nat) es -> decodeEntries (map encodeEntry es) = Ok es.
Proof.
  intros Hall. induction Hall as [|e es He _ IH]; [done|]. cbn [map decodeEntries].
  rewrite decode_encode_log_entry by done. cbn [rbind]. by rewrite IH.
Qed.

Lemma validatePeer_ok cfg version cluster from target :
  validatePeer cfg version cluster from target = Ok tt <->
  version = peerProtocolVersion /\ cluster = cf_ClusterID cfg /\ target = nc_ID (cf_Node cfg) /\
  from <> nc_ID (cf_Node cfg) /\ is_Some (cf_Members cfg !! from).
Proof.
  unfold validatePeer, guard. split.
  - destruct (N.eqb_spec version peerProtocolVersion); [|done].
    repeat (case_bool_decide; cbn; [|done]). cbn.
    destruct (bool_decide (from = _)) eqn:E1; [done|]. cbn. reflect_bools.
    case_bool_decide; [|done]. by intros _.
  - intros (-> & -> & -> & Hne & Hm). rewrite N.eqb_refl, !(bool_decide_true (_ = _)) by done. cbn.
    rewrite bool_decide_false by done. cbn. by rewrite bool_decide_true.
Qed.

(** ** Guarantees *)

(** C33: a message arrives as it was sent.  When the receiver accepts the sender as
    a peer, encoding a message of the core, sending it and decoding it yields the
    event with exactly the fields the sender's core put into it, addressed to the
    Node the core named. *)
Theorem peer_messages_round_trip sender receiver action to event :
  messageOf action = Some (to, event) -> fromOf event = nc_ID (cf_Node sender) -> sessions16 event ->
  cf_ClusterID sender = cf_ClusterID receiver -> nc_ID (cf_Node receiver) = to ->
  nc_ID (cf_Node sender) <> to -> is_Some (cf_Members receiver !! nc_ID (cf_Node sender)) ->
  exists request, encodeRaftAction sender action = Some (to, request) /\
    Send receiver request = Ok event.
Proof.
  intros Hm Hf Hs Hc Hto Hne Hmem.
  assert (Hv : validatePeer receiver peerProtocolVersion (cf_ClusterID sender)
    (nc_ID (cf_Node sender)) to = Ok tt) by (apply validatePeer_ok; split_and!; congruence).
  destruct action; cbn in Hm; try discriminate; injection Hm as <- <-; cbn in Hf;
    (eexists; split; [reflexivity|]); unfold Send; cbn [sq_ProtocolVersion sq_ClusterId sq_FromNodeId sq_ToNodeId];
    rewrite Hv; unfold decodeRaftMessage; cbn [sq_Message sq_FromNodeId baq_Entries].
  5:{ rewrite decode_encode_entries by done. cbn. rewrite <- Hf. by destruct Request. }
  all: cbn; rewrite <- Hf; first [by destruct Request | by destruct Response].
Qed.

(** Two Nodes complete the handshake exactly when they are distinct members of
    the same cluster with the same Session limit: the callee accepts and the
    caller accepts its answer. *)
Theorem handshake_completes_between_agreeing_members caller callee :
  (exists response,
     Handshake callee (handshakeRequest caller (nc_ID (cf_Node callee))) = Ok response /\
     handshakeAccepted caller (nc_ID (cf_Node callee)) response = true) <->
  cf_ClusterID caller = cf_ClusterID callee /\ sessionLimit32 caller = sessionLimit32 callee /\
  nc_ID (cf_Node caller) <> nc_ID (cf_Node callee) /\
  is_Some (cf_Members callee !! nc_ID (cf_Node caller)).
Proof.
  unfold Handshake, handshakeRequest.
  cbn [hq_ProtocolVersion hq_ClusterId hq_NodeId hq_TargetNodeId hq_ActiveSessionLimit].
  pose proof (validatePeer_ok callee peerProtocolVersion (cf_ClusterID caller)
    (nc_ID (cf_Node caller)) (nc_ID (cf_Node callee))) as Hv.
  split.
  - intros (response & Hh & _). destruct (validatePeer _ _ _ _ _) as [[]|]; [|done]. cbn [rbind] in Hh.
    destruct Hv as [Hv _]. destruct (Hv eq_refl) as (_ & Hc & _ & Hne & Hm).
    destruct (N.eqb_spec (sessionLimit32 caller) (sessionLimit32 callee)); [|done]. by split_and!.
  - intros (Hc & Hl & Hne & Hm). rewrite (proj2 Hv) by (by split_and!). cbn [rbind].
    rewrite Hl, N.eqb_refl. cbn [negb guard rbind]. eexists. split; [done|]. unfold handshakeAccepted. cbn.
    by rewrite Hc, Hl, !bool_decide_true, N.eqb_refl by done.
Qed.

(** ** Witness *)

Definition sampleConfig (id : string) : Config :=
  mkConfig 1 "ternion" 8 0 (mkNodeConfig id "data" "")
    (list_to_map [("n1", mkMember "a:1" "a:2"); ("n2", mkMember "b:1" "b:2"); ("n3", mkMember "c:1" "c:2")]).

Lemma peer_messages_round_trip_witness :
  let entry := mkLogEntry 3 2 EntrySet (replicate 16 x01) 1 "k" [x61] in
  let request := mkAppendEntries "n1" 2 9 2 1 [entry] 2 0 in
  exists wire, encodeRaftAction (sampleConfig "n1") (SendAppendEntries "n2" request) = Some ("n2", wire) /\
    Send (sampleConfig "n2") wire = Ok (EvAppendEntries request).
Proof.
  apply (peer_messages_round_trip (sampleConfig "n1") (sampleConfig "n2")
    (SendAppendEntries "n2" (mkAppendEntries "n1" 2 9 2 1
       [mkLogEntry 3 2 EntrySet (replicate 16 x01) 1 "k" [x61]] 2 0))); try done.
  by repeat constructor.
Defined.
