(* ===== verification/SnapshotJson.v ===== *)
(** The JSON payload of a Snapshot file, as [encoding/json] writes it for
    [snapshot.State], with a reader for texts of that form. *)

From Stdlib Require Import DecimalN.
From S2P Require Import Prelude Bytes Json RaftTypes Session.

(** ** Base64 *)

Definition b64alphabet : list byte :=
  string_bytes "ABCDEFGHIJKLMNOPQRSTUVWXYZabcdefghijklmnopqrstuvwxyz0123456789+/".

Definition b64char (n : N) : byte := default x3d (b64alphabet !! N.to_nat n).

Fixpoint position (b : byte) (l : list byte) : option N :=
  match l with
  | [] => None
  | x :: l => if bool_decide (x = b) then Some 0 else option_map N.succ (position b l)
  end.

Definition b64value (b : byte) : option N := position b b64alphabet.

Fixpoint b64encode (l : list byte) : list byte :=
  match l with
  | [] => []
  | [a] =>
      let x := byte_to_N a in [b64char (x / 4); b64char (x mod 4 * 16); x3d; x3d]
  | [a; b] =>
      let x := byte_to_N a in let y := byte_to_N b in
      [b64char (x / 4); b64char (x mod 4 * 16 + y / 16); b64char (y mod 16 * 4); x3d]
  | a :: b :: c :: l =>
      let x := byte_to_N a in let y := byte_to_N b in let z := byte_to_N c in
      [b64char (x / 4); b64char (x mod 4 * 16 + y / 16); b64char (y mod 16 * 4 + z / 64); b64char (z mod 64)]
      ++ b64encode l
  end.

Fixpoint b64decode (l : list byte) : option (list byte) :=
  match l with
  | [] => Some []
  | a :: b :: c :: d :: l =>
      v0 ← b64value a; v1 ← b64value b;
      let first := byte_of_N (v0 * 4 + v1 / 16) in
      match b64value c, b64value d with
      | Some v2, Some v3 =>
          rest ← b64decode l;
          Some ([first; byte_of_N (v1 * 16 + v2 / 4); byte_of_N (v2 * 64 + v3)] ++ rest)
      | Some v2, None =>
          if bool_decide (d = x3d) && bool_decide (l = [])
          then Some [first; byte_of_N (v1 * 16 + v2 / 4)] else None
      | None, _ =>
          if bool_decide (c = x3d) && bool_decide (d = x3d) && bool_decide (l = [])
          then Some [first] else None
      end
  | _ => None
  end.

(** ** Sequences *)

(** Comma-separated items between two brackets. *)
Definition jsonSeq {A} (open_ close : byte) (write : A -> list byte) (l : list A) : list byte :=
  match l with
  | [] => [open_; close]
  | x :: l => [open_] ++ write x ++ concat (map (fun y => x2c :: write y) l) ++ [close]
  end.

(** Items after the first, up to the closing bracket. *)
Fixpoint readItems {A} (fuel : nat) (close : byte) (item : list byte -> option (A * list byte))
    (l : list byte) : option (list A * list byte) :=
  match fuel, l with
  | S fuel, b :: l =>
      if bool_decide (b = close) then Some ([], l)
      else if bool_decide (b = x2c) then
        '(x, l) ← item l;
        '(xs, l) ← readItems fuel close item l;
        Some (x :: xs, l)
      else None
  | _, _ => None
  end.

Definition readSeq {A} (open_ close : byte) (item : list byte -> option (A * list byte))
    (l : list byte) : option (list A * list byte) :=
  match l with
  | b :: l =>
      if bool_decide (b = open_) then
        match l with
        | c :: rest =>
            if bool_decide (c = close) then Some ([], rest)
            else
              '(x, l) ← item l;
              '(xs, l) ← readItems (S (length l)) close item l;
              Some (x :: xs, l)
        | [] => None
        end
      else None
  | [] => None
  end.

(** ** Values of the payload *)

Definition jsonBool (b : bool) : list byte := string_bytes (if b then "true" else "false").

Definition readBool (l : list byte) : option (bool * list byte) :=
  match readLiteral (string_bytes "true") l with
  | Some l => Some (true, l)
  | None => option_map (pair false) (readLiteral (string_bytes "false") l)
  end.

(** A nil slice, which is what copying an empty value yields, is [null]. *)
Definition jsonBytes (v : list byte) : list byte :=
  match v with
  | [] => string_bytes "null"
  | _ => [x22] ++ b64encode v ++ [x22]
  end.

Definition readBytes (l : list byte) : option (list byte * list byte) :=
  match readLiteral (string_bytes "null") l with
  | Some l => Some ([], l)
  | None =>
      '(s, l) ← readString l;
      v ← b64decode (string_bytes s);
      Some (v, l)
  end.

Definition jsonByte (b : byte) : list byte := jsonNumber (byte_to_N b).

Definition readByte (l : list byte) : option (byte * list byte) :=
  '(n, l) ← readNumber l;
  b ← Byte.of_N n;
  Some (b, l).

Definition jsonPair (p : string * list byte) : list byte := jsonString p.1 ++ [x3a] ++ jsonBytes p.2.

Definition readPair (l : list byte) : option ((string * list byte) * list byte) :=
  '(k, l) ← readString l;
  l ← readLiteral [x3a] l;
  '(v, l) ← readBytes l;
  Some ((k, v), l).

Definition jsonSession (s : snapSession) : list byte :=
  (string_bytes "{" ++ label "id") ++ jsonSeq x5b x5d jsonByte (ss_ID s)
  ++ (string_bytes "," ++ label "closed") ++ jsonBool (ss_Closed s)
  ++ (string_bytes "," ++ label "last_sequence") ++ jsonNumber (ss_LastSequence s)
  ++ (string_bytes "," ++ label "last_result") ++ jsonNumber (ss_LastResult s)
  ++ (string_bytes "," ++ label "last_delete_existed") ++ jsonBool (ss_LastDeleteExisted s)
  ++ string_bytes "}".

Definition readSession (l : list byte) : option (snapSession * list byte) :=
  l ← readLiteral (string_bytes "{" ++ label "id") l;
  '(id, l) ← readSeq x5b x5d readByte l;
  l ← readLiteral (string_bytes "," ++ label "closed") l;
  '(closed, l) ← readBool l;
  l ← readLiteral (string_bytes "," ++ label "last_sequence") l;
  '(sequence, l) ← readNumber l;
  l ← readLiteral (string_bytes "," ++ label "last_result") l;
  '(code, l) ← readNumber l;
  l ← readLiteral (string_bytes "," ++ label "last_delete_existed") l;
  '(existed, l) ← readBool l;
  l ← readLiteral (string_bytes "}") l;
  if (code <? 256) && bool_decide (length id = 16%nat)
  then Some (mkSnapSession id closed sequence code existed, l) else None.

(** Map keys are written in order. *)
Definition key_le (a b : string * list byte) : Prop := bytes_leb (string_bytes a.1) (string_bytes b.1) = true.
#[export] Instance key_le_dec a b : Decision (key_le a b).
Proof. unfold key_le. apply _. Defined.

Definition sortedPairs (m : gmap string (list byte)) : list (string * list byte) :=
  merge_sort key_le (map_to_list m).

Definition jsonState (s : snapState) : list byte :=
  (string_bytes "{" ++ label "identity" ++ string_bytes "{" ++ label "cluster_id")
  ++ jsonString (si_ClusterID (sn_Identity s))
  ++ (string_bytes "," ++ label "node_id") ++ jsonString (si_NodeID (sn_Identity s))
  ++ (string_bytes "," ++ label "member_ids") ++ jsonSeq x5b x5d jsonString (si_MemberIDs (sn_Identity s))
  ++ (string_bytes "}," ++ label "included_index") ++ jsonNumber (sn_IncludedIndex s)
  ++ (string_bytes "," ++ label "included_term") ++ jsonNumber (sn_IncludedTerm s)
  ++ (string_bytes "," ++ label "values") ++ jsonSeq x7b x7d jsonPair (sortedPairs (sn_Values s))
  ++ (string_bytes "," ++ label "sessions") ++ jsonSeq x5b x5d jsonSession (sn_Sessions s)
  ++ string_bytes "}".

Definition readState (l : list byte) : option snapState :=
  l ← readLiteral (string_bytes "{" ++ label "identity" ++ string_bytes "{" ++ label "cluster_id") l;
  '(cluster, l) ← readString l;
  l ← readLiteral (string_bytes "," ++ label "node_id") l;
  '(node, l) ← readString l;
  l ← readLiteral (string_bytes "," ++ label "member_ids") l;
  '(members, l) ← readSeq x5b x5d readString l;
  l ← readLiteral (string_bytes "}," ++ label "included_index") l;
  '(index, l) ← readNumber l;
  l ← readLiteral (string_bytes "," ++ label "included_term") l;
  '(term, l) ← readNumber l;
  l ← readLiteral (string_bytes "," ++ label "values") l;
  '(values, l) ← readSeq x7b x7d readPair l;
  l ← readLiteral (string_bytes "," ++ label "sessions") l;
  '(sessions, l) ← readSeq x5b x5d readSession l;
  l ← readLiteral (string_bytes "}") l;
  match l with
  | [] => Some (mkSnapState (mkSnapIdentity cluster node members) index term
                  (foldl (fun m p => <[p.1 := p.2]> m) ∅ values) sessions)
  | _ => None
  end.

(** The Go values the payload stands for: [uint64] positions, UTF-8 names and keys,
    16-byte Session identities, a result code in one byte. *)
Record jsonable_session (s : snapSession) : Prop := {
  js_id : length (ss_ID s) = 16%nat;
  js_sequence : ss_LastSequence s < two64;
  js_result : ss_LastResult s < 256 }.

Record jsonable_state (s : snapState) : Prop := {
  jt_names : Forall (fun x => valid_utf8 x = true)
    (si_ClusterID (sn_Identity s) :: si_NodeID (sn_Identity s) :: si_MemberIDs (sn_Identity s));
  jt_index : sn_IncludedIndex s < two64;
  jt_term : sn_IncludedTerm s < two64;
  jt_keys : map_Forall (fun k _ => valid_utf8 k = true) (sn_Values s);
  jt_sessions : Forall jsonable_session (sn_Sessions s) }.

(** ** Base64 round trip *)

Definition plain (b : byte) : Prop := b <> x22 /\ b <> x5c.

Lemma b64_table n :
  n < 64 -> b64value (b64char n) = Some n /\ plain (b64char n).
Proof.
  intros Hn. rewrite <- (N2Nat.id n). assert (Hk : (N.to_nat n < 64)%nat) by lia.
  generalize dependent (N.to_nat n). clear Hn n. intros k Hk.
  do 64 (destruct k as [|k]; [split; [reflexivity|split; done]|]). lia.
Qed.

Lemma b64value_char n : n < 64 -> b64value (b64char n) = Some n.
Proof. apply b64_table. Qed.

Lemma byte_recomposed b x : byte_to_N b = x mod 256 -> byte_of_N x = b.
Proof. intros H. apply (inj byte_to_N). rewrite byte_to_of_N. done. Qed.

Lemma list_ind3 {A} (P : list A -> Prop) :
  P [] -> (forall a, P [a]) -> (forall a b, P [a; b]) ->
  (forall a b c l, P l -> P (a :: b :: c :: l)) -> forall l, P l.
Proof. intros H0 H1 H2 H3. fix IH 1. intros [|a [|b [|c l]]]; [done|apply H1|apply H2|apply H3, IH]. Qed.


#[local] Ltac Zify.zify_post_hook ::= Z.to_euclidean_division_equations.

(** Sextets put back into bytes; [w] and [v] are the neighbours' bits. *)
Lemma b64_first a w :
  w < 16 -> byte_of_N (byte_to_N a / 4 * 4 + (byte_to_N a mod 4 * 16 + w) / 16) = a.
Proof.
  intros Hw. apply byte_recomposed. pose proof (byte_to_N_lt a).
  replace ((byte_to_N a mod 4 * 16 + w) / 16) with (byte_to_N a mod 4) by lia.
  rewrite N.mod_small; lia.
Qed.

Lemma b64_second b v w :
  w < 4 -> byte_of_N ((v * 16 + byte_to_N b / 16) * 16 + (byte_to_N b mod 16 * 4 + w) / 4) = b.
Proof.
  intros Hw. apply byte_recomposed. pose proof (byte_to_N_lt b).
  replace ((byte_to_N b mod 16 * 4 + w) / 4) with (byte_to_N b mod 16) by lia.
  replace ((v * 16 + byte_to_N b / 16) * 16 + byte_to_N b mod 16) with (byte_to_N b + v * 256) by lia.
  rewrite N.Div0.mod_add, N.mod_small; lia.
Qed.

Lemma b64_third c v : byte_of_N ((v * 4 + byte_to_N c / 64) * 64 + byte_to_N c mod 64) = c.
Proof.
  apply byte_recomposed. pose proof (byte_to_N_lt c).
  replace ((v * 4 + byte_to_N c / 64) * 64 + byte_to_N c mod 64) with (byte_to_N c + v * 256) by lia.
  rewrite N.Div0.mod_add, N.mod_small; lia.
Qed.

Lemma b64_round l : b64decode (b64encode l) = Some l.
Proof.
  induction l as [|a|a b|a b c l IH] using list_ind3; [done|..];
    pose proof (byte_to_N_lt a); try pose proof (byte_to_N_lt b); try pose proof (byte_to_N_lt c);
    cbn -[b64value b64char byte_to_N byte_of_N N.mul N.add N.div N.modulo];
    rewrite !b64value_char by lia; cbn [mbind option_bind].
  - change (b64value x3d) with (@None N). cbn -[byte_of_N byte_to_N N.mul N.add N.div N.modulo].
    by rewrite <- (N.add_0_r (byte_to_N a mod 4 * 16)), b64_first by lia.
  - change (b64value x3d) with (@None N). cbn -[byte_of_N byte_to_N N.mul N.add N.div N.modulo].
    rewrite b64_first by lia. by rewrite <- (N.add_0_r (byte_to_N b mod 16 * 4)), b64_second by lia.
  - rewrite IH. cbn [mbind option_bind app]. by rewrite b64_first, b64_second, b64_third by lia.
Qed.

Lemma b64_plain l : Forall plain (b64encode l).
Proof.
  induction l as [|a|a b|a b c l IH] using list_ind3; [constructor|..];
    pose proof (byte_to_N_lt a); try pose proof (byte_to_N_lt b); try pose proof (byte_to_N_lt c);
    cbn -[b64char byte_to_N N.mul N.add N.div N.modulo];
    repeat (constructor; [first [apply b64_table; lia | done]|]); done.
Qed.

(** ** Round trips of the payload *)

(** Text that cannot extend a number. *)
Definition delimited (rest : list byte) : Prop :=
  match rest with b :: _ => byte_to_N b < 48 \/ 57 < byte_to_N b | [] => True end.

(** [item] reads back what [write] wrote for [x]. *)
Definition reads {A} (write : A -> list byte) (item : list byte -> option (A * list byte)) (x : A) : Prop :=
  forall rest, delimited rest -> item (write x ++ rest) = Some (x, rest).

Section Sequences.
Context {A : Type} (open_ close : byte) (write : A -> list byte) (item : list byte -> option (A * list byte)).
Hypothesis close_delimits : forall rest, delimited (close :: rest).
Hypothesis close_comma : close <> x2c.
Hypothesis starts : forall x, exists b l, write x = b :: l /\ b <> close.

Lemma readItems_json l rest fuel :
  Forall (reads write item) l -> (length l < fuel)%nat ->
  readItems fuel close item (concat (map (fun y => x2c :: write y) l) ++ [close] ++ rest) = Some (l, rest).
Proof.
  revert fuel. induction l as [|x l IH]; intros [|fuel] Hl Hf; cbn [length] in Hf; try lia.
  - cbn. by rewrite bool_decide_true.
  - apply Forall_cons in Hl as [Hx Hl]. cbn [map concat app readItems].
    rewrite bool_decide_false by (intros [=]; congruence). cbn [bool_decide decide_rel].
    rewrite <- app_assoc, Hx; [cbn [mbind option_bind]; rewrite IH by (done || lia); done|].
    destruct l; [apply close_delimits|by left].
Qed.

Lemma readSeq_json l rest :
  Forall (reads write item) l -> readSeq open_ close item (jsonSeq open_ close write l ++ rest) = Some (l, rest).
Proof.
  intros Hl. unfold readSeq, jsonSeq. destruct l as [|x l]; cbn [app].
  { rewrite !bool_decide_true by done. done. }
  rewrite bool_decide_true by done. apply Forall_cons in Hl as [Hx Hl].
  destruct (starts x) as (b & t & Hb & Hne). rewrite <- !app_assoc.
  assert (Hd : delimited (concat (map (fun y => x2c :: write y) l) ++ [close] ++ rest)).
  { destruct l; [apply close_delimits|by left]. }
  rewrite Hx by done. rewrite Hb at 1. cbn [app mbind option_bind]. rewrite bool_decide_false by done.
  rewrite (readItems_json l rest); [done|done|]. rewrite length_app.
  assert (length l <= length (concat (map (fun y => x2c :: write y) l)))%nat; [|lia].
  clear. induction l; cbn; [lia|]. rewrite length_app. lia.
Qed.
End Sequences.

Lemma jsonNumber_starts n : exists b l, jsonNumber n = b :: l /\ 48 <= byte_to_N b <= 57.
Proof.
  unfold jsonNumber. destruct (N.to_uint n) eqn:E; try (eexists _, _; split; [done|cbn; lia]).
  assert (Hd : N.of_uint (N.to_uint n) = n) by apply DecimalN.Unsigned.of_to.
  rewrite E in Hd. cbn in Hd. by subst.
Qed.

Lemma readByte_json b : reads jsonByte readByte b.
Proof.
  intros rest Hr. unfold readByte, jsonByte. pose proof (byte_to_N_lt b).
  rewrite readNumber_json by (done || (unfold two64; lia)). cbn [mbind option_bind].
  unfold byte_to_N. by rewrite Byte.of_to_N.
Qed.

Lemma readBool_json b : reads jsonBool readBool b.
Proof. intros rest _. by destruct b. Qed.

Lemma readChars_plain l rest : Forall plain l -> readChars (l ++ [x22] ++ rest) = Some (l, rest).
Proof.
  induction 1 as [|b l [H1 H2] _ IH]; [done|]. cbn [app] in *.
  destruct b; cbn [readChars]; rewrite ?IH; done.
Qed.

Lemma readString_plain l rest :
  Forall plain l -> readString ([x22] ++ l ++ [x22] ++ rest) = Some (bytes_string l, rest).
Proof. intros Hl. pose proof (readChars_plain l rest Hl) as E. cbn in *. by rewrite E. Qed.

Lemma readBytes_json v : reads jsonBytes readBytes v.
Proof.
  intros rest _. destruct v as [|a v]; [by unfold readBytes, jsonBytes; rewrite readLiteral_app|].
  unfold readBytes, jsonBytes.
  rewrite <- !app_assoc. set (t := b64encode (a :: v)).
  replace (readLiteral (string_bytes "null") ([x22] ++ t ++ [x22] ++ rest)) with (@None (list byte)).
  2:{ unfold readLiteral. by rewrite bool_decide_false. }
  rewrite (readString_plain t rest) by apply b64_plain. cbn [mbind option_bind].
  rewrite string_bytes_of_bytes. unfold t. by rewrite b64_round.
Qed.

Lemma readPair_json p : reads jsonPair readPair p.
Proof.
  intros rest Hr. destruct p as [k v]. unfold readPair, jsonPair. cbn [fst snd].
  rewrite <- !app_assoc. do 2 json_step. rewrite readBytes_json by done. done.
Qed.

Lemma readID_json id rest : readSeq x5b x5d readByte (jsonSeq x5b x5d jsonByte id ++ rest) = Some (id, rest).
Proof.
  apply readSeq_json; [intros ?; by right|done| |].
  - intros b. destruct (jsonNumber_starts (byte_to_N b)) as (c & l & E & Hc). exists c, l. split; [done|].
    intros ->. cbn in Hc. lia.
  - apply Forall_forall. intros b _. apply readByte_json.
Qed.

Lemma readMembers_json l rest : readSeq x5b x5d readString (jsonSeq x5b x5d jsonString l ++ rest) = Some (l, rest).
Proof.
  apply readSeq_json; [intros ?; by right|done|intros s; by eexists _, _|].
  apply Forall_forall. intros s _ r _. apply readString_json.
Qed.

Lemma readPairs_json l rest : readSeq x7b x7d readPair (jsonSeq x7b x7d jsonPair l ++ rest) = Some (l, rest).
Proof.
  apply readSeq_json; [intros ?; by right|done|intros s; by eexists _, _|].
  apply Forall_forall. intros p _. apply readPair_json.
Qed.

(** Reads the next element of the payload. *)
Ltac state_step :=
  first [ json_step
        | first [ rewrite readID_json | rewrite readMembers_json | rewrite readPairs_json
                | rewrite readBool_json by (vm_compute; auto) ]; cbn [mbind option_bind] ].

Lemma readSession_json s : jsonable_session s -> reads jsonSession readSession s.
Proof.
  intros [Hid Hseq Hres] rest Hr. unfold readSession, jsonSession.
  assert (ss_LastResult s < two64) by (unfold two64; lia).
  rewrite <- !(app_assoc _ _ rest). do 11 state_step.
  apply N.ltb_lt in Hres as ->. rewrite bool_decide_true by done. by destruct s.
Qed.

Lemma readSessions_json l rest :
  Forall jsonable_session l ->
  readSeq x5b x5d readSession (jsonSeq x5b x5d jsonSession l ++ rest) = Some (l, rest).
Proof.
  intros Hl. apply readSeq_json; [intros ?; by right|done|intros s; by eexists _, _|].
  eapply Forall_impl; [exact Hl|]. apply readSession_json.
Qed.

Lemma foldl_insert_map (l : list (string * list byte)) (m : gmap string (list byte)) :
  NoDup l.*1 -> foldl (fun m p => <[p.1 := p.2]> m) m l = list_to_map l ∪ m.
Proof.
  revert m. induction l as [|[k v] l IH]; intros m Hnd; cbn; [by rewrite map_empty_union|].
  cbn in Hnd. apply NoDup_cons in Hnd as [Hk Hnd].
  rewrite IH by done. rewrite <- insert_union_r, insert_union_l; [done|].
  by apply not_elem_of_list_to_map_1.
Qed.

Lemma sortedPairs_map m : foldl (fun m p => <[p.1 := p.2]> m) ∅ (sortedPairs m) = m.
Proof.
  assert (Hp : sortedPairs m ≡ₚ map_to_list m) by apply merge_sort_Permutation.
  assert (Hnd : NoDup (sortedPairs m).*1) by (rewrite Hp; apply NoDup_fst_map_to_list).
  rewrite foldl_insert_map, map_union_empty by done.
  rewrite (list_to_map_proper _ (map_to_list m) Hnd Hp). apply list_to_map_to_list.
Qed.

Lemma readState_json s : jsonable_state s -> readState (jsonState s) = Some s.
Proof.
  intros [_ Hi Ht _ Hs]. unfold readState, jsonState. do 13 state_step.
  rewrite readSessions_json by done. cbn [mbind option_bind].
  rewrite <- (app_nil_r (string_bytes "}")), readLiteral_app; cbn [mbind option_bind].
  rewrite sortedPairs_map. by destruct s as [[] ? ? ? ?].
Qed.
