(* ===== verification/SnapshotFile.v ===== *)
(** Snapshot files (internal/snapshot/snapshot.go): validation, the checksummed file
    format, installation by rename, and the choice of the newest file that the durable
    log accepts.  A directory is a map from base names to contents. *)

From S2P Require Import Prelude Bytes Json RaftTypes RaftCore Session SnapshotJson.

Definition magic : list byte := string_bytes "QKVSNP01".
Definition snapFormatVersion : N := 1.
Definition headerSize : N := len magic + 4 + 8 + 4.
Definition maxPayloadSize : N := 4294967296.

Record Compatibility := mkCompatibility {
  cm_Identity : snapIdentity; cm_CommitIndex : N; cm_LogStartIndex : N;
  cm_LogTerms : list N; cm_SnapshotIndex : N; cm_SnapshotTerm : N }.

(** Where [Save] can stop. *)
Inductive saveStage :=
  createDirectory | createTemporary | setPermissions | writeHeader | writePayload
  | syncTemporary | closeTemporary | inspectDestination | renameTemporary | syncDirectory.

Inductive snapError :=
  | missingIdentity | memberCount (n : N) | emptyMember | unsortedMembers | notMember
  | halfPosition | duplicateSession (id : SessionID)
  | payloadTooLarge | fileTooLarge | shortFile | invalidMagic | unsupportedVersion (v : N)
  | lengthTooLarge (n : N) | lengthMismatch (n : N) | checksumMismatch | badPayload
  | foreignSnapshot (name : string) | noCompatibleSnapshot
  | destinationExists (name : string) | notInstalled | stageFailed (s : saveStage)
  | processKilled (s : saveStage).

(** ** Validation *)

Definition string_ltb (a b : string) : bool := String.ltb a b.

(** The member loop: [previous] is the element before, the result tells whether the
    Node is a member. *)
Fixpoint checkMemberIDs (node : string) (previous : option string) (ids : list string)
    (nodeIsMember : bool) : result snapError bool :=
  match ids with
  | [] => Ok nodeIsMember
  | id :: ids =>
      fail? blank_string id with emptyMember in
      fail? match previous with Some p => negb (string_ltb p id) | None => false end
        with unsortedMembers in
      checkMemberIDs node (Some id) ids (nodeIsMember || bool_decide (id = node))
  end.

Fixpoint checkSessions (seen : list SessionID) (sessions : list snapSession) : result snapError unit :=
  match sessions with
  | [] => Ok tt
  | s :: sessions =>
      fail? bool_decide (ss_ID s ∈ seen) with duplicateSession (ss_ID s) in
      checkSessions (ss_ID s :: seen) sessions
  end.

Definition validateState (state : snapState) : result snapError unit :=
  let identity := sn_Identity state in
  fail? blank_string (si_ClusterID identity) || blank_string (si_NodeID identity)
    with missingIdentity in
  fail? negb (len (si_MemberIDs identity) =? 3) with memberCount (len (si_MemberIDs identity)) in
  let? nodeIsMember := checkMemberIDs (si_NodeID identity) None (si_MemberIDs identity) false in
  fail? negb nodeIsMember with notMember in
  fail? negb (Bool.eqb (sn_IncludedIndex state =? 0) (sn_IncludedTerm state =? 0)) with halfPosition in
  checkSessions [] (sn_Sessions state).

Definition matchesWAL (state : snapState) (c : Compatibility) : bool :=
  if cm_CommitIndex c <? sn_IncludedIndex state then false
  else if sn_IncludedIndex state =? 0 then sn_IncludedTerm state =? 0
  else if sn_IncludedIndex state =? cm_SnapshotIndex c then sn_IncludedTerm state =? cm_SnapshotTerm c
  else
    let start := if cm_LogStartIndex c =? 0 then 1 else cm_LogStartIndex c in
    if sn_IncludedIndex state <? start then false
    else
      match at_index (cm_LogTerms c) (sn_IncludedIndex state - start) with
      | Some term => term =? sn_IncludedTerm state
      | None => false
      end.

Definition equalIdentity (left right : snapIdentity) : bool :=
  bool_decide (si_ClusterID left = si_ClusterID right)
  && bool_decide (si_NodeID left = si_NodeID right)
  && bool_decide (si_MemberIDs left = si_MemberIDs right).

(** ** The file format *)

Definition snapshotHeader (payload : list byte) : list byte :=
  magic ++ be_put 4 snapFormatVersion ++ be_put 8 (len payload) ++ be_put 4 (crc32 payload).

Definition decode (contents : list byte) : result snapError snapState :=
  fail? maxPayloadSize + headerSize <? len contents with fileTooLarge in
  fail? len contents <? headerSize with shortFile in
  fail? negb (bool_decide (take 8 contents = magic)) with invalidMagic in
  let version := be_get (take 4 (drop 8 contents)) in
  fail? negb (version =? snapFormatVersion) with unsupportedVersion version in
  let length_ := be_get (take 8 (drop 12 contents)) in
  fail? maxPayloadSize <? length_ with lengthTooLarge length_ in
  fail? negb (length_ =? len contents - headerSize) with lengthMismatch length_ in
  let payload := drop 24 contents in
  let wantChecksum := be_get (take 4 (drop 20 contents)) in
  fail? negb (crc32 payload =? wantChecksum) with checksumMismatch in
  match readState payload with
  | None => Err badPayload
  | Some state =>
      let? _ := validateState state in
      Ok state
  end.

Definition Decode (contents : list byte) : result snapError snapState := decode contents.

(** ** Names *)

Notation directory := (gmap string (list byte)).

(** A [uint64] as [%020d] prints it. *)
Definition padded (n : N) : string :=
  bytes_string (replicate (20 - length (jsonNumber n)) x30 ++ jsonNumber n).

Definition positionPrefix (index term : N) : string :=
  "snapshot-" +:+ padded index +:+ "-" +:+ padded term +:+ "-".

(** The [filepath.Glob] patterns of the package: a prefix, anything, a suffix. *)
Definition globMatches (first last name : string) : bool :=
  let a := string_bytes first in let z := string_bytes last in let n := string_bytes name in
  (length a + length z <=? length n)%nat
  && bool_decide (take (length a) n = a)
  && bool_decide (drop (length n - length z) n = z).

Definition glob (first last : string) (d : directory) : list string :=
  map fst (map_to_list (filter (fun p => globMatches first last p.1 = true) d)).

(** ** Installation *)

(** What happens at a stage: success, an error, or the process dies there with
    [written] bytes of the stage's output on disk. *)
Inductive fate := succeeds | fails | killed (written : nat).

Section Save.
Context (fates : saveStage -> fate).

Definition attempt (s : saveStage) : EM directory snapError unit :=
  match fates s with
  | succeeds => eret tt
  | fails => elift (Err (stageFailed s))
  | killed _ => elift (Err (processKilled s))
  end.

(** Appends to a file, or as much of it as was written. *)
Definition writeFile (s : saveStage) (name : string) (bytes : list byte) : EM directory snapError unit :=
  let put n := emodify (fun d => <[name := default [] (d !! name) ++ take n bytes]> d) in
  do+ put match fates s with killed written => written | _ => length bytes end in
  attempt s.

(** The deferred removal of the temporary file, which only a live process runs. *)
Definition removing {A} (name : string) (m : EM directory snapError A) : EM directory snapError A :=
  fun d =>
    match m d with
    | (Ok a, d) => (Ok a, d)
    | (Err (processKilled s), d) => (Err (processKilled s), d)
    | (Err e, d) => (Err e, delete name d)
    end.

(** [os.CreateTemp] tries random parts until the name is free. *)
Fixpoint freeName (d : directory) (prefix : string) (randoms : list string) : option string :=
  match randoms with
  | [] => None
  | random :: randoms =>
      match d !! (prefix +:+ random +:+ ".tmp") with
      | None => Some random
      | Some _ => freeName d prefix randoms
      end
  end.

Definition Save (randoms : list string) (state : snapState) : EM directory snapError string :=
  do+ elift (validateState state) in
  let payload := jsonState state in
  do+ elift (guard (maxPayloadSize <? len payload) payloadTooLarge) in
  let header := snapshotHeader payload in
  do+ attempt createDirectory in
  do+ attempt createTemporary in
  let prefix := positionPrefix (sn_IncludedIndex state) (sn_IncludedTerm state) in
  let+ d := eget in
  match freeName d prefix randoms with
  | None => elift (Err (stageFailed createTemporary))
  | Some random =>
      let temporaryName := prefix +:+ random +:+ ".tmp" in
      let finalName := prefix +:+ random +:+ ".qsnap" in
      do+ emodify (insert temporaryName []) in
      do+ removing temporaryName (
        do+ attempt setPermissions in
        do+ writeFile writeHeader temporaryName header in
        do+ writeFile writePayload temporaryName payload in
        do+ attempt syncTemporary in
        do+ attempt closeTemporary in
        do+ attempt inspectDestination in
        let+ d := eget in
        do+ elift (guard (bool_decide (is_Some (d !! finalName))) (destinationExists finalName)) in
        do+ attempt renameTemporary in
        emodify (fun d => <[finalName := default [] (d !! temporaryName)]> (delete temporaryName d))) in
      do+ attempt syncDirectory in
      eret finalName
  end.
End Save.

(** ** Selection *)

(** Names in descending order, as [sort.Reverse] leaves them. *)
Definition name_ge (a b : string) : Prop := string_le b a.
#[export] Instance name_ge_dec a b : Decision (name_ge a b).
Proof. unfold name_ge. apply _. Defined.

Definition newer (state : snapState) (name : string) (newest : option (snapState * string)) : bool :=
  match newest with
  | None => true
  | Some (best, bestName) =>
      (sn_IncludedIndex best <? sn_IncludedIndex state)
      || ((sn_IncludedIndex state =? sn_IncludedIndex best)
          && ((sn_IncludedTerm best <? sn_IncludedTerm state)
              || ((sn_IncludedTerm state =? sn_IncludedTerm best) && string_ltb bestName name)))
  end.

Definition consider (d : directory) (c : Compatibility) (name : string)
    (newest : option (snapState * string)) : result snapError (option (snapState * string)) :=
  let? state := decode (default [] (d !! name)) in
  fail? negb (equalIdentity (sn_Identity state) (cm_Identity c)) with foreignSnapshot name in
  Ok (if matchesWAL state c && newer state name newest then Some (state, name) else newest).

Definition LoadNewest (d : directory) (c : Compatibility) : result snapError (option snapState) :=
  let names := merge_sort name_ge (glob "snapshot-" ".qsnap" d) in
  let? newest := rfold (consider d c) names None in
  match newest with
  | None => if 0 <? len names then Err noCompatibleSnapshot else Ok None
  | Some (state, _) => Ok (Some state)
  end.

Definition Encoded (d : directory) (includedIndex includedTerm : N) : result snapError (list byte) :=
  let names := merge_sort string_le (glob (positionPrefix includedIndex includedTerm) ".qsnap" d) in
  match last names with
  | None => Err notInstalled
  | Some name =>
      let contents := default [] (d !! name) in
      let? _ := decode contents in
      Ok contents
  end.
