(* ===== verification/SnapshotProps.v ===== *)
(** Snapshot files against their contract: what is saved is read back, damage is
    detected, installation is atomic under failures and kills, and the newest
    Snapshot that the durable log accepts is the one that is loaded. *)

From S2P Require Import Prelude Bytes Json RaftTypes RaftCore Session SnapshotJson SnapshotFile.

(** ** The file format *)

Definition snapshotBytes (state : snapState) : list byte :=
  snapshotHeader (jsonState state) ++ jsonState state.

Lemma decode_file payload body :
  len payload <= maxPayloadSize -> length body = length payload ->
  decode (snapshotHeader payload ++ body) =
  fail? negb (crc32 body =? crc32 payload) with checksumMismatch in
  match readState body with
  | None => Err badPayload
  | Some state => let? _ := validateState state in Ok state
  end.
Proof.
  intros Hmax Hlen. unfold decode.
  assert (Hl : len (snapshotHeader payload ++ body) = headerSize + len payload).
  { unfold len. rewrite length_app, Hlen. change (length (snapshotHeader payload)) with 24%nat.
    unfold headerSize. change (len magic) with 8. lia. }
  rewrite Hl.
  change (take 8 (snapshotHeader payload ++ body)) with magic.
  change (take 4 (drop 8 (snapshotHeader payload ++ body))) with (be_put 4 snapFormatVersion).
  change (take 8 (drop 12 (snapshotHeader payload ++ body))) with (be_put 8 (len payload)).
  change (take 4 (drop 20 (snapshotHeader payload ++ body))) with (be_put 4 (crc32 payload)).
  change (drop 24 (snapshotHeader payload ++ body)) with body.
  rewrite be_get_put64 by (unfold maxPayloadSize, two64 in *; lia).
  rewrite (be_get_put32 (crc32 payload)) by apply crc32_lt.
  change (be_get (be_put 4 snapFormatVersion)) with 1.
  unfold guard at 1 2 3 4 5 6.
  rewrite !(proj2 (N.ltb_ge _ _)) by (unfold headerSize in *; lia).
  rewrite bool_decide_true by done. cbn [negb rbind].
  replace (headerSize + len payload - headerSize) with (len payload) by lia.
  rewrite (N.eqb_refl (len payload)). done.
Qed.

Lemma decode_snapshot state :
  jsonable_state state -> validateState state = Ok tt -> len (jsonState state) <= maxPayloadSize ->
  decode (snapshotBytes state) = Ok state.
Proof.
  intros Hj Hv Hmax. unfold snapshotBytes. rewrite decode_file by done.
  rewrite N.eqb_refl. cbn [negb guard rbind]. by rewrite readState_json, Hv.
Qed.

(** C29: a Snapshot file decodes to the state it was written from. *)
Theorem snapshot_file_round_trip state :
  jsonable_state state -> validateState state = Ok tt -> len (jsonState state) <= maxPayloadSize ->
  Decode (snapshotBytes state) = Ok state.
Proof. apply decode_snapshot. Qed.

(** C32: damage within four consecutive bytes of the payload is reported as a
    checksum mismatch. *)
Theorem damaged_snapshot_is_rejected pre m1 m2 post :
  len (pre ++ m1 ++ post) <= maxPayloadSize ->
  length m1 = length m2 -> (length m1 <= 4)%nat -> m1 <> m2 ->
  Decode (snapshotHeader (pre ++ m1 ++ post) ++ pre ++ m2 ++ post) = Err checksumMismatch.
Proof.
  intros Hmax Hlen H4 Hne. unfold Decode.
  rewrite decode_file by (done || by rewrite !length_app, Hlen).
  rewrite (proj2 (N.eqb_neq _ _)); [done|]. intros E. symmetry in E. revert E. by apply crc32_burst.
Qed.

(** ** Installation *)

(** The files that [LoadNewest] looks at. *)
Definition visible (d : directory) : directory :=
  filter (fun p => globMatches "snapshot-" ".qsnap" p.1 = true) d.

Lemma string_bytes_app a b : string_bytes (a +:+ b) = string_bytes a ++ string_bytes b.
Proof.
  unfold string_bytes, String.list_byte_of_string. rewrite <- map_app. f_equal.
  induction a as [|c a IH]; [done|].
  change (String c a +:+ b) with (String c (a +:+ b)). cbn. by rewrite IH.
Qed.

Lemma final_is_visible i t random :
  globMatches "snapshot-" ".qsnap" (positionPrefix i t +:+ random +:+ ".qsnap") = true.
Proof.
  unfold globMatches, positionPrefix. rewrite !string_bytes_app.
  set (m := string_bytes (padded i)). set (m' := string_bytes (padded t)). set (r := string_bytes random).
  rewrite <- !app_assoc. repeat (apply andb_true_intro; split).
  - apply Nat.leb_le. rewrite !length_app. cbn. lia.
  - apply bool_decide_true. by rewrite take_app_length.
  - apply bool_decide_true. rewrite !app_assoc, drop_app_length'; [done|].
    rewrite !length_app. cbn. lia.
Qed.

Lemma temporary_is_hidden i t random :
  globMatches "snapshot-" ".qsnap" (positionPrefix i t +:+ random +:+ ".tmp") = false.
Proof.
  unfold globMatches, positionPrefix. apply andb_false_intro2, bool_decide_false. intros E.
  apply (f_equal (drop 2)) in E. rewrite drop_drop in E. revert E.
  rewrite !string_bytes_app. set (r := string_bytes random). rewrite !app_assoc, drop_app_length'; [done|].
  rewrite !length_app. cbn. lia.
Qed.

Lemma visible_insert_hidden name c d :
  globMatches "snapshot-" ".qsnap" name = false -> visible (<[name := c]> d) = visible d.
Proof. intros H. apply map_filter_insert_not. intros y. cbn. congruence. Qed.

Lemma visible_delete_hidden name d :
  globMatches "snapshot-" ".qsnap" name = false -> visible (delete name d) = visible d.
Proof. intros H. apply map_filter_delete_not. intros y _. cbn. congruence. Qed.

Lemma visible_insert name c d :
  globMatches "snapshot-" ".qsnap" name = true -> visible (<[name := c]> d) = <[name := c]> (visible d).
Proof. intros H. by apply map_filter_insert_True. Qed.

Lemma visible_lookup name d :
  globMatches "snapshot-" ".qsnap" name = true -> visible d !! name = d !! name.
Proof.
  intros H. unfold visible. destruct (d !! name) eqn:E.
  - by apply map_lookup_filter_Some.
  - apply map_lookup_filter_None. by left.
Qed.

(** Nothing [Save] does before the rename is visible, and the rename shows the whole file. *)
Definition unseen (d : directory) (r : result snapError string) (d' : directory) : Prop :=
  visible d' = visible d /\ exists e, r = Err e.

Definition installedAs (state : snapState) (d : directory) (r : result snapError string) (d' : directory) : Prop :=
  exists name, d !! name = None /\ globMatches "snapshot-" ".qsnap" name = true /\
    visible d' = <[name := snapshotBytes state]> (visible d) /\
    (r = Ok name \/ r = Err (stageFailed syncDirectory) \/ r = Err (processKilled syncDirectory)).

Section Atomic.
Context (fates : saveStage -> fate).

Lemma ewp_attempt s (Q : unit -> directory -> Prop) (R : snapError -> directory -> Prop) d :
  Q tt d -> (forall e, R e d) -> ewp (attempt fates s) Q R d.
Proof. intros HQ HR. unfold attempt. destruct (fates s); unfold ewp; cbn; auto. Qed.

Lemma ewp_write s name bytes (Q : unit -> directory -> Prop) (R : snapError -> directory -> Prop) d c :
  Q tt (<[name := c ++ bytes]> d) -> (forall e c, R e (<[name := c]> d)) ->
  ewp (writeFile fates s name bytes) Q R (<[name := c]> d).
Proof.
  intros HQ HR. unfold writeFile. apply ewp_bind, ewp_modify. cbv beta.
  rewrite lookup_insert_eq, insert_insert_eq. cbn [default from_option id].
  unfold attempt. destruct (fates s); unfold ewp; cbn; auto.
  by rewrite firstn_all.
Qed.

Lemma ewp_removing {A} name (m : EM directory snapError A) Q (R : snapError -> directory -> Prop) d :
  ewp m Q (fun e d' => R e d' /\ R e (delete name d')) d -> ewp (removing name m) Q R d.
Proof.
  unfold ewp, removing. destruct (m d) as [[a|e] d']; [done|]. intros [H1 H2]. by destruct e.
Qed.

(** What an attempt that stops before the rename leaves. *)
Definition stops (state : snapState) (d : directory) (e : snapError) (d' : directory) : Prop :=
  unseen d (Err e) d' \/ installedAs state d (Err e) d'.

Lemma stops_before state d e : stops state d e d.
Proof. left. split; [done|by eexists]. Qed.

Lemma stops_with_temporary state d tmp c e :
  globMatches "snapshot-" ".qsnap" tmp = false ->
  stops state d e (<[tmp := c]> d) /\ stops state d e (delete tmp (<[tmp := c]> d)).
Proof.
  intros H. split; left; (split; [|by eexists]); rewrite ?visible_delete_hidden by done;
    by apply visible_insert_hidden.
Qed.

Lemma visible_rename tmp final c d :
  globMatches "snapshot-" ".qsnap" tmp = false -> globMatches "snapshot-" ".qsnap" final = true ->
  visible (<[final := c]> (delete tmp (<[tmp := c]> d))) = <[final := c]> (visible d).
Proof. intros. by rewrite visible_insert, visible_delete_hidden, visible_insert_hidden. Qed.

Lemma save_steps randoms state d :
  ewp (Save fates randoms state) (fun name d' => installedAs state d (Ok name) d') (stops state d) d.
Proof.
  pose proof (stops_before state d) as Hnone.
  unfold Save. apply ewp_bind, ewp_lift; [intros _ _|auto].
  apply ewp_bind, ewp_lift; [intros _ _|auto]. do 2 (apply ewp_bind, ewp_attempt; [|auto]).
  apply ewp_bind, ewp_get. destruct (freeName _ _ _) as [random|]; [|unfold ewp; cbn; auto].
  set (tmp := _ +:+ random +:+ ".tmp"). set (final := _ +:+ random +:+ ".qsnap").
  assert (Htmp : globMatches "snapshot-" ".qsnap" tmp = false) by apply temporary_is_hidden.
  assert (Hfinal : globMatches "snapshot-" ".qsnap" final = true) by apply final_is_visible.
  assert (Hback : forall c e, stops state d e (<[tmp := c]> d) /\ stops state d e (delete tmp (<[tmp := c]> d)))
    by (intros; by apply stops_with_temporary).
  apply ewp_bind, ewp_modify, ewp_bind, ewp_removing.
  apply ewp_bind, ewp_attempt; [|apply Hback].
  do 2 (apply ewp_bind, ewp_write; [|intros; apply Hback]).
  do 3 (apply ewp_bind, ewp_attempt; [|apply Hback]).
  apply ewp_bind, ewp_get, ewp_bind, ewp_lift; [intros [] Hg|intros; apply Hback].
  apply ewp_bind, ewp_attempt; [|apply Hback]. apply ewp_modify.
  assert (Hne : tmp <> final) by (intros E; congruence).
  rewrite lookup_insert_ne in Hg by done.
  assert (Hfree : d !! final = None) by (by destruct (d !! final)).
  rewrite lookup_insert_eq. cbn [default from_option id app].
  pose proof (visible_rename tmp final (snapshotBytes state) d Htmp Hfinal) as Hv.
  apply ewp_bind. unfold attempt, ewp. destruct (fates syncDirectory); cbn; [|right..];
    exists final; split_and!; auto.
Qed.
End Atomic.

(** ** Selection *)

Definition position_lt (a b : snapState) : Prop :=
  sn_IncludedIndex a < sn_IncludedIndex b \/
  sn_IncludedIndex a = sn_IncludedIndex b /\ sn_IncludedTerm a < sn_IncludedTerm b.

(** A stored Snapshot of this Node. *)
Definition holds (d : directory) (c : Compatibility) (name : string) (state : snapState) : Prop :=
  decode (default [] (d !! name)) = Ok state /\ equalIdentity (sn_Identity state) (cm_Identity c) = true.

(** A candidate for loading. *)
Definition candidate (d : directory) (c : Compatibility) (state : snapState) : Prop :=
  exists name, is_Some (visible d !! name) /\ holds d c name state /\ matchesWAL state c = true.

Lemma newer_spec state name best bestName :
  if newer state name (Some (best, bestName)) then ~ position_lt state best else ~ position_lt best state.
Proof.
  unfold newer, position_lt. destruct (string_ltb bestName name); cbn [andb orb];
    destruct (N.ltb_spec (sn_IncludedIndex best) (sn_IncludedIndex state)),
      (N.eqb_spec (sn_IncludedIndex state) (sn_IncludedIndex best)),
      (N.ltb_spec (sn_IncludedTerm best) (sn_IncludedTerm state)),
      (N.eqb_spec (sn_IncludedTerm state) (sn_IncludedTerm best)); cbn [andb orb]; lia.
Qed.

(** [best] is the accumulated choice: it is not older than any candidate seen. *)
Definition atLeast (newest : option (snapState * string)) (state : snapState) : Prop :=
  match newest with Some (best, _) => ~ position_lt best state | None => False end.

Lemma consider_spec d c name newest r :
  consider d c name newest = Ok r ->
  (exists state, holds d c name state /\ (r = newest \/ r = Some (state, name) /\ matchesWAL state c = true)) /\
  (forall state, holds d c name state -> matchesWAL state c = true -> atLeast r state) /\
  (forall state, atLeast newest state -> atLeast r state).
Proof.
  unfold consider. destruct (decode _) as [state|] eqn:Hd; [|done]. cbn [rbind]. unfold guard.
  destruct (equalIdentity _ _) eqn:Hi; [|done]. cbn [negb rbind]. intros [= <-].
  assert (Hs : holds d c name state) by done.
  assert (Hu : forall s, holds d c name s -> s = state) by (intros s [E _]; congruence).
  destruct (matchesWAL state c) eqn:Hm; cbn [andb].
  2:{ split_and!; [exists state; auto| |done]. intros s Hs' Hm'. apply Hu in Hs' as ->. congruence. }
  destruct newest as [[best bestName]|].
  - pose proof (newer_spec state name best bestName) as Hn. destruct (newer _ _ _); split_and!.
    + exists state. auto.
    + intros s Hs' _. apply Hu in Hs' as ->. cbn. unfold position_lt. lia.
    + intros s. cbn. unfold position_lt in *. lia.
    + exists state. auto.
    + intros s Hs' _. by apply Hu in Hs' as ->.
    + done.
  - cbn [newer]. split_and!; [exists state; auto| |done].
    intros s Hs' _. apply Hu in Hs' as ->. cbn. unfold position_lt. lia.
Qed.

Lemma selection d c names newest r :
  rfold (consider d c) names newest = Ok r ->
  (r = newest \/ exists state name, r = Some (state, name) /\ name ∈ names /\ holds d c name state /\
                   matchesWAL state c = true) /\
  Forall (fun name => exists state, holds d c name state) names /\
  (forall name state, name ∈ names -> holds d c name state -> matchesWAL state c = true -> atLeast r state) /\
  (forall state, atLeast newest state -> atLeast r state).
Proof.
  revert newest. induction names as [|name names IH]; intros newest H; cbn [rfold] in H.
  { injection H as <-. split_and!; [by left|constructor|set_solver|done]. }
  destruct (consider d c name newest) as [mid|] eqn:Hc; [|done]. cbn [rbind] in H.
  apply consider_spec in Hc as ((s0 & Hs0 & Hmid) & Hnew & Hold).
  apply IH in H as (Hr & Hall & Hmax & Hup). split_and!.
  - destruct Hr as [->|(s & n & ? & ? & ? & ?)]; [|right; exists s, n; set_solver].
    destruct Hmid as [->|[-> ?]]; [by left|right]. exists s0, name. set_solver.
  - constructor; [by exists s0|done].
  - intros n s [->|Hn]%elem_of_cons Hs Hm; eauto.
  - eauto.
Qed.

Lemma selection_total d c names newest :
  Forall (fun name => exists state, holds d c name state) names ->
  exists r, rfold (consider d c) names newest = Ok r.
Proof.
  intros Hall. revert newest. induction Hall as [|name names (s & Hd & Hi) _ IH]; intros newest; cbn [rfold].
  - by eexists.
  - unfold consider at 1. rewrite Hd. cbn [rbind]. rewrite Hi. cbn [negb guard rbind]. apply IH.
Qed.

Lemma selection_error d c names newest e :
  rfold (consider d c) names newest = Err e -> exists name, name ∈ names /\ ~ exists state, holds d c name state.
Proof.
  revert newest. induction names as [|name names IH]; intros newest H; cbn [rfold] in H; [done|].
  destruct (consider d c name newest) as [mid|] eqn:Hc; cbn [rbind] in H.
  - apply IH in H as (n & ? & ?). exists n. set_solver.
  - exists name. split; [set_solver|]. intros (s & Hd & Hi). unfold consider in Hc.
    rewrite Hd in Hc. cbn [rbind] in Hc. by rewrite Hi in Hc.
Qed.

Definition names (d : directory) : list string := merge_sort name_ge (glob "snapshot-" ".qsnap" d).

Lemma elem_of_names name d : name ∈ names d <-> is_Some (visible d !! name).
Proof.
  unfold names. rewrite merge_sort_Permutation. unfold glob. fold (visible d).
  rewrite list_elem_of_fmap. split.
  - intros ([n x] & -> & H%elem_of_map_to_list). cbn. by eexists.
  - intros [x H]. exists (name, x). split; [done|]. by apply elem_of_map_to_list.
Qed.

Lemma visible_same name d d' :
  visible d = visible d' -> is_Some (visible d !! name) -> d !! name = d' !! name.
Proof.
  intros Hv [x Hx]. rewrite Hv in Hx. pose proof Hx as Hx'. rewrite <- Hv in Hx.
  apply map_lookup_filter_Some_1_1 in Hx, Hx'. congruence.
Qed.

Lemma LoadNewest_visible d d' c : visible d = visible d' -> LoadNewest d c = LoadNewest d' c.
Proof.
  intros Hv. unfold LoadNewest. fold (names d). fold (names d').
  assert (Hn : names d = names d') by (unfold names, glob; fold (visible d) (visible d'); by rewrite Hv).
  rewrite <- Hn. f_equal.
  assert (Hc : forall l newest, (forall name, name ∈ l -> d !! name = d' !! name) ->
    rfold (consider d c) l newest = rfold (consider d' c) l newest).
  { intros l. induction l as [|name l IH]; intros newest Hl; [done|]. cbn [rfold].
    replace (consider d' c name newest) with (consider d c name newest)
      by (unfold consider; by rewrite (Hl name) by set_solver).
    destruct (consider d c name newest); [|done]. apply IH. set_solver. }
  apply Hc. intros name Hin%elem_of_names. by apply visible_same.
Qed.

Lemma names_empty d : (0 <? len (names d)) = false <-> visible d = ∅.
Proof.
  unfold names, glob, len. fold (visible d). rewrite merge_sort_Permutation, length_map, N.ltb_ge.
  rewrite <- map_to_list_empty_iff. destruct (map_to_list (visible d)); cbn; split; (done || lia).
Qed.

Lemma load_newest_spec d c :
  match LoadNewest d c with
  | Ok (Some best) => candidate d c best /\ (forall s, candidate d c s -> ~ position_lt best s)
  | Ok None => visible d = ∅
  | Err _ => (exists name, is_Some (visible d !! name) /\ ~ exists s, holds d c name s) \/
             visible d <> ∅ /\ forall s, ~ candidate d c s
  end.
Proof.
  unfold LoadNewest. fold (names d).
  destruct (rfold (consider d c) (names d) None) as [newest|e] eqn:Hr; cbn [rbind].
  2:{ left. apply selection_error in Hr as (name & Hin & Hno). exists name. by rewrite <- elem_of_names. }
  apply selection in Hr as (Hr & _ & Hmax & _).
  assert (Hc : forall s, candidate d c s -> atLeast newest s).
  { intros s (name & Hin%elem_of_names & Hs & Hm). eauto. }
  destruct newest as [[best bestName]|].
  - destruct Hr as [|(s & n & [= -> ->] & Hin%elem_of_names & Hs & Hm)]; [done|].
    split; [by exists n|exact Hc].
  - destruct (0 <? len (names d)) eqn:E; [|by apply names_empty].
    right. split; [intros Hv%names_empty; congruence|exact Hc].
Qed.

Lemma save_ok fates randoms state d name d' :
  Save fates randoms state d = (Ok name, d') ->
  validateState state = Ok tt /\ len (jsonState state) <= maxPayloadSize /\
  globMatches "snapshot-" ".qsnap" name = true /\ visible d' = <[name := snapshotBytes state]> (visible d).
Proof.
  intros E. assert (Hv : validateState state = Ok tt /\ len (jsonState state) <= maxPayloadSize).
  { unfold Save, ebind, elift, guard in E. destruct (validateState state) as [[]|]; [|done]. split; [done|].
    destruct (N.ltb_spec maxPayloadSize (len (jsonState state))); [done|lia]. }
  pose proof (save_steps fates randoms state d) as H. unfold ewp in H. rewrite E in H.
  destruct H as (n & _ & Hg & Hd & [[= <-]|[|]]); [|done..]. by destruct Hv.
Qed.

Lemma holds_same d d' c name s : d !! name = d' !! name -> holds d c name s <-> holds d' c name s.
Proof. intros E. unfold holds. by rewrite E. Qed.

Lemma candidate_after name bytes d d' c s :
  globMatches "snapshot-" ".qsnap" name = true -> visible d' = <[name := bytes]> (visible d) ->
  candidate d' c s -> decode bytes = Ok s \/ candidate d c s.
Proof.
  intros Hg Hv (n & Hn & Hs & Hm). rewrite Hv in Hn. destruct (decide (n = name)) as [->|Hne].
  - left. destruct Hs as [Hd _]. rewrite <- (visible_lookup _ d') in Hd by done.
    rewrite Hv, lookup_insert_eq in Hd. done.
  - right. rewrite lookup_insert_ne in Hn by done. exists n. split_and!; [done| |done].
    eapply holds_same; [|exact Hs]. destruct Hn as [x Hx].
    assert (Hx' : visible d' !! n = Some x) by (by rewrite Hv, lookup_insert_ne).
    apply map_lookup_filter_Some_1_1 in Hx, Hx'. congruence.
Qed.

Lemma loaded_holds d c before name :
  LoadNewest d c = Ok before -> is_Some (visible d !! name) -> exists s, holds d c name s.
Proof.
  unfold LoadNewest. fold (names d). rewrite <- elem_of_names. intros Hb Hin.
  destruct (rfold _ _ _) as [newest|] eqn:Hr; [|done]. apply selection in Hr as (_ & Hall & _).
  by apply (proj1 (Forall_forall _ _) Hall).
Qed.

Lemma load_added name bytes d before d' c state :
  LoadNewest d c = Ok before -> globMatches "snapshot-" ".qsnap" name = true ->
  visible d' = <[name := bytes]> (visible d) -> decode bytes = Ok state ->
  equalIdentity (sn_Identity state) (cm_Identity c) = true -> matchesWAL state c = true ->
  (forall best, before = Some best -> position_lt best state) ->
  LoadNewest d' c = Ok (Some state).
Proof.
  intros Hb Hg Hv Hd Hi Hm Hnew.
  assert (Hl : d' !! name = Some bytes) by (rewrite <- visible_lookup, Hv by done; apply lookup_insert_eq).
  assert (Hh : holds d' c name state) by (unfold holds; by rewrite Hl).
  assert (Hc : candidate d' c state).
  { exists name. split_and!; [rewrite Hv, lookup_insert_eq; by eexists|done..]. }
  pose proof (load_newest_spec d' c) as H. pose proof (load_newest_spec d c) as H0. rewrite Hb in H0.
  destruct (LoadNewest d' c) as [[best|]|].
  - destruct H as [Hbest Hmax]. apply Hmax in Hc.
    destruct (candidate_after _ _ _ _ _ _ Hg Hv Hbest) as [E|Hold]; [congruence|].
    destruct before as [b|].
    + apply H0 in Hold. specialize (Hnew b eq_refl). unfold position_lt in *. lia.
    + destruct Hold as (n & [x Hn] & _). by rewrite H0, lookup_empty in Hn.
  - rewrite Hv in H. by apply insert_non_empty in H.
  - exfalso. destruct H as [(n & Hn & Hno)|[_ Hno]]; [|by apply (Hno state)].
    rewrite Hv in Hn. destruct (decide (n = name)) as [->|Hne]; [apply Hno; by exists state|].
    rewrite lookup_insert_ne in Hn by done.
    destruct (loaded_holds _ _ _ _ Hb Hn) as [s Hs]. apply Hno. exists s.
    eapply holds_same; [|exact Hs]. destruct Hn as [x Hx].
    assert (Hx' : visible d' !! n = Some x) by (by rewrite Hv, lookup_insert_ne).
    apply map_lookup_filter_Some_1_1 in Hx, Hx'. congruence.
Qed.

(** ** Claims *)

(** C30: whatever fails and wherever the process dies, an attempt to save a Snapshot
    either changes nothing that a later start loads, or installs the complete file
    under a name that was free; success means the latter. *)
Theorem save_is_atomic fates randoms state d :
  let '(r, d') := Save fates randoms state d in
  (forall c, LoadNewest d' c = LoadNewest d c) /\ (exists e, r = Err e) \/
  exists name, d !! name = None /\
    (forall c, LoadNewest d' c = LoadNewest (<[name := snapshotBytes state]> d) c) /\
    (r = Ok name \/ r = Err (stageFailed syncDirectory) \/ r = Err (processKilled syncDirectory)).
Proof.
  pose proof (save_steps fates randoms state d) as H. unfold ewp in H.
  destruct (Save fates randoms state d) as [r d'].
  assert (H' : unseen d r d' \/ installedAs state d r d') by (destruct r; [by right|exact H]).
  destruct H' as [[Hv He]|(name & Hfree & Hg & Hv & Hr)].
  - left. split; [|done]. intros c. by apply LoadNewest_visible.
  - right. exists name. split_and!; [done| |done]. intros c. apply LoadNewest_visible.
    by rewrite Hv, visible_insert.
Qed.

(** C31: loading returns a stored Snapshot of this Node that the durable log accepts and
    that no other accepted one is newer than; it reports no Snapshot only when none is
    stored, and an error only when a file is unreadable or foreign or none is accepted. *)
Theorem newest_compatible_snapshot_is_loaded d c :
  match LoadNewest d c with
  | Ok (Some best) => candidate d c best /\ (forall s, candidate d c s -> ~ position_lt best s)
  | Ok None => visible d = ∅
  | Err _ => (exists name, is_Some (visible d !! name) /\ ~ exists s, holds d c name s) \/
             visible d <> ∅ /\ forall s, ~ candidate d c s
  end.
Proof. exact (load_newest_spec d c). Qed.

(** A saved Snapshot that the durable log accepts and that is newer than the one
    loaded before is the one that is loaded next. *)
Theorem saved_snapshot_is_loaded fates randoms state d name d' c before :
  jsonable_state state -> Save fates randoms state d = (Ok name, d') -> LoadNewest d c = Ok before ->
  equalIdentity (sn_Identity state) (cm_Identity c) = true -> matchesWAL state c = true ->
  (forall best, before = Some best -> position_lt best state) ->
  LoadNewest d' c = Ok (Some state).
Proof.
  intros Hj HS Hb Hi Hm Hnew. apply save_ok in HS as (Hval & Hmax & Hg & Hv).
  assert (Hd : decode (snapshotBytes state) = Ok state) by (by apply decode_snapshot).
  apply (load_added name (snapshotBytes state) d before); auto.
Qed.

Definition sampleState : snapState :=
  mkSnapState (mkSnapIdentity "ternion" "n1" ["n1"; "n2"; "n3"]) 5 2
    {[ "colour" := string_bytes "blue"; "empty" := [] ]}
    [mkSnapSession (replicate 16 x01) false 3 0 false].

Definition sampleCompatibility : Compatibility :=
  mkCompatibility (sn_Identity sampleState) 6 3 [1; 2; 2; 2] 2 1.

Lemma sampleState_jsonable : jsonable_state sampleState.
Proof.
  split; [repeat constructor|done|done| |repeat constructor; done].
  apply map_Forall_to_list. vm_compute. repeat constructor.
Qed.

Lemma snapshot_file_round_trip_witness : Decode (snapshotBytes sampleState) = Ok sampleState.
Proof.
  apply (snapshot_file_round_trip sampleState sampleState_jsonable); vm_compute; [reflexivity|discriminate].
Defined.

Lemma damaged_snapshot_is_rejected_witness :
  Decode (snapshotHeader [x7b; x7d; x0a] ++ [x7b; x7c; x0a]) = Err checksumMismatch.
Proof.
  apply (damaged_snapshot_is_rejected [x7b] [x7d] [x7c] [x0a]); [vm_compute; discriminate|done|cbn; lia|done].
Defined.

Lemma saved_snapshot_is_loaded_witness :
  LoadNewest (Save (fun _ => succeeds) ["17"] sampleState ∅).2 sampleCompatibility = Ok (Some sampleState).
Proof.
  eapply (saved_snapshot_is_loaded (fun _ => succeeds) ["17"] sampleState ∅ _ _ sampleCompatibility None
    sampleState_jsonable); [vm_compute; reflexivity|reflexivity|reflexivity|reflexivity|discriminate].
Defined.
