(* ===== verification/Transport.v ===== *)
(** The outgoing side of the peer protocol, [peerTransport] of internal/node/peer.go,
    and the answer of the incoming side, [Send], as gRPC codes.  gRPC itself is a
    parameter: it answers the [n]-th call of a transport in any way it likes. *)

From S2P Require Import Prelude Bytes RaftTypes Session Config Peer SnapshotJson SnapshotFile.

Inductive Code :=
| FailedPrecondition | InvalidArgument | Unavailable | DeadlineExceeded | Canceled
| NotFound | AlreadyExists | ResourceExhausted | Internal | Unknown.

#[export] Instance Code_eq_dec : EqDecision Code.
Proof. solve_decision. Defined.

(** ** Incoming messages *)

(** What became of the hand-over to the Raft loop: the queue took the input, the
    loop has returned, or the caller's context ended with the given code. *)
Inductive handover := queued | stopping | expired (c : Code).

Definition serveSend (cfg : Config) (request : SendRequest) (h : handover) : result Code Event :=
  match Send cfg request with
  | Err (inl _) => Err FailedPrecondition
  | Err (inr _) => Err InvalidArgument
  | Ok event =>
      match h with
      | queued => Ok event
      | stopping => Err Unavailable
      | expired c => Err c
      end
  end.

Definition serveHandshake (cfg : Config) (request : HandshakeRequest) : result Code HandshakeResponse :=
  match Handshake cfg request with
  | Err _ => Err FailedPrecondition
  | Ok response => Ok response
  end.

(** ** The transport *)

Record grpc := mkGrpc {
  gr_dials : string -> bool;
  gr_handshake : nat -> NodeID -> HandshakeRequest -> result Code HandshakeResponse;
  gr_send : nat -> NodeID -> SendRequest -> result Code unit }.

(** [tr_calls] counts the calls and [tr_sent] records the messages put on the wire. *)
Record peerTransport := mkTransport {
  tr_config : Config; tr_clients : gset string; tr_calls : nat; tr_sent : list (NodeID * SendRequest) }.

#[export] Instance eta_transport : Eta peerTransport := fun t =>
  mkTransport (tr_config t) (tr_clients t) (tr_calls t) (tr_sent t).

Inductive transportError :=
| unsupportedAction (a : Action) | cannotLoad (e : snapError) | cannotSlice (e : sendSnapshotError)
| unconfiguredNode (id : NodeID) | cannotDial (id : NodeID)
| handshakeFailed (id : NodeID) (c : Code) | handshakeMismatch (id : NodeID)
| sendFailed (id : NodeID) (c : Code)
| peerConfigurationError (e : transportError).

Definition isPeerConfigurationError (e : transportError) : bool :=
  match e with peerConfigurationError _ => true | _ => false end.

Definition newPeerTransport (cfg : Config) : peerTransport := mkTransport cfg ∅ 0 [].

Section Transport.
Context (net : grpc).

Definition TM := EM peerTransport transportError.

(** Numbers a call. *)
Definition call {A} (rpc : nat -> A) : TM A :=
  let+ t := eget in
  do+ emodify (fun t => t <| tr_calls := S (tr_calls t) |>) in
  eret (rpc (tr_calls t)).

(** A client for [id]: the cached one, or a new one after a handshake. *)
Definition client (id : NodeID) : TM unit :=
  let+ t := eget in
  let cfg := tr_config t in
  if bool_decide ((id : string) ∈ tr_clients t) then eret tt
  else
    match cf_Members cfg !! (id : string) with
    | None => elift (Err (unconfiguredNode id))
    | Some member =>
        if negb (gr_dials net (mb_PeerAddress member)) then elift (Err (cannotDial id))
        else
          let+ answered := call (fun n => gr_handshake net n id (handshakeRequest cfg id)) in
          match answered with
          | Err FailedPrecondition =>
              elift (Err (peerConfigurationError (handshakeFailed id FailedPrecondition)))
          | Err c => elift (Err (handshakeFailed id c))
          | Ok response =>
              if negb (handshakeAccepted cfg id response)
              then elift (Err (peerConfigurationError (handshakeMismatch id)))
              else emodify (fun t => t <| tr_clients := {[ (id : string) ]} ∪ tr_clients t |>)
          end
    end.

(** Puts a message on the wire. *)
Definition transmit (id : NodeID) (message : SendRequest) : TM (result Code unit) :=
  do+ emodify (fun t => t <| tr_sent := tr_sent t ++ [(id, message)] |>) in
  call (fun n => gr_send net n id message).

Definition sendSnapshot (dataDir : directory) (to : NodeID)
    (term requestID snapshotIndex snapshotTerm offset : N) : TM unit :=
  let+ t := eget in
  match Encoded dataDir snapshotIndex snapshotTerm with
  | Err e => elift (Err (cannotLoad e))
  | Ok contents =>
      match snapshotChunk (tr_config t) to term requestID snapshotIndex snapshotTerm offset contents with
      | Err e => elift (Err (cannotSlice e))
      | Ok message =>
          do+ client to in
          let+ answered := transmit to message in
          match answered with
          | Err c => elift (Err (sendFailed to c))
          | Ok _ => eret tt
          end
      end
  end.

Definition sendAction (dataDir : directory) (action : Action) : TM unit :=
  match action with
  | SendInstallSnapshot to term requestID snapshotIndex snapshotTerm offset =>
      sendSnapshot dataDir to term requestID snapshotIndex snapshotTerm offset
  | _ =>
      let+ t := eget in
      match encodeRaftAction (tr_config t) action with
      | None => elift (Err (unsupportedAction action))
      | Some (to, message) =>
          do+ client to in
          let+ answered := transmit to message in
          match answered with
          | Ok _ => eret tt
          | Err FailedPrecondition => elift (Err (peerConfigurationError (sendFailed to FailedPrecondition)))
          | Err InvalidArgument => elift (Err (peerConfigurationError (sendFailed to InvalidArgument)))
          | Err c => elift (Err (sendFailed to c))
          end
      end
  end.
End Transport.
