(* ===== verification/Metrics.v ===== *)
(** The process counters of internal/node/metrics.go and their text exposition. *)

From S2P Require Import Prelude Bytes Json.

Record nodeMetrics := mkMetrics {
  mt_rpcTotal : N; mt_rpcErrors : N; mt_elections : N; mt_raftRPCs : N; mt_proposals : N;
  mt_clientErrors : N; mt_clientRetries : N; mt_walSyncs : N; mt_snapshots : N;
  mt_snapshotInstalls : N; mt_compactions : N; mt_commitLatencyMicros : N }.

#[export] Instance eta_metrics : Eta nodeMetrics := fun m =>
  mkMetrics (mt_rpcTotal m) (mt_rpcErrors m) (mt_elections m) (mt_raftRPCs m) (mt_proposals m)
    (mt_clientErrors m) (mt_clientRetries m) (mt_walSyncs m) (mt_snapshots m)
    (mt_snapshotInstalls m) (mt_compactions m) (mt_commitLatencyMicros m).

Definition noMetrics : nodeMetrics := mkMetrics 0 0 0 0 0 0 0 0 0 0 0 0.

Definition observeRPC (failed : bool) (m : nodeMetrics) : nodeMetrics :=
  let m := m <| mt_rpcTotal := mt_rpcTotal m +! 1 |> in
  if failed then m <| mt_rpcErrors := mt_rpcErrors m +! 1 |> else m.

(** The effect of the server interceptor once a handler has returned. *)
Definition metricsInterceptor (failed : bool) (m : nodeMetrics) : nodeMetrics :=
  let m := observeRPC failed m in
  if failed then m <| mt_clientErrors := mt_clientErrors m +! 1 |> else m.

Definition writeMetric (name : string) (value : N) : list byte :=
  string_bytes "ternion_" ++ string_bytes name ++ [x20] ++ jsonNumber value ++ [x0a].

Definition metricsPage (m : nodeMetrics) : list byte :=
  writeMetric "rpc_total" (mt_rpcTotal m)
  ++ writeMetric "rpc_errors_total" (mt_rpcErrors m)
  ++ writeMetric "elections_total" (mt_elections m)
  ++ writeMetric "raft_rpcs_total" (mt_raftRPCs m)
  ++ writeMetric "proposals_total" (mt_proposals m)
  ++ writeMetric "client_errors_total" (mt_clientErrors m)
  ++ writeMetric "client_retries_total" (mt_clientRetries m)
  ++ writeMetric "wal_syncs_total" (mt_walSyncs m)
  ++ writeMetric "snapshots_total" (mt_snapshots m)
  ++ writeMetric "snapshot_installations_total" (mt_snapshotInstalls m)
  ++ writeMetric "snapshot_compactions_total" (mt_compactions m)
  ++ writeMetric "commit_latency_microseconds_total" (mt_commitLatencyMicros m).
