(* ===== verification/NodeLoop.v ===== *)
(** The Raft owner of a Node: [openRaftRuntime] of internal/node/raft_runtime.go and
    [runRaft] of internal/node/runtime_loop.go with the Snapshot installation of
    internal/node/snapshot.go.

    One [iterate] is one round of the loop for the [select] case that was ready.  The
    Snapshot goroutine runs between rounds: [advanceSnapshot] is one of its two
    stages, the file installation and the compaction.  Timers are flags that say
    whether the timer runs. *)

From S2P Require Import Prelude Bytes Wal RaftTypes RaftCore Session Runtime Coordinator Config Peer SnapshotJson SnapshotFile Transport Metrics.

(** ** Data *)

Record incomingSnapshot := mkIncoming {
  in_index : N; in_term : N; in_length : N; in_checksum : N; in_data : list byte }.

Inductive installError := saveFailed (e : snapError) | compactFailed (e : Error).

(** The Snapshot goroutine. *)
Inductive background :=
| Idle
| Saving (captured : snapState)
| Compacting (captured : snapState)
| Completed (index term : N) (err : option installError).

(** Why the loop returned; [stopped] is the nil error, [panicked] and [died] are the
    ends of the process. *)
Inductive loopExit :=
| stopped
| cannotRestore (e : restoreError) | cannotRecover (e : recoverError)
| cannotPersist (e : Error) | automaticSnapshot (e : installError)
| cannotInstallFile (e : snapError) | cannotInstallWAL (e : Error)
| misconfiguredPeer (e : transportError) | unexpectedActions (a : Action)
| panicked | died (next : Action).

Record nodeProcess := mkProcess {
  nd_config : Config;
  nd_runtime : raftRuntime WAL;
  nd_recoveredSnapshot : option snapState;
  nd_commands : commandCoordinator;
  nd_dataDir : directory;
  nd_transport : peerTransport;
  nd_incoming : option incomingSnapshot;
  nd_snapshot : background;
  nd_automatic : bool;
  nd_waiters : list N;
  nd_lastSnapshotIndex : N;
  nd_snapshotAnswers : list (N * option installError);
  nd_electionTimer : bool; nd_heartbeatTimer : bool; nd_quorumTimer : bool;
  nd_metrics : nodeMetrics;
  nd_raftState : option State; nd_lastRole : Role; nd_roleLog : list State }.

#[export] Instance eta_process : Eta nodeProcess := fun p =>
  mkProcess (nd_config p) (nd_runtime p) (nd_recoveredSnapshot p) (nd_commands p) (nd_dataDir p)
    (nd_transport p) (nd_incoming p) (nd_snapshot p) (nd_automatic p) (nd_waiters p)
    (nd_lastSnapshotIndex p) (nd_snapshotAnswers p) (nd_electionTimer p) (nd_heartbeatTimer p)
    (nd_quorumTimer p) (nd_metrics p) (nd_raftState p) (nd_lastRole p) (nd_roleLog p).

(** What the surroundings do during a round: which contexts are done, how gRPC and the
    file system answer, the random parts of file names, and after how many actions the
    process dies. *)
Record environment := mkEnv {
  ev_canceled : N -> bool; ev_net : grpc; ev_randoms : list string;
  ev_fates : saveStage -> fate; ev_fuel : nat }.

Inductive wakeup :=
| Stop | SnapshotDone | Input (input : runtimeInput) | ElectionTimer | HeartbeatTimer | QuorumTimer.

Notation LM := (EM nodeProcess loopExit).

(** ** Identity *)

Definition snapshotIdentity (cfg : Config) : snapIdentity :=
  mkSnapIdentity (cf_ClusterID cfg) (nc_ID (cf_Node cfg))
    (merge_sort string_le (map fst (map_to_list (cf_Members cfg)))).

Definition snapshotClusterMatches (got want : snapIdentity) : bool :=
  if negb (bool_decide (si_ClusterID got = si_ClusterID want))
     || negb (len (si_MemberIDs got) =? len (si_MemberIDs want))
  then false
  else forallb (fun p => bool_decide (p.1 = p.2)) (zip (si_MemberIDs got) (si_MemberIDs want)).

(** ** State and publication *)

Definition newNode (cfg : Config) (runtime : raftRuntime WAL) (recovered : option snapState)
    (dataDir : directory) : nodeProcess :=
  let state := mkState (nc_ID (cf_Node cfg)) Follower 0 "" "" 0 0 0 0 0 0 false in
  mkProcess cfg runtime recovered
    (newCommandCoordinator (cf_ActiveSessionLimit cfg) (Some 0) (rt_observing runtime))
    dataDir (newPeerTransport cfg) None Idle false [] 0 [] true false false noMetrics
    (Some state) Follower [].

Definition publishRaftState (state : State) (p : nodeProcess) : nodeProcess :=
  let changed := negb (bool_decide (nd_lastRole p = st_Role state)) in
  p <| nd_raftState := Some state |> <| nd_lastRole := st_Role state |>
    <| nd_roleLog := if changed then nd_roleLog p ++ [state] else nd_roleLog p |>.

Definition coreState : LM State :=
  fun p => match getState (rt_core (nd_runtime p)) with
           | Some state => (Ok state, p)
           | None => (Err panicked, p)
           end.

Definition publish : LM unit :=
  let+ state := coreState in emodify (publishRaftState state).

Definition snapshotRunning (p : nodeProcess) : bool :=
  match nd_snapshot p with Idle => false | _ => true end.

(** ** Snapshots *)

Section Codec.
Context `{CheckpointCodec}.

(** [installSnapshot]: the file, then the compaction. *)
Definition installSnapshot (fates : saveStage -> fate) (randoms : list string) (state : snapState)
    : EM (directory * WAL) installError unit :=
  fun '(d, w) =>
    match Save fates randoms state d with
    | (Err e, d) => (Err (saveFailed e), (d, w))
    | (Ok _, d) =>
        if sn_IncludedIndex state =? 0 then (Ok tt, (d, w))
        else
          match Compact (sn_IncludedIndex state) (sn_IncludedTerm state) w with
          | (Err e, w) => (Err (compactFailed e), (d, w))
          | (Ok _, w) => (Ok tt, (d, w))
          end
    end.

(** One stage of the goroutine. *)
Definition advanceSnapshot (env : environment) (p : nodeProcess) : nodeProcess :=
  match nd_snapshot p with
  | Saving captured =>
      let '(res, d) := Save (ev_fates env) (ev_randoms env) captured (nd_dataDir p) in
      let p := p <| nd_dataDir := d |> in
      let finished err := Completed (sn_IncludedIndex captured) (sn_IncludedTerm captured) err in
      match res with
      | Err e => p <| nd_snapshot := finished (Some (saveFailed e)) |>
      | Ok _ => p <| nd_snapshot := if sn_IncludedIndex captured =? 0 then finished None
                                    else Compacting captured |>
      end
  | Compacting captured =>
      let '(res, w) := Compact (sn_IncludedIndex captured) (sn_IncludedTerm captured)
                         (rt_wal (nd_runtime p)) in
      let p := p <| nd_runtime := (nd_runtime p) <| rt_wal := w |> |> in
      p <| nd_snapshot := Completed (sn_IncludedIndex captured) (sn_IncludedTerm captured)
             match res with Err e => Some (compactFailed e) | Ok _ => None end |>
  | _ => p
  end.

Definition startSnapshot (waiter : option N) (automatic : bool) : LM unit :=
  do+ emodify (fun p => match waiter with
                        | Some ch => p <| nd_waiters := nd_waiters p ++ [ch] |>
                        | None => p
                        end) in
  let+ p := eget in
  if snapshotRunning p then eret tt
  else
    do+ emodify (fun p => p <| nd_metrics ::= fun m => m <| mt_snapshots := mt_snapshots m +! 1 |> |>) in
    let+ state := coreState in
    emodify (fun p =>
      let captured := snapshot (cc_state (nd_commands p)) (snapshotIdentity (nd_config p))
                        (st_LastApplied state) (st_LastAppliedTerm state) in
      p <| nd_snapshot := Saving captured |> <| nd_automatic := automatic |>).

Definition finishSnapshot (index : N) (err : option installError) (p : nodeProcess) : nodeProcess :=
  let p := p <| nd_snapshotAnswers := nd_snapshotAnswers p ++ map (fun ch => (ch, err)) (nd_waiters p) |>
             <| nd_waiters := [] |> <| nd_snapshot := Idle |> in
  match err with
  | None => if nd_lastSnapshotIndex p <? index then p <| nd_lastSnapshotIndex := index |> else p
  | Some _ => p
  end.

(** [if snapshotRunning { finishSnapshot(<-snapshotDone) }]: the receive waits for the
    goroutine. *)
Definition awaitSnapshot (env : environment) (p : nodeProcess) : nodeProcess :=
  let p := advanceSnapshot env (advanceSnapshot env p) in
  match nd_snapshot p with
  | Completed index _ err => finishSnapshot index err p
  | _ => p
  end.

(** ** Raft steps *)

Definition stepRaft (env : environment) (event : Event) : LM (list Action) :=
  fun p =>
    match step (ev_fuel env) event (nd_runtime p) with
    | Done actions r => (Ok actions, p <| nd_runtime := r |>)
    | Failed e r => (Err (cannotPersist e), p <| nd_runtime := r |>)
    | Panicked r => (Err panicked, p <| nd_runtime := r |>)
    | Interrupted next r => (Err (died next), p <| nd_runtime := r |>)
    end.

(** Runs an operation on a component and wraps its error. *)
Definition on {S E A} (get : nodeProcess -> S) (set : S -> nodeProcess -> nodeProcess)
    (wrap : E -> loopExit) (m : EM S E A) : LM A :=
  fun p => match m (get p) with
           | (Ok a, s) => (Ok a, set s p)
           | (Err e, s) => (Err (wrap e), set s p)
           end.

Definition onDataDir {A} := @on directory snapError A nd_dataDir (fun d p => p <| nd_dataDir := d |>)
  cannotInstallFile.
Definition onWAL {A} := @on WAL Error A (fun p => rt_wal (nd_runtime p))
  (fun w p => p <| nd_runtime := (nd_runtime p) <| rt_wal := w |> |>) cannotInstallWAL.
Definition onMachine {A} := @on sessionMachine restoreError A (fun p => cc_state (nd_commands p))
  (fun m p => p <| nd_commands := (nd_commands p) <| cc_state := m |> |>) cannotRestore.
Definition onCommands {A} := @on commandCoordinator recoverError A nd_commands
  (fun c p => p <| nd_commands := c |>) cannotRecover.

(** ** Received Snapshots *)

(** Whether a chunk continues the transfer. *)
Definition continues (incoming : incomingSnapshot) (request : InstallSnapshot) : bool :=
  negb (negb (in_index incoming =? is_SnapshotIndex request)
        || negb (in_term incoming =? is_SnapshotTerm request)
        || negb (in_length incoming =? is_Length request)
        || negb (in_checksum incoming =? is_Checksum request)
        || negb (is_Offset request =? len (in_data incoming))
        || (in_length incoming <? is_Offset request +! len (is_Data request))).

(** The Snapshot of a complete transfer, when everything about it is as announced. *)
Definition receivedState (cfg : Config) (incoming : incomingSnapshot) : option snapState :=
  match Decode (in_data incoming) with
  | Err _ => None
  | Ok state =>
      if (len (in_data incoming) =? in_length incoming)
         && (crc32 (in_data incoming) =? in_checksum incoming)
         && (sn_IncludedIndex state =? in_index incoming)
         && (sn_IncludedTerm state =? in_term incoming)
         && snapshotClusterMatches (sn_Identity state) (snapshotIdentity cfg)
      then Some (mkSnapState (snapshotIdentity cfg) (sn_IncludedIndex state) (sn_IncludedTerm state)
                   (sn_Values state) (sn_Sessions state))
      else None
  end.

Definition answered (request : InstallSnapshot) (success : bool) (nextOffset : N) (installed : bool)
    : InstallSnapshot :=
  mkInstallSnapshot (is_From request) (is_Term request) (is_RequestID request)
    (is_SnapshotIndex request) (is_SnapshotTerm request) (is_Length request) (is_Checksum request)
    (is_Offset request) (is_Data request) (is_Done request) success nextOffset installed.

Definition receiveSnapshot (env : environment) (request : InstallSnapshot) : LM InstallSnapshot :=
  do+ (if is_Offset request =? 0
       then emodify (fun p => p <| nd_incoming := Some (mkIncoming (is_SnapshotIndex request)
              (is_SnapshotTerm request) (is_Length request) (is_Checksum request) []) |>)
       else eret tt) in
  let+ p := eget in
  match nd_incoming p with
  | None => eret (answered request false 0 (is_Installed request))
  | Some incoming =>
      if negb (continues incoming request)
      then eret (answered request false 0 (is_Installed request))
      else
        let incoming := mkIncoming (in_index incoming) (in_term incoming) (in_length incoming)
                          (in_checksum incoming) (in_data incoming ++ is_Data request) in
        do+ emodify (fun p => p <| nd_incoming := Some incoming |>) in
        let nextOffset := len (in_data incoming) in
        if negb (is_Done request)
        then eret (answered request true nextOffset (is_Installed request))
        else
          let+ request :=
            match receivedState (nd_config p) incoming with
            | Some state =>
                do+ onDataDir (Save (ev_fates env) (ev_randoms env) state) in
                do+ onWAL (Wal.InstallSnapshot (sn_IncludedIndex state) (sn_IncludedTerm state)) in
                do+ onMachine (restore (Some state)) in
                do+ emodify (fun p => p <| nd_metrics ::= fun m =>
                      m <| mt_snapshotInstalls := mt_snapshotInstalls m +! 1 |> |>) in
                eret (answered request true nextOffset true)
            | None => eret (answered request false 0 (is_Installed request))
            end in
          do+ emodify (fun p => p <| nd_incoming := None |>) in
          eret request
  end.

(** ** Actions *)

(** The request that a failed delivery leaves open. *)
Definition failedReplication (action : Action) : option (NodeID * N) :=
  match action with
  | SendAppendEntries to r => if ae_RequestID r =? 0 then None else Some (to, ae_RequestID r)
  | SendInstallSnapshot to _ requestID _ _ _ => if requestID =? 0 then None else Some (to, requestID)
  | _ => None
  end.

Definition deliver (env : environment) (action : Action) : LM unit :=
  do+ emodify (fun p => p <| nd_metrics ::= fun m => m <| mt_raftRPCs := mt_raftRPCs m +! 1 |> |>) in
  let+ p := eget in
  let '(res, t) := sendAction (ev_net env) (nd_dataDir p) action (nd_transport p) in
  do+ emodify (fun p => p <| nd_transport := t |>) in
  match res with
  | Ok _ => eret tt
  | Err e =>
      if isPeerConfigurationError e then elift (Err (misconfiguredPeer e))
      else
        match failedReplication action with
        | None => eret tt
        | Some (to, requestID) =>
            let+ failed := stepRaft env (AppendEntriesFailed to requestID) in
            match failed with
            | [] => eret tt
            | a :: _ => elift (Err (unexpectedActions a))
            end
        end
  end.

Definition handleAction (env : environment) (current : option runtimeInput) (action : Action) : LM unit :=
  let+ p := eget in
  let '(handled, c) := handle action current (nd_commands p) in
  do+ emodify (fun p => p <| nd_commands := c |>) in
  if handled then eret tt
  else
    match action with
    | SendPreVoteRequest _ _ | SendPreVoteResponse _ _ | SendVoteRequest _ _ | SendVoteResponse _ _
    | SendAppendEntries _ _ | SendAppendEntriesResponse _ _
    | SendInstallSnapshot _ _ _ _ _ _ | SendInstallSnapshotResponse _ _ => deliver env action
    | ResetElectionTimer => emodify (fun p => p <| nd_electionTimer := true |>)
    | ResetHeartbeatTimer => emodify (fun p => p <| nd_heartbeatTimer := true |>)
    | ResetCheckQuorumTimer => emodify (fun p => p <| nd_quorumTimer := true |>)
    | BecameLeader _ =>
        emodify (fun p => p <| nd_metrics ::= fun m => m <| mt_elections := mt_elections m +! 1 |> |>)
    | _ => eret tt
    end.

(** ** The loop *)

Definition isLeader (state : State) : bool := bool_decide (st_Role state = Leader).

(** [uint64(n.config.EffectiveSnapshotThresholdBytes())]. *)
Definition threshold (cfg : Config) : N :=
  Z.to_N (EffectiveSnapshotThresholdBytes cfg mod 18446744073709551616).

(** What follows the actions: lost leadership, timers, publication and the automatic
    Snapshot. *)
Definition concludeRound (wasLeader : bool) : LM unit :=
  let+ state := coreState in
  do+ emodify (fun p => if wasLeader && negb (isLeader state)
                        then p <| nd_commands := lostLeadership (st_LeaderID state) (nd_commands p) |>
                        else p) in
  do+ emodify (fun p => if negb (isLeader state)
                        then p <| nd_heartbeatTimer := false |> <| nd_quorumTimer := false |> else p) in
  do+ emodify (publishRaftState state) in
  let+ p := eget in
  if negb (snapshotRunning p) && (nd_lastSnapshotIndex p <? st_LastApplied state)
     && (threshold (nd_config p) <=? RetainedLogBytes (rt_wal (nd_runtime p)) (st_LastApplied state))
  then startSnapshot None true
  else eret tt.

(** The part of the loop body after the [select]. *)
Definition dispatch (env : environment) (current : option runtimeInput) (event : Event) : LM unit :=
  let+ event := match event with
                | EvInstallSnapshot request =>
                    let+ request := receiveSnapshot env request in eret (EvInstallSnapshot request)
                | _ => eret event
                end in
  let+ before := coreState in
  let+ actions := stepRaft env event in
  do+ efor (handleAction env current) actions in
  concludeRound (isLeader before).

Definition snapshotCompleted (env : environment) (index term : N) (err : option installError) : LM unit :=
  let+ p := eget in
  let wasAutomatic := nd_automatic p in
  do+ emodify (finishSnapshot index err) in
  match err with
  | Some e => if wasAutomatic then elift (Err (automaticSnapshot e)) else eret tt
  | None =>
      do+ emodify (fun p => p <| nd_metrics ::= fun m =>
            m <| mt_compactions := mt_compactions m +! 1 |> |>) in
      do+ stepRaft env (SnapshotCompacted index term) in
      publish
  end.

(** Whether a [select] case can be chosen. *)
Definition ready (w : wakeup) (p : nodeProcess) : bool :=
  match w with
  | Stop | Input _ => true
  | SnapshotDone => match nd_snapshot p with Completed _ _ _ => true | _ => false end
  | ElectionTimer => nd_electionTimer p
  | HeartbeatTimer => nd_heartbeatTimer p
  | QuorumTimer => nd_quorumTimer p
  end.

Definition serveInput (env : environment) (input : runtimeInput) : LM unit :=
  let+ p := eget in
  match input with
  | raftEventInput event => dispatch env (Some input) event
  | proposalInput event result ctx =>
      let '(proposed, c) := beginProposal event result ctx (nd_commands p) in
      do+ emodify (fun p => p <| nd_commands := c |>) in
      match proposed with
      | Some event => dispatch env (Some input) event
      | None => eret tt
      end
  | readInput read result ctx key =>
      let '(event, c) := beginRead read result ctx key (nd_commands p) in
      do+ emodify (fun p => p <| nd_commands := c |>) in
      dispatch env (Some input) event
  | snapshotInput result => startSnapshot (Some result) false
  end.

Definition iterate (env : environment) (w : wakeup) : LM unit :=
  do+ emodify (fun p => p <| nd_commands := pruneCanceled (ev_canceled env) (nd_commands p) |>) in
  let+ p := eget in
  match w with
  | Stop => elift (Err stopped)
  | SnapshotDone =>
      match nd_snapshot p with
      | Completed index term err => snapshotCompleted env index term err
      | _ => eret tt
      end
  | Input input => serveInput env input
  | ElectionTimer =>
      do+ emodify (fun p => p <| nd_electionTimer := false |>) in dispatch env None ElectionTimeout
  | HeartbeatTimer =>
      do+ emodify (fun p => p <| nd_heartbeatTimer := false |>) in dispatch env None HeartbeatTimeout
  | QuorumTimer =>
      do+ emodify (fun p => p <| nd_quorumTimer := false |>) in dispatch env None CheckQuorumTimeout
  end.

(** A round, and on return the deferred wait for a running Snapshot. *)
Definition round (env : environment) (w : wakeup) : LM unit :=
  fun p => match iterate env w p with
           | (Ok _, p) => (Ok tt, p)
           | (Err e, p) => (Err e, awaitSnapshot env p)
           end.

(** The start of [runRaft], before the loop. *)
Definition startLoop (env : environment) : LM unit :=
  do+ publish in
  let+ p := eget in
  do+ onMachine (restore (nd_recoveredSnapshot p)) in
  let+ recovery := stepRaft env RecoverCommitted in
  do+ onCommands (recover recovery) in
  do+ publish in
  emodify (fun p => match nd_recoveredSnapshot p with
                    | Some state => p <| nd_lastSnapshotIndex := sn_IncludedIndex state |>
                    | None => p
                    end).

(** ** Opening *)

Inductive openError := cannotOpenWAL (e : Error) | unsupportedEntries | cannotLoadSnapshot (e : snapError).

Definition compatibility (cfg : Config) (recovered : Wal.RecoveredState) : Compatibility :=
  mkCompatibility (snapshotIdentity cfg) (Wal.rs_CommitIndex recovered)
    (Wal.rs_SnapshotIndex recovered +! 1) (map Wal.Term (Wal.rs_Log recovered))
    (Wal.rs_SnapshotIndex recovered) (Wal.rs_SnapshotTerm recovered).

Definition openRaftRuntime (cfg : Config) (peers : list NodeID) (segments : list segmentFile)
    (dataDir : directory) : result openError (raftRuntime WAL * option snapState) :=
  match Wal.Open (mkIdentity (cf_ClusterID cfg) (nc_ID (cf_Node cfg))) segments with
  | Err e => Err (cannotOpenWAL e)
  | Ok (store, recovered) =>
      match convertEntries (Wal.rs_Log recovered) with
      | None => Err unsupportedEntries
      | Some _ =>
          match LoadNewest dataDir (compatibility cfg recovered) with
          | Err e => Err (cannotLoadSnapshot e)
          | Ok found =>
              let position := option_map (fun s => (sn_IncludedIndex s, sn_IncludedTerm s)) found in
              match recoveredState recovered position with
              | None => Err unsupportedEntries
              | Some state => Ok (openRuntime (nc_ID (cf_Node cfg)) peers state store, found)
              end
          end
      end
  end.

(** [Run] up to the listeners: the peers, the runtime and its observers. *)
Definition openNode (cfg : Config) (observing : bool) (segments : list segmentFile)
    (dataDir : directory) : result openError nodeProcess :=
  let peers := filter (fun id : string => id <> nc_ID (cf_Node cfg))
                 (map fst (map_to_list (cf_Members cfg))) in
  let? (runtime, found) := openRaftRuntime cfg peers segments dataDir in
  let runtime := runtime <| rt_observing := observing |> <| rt_metrics := Some 0 |> in
  Ok (newNode cfg runtime found dataDir).
End Codec.
