(* ===== verification/NodeLoopProps.v ===== *)
(** What one round of the Raft loop does to the parts of a Node, and the invariants
    that follow: published state, timers, the replicated machine, Client answers and
    Snapshot requests. *)

From S2P Require Import Prelude Bytes Wal RaftTypes RaftCore RaftLog RaftInvariant RaftElection RaftActions Session SessionProps Runtime RuntimeActions Coordinator CoordinatorProps Config Peer SnapshotJson SnapshotFile Transport Metrics NodeLoop.

(** ** Effects of one action *)

(** Everything but the commands, the transport, the metrics and the timers. *)
Definition surroundings (p : nodeProcess) :=
  (nd_config p, nd_recoveredSnapshot p, nd_dataDir p, nd_incoming p, nd_snapshot p, nd_automatic p,
   nd_waiters p, nd_lastSnapshotIndex p, nd_snapshotAnswers p, nd_raftState p, rt_wal (nd_runtime p)).

(** The core up to the requests it has in flight. *)
Definition inflight_frame (n n' : Node) : Prop :=
  exists a b, n' = n <| appendInFlight := a |> <| snapshotInFlight := b |>.

(** The core learns of requests that were not delivered. *)
Definition failure (r r' : raftRuntime WAL) : Prop :=
  exists fuel to requestID, step fuel (AppendEntriesFailed to requestID) r = Done [] r'.

Record beside (p p' : nodeProcess) : Prop := {
  bs_surroundings : surroundings p' = surroundings p;
  bs_core : inflight_frame (rt_core (nd_runtime p)) (rt_core (nd_runtime p'));
  bs_election : nd_electionTimer p = true -> nd_electionTimer p' = true;
  bs_heartbeat : nd_heartbeatTimer p = true -> nd_heartbeatTimer p' = true;
  bs_quorum : nd_quorumTimer p = true -> nd_quorumTimer p' = true;
  bs_failures : rtc failure (nd_runtime p) (nd_runtime p') }.

Lemma inflight_refl n : inflight_frame n n.
Proof. exists (appendInFlight n), (snapshotInFlight n). by destruct n. Qed.

Lemma inflight_trans n1 n2 n3 : inflight_frame n1 n2 -> inflight_frame n2 n3 -> inflight_frame n1 n3.
Proof. intros (a & b & ->) (c & d & ->). by exists c, d. Qed.

#[export] Instance beside_preorder : PreOrder beside.
Proof.
  split.
  - intros p. split; [done|apply inflight_refl|auto..]. reflexivity.
  - intros p1 p2 p3 [? ? ? ? ? ?] [? ? ? ? ? ?]. split; [congruence|by eapply inflight_trans|auto..]. by etrans.
Qed.

Lemma inflight_state n n' : inflight_frame n n' -> getState n' = getState n.
Proof. by intros (a & b & ->). Qed.

Lemma inflight_role n n' : inflight_frame n n' -> role n' = role n.
Proof. by intros (a & b & ->). Qed.

(** A timer request starts its timer. *)
Definition timer_started (a : Action) (p : nodeProcess) : Prop :=
  match a with
  | ResetElectionTimer => nd_electionTimer p = true
  | ResetHeartbeatTimer => nd_heartbeatTimer p = true
  | ResetCheckQuorumTimer => nd_quorumTimer p = true
  | _ => True
  end.

Lemma beside_timer a p p' : beside p p' -> timer_started a p -> timer_started a p'.
Proof. intros []. destruct a; cbn; auto. Qed.

(** The loop returned; the process did not die inside a save. *)
Definition alive (e : loopExit) : Prop := match e with died _ => False | _ => True end.

Section Codec.
Context `{CheckpointCodec}.

Lemma step_failed env to requestID p :
  exists core, inflight_frame (rt_core (nd_runtime p)) core /\
    stepRaft env (AppendEntriesFailed to requestID) p =
      (Ok [], p <| nd_runtime := (nd_runtime p) <| rt_core := core |> |>) /\
    failure (nd_runtime p) ((nd_runtime p) <| rt_core := core |>).
Proof.
  unfold stepRaft, step. cbn [Step]. unfold handleAppendEntriesFailed, bind, modify, ret.
  set (n := rt_core (nd_runtime p)).
  match goal with |- context [drain _ [] [] ((nd_runtime p) <| rt_core := ?c |>)] => set (core := c) end.
  exists core. split_and!; [|by destruct (ev_fuel env)|by exists 0%nat, to, requestID].
  exists (appendInFlight core), (snapshotInFlight core). unfold core.
  by destruct (_ =? _), (_ =? _), n.
Qed.

Lemma deliver_spec env a p :
  ewp (deliver env a) (fun _ p' => beside p p' /\ nd_commands p' = nd_commands p)
    (fun e p' => beside p p' /\ alive e) p.
Proof.
  unfold deliver. apply ewp_bind, ewp_modify, ewp_bind, ewp_get.
  destruct (sendAction _ _ _ _) as [[[]|e] t]; apply ewp_bind, ewp_modify.
  { apply ewp_ret. split; [|done]. split; [done|apply inflight_refl|done..]. }
  set (p1 := set_with nd_transport _ _).
  assert (Hb : beside p p1) by (split; [done|apply inflight_refl|done..]).
  destruct (isPeerConfigurationError e); [by apply ewp_lift; [|intros ? [= <-]; split]|].
  destruct (failedReplication a) as [[to requestID]|]; [|by apply ewp_ret].
  apply ewp_bind. unfold ewp. destruct (step_failed env to requestID p1) as (core & Hf & -> & Hr).
  cbn. split; [|done]. etransitivity; [exact Hb|]. split; try done. by apply rtc_once.
Qed.

Lemma handleAction_spec env current a p :
  ewp (handleAction env current a)
    (fun _ p' => beside p p' /\ nd_commands p' = (handle a current (nd_commands p)).2 /\ timer_started a p')
    (fun e p' => beside p p' /\ alive e) p.
Proof.
  unfold handleAction. apply ewp_bind, ewp_get.
  destruct (handle a current (nd_commands p)) as [handled c] eqn:Hh. cbn [snd].
  apply ewp_bind, ewp_modify. set (p1 := p <| nd_commands := c |>).
  assert (Hb : beside p p1) by (split; [done|apply inflight_refl|done..]).
  assert (Hd : ewp (deliver env a) (fun _ p' => beside p p' /\ nd_commands p' = c /\ True)
                 (fun e p' => beside p p' /\ alive e) p1).
  { eapply ewp_mono; [apply deliver_spec|..]; cbn; intros ? p' [? ?]; split_and!;
      first [done | by etransitivity]. }
  destruct handled; [|destruct a]; try exact Hd; try (apply ewp_modify || apply ewp_ret);
    cbn; try (split_and!; first [done | split; [done|apply inflight_refl|done..]]).
  split_and!; [done..|]. destruct a; try done; cbn in Hh; congruence.
Qed.

Lemma handleActions_spec env current actions p :
  ewp (efor (handleAction env current) actions)
    (fun _ p' => beside p p' /\ nd_commands p' = handleAll actions current (nd_commands p) /\
                 forall a, a ∈ actions -> timer_started a p')
    (fun e p' => beside p p' /\ alive e) p.
Proof.
  revert p. induction actions as [|a actions IH]; intros p; cbn [efor handleAll].
  { apply ewp_ret. split_and!; [done..|]. intros a Ha. by apply not_elem_of_nil in Ha. }
  apply ewp_bind. eapply ewp_mono; [apply handleAction_spec|..].
  - intros [] p1 (Hb & Hc & Ht). eapply ewp_mono; [apply IH|..].
    + intros [] p2 (Hb' & Hc' & Ht'). split_and!; [by etransitivity|by rewrite Hc', Hc|].
      intros x [->|Hx]%elem_of_cons; [by eapply beside_timer|auto].
    + intros e p2 [Hb' He]. split; [by etransitivity|done].
  - by intros e p1 [Hb He].
Qed.

(** ** The end of a round *)

(** What is left alone by everything but Snapshot requests and their completion. *)
Definition snapshotView (p : nodeProcess) :=
  (nd_config p, nd_waiters p, nd_snapshotAnswers p, nd_lastSnapshotIndex p).

(** A running Snapshot goes on; a new one is saving. *)
Definition snapshot_kept (p p' : nodeProcess) : Prop :=
  snapshotView p' = snapshotView p /\
  (nd_snapshot p' = nd_snapshot p \/
   (nd_snapshot p = Idle /\ exists captured, nd_snapshot p' = Saving captured)).

Lemma startAutomatic_spec p :
  ewp (startSnapshot None true)
    (fun _ p' => exists b automatic metrics, p' = p <| nd_snapshot := b |> <| nd_automatic := automatic |>
                   <| nd_metrics := metrics |> /\ snapshot_kept p p')
    (fun e p' => (exists metrics, p' = p <| nd_metrics := metrics |>) /\ alive e) p.
Proof.
  unfold startSnapshot. apply ewp_bind, ewp_modify, ewp_bind, ewp_get. cbn beta.
  destruct (snapshotRunning p) eqn:Hr.
  { apply ewp_ret. exists (nd_snapshot p), (nd_automatic p), (nd_metrics p). split; [by destruct p|].
    split; [done|by left]. }
  apply ewp_bind, ewp_modify, ewp_bind. unfold ewp, coreState. cbn.
  destruct (getState _) as [state|]; cbn; [|by split; [eexists|]].
  eexists _, _, _. split; [done|]. split; [done|]. right. split; [|by eexists].
  unfold snapshotRunning in Hr. by destruct (nd_snapshot p).
Qed.

Record concluded (wasLeader : bool) (p p' : nodeProcess) : Prop := {
  cd_runtime : nd_runtime p' = nd_runtime p;
  cd_dataDir : nd_dataDir p' = nd_dataDir p;
  cd_incoming : nd_incoming p' = nd_incoming p;
  cd_election : nd_electionTimer p' = nd_electionTimer p;
  cd_published : is_Some (nd_raftState p') /\ nd_raftState p' = getState (rt_core (nd_runtime p'));
  cd_leader : role (rt_core (nd_runtime p)) = Leader ->
    nd_heartbeatTimer p' = nd_heartbeatTimer p /\ nd_quorumTimer p' = nd_quorumTimer p /\
    nd_commands p' = nd_commands p;
  cd_follower : role (rt_core (nd_runtime p)) <> Leader ->
    nd_heartbeatTimer p' = false /\ nd_quorumTimer p' = false /\
    nd_commands p' = if wasLeader then lostLeadership (leaderID (rt_core (nd_runtime p))) (nd_commands p)
                     else nd_commands p;
  cd_snapshot : snapshot_kept p p' }.

Lemma getState_role n state : getState n = Some state -> st_Role state = role n /\ st_LeaderID state = leaderID n.
Proof. unfold getState. destruct (0 <? lastApplied n); [destruct (termAt n _); [|done]|]; cbn; by intros [= <-]. Qed.

Lemma concludeRound_spec wasLeader p :
  ewp (concludeRound wasLeader) (fun _ p' => concluded wasLeader p p')
    (fun e p' => snapshot_kept p p' /\ nd_runtime p' = nd_runtime p /\ alive e) p.
Proof.
  unfold concludeRound. apply ewp_bind. unfold ewp at 1, coreState.
  destruct (getState (rt_core (nd_runtime p))) as [state|] eqn:Hst; [|by split; [split; [|left]|]].
  apply getState_role in Hst as Hr. destruct Hr as [Hrole Hleader].
  do 3 apply ewp_bind, ewp_modify. apply ewp_bind, ewp_get.
  set (p1 := publishRaftState state _).
  assert (Hc : concluded wasLeader p p1).
  { unfold p1, isLeader. rewrite Hrole, Hleader. destruct (bool_decide_reflect (role (rt_core (nd_runtime p)) = Leader)).
    - rewrite andb_false_r. split; try done; first [by split; [eexists|] | split; [done|by left]].
    - rewrite andb_true_r. cbn [negb].
      destruct wasLeader; split; try done; first [by split; [eexists|] | split; [done|by left]]. }
  clearbody p1. destruct (_ && _ && _); [|by apply ewp_ret].
  eapply ewp_mono; [apply startAutomatic_spec|..].
  - intros [] p' (b & automatic & metrics & -> & Hk1 & Hk2). destruct Hc. split; try done.
    destruct cd_snapshot0 as [Hv0 Hs0]. split; [by rewrite Hk1|].
    destruct Hk2 as [Hk2|[Hk2 Hk3]].
    + cbn in *. rewrite Hk2. done.
    + right. split; [|done]. destruct Hs0 as [<-|[_ [c Hc]]]; [done|congruence].
  - intros e p' [[metrics ->] He]. by destruct Hc.
Qed.

(** ** Dispatch *)

(** The event a round steps, after a Snapshot chunk was received. *)
Definition received (env : environment) (event : Event) : LM Event :=
  match event with
  | EvInstallSnapshot request =>
      let+ request := receiveSnapshot env request in eret (EvInstallSnapshot request)
  | _ => eret event
  end.

(** [p] is the Node after [received]. *)
Record served (env : environment) (current : option runtimeInput) (event : Event) (acts : list Action)
    (p p' : nodeProcess) : Prop := {
  sv_step : exists r, step (ev_fuel env) event (nd_runtime p) = Done acts r /\
              inflight_frame (rt_core r) (rt_core (nd_runtime p')) /\
              rt_wal (nd_runtime p') = rt_wal r /\ rtc failure r (nd_runtime p');
  sv_dataDir : nd_dataDir p' = nd_dataDir p;
  sv_incoming : nd_incoming p' = nd_incoming p;
  sv_published : is_Some (nd_raftState p') /\ nd_raftState p' = getState (rt_core (nd_runtime p'));
  sv_commands : nd_commands p' =
    let c := handleAll acts current (nd_commands p) in
    if bool_decide (role (rt_core (nd_runtime p)) = Leader)
       && negb (bool_decide (role (rt_core (nd_runtime p')) = Leader))
    then lostLeadership (leaderID (rt_core (nd_runtime p'))) c else c;
  sv_election : nd_electionTimer p = true \/ ResetElectionTimer ∈ acts -> nd_electionTimer p' = true;
  sv_leader : role (rt_core (nd_runtime p')) = Leader ->
    (nd_heartbeatTimer p = true \/ ResetHeartbeatTimer ∈ acts -> nd_heartbeatTimer p' = true) /\
    (nd_quorumTimer p = true \/ ResetCheckQuorumTimer ∈ acts -> nd_quorumTimer p' = true);
  sv_follower : role (rt_core (nd_runtime p')) <> Leader ->
    nd_heartbeatTimer p' = false /\ nd_quorumTimer p' = false;
  sv_snapshot : snapshot_kept p p' }.

Lemma snapshot_kept_trans p1 p2 p3 : snapshot_kept p1 p2 -> snapshot_kept p2 p3 -> snapshot_kept p1 p3.
Proof.
  intros [V1 S1] [V2 S2]. split; [congruence|].
  destruct S1 as [S1|[S1 [c1 E1]]], S2 as [S2|[S2 [c2 E2]]]; [left; congruence|..].
  - right. split; [congruence|eauto].
  - right. split; [done|]. exists c1. congruence.
  - congruence.
Qed.

Lemma beside_kept p p' : beside p p' -> snapshot_kept p p'.
Proof. intros [Hs _ _ _ _ _]. unfold surroundings in Hs. simplify_eq. split; [unfold snapshotView; congruence|left; congruence]. Qed.

Lemma dispatch_received env current event p :
  dispatch env current event p =
  (let+ event := received env event in
   let+ before := coreState in
   let+ actions := stepRaft env event in
   do+ efor (handleAction env current) actions in
   concludeRound (isLeader before)) p.
Proof. done. Qed.

(** The core of a process has a state to publish. *)
Lemma wf_state n : wf n -> getState n <> None.
Proof.
  intros Hwf. unfold getState. destruct (0 <? lastApplied n); [|done].
  by destruct (termAt_total n Hwf (lastApplied n)) as [t ->].
Qed.

(** How a process leaves the loop while it serves [event]. *)
Definition ends (env : environment) (event : Event) (p : nodeProcess) (e : loopExit) (p' : nodeProcess)
    : Prop :=
  getState (rt_core (nd_runtime p)) = None \/
  match step (ev_fuel env) event (nd_runtime p) with
  | Done _ r => alive e /\ rtc failure r (nd_runtime p')
  | Failed _ r | Panicked r => alive e /\ nd_runtime p' = r
  | Interrupted next r => e = died next /\ nd_runtime p' = r
  end.

Lemma dispatched_spec env current event p :
  ewp (let+ before := coreState in
       let+ actions := stepRaft env event in
       do+ efor (handleAction env current) actions in
       concludeRound (isLeader before))
    (fun _ p' => exists acts, served env current event acts p p')
    (fun e p' => snapshot_kept p p' /\ ends env event p e p') p.
Proof.
  unfold ends. apply ewp_bind. unfold ewp at 1, coreState.
  destruct (getState (rt_core (nd_runtime p))) as [before|] eqn:Hst; [|split; [split; [done|]|]; by left].
  apply getState_role in Hst as [Hrole _]. apply ewp_bind. unfold ewp at 1, stepRaft.
  destruct (step (ev_fuel env) event (nd_runtime p)) as [acts r|e r|r|a r] eqn:Hs;
    try (split; [split; [done|by left]|by right]).
  set (p1 := p <| nd_runtime := r |>). apply ewp_bind.
  eapply ewp_mono; [apply handleActions_spec|..].
  2:{ intros e p2 [Hb He]. split; [|right; split; [done|exact (bs_failures _ _ Hb)]]. apply beside_kept in Hb.
      eapply snapshot_kept_trans; [|exact Hb]. split; [done|by left]. }
  intros [] p2 (Hb & Hc & Ht). eapply ewp_mono; [apply concludeRound_spec|..].
  2:{ intros e p3 (Hk & Hr & He). split; [|right; split; [done|rewrite Hr; exact (bs_failures _ _ Hb)]].
      eapply snapshot_kept_trans; [|exact Hk]. by apply (beside_kept p1). }
  intros [] p3 Hd. exists acts. destruct Hd, Hb.
  unfold surroundings in bs_surroundings0. unfold p1 in *. cbn in bs_surroundings0. simplify_eq.
  pose proof (fun a (Ha : a ∈ acts) => Ht a Ha) as Hta.
  split; try done; try congruence.
  - exists r. rewrite cd_runtime0. split_and!; [done|done|cbn in *; congruence|done].
  - unfold isLeader in *. rewrite Hrole in *. rewrite cd_runtime0.
    destruct (decide (role (rt_core (nd_runtime p2)) = Leader)) as [Hl|Hl].
    + destruct (cd_leader0 Hl) as (_ & _ & ->). rewrite (bool_decide_true (role (rt_core (nd_runtime p2)) = _)) by done.
      cbn [negb]. by rewrite andb_false_r, Hc.
    + destruct (cd_follower0 Hl) as (_ & _ & ->). rewrite (bool_decide_false (role (rt_core (nd_runtime p2)) = _)) by done.
      cbn [negb]. rewrite andb_true_r, Hc. done.
  - rewrite cd_election0. intros [He|He]; [auto|]. exact (Hta _ He).
  - rewrite cd_runtime0. intros Hl. destruct (cd_leader0 Hl) as (-> & -> & _).
    split; (intros [He|He]; [auto|exact (Hta _ He)]).
  - rewrite cd_runtime0. intros Hl. by destruct (cd_follower0 Hl) as (-> & -> & _).
  - eapply snapshot_kept_trans; [|exact cd_snapshot0]. split; [unfold snapshotView; cbn in *; congruence|].
    left. cbn in *. congruence.
Qed.

(** ** Received Snapshots *)

(** Receiving a chunk concerns the data directory, the WAL, the transfer in progress and,
    when the Snapshot is complete, the replicated machine. *)
Record taken (p p' : nodeProcess) : Prop := {
  tk_core : rt_core (nd_runtime p') = rt_core (nd_runtime p);
  tk_election : nd_electionTimer p' = nd_electionTimer p;
  tk_heartbeat : nd_heartbeatTimer p' = nd_heartbeatTimer p;
  tk_quorum : nd_quorumTimer p' = nd_quorumTimer p;
  tk_published : nd_raftState p' = nd_raftState p;
  tk_commands : exists m, nd_commands p' = (nd_commands p) <| cc_state := m |>;
  tk_kept : snapshot_kept p p' }.

Lemma taken_same p : taken p p.
Proof. split; try done; [exists (cc_state (nd_commands p)); by destruct (nd_commands p)|split; [done|by left]]. Qed.

Lemma taken_trans p1 p2 p3 : taken p1 p2 -> taken p2 p3 -> taken p1 p3.
Proof.
  intros [] []. split; try congruence; [|by eapply snapshot_kept_trans].
  destruct tk_commands0 as [m1 E1], tk_commands1 as [m2 E2]. exists m2. by rewrite E2, E1.
Qed.

Lemma taken_on {S E A} get set wrap (m : EM S E A) p :
  (forall s p, taken p (set s p)) ->
  ewp (on get set wrap m) (fun _ p' => taken p p') (fun _ p' => taken p p') p.
Proof. intros Hset. unfold ewp, on. destruct (m (get p)) as [[a|e] s]; apply Hset. Qed.

Ltac taken_update :=
  split; first [done | split; [done|by left]
               | match goal with |- exists m, nd_commands ?q = _ =>
                   exists (cc_state (nd_commands q)); cbn;
                   match goal with |- ?c = _ => by destruct c end end].

Lemma taken_bind {A B} (m : LM A) (k : A -> LM B) p (Q : B -> nodeProcess -> Prop) :
  ewp m (fun _ p' => taken p p') (fun _ p' => taken p p') p ->
  (forall a p', taken p p' -> ewp (k a) (fun b p'' => taken p' p'' /\ Q b p'') (fun _ p'' => taken p' p'') p') ->
  ewp (ebind m k) (fun b p'' => taken p p'' /\ Q b p'') (fun _ p'' => taken p p'') p.
Proof.
  intros Hm Hk. apply ewp_bind. eapply ewp_mono; [exact Hm|..]; [|done].
  intros a p' Ht. eapply ewp_mono; [by apply Hk|..]; cbn.
  - intros b p'' [? ?]. split; [eapply taken_trans; [exact Ht|done]|done].
  - intros e p'' ?. eapply taken_trans; [exact Ht|done].
Qed.

(** A chunk that does not complete a Snapshot leaves the commands alone. *)
Definition chunk_result (p : nodeProcess) (request : InstallSnapshot) (answer : InstallSnapshot)
    (p' : nodeProcess) : Prop :=
  exists success nextOffset installed, answer = answered request success nextOffset installed /\
    (is_Done request = false -> installed = is_Installed request) /\
    (is_Installed request = false -> installed = false -> nd_commands p' = nd_commands p).

Lemma receiveSnapshot_spec env request p :
  ewp (receiveSnapshot env request)
    (fun answer p' => taken p p' /\ chunk_result p request answer p')
    (fun _ p' => taken p p') p.
Proof.
  unfold receiveSnapshot.
  assert (Hfirst : ewp (E := loopExit) (if is_Offset request =? 0
       then emodify (fun p => p <| nd_incoming := Some (mkIncoming (is_SnapshotIndex request)
              (is_SnapshotTerm request) (is_Length request) (is_Checksum request) []) |>)
       else eret tt) (fun _ p' => taken p p' /\ nd_commands p' = nd_commands p) (fun _ p' => taken p p') p).
  { destruct (_ =? 0); [apply ewp_modify; split; [taken_update|done]|apply ewp_ret; split; [apply taken_same|done]]. }
  apply ewp_bind. eapply ewp_mono; [exact Hfirst|clear Hfirst|done].
  intros [] p1 [Ht1 Hc1]. apply ewp_bind, ewp_get. destruct (nd_incoming p1) as [incoming|].
  2:{ apply ewp_ret. split; [done|]. by eexists _, _, _. }
  destruct (continues incoming request); cbn [negb].
  2:{ apply ewp_ret. split; [done|]. by eexists _, _, _. }
  set (incoming' := mkIncoming _ _ _ _ _). apply ewp_bind, ewp_modify.
  set (p2 := p1 <| nd_incoming := Some incoming' |>).
  assert (Ht2 : taken p p2) by (eapply taken_trans; [exact Ht1|taken_update]).
  assert (Hc2 : nd_commands p2 = nd_commands p) by exact Hc1. clearbody p2.
  destruct (is_Done request) eqn:Hdone; cbn [negb].
  2:{ apply ewp_ret. split; [done|]. by eexists _, _, _. }
  eapply (ewp_mono _ (fun answer p' => taken p2 p' /\ chunk_result p2 request answer p')
            _ (fun _ p' => taken p2 p')).
  2:{ intros answer p' [? (a & b & c & -> & Hd & Hi)]. split; [eapply taken_trans; [exact Ht2|done]|].
      eexists _, _, _. split_and!; [done|done|]. intros. rewrite Hi by done. done. }
  2:{ intros e p' ?. eapply taken_trans; [exact Ht2|done]. }
  clear Ht1 Hc1 Ht2 Hc2. destruct (receivedState (nd_config p1) incoming') as [state|].
  - apply ewp_bind. eapply ewp_mono;
      [apply (taken_bind _ _ _ (fun answer _ => answer = answered request true (len (in_data incoming')) true))| |done].
    + apply taken_on. intros. taken_update.
    + intros _ p3 _. apply taken_bind; [apply taken_on; intros; taken_update|].
      intros _ p4 _. apply taken_bind; [apply taken_on; intros; taken_update|].
      intros _ p5 _. apply ewp_bind, ewp_modify, ewp_ret. split; [taken_update|done].
    + intros answer p3 [Ht ->]. apply ewp_bind, ewp_modify, ewp_ret.
      split; [eapply taken_trans; [exact Ht|taken_update]|]. eexists _, _, _. split_and!; [done|congruence|done].
  - apply ewp_bind, ewp_ret, ewp_bind, ewp_modify, ewp_ret. split; [taken_update|]. by eexists _, _, _.
Qed.

(** The event the round steps, once [event] has been received. *)
Definition heard (p : nodeProcess) (event event' : Event) (p' : nodeProcess) : Prop :=
  taken p p' /\
  match event with
  | EvInstallSnapshot request =>
      exists answer, event' = EvInstallSnapshot answer /\ chunk_result p request answer p'
  | _ => event' = event /\ p' = p
  end.

Lemma received_spec env event p :
  ewp (received env event) (fun event' p' => heard p event event' p') (fun _ p' => taken p p') p.
Proof.
  unfold heard. destruct event; try (apply ewp_ret; split; [apply taken_same|done]).
  apply ewp_bind. eapply ewp_mono; [apply receiveSnapshot_spec|..]; [|done].
  intros answer p' [? ?]. apply ewp_ret. split; [done|]. by eexists.
Qed.

Lemma dispatch_spec env current event p :
  ewp (dispatch env current event)
    (fun _ p' => exists event' p1 acts, heard p event event' p1 /\ served env current event' acts p1 p')
    (fun _ p' => snapshot_kept p p') p.
Proof.
  unfold ewp. rewrite dispatch_received. apply ewp_bind.
  eapply ewp_mono; [apply received_spec|..].
  - intros event' p1 Hh. eapply ewp_mono; [apply dispatched_spec|..]; cbn.
    + intros _ p' [acts Hs]. by exists event', p1, acts.
    + intros e p' [Hk _]. eapply snapshot_kept_trans; [|exact Hk]. apply Hh.
  - intros e p' Ht. apply Ht.
Qed.

(** ** Rounds by case *)

Definition pruned (env : environment) (p : nodeProcess) : nodeProcess :=
  p <| nd_commands := pruneCanceled (ev_canceled env) (nd_commands p) |>.

(** The input and event of a round that steps the core, and the Node just before. *)
Inductive prepares (env : environment) (p : nodeProcess)
    : wakeup -> option runtimeInput -> Event -> nodeProcess -> Prop :=
| pr_event event :
    prepares env p (Input (raftEventInput event)) (Some (raftEventInput event)) event (pruned env p)
| pr_proposal event result ctx c :
    beginProposal event result ctx (nd_commands (pruned env p)) = (Some event, c) ->
    prepares env p (Input (proposalInput event result ctx)) (Some (proposalInput event result ctx)) event
      ((pruned env p) <| nd_commands := c |>)
| pr_read read result ctx key :
    prepares env p (Input (readInput read result ctx key)) (Some (readInput read result ctx key))
      (ConfirmRead read)
      ((pruned env p) <| nd_commands := (beginRead read result ctx key (nd_commands (pruned env p))).2 |>)
| pr_election :
    prepares env p ElectionTimer None ElectionTimeout ((pruned env p) <| nd_electionTimer := false |>)
| pr_heartbeat :
    prepares env p HeartbeatTimer None HeartbeatTimeout ((pruned env p) <| nd_heartbeatTimer := false |>)
| pr_quorum :
    prepares env p QuorumTimer None CheckQuorumTimeout ((pruned env p) <| nd_quorumTimer := false |>).

(** The event with which a round steps the core. *)
Definition roundEvent (env : environment) (w : wakeup) (p : nodeProcess) : option Event :=
  match w with
  | Input (raftEventInput event) => Some event
  | Input (proposalInput event result ctx) => (beginProposal event result ctx (nd_commands (pruned env p))).1
  | Input (readInput read _ _ _) => Some (ConfirmRead read)
  | ElectionTimer => Some ElectionTimeout
  | HeartbeatTimer => Some HeartbeatTimeout
  | QuorumTimer => Some CheckQuorumTimeout
  | Input (snapshotInput _) | Stop | SnapshotDone => None
  end.

(** The actions that step returns. *)
Definition roundActions (env : environment) (w : wakeup) (p : nodeProcess) : list Action :=
  match roundEvent env w p with
  | Some event =>
      match step (ev_fuel env) event (nd_runtime p) with Done acts _ => acts | _ => [] end
  | None => []
  end.

Lemma prepares_event env p w current event p0 :
  prepares env p w current event p0 -> roundEvent env w p = Some event /\ nd_runtime p0 = nd_runtime p.
Proof. destruct 1; split; try done. cbn [roundEvent]. by rewrite H0. Qed.

(** Fields that rounds without a step of the core leave alone. *)
Definition restView (p : nodeProcess) :=
  (nd_config p, nd_runtime p, nd_dataDir p, nd_transport p, nd_incoming p, nd_electionTimer p,
   nd_heartbeatTimer p, nd_quorumTimer p, nd_raftState p).

Inductive round_case (env : environment) (p : nodeProcess) : wakeup -> nodeProcess -> Prop :=
| rc_stepped w current event p0 event' p1 acts p' :
    prepares env p w current event p0 -> heard p0 event event' p1 ->
    served env current event' acts p1 p' -> round_case env p w p'
| rc_answered event result ctx c :
    beginProposal event result ctx (nd_commands (pruned env p)) = (None, c) ->
    round_case env p (Input (proposalInput event result ctx)) (p <| nd_commands := c |>)
| rc_requested result p' :
    restView p' = restView p -> nd_commands p' = nd_commands (pruned env p) ->
    round_case env p (Input (snapshotInput result)) p'
| rc_failed index t e p' :
    nd_snapshot p = Completed index t (Some e) ->
    restView p' = restView p -> nd_commands p' = nd_commands (pruned env p) ->
    round_case env p SnapshotDone p'
| rc_compacted index t acts r p' :
    nd_snapshot p = Completed index t None ->
    step (ev_fuel env) (SnapshotCompacted index t) (nd_runtime p) = Done acts r ->
    nd_runtime p' = r -> nd_raftState p' = getState (rt_core r) -> is_Some (nd_raftState p') ->
    nd_commands p' = nd_commands (pruned env p) ->
    nd_electionTimer p' = nd_electionTimer p -> nd_heartbeatTimer p' = nd_heartbeatTimer p ->
    nd_quorumTimer p' = nd_quorumTimer p -> nd_incoming p' = nd_incoming p ->
    nd_dataDir p' = nd_dataDir p ->
    round_case env p SnapshotDone p'.

Lemma beginProposal_event event result ctx c proposed c' :
  beginProposal event result ctx c = (Some proposed, c') -> proposed = event.
Proof.
  unfold beginProposal. destruct (proposedMutation event) as [[session sequence]|]; [|congruence].
  destruct (evaluateMutation _ _ _) as [a []]; repeat case_match; congruence.
Qed.

Lemma startManual_spec result p :
  ewp (startSnapshot (Some result) false)
    (fun _ p' => restView p' = restView p /\ nd_commands p' = nd_commands p /\
       nd_waiters p' = nd_waiters p ++ [result] /\ nd_snapshotAnswers p' = nd_snapshotAnswers p /\
       nd_snapshot p' <> Idle)
    (fun e p' => e = panicked) p.
Proof.
  unfold startSnapshot. apply ewp_bind, ewp_modify, ewp_bind, ewp_get. cbn beta.
  set (p1 := p <| nd_waiters := _ |>). destruct (snapshotRunning p1) eqn:Hr.
  { apply ewp_ret. split_and!; try done. unfold snapshotRunning in Hr. by destruct (nd_snapshot p1). }
  apply ewp_bind, ewp_modify, ewp_bind. unfold ewp, coreState. cbn. by destruct (getState _).
Qed.

Lemma snapshotCompleted_spec env index t err p :
  ewp (snapshotCompleted env index t err)
    (fun _ p' => match err with
       | Some e => restView p' = restView p
       | None => exists acts r, step (ev_fuel env) (SnapshotCompacted index t) (nd_runtime p) = Done acts r /\
           nd_runtime p' = r /\ nd_raftState p' = getState (rt_core r) /\ is_Some (nd_raftState p') /\
           nd_electionTimer p' = nd_electionTimer p /\ nd_heartbeatTimer p' = nd_heartbeatTimer p /\
           nd_quorumTimer p' = nd_quorumTimer p /\ nd_incoming p' = nd_incoming p /\
           nd_dataDir p' = nd_dataDir p
       end /\ nd_commands p' = nd_commands p /\ nd_waiters p' = [] /\
       nd_snapshotAnswers p' = nd_snapshotAnswers p ++ map (fun ch => (ch, err)) (nd_waiters p))
    (fun _ p' => nd_waiters p' = [] /\ nd_snapshot p' = Idle /\
       nd_snapshotAnswers p' = nd_snapshotAnswers p ++ map (fun ch => (ch, err)) (nd_waiters p)) p.
Proof.
  unfold snapshotCompleted. apply ewp_bind, ewp_get, ewp_bind, ewp_modify.
  destruct err as [e|].
  { destruct (nd_automatic p); [by apply ewp_lift|by apply ewp_ret]. }
  set (p1 := finishSnapshot index None p).
  assert (Hp1 : (nd_waiters p1 = [] /\ nd_snapshot p1 = Idle /\ nd_commands p1 = nd_commands p /\
    nd_snapshotAnswers p1 = nd_snapshotAnswers p ++ map (fun ch => (ch, None)) (nd_waiters p)) /\
    restView p1 = restView p).
  { unfold p1, finishSnapshot. cbn. by destruct (_ <? _). }
  clearbody p1. destruct Hp1 as [(Hw & Hi & Hc & Ha) Hr]. unfold restView in Hr. injection Hr as ? ? ? ? ? ? ? ? ?.
  apply ewp_bind, ewp_modify, ewp_bind. unfold ewp at 1, stepRaft. cbn [nd_runtime set_with].
  destruct (step _ _ _) as [acts r|e r|r|a r] eqn:Hs; try done.
  unfold publish. apply ewp_bind. unfold ewp, coreState. cbn.
  destruct (getState (rt_core r)) as [state|] eqn:Hst; [|done]. cbn. split_and!; try done.
  exists acts, r. split_and!; try done. congruence.
Qed.

Lemma stepped env w current event p p0 :
  prepares env p w current event p0 ->
  ewp (dispatch env current event) (fun _ p' => round_case env p w p') (fun _ _ => True) p0.
Proof.
  intros Hp. eapply ewp_mono; [apply dispatch_spec|..]; [|done].
  intros _ p' (event' & p1 & acts & ? & ?). by eapply rc_stepped.
Qed.

Lemma iterate_spec env w p :
  ready w p = true -> ewp (iterate env w) (fun _ p' => round_case env p w p') (fun _ _ => True) p.
Proof.
  intros Hready. unfold iterate. apply ewp_bind, ewp_modify, ewp_bind, ewp_get.
  change (p <| nd_commands := _ |>) with (pruned env p).
  destruct w as [| |[event|event result ctx|read result ctx key|result]| | |]; cbn [ready] in Hready.
  - by apply ewp_lift.
  - change (nd_snapshot (pruned env p)) with (nd_snapshot p).
    destruct (nd_snapshot p) as [| | |index t err] eqn:Hs; try done.
    eapply ewp_mono; [apply snapshotCompleted_spec|..]; [|done]. intros [] p' (Hr & Hc & _).
    destruct err as [e|]; [by eapply rc_failed|].
    destruct Hr as (acts & r & ? & ? & ? & ? & ? & ? & ? & ? & ?). by eapply rc_compacted.
  - apply ewp_bind, ewp_get. apply stepped. constructor.
  - apply ewp_bind, ewp_get. destruct (beginProposal _ _ _ _) as [[proposed|] c] eqn:Hb;
      apply ewp_bind, ewp_modify.
    + apply beginProposal_event in Hb as Heq. subst proposed. apply stepped. by constructor.
    + apply ewp_ret. by apply (rc_answered env p event result ctx c).
  - apply ewp_bind, ewp_get. unfold beginRead. apply ewp_bind, ewp_modify. apply stepped. constructor.
  - apply ewp_bind, ewp_get. eapply ewp_mono; [apply startManual_spec|..]; [|done].
    intros [] p' (? & ? & _). by apply rc_requested.
  - apply ewp_bind, ewp_modify. apply stepped. constructor.
  - apply ewp_bind, ewp_modify. apply stepped. constructor.
  - apply ewp_bind, ewp_modify. apply stepped. constructor.
Qed.

(** A round that returns to the top of the loop. *)
Lemma round_cases env w p p' :
  ready w p = true -> round env w p = (Ok tt, p') -> round_case env p w p'.
Proof.
  intros Hready Hr. pose proof (iterate_spec env w p Hready) as Hi. unfold ewp in Hi. unfold round in Hr.
  destruct (iterate env w p) as [[[]|e] q]; [|done]. by injection Hr as <-.
Qed.

Lemma advance_view env p :
  nd_commands (advanceSnapshot env p) = nd_commands p /\
  rt_core (nd_runtime (advanceSnapshot env p)) = rt_core (nd_runtime p) /\
  nd_raftState (advanceSnapshot env p) = nd_raftState p /\
  nd_electionTimer (advanceSnapshot env p) = nd_electionTimer p /\
  nd_heartbeatTimer (advanceSnapshot env p) = nd_heartbeatTimer p /\
  nd_quorumTimer (advanceSnapshot env p) = nd_quorumTimer p.
Proof.
  unfold advanceSnapshot. destruct (nd_snapshot p) as [|c|c|]; try done.
  - by destruct (Save _ _ _ _) as [[] d].
  - by destruct (Compact _ _ _) as [[] w].
Qed.

(** ** Histories *)

(** A process goes through rounds that return to the top of the loop, and stages of the
    Snapshot goroutine between them; [allowed] restricts what the surroundings do. *)
Inductive activity := Round (env : environment) (w : wakeup) | Background (env : environment).

Definition wakeups (l : list activity) : list wakeup :=
  omap (fun a => match a with Round _ w => Some w | Background _ => None end) l.

Inductive performs (allowed : nodeProcess -> wakeup -> Prop) (p : nodeProcess)
    : list activity -> nodeProcess -> Prop :=
| pf_none : performs allowed p [] p
| pf_round l q env w q' :
    performs allowed p l q -> ready w q = true -> allowed q w -> round env w q = (Ok tt, q') ->
    performs allowed p (l ++ [Round env w]) q'
| pf_background l q env :
    performs allowed p l q -> performs allowed p (l ++ [Background env]) (advanceSnapshot env q).
End Codec.
