(* ===== verification/NodeLoopInvariants.v ===== *)
(** Invariants of the Raft loop over whole histories of a process. *)

From S2P Require Import Prelude Bytes Wal WalJson RaftTypes RaftCore RaftLog RaftInvariant RaftElection RaftActions Session SessionProps Runtime RuntimeActions Coordinator CoordinatorProps Config Peer SnapshotJson SnapshotFile Transport Metrics NodeLoop NodeLoopProps.

Section Codec.
Context `{CheckpointCodec}.

(** ** Starting *)

(** The Node when the loop is entered. *)
Record entered (env : environment) (p p' : nodeProcess) : Prop := {
  en_recovery : exists m acts,
    restore (nd_recoveredSnapshot p) (cc_state (nd_commands p)) = (Ok tt, m) /\
    step (ev_fuel env) RecoverCommitted (nd_runtime p) = Done acts (nd_runtime p') /\
    recover acts ((nd_commands p) <| cc_state := m |>) = (Ok tt, nd_commands p');
  en_published : nd_raftState p' = getState (rt_core (nd_runtime p'));
  en_election : nd_electionTimer p' = nd_electionTimer p;
  en_heartbeat : nd_heartbeatTimer p' = nd_heartbeatTimer p;
  en_quorum : nd_quorumTimer p' = nd_quorumTimer p;
  en_requests : nd_waiters p' = nd_waiters p /\ nd_snapshotAnswers p' = nd_snapshotAnswers p /\
                nd_snapshot p' = nd_snapshot p }.

Lemma startLoop_spec env p :
  ewp (startLoop env) (fun _ p' => entered env p p') (fun _ _ => True) p.
Proof.
  unfold startLoop, publish. apply ewp_bind, ewp_bind. unfold ewp at 1, coreState.
  destruct (getState (rt_core (nd_runtime p))) as [s0|]; [|done].
  apply ewp_modify, ewp_bind, ewp_get, ewp_bind. unfold ewp at 1, onMachine, on.
  change (nd_recoveredSnapshot (publishRaftState s0 p)) with (nd_recoveredSnapshot p).
  change (nd_commands (publishRaftState s0 p)) with (nd_commands p).
  destruct (restore _ _) as [[[]|e] m] eqn:Hm; [|done]. apply ewp_bind. unfold ewp at 1, stepRaft.
  cbn [nd_runtime nd_commands set_with]. change (nd_runtime (publishRaftState s0 p)) with (nd_runtime p).
  destruct (step _ _ _) as [acts r|e r|r|a r] eqn:Hs; try done.
  apply ewp_bind. unfold ewp at 1, onCommands, on. cbn [nd_runtime nd_commands set_with].
  change (nd_commands (publishRaftState s0 p)) with (nd_commands p).
  destruct (recover _ _) as [[[]|e] c] eqn:Hc; [|done]. apply ewp_bind, ewp_bind. unfold ewp at 1, coreState. cbn.
  destruct (getState (rt_core r)) as [s1|] eqn:Hst; [|done].
  cbn. destruct (nd_recoveredSnapshot p) eqn:Hrec; split; cbn; rewrite ?Hst; try done; rewrite Hrec in *;
    exists m, acts; by split_and!.
Qed.

(** A process that opened its data and entered the loop. *)
Definition started (p : nodeProcess) : Prop :=
  exists cfg observing segments dataDir env p0,
    openNode cfg observing segments dataDir = Ok p0 /\ startLoop env p0 = (Ok tt, p).

Lemma opened cfg observing segments dataDir p :
  openNode cfg observing segments dataDir = Ok p ->
  exists runtime found id ps recovered, p = newNode cfg runtime found dataDir /\
    rt_core runtime = NewNodeFromRecoveredState id ps recovered.
Proof.
  unfold openNode, openRaftRuntime. destruct (Wal.Open _ _) as [[store recovered]|]; [|done].
  destruct (convertEntries _); [|done]. destruct (LoadNewest _ _) as [found|]; [|done].
  destruct (recoveredState _ _) as [state|]; [|done]. cbn. intros [= <-].
  eexists _, _, _, _, _. by split.
Qed.

Lemma new_node_fields id ps recovered :
  let n := NewNodeFromRecoveredState id ps recovered in
  role n = Follower /\ pendingReads n = ∅ /\ pendingHardState n = ∅ /\ pendingCommit n = ∅ /\ readReady n = false.
Proof. unfold NewNodeFromRecoveredState. by destruct (last_entry _). Qed.

(** ** Published state and timers *)

Record in_order (p : nodeProcess) : Prop := {
  io_published : nd_raftState p = getState (rt_core (nd_runtime p));
  io_heartbeat : nd_heartbeatTimer p = true <-> role (rt_core (nd_runtime p)) = Leader;
  io_quorum : nd_quorumTimer p = true <-> role (rt_core (nd_runtime p)) = Leader }.

Lemma restView_fields p p' :
  restView p' = restView p ->
  nd_runtime p' = nd_runtime p /\ nd_raftState p' = nd_raftState p /\
  nd_electionTimer p' = nd_electionTimer p /\ nd_heartbeatTimer p' = nd_heartbeatTimer p /\
  nd_quorumTimer p' = nd_quorumTimer p.
Proof. unfold restView. intros [= ? ? ? ? ? ? ? ? ?]. by split_and!. Qed.

Lemma rest_in_order p p' : restView p' = restView p -> in_order p -> in_order p'.
Proof.
  intros (Hr & Hs & _ & Hh & Hq)%restView_fields []. split; rewrite ?Hr, ?Hs, ?Hh, ?Hq; done.
Qed.

(** The role, and the timers but the one that fired. *)
Lemma prepares_fields env p w current event p0 :
  prepares env p w current event p0 ->
  rt_core (nd_runtime p0) = rt_core (nd_runtime p) /\ nd_raftState p0 = nd_raftState p /\
  (event = ElectionTimeout \/ nd_electionTimer p0 = nd_electionTimer p) /\
  (event = HeartbeatTimeout \/ nd_heartbeatTimer p0 = nd_heartbeatTimer p) /\
  (event = CheckQuorumTimeout \/ nd_quorumTimer p0 = nd_quorumTimer p).
Proof. destruct 1; split_and!; auto. Qed.

Lemma heard_event p event event' p' :
  heard p event event' p' ->
  event' = event \/ (exists r, event = EvInstallSnapshot r) /\ exists r, event' = EvInstallSnapshot r.
Proof. intros [_ Hh]. destruct event; try (by left; destruct Hh). right. destruct Hh as (a & -> & _). eauto. Qed.

(** The actions of a round that leaves a Leader serve its timers. *)
Lemma stepped_timers env p w current event p0 event' p1 acts p' :
  prepares env p w current event p0 -> heard p0 event event' p1 -> served env current event' acts p1 p' ->
  timers_served (rt_core (nd_runtime p)) event acts (rt_core (nd_runtime p')).
Proof.
  intros Hp Hh Hsv. apply prepares_fields in Hp as (Hc0 & _).
  pose proof (heard_event _ _ _ _ Hh) as Hev. destruct Hh as [Ht _].
  destruct (sv_step _ _ _ _ _ _ Hsv) as (r & Hs & Hf & _). apply inflight_role in Hf.
  apply step_serves_timers in Hs. unfold timers_served in *.
  rewrite (tk_core _ _ Ht), Hc0 in Hs. rewrite <- Hf in Hs. intros Hl. destruct (Hs Hl) as (Hr & Hb & Hq).
  split; [done|]. destruct Hev as [->|[[? ->] _]]; done.
Qed.

Lemma stepped_in_order env p w current event p0 event' p1 acts p' :
  prepares env p w current event p0 -> heard p0 event event' p1 -> served env current event' acts p1 p' ->
  in_order p -> in_order p'.
Proof.
  intros Hp Hh Hsv []. pose proof (stepped_timers _ _ _ _ _ _ _ _ _ _ Hp Hh Hsv) as Hs.
  apply prepares_fields in Hp as (_ & _ & _ & Hh0 & Hq0). destruct Hh as [Ht _].
  assert (Hlead : role (rt_core (nd_runtime p')) = Leader ->
    nd_heartbeatTimer p' = true /\ nd_quorumTimer p' = true).
  { intros Hl. destruct (Hs Hl) as (Hr & Hb & Hq). destruct (sv_leader _ _ _ _ _ _ Hsv Hl) as [Sh Sq].
    rewrite (tk_heartbeat _ _ Ht) in Sh. rewrite (tk_quorum _ _ Ht) in Sq.
    split; [apply Sh|apply Sq].
    - destruct Hh0 as [He| ->]; [right; by apply Hb|].
      destruct Hr as [Hr|[? ?]]; [left; by apply io_heartbeat0|by right].
    - destruct Hq0 as [He| ->]; [right; by apply Hq|].
      destruct Hr as [Hr|[? ?]]; [left; by apply io_quorum0|by right]. }
  assert (Hfollow := sv_follower _ _ _ _ _ _ Hsv).
  split; [apply (sv_published _ _ _ _ _ _ Hsv)|split..]; intros Ht';
    first [by apply Hlead | destruct (decide (role (rt_core (nd_runtime p')) = Leader)) as [|Hn]; [done|];
           destruct (Hfollow Hn); congruence].
Qed.

Lemma step_compacted fuel index t (r : raftRuntime WAL) acts r' :
  step fuel (SnapshotCompacted index t) r = Done acts r' ->
  acts = [] /\ exists core, Step (SnapshotCompacted index t) (rt_core r) = Some ([], core) /\
    r' = r <| rt_core := core |> /\ eframe (rt_core r) core.
Proof.
  unfold step. cbn [Step]. unfold bind. pose proof (compactLog_neutral (rt_core r) index t) as Hn. unfold wlp in Hn.
  destruct (compactLog index t (rt_core r)) as [[[] core]|]; [|done]. cbn. intros Hd.
  apply drain_plain in Hd as [-> ->]; [|constructor]. split; [done|]. by exists core.
Qed.

Lemma round_in_order env w p p' : round_case env p w p' -> in_order p -> in_order p'.
Proof.
  destruct 1 as [w current event p0 event' p1 acts p' Hp Hh Hsv|event result ctx c Hb|result p' Hr Hc
                |index t e p' Hsn Hr Hc|index t acts r p' Hsn Hs Hr Hst Hsome Hc He Hhb Hq _ _]; intros Hi.
  - by eapply stepped_in_order.
  - by destruct Hi.
  - by eapply rest_in_order.
  - by eapply rest_in_order.
  - apply step_compacted in Hs as (_ & core & _ & -> & (_ & _ & Hrole & _)).
    destruct Hi. split; rewrite Hr in *; cbn in *; [done|rewrite Hhb|rewrite Hq]; by rewrite Hrole.
Qed.

Lemma started_in_order p : started p -> in_order p.
Proof.
  intros (cfg & observing & segments & dataDir & env & p0 & Ho & Hs).
  destruct (opened _ _ _ _ _ Ho) as (runtime & found & id & ps & recovered & -> & Hcore).
  pose proof (startLoop_spec env (newNode cfg runtime found dataDir)) as Hsp. unfold ewp in Hsp. rewrite Hs in Hsp.
  destruct Hsp as [(m & acts & _ & Hstep & _) Hpub _ Hhb Hq _].
  pose proof (new_node_fields id ps recovered) as (Hrole & _).
  assert (Hnl : role (rt_core (nd_runtime p)) <> Leader).
  { intros Hl. apply (step_not_raised _ _ _ _ _ Hstep I) in Hl. cbn in Hl. by rewrite Hcore, Hrole in Hl. }
  split; [done|split..]; [rewrite Hhb|done|rewrite Hq|done]; done.
Qed.

(** Whatever a Node goes through, the state it publishes is the state of its core,
    and its heartbeat and quorum timers run exactly while it leads. *)
Theorem published_state_and_timers_follow_the_core allowed p l p' :
  started p -> performs allowed p l p' ->
  nd_raftState p' = getState (rt_core (nd_runtime p')) /\
  (nd_heartbeatTimer p' = true <-> role (rt_core (nd_runtime p')) = Leader) /\
  (nd_quorumTimer p' = true <-> role (rt_core (nd_runtime p')) = Leader).
Proof.
  intros Hs%started_in_order Hp. assert (Hi : in_order p').
  { induction Hp as [|l q env w q' _ IH Hready _ Hr|l q env _ IH]; [done|..].
    - eapply round_in_order; [by eapply round_cases|done].
    - destruct (advance_view env q) as (_ & Hc & Hst & _ & Hh & Hq). destruct IH.
      split; rewrite ?Hst, ?Hc, ?Hh, ?Hq; done. }
  by destruct Hi.
Qed.

(** A Node that does not lead never loses its election timer: a round started with
    the timer running, whatever woke the loop, ends with the timer running. *)
Theorem follower_keeps_its_election_timer env w p p' :
  ready w p = true -> nd_electionTimer p = true -> role (rt_core (nd_runtime p)) <> Leader ->
  round env w p = (Ok tt, p') -> nd_electionTimer p' = true.
Proof.
  intros Hready Ht Hr Hrd. apply round_cases in Hrd; [|done]. destruct Hrd.
  - apply prepares_fields in H0 as (Hc0 & _ & He & _). destruct H1 as [Htk Hev].
    apply (sv_election _ _ _ _ _ _ H2). rewrite (tk_election _ _ Htk). destruct He as [->| ->]; [right|by left].
    destruct Hev as [-> ->]. destruct (sv_step _ _ _ _ _ _ H2) as (r & Hs & _).
    eapply step_rearms_election; [exact Hs|]. by rewrite Hc0.
  - done.
  - apply restView_fields in H0 as (_ & _ & -> & _). done.
  - apply restView_fields in H1 as (_ & _ & -> & _). done.
  - congruence.
Qed.
End Codec.

(** ** A concrete process *)

(** Every peer answers and every file operation succeeds. *)
Definition sampleNet : grpc :=
  mkGrpc (fun _ => true)
    (fun _ id _ => Ok (mkHandshakeResponse peerProtocolVersion "ternion" id 8)) (fun _ _ _ => Ok tt).

Definition sampleEnv : environment := mkEnv (fun _ => false) sampleNet ["1"] (fun _ => succeeds) 100.

Definition hears (e : Event) : environment * wakeup := (sampleEnv, Input (raftEventInput e)).

(** Member [id] on an empty data directory. *)
Definition openedProcess (id : string) : result openError nodeProcess :=
  openNode (sampleConfig id) false [] ∅.

Definition enteredProcess (id : string) : option nodeProcess :=
  match openedProcess id with
  | Ok p => match startLoop sampleEnv p with (Ok _, p) => Some p | _ => None end
  | Err _ => None
  end.

Lemma entered_opened id p :
  enteredProcess id = Some p ->
  exists p0, openNode (sampleConfig id) false [] ∅ = Ok p0 /\ startLoop sampleEnv p0 = (Ok tt, p).
Proof.
  unfold enteredProcess, openedProcess. destruct (openNode _ _ _ _) as [p0|]; [|done].
  destruct (startLoop sampleEnv p0) as [[[]|] p1] eqn:Hs; [|done]. intros [= <-]. by exists p0.
Qed.

Lemma entered_started id p : enteredProcess id = Some p -> started p.
Proof.
  intros (p0 & Ho & Hs)%entered_opened. by exists (sampleConfig id), false, [], ∅, sampleEnv, p0.
Qed.

(** Rounds that return to the top of the loop; [ok] tests what the surroundings do. *)
Fixpoint play (ok : nodeProcess -> wakeup -> bool) (l : list (environment * wakeup)) (p : nodeProcess)
    : option nodeProcess :=
  match l with
  | [] => Some p
  | (env, w) :: l =>
      if ready w p && ok p w then
        match round env w p with (Ok _, p) => play ok l p | (Err _, _) => None end
      else None
  end.

Abbreviation anything := (fun (_ : nodeProcess) (_ : wakeup) => True).

(** The history of the rounds of [l]. *)
Definition rounds (l : list (environment * wakeup)) : list activity := map (fun '(env, w) => Round env w) l.

Lemma play_performs ok (allowed : nodeProcess -> wakeup -> Prop) l p0 l0 p p' :
  (forall p w, ok p w = true -> allowed p w) ->
  performs allowed p0 l0 p -> play ok l p = Some p' -> performs allowed p0 (l0 ++ rounds l) p'.
Proof.
  intros Hok. revert l0 p. induction l as [|[env w] l IH]; intros l0 p Hp; cbn [play rounds map].
  { intros [= <-]. by rewrite app_nil_r. }
  destruct (ready w p) eqn:Hr; [|done]. destruct (ok p w) eqn:Ho; [|done]. cbn.
  destruct (round env w p) as [[[]|] q] eqn:Hq; [|done]. intros Hpl.
  change (Round env w :: _) with ([Round env w] ++ rounds l). rewrite app_assoc. apply (IH _ q); [|done].
  eapply pf_round; eauto.
Qed.

(** An election won, then the election timer fires while the Node leads. *)
Definition leads : list (environment * wakeup) :=
  [(sampleEnv, ElectionTimer); hears (EvPreVoteResponse (mkPreVoteResponse "n2" 1 0 true));
   hears (EvVoteResponse (mkVoteResponse "n2" 1 true)); (sampleEnv, ElectionTimer)].

(** A candidate of a newer term whose log is older. *)
Definition rival : environment * wakeup := hears (EvVoteRequest (mkVoteRequest "n3" 2 0 0)).

Definition untimed (p : nodeProcess) : bool :=
  negb (nd_electionTimer p) && negb (nd_heartbeatTimer p) && negb (nd_quorumTimer p)
  && negb (snapshotRunning p).

Lemma untimed_ready p w :
  untimed p = true -> ready w p = true -> w = Stop \/ exists input, w = Input input.
Proof.
  unfold untimed, ready, snapshotRunning. intros H. reflect_bools.
  destruct w; eauto; try congruence. destruct (nd_snapshot p); congruence.
Qed.

Definition after_run (ok : nodeProcess -> wakeup -> bool) (check : nodeProcess -> bool)
    (run : list (environment * wakeup)) (id : string) : bool :=
  match enteredProcess id with
  | Some p => match play ok run p with Some p' => check p' | None => false end
  | None => false
  end.

Lemma after_run_performs ok (allowed : nodeProcess -> wakeup -> Prop) check run id :
  (forall p w, ok p w = true -> allowed p w) -> after_run ok check run id = true ->
  exists p p', enteredProcess id = Some p /\ performs allowed p (rounds run) p' /\ check p' = true.
Proof.
  intros Hok. unfold after_run. destruct (enteredProcess id) as [p|] eqn:He; [|done].
  destruct (play ok run p) as [p'|] eqn:Hp; [|done]. intros Hc.
  exists p, p'. split_and!; [done| |done]. by apply (play_performs ok allowed run p [] p p' Hok (pf_none _ p)).
Qed.

(** A run and the round after it. *)
Definition observes (ok : nodeProcess -> wakeup -> bool) (run : list (environment * wakeup))
    (next : environment * wakeup) (check : nodeProcess -> result loopExit unit * nodeProcess -> bool) : bool :=
  match enteredProcess "n1" with
  | Some p =>
      match play ok run p with
      | Some p => ready next.2 p && ok p next.2 && check p (round next.1 next.2 p)
      | None => false
      end
  | None => false
  end.

Lemma observed ok (allowed : nodeProcess -> wakeup -> Prop) run next check :
  (forall p w, ok p w = true -> allowed p w) -> observes ok run next check = true ->
  exists p q, enteredProcess "n1" = Some p /\ performs allowed p (rounds run) q /\ ready next.2 q = true /\
    allowed q next.2 /\ check q (round next.1 next.2 q) = true.
Proof.
  unfold observes. intros Hok. destruct (enteredProcess "n1") as [p0|] eqn:He; [|done].
  destruct (play ok run p0) as [q|] eqn:Hp; [|done]. intros [[Hr Ha]%andb_true_iff Hc]%andb_true_iff.
  exists p0, q. split_and!; [done| |done|by apply Hok|done].
  by apply (play_performs ok allowed run p0 [] p0 q Hok (pf_none _ p0)).
Qed.

Abbreviation always := (fun (_ : nodeProcess) (_ : wakeup) => true).

(** A deposed Leader can be left without an election timer.  The timer fires once
    while the Node leads and is not set again; a vote request of a newer term then makes
    the Node a Follower without starting any timer, so that nothing but a message or a
    request of a Client wakes the loop again: the Node never stands for election on
    its own. *)
Theorem deposed_leader_is_left_without_election_timer :
  exists p l p', started p /\ performs anything p l p' /\ role (rt_core (nd_runtime p')) = Follower /\
    forall w, ready w p' = true -> w = Stop \/ exists input, w = Input input.
Proof.
  destruct (after_run_performs always anything
              (fun p => untimed p && bool_decide (role (rt_core (nd_runtime p)) = Follower))
              (leads ++ [rival]) "n1") as (p & p' & He & Hp & Hc); [done|vm_compute; reflexivity|].
  apply andb_true_iff in Hc as [Hu Hr]. apply bool_decide_eq_true_1 in Hr. apply entered_started in He.
  exists p, (rounds (leads ++ [rival])), p'. split_and!; [exact He|exact Hp|exact Hr|]. intros w. by apply untimed_ready.
Qed.

Lemma published_state_and_timers_follow_the_core_witness :
  exists p l p', started p /\ performs anything p l p' /\ role (rt_core (nd_runtime p')) = Leader /\
    nd_raftState p' = getState (rt_core (nd_runtime p')) /\ nd_heartbeatTimer p' = true.
Proof.
  destruct (after_run_performs always anything (fun p => bool_decide (role (rt_core (nd_runtime p)) = Leader))
              leads "n1") as (p & p' & He & Hp & Hc); [done|vm_compute; reflexivity|].
  apply bool_decide_eq_true_1 in Hc. apply entered_started in He.
  destruct (published_state_and_timers_follow_the_core anything p (rounds leads) p' He Hp) as (H1 & [_ H2] & _).
  exists p, (rounds leads), p'. split_and!; [exact He|exact Hp|exact Hc|exact H1|exact (H2 Hc)].
Defined.

Lemma follower_keeps_its_election_timer_witness :
  match enteredProcess "n1" with
  | Some p => nd_electionTimer (round sampleEnv ElectionTimer p).2 = true
  | None => False
  end.
Proof.
  destruct (enteredProcess "n1") as [p|] eqn:He; [|vm_compute in He; discriminate He].
  assert (Hc : match enteredProcess "n1" with
    | Some p => nd_electionTimer p && bool_decide (role (rt_core (nd_runtime p)) = Follower)
                && match round sampleEnv ElectionTimer p with (Ok _, _) => true | _ => false end
    | None => false end = true) by (vm_compute; reflexivity).
  rewrite He in Hc. apply andb_true_iff in Hc as [Hc Hr]. apply andb_true_iff in Hc as [Ht Hf].
  apply bool_decide_eq_true_1 in Hf. destruct (round sampleEnv ElectionTimer p) as [[[]|] p'] eqn:Hrd; [|discriminate Hr].
  apply (follower_keeps_its_election_timer sampleEnv ElectionTimer p p'); [exact Ht|exact Ht| |exact Hrd].
  rewrite Hf. discriminate.
Defined.
