(* ===== verification/Timers.v ===== *)
(** The timers of the Raft loop with their durations: when each is set, stopped and
    due, on a clock in nanoseconds, and how the loop with a clock refines the loop of
    [NodeLoop], which only knows whether a timer runs. *)

From S2P Require Import Prelude Bytes Wal WalJson RaftTypes RaftCore RaftLog RaftInvariant RaftElection RaftActions Session SessionProps Runtime RuntimeActions Coordinator CoordinatorProps Config Peer SnapshotJson SnapshotFile Transport Metrics NodeLoop NodeLoopProps NodeLoopInvariants.

(** ** Durations *)

Definition millisecond : N := 1000000.
Definition heartbeatInterval : N := 100 * millisecond.
Definition electionTimeoutMin : N := 500 * millisecond.
Definition electionTimeoutMax : N := 1000 * millisecond.
Definition checkQuorumWindow : N := 1000 * millisecond.

(** [random.Int63n(n)] from the number [drawn] that it keeps. *)
Definition Int63n (drawn n : N) : N := drawn mod n.

Definition randomElectionTimeout (drawn : N) : N :=
  let span := electionTimeoutMax - electionTimeoutMin in
  electionTimeoutMin + Int63n drawn (span + 1).

Lemma randomElectionTimeout_range drawn :
  electionTimeoutMin <= randomElectionTimeout drawn <= electionTimeoutMax.
Proof.
  unfold randomElectionTimeout, Int63n.
  pose proof (N.mod_upper_bound drawn (electionTimeoutMax - electionTimeoutMin + 1)).
  unfold electionTimeoutMax, electionTimeoutMin, millisecond in *. lia.
Qed.

(** ** Timers *)

(** A [time.Timer]: the time of the tick that is still to be received.  A timer that was
    stopped, or whose tick was received, has none. *)
Abbreviation timer := (option N).

Definition NewTimer (now delay : N) : timer := Some (now + delay).
Definition timerStop (t : timer) : bool * timer := (match t with Some _ => true | None => false end, None).
Definition timerReset (now delay : N) (t : timer) : timer := Some (now + delay).

(** The tick that [<-t.C] finds at [now]. *)
Definition ticks (now : N) (t : timer) : bool :=
  match t with Some deadline => deadline <=? now | None => false end.

(** The receive with a [default] case: it takes the tick, where there is one. *)
Definition drain (now : N) (t : timer) : timer := if ticks now t then None else t.

Definition stopTimer (now : N) (t : option timer) : option timer :=
  match t with
  | None => None
  | Some t => let '(active, t) := timerStop t in Some (if active then t else drain now t)
  end.

Definition resetTimer (now delay : N) (t : timer) : timer :=
  timerReset now delay (default None (stopTimer now (Some t))).

(** The timer, and whether its channel is the one the loop selects on. *)
Definition resetOptionalTimer (now delay : N) (t : option timer) : option timer * bool :=
  (Some (match t with None => NewTimer now delay | Some t => resetTimer now delay t end), true).

(** The timers of [runRaft]; [lt_heartbeatC] and [lt_quorumC] tell whether the channel
    variables are not nil. *)
Record loopTimers := mkTimers {
  lt_election : timer;
  lt_heartbeat : option timer; lt_heartbeatC : bool;
  lt_quorum : option timer; lt_quorumC : bool }.

#[export] Instance eta_timers : Eta loopTimers := fun t =>
  mkTimers (lt_election t) (lt_heartbeat t) (lt_heartbeatC t) (lt_quorum t) (lt_quorumC t).

Definition startTimers (now drawn : N) : loopTimers :=
  mkTimers (NewTimer now (randomElectionTimeout drawn)) None false None false.

(** A channel variable of the loop, as the timer its ticks come from. *)
Definition selected (t : option timer) (open : bool) : timer := if open then default None t else None.

Definition heartbeatC (t : loopTimers) : timer := selected (lt_heartbeat t) (lt_heartbeatC t).
Definition quorumC (t : loopTimers) : timer := selected (lt_quorum t) (lt_quorumC t).

(** What the loop does to its timers for one action. *)
Definition setTimer (now drawn : N) (a : Action) (t : loopTimers) : loopTimers :=
  match a with
  | ResetElectionTimer => t <| lt_election := resetTimer now (randomElectionTimeout drawn) (lt_election t) |>
  | ResetHeartbeatTimer =>
      let '(timer, open) := resetOptionalTimer now heartbeatInterval (lt_heartbeat t) in
      t <| lt_heartbeat := timer |> <| lt_heartbeatC := open |>
  | ResetCheckQuorumTimer =>
      let '(timer, open) := resetOptionalTimer now checkQuorumWindow (lt_quorum t) in
      t <| lt_quorum := timer |> <| lt_quorumC := open |>
  | _ => t
  end.

(** The actions of a round; [spent] holds the time each takes and the number drawn. *)
Fixpoint setTimers (now : N) (spent : list (N * N)) (acts : list Action) (t : loopTimers) : N * loopTimers :=
  match acts with
  | [] => (now, t)
  | a :: acts =>
      let '(elapsed, drawn) := default (0, 0) (head spent) in
      setTimers (now + elapsed) (tail spent) acts (setTimer (now + elapsed) drawn a t)
  end.

Definition stopTimers (now : N) (t : loopTimers) : loopTimers :=
  t <| lt_heartbeat := stopTimer now (lt_heartbeat t) |> <| lt_quorum := stopTimer now (lt_quorum t) |>
    <| lt_heartbeatC := false |> <| lt_quorumC := false |>.

(** The tick that woke the loop has been received. *)
Definition receiveTick (w : wakeup) (t : loopTimers) : loopTimers :=
  match w with
  | ElectionTimer => t <| lt_election := None |>
  | HeartbeatTimer => t <| lt_heartbeat := Some None |>
  | QuorumTimer => t <| lt_quorum := Some None |>
  | _ => t
  end.

(** ** The loop with a clock *)

Record timedNode := mkTimed { td_process : nodeProcess; td_timers : loopTimers; td_now : N }.

#[export] Instance eta_timed : Eta timedNode := fun td =>
  mkTimed (td_process td) (td_timers td) (td_now td).

(** Time passes; nothing else happens. *)
Definition wait (d : N) (td : timedNode) : timedNode := td <| td_now := td_now td + d |>.

(** Whether a [select] case can be chosen now. *)
Definition due (w : wakeup) (td : timedNode) : bool :=
  match w with
  | ElectionTimer => ticks (td_now td) (lt_election (td_timers td))
  | HeartbeatTimer => ticks (td_now td) (heartbeatC (td_timers td))
  | QuorumTimer => ticks (td_now td) (quorumC (td_timers td))
  | _ => ready w (td_process td)
  end.

(** ** Deadlines *)

(** The tick the loop waits for on a timer. *)
Definition deadline (w : wakeup) (t : loopTimers) : timer :=
  match w with
  | ElectionTimer => lt_election t | HeartbeatTimer => heartbeatC t | QuorumTimer => quorumC t | _ => None
  end.

Definition is_timer (w : wakeup) : bool :=
  match w with ElectionTimer | HeartbeatTimer | QuorumTimer => true | _ => false end.

Lemma timer_eq w w' : is_timer w = true -> w = w' \/ w <> w'.
Proof. destruct w, w'; try done; try (by left); by right. Qed.

Lemma due_ticks w td : is_timer w = true -> due w td = ticks (td_now td) (deadline w (td_timers td)).
Proof. by destruct w. Qed.

(** The action that sets a timer, and the range of the delays it sets. *)
Definition sets (w : wakeup) (a : Action) : Prop :=
  match w with
  | ElectionTimer => a = ResetElectionTimer
  | HeartbeatTimer => a = ResetHeartbeatTimer
  | QuorumTimer => a = ResetCheckQuorumTimer
  | _ => False
  end.

Definition shortest (w : wakeup) : N :=
  match w with
  | ElectionTimer => electionTimeoutMin | HeartbeatTimer => heartbeatInterval | _ => checkQuorumWindow
  end.

Definition longest (w : wakeup) : N :=
  match w with
  | ElectionTimer => electionTimeoutMax | HeartbeatTimer => heartbeatInterval | _ => checkQuorumWindow
  end.

(** The timer was set between two moments, and [t] is what it holds since. *)
Definition set_between (w : wakeup) (from to : N) (t : timer) : Prop :=
  exists moment delay, from <= moment <= to /\ shortest w <= delay <= longest w /\ t = Some (moment + delay).

Lemma setTimer_sets now drawn a t w :
  sets w a -> set_between w now now (deadline w (setTimer now drawn a t)).
Proof.
  pose proof (randomElectionTimeout_range drawn).
  intros Hs. exists now, (match w with ElectionTimer => randomElectionTimeout drawn | _ => longest w end).
  split; [lia|]. destruct w; cbn [sets] in Hs; try done; subst a; (split; [done|]); cbn;
    [done|by destruct (lt_heartbeat t)|by destruct (lt_quorum t)].
Qed.

Lemma setTimer_keeps now drawn a t w : ~ sets w a -> deadline w (setTimer now drawn a t) = deadline w t.
Proof. destruct w, a; done. Qed.

#[export] Instance sets_dec w a : Decision (sets w a).
Proof. destruct w, a; cbn; first [by left | by right | solve_decision]. Defined.

(** After its actions, the clock of a round has not gone back, and a timer is as it was
    or was set on the way. *)
Lemma setTimers_deadline spent acts now t :
  let '(now', t') := setTimers now spent acts t in
  now <= now' /\
  forall w, (Forall (fun a => ~ sets w a) acts /\ deadline w t' = deadline w t) \/
            (Exists (sets w) acts /\ set_between w now now' (deadline w t')).
Proof.
  revert now spent t. induction acts as [|a acts IH]; intros now spent t; cbn [setTimers].
  { split; [lia|]. intros w. by left. }
  destruct (default (0, 0) (head spent)) as [elapsed drawn].
  specialize (IH (now + elapsed) (tail spent) (setTimer (now + elapsed) drawn a t)).
  destruct (setTimers _ _ _ _) as [now' t']. destruct IH as [Hnow IH]. split; [lia|]. intros w.
  destruct (IH w) as [[Hn ->]|[He (moment & delay & ? & ? & ?)]].
  - destruct (decide (sets w a)) as [Hs|Hs]; [right|left].
    + split; [by left|]. destruct (setTimer_sets (now + elapsed) drawn a t w Hs) as (moment & delay & ? & ? & ?).
      exists moment, delay. split_and!; [lia..|lia|lia|done].
    + rewrite setTimer_keeps by done. split; [by constructor|done].
  - right. split; [by right|]. exists moment, delay. split_and!; [lia..|lia|lia|done].
Qed.

Lemma stopTimers_deadline now t :
  deadline ElectionTimer (stopTimers now t) = deadline ElectionTimer t /\
  forall w, w <> ElectionTimer -> deadline w (stopTimers now t) = None.
Proof. split; [done|]. by intros []. Qed.

Lemma receiveTick_deadline w t :
  deadline w (receiveTick w t) = None /\ forall w', w' <> w -> deadline w' (receiveTick w t) = deadline w' t.
Proof.
  split; [destruct w; try done; cbn; unfold heartbeatC, quorumC, selected; cbn; by case_match|].
  destruct w; try done; by intros [].
Qed.

Section Codec.
Context `{CheckpointCodec}.

(** The input and event a round goes on with after its [select], and the Node there;
    nothing for a round that goes back to the top of the loop at once. *)
Definition prepared (env : environment) (w : wakeup) (p : nodeProcess)
    : option (option runtimeInput * Event * nodeProcess) :=
  let p := pruned env p in
  match w with
  | Stop | SnapshotDone | Input (snapshotInput _) => None
  | Input (raftEventInput event) => Some (Some (raftEventInput event), event, p)
  | Input (proposalInput event result ctx) =>
      let '(proposed, c) := beginProposal event result ctx (nd_commands p) in
      match proposed with
      | Some proposed => Some (Some (proposalInput event result ctx), proposed, p <| nd_commands := c |>)
      | None => None
      end
  | Input (readInput read result ctx key) =>
      let '(event, c) := beginRead read result ctx key (nd_commands p) in
      Some (Some (readInput read result ctx key), event, p <| nd_commands := c |>)
  | ElectionTimer => Some (None, ElectionTimeout, p <| nd_electionTimer := false |>)
  | HeartbeatTimer => Some (None, HeartbeatTimeout, p <| nd_heartbeatTimer := false |>)
  | QuorumTimer => Some (None, CheckQuorumTimeout, p <| nd_quorumTimer := false |>)
  end.

(** The actions a round handles once its event was received. *)
Definition eventActions (env : environment) (event : Event) (p : nodeProcess) : list Action :=
  match received env event p with
  | (Ok event, p) => match step (ev_fuel env) event (nd_runtime p) with Done acts _ => acts | _ => [] end
  | (Err _, _) => []
  end.

(** The clock and the timers after a round that led from [p] to [p']. *)
Definition roundTimers (env : environment) (w : wakeup) (spent : list (N * N)) (p p' : nodeProcess)
    (now : N) (t : loopTimers) : N * loopTimers :=
  match prepared env w p with
  | None => (now, t)
  | Some (_, event, p0) =>
      let '(now, t) := setTimers now spent (eventActions env event p0) (receiveTick w t) in
      (now, if bool_decide (role (rt_core (nd_runtime p')) = Leader) then t else stopTimers now t)
  end.

(** A stretch of the life of a Node, with the rounds and the stages of the Snapshot
    goroutine it goes through.  A round starts when its [select] case can be chosen,
    however late that is. *)
Inductive timed_run (td : timedNode) : list activity -> timedNode -> Prop :=
| tr_none : timed_run td [] td
| tr_wait l td' d : timed_run td l td' -> timed_run td l (wait d td')
| tr_round l p t now env w spent p' now' t' :
    timed_run td l (mkTimed p t now) -> due w (mkTimed p t now) = true ->
    round env w p = (Ok tt, p') -> roundTimers env w spent p p' now t = (now', t') ->
    timed_run td (l ++ [Round env w]) (mkTimed p' t' now')
| tr_background l td' env :
    timed_run td l td' ->
    timed_run td (l ++ [Background env]) (td' <| td_process := advanceSnapshot env (td_process td') |>).

(** ** What a round does to the timers *)

Lemma iterate_prepared env w p current event p0 :
  prepared env w p = Some (current, event, p0) -> iterate env w p = dispatch env current event p0.
Proof.
  unfold prepared. destruct w as [| |[e|e result ctx|read result ctx key|result]| | |]; try done;
    try by intros [= <- <- <-].
  unfold iterate, serveInput, ebind, emodify, eget. cbn.
  destruct (beginProposal _ _ _ _) as [[proposed|] c]; [|done]. by intros [= <- <- <-].
Qed.

Lemma prepared_prepares env w p current event p0 :
  prepared env w p = Some (current, event, p0) -> prepares env p w current event p0.
Proof.
  unfold prepared. destruct w as [| |[e|e result ctx|read result ctx key|result]| | |]; try done;
    try (intros [= <- <- <-]; constructor).
  destruct (beginProposal _ _ _ _) as [[proposed|] c] eqn:Hb; [|done].
  apply beginProposal_event in Hb as Heq. subst proposed. intros [= <- <- <-]. by constructor.
Qed.

(** A round that goes on after its [select] served the actions of its event. *)
Lemma prepared_served env w p current event p0 p' :
  prepared env w p = Some (current, event, p0) -> round env w p = (Ok tt, p') ->
  exists event' p1, heard p0 event event' p1 /\ served env current event' (eventActions env event p0) p1 p'.
Proof.
  intros Hp Hr. unfold round in Hr. rewrite (iterate_prepared _ _ _ _ _ _ Hp), dispatch_received in Hr.
  pose proof (received_spec env event p0) as Hh. unfold eventActions. unfold ewp in Hh.
  unfold ebind at 1 in Hr. destruct (received env event p0) as [[event'|e] p1]; [|done].
  exists event', p1. split; [done|]. pose proof (dispatched_spec env current event' p1) as Hd. unfold ewp in Hd.
  destruct ((let+ before := coreState in _) p1) as [[[]|] q]; [|done]. injection Hr as <-.
  destruct Hd as [acts Hs]. destruct (sv_step _ _ _ _ _ _ Hs) as (r & Hst & _). by rewrite Hst.
Qed.

Lemma prepares_ready env p w current event p0 event' p1 w' :
  prepares env p w current event p0 -> heard p0 event event' p1 -> w' <> w ->
  is_timer w' = true -> ready w' p1 = ready w' p.
Proof.
  intros Hp [Ht _] Hw Ht'. destruct Ht as [_ He Hh Hq _ _ _].
  destruct w'; try done; cbn [ready]; rewrite ?He, ?Hh, ?Hq; by destruct Hp.
Qed.

Lemma served_ready env current event acts p p' w :
  served env current event acts p p' -> is_timer w = true ->
  w = ElectionTimer \/ role (rt_core (nd_runtime p')) = Leader ->
  ready w p = true \/ Exists (sets w) acts -> ready w p' = true.
Proof.
  intros Hs Ht Hw Hor.
  assert (Hin : forall a, (forall b, sets w b -> b = a) -> ready w p = true \/ a ∈ acts).
  { intros a Ha. destruct Hor as [|(b & Hb & Hsb)%Exists_exists]; [by left|right]. by rewrite <- (Ha b Hsb). }
  destruct w; try done.
  - apply (sv_election _ _ _ _ _ _ Hs), Hin. done.
  - destruct Hw as [|Hl]; [done|]. apply (sv_leader _ _ _ _ _ _ Hs Hl), Hin. done.
  - destruct Hw as [|Hl]; [done|]. apply (sv_leader _ _ _ _ _ _ Hs Hl), Hin. done.
Qed.

(** A running timer is due within its longest delay and is known to run; the heartbeat
    and quorum timers run exactly while the Node leads. *)
Record on_time (td : timedNode) : Prop := {
  ot_running w d : deadline w (td_timers td) = Some d ->
    d <= td_now td + longest w /\ ready w (td_process td) = true;
  ot_leader : role (rt_core (nd_runtime (td_process td))) = Leader ->
    is_Some (deadline HeartbeatTimer (td_timers td)) /\ is_Some (deadline QuorumTimer (td_timers td));
  ot_follower w : role (rt_core (nd_runtime (td_process td))) <> Leader -> w <> ElectionTimer ->
    deadline w (td_timers td) = None }.

(** The timers after a round that goes on after its [select]: a timer that is left
    running was set, or was running and not the one whose tick was received. *)
Lemma roundTimers_deadline env w spent p p' now t now' t' current event p0 :
  prepared env w p = Some (current, event, p0) -> roundTimers env w spent p p' now t = (now', t') ->
  now <= now' /\ forall w',
    (is_timer w' = true -> w' = ElectionTimer \/ role (rt_core (nd_runtime p')) = Leader ->
       (Forall (fun a => ~ sets w' a) (eventActions env event p0) /\ 
        (w' = w /\ deadline w' t' = None \/ w' <> w /\ deadline w' t' = deadline w' t)) \/
       (Exists (sets w') (eventActions env event p0) /\ set_between w' now now' (deadline w' t'))) /\
    (w' <> ElectionTimer -> role (rt_core (nd_runtime p')) <> Leader -> deadline w' t' = None).
Proof.
  intros Hp. unfold roundTimers. rewrite Hp. pose proof (setTimers_deadline spent (eventActions env event p0) now (receiveTick w t)) as Hs.
  destruct (setTimers _ _ _ _) as [now1 t1]. destruct Hs as [Hnow Hs]. intros [= <- <-]. split; [done|]. intros w'.
  destruct (receiveTick_deadline w t) as [Hw Hother]. destruct (stopTimers_deadline now1 t1) as [He Hstop].
  split.
  - intros Ht Hor. assert (Hd : deadline w' (if bool_decide (role (rt_core (nd_runtime p')) = Leader) then t1
                               else stopTimers now1 t1) = deadline w' t1).
    { destruct (bool_decide_reflect (role (rt_core (nd_runtime p')) = Leader)); [done|]. by destruct Hor as [->|]. }
    rewrite Hd. destruct (Hs w') as [[Hn ->]|]; [left|by right]. split; [done|].
    destruct (timer_eq w' w Ht) as [->|]; auto.
  - intros Hw' Hl. rewrite bool_decide_false by done. by apply Hstop.
Qed.

(** A round that goes back to the top of the loop at once leaves the timers and the
    role alone. *)
Lemma unprepared_rests env w p p' :
  prepared env w p = None -> round_case env p w p' ->
  role (rt_core (nd_runtime p')) = role (rt_core (nd_runtime p)) /\
  forall w', is_timer w' = true -> ready w' p' = ready w' p.
Proof.
  intros Hp Hr. destruct Hr as [w current event p0 event' p1 acts p' Hpr _ _|event result ctx c Hb|result p' Hr _
                |index t e p' _ Hr _|index t acts r p' _ Hs Hr _ _ _ He Hh Hq _ _].
  - exfalso. destruct Hpr; try done. unfold prepared in Hp. by rewrite H0 in Hp.
  - split; [done|]. by intros [].
  - apply restView_fields in Hr as (-> & _ & He & Hh & Hq). split; [done|]. by intros [].
  - apply restView_fields in Hr as (-> & _ & He & Hh & Hq). split; [done|]. by intros [].
  - apply step_compacted in Hs as (_ & core & _ & -> & (_ & _ & Hrole & _)). rewrite Hr. split; [done|]. by intros [].
Qed.

Lemma due_ready w td : on_time td -> due w td = true -> ready w (td_process td) = true.
Proof.
  intros Hot. destruct (is_timer w) eqn:Ht; [|by destruct w]. rewrite due_ticks by done. unfold ticks.
  destruct (deadline w (td_timers td)) as [d|] eqn:Hd; [|done]. intros _. by apply (ot_running _ Hot w d).
Qed.

(** A Leader whose round serves its timers has both of them running. *)
Lemma leader_on_time env p w current event p0 acts p' now t now' t' w' :
  prepares env p w current event p0 ->
  timers_served (rt_core (nd_runtime p)) event acts (rt_core (nd_runtime p')) ->
  on_time (mkTimed p t now) -> role (rt_core (nd_runtime p')) = Leader ->
  w' = HeartbeatTimer \/ w' = QuorumTimer ->
  (Forall (fun a => ~ sets w' a) acts /\
     (w' = w /\ deadline w' t' = None \/ w' <> w /\ deadline w' t' = deadline w' t)) \/
  (Exists (sets w') acts /\ set_between w' now now' (deadline w' t')) ->
  is_Some (deadline w' t').
Proof.
  intros Hp Hts Hot Hl Hw [[Hn Hd]|[_ (? & ? & _ & _ & ->)]]; [|done].
  destruct (Hts Hl) as (Hr & Hb & Hq). rewrite Forall_forall in Hn.
  assert (Hk : w' <> w /\ role (rt_core (nd_runtime p)) = Leader).
  { destruct Hw as [-> | ->]; (split; [intros <-; inversion Hp; subst event|destruct Hr as [|[Hrh Hrq]]]); try done;
      exfalso; first [by apply (Hn _ (Hb eq_refl)) | by apply (Hn _ (Hq eq_refl)) | by apply (Hn _ Hrh) | by apply (Hn _ Hrq)]. }
  destruct Hk as [Hne Hlp]. destruct Hd as [[? _]|[_ ->]]; [done|].
  destruct (ot_leader _ Hot Hlp). by destruct Hw as [-> | ->].
Qed.

Lemma round_on_time env w spent p p' now t now' t' :
  on_time (mkTimed p t now) -> due w (mkTimed p t now) = true -> round env w p = (Ok tt, p') ->
  roundTimers env w spent p p' now t = (now', t') -> on_time (mkTimed p' t' now').
Proof.
  intros Hot Hdue Hr Htm. pose proof (due_ready _ _ Hot Hdue) as Hready.
  destruct (prepared env w p) as [[[current event] p0]|] eqn:Hp.
  - destruct (prepared_served _ _ _ _ _ _ _ Hp Hr) as (event' & p1 & Hh & Hs).
    destruct (roundTimers_deadline _ _ _ _ _ _ _ _ _ _ _ _ Hp Htm) as [Hnow Hd].
    apply prepared_prepares in Hp. pose proof (stepped_timers _ _ _ _ _ _ _ _ _ _ Hp Hh Hs) as Hts.
    split; cbn [td_process td_timers td_now].
    + intros w' d Hw'. assert (Ht : is_timer w' = true) by (by destruct w').
      assert (Hor : w' = ElectionTimer \/ role (rt_core (nd_runtime p')) = Leader).
      { destruct (timer_eq w' ElectionTimer Ht) as [|Hne]; [by left|].
        destruct (decide (role (rt_core (nd_runtime p')) = Leader)) as [|Hl]; [by right|].
        rewrite (proj2 (Hd w') Hne Hl) in Hw'. done. }
      destruct (proj1 (Hd w') Ht Hor) as [[_ [[_ ?]|[Hne Heq]]]|[Hset (moment & delay & ? & ? & Heq)]].
      * congruence.
      * rewrite Heq in Hw'. destruct (ot_running _ Hot _ _ Hw') as [Hle Hrw]. cbn in *. split; [lia|].
        eapply served_ready; [done..|]. left. by erewrite prepares_ready.
      * rewrite Heq in Hw'. injection Hw' as <-. split; [lia|]. eapply served_ready; [done..|]. by right.
    + intros Hl. split; (eapply leader_on_time; [done..|auto|]); apply Hd; auto.
    + intros w' Hl Hne. by apply Hd.
  - destruct (unprepared_rests _ _ _ _ Hp (round_cases _ _ _ _ Hready Hr)) as [Hrole Hw].
    unfold roundTimers in Htm. rewrite Hp in Htm. injection Htm as <- <-. destruct Hot as [H1 H2 H3]. cbn in *.
    split; cbn; rewrite ?Hrole; try done. intros w' d Hd. rewrite Hw by (by destruct w'). by apply H1.
Qed.

(** ** Runs *)

Lemma wait_on_time d td : on_time td -> on_time (wait d td).
Proof.
  intros [H1 H2 H3]. split; [|done..]. intros w d' Hd. destruct (H1 w d' Hd). cbn [td_now wait set_with]. split; [|done].
  cbn. lia.
Qed.

Lemma background_on_time env td :
  on_time td -> on_time (td <| td_process := advanceSnapshot env (td_process td) |>).
Proof.
  intros [H1 H2 H3]. destruct (advance_view env (td_process td)) as (_ & Hc & _ & He & Hh & Hq).
  split; cbn -[deadline]; rewrite ?Hc; try done. intros w d Hd. destruct (H1 w d Hd) as [? <-]. split; [done|].
  by destruct w.
Qed.

(** The timers of a Node that enters the loop. *)
Lemma started_on_time p now drawn : started p -> on_time (mkTimed p (startTimers now drawn) now).
Proof.
  intros Hs. pose proof (started_in_order p Hs) as [_ Hh _].
  destruct Hs as (cfg & observing & segments & dataDir & env & p0 & Ho & Hs).
  destruct (opened _ _ _ _ _ Ho) as (runtime & found & id & ps & recovered & -> & _).
  pose proof (startLoop_spec env (newNode cfg runtime found dataDir)) as Hsp. unfold ewp in Hsp. rewrite Hs in Hsp.
  split; cbn -[deadline].
  - intros [] d; try done. cbn. intros [= <-]. pose proof (randomElectionTimeout_range drawn).
    split; [lia|]. by rewrite (en_election _ _ _ Hsp).
  - intros Hl. apply Hh in Hl. by rewrite (en_heartbeat _ _ _ Hsp) in Hl.
  - by intros [].
Qed.

Lemma timed_run_sound td l td' :
  on_time td -> timed_run td l td' ->
  on_time td' /\ performs (fun _ _ => True) (td_process td) l (td_process td').
Proof.
  intros Hot Hrun.
  induction Hrun as [|l td1 d _ IH|l p t now env w spent p' now' t' _ IH Hdue Hr Htm|l td1 env _ IH].
  - split; [done|constructor].
  - destruct IH as [H1 H2]. split; [by apply wait_on_time|done].
  - destruct IH as [H1 H2]. split; [by eapply round_on_time|].
    apply (pf_round _ _ _ p _ _ p'); [done| |done|done]. by apply (due_ready _ _ H1).
  - destruct IH as [H1 H2]. split; [by apply background_on_time|by constructor].
Qed.

Lemma running_due w td :
  on_time td -> is_timer w = true -> is_Some (deadline w (td_timers td)) ->
  due w (wait (longest w) td) = true.
Proof.
  intros Hot Ht [d Hd]. destruct (ot_running _ Hot w d Hd) as [Hle _]. rewrite due_ticks by done.
  cbn [td_now td_timers wait set_with]. unfold ticks. cbn -[longest deadline]. rewrite Hd. by apply N.leb_le.
Qed.

(** C18: The loop with a clock refines the loop of [NodeLoop]: what a Node does while its
    timers go by the clock is a history of rounds in which each timer that fires runs.
    A Leader is always due for a heartbeat within 100 ms and for a quorum check within
    a second; a Node that does not lead is never due for either, however long it
    waits. *)
Theorem timed_loop_refines_the_loop p drawn now l td :
  started p -> timed_run (mkTimed p (startTimers now drawn) now) l td ->
  performs (fun _ _ => True) p l (td_process td) /\
  (role (rt_core (nd_runtime (td_process td))) = Leader ->
     due HeartbeatTimer (wait heartbeatInterval td) = true /\
     due QuorumTimer (wait checkQuorumWindow td) = true) /\
  (role (rt_core (nd_runtime (td_process td))) <> Leader -> forall d,
     due HeartbeatTimer (wait d td) = false /\ due QuorumTimer (wait d td) = false).
Proof.
  intros Hs Hr. destruct (timed_run_sound _ _ _ (started_on_time _ _ _ Hs) Hr) as [Hot Hp]. split; [done|]. split.
  - intros [Hh Hq]%(ot_leader _ Hot). split; [by apply (running_due HeartbeatTimer)|by apply (running_due QuorumTimer)].
  - intros Hl d. rewrite !due_ticks by done. pose proof (ot_follower _ Hot) as Hf. cbn -[deadline].
    by rewrite !Hf.
Qed.

(** A running election timer of a Node that does not lead is running after the round. *)
Lemma election_kept env w spent p p' now t now' t' :
  role (rt_core (nd_runtime p)) <> Leader -> is_Some (deadline ElectionTimer t) ->
  round env w p = (Ok tt, p') -> roundTimers env w spent p p' now t = (now', t') ->
  is_Some (deadline ElectionTimer t').
Proof.
  intros Hl He Hr Htm. destruct (prepared env w p) as [[[current event] p0]|] eqn:Hp.
  2:{ unfold roundTimers in Htm. rewrite Hp in Htm. by injection Htm as <- <-. }
  destruct (prepared_served _ _ _ _ _ _ _ Hp Hr) as (event' & p1 & [Htk Hev] & Hs).
  destruct (roundTimers_deadline _ _ _ _ _ _ _ _ _ _ _ _ Hp Htm) as [_ Hd].
  destruct (proj1 (Hd ElectionTimer) eq_refl (or_introl eq_refl))
    as [[Hn [[<- _]|[_ ->]]]|[_ (? & ? & _ & _ & ->)]]; [|done..].
  injection Hp as <- <- <-. destruct Hev as [-> ->]. destruct (sv_step _ _ _ _ _ _ Hs) as (r & Hst & _).
  rewrite Forall_forall in Hn. exfalso. eapply (Hn ResetElectionTimer); [|done].
  by eapply step_rearms_election.
Qed.

(** A Node that does not lead and whose election timer runs is due for an election within
    a second, and stays so whatever round it goes through; when the round restarts the
    timer, no election is due before half a second has passed since the round began. *)
Theorem election_timer_stays_in_its_range p drawn now l td env w spent p' now' t' :
  started p -> timed_run (mkTimed p (startTimers now drawn) now) l td ->
  role (rt_core (nd_runtime (td_process td))) <> Leader ->
  due ElectionTimer (wait electionTimeoutMax td) = true ->
  due w td = true -> round env w (td_process td) = (Ok tt, p') ->
  roundTimers env w spent (td_process td) p' (td_now td) (td_timers td) = (now', t') ->
  due ElectionTimer (wait electionTimeoutMax (mkTimed p' t' now')) = true /\
  (forall current event p0, prepared env w (td_process td) = Some (current, event, p0) ->
     ResetElectionTimer ∈ eventActions env event p0 ->
     forall moment, moment < td_now td + electionTimeoutMin ->
     due ElectionTimer (mkTimed p' t' moment) = false).
Proof.
  intros Hs Hrun Hl Hel Hdue Hr Htm. destruct (timed_run_sound _ _ _ (started_on_time _ _ _ Hs) Hrun) as [Hot _].
  destruct td as [q t n]. cbn [td_process td_timers td_now] in *.
  pose proof (round_on_time _ _ _ _ _ _ _ _ _ Hot Hdue Hr Htm) as Hot'. split.
  - apply (running_due ElectionTimer); [done..|]. eapply election_kept; [done| |done..].
    unfold due, ticks in Hel. cbn in Hel. destruct (lt_election t) eqn:He; [|done]. cbn. by rewrite He.
  - intros current event p0 Hp Hin moment Hm. rewrite due_ticks by done.
    destruct (roundTimers_deadline _ _ _ _ _ _ _ _ _ _ _ _ Hp Htm) as [_ Hd].
    destruct (proj1 (Hd ElectionTimer) eq_refl (or_introl eq_refl)) as [[Hn _]|[_ (set_at & delay & ? & [? _] & Heq)]].
    + rewrite Forall_forall in Hn. by destruct (Hn _ Hin).
    + cbn -[deadline]. rewrite Heq. apply N.leb_gt. cbn in *. lia.
Qed.
End Codec.

(** ** A concrete run *)

(** Rounds, each after a wait, on a clock that stands still during a round. *)
Fixpoint playTimed (l : list (N * (environment * wakeup))) (td : timedNode) : option timedNode :=
  match l with
  | [] => Some td
  | (d, (env, w)) :: l =>
      let td := wait d td in
      if due w td then
        match round env w (td_process td) with
        | (Ok _, p) =>
            let '(now, t) := roundTimers env w [] (td_process td) p (td_now td) (td_timers td) in
            playTimed l (mkTimed p t now)
        | (Err _, _) => None
        end
      else None
  end.

Lemma playTimed_run l td0 l0 td td' :
  timed_run td0 l0 td -> playTimed l td = Some td' -> timed_run td0 (l0 ++ rounds (map snd l)) td'.
Proof.
  revert l0 td. induction l as [|[d [env w]] l IH]; intros l0 td Ht; cbn [playTimed map rounds].
  { intros [= <-]. by rewrite app_nil_r. }
  pose proof (tr_wait td0 l0 td d Ht) as Hw. destruct (wait d td) as [p t now]. cbn [td_process td_timers td_now].
  destruct (due w _) eqn:Hdue; [|done]. destruct (round env w p) as [[[]|] p'] eqn:Hr; [|done].
  destruct (roundTimers env w [] p p' now t) as [now' t'] eqn:Htm. intros Hpl.
  change (_ :: map _ (map snd l)) with ([Round env w] ++ rounds (map snd l)). rewrite app_assoc.
  apply (IH _ (mkTimed p' t' now')); [|done]. by eapply tr_round.
Qed.

(** The election timer fires after 700 ms and the Node is elected. *)
Definition timedElection : list (N * (environment * wakeup)) :=
  [(700 * millisecond, (sampleEnv, ElectionTimer));
   (millisecond, hears (EvPreVoteResponse (mkPreVoteResponse "n2" 1 0 true)));
   (millisecond, hears (EvVoteResponse (mkVoteResponse "n2" 1 true)))].

Definition elected (drawn : N) : option (nodeProcess * timedNode) :=
  match enteredProcess "n1" with
  | Some p =>
      match playTimed timedElection (mkTimed p (startTimers 0 drawn) 0) with
      | Some td => Some (p, td)
      | None => None
      end
  | None => None
  end.

Lemma elected_run drawn p td :
  elected drawn = Some (p, td) ->
  started p /\ timed_run (mkTimed p (startTimers 0 drawn) 0) (rounds (map snd timedElection)) td.
Proof.
  unfold elected. destruct (enteredProcess "n1") as [q|] eqn:He; [|done].
  destruct (playTimed _ _) as [td'|] eqn:Hp; [|done]. intros [= <- <-]. split; [by eapply entered_started|].
  apply (playTimed_run _ _ [] _ _ (tr_none _) Hp).
Qed.

Lemma timed_loop_refines_the_loop_witness :
  exists p td, elected 150000000 = Some (p, td) /\ role (rt_core (nd_runtime (td_process td))) = Leader /\
    due HeartbeatTimer td = false /\ due HeartbeatTimer (wait heartbeatInterval td) = true /\
    performs anything p (rounds (map snd timedElection)) (td_process td).
Proof.
  assert (Hc : match elected 150000000 with
    | Some (p, td) => bool_decide (role (rt_core (nd_runtime (td_process td))) = Leader)
                      && negb (due HeartbeatTimer td)
    | None => false end = true) by (vm_compute; reflexivity).
  destruct (elected 150000000) as [[p td]|] eqn:He; [|discriminate Hc].
  apply andb_true_iff in Hc as [Hl Hd]. apply bool_decide_eq_true_1 in Hl. apply negb_true_iff in Hd.
  destruct (elected_run _ _ _ He) as [Hs Hr].
  destruct (timed_loop_refines_the_loop p 150000000 0 (rounds (map snd timedElection)) td Hs Hr) as (Hp & Hlead & _).
  exists p, td. split_and!; [reflexivity|exact Hl|exact Hd|exact (proj1 (Hlead Hl))|exact Hp].
Defined.
