(* ===== verification/NodeLoopHistory.v ===== *)
(** What holds of whole histories of a process: the replicated machine is the Snapshot
    plus the applied log, no Client request is answered twice, and every manual Snapshot
    request is answered. *)

From S2P Require Import Prelude Bytes Wal WalJson RaftTypes RaftCore RaftLog RaftInvariant RaftElection RaftActions RaftAppend Session SessionProps Runtime RuntimeActions Coordinator CoordinatorProps Config Peer SnapshotJson SnapshotFile Transport Metrics NodeLoop NodeLoopProps NodeLoopInvariants.

Section Codec.
Context `{CheckpointCodec}.

(** ** The replicated machine *)

(** Events that come from peers. *)
Definition fromPeer (e : Event) : bool :=
  match e with
  | EvPreVoteRequest _ | EvPreVoteResponse _ | EvVoteRequest _ | EvVoteResponse _ | EvAppendEntries _
  | EvAppendEntriesResponse _ | EvInstallSnapshot _ | EvInstallSnapshotResponse _ => true
  | _ => false
  end.

(** Inputs as they reach the queue, as long as no Snapshot transfer is completed. *)
Definition ordinary (p : nodeProcess) (w : wakeup) : Prop :=
  match w with
  | Input (raftEventInput e) =>
      fromPeer e = true /\ event_ok (rt_core (nd_runtime p)) e /\
      match e with EvInstallSnapshot r => is_Done r = false /\ is_Installed r = false | _ => True end
  | Input (proposalInput e _ _) => isProposal e = true /\ event_ok (rt_core (nd_runtime p)) e
  | _ => True
  end.

(** The entries [es] that were applied from position [b + 1] on are those of the log, as far as it
    still holds them. *)
Definition logged (b : N) (es : list LogEntry) (p : nodeProcess) : Prop := forall i x,
  b < i -> i <= lastApplied (rt_core (nd_runtime p)) -> entryAt (rt_core (nd_runtime p)) i = Some x ->
  es !! N.to_nat (i - b - 1) = Some x.

(** The machine is [m0] after the entries [es], numbered from [b + 1] up to the applied one, and
    the applied entries that the log has not compacted are among them. *)
Record tracks (m0 : sessionMachine) (b : N) (es : list LogEntry) (p : nodeProcess) : Prop := {
  tr_wf : wf (rt_core (nd_runtime p));
  tr_caught : caught_up_node (rt_core (nd_runtime p));
  tr_numbered : numbered Index (b + 1) es;
  tr_applied : lastApplied (rt_core (nd_runtime p)) = b + len es;
  tr_machine : cc_state (nd_commands p) = applyAll m0 es;
  tr_log : logged b es p }.

Lemma inflight_wf n n' : inflight_frame n n' -> wf n -> wf n'.
Proof. intros (a & c & ->) []. by split. Qed.

Lemma inflight_caught n n' : inflight_frame n n' -> caught_up_node n -> caught_up_node n'.
Proof. intros (a & c & ->) []. by split. Qed.

Lemma inflight_applied n n' : inflight_frame n n' -> lastApplied n' = lastApplied n.
Proof. by intros (a & c & ->). Qed.

Lemma state_begun event result ctx c proposed c' :
  beginProposal event result ctx c = (proposed, c') -> cc_state c' = cc_state c.
Proof.
  unfold beginProposal, note. destruct (proposedMutation event) as [[session sequence]|]; [|congruence].
  destruct (evaluateMutation _ _ _) as [a []]; repeat case_match; intros; simplify_eq; done.
Qed.

Lemma prepares_state env p w current event p0 :
  prepares env p w current event p0 -> cc_state (nd_commands p0) = cc_state (nd_commands p).
Proof. destruct 1; try done. cbn. apply state_begun in H0. done. Qed.

(** The event that is stepped keeps its obligations and applies nothing by itself. *)
Lemma ordinary_event env p w current event p0 event' p1 :
  ordinary p w -> prepares env p w current event p0 -> heard p0 event event' p1 ->
  event_ok (rt_core (nd_runtime p)) event' /\ appliesEntries event' = false /\
  cc_state (nd_commands p1) = cc_state (nd_commands p).
Proof.
  intros Ho Hp Hh. rewrite <- (prepares_state _ _ _ _ _ _ Hp). destruct Hh as [_ Hh].
  destruct Hp as [e|e result ctx c Hb|read result ctx key| | |]; cbn [ordinary] in Ho.
  - destruct Ho as (Hpeer & Hok & Hd). destruct e; try discriminate Hpeer;
      try (destruct Hh as [-> ->]; by split_and!).
    destruct Hh as (answer & -> & success & next & installed & -> & Hi & Hc). destruct Hd as [Hd Hn].
    assert (installed = false) as -> by (rewrite Hi by done; done). cbn. split_and!; [done|done|].
    by rewrite Hc.
  - destruct Ho as [Hprop Hok]. destruct e; try discriminate Hprop; destruct Hh as [-> ->]; by split_and!.
  - destruct Hh as [-> ->]. by split_and!.
  - destruct Hh as [-> ->]. by split_and!.
  - destruct Hh as [-> ->]. by split_and!.
  - destruct Hh as [-> ->]. by split_and!.
Qed.

(** An applied entry that is still in the log was there before. *)
Lemma applied_kept n n' i x :
  wf n -> wf n' -> retains (appliedPart n) n' -> i <= lastApplied n -> entryAt n' i = Some x -> entryAt n i = Some x.
Proof.
  intros Hwf Hwf' [Hb Hr] Hi Hx. destruct (entryAt_Some n' Hwf' _ _ Hx) as (Hb' & _ & _). cbn in Hb.
  pose proof (wf_applied _ Hwf). pose proof (wf_durableCommit _ Hwf). pose proof (wf_commit _ Hwf).
  destruct (entryAt_is_Some n Hwf i) as [y Hy]; [lia..|]. rewrite Hy, <- Hx. symmetry. apply Hr; [done|].
  unfold entryAt, appliedPart in *. cbn. destruct (_ <? _) eqn:E; [|done]. apply N.ltb_lt in E.
  rewrite lookup_take_lt by lia. done.
Qed.

Lemma tracks_extend m0 b es p p' acts :
  tracks m0 b es p ->
  wf (rt_core (nd_runtime p')) -> caught_up_node (rt_core (nd_runtime p')) ->
  lastApplied (rt_core (nd_runtime p)) <= lastApplied (rt_core (nd_runtime p')) ->
  logBaseIndex (rt_core (nd_runtime p')) <= lastApplied (rt_core (nd_runtime p)) ->
  applied acts = entriesBetween (rt_core (nd_runtime p')) (lastApplied (rt_core (nd_runtime p)))
                   (lastApplied (rt_core (nd_runtime p'))) ->
  retains (appliedPart (rt_core (nd_runtime p))) (rt_core (nd_runtime p')) ->
  cc_state (nd_commands p') = applyAll (cc_state (nd_commands p)) (applied acts) ->
  tracks m0 b (es ++ applied acts) p'.
Proof.
  intros [Hwf0 _ Hn Hla Hm Hlog] Hwf Hcu Hle Hbase Happ Hr Hst.
  pose proof (wf_applied _ Hwf). pose proof (wf_durableCommit _ Hwf). pose proof (wf_commit _ Hwf).
  split; [done..| | |by rewrite applyAll_app, <- Hm|]; [|rewrite len_app, Happ|].
  - apply numbered_app. split; [done|]. rewrite Happ.
    replace (b + 1 + len es) with (lastApplied (rt_core (nd_runtime p)) + 1) by lia.
    apply entriesBetween_numbered; [done|lia..].
  - rewrite len_entriesBetween by (done || lia). lia.
  - intros i x Hb Hi Hx. destruct (N.le_gt_cases i (lastApplied (rt_core (nd_runtime p)))) as [Hle'|Hgt].
    + apply lookup_app_l_Some, Hlog; [done..|]. by eapply applied_kept.
    + rewrite lookup_app_r by (unfold len in *; lia). rewrite <- Hx, Happ.
      rewrite <- (entriesBetween_at _ _ (lastApplied (rt_core (nd_runtime p'))) i Hbase Hgt Hi). f_equal.
      unfold len in *. lia.
Qed.

Lemma served_state env current event acts p p' :
  served env current event acts p p' ->
  cc_state (nd_commands p') = applyAll (cc_state (nd_commands p)) (applied acts).
Proof.
  intros Hsv. rewrite (sv_commands _ _ _ _ _ _ Hsv), <- state_handleAll with (current := current).
  cbv zeta. by destruct (_ && _).
Qed.

Lemma tracks_same m0 b es p p' :
  rt_core (nd_runtime p') = rt_core (nd_runtime p) -> cc_state (nd_commands p') = cc_state (nd_commands p) ->
  tracks m0 b es p -> tracks m0 b es p'.
Proof. intros Hr Hc []. split; unfold logged in *; rewrite ?Hr, ?Hc; done. Qed.

(** The wakeups that bring no part of a Snapshot. *)
Definition chunkless (w : wakeup) : bool :=
  match w with Input (raftEventInput (EvInstallSnapshot _)) => false | _ => true end.

Lemma heard_plain env p w current event p0 event' p1 :
  chunkless w = true -> ordinary p w -> prepares env p w current event p0 -> heard p0 event event' p1 ->
  roundEvent env w p = Some event' /\ nd_runtime p1 = nd_runtime p.
Proof.
  intros Hw Ho Hp [_ Hh]. destruct (prepares_event _ _ _ _ _ _ Hp) as [Hev Hr]. rewrite Hev.
  assert (Hsame : event' = event /\ p1 = p0); [|by destruct Hsame as [-> ->]].
  destruct Hp as [e|e result ctx c Hb| | | |]; cbn [ordinary] in Ho; try exact Hh;
    destruct e; done || by destruct Ho.
Qed.

Lemma round_tracks m0 b es env w p p' :
  round_case env p w p' -> ordinary p w -> tracks m0 b es p ->
  exists more, tracks m0 b (es ++ more) p' /\ (chunkless w = true -> more = applied (roundActions env w p)).
Proof.
  destruct 1 as [w current event p0 event' p1 acts p' Hp Hh Hsv|event result ctx c Hb|result p' Hr Hc
                |index t e p' Hsn Hr Hc|index t acts r p' Hsn Hs Hr Hst Hsome Hc _ _ _ _ _]; intros Ho Ht.
  - destruct (ordinary_event _ _ _ _ _ _ _ _ Ho Hp Hh) as (Hok & Ha & Hm).
    assert (Hcore : rt_core (nd_runtime p1) = rt_core (nd_runtime p)).
    { rewrite (tk_core _ _ (proj1 Hh)). by apply prepares_fields in Hp as [-> _]. }
    destruct (sv_step _ _ _ _ _ _ Hsv) as (r & Hs & Hf & _). exists (applied acts). split.
    + apply step_applies_in_order in Hs as (Hwf & Hcu & Hle & Happ & Hkeep); rewrite ?Hcore; try apply Ht; try done.
      rewrite Hcore in *. pose proof (inflight_applied _ _ Hf) as Hla.
      apply (tracks_extend m0 b es p p' acts); try done; rewrite ?Hla; try lia.
      * by eapply inflight_wf.
      * by eapply inflight_caught.
      * destruct Hf as (x & y & ->). cbn. lia.
      * rewrite Happ. by destruct Hf as (x & y & ->).
      * eapply retains_trans; [exact Hkeep|]. destruct Hf as (x & y & ->). by apply retains_frame.
      * by rewrite (served_state _ _ _ _ _ _ Hsv), Hm.
    + intros Hw. destruct (heard_plain _ _ _ _ _ _ _ _ Hw Ho Hp Hh) as [Hev Hrt].
      unfold roundActions. by rewrite Hev, <- Hrt, Hs.
  - exists []. rewrite app_nil_r. split; [|intros _; unfold roundActions; cbn [roundEvent]; by rewrite Hb].
    eapply tracks_same; [..|exact Ht]; [done|]. by apply state_begun in Hb.
  - exists []. rewrite app_nil_r. split; [|done]. apply restView_fields in Hr as (Hr & _).
    eapply tracks_same; [..|exact Ht]; [by rewrite Hr|by rewrite Hc].
  - exists []. rewrite app_nil_r. split; [|done]. apply restView_fields in Hr as (Hr & _).
    eapply tracks_same; [..|exact Ht]; [by rewrite Hr|by rewrite Hc].
  - exists []. split; [|done]. pose proof (step_compacted _ _ _ _ _ _ Hs) as (-> & _).
    apply step_applies_in_order in Hs as (Hwf & Hcu & Hle & Happ & Hkeep); try apply Ht; try done.
    apply (tracks_extend m0 b es p p' []); rewrite ?Hr; try done; try lia. by rewrite Hc.
Qed.

Lemma recover_entries es c :
  exists c', recover (map ApplyEntry es) c = (Ok tt, c') /\ cc_state c' = applyAll (cc_state c) es.
Proof.
  revert c. induction es as [|e es IH]; intros c; [by exists c|]. cbn [map recover].
  destruct (IH (c <| cc_state := (apply (cc_state c) e).2 |>)) as (c' & -> & Hc). by exists c'.
Qed.

(** The base position of a Node: its Snapshot's, or zero. *)
Definition basePosition (p : nodeProcess) : N := lastApplied (rt_core (nd_runtime p)).

Lemma entered_tracks cfg observing segments dataDir env p0 p :
  openNode cfg observing segments dataDir = Ok p0 -> wf (rt_core (nd_runtime p0)) ->
  entered env p0 p ->
  exists m es, restore (nd_recoveredSnapshot p0) (newSessionMachine (cf_ActiveSessionLimit cfg)) = (Ok tt, m) /\
    tracks m (basePosition p0) es p /\
    step (ev_fuel env) RecoverCommitted (nd_runtime p0) = Done (map ApplyEntry es) (nd_runtime p).
Proof.
  intros Ho Hwf He. destruct (opened _ _ _ _ _ Ho) as (runtime & found & id & ps & recovered & -> & Hcore).
  destruct (en_recovery _ _ _ He) as (m & acts & Hm & Hs & Hc). pose proof Hs as Hrun.
  unfold basePosition. cbn [nd_runtime newNode] in *. pose proof (new_node_fields id ps recovered) as Hf.
  rewrite <- Hcore in Hf. destruct Hf as (Hrole & Hreads & Hhard & Hcommit & _).
  apply recover_applies in Hs as [Hframe ->]; [|done|done|congruence].
  set (n := rt_core runtime) in *. set (es := entriesBetween _ _ _) in *. exists m, es. split_and!; [exact Hm| |exact Hrun].
  destruct (recover_entries es ((nd_commands (newNode cfg runtime found dataDir)) <| cc_state := m |>))
    as (c' & Hc' & Hst). rewrite Hc' in Hc. injection Hc as Hc.
  pose proof (wf_base _ Hwf). pose proof (wf_applied _ Hwf). pose proof (wf_durableCommit _ Hwf).
  pose proof (wf_commit _ Hwf).
  destruct Hframe as (ready' & reads & Hcore' & Hsub & Hready).
  split.
  - eapply apply_frame_wf; [|reflexivity|exact Hwf]. exists ready', reads. by split_and!.
  - rewrite Hcore'. split; cbn.
    + right. cbn. split; [done|lia].
    + rewrite Hhard. apply map_Forall_empty.
    + rewrite Hcommit. apply map_Forall_empty.
  - apply entriesBetween_numbered; [done|done|lia].
  - rewrite Hcore'. cbn. unfold es. rewrite len_entriesBetween by (done || lia). lia.
  - by rewrite <- Hc, Hst.
  - unfold logged. rewrite Hcore'. cbn. intros i x Hi Hle Hx. unfold es. rewrite entriesBetween_at by (lia || done). exact Hx.
Qed.

Lemma performs_track m b es p l p' :
  performs ordinary p l p' -> tracks m b es p -> exists more, tracks m b (es ++ more) p'.
Proof.
  intros Hp Ht. induction Hp as [|l q e w q' _ IH Hready Hok Hr|l q e _ IH]; [by exists []; rewrite app_nil_r|..].
  - destruct IH as [more IH]. apply round_cases in Hr; [|done].
    destruct (round_tracks _ _ _ _ _ _ _ Hr Hok IH) as (new & Hn & _). exists (more ++ new). by rewrite app_assoc.
  - destruct (advance_view e q) as (Hc & Hcore & _). destruct IH as [more IH]. exists more.
    eapply tracks_same; [done|by rewrite Hc|done].
Qed.

(** C16: the replicated machine is the Snapshot plus the log.  From the moment the loop is
    entered, and whatever messages, requests, timers and own Snapshots follow, as long as no Snapshot
    transfer from a Leader completes, the machine is the restored Snapshot with a sequence of entries
    applied to it, in order, each exactly once: one for each position after the Snapshot's up to the
    applied index of the core, and wherever the log still holds a position, it holds that very entry.  The
    sequence only grows, so that entries compacted later remain the ones the log held. *)
Theorem machine_is_snapshot_plus_applied_log cfg observing segments dataDir env p0 p l q l' q' :
  openNode cfg observing segments dataDir = Ok p0 -> wf (rt_core (nd_runtime p0)) ->
  startLoop env p0 = (Ok tt, p) -> performs ordinary p l q -> performs ordinary q l' q' ->
  exists m es more,
    restore (nd_recoveredSnapshot p0) (newSessionMachine (cf_ActiveSessionLimit cfg)) = (Ok tt, m) /\
    numbered Index (basePosition p0 + 1) (es ++ more) /\
    lastApplied (rt_core (nd_runtime q)) = basePosition p0 + len es /\
    cc_state (nd_commands q) = applyAll m es /\ logged (basePosition p0) es q /\
    lastApplied (rt_core (nd_runtime q')) = basePosition p0 + len (es ++ more) /\
    cc_state (nd_commands q') = applyAll m (es ++ more) /\ logged (basePosition p0) (es ++ more) q'.
Proof.
  intros Ho Hwf Hs Hp Hp'. pose proof (startLoop_spec env p0) as He. unfold ewp in He. rewrite Hs in He.
  destruct (entered_tracks _ _ _ _ _ _ _ Ho Hwf He) as (m & es0 & Hm & Ht & _).
  destruct (performs_track _ _ _ _ _ _ Hp Ht) as (es1 & Hq).
  destruct (performs_track _ _ _ _ _ _ Hp' Hq) as (more & Hq'). exists m, (es0 ++ es1), more.
  destruct Hq, Hq'. by split_and!.
Qed.

(** ** Answers to Clients *)

Definition channelsOf (w : wakeup) : list N :=
  match w with Input input => channelOf (Some input) | _ => [] end.

(** The result channels of the requests received in a history. *)
Definition requestChannels (l : list activity) : list N := concat (map channelsOf (wakeups l)).

(** What a round owes the ledger: the channel of its input is added at most once. *)
Definition books (w : wakeup) (c c' : commandCoordinator) : Prop :=
  exists dropped, channelsOf w ++ ledger c ≡ₚ dropped ++ ledger c'.

Lemma ledger_state c m : ledger (c <| cc_state := m |>) = ledger c.
Proof. done. Qed.

Lemma books_prune env p w c' :
  books w (nd_commands (pruned env p)) c' -> books w (nd_commands p) c'.
Proof.
  intros (dropped & Hd). exists (canceledChannels (ev_canceled env) (nd_commands p) ++ dropped).
  pose proof (ledger_prune (ev_canceled env) (nd_commands p)) as Hp. cbn in Hd. rewrite Hp, <- app_assoc, <- Hd.
  solve_Permutation.
Qed.

Lemma served_ledger env current event acts p p' :
  served env current event acts p p' ->
  ledger (nd_commands p') ≡ₚ
    match current with
    | Some (proposalInput _ result _) => replicate (verdicts acts) result
    | _ => []
    end ++ ledger (nd_commands p).
Proof.
  intros Hsv. rewrite (sv_commands _ _ _ _ _ _ Hsv), <- ledger_handleAll. cbv zeta.
  destruct (_ && _); [apply ledger_lost|done].
Qed.

Lemma heard_ledger p event event' p' : heard p event event' p' -> ledger (nd_commands p') = ledger (nd_commands p).
Proof. intros [Ht _]. destruct (tk_commands _ _ Ht) as [m ->]. apply ledger_state. Qed.

Lemma stepped_books env p w current event p0 event' p1 acts p' :
  verdict_guarded (rt_core (nd_runtime p)) ->
  prepares env p w current event p0 -> heard p0 event event' p1 -> served env current event' acts p1 p' ->
  books w (nd_commands p) (nd_commands p').
Proof.
  intros Hg Hp Hh Hsv. apply (books_prune env). pose proof (heard_ledger _ _ _ _ Hh) as Hl.
  pose proof (served_ledger _ _ _ _ _ _ Hsv) as Hs. rewrite Hl in Hs.
  destruct (sv_step _ _ _ _ _ _ Hsv) as (r & Hstep & _).
  assert (Hcore : rt_core (nd_runtime p1) = rt_core (nd_runtime p)).
  { rewrite (tk_core _ _ (proj1 Hh)). by apply prepares_fields in Hp as [-> _]. }
  apply step_gives_verdicts in Hstep as [_ Hv]; [|by rewrite Hcore].
  assert (Hle : (verdicts acts <= 1)%nat) by (destruct (isProposal event'); lia).
  destruct Hp as [e|e result ctx c Hb|read result ctx key| | |]; cbn [channelsOf channelOf app] in *;
    try (exists []; unfold books; cbn [app]; by rewrite Hs).
  - pose proof (ledger_beginProposal e result ctx (nd_commands (pruned env p))) as Hbl. rewrite Hb in Hbl.
    cbn [nd_commands set_with] in Hs. rewrite Hbl in Hs.
    destruct (verdicts acts) as [|[|]]; [|exists []; cbn in *; by rewrite Hs|lia].
    exists [result]. cbn in *. by rewrite Hs.
  - destruct (ledger_beginRead read result ctx key (nd_commands (pruned env p))) as (dropped & Hd & _).
    exists dropped. cbn in *. by rewrite Hs.
Qed.

Lemma round_books env w p p' :
  verdict_guarded (rt_core (nd_runtime p)) -> round_case env p w p' ->
  books w (nd_commands p) (nd_commands p').
Proof.
  intros Hg. destruct 1 as [w current event p0 event' p1 acts p' Hp Hh Hsv|event result ctx c Hb|result p' Hr Hc
                |index t e p' Hsn Hr Hc|index t acts r p' Hsn Hs Hr Hst Hsome Hc _ _ _ _ _].
  - by eapply stepped_books.
  - apply (books_prune env). pose proof (ledger_beginProposal event result ctx (nd_commands (pruned env p))) as Hbl.
    rewrite Hb in Hbl. exists []. cbn in *. by rewrite Hbl.
  - apply (books_prune env). exists []. by rewrite Hc.
  - apply (books_prune env). exists []. by rewrite Hc.
  - apply (books_prune env). exists []. by rewrite Hc.
Qed.

Lemma inflight_verdicts n n' : inflight_frame n n' -> verdict_guarded n -> verdict_guarded n'.
Proof. intros (a & c & ->) []. by split. Qed.

Lemma round_verdicts env w p p' :
  round_case env p w p' -> verdict_guarded (rt_core (nd_runtime p)) -> verdict_guarded (rt_core (nd_runtime p')).
Proof.
  destruct 1 as [w current event p0 event' p1 acts p' Hp Hh Hsv|event result ctx c Hb|result p' Hr Hc
                |index t e p' Hsn Hr Hc|index t acts r p' Hsn Hs Hr Hst Hsome Hc _ _ _ _ _]; intros Hg.
  - destruct (sv_step _ _ _ _ _ _ Hsv) as (r & Hs & Hf & _). eapply inflight_verdicts; [exact Hf|].
    eapply step_gives_verdicts; [exact Hs|]. rewrite (tk_core _ _ (proj1 Hh)).
    by apply prepares_fields in Hp as [-> _].
  - done.
  - by apply restView_fields in Hr as [-> _].
  - by apply restView_fields in Hr as [-> _].
  - rewrite Hr. by apply step_gives_verdicts in Hs as [? _].
Qed.

Lemma started_verdicts p : started p -> verdict_guarded (rt_core (nd_runtime p)) /\ ledger (nd_commands p) = [].
Proof.
  intros (cfg & observing & segments & dataDir & env & p0 & Ho & Hs).
  destruct (opened _ _ _ _ _ Ho) as (runtime & found & id & ps & recovered & -> & Hcore).
  pose proof (startLoop_spec env (newNode cfg runtime found dataDir)) as Hsp. unfold ewp in Hsp. rewrite Hs in Hsp.
  destruct (en_recovery _ _ _ Hsp) as (m & acts & _ & Hstep & Hrec).
  pose proof (new_node_fields id ps recovered) as (_ & _ & Hh & Hc & _). split.
  - apply step_gives_verdicts in Hstep as [? _]; [done|]. cbn. rewrite Hcore.
    split; [by left|rewrite Hh; apply map_Forall_empty|rewrite Hc; apply map_Forall_empty].
  - assert (Hl : forall acts c c', recover acts c = (Ok tt, c') -> ledger c' = ledger c).
    { clear. induction acts as [|a acts IH]; intros c c'; cbn; [by intros [= <-]|].
      destruct a; try done. intros Hr. by rewrite (IH _ _ Hr). }
    by rewrite (Hl _ _ _ Hrec).
Qed.

(** C17: no Client is answered twice.  Over any history of a process whose requests come on
    distinct channels, with retries, reads, cancellations, lost leadership and Snapshot
    transfers in any order, every result channel receives at most one answer. *)
Theorem loop_answers_each_request_at_most_once allowed p l p' :
  started p -> performs allowed p l p' -> NoDup (requestChannels l) ->
  NoDup (map fst (cc_answers (nd_commands p'))).
Proof.
  intros [Hg Hl]%started_verdicts Hp Hnd.
  assert (Hbooks : verdict_guarded (rt_core (nd_runtime p')) /\
    exists dropped, requestChannels l ≡ₚ dropped ++ ledger (nd_commands p')).
  { clear Hnd. induction Hp as [|l q env w q' _ IH Hready Hok Hr|l q env _ IH].
    - split; [done|]. exists []. by rewrite Hl.
    - destruct IH as [Hg' (dropped & Hd)]. apply round_cases in Hr; [|done].
      split; [by eapply round_verdicts|]. destruct (round_books _ _ _ _ Hg' Hr) as (more & Hm).
      exists (dropped ++ more). unfold requestChannels, wakeups in *. rewrite omap_app, map_app, concat_app, Hd. cbn.
      rewrite app_nil_r. transitivity (dropped ++ channelsOf w ++ ledger (nd_commands q)); [solve_Permutation|].
      rewrite Hm. solve_Permutation.
    - destruct (advance_view env q) as (-> & -> & _). destruct IH as [Hg' (dropped & Hd)]. split; [done|].
      exists dropped. unfold requestChannels, wakeups in *. rewrite omap_app. cbn. by rewrite app_nil_r. }
  destruct Hbooks as [_ (dropped & Hd)]. by eapply NoDup_answered.
Qed.

(** ** Manual Snapshots *)

Definition snapshotChannels (w : wakeup) : list N :=
  match w with Input (snapshotInput result) => [result] | _ => [] end.

Definition snapshotRequests (l : list activity) : list N := concat (map snapshotChannels (wakeups l)).

(** Requests that wait and requests that were answered. *)
Definition booked (p : nodeProcess) : list N := nd_waiters p ++ map fst (nd_snapshotAnswers p).

(** Nobody waits when no Snapshot is being taken. *)
Definition attended (p : nodeProcess) : Prop := nd_snapshot p = Idle -> nd_waiters p = [].

(** [p'] is [p] with the requests [new] accepted. *)
Definition accounts (new : list N) (p p' : nodeProcess) : Prop :=
  booked p' ≡ₚ new ++ booked p /\ (attended p -> attended p').

Lemma kept_accounts p p' : snapshot_kept p p' -> accounts [] p p'.
Proof.
  intros [Hv Hs]. unfold snapshotView in Hv. injection Hv as _ Hw Ha _.
  unfold accounts, booked, attended. rewrite Hw, Ha. split; [done|].
  destruct Hs as [->|[_ [c ->]]]; [done|discriminate].
Qed.

Lemma finished_answers (ws : list N) (err : option installError) (answers : list (N * option installError)) :
  map fst (answers ++ map (fun ch => (ch, err)) ws) ≡ₚ ws ++ map fst answers.
Proof. rewrite map_app, map_map. cbn. rewrite map_id. apply Permutation_app_comm. Qed.

Lemma prepares_kept env p w current event p0 : prepares env p w current event p0 -> snapshot_kept p p0.
Proof. destruct 1; (split; [done|by left]). Qed.

Lemma prepares_channels env p w current event p0 : prepares env p w current event p0 -> snapshotChannels w = [].
Proof. by destruct 1. Qed.

(** A dispatched event concerns no manual Snapshot. *)
Lemma dispatched_accounts env p w current event p0 :
  prepares env p w current event p0 ->
  ewp (dispatch env current event) (fun _ p' => accounts (snapshotChannels w) p p')
    (fun _ p' => accounts (snapshotChannels w) p p') p0.
Proof.
  intros Hp. rewrite (prepares_channels _ _ _ _ _ _ Hp). apply prepares_kept in Hp as Hk0.
  eapply ewp_mono; [apply dispatch_spec|..]; cbn.
  - intros _ p' (event' & p1 & acts & Hh & Hsv). apply kept_accounts.
    eapply snapshot_kept_trans; [exact Hk0|]. eapply snapshot_kept_trans; [apply Hh|apply Hsv].
  - intros e p' Hk. apply kept_accounts. by eapply snapshot_kept_trans.
Qed.

Lemma iterate_accounts env w p :
  ready w p = true ->
  ewp (iterate env w) (fun _ p' => accounts (snapshotChannels w) p p')
    (fun e p' => e = panicked \/ accounts (snapshotChannels w) p p') p.
Proof.
  intros Hready. unfold iterate. apply ewp_bind, ewp_modify, ewp_bind, ewp_get.
  change (p <| nd_commands := _ |>) with (pruned env p).
  assert (Hd : forall current event p0, prepares env p w current event p0 ->
    ewp (dispatch env current event) (fun _ p' => accounts (snapshotChannels w) p p')
      (fun e p' => e = panicked \/ accounts (snapshotChannels w) p p') p0).
  { intros current event p0 Hp. eapply ewp_mono; [by apply dispatched_accounts|done|by right]. }
  destruct w as [| |[event|event result ctx|read result ctx key|result]| | |]; cbn [ready] in Hready.
  - apply ewp_lift; [done|]. intros e _. by right.
  - change (nd_snapshot (pruned env p)) with (nd_snapshot p).
    destruct (nd_snapshot p) as [| | |index t err] eqn:Hs; try done.
    assert (Hacc : forall p', nd_waiters p' = [] ->
      nd_snapshotAnswers p' = nd_snapshotAnswers p ++ map (fun ch => (ch, err)) (nd_waiters p) ->
      accounts (snapshotChannels SnapshotDone) p p').
    { intros p' Hw Ha. unfold accounts, booked, attended. rewrite Hw, Ha. split; [apply finished_answers|done]. }
    eapply ewp_mono; [apply snapshotCompleted_spec|..]; cbn; intros ? p' (? & ? & ?); [|right];
      destruct_and?; by apply Hacc.
  - apply ewp_bind, ewp_get. apply Hd. constructor.
  - apply ewp_bind, ewp_get. destruct (beginProposal _ _ _ _) as [[proposed|] c] eqn:Hb;
      apply ewp_bind, ewp_modify.
    + apply beginProposal_event in Hb as Heq. subst proposed. apply Hd. by constructor.
    + by apply ewp_ret.
  - apply ewp_bind, ewp_get. unfold beginRead. apply ewp_bind, ewp_modify. apply Hd. constructor.
  - apply ewp_bind, ewp_get. eapply ewp_mono; [apply startManual_spec|..]; [|by left].
    intros [] p' (_ & _ & Hw & Ha & Hi). unfold accounts, booked, attended. rewrite Hw, Ha. cbn.
    split; [solve_Permutation|done].
  - apply ewp_bind, ewp_modify. apply Hd. constructor.
  - apply ewp_bind, ewp_modify. apply Hd. constructor.
  - apply ewp_bind, ewp_modify. apply Hd. constructor.
Qed.

Lemma advance_accounts env p : accounts [] p (advanceSnapshot env p).
Proof.
  unfold advanceSnapshot, accounts, booked, attended. destruct (nd_snapshot p) as [|c|c|] eqn:Hs; try (by rewrite Hs).
  - destruct (Save _ _ _ _) as [[] d]; cbn; [by destruct (_ =? 0)|done].
  - by destruct (Compact _ _ _) as [[] w].
Qed.

Lemma accounts_trans l1 l2 p1 p2 p3 : accounts l1 p1 p2 -> accounts l2 p2 p3 -> accounts (l1 ++ l2) p1 p3.
Proof. intros [H1 A1] [H2 A2]. split; [rewrite H2, H1; solve_Permutation|auto]. Qed.

Lemma advance_twice env p :
  match nd_snapshot (advanceSnapshot env (advanceSnapshot env p)) with
  | Idle | Completed _ _ _ => True
  | _ => False
  end.
Proof.
  assert (Hc : forall q c, nd_snapshot q = Compacting c ->
    match nd_snapshot (advanceSnapshot env q) with Completed _ _ _ => True | _ => False end).
  { intros q c Hq. unfold advanceSnapshot. rewrite Hq. by destruct (Compact _ _ _) as [[] w]. }
  destruct (nd_snapshot p) as [|c|c|i t e] eqn:Hs.
  - assert (Hsame : advanceSnapshot env p = p) by (unfold advanceSnapshot; by rewrite Hs). by rewrite !Hsame, Hs.
  - unfold advanceSnapshot at 2. rewrite Hs. destruct (Save _ _ _ _) as [[] d]; [|done].
    destruct (sn_IncludedIndex c =? 0) eqn:H0; [done|]. set (q := set_with nd_snapshot _ _).
    pose proof (Hc q c eq_refl) as Hq. by destruct (nd_snapshot (advanceSnapshot env q)).
  - pose proof (Hc p c Hs) as Hq. unfold advanceSnapshot at 1.
    destruct (nd_snapshot (advanceSnapshot env p)) eqn:Hp; try done. by rewrite Hp.
  - assert (Hsame : advanceSnapshot env p = p) by (unfold advanceSnapshot; by rewrite Hs). by rewrite !Hsame, Hs.
Qed.

(** After the deferred wait nobody waits. *)
Lemma await_answers env p :
  attended p -> nd_waiters (awaitSnapshot env p) = [] /\ map fst (nd_snapshotAnswers (awaitSnapshot env p)) ≡ₚ booked p.
Proof.
  intros Ha. pose proof (accounts_trans _ _ _ _ _ (advance_accounts env p) (advance_accounts env _)) as [Hb Hat].
  pose proof (advance_twice env p) as Ht. unfold awaitSnapshot.
  set (q := advanceSnapshot env (advanceSnapshot env p)) in *.
  destruct (nd_snapshot q) as [| | |index t err] eqn:Hs; try done.
  - specialize (Hat Ha Hs). split; [done|]. rewrite <- Hb. unfold booked. by rewrite Hat.
  - assert (Hf : nd_waiters (finishSnapshot index err q) = [] /\
      nd_snapshotAnswers (finishSnapshot index err q) =
        nd_snapshotAnswers q ++ map (fun ch => (ch, err)) (nd_waiters q)).
    { unfold finishSnapshot. cbn. by destruct err; [|destruct (_ <? _)]. }
    destruct Hf as [-> ->]. split; [done|]. rewrite finished_answers. by rewrite <- Hb.
Qed.

(** Every manual Snapshot request is answered, exactly once, by the time the loop
    returns, whether it returns on cancellation or with an error: requests made while a
    Snapshot is in progress share its result, and the loop waits for it before it
    returns. *)
Theorem snapshot_requests_are_answered allowed p l q env w e p' :
  started p -> performs allowed p l q -> ready w q = true ->
  round env w q = (Err e, p') -> e <> panicked ->
  map fst (nd_snapshotAnswers p') ≡ₚ snapshotRequests l ++ snapshotChannels w /\ nd_waiters p' = [].
Proof.
  intros Hs Hp Hready Hr He.
  assert (Hacc : booked q ≡ₚ snapshotRequests l /\ attended q).
  { clear Hready Hr. induction Hp as [|l q env' w' q' _ IH Hready Hok Hr|l q env' _ IH].
    - destruct Hs as (cfg & observing & segments & dataDir & env0 & p0 & Ho & Hs).
      destruct (opened _ _ _ _ _ Ho) as (runtime & found & id & ps & recovered & -> & _).
      pose proof (startLoop_spec env0 (newNode cfg runtime found dataDir)) as Hsp. unfold ewp in Hsp. rewrite Hs in Hsp.
      destruct (en_requests _ _ _ Hsp) as (Hw & Ha & _). unfold booked, attended. by rewrite Hw, Ha.
    - destruct IH as [Hb Ha]. pose proof (iterate_accounts env' w' q Hready) as Hi. unfold ewp in Hi.
      unfold round in Hr. destruct (iterate env' w' q) as [[[]|] q1]; [|done]. injection Hr as <-.
      destruct Hi as [Hb' Ha']. split; [|auto]. rewrite Hb', Hb. unfold snapshotRequests, wakeups.
      rewrite omap_app, map_app, concat_app. cbn. rewrite app_nil_r. apply Permutation_app_comm.
    - destruct IH as [Hb Ha]. destruct (advance_accounts env' q) as [Hb' Ha']. split; [|auto].
      rewrite Hb', Hb. unfold snapshotRequests, wakeups. rewrite omap_app. cbn. by rewrite app_nil_r. }
  destruct Hacc as [Hb Ha]. pose proof (iterate_accounts env w q Hready) as Hi. unfold ewp in Hi.
  unfold round in Hr. destruct (iterate env w q) as [[[]|e'] q1]; [done|]. injection Hr as <- <-.
  destruct Hi as [?|[Hb' Ha']]; [done|]. destruct (await_answers env q1 (Ha' Ha)) as [Hw Hn].
  split; [|done]. rewrite Hn, Hb', Hb. apply Permutation_app_comm.
Qed.
End Codec.

(** ** A Leader at work *)

Definition elected : list (environment * wakeup) :=
  [(sampleEnv, ElectionTimer); hears (EvPreVoteResponse (mkPreVoteResponse "n2" 1 0 true));
   hears (EvVoteResponse (mkVoteResponse "n2" 1 true))].

(** A Follower acknowledges the log up to [index]. *)
Definition acknowledges (index : N) : environment * wakeup :=
  hears (EvAppendEntriesResponse (mkAppendEntriesResponse "n2" 1 0 true index 0 0 0)).

Definition asks (e : Event) (ch : N) : environment * wakeup := (sampleEnv, Input (proposalInput e ch ch)).

Definition session1 : SessionID := replicate 16 x01.

(** A Session is opened, a value is set, and the Client retries the Set. *)
Definition work : list (environment * wakeup) :=
  elected ++
  [acknowledges 1; asks (ProposeSession 1 EntryOpenSession session1) 7; acknowledges 2;
   asks (ProposeSet 2 session1 1 "k" [x61]) 8; acknowledges 3; asks (ProposeSet 3 session1 1 "k" [x61]) 9].

(** A test that implies [ordinary]. *)
Definition ordinaryb (p : nodeProcess) (w : wakeup) : bool :=
  match w with
  | Input (raftEventInput (EvPreVoteResponse _ | EvVoteResponse _ | EvAppendEntriesResponse _)) =>
      lastLogIndex (rt_core (nd_runtime p)) + 2 <? two64
  | Input (raftEventInput _) => false
  | Input (proposalInput e _ _) => isProposal e && (lastLogIndex (rt_core (nd_runtime p)) + 2 <? two64)
  | _ => true
  end.

Lemma ordinaryb_ok p w : ordinaryb p w = true -> ordinary p w.
Proof.
  destruct w as [| |[[]|[]| |]| | |]; cbn; intros Hb; try discriminate Hb;
    first [exact I | apply N.ltb_lt in Hb]; split_and!; first [reflexivity | exact I | exact Hb].
Qed.

Definition blank_core (n : Node) : bool :=
  bool_decide (log n = []) && (logBaseIndex n =? 0) && (lastLogIndex n =? 0) && (lastLogTerm n =? logBaseTerm n)
  && (lastApplied n =? 0) && (durableCommitIndex n =? 0) && (commitIndex n =? 0)
  && bool_decide (pendingCommit n = ∅).

Lemma blank_core_wf n : blank_core n = true -> wf n /\ lastApplied n = 0.
Proof.
  unfold blank_core. intros Hb. reflect_bools. split; [|done].
  split; repeat match goal with E : _ = _ |- _ => rewrite E end; try done.
Qed.

Lemma opened_sample p :
  openNode (sampleConfig "n1") false [] ∅ = Ok p -> basePosition p = 0 /\ nd_recoveredSnapshot p = None /\ wf (rt_core (nd_runtime p)).
Proof.
  assert (Hb : match openNode (sampleConfig "n1") false [] ∅ with
    | Ok p => blank_core (rt_core (nd_runtime p))
              && match nd_recoveredSnapshot p with None => true | Some _ => false end
    | Err _ => false end = true) by (vm_compute; reflexivity).
  intros Ho. rewrite Ho in Hb. apply andb_true_iff in Hb as [[Hwf Hla]%blank_core_wf Hn].
  split_and!; [exact Hla| |exact Hwf]. by destruct (nd_recoveredSnapshot p).
Qed.

Lemma machine_is_snapshot_plus_applied_log_witness :
  exists p p' es, performs ordinary p (rounds work) p' /\ numbered Index 1 es /\
    lastApplied (rt_core (nd_runtime p')) = len es /\ len es = 3 /\
    cc_state (nd_commands p') = applyAll (newSessionMachine 8) es /\ logged 0 es p' /\
    logBaseIndex (rt_core (nd_runtime p')) = 0.
Proof.
  destruct (after_run_performs ordinaryb ordinary
    (fun p => (lastApplied (rt_core (nd_runtime p)) =? 3) && (logBaseIndex (rt_core (nd_runtime p)) =? 0)) work "n1")
    as (p & p' & He & Hp & Hc); [exact ordinaryb_ok|vm_compute; reflexivity|].
  apply andb_prop in Hc as [Hc Hbase]. apply N.eqb_eq in Hc, Hbase.
  destruct (entered_opened "n1" p He) as (p0 & Ho & Hs). clear He. destruct (opened_sample p0 Ho) as (Hb & Hn & Hwf).
  destruct (machine_is_snapshot_plus_applied_log (sampleConfig "n1") false [] ∅ sampleEnv p0 p (rounds work) p' [] p'
    Ho Hwf Hs Hp (pf_none _ _)) as (m & es & more & Hm & He & _ & _ & _ & Hla & Hst & Hlog).
  rewrite Hb, Hn in *. injection Hm as <-. exists p, p', (es ++ more).
  split_and!; [exact Hp|exact He|exact Hla| |exact Hst|exact Hlog|exact Hbase].
  rewrite Hla in Hc. clear -Hc. lia.
Defined.

Lemma loop_answers_each_request_at_most_once_witness :
  exists p p', performs anything p (rounds work) p' /\ length (cc_answers (nd_commands p')) = 3%nat /\
    NoDup (map fst (cc_answers (nd_commands p'))).
Proof.
  destruct (after_run_performs always anything (fun p => bool_decide (length (cc_answers (nd_commands p)) = 3%nat))
    work "n1") as (p & p' & He & Hp & Hc); [done|vm_compute; reflexivity|].
  apply bool_decide_eq_true_1 in Hc. apply entered_started in He. exists p, p'. split_and!; [exact Hp|exact Hc|].
  apply (loop_answers_each_request_at_most_once anything p (rounds work) p' He Hp).
  change (requestChannels (rounds work)) with [7; 8; 9]. by apply (bool_decide_unpack _).
Defined.

(** Two requests share the Snapshot that is being taken when the loop is stopped. *)
Definition twoSnapshots : list (environment * wakeup) :=
  work ++ [(sampleEnv, Input (snapshotInput 1)); (sampleEnv, Input (snapshotInput 2))].

Lemma snapshot_requests_are_answered_witness :
  exists p q p', performs anything p (rounds twoSnapshots) q /\ round sampleEnv Stop q = (Err stopped, p') /\
    map fst (nd_snapshotAnswers p') ≡ₚ [1; 2].
Proof.
  destruct (after_run_performs always anything (fun p => true) twoSnapshots "n1")
    as (p & q & He & Hp & _); [done|vm_compute; reflexivity|]. apply entered_started in He.
  exists p, q, (awaitSnapshot sampleEnv (pruned sampleEnv q)). split_and!; [exact Hp|reflexivity|].
  destruct (snapshot_requests_are_answered anything p (rounds twoSnapshots) q sampleEnv Stop stopped
    (awaitSnapshot sampleEnv (pruned sampleEnv q)) He Hp eq_refl eq_refl) as [Ha _]; [discriminate|].
  exact Ha.
Defined.
