(* ===== verification/Service.v ===== *)
(** The Client-facing service of a Node: [internal/node/session.go] from [OpenSession] on,
    [set.go], [delete.go], [get.go], [validation.go], [CreateSnapshot] of [snapshot.go]
    and [GetStatus] of [node.go].

    A handler runs beside the Raft loop.  It either returns at once or puts an input into the
    queue of the loop and waits; how the waiting ends is decided by the loop, the end of
    the loop and the caller's context.  An error is a gRPC status: its code and its
    details.  The texts of the messages are not modelled. *)

From S2P Require Import Prelude Bytes RaftTypes RaftCore Session Coordinator Config Peer Transport NodeLoop.

(** ** Status errors *)

Inductive InvalidSessionReason := REASON_UNKNOWN | REASON_CLOSED.

Inductive detail :=
| NotLeader (leaderId leaderAddress : string)
| InvalidSession (sessionId : list byte) (reason : InvalidSessionReason)
| StaleSequence (receivedSequence lastSequence : N)
| OutOfOrderSequence (receivedSequence nextSequence : N)
| KeyNotFound (key : string)
| ValidationError (field : string).

Record Status := mkStatus { s_code : Code; s_details : list detail }.

Definition plainStatus (code : Code) : Status := mkStatus code [].

Inductive contextError := contextCanceled | contextDeadlineExceeded.

(** [status.FromContextError]. *)
Definition FromContextError (e : contextError) : Status :=
  plainStatus (match e with contextCanceled => Canceled | contextDeadlineExceeded => DeadlineExceeded end).

(** ** Calls *)

(** How the two [select] statements of a handler end. *)
Inductive ending (R : Type) :=
| queueStopped | queueExpired (e : contextError)
| received (result : R) | loopStopped | waitExpired (e : contextError).
Arguments queueStopped {R}.
Arguments queueExpired {R} e.
Arguments received {R} result.
Arguments loopStopped {R}.
Arguments waitExpired {R} e.

Inductive call (R E A : Type) :=
| Returns (r : result E A)
| Submits (input : runtimeInput) (resume : ending R -> result E A).
Arguments Returns {R E A} r.
Arguments Submits {R E A} input resume.

(** The counters of the Node and the next free result channel. *)
Record counters := mkCounters { nextProposal : N; nextRead : N; nextChannel : N }.

#[export] Instance eta_counters : Eta counters := fun c =>
  mkCounters (nextProposal c) (nextRead c) (nextChannel c).

(** A new result channel. *)
Definition makeChannel (c : counters) : N * counters :=
  (nextChannel c, c <| nextChannel := nextChannel c + 1 |>).

Record OpenSessionResponse := mkOpenSessionResponse { os_SessionId : list byte }.
Record CloseSessionRequest := mkCloseSessionRequest { cr_SessionId : list byte }.
Record SetRequest := mkSetRequest {
  st_SessionId : list byte; st_Sequence : N; st_Key : string; st_Value : list byte }.
Record DeleteRequest := mkDeleteRequest { dl_SessionId : list byte; dl_Sequence : N; dl_Key : string }.
Record DeleteResponse := mkDeleteResponse { dl_Existed : bool }.
Record GetRequest := mkGetRequest { gt_Key : string }.
Record GetResponse := mkGetResponse { gt_Value : list byte }.

Definition maxKeyBytes : N := 1024.
Definition maxValueBytes : N := 1048576.

(** Whether [WithDetails] can attach a detail is up to the gRPC library. *)
Section Handlers.
Variable attaches : detail -> bool.

Definition withDetails (code : Code) (d : detail) : Status :=
  mkStatus code (if attaches d then [d] else []).

(** *** Validation *)

Definition validationError (field : string) : Status := withDetails InvalidArgument (ValidationError field).

Definition validateKey (key : string) : result Status unit :=
  if bool_decide (key = "") then Err (validationError "key")
  else if negb (valid_utf8 key) then Err (validationError "key")
  else if maxKeyBytes <? N.of_nat (String.length key) then Err (validationError "key")
  else Ok tt.

Definition validateMutation (sessionID : list byte) (sequence : N) (key : string) : result Status unit :=
  if negb (len sessionID =? 16) then Err (validationError "session_id")
  else if sequence =? 0 then Err (validationError "sequence")
  else validateKey key.

(** *** Results *)

Definition rejectIfNotLeader (published : State) : option proposalResult :=
  if bool_decide (st_Role published = Leader) then None else Some (rejection (st_LeaderID published)).

Definition proposalError (cfg : Config) (r : proposalResult) : option Status :=
  if res_rejected r then
    if bool_decide (res_leaderID r = "") then Some (plainStatus Unavailable)
    else
      match cf_Members cfg !! (res_leaderID r : string) with
      | None => Some (plainStatus Unavailable)
      | Some leader =>
          Some (withDetails FailedPrecondition (NotLeader (res_leaderID r) (mb_ClientAddress leader)))
      end
  else
    match res_failure r with
    | sessionSucceeded => None
    | sessionLimitReached => Some (plainStatus ResourceExhausted)
    | sessionUnknown => Some (withDetails NotFound (InvalidSession (res_sessionID r) REASON_UNKNOWN))
    | sessionClosed => Some (withDetails FailedPrecondition (InvalidSession (res_sessionID r) REASON_CLOSED))
    | sessionAlreadyExists => Some (plainStatus AlreadyExists)
    | sessionStaleSequence =>
        Some (withDetails FailedPrecondition (StaleSequence (res_sequence r) (res_wantSequence r)))
    | sessionOutOfOrderSequence =>
        Some (withDetails FailedPrecondition (OutOfOrderSequence (res_sequence r) (res_wantSequence r)))
    end.

(** *** Proposals *)

Definition proposed (e : ending proposalResult) : result Status proposalResult :=
  match e with
  | queueStopped => Err (plainStatus Unavailable)
  | queueExpired e => Err (FromContextError e)
  | received result => Ok result
  | loopStopped => Err (plainStatus Unavailable)
  | waitExpired e => Err (FromContextError e)
  end.

(** [propose] followed by [k] on its result. *)
Definition propose {A} (ctx : N) (event : Event) (k : result Status proposalResult -> result Status A)
    (c : counters) : call proposalResult Status A * counters :=
  let '(results, c) := makeChannel c in
  (Submits (proposalInput event results ctx) (fun e => k (proposed e)), c).

(** [n.nextProposal.Add(1)]. *)
Definition newProposalID (c : counters) : N * counters :=
  (nextProposal c +! 1, c <| nextProposal := nextProposal c +! 1 |>).

Definition newReadID (c : counters) : N * counters :=
  (nextRead c +! 1, c <| nextRead := nextRead c +! 1 |>).

(** The error of a result, or the answer made from it. *)
Definition conclude {A} (cfg : Config) (answer : proposalResult -> A) (r : result Status proposalResult)
    : result Status A :=
  match r with
  | Err e => Err e
  | Ok result =>
      match proposalError cfg result with
      | Some e => Err e
      | None => Ok (answer result)
      end
  end.

(** The rejection of a Node that is not the Leader; a rejection always has an error. *)
Definition rejected {R A} (cfg : Config) (result : proposalResult) (zero : A) : call R Status A :=
  Returns (match proposalError cfg result with Some e => Err e | None => Ok zero end).

Definition proposeSession {A} (cfg : Config) (ctx : N) (entryType : EntryType) (sessionID : SessionID)
    (answer : proposalResult -> A) (c : counters) : call proposalResult Status A * counters :=
  let '(proposalID, c) := newProposalID c in
  propose ctx (ProposeSession proposalID entryType sessionID) (conclude cfg answer) c.

(** [random] is what [rand.Read] returns. *)
Definition OpenSession (cfg : Config) (published : State) (ctx : N) (random : option SessionID)
    (c : counters) : call proposalResult Status OpenSessionResponse * counters :=
  match rejectIfNotLeader published with
  | Some result => (rejected cfg result (mkOpenSessionResponse []), c)
  | None =>
      match random with
      | None => (Returns (Err (plainStatus Internal)), c)
      | Some sessionID =>
          proposeSession cfg ctx EntryOpenSession sessionID
            (fun result => mkOpenSessionResponse (res_sessionID result)) c
      end
  end.

Definition CloseSession (cfg : Config) (published : State) (ctx : N) (request : CloseSessionRequest)
    (c : counters) : call proposalResult Status unit * counters :=
  if negb (len (cr_SessionId request) =? 16) then (Returns (Err (validationError "session_id")), c)
  else
    let sessionID := copySession (cr_SessionId request) in
    match rejectIfNotLeader published with
    | Some result => (rejected cfg result tt, c)
    | None => proposeSession cfg ctx EntryCloseSession sessionID (fun _ => tt) c
    end.

Definition Set_ (cfg : Config) (published : State) (ctx : N) (request : SetRequest) (c : counters)
    : call proposalResult Status unit * counters :=
  match validateMutation (st_SessionId request) (st_Sequence request) (st_Key request) with
  | Err e => (Returns (Err e), c)
  | Ok _ =>
      if maxValueBytes <? len (st_Value request) then (Returns (Err (validationError "value")), c)
      else
        match rejectIfNotLeader published with
        | Some result => (rejected cfg result tt, c)
        | None =>
            let '(proposalID, c) := newProposalID c in
            propose ctx (ProposeSet proposalID (copySession (st_SessionId request)) (st_Sequence request)
                           (st_Key request) (st_Value request)) (conclude cfg (fun _ => tt)) c
        end
  end.

Definition Delete (cfg : Config) (published : State) (ctx : N) (request : DeleteRequest) (c : counters)
    : call proposalResult Status DeleteResponse * counters :=
  match validateMutation (dl_SessionId request) (dl_Sequence request) (dl_Key request) with
  | Err e => (Returns (Err e), c)
  | Ok _ =>
      match rejectIfNotLeader published with
      | Some result => (rejected cfg result (mkDeleteResponse false), c)
      | None =>
          let '(proposalID, c) := newProposalID c in
          propose ctx (ProposeDelete proposalID (copySession (dl_SessionId request)) (dl_Sequence request)
                         (dl_Key request)) (conclude cfg (fun result => mkDeleteResponse (res_existed result))) c
      end
  end.

(** *** Reads *)

Definition readEnded (cfg : Config) (key : string) (e : ending readResult) : result Status GetResponse :=
  match e with
  | queueStopped => Err (plainStatus Unavailable)
  | queueExpired e => Err (FromContextError e)
  | received result =>
      if rr_rejected result then
        match proposalError cfg (rejection (rr_leaderID result)) with
        | Some e => Err e
        | None => Ok (mkGetResponse [])
        end
      else if negb (rr_found result) then Err (withDetails NotFound (KeyNotFound key))
      else Ok (mkGetResponse (rr_value result))
  | loopStopped => Err (plainStatus Unavailable)
  | waitExpired e => Err (FromContextError e)
  end.

Definition Get (cfg : Config) (published : State) (ctx : N) (request : GetRequest) (c : counters)
    : call readResult Status GetResponse * counters :=
  match validateKey (gt_Key request) with
  | Err e => (Returns (Err e), c)
  | Ok _ =>
      match rejectIfNotLeader published with
      | Some result => (rejected cfg result (mkGetResponse []), c)
      | None =>
          let '(results, c) := makeChannel c in
          let '(readID, c) := newReadID c in
          (Submits (readInput readID results ctx (gt_Key request)) (readEnded cfg (gt_Key request)), c)
      end
  end.

End Handlers.

(** *** Snapshots and status *)

Inductive createError :=
| createStopping | createStopped | createExpired (e : contextError) | createFailed (e : installError).

Definition CreateSnapshot (c : counters) : call (option installError) createError unit * counters :=
  let '(result, c) := makeChannel c in
  (Submits (snapshotInput result) (fun e =>
     match e with
     | queueStopped => Err createStopping
     | queueExpired e => Err (createExpired e)
     | received None => Ok tt
     | received (Some e) => Err (createFailed e)
     | loopStopped => Err createStopped
     | waitExpired e => Err (createExpired e)
     end), c).

Inductive NodeState := NODE_STATE_STARTING | NODE_STATE_READY.

Inductive RaftRole :=
| RAFT_ROLE_FOLLOWER | RAFT_ROLE_PRE_CANDIDATE | RAFT_ROLE_CANDIDATE | RAFT_ROLE_LEADER.

Definition encodeRole (role : Role) : RaftRole :=
  match role with
  | Follower => RAFT_ROLE_FOLLOWER
  | PreCandidate => RAFT_ROLE_PRE_CANDIDATE
  | Candidate => RAFT_ROLE_CANDIDATE
  | Leader => RAFT_ROLE_LEADER
  end.

Record GetStatusResponse := mkGetStatusResponse {
  gs_ClusterId : string; gs_NodeId : string; gs_State : NodeState; gs_PeerAddress : string;
  gs_ClientAddress : string; gs_Role : RaftRole; gs_LeaderId : string; gs_Term : N; gs_LastLogIndex : N;
  gs_CommitIndex : N; gs_LastApplied : N; gs_SnapshotIndex : N }.

Definition GetStatus (cfg : Config) (ready : bool) (published : State) : GetStatusResponse :=
  let local := LocalMember cfg in
  mkGetStatusResponse (cf_ClusterID cfg) (nc_ID (cf_Node cfg))
    (if ready then NODE_STATE_READY else NODE_STATE_STARTING) (mb_PeerAddress local) (mb_ClientAddress local)
    (encodeRole (st_Role published)) (st_LeaderID published) (st_Term published) (st_LastLogIndex published)
    (st_CommitIndex published) (st_LastApplied published) (st_SnapshotIndex published).
