(* ===== verification/ServiceProps.v ===== *)
(** What the handlers let through: a command that reaches the Raft loop comes from a Node that
    published itself as Leader, and its log entry meets what the write-ahead log and the
    peer protocol require of entries. *)

From S2P Require Import Prelude Bytes Wal WalOps RaftTypes RaftCore RaftLog RaftInvariant RaftElection RaftActions RaftAppend RaftProperties Session Runtime Coordinator Config Peer Transport NodeLoop Service.

Section Handlers.
Variable attaches : detail -> bool.

(** The inputs of the four handlers that propose commands. *)
Inductive submitted (cfg : Config) (published : State) : runtimeInput -> Prop :=
| sub_open ctx session c input k : len session = 16 ->
    (OpenSession attaches cfg published ctx (Some session) c).1 = Submits input k -> submitted cfg published input
| sub_close ctx request c input k :
    (CloseSession attaches cfg published ctx request c).1 = Submits input k -> submitted cfg published input
| sub_set ctx request c input k : st_Sequence request < two64 ->
    (Set_ attaches cfg published ctx request c).1 = Submits input k -> submitted cfg published input
| sub_delete ctx request c input k : dl_Sequence request < two64 ->
    (Delete attaches cfg published ctx request c).1 = Submits input k -> submitted cfg published input.

Lemma rejectIfNotLeader_None published : rejectIfNotLeader published = None -> st_Role published = Leader.
Proof. unfold rejectIfNotLeader. by destruct (bool_decide_reflect (st_Role published = Leader)). Qed.

Lemma validateKey_ok key : validateKey attaches key = Ok tt ->
  key <> "" /\ valid_utf8 key = true /\ N.of_nat (String.length key) <= maxKeyBytes.
Proof.
  unfold validateKey. destruct (bool_decide_reflect (key = "")); [done|].
  destruct (valid_utf8 key) eqn:Hv; [|done]. cbn. destruct (N.ltb_spec maxKeyBytes (N.of_nat (String.length key))); [done|].
  intros _. by split_and!.
Qed.

Lemma validateMutation_ok session sequence key : validateMutation attaches session sequence key = Ok tt ->
  len session = 16 /\ 0 < sequence /\ key <> "" /\ valid_utf8 key = true /\ N.of_nat (String.length key) <= maxKeyBytes.
Proof.
  unfold validateMutation. destruct (N.eqb_spec (len session) 16); [|done]. cbn.
  destruct (N.eqb_spec sequence 0); [done|]. intros Hk%validateKey_ok. destruct_and!. split_and!; (done || lia).
Qed.

Lemma copySession_id session : len session = 16 -> copySession session = session.
Proof. intros Hl. unfold copySession, len in *. rewrite take_ge by lia. rewrite drop_ge by (cbn; lia). by rewrite app_nil_r. Qed.

(** The log entry of [event] meets the obligations of the write-ahead log and of replication. *)
Definition recordable (event : Event) : Prop :=
  forall index t, index < two64 -> t < two64 ->
  exists x, proposedEntry index t event = Some x /\ entry_wf (toWal x) /\ length (ESessionID x) = 16%nat /\ sendable x.

Lemma bounded_entry kind session sequence key value index t :
  len session = 16 -> sequence < two64 -> N.of_nat (String.length key) <= maxKeyBytes ->
  len value <= maxValueBytes -> index < two64 -> t < two64 ->
  entry_wf (toWal (mkLogEntry index t kind session sequence key value)).
Proof.
  intros Hs Hq Hk Hv Hi Ht. unfold len in Hs. split; cbn; try done; [lia|].
  unfold maxKeyBytes, maxValueBytes in *. assert (maxRecordSize = 2097152) as -> by reflexivity. lia.
Qed.

Lemma recordable_entry event kind session sequence key value :
  len session = 16 -> sequence < two64 -> N.of_nat (String.length key) <= maxKeyBytes ->
  len value <= maxValueBytes ->
  (forall index t, proposedEntry index t event = Some (mkLogEntry index t kind session sequence key value)) ->
  recordable event.
Proof.
  intros Hs Hq Hk Hv Hp index t Hi Ht. eexists. split; [apply Hp|]. split; [by apply bounded_entry|].
  cbn. unfold len in Hs. split; [lia|].
  unfold sendable, entrySize, maxKeyBytes, maxValueBytes in *. change maxAppendEntriesBytes with 1052672. cbn [Key Value]. lia.
Qed.

(** C35: the handlers admit only commands the log can take.  A command that a handler hands to the
    Raft loop comes from a Node that published itself as Leader; it is a proposal, and at
    whatever index and term it is appended, its entry is within the limits of a record of the
    write-ahead log and of a replication request, and carries a Session identity of 16 bytes. *)
Theorem submitted_commands_are_recordable cfg published input :
  submitted cfg published input ->
  st_Role published = Leader /\
  exists event ch ctx, input = proposalInput event ch ctx /\ isProposal event = true /\ recordable event.
Proof.
  intros Hsub. destruct Hsub as [ctx session c input k Hlen H|ctx request c input k H|ctx request c input k Hq H
    |ctx request c input k Hq H].
  - unfold OpenSession in H. destruct (rejectIfNotLeader published) eqn:Hr; [discriminate H|].
    apply rejectIfNotLeader_None in Hr. split; [done|]. injection H as <- _. eexists _, _, _. split_and!; [done..|].
    by apply (recordable_entry _ EntryOpenSession session 0 "" []).
  - unfold CloseSession in H. destruct (N.eqb_spec (len (cr_SessionId request)) 16) as [Hlen|]; [|discriminate H].
    cbn [negb] in H. destruct (rejectIfNotLeader published) eqn:Hr; [discriminate H|].
    apply rejectIfNotLeader_None in Hr. split; [done|]. injection H as <- _. eexists _, _, _. split_and!; [done..|].
    rewrite copySession_id by done. by apply (recordable_entry _ EntryCloseSession (cr_SessionId request) 0 "" []).
  - unfold Set_ in H. destruct (validateMutation _ _ _ _) as [[]|] eqn:Hv; [|discriminate H].
    apply validateMutation_ok in Hv as (Hlen & _ & _ & _ & Hk).
    destruct (N.ltb_spec maxValueBytes (len (st_Value request))); [discriminate H|].
    destruct (rejectIfNotLeader published) eqn:Hr; [discriminate H|].
    apply rejectIfNotLeader_None in Hr. split; [done|]. injection H as <- _. eexists _, _, _. split_and!; [done..|].
    rewrite copySession_id by done.
    by apply (recordable_entry _ EntrySet (st_SessionId request) (st_Sequence request) (st_Key request) (st_Value request)).
  - unfold Delete in H. destruct (validateMutation _ _ _ _) as [[]|] eqn:Hv; [|discriminate H].
    apply validateMutation_ok in Hv as (Hlen & _ & _ & _ & Hk).
    destruct (rejectIfNotLeader published) eqn:Hr; [discriminate H|].
    apply rejectIfNotLeader_None in Hr. split; [done|]. injection H as <- _. eexists _, _, _. split_and!; [done..|].
    rewrite copySession_id by done.
    by apply (recordable_entry _ EntryDelete (dl_SessionId request) (dl_Sequence request) (dl_Key request) []).
Qed.

(** ** Replies *)

(** What a Client is told about its Set.  A Set is acknowledged exactly when the loop's answer
    is a success of its own machine; a rejection names the Leader by its configured Client address,
    and the end of the loop or of the caller's context is an error without an effect on
    the proposal. *)
Theorem set_reply_reflects_the_answer cfg published ctx request c input resume :
  (Set_ attaches cfg published ctx request c).1 = Submits input resume ->
  (forall e, resume e = Ok tt <->
     exists r, e = received r /\ res_rejected r = false /\ res_failure r = sessionSucceeded) /\
  (forall r m, res_rejected r = true -> cf_Members cfg !! (res_leaderID r : string) = Some m -> res_leaderID r <> "" ->
     resume (received r) =
     Err (withDetails attaches FailedPrecondition (NotLeader (res_leaderID r) (mb_ClientAddress m)))).
Proof.
  unfold Set_. destruct (validateMutation _ _ _ _); [|done]. destruct (_ <? _); [done|].
  destruct (rejectIfNotLeader published); [done|]. cbn. intros [= <- <-]. unfold conclude, proposed, proposalError. split.
  - intros e. split.
    + destruct e as [|e|r| |e]; try done. intros H. exists r. split; [done|].
      destruct (res_rejected r); [|by destruct (res_failure r)].
      destruct (bool_decide _); [done|]. by destruct (_ !! _).
    + intros (r & -> & -> & ->). done.
  - intros r m -> Hm Hne. rewrite bool_decide_false by done. by rewrite Hm.
Qed.
End Handlers.

Definition sampleState : State := mkState "n1" Leader 1 "n1" "n1" 0 0 0 0 0 0 false.

Lemma submitted_commands_are_recordable_witness :
  exists input, submitted (fun _ => true) (sampleConfig "n1") sampleState input /\
    exists event ch ctx, input = proposalInput event ch ctx /\ recordable event.
Proof.
  eexists. assert (Hs : submitted (fun _ => true) (sampleConfig "n1") sampleState
    (proposalInput (ProposeSet 1 (replicate 16 x01) 1 "k" [x61]) 0 5)).
  { apply (sub_set _ _ _ 5 (mkSetRequest (replicate 16 x01) 1 "k" [x61]) (mkCounters 0 0 0) _
      (fun e => conclude (fun _ => true) (sampleConfig "n1") (fun _ => tt) (proposed e))); reflexivity. }
  split; [exact Hs|].
  destruct (submitted_commands_are_recordable (fun _ => true) (sampleConfig "n1") sampleState _ Hs)
    as (_ & event & ch & ctx & He & _ & Hr). by exists event, ch, ctx.
Defined.

Lemma set_reply_reflects_the_answer_witness :
  exists resume, (Set_ (fun _ => true) (sampleConfig "n1") sampleState 5
      (mkSetRequest (replicate 16 x01) 1 "k" [x61]) (mkCounters 0 0 0)).1 =
    Submits (proposalInput (ProposeSet 1 (replicate 16 x01) 1 "k" [x61]) 0 5) resume /\
    resume (received (newResult zeroSessionID 1)) = Ok tt.
Proof.
  eexists. split; [reflexivity|].
  apply (set_reply_reflects_the_answer (fun _ => true) (sampleConfig "n1") sampleState 5
    (mkSetRequest (replicate 16 x01) 1 "k" [x61]) (mkCounters 0 0 0)
    (proposalInput (ProposeSet 1 (replicate 16 x01) 1 "k" [x61]) 0 5) _ eq_refl).
  by exists (newResult zeroSessionID 1).
Defined.
