(* ===== verification/NodeRun.v ===== *)
(** The life of a Node process: [Node.Run] and [stopServers] of internal/node/node.go.

    [start] is [Run] up to the goroutines; [run_step] is a step of one of the goroutines
    of [Run], the peer, the Client and the metrics server, the Raft loop of NodeLoop, the goroutine of
    [stopServers] and [Run] itself, or an act of the outside world.  Statements between two
    operations that can block are one step.  Of gRPC and net/http the model uses
    what they document: [Serve] returns an error of its own only while the server has not been
    stopped and closes its listener when it returns, a graceful stop waits for the calls in progress, [Stop] ends them. *)

From S2P Require Import Prelude Bytes Wal RaftTypes RaftCore Runtime Config Transport SnapshotFile NodeLoop NodeLoopProps NodeLoopInvariants.

(** ** Data *)

Inductive endpoint := peerEndpoint | clientEndpoint | metricsEndpoint.

#[export] Instance endpoint_eq_dec : EqDecision endpoint.
Proof. solve_decision. Defined.

Inductive runError :=
| cannotOpenState (e : openError)
| cannotListen (on : endpoint) (address : string) (e : string)
| serveFailed (on : endpoint) (e : string)
| raftFailed (e : loopExit)
| cannotClosePeer (id : NodeID) (e : string)
| cannotCloseState (e : string).

(** A goroutine that [servers] counts: not started, at work, sending its error, done. *)
Inductive routine := Unstarted | AtWork | Reporting (e : runError) | Ended.

Record server := mkServer { sv_routine : routine; sv_stopped : bool; sv_active : nat }.

#[export] Instance eta_server : Eta server := fun s => mkServer (sv_routine s) (sv_stopped s) (sv_active s).

(** What a deferred call of [Run] releases. *)
Inductive resource := consensusState | listenerOf (on : endpoint) | metricsHTTP | runContext | peerConnections.

(** Where [Run] is. *)
Inductive phase :=
| Selecting | Cancelling | ShuttingMetrics | Withdrawing | Stopping | Joining | AwaitingServers | Unwinding | Returned.

#[export] Instance phase_eq_dec : EqDecision phase.
Proof. solve_decision. Defined.

Record lifecycle := mkLife {
  lc_phase : phase;
  lc_error : option runError;        (* runErr *)
  lc_defers : list resource;         (* the deferred calls, last first *)
  lc_listening : list endpoint;      (* the listeners that are open *)
  lc_hungUp : list NodeID;           (* the peers whose connections transport.close has closed *)
  lc_ctxDone : bool;                 (* the context of the caller *)
  lc_runCtxDone : bool;              (* runCtx *)
  lc_ready : bool;
  lc_readiness : bool;               (* the ReadinessService is SERVING *)
  lc_errors : list runError;         (* serveErrors *)
  lc_peer : server; lc_client : server; lc_metrics : server;
  lc_raft : routine;
  lc_entered : bool;                 (* the Raft loop has recovered its state *)
  lc_hasMetrics : bool;              (* metricsServer is not nil *)
  lc_stopper : list endpoint;        (* the servers the goroutine of stopServers has still to stop *)
  lc_process : nodeProcess }.

#[export] Instance eta_life : Eta lifecycle := fun s =>
  mkLife (lc_phase s) (lc_error s) (lc_defers s) (lc_listening s) (lc_hungUp s) (lc_ctxDone s) (lc_runCtxDone s) (lc_ready s) (lc_readiness s)
    (lc_errors s) (lc_peer s) (lc_client s) (lc_metrics s) (lc_raft s) (lc_entered s) (lc_hasMetrics s) (lc_stopper s) (lc_process s).

Definition serverOf (on : endpoint) (s : lifecycle) : server :=
  match on with peerEndpoint => lc_peer s | clientEndpoint => lc_client s | metricsEndpoint => lc_metrics s end.

Definition updateServer (on : endpoint) (f : server -> server) (s : lifecycle) : lifecycle :=
  match on with
  | peerEndpoint => s <| lc_peer ::= f |>
  | clientEndpoint => s <| lc_client ::= f |>
  | metricsEndpoint => s <| lc_metrics ::= f |>
  end.

(** What the host answers: errors of listening on an address, of closing the connection to a peer, and of
    closing the file of the write-ahead log. *)
Record host := mkHost {
  ho_listen : string -> option string; ho_closePeer : NodeID -> option string; ho_closeLog : option string }.

(** The capacity of [serveErrors]. *)
Definition serveErrorsCapacity : nat := 3.

Definition metricsEnabled (cfg : Config) : bool := negb (bool_decide (nc_MetricsAddress (cf_Node cfg) = "")).

(** Whether [runRaft] returns with this error; a panic or a power loss ends the process. *)
Definition returns (e : loopExit) : bool := match e with stopped | panicked | died _ => false | _ => true end.

(** ** The start *)

Section Codec.
Context `{CheckpointCodec}.

Definition idleServer : server := mkServer Unstarted false 0.

(** A return with [e] before any goroutine was started. *)
Definition abandon (p : nodeProcess) (defers : list resource) (listening : list endpoint) (e : runError) : lifecycle :=
  mkLife Unwinding (Some e) defers listening [] false false false false [] idleServer idleServer idleServer Unstarted false false [] p.

(** The state in which [Run] waits for the first error or the end of its context. *)
Definition serving (p : nodeProcess) (metrics : bool) (defers : list resource) (listening : list endpoint) : lifecycle :=
  let started := mkServer AtWork false 0 in
  mkLife Selecting None defers listening [] false false true true [] started started
    (if metrics then started else idleServer) AtWork false metrics [] p.

Definition start (h : host) (cfg : Config) (observing : bool) (segments : list segmentFile) (dataDir : directory)
    : result runError lifecycle :=
  match openNode cfg observing segments dataDir with
  | Err e => Err (cannotOpenState e)
  | Ok p =>
      let local := LocalMember cfg in
      let metricsAddress := nc_MetricsAddress (cf_Node cfg) in
      Ok match ho_listen h (mb_PeerAddress local) with
         | Some e => abandon p [consensusState] [] (cannotListen peerEndpoint (mb_PeerAddress local) e)
         | None =>
             let defers := [listenerOf peerEndpoint; consensusState] in
             let listening := [peerEndpoint] in
             match ho_listen h (mb_ClientAddress local) with
             | Some e => abandon p defers listening (cannotListen clientEndpoint (mb_ClientAddress local) e)
             | None =>
                 let defers := listenerOf clientEndpoint :: defers in
                 let listening := clientEndpoint :: listening in
                 if metricsEnabled cfg then
                   match ho_listen h metricsAddress with
                   | Some e => abandon p defers listening (cannotListen metricsEndpoint metricsAddress e)
                   | None =>
                       serving p true (peerConnections :: runContext :: metricsHTTP :: listenerOf metricsEndpoint :: defers)
                         (metricsEndpoint :: listening)
                   end
                 else serving p false (peerConnections :: runContext :: defers) listening
             end
         end
  end.

(** ** Deferred calls *)

Definition gracefulStop (s : server) : server := s <| sv_stopped := true |>.
Definition forcedStop (s : server) : server := s <| sv_stopped := true |> <| sv_active := 0%nat |>.

(** [transport.close] closes every connection, in the order Go's map gives them, and keeps the first error. *)
Definition closePeers (h : host) (order : list NodeID) : option runError :=
  foldl (fun first id => match first with
                         | Some e => Some e
                         | None => option_map (cannotClosePeer id) (ho_closePeer h id)
                         end) None order.

(** [WAL.Close] closes its file once. *)
Definition closeState (h : host) (p : nodeProcess) : option runError * nodeProcess :=
  let w := rt_wal (nd_runtime p) in
  (if w_open w then option_map cannotCloseState (ho_closeLog h) else None, snd (onWAL Close p)).

(** An error of a deferred call counts if there was none before. *)
Definition firstError (earlier later : option runError) : option runError :=
  match earlier with Some e => Some e | None => later end.

(** [Listener.Close]; [Serve] closes its listener too when it returns. *)
Definition closeListener (on : endpoint) (s : lifecycle) : lifecycle :=
  s <| lc_listening ::= filter (fun o => o <> on) |>.

Definition release (h : host) (order : list NodeID) (r : resource) (s : lifecycle) : lifecycle :=
  match r with
  | consensusState =>
      let '(err, p) := closeState h (lc_process s) in
      s <| lc_process := p |> <| lc_error := firstError (lc_error s) err |>
  | peerConnections => s <| lc_error := firstError (lc_error s) (closePeers h order) |> <| lc_hungUp := order |>
  | runContext => s <| lc_runCtxDone := true |>
  | metricsHTTP => s <| lc_metrics ::= forcedStop |>
  | listenerOf on => closeListener on s
  end.

(** ** Steps *)

Definition working (r : routine) : bool := match r with AtWork | Reporting _ => true | _ => false end.

(** [servers.Wait] returns. *)
Definition allDone (s : lifecycle) : bool :=
  negb (working (sv_routine (lc_peer s)) || working (sv_routine (lc_client s))
        || working (sv_routine (lc_metrics s)) || working (lc_raft s)).

(** [run_step own s s']: a step of the goroutines or of the world around them.  [own] marks the steps that bring a
    shutdown forward; rounds of the Raft loop, Snapshot work, a server that fails, and a server that returns
    although calls are in progress are not marked. *)
Inductive run_step (h : host) : bool -> lifecycle -> lifecycle -> Prop :=
(* the world *)
| rs_interrupted s : run_step h false s (s <| lc_ctxDone := true |>)
| rs_called on s : sv_routine (serverOf on s) = AtWork -> sv_stopped (serverOf on s) = false ->
    run_step h false s (updateServer on (fun v => v <| sv_active ::= S |>) s)
| rs_answered on s : sv_active (serverOf on s) <> 0%nat ->
    run_step h false s (updateServer on (fun v => v <| sv_active ::= pred |>) s)
| rs_serve_fails on e s : sv_routine (serverOf on s) = AtWork -> sv_stopped (serverOf on s) = false ->
    run_step h false s (closeListener on (updateServer on (fun v => v <| sv_routine := Reporting (serveFailed on e) |>) s))
(* the Raft loop and the goroutine that saves its Snapshots *)
| rs_entered env p s : lc_raft s = AtWork -> lc_entered s = false -> startLoop env (lc_process s) = (Ok tt, p) ->
    run_step h false s (s <| lc_entered := true |> <| lc_process := p |>)
| rs_not_entered env e p s : lc_raft s = AtWork -> lc_entered s = false ->
    startLoop env (lc_process s) = (Err e, p) -> returns e = true ->
    run_step h false s (s <| lc_raft := Reporting (raftFailed e) |> <| lc_process := p |>)
| rs_round env w p s : lc_raft s = AtWork -> lc_entered s = true -> ready w (lc_process s) = true -> w <> Stop ->
    round env w (lc_process s) = (Ok tt, p) -> run_step h false s (s <| lc_process := p |>)
| rs_round_fails env w e p s : lc_raft s = AtWork -> lc_entered s = true -> ready w (lc_process s) = true -> w <> Stop ->
    round env w (lc_process s) = (Err e, p) -> returns e = true ->
    run_step h false s (s <| lc_raft := Reporting (raftFailed e) |> <| lc_process := p |>)
| rs_snapshot env s : lc_raft s = AtWork ->
    run_step h false s (s <| lc_process := advanceSnapshot env (lc_process s) |>)
| rs_loop_stops env p s : lc_raft s = AtWork -> lc_entered s = true -> lc_runCtxDone s = true ->
    round env Stop (lc_process s) = (Err stopped, p) ->
    run_step h true s (s <| lc_raft := Ended |> <| lc_process := p |>)
(* the goroutines that serve *)
| rs_reports on e s : sv_routine (serverOf on s) = Reporting e -> (length (lc_errors s) < serveErrorsCapacity)%nat ->
    run_step h true s (updateServer on (fun v => v <| sv_routine := Ended |>) s <| lc_errors ::= fun l => l ++ [e] |>)
| rs_raft_reports e s : lc_raft s = Reporting e -> (length (lc_errors s) < serveErrorsCapacity)%nat ->
    run_step h true s (s <| lc_raft := Ended |> <| lc_errors ::= fun l => l ++ [e] |>)
| rs_serve_returns on s : sv_routine (serverOf on s) = AtWork -> sv_stopped (serverOf on s) = true ->
    run_step h (sv_active (serverOf on s) =? 0)%nat s (closeListener on (updateServer on (fun v => v <| sv_routine := Ended |>) s))
(* Run *)
| rs_canceled s : lc_phase s = Selecting -> lc_ctxDone s = true -> run_step h true s (s <| lc_phase := Cancelling |>)
| rs_receives e rest s : lc_phase s = Selecting -> lc_errors s = e :: rest ->
    run_step h true s (s <| lc_phase := Cancelling |> <| lc_error := Some e |> <| lc_errors := rest |>)
| rs_cancels s : lc_phase s = Cancelling ->
    run_step h true s
      (if lc_hasMetrics s then s <| lc_runCtxDone := true |> <| lc_metrics ::= gracefulStop |> <| lc_phase := ShuttingMetrics |>
       else s <| lc_runCtxDone := true |> <| lc_phase := Withdrawing |>)
| rs_metrics_down s : lc_phase s = ShuttingMetrics -> sv_active (lc_metrics s) = 0%nat ->
    run_step h true s (s <| lc_phase := Withdrawing |>)
| rs_withdraws s : lc_phase s = Withdrawing ->
    run_step h true s (s <| lc_ready := false |> <| lc_readiness := false |>
                         <| lc_stopper := [peerEndpoint; clientEndpoint] |> <| lc_phase := Stopping |>)
| rs_stopped s : lc_phase s = Stopping -> lc_stopper s = [] -> run_step h true s (s <| lc_phase := AwaitingServers |>)
| rs_grace_over s : lc_phase s = Stopping ->
    run_step h true s (s <| lc_peer ::= forcedStop |> <| lc_client ::= forcedStop |> <| lc_phase := Joining |>)
| rs_joined s : lc_phase s = Joining -> lc_stopper s = [] -> run_step h true s (s <| lc_phase := AwaitingServers |>)
| rs_waited s : lc_phase s = AwaitingServers -> allDone s = true -> run_step h true s (s <| lc_phase := Unwinding |>)
| rs_unwinds r rest order s : lc_phase s = Unwinding -> lc_defers s = r :: rest ->
    Permutation order (elements (tr_clients (nd_transport (lc_process s)))) ->
    run_step h true s (release h order r s <| lc_defers := rest |>)
| rs_returns s : lc_phase s = Unwinding -> lc_defers s = [] -> run_step h true s (s <| lc_phase := Returned |>)
(* the goroutine of stopServers *)
| rs_stops on rest s : lc_stopper s = on :: rest -> sv_stopped (serverOf on s) = false ->
    run_step h true s (updateServer on gracefulStop s)
| rs_server_stopped on rest s : lc_stopper s = on :: rest -> sv_stopped (serverOf on s) = true ->
    sv_active (serverOf on s) = 0%nat -> run_step h true s (s <| lc_stopper := rest |>).

(** An execution with the owners of its steps. *)
Inductive run_trace (h : host) : list bool -> lifecycle -> lifecycle -> Prop :=
| rt_here s : run_trace h [] s s
| rt_step own l s s1 s2 : run_step h own s s1 -> run_trace h l s1 s2 -> run_trace h (own :: l) s s2.
End Codec.

(** ** Case analysis *)

(** How far [Run] is. *)
Definition stage (p : phase) : nat :=
  match p with
  | Selecting => 0 | Cancelling => 1 | ShuttingMetrics => 2 | Withdrawing => 3 | Stopping => 4
  | Joining => 5 | AwaitingServers => 6 | Unwinding => 7 | Returned => 8
  end.

Definition within (lo hi : nat) (s : lifecycle) : bool :=
  (lo <=? stage (lc_phase s))%nat && (stage (lc_phase s) <=? hi)%nat.

Ltac life_rewrite :=
  repeat match goal with
  | H : sv_routine (_ _) = _ |- _ => rewrite H in *
  | H : lc_raft _ = _ |- _ => rewrite H in *
  | H : lc_phase _ = _ |- _ => rewrite H in *
  | H : lc_errors _ = _ |- _ => rewrite H in *
  | H : lc_hasMetrics _ = _ |- _ => rewrite H in *
  | H : lc_stopper _ = _ |- _ => rewrite H in *
  end; cbn in *.

(** Uses the parts of the invariant that apply. *)
Ltac life_auto :=
  unfold within in *; intros; life_rewrite;
  repeat match goal with
  | H : ?x = ?x -> _ |- _ => specialize (H eq_refl)
  | H : false = true -> _ |- _ => clear H
  | H : true = false -> _ |- _ => clear H
  | H : ?P -> _, H' : ?P |- _ => specialize (H H')
  | H : _ /\ _ |- _ => destruct H
  end; rewrite ?length_app in *; cbn in *; first [done | lia | congruence | tauto].

(** The steps, with the endpoint, the presence of a metrics server and the released resource named. *)
Ltac life_cases Hst :=
  destruct Hst;
  try match goal with on : endpoint |- _ => destruct on end; cbn [serverOf updateServer] in *;
  try match goal with |- context [if lc_hasMetrics ?s then _ else _] => destruct (lc_hasMetrics s) eqn:? end;
  try match goal with r : resource |- _ => destruct r; cbn [release closeState] end.

(** ** The invariant *)

Section Invariant.
Context `{CheckpointCodec}.

Definition count (b : bool) : nat := if b then 1 else 0.

(** The goroutines that may still send an error. *)
Definition senders (s : lifecycle) : nat :=
  count (working (sv_routine (lc_peer s))) + count (working (sv_routine (lc_client s)))
  + count (working (sv_routine (lc_metrics s))) + count (working (lc_raft s)).

Definition quiet (v : server) : Prop := sv_stopped v = true /\ sv_active v = 0%nat.

(** Every goroutine sends at most one error. *)
Record counted (s : lifecycle) : Prop := {
  ct_senders : within 0 6 s = true ->
    (length (lc_errors s) + senders s + count (bool_decide (is_Some (lc_error s))) <= 3 + count (lc_hasMetrics s))%nat;
  ct_done : within 7 8 s = true -> senders s = 0%nat;
  ct_metrics : lc_hasMetrics s = false -> sv_routine (lc_metrics s) = Unstarted }.

(** What the Node announces and why it stops. *)
Record announced (s : lifecycle) : Prop := {
  an_ready : lc_ready s = true -> within 0 3 s = true;
  an_readiness : lc_readiness s = lc_ready s;
  an_reason : within 1 8 s = true -> lc_error s = None -> lc_ctxDone s = true;
  an_canceled : within 2 6 s = true -> lc_runCtxDone s = true;
  an_metrics : lc_hasMetrics s = false -> lc_phase s <> ShuttingMetrics }.

(** The servers that have been stopped. *)
Record hushed (s : lifecycle) : Prop := {
  hu_shutting : lc_hasMetrics s = true -> within 2 8 s = true -> sv_stopped (lc_metrics s) = true;
  hu_metrics : lc_hasMetrics s = true -> within 3 8 s = true -> quiet (lc_metrics s);
  hu_peer : within 4 6 s = true -> lc_stopper s <> [peerEndpoint; clientEndpoint] -> quiet (lc_peer s);
  hu_client : within 4 6 s = true -> lc_stopper s = [] -> quiet (lc_client s);
  hu_forced : lc_phase s = Joining -> quiet (lc_peer s) /\ quiet (lc_client s);
  hu_unstarted : within 0 3 s = true -> lc_stopper s = [];
  hu_joined : within 6 8 s = true -> lc_stopper s = [];
  hu_stopper : lc_stopper s = [peerEndpoint; clientEndpoint] \/ lc_stopper s = [clientEndpoint] \/ lc_stopper s = [] }.

(** What is held open, and what will close it. *)
Record held_open (s : lifecycle) : Prop := {
  ho_listeners on : on ∈ lc_listening s -> listenerOf on ∈ lc_defers s;
  ho_transport : working (lc_raft s) = true -> peerConnections ∈ lc_defers s;
  ho_peers : peerConnections ∉ lc_defers s ->
    forall id, id ∈ tr_clients (nd_transport (lc_process s)) -> id ∈ lc_hungUp s;
  ho_state : within 0 6 s = true -> consensusState ∈ lc_defers s;
  ho_closed : consensusState ∉ lc_defers s -> w_open (rt_wal (nd_runtime (lc_process s))) = false;
  ho_released : lc_phase s = Returned -> lc_defers s = [] }.

Record orderly (s : lifecycle) : Prop := {
  od_counted : counted s; od_announced : announced s; od_hushed : hushed s; od_open : held_open s }.

(** Where [start] can end. *)
Ltac start_cases :=
  unfold start, abandon, serving, idleServer; destruct (openNode _ _ _ _) as [p|] eqn:Ho; [|done]; cbn zeta;
  destruct (ho_listen _ _); [intros [= <-]|destruct (ho_listen _ _);
    [intros [= <-]|destruct (metricsEnabled _); [destruct (ho_listen _ _)|]; intros [= <-]]].

Lemma start_held_open h cfg observing segments dataDir s :
  start h cfg observing segments dataDir = Ok s -> held_open s.
Proof.
  start_cases; apply opened in Ho as (runtime & found & id & ps & recovered & -> & _);
    (split; cbn; [set_solver|intros; set_solver|
       intros _ i Hi; by apply elem_of_empty in Hi|try done; set_solver|intros Hn; exfalso; apply Hn; set_solver|done]).
Qed.

Lemma life_started h cfg observing segments dataDir s :
  start h cfg observing segments dataDir = Ok s -> orderly s.
Proof.
  intros Hs. pose proof (start_held_open _ _ _ _ _ _ Hs) as Hop. revert Hs Hop.
  start_cases; (intros Hop; split; [..|exact Hop]; split; cbn; unfold senders, quiet; cbn; try done; try lia; try set_solver).
Qed.

Lemma firstError_none a b : firstError a b = None -> a = None.
Proof. by destruct a. Qed.

Lemma closeState_closed h p : w_open (rt_wal (nd_runtime (snd (closeState h p)))) = false.
Proof. by destruct p as [? [] ]. Qed.

Lemma allDone_senders s : allDone s = true -> senders s = 0%nat.
Proof.
  unfold allDone, senders. intros Hd%negb_true_iff. repeat apply orb_false_elim in Hd as [Hd ?].
  by repeat match goal with H : working _ = false |- _ => rewrite H; clear H end.
Qed.

Lemma step_counted h own s s' : counted s -> run_step h own s s' -> counted s'.
Proof.
  intros [Hs Hd Hm] Hst. life_cases Hst.
  all: try match goal with H : allDone _ = true |- _ => apply allDone_senders in H end.
  all: unfold senders in *; try (split; assumption).
  all: split; unfold senders; cbn; life_auto.
Qed.

Lemma step_announced h own s s' : announced s -> run_step h own s s' -> announced s'.
Proof.
  intros [Hr Hrd Hre Hc Hm] Hst. life_cases Hst.
  all: try (split; assumption).
  all: split; cbn; first [assumption | intros ? ?%firstError_none; by apply Hre | life_auto].
Qed.

Lemma step_hushed h own s s' : hushed s -> run_step h own s s' -> hushed s'.
Proof.
  intros [Hsh Hm Hp Hc Hf Hu Hj Hs] Hst. life_cases Hst.
  all: try (split; assumption).
  all: try match goal with H : lc_stopper _ = _ :: _ |- _ => destruct Hs as [Hs|[Hs|Hs]]; rewrite Hs in H; simplify_eq end.
  all: unfold quiet in *; split; unfold quiet; cbn; try assumption; try life_auto.
  intros Hw _. apply Hp; [exact Hw|]. by rewrite Hs.
Qed.

(** While a goroutine is at work the write-ahead log is not closed. *)
Lemma working_open s : counted s -> held_open s -> senders s <> 0%nat -> consensusState ∈ lc_defers s.
Proof.
  intros [_ Hd _] Hop Hr. pose proof (ho_state s Hop) as Hs. unfold within in *. destruct (lc_phase s); cbn in *; auto; by destruct Hr; apply Hd.
Qed.

Lemma raft_sends s : lc_raft s = AtWork -> senders s <> 0%nat.
Proof. unfold senders. intros ->. cbn. lia. Qed.

Lemma step_listeners h own s s' :
  (forall on, on ∈ lc_listening s -> listenerOf on ∈ lc_defers s) -> run_step h own s s' ->
  forall on, on ∈ lc_listening s' -> listenerOf on ∈ lc_defers s'.
Proof.
  intros Hl Hst. life_cases Hst; cbn [lc_listening lc_defers closeListener set_with] in *; try exact Hl.
  all: try (match goal with on : endpoint |- _ => destruct on end).
  all: intros on'; cbn; rewrite ?list_elem_of_filter; intros Hin; try (by apply Hl, Hin).
  all: match goal with H : lc_defers _ = _ :: _ |- _ => rewrite H in Hl end.
  all: destruct (proj1 (elem_of_cons _ _ _) (Hl on' ltac:(tauto))) as [Heq|]; [|done]; simplify_eq; by destruct Hin.
Qed.

Lemma step_transport h own s s' : counted s ->
  (working (lc_raft s) = true -> peerConnections ∈ lc_defers s) -> run_step h own s s' ->
  working (lc_raft s') = true -> peerConnections ∈ lc_defers s'.
Proof.
  intros [_ Hd _] Ht Hst. life_cases Hst; cbn; life_rewrite; try done; try (by intros _; apply Ht).
  all: intros Hw; exfalso; unfold within, senders in Hd; life_rewrite; specialize (Hd eq_refl); rewrite Hw in Hd; cbn in Hd; lia.
Qed.

Lemma closed_transport h p : nd_transport (snd (closeState h p)) = nd_transport p.
Proof. by destruct p as [? [] ]. Qed.

Lemma step_peers h own s s' : held_open s -> run_step h own s s' ->
  peerConnections ∉ lc_defers s' -> forall id, id ∈ tr_clients (nd_transport (lc_process s')) -> id ∈ lc_hungUp s'.
Proof.
  intros [_ Ht Hp _ _ _] Hst. destruct Hst; try match goal with on : endpoint |- _ => destruct on end; cbn; try exact Hp.
  all: try (intros Hn; exfalso; apply Hn, Ht; life_rewrite; done).
  - destruct (lc_hasMetrics s); exact Hp.
  - intros Hn id Hid. destruct r; cbn in *;
      try (apply Hp; [rewrite H1; apply not_elem_of_cons; by split|done]).
    rewrite H2. by apply elem_of_elements.
Qed.

Lemma step_held_open h own s s' : counted s -> held_open s -> run_step h own s s' -> held_open s'.
Proof.
  intros Hct Hop Hst. pose proof (step_listeners _ _ _ _ (ho_listeners s Hop) Hst) as H1.
  pose proof (step_transport _ _ _ _ Hct (ho_transport s Hop) Hst) as H2. pose proof (step_peers _ _ _ _ Hop Hst) as H3.
  split; [exact H1|exact H2|exact H3|..]; clear H1 H2 H3; pose proof Hop as [_ _ _ Hs Hc Hr]; life_cases Hst;
    cbn; try assumption; try life_auto.
  all: try (intros []; by apply working_open, raft_sends).
  all: intros Hn; apply Hc; match goal with H : lc_defers _ = _ |- _ => rewrite H end; apply not_elem_of_cons; by split.
Qed.

Lemma life_step_orderly h own s s' : orderly s -> run_step h own s s' -> orderly s'.
Proof.
  intros [Hc Ha Hh Ho] Hst. split; eauto using step_counted, step_announced, step_hushed, step_held_open.
Qed.

Lemma trace_orderly h l s s' : orderly s -> run_trace h l s s' -> orderly s'.
Proof. intros Hok Ht. induction Ht; eauto using life_step_orderly. Qed.
End Invariant.
