(* ===== verification/NodeRunProps.v ===== *)
(** Guarantees of the life of a Node process: what [Run] leaves behind when it returns, that a
    shutdown comes to an end, and the two situations in which it does not. *)

From S2P Require Import Prelude Bytes Wal WalJson RaftTypes RaftCore Runtime Config Peer Transport SnapshotFile NodeLoop NodeLoopProps NodeLoopInvariants NodeRun.

Section Codec.
Context `{CheckpointCodec}.

(** ** A bound on the work *)

Definition rank (p : phase) : nat :=
  match p with
  | Selecting => 12 | Cancelling => 11 | ShuttingMetrics => 10 | Withdrawing => 9 | Stopping => 4
  | Joining => 3 | AwaitingServers => 2 | Unwinding => 1 | Returned => 0
  end.

Definition effort (r : routine) : nat := match r with AtWork => 2 | Reporting _ => 1 | _ => 0 end.

Definition stopEffort (s : lifecycle) : nat :=
  list_sum (map (fun on => if sv_stopped (serverOf on s) then 1 else 2)%nat (lc_stopper s)).

(** The steps the goroutines can still take. *)
Definition work (s : lifecycle) : nat :=
  rank (lc_phase s) + length (lc_defers s) + effort (sv_routine (lc_peer s)) + effort (sv_routine (lc_client s))
  + effort (sv_routine (lc_metrics s)) + effort (lc_raft s) + stopEffort s.

Lemma count_le b : (count b <= 1)%nat.
Proof. destruct b; cbn; lia. Qed.

Ltac work_auto :=
  repeat match goal with
  | H : lc_defers _ = _ |- _ => rewrite H in *
  | H : sv_stopped _ = _ |- _ => rewrite H in *
  end; life_rewrite; cbn in *; try lia.

Lemma step_work h own s s' : orderly s -> run_step h own s s' -> (work s' + count own <= work s)%nat.
Proof.
  intros [_ _ [_ _ _ _ _ _ _ Hs] _] Hst. unfold work, stopEffort. life_cases Hst; cbn.
  all: destruct Hs as [Hs|[Hs|Hs]]; rewrite ?Hs; cbn; try lia.
  all: try match goal with |- context [count ?b] => pose proof (count_le b) end.
  all: try (work_auto; done).
  all: try match goal with H : lc_stopper _ = _ :: _ |- _ => rewrite Hs in H; simplify_eq; cbn end.
  all: try match goal with |- context [sv_stopped (lc_peer ?s)] => destruct (sv_stopped (lc_peer s)) eqn:? end.
  all: try match goal with |- context [sv_stopped (lc_client ?s)] => destruct (sv_stopped (lc_client s)) eqn:? end.
  all: work_auto; done.
Qed.

Lemma trace_work h l s s' : orderly s -> run_trace h l s s' ->
  (work s' + length (filter (fun own => own = true) l) <= work s)%nat.
Proof.
  intros Hok Ht. induction Ht as [|own l s s1 s2 Hst Ht IH]; [cbn; lia|].
  pose proof (step_work _ _ _ _ Hok Hst). specialize (IH (life_step_orderly _ _ _ _ Hok Hst)).
  rewrite filter_cons. destruct own; case_decide; try done; cbn in *; lia.
Qed.

Lemma start_work h cfg observing segments dataDir s : start h cfg observing segments dataDir = Ok s -> (work s <= 27)%nat.
Proof.
  unfold start, abandon, serving, idleServer. destruct (openNode _ _ _ _) as [p|]; [|done]. cbn zeta.
  destruct (ho_listen _ _); [intros [= <-]|destruct (ho_listen _ _);
    [intros [= <-]|destruct (metricsEnabled _); [destruct (ho_listen _ _)|]; intros [= <-]]]; cbn; lia.
Qed.

(** ** Progress *)

(** The Raft loop has recovered its state or never will. *)
Definition settled (s : lifecycle) : Prop := lc_raft s = AtWork -> lc_entered s = true.

Definition leaving (s : lifecycle) : Prop := lc_phase s <> Selecting.

Lemma step_settled h own s s' : settled s -> run_step h own s s' -> settled s'.
Proof. intros Hs Hst. unfold settled in *. life_cases Hst; cbn in *; (assumption || done || by intros). Qed.

Lemma step_leaving h own s s' : leaving s -> run_step h own s s' -> leaving s'.
Proof. intros Hs Hst. unfold leaving in *. life_cases Hst; cbn in *; (assumption || congruence). Qed.

(** What can hold up a shutdown: a metrics request in progress, or an error that nobody receives. *)
Definition held_up (s : lifecycle) : Prop :=
  lc_hasMetrics s = true /\
  (lc_phase s = ShuttingMetrics /\ sv_active (lc_metrics s) <> 0%nat \/
   lc_phase s = AwaitingServers /\ length (lc_errors s) = serveErrorsCapacity /\ lc_error s = None).

Lemma loop_stops env p : exists p', round env Stop p = (Err stopped, p').
Proof. unfold round, iterate. cbn. by eexists. Qed.

(** An error can be sent or the shutdown is held up. *)
Lemma room_or_held s : orderly s -> lc_phase s = AwaitingServers -> senders s <> 0%nat ->
  (length (lc_errors s) < serveErrorsCapacity)%nat \/ held_up s.
Proof.
  intros [[Hs _ _] _ _ _] Hp Hn. unfold held_up, within in *. rewrite Hp in *. specialize (Hs eq_refl).
  unfold serveErrorsCapacity. destruct (decide (length (lc_errors s) < 3)%nat) as [|Hf]; [by left|]. right.
  destruct (lc_hasMetrics s), (lc_error s); cbn in Hs; try lia. split; [done|]. right. split; [done|]. split; [lia|done].
Qed.

Lemma awaiting_quiet s on : orderly s -> lc_phase s = AwaitingServers -> working (sv_routine (serverOf on s)) = true ->
  quiet (serverOf on s).
Proof.
  intros [[_ _ Hm] _ [_ Hq Hp Hc _ _ Hj _] _] Hph Hw. unfold within in *. rewrite Hph in *. specialize (Hj eq_refl).
  rewrite Hj in *. destruct on; cbn in *.
  - by apply Hp.
  - by apply Hc.
  - destruct (lc_hasMetrics s); [by apply Hq|]. by rewrite Hm in Hw.
Qed.

Lemma server_ends h s on : orderly s -> lc_phase s = AwaitingServers -> working (sv_routine (serverOf on s)) = true ->
  (exists s', run_step h true s s') \/ held_up s.
Proof.
  intros Hok Hph Hw. destruct (awaiting_quiet s on Hok Hph Hw) as [Hst Hac].
  destruct (sv_routine (serverOf on s)) as [| |e|] eqn:Hr; try done.
  - left. pose proof (rs_serve_returns h on s Hr Hst) as Hstep. rewrite Hac in Hstep. by eexists.
  - destruct (room_or_held s Hok Hph) as [Hroom|]; [|left; eexists; by eapply rs_reports|by right].
    destruct on; cbn in Hr; unfold senders; rewrite Hr; cbn; lia.
Qed.

Lemma raft_ends h s : orderly s -> settled s -> lc_phase s = AwaitingServers -> working (lc_raft s) = true ->
  (exists s', run_step h true s s') \/ held_up s.
Proof.
  intros Hok Hset Hph Hw. destruct (lc_raft s) as [| |e|] eqn:Hr; try done.
  - left. destruct (loop_stops sampleEnv (lc_process s)) as [p' Hp].
    eexists. eapply rs_loop_stops; [done|by apply Hset| |done].
    destruct Hok as [_ [_ _ _ Hc _] _ _]. apply Hc. unfold within. by rewrite Hph.
  - destruct (room_or_held s Hok Hph) as [Hroom|]; [|left; eexists; by eapply rs_raft_reports|by right].
    unfold senders. rewrite Hr. cbn. lia.
Qed.

Lemma leaving_progress h s : orderly s -> settled s -> leaving s -> lc_phase s <> Returned ->
  (exists s', run_step h true s s') \/ held_up s.
Proof.
  intros Hok Hset Hl Hnr. destruct (lc_phase s) eqn:Hph; try done.
  - left. eexists. by apply rs_cancels.
  - destruct (decide (sv_active (lc_metrics s) = 0%nat)) as [Ha|Ha]; [left; eexists; by apply rs_metrics_down|].
    right. split; [|by left]. destruct (lc_hasMetrics s) eqn:Hm; [done|]. destruct Hok as [_ [_ _ _ _ Hn] _ _]. by destruct (Hn Hm).
  - left. eexists. by apply rs_withdraws.
  - left. eexists. by apply rs_grace_over.
  - left. destruct Hok as [_ _ [_ _ _ _ Hf _ _ Hs] _]. destruct (Hf Hph) as [[Hp1 Hp2] [Hc1 Hc2]].
    destruct Hs as [Hs|[Hs|Hs]]; [| |eexists; by apply rs_joined]; eexists; by eapply rs_server_stopped.
  - destruct (allDone s) eqn:Hd; [left; eexists; by apply rs_waited|].
    unfold allDone in Hd. apply negb_false_iff in Hd. repeat apply orb_prop in Hd as [Hd|Hd].
    + by apply (server_ends h s peerEndpoint).
    + by apply (server_ends h s clientEndpoint).
    + by apply (server_ends h s metricsEndpoint).
    + by apply raft_ends.
  - left. destruct (lc_defers s) as [|r rest] eqn:Hdf; eexists; [by apply rs_returns|by eapply rs_unwinds].
Qed.

Lemma start_metrics h cfg observing segments dataDir s :
  start h cfg observing segments dataDir = Ok s -> metricsEnabled cfg = false -> lc_hasMetrics s = false.
Proof.
  unfold start, abandon, serving. destruct (openNode _ _ _ _) as [p|]; [|done]. cbn zeta.
  destruct (ho_listen _ _); [by intros [= <-]|]. destruct (ho_listen _ _); [by intros [= <-]|]. intros Hs Hm.
  rewrite Hm in Hs. by injection Hs as <-.
Qed.

Lemma step_metrics h own s s' : run_step h own s s' -> lc_hasMetrics s' = lc_hasMetrics s.
Proof. intros Hst. life_cases Hst; cbn; congruence. Qed.

(** On the way out, with nothing in the way. *)
Record departing (s : lifecycle) : Prop := {
  dp_orderly : orderly s; dp_settled : settled s; dp_leaving : leaving s; dp_plain : lc_hasMetrics s = false }.

Lemma step_departing h own s s' : departing s -> run_step h own s s' -> departing s'.
Proof.
  intros [Ho Hs Hl Hm] Hst. split; [by eapply life_step_orderly|by eapply step_settled|by eapply step_leaving|].
  by rewrite (step_metrics _ _ _ _ Hst).
Qed.

Lemma departing_progress h s : departing s -> lc_phase s = Returned \/ exists s', run_step h true s s'.
Proof.
  intros [Ho Hs Hl Hm]. destruct (decide (lc_phase s = Returned)) as [|Hr]; [by left|]. right.
  destruct (leaving_progress h s Ho Hs Hl Hr) as [|[Hheld _]]; [done|congruence].
Qed.

(** Steps of the shutdown alone lead to the return. *)
Lemma departing_returns h s : departing s -> exists n s',
  (n <= work s)%nat /\ run_trace h (replicate n true) s s' /\ lc_phase s' = Returned.
Proof.
  remember (work s) as k eqn:Hk. revert s Hk. induction (lt_wf k) as [k _ IH]. intros s -> Hd.
  destruct (departing_progress h s Hd) as [Hr|[s1 Hst]]; [exists 0%nat, s; split_and!; [lia|constructor|done]|].
  pose proof (step_work _ _ _ _ (dp_orderly s Hd) Hst) as Hw. cbn in Hw.
  destruct (IH (work s1) ltac:(lia) s1 eq_refl (step_departing _ _ _ _ Hd Hst)) as (n & s2 & Hn & Ht & Hr).
  exists (S n), s2. split_and!; [lia| |done]. by eapply rt_step.
Qed.

Section Forever.
Context (h : host) (f : nat -> lifecycle) (own : nat -> bool).
Hypothesis run : forall n, run_step h (own n) (f n) (f (S n)).
Hypothesis starts : departing (f O).

Lemma forever_departing n : departing (f n).
Proof using run starts. induction n as [|n IH]; [done|]. by eapply step_departing. Qed.

Lemma forever_work n m : (n <= m)%nat -> (work (f m) <= work (f n))%nat.
Proof using run starts.
  induction 1 as [|m _ IH]; [lia|]. pose proof (step_work _ _ _ _ (dp_orderly _ (forever_departing m)) (run m)). lia.
Qed.

Lemma fair_returns :
  (forall n, lc_phase (f n) <> Returned -> exists m, (n <= m)%nat /\ own m = true) -> exists n, lc_phase (f n) = Returned.
Proof using run starts.
  intros Hfair. enough (forall k n, (work (f n) <= k)%nat -> exists m, lc_phase (f m) = Returned) as Hk by by eapply (Hk _ O).
  induction k as [|k IH]; intros n Hn; (destruct (decide (lc_phase (f n) = Returned)) as [|Hr]; [by exists n|]);
    destruct (Hfair n Hr) as (m & Hm & Hown); pose proof (forever_work n m Hm);
    pose proof (step_work _ _ _ _ (dp_orderly _ (forever_departing m)) (run m)) as Hw; rewrite Hown in Hw; cbn in Hw; [lia|].
  apply (IH (S m)). lia.
Qed.
End Forever.

Lemma trace_app h l l' s s1 s2 : run_trace h l s s1 -> run_trace h l' s1 s2 -> run_trace h (l ++ l') s s2.
Proof. intros Ht Ht'. induction Ht; [done|]. cbn. eauto using rt_step. Qed.

Lemma trace_keeps (P : lifecycle -> Prop) h l s s' :
  (forall own s s', P s -> run_step h own s s' -> P s') -> P s -> run_trace h l s s' -> P s'.
Proof. intros Hp HP Ht. induction Ht; eauto. Qed.
End Codec.

(** ** Concrete runs *)

Section Runs.
Context `{CheckpointCodec}.

Definition sampleHost : host := mkHost (fun _ => None) (fun _ => None) None.

Definition plainDefers : list resource :=
  [peerConnections; runContext; listenerOf clientEndpoint; listenerOf peerEndpoint; consensusState].
Definition meteredDefers : list resource :=
  [peerConnections; runContext; metricsHTTP; listenerOf metricsEndpoint; listenerOf clientEndpoint; listenerOf peerEndpoint;
   consensusState].

Definition plainListening : list endpoint := [clientEndpoint; peerEndpoint].
Definition meteredListening : list endpoint := [metricsEndpoint; clientEndpoint; peerEndpoint].

(** The same Node with an endpoint for its metrics. *)
Definition meteredConfig : Config :=
  mkConfig 1 "ternion" 4 0 (mkNodeConfig "n1" "/data" "127.0.0.1:9100") (cf_Members (sampleConfig "n1")).

(** Every peer answers the handshake for another Cluster. *)
Definition strangeEnv : environment :=
  mkEnv (fun _ => false)
    (mkGrpc (fun _ => true) (fun _ id _ => Ok (mkHandshakeResponse peerProtocolVersion "elsewhere" id 8)) (fun _ _ _ => Ok tt))
    ["1"] (fun _ => succeeds) 100.

Lemma sample_started : exists p p1,
  start sampleHost (sampleConfig "n1") false [] ∅ =
    Ok (serving p false plainDefers plainListening) /\
  startLoop sampleEnv p = (Ok tt, p1).
Proof.
  assert (Hc : match openNode (sampleConfig "n1") false [] ∅ with
               | Ok p => match startLoop sampleEnv p with (Ok tt, _) => true | _ => false end
               | Err _ => false end = true) by (vm_compute; reflexivity).
  unfold start. destruct (openNode _ _ _ _) as [p|]; [|discriminate Hc].
  destruct (startLoop sampleEnv p) as [[[]|] p1] eqn:Hs; [|discriminate Hc]. by exists p, p1.
Qed.

Lemma metered_started : exists p p1 e p2,
  start sampleHost meteredConfig false [] ∅ =
    Ok (serving p true meteredDefers meteredListening) /\
  startLoop sampleEnv p = (Ok tt, p1) /\ ready ElectionTimer p1 = true /\
  round strangeEnv ElectionTimer p1 = (Err e, p2) /\ returns e = true.
Proof.
  assert (Hc : match openNode meteredConfig false [] ∅ with
               | Ok p => match startLoop sampleEnv p with
                         | (Ok tt, p1) => ready ElectionTimer p1 &&
                             match round strangeEnv ElectionTimer p1 with (Err e, _) => returns e | _ => false end
                         | _ => false end
               | Err _ => false end = true) by (vm_compute; reflexivity).
  unfold start. destruct (openNode _ _ _ _) as [p|]; [|discriminate Hc].
  destruct (startLoop sampleEnv p) as [[[]|] p1] eqn:Hs; [|discriminate Hc]. apply andb_prop in Hc as [Hr Hc].
  destruct (round strangeEnv ElectionTimer p1) as [[?|e] p2] eqn:He; [discriminate Hc|]. by exists p, p1, e, p2.
Qed.

Ltac life_step rule := eapply rt_step; [eapply rule; try reflexivity|cbn].

(** An interrupted Node without metrics shuts down by itself. *)
Lemma interrupted_run p p1 : startLoop sampleEnv p = (Ok tt, p1) -> exists l s1 l' s2,
  run_trace sampleHost l
    (serving p false plainDefers plainListening) s1 /\
  lc_phase s1 = Cancelling /\ settled s1 /\ run_trace sampleHost l' s1 s2 /\ lc_phase s2 = Returned.
Proof.
  intros Hs. destruct (loop_stops sampleEnv p1) as [p2 Hp]. do 4 eexists. split.
  { life_step rs_entered; [exact Hs|]. life_step rs_interrupted. life_step rs_canceled. apply rt_here. }
  split; [reflexivity|]. split; [by intros _|]. split.
  - life_step rs_cancels. life_step (rs_loop_stops sampleHost sampleEnv). life_step rs_withdraws.
    life_step rs_stops. life_step rs_server_stopped. life_step rs_stops. life_step rs_server_stopped.
    life_step rs_stopped. life_step (rs_serve_returns sampleHost peerEndpoint). life_step (rs_serve_returns sampleHost clientEndpoint).
    life_step rs_waited. do 5 life_step rs_unwinds. life_step rs_returns. apply rt_here.
  - reflexivity.
Qed.

(** A metrics request that does not end keeps [Run] in [Shutdown]. *)
Lemma metered_hold p p1 defers listening : startLoop sampleEnv p = (Ok tt, p1) -> exists l s,
  run_trace sampleHost l (serving p true defers listening) s /\ lc_phase s = ShuttingMetrics /\ lc_raft s = Ended /\
  lc_ctxDone s = true /\ lc_ready s = true /\ lc_readiness s = true /\ forall h s', ~ run_step h true s s'.
Proof.
  intros Hs. destruct (loop_stops sampleEnv p1) as [p2 Hp]. do 2 eexists. split.
  { life_step rs_entered; [exact Hs|]. life_step (rs_called sampleHost metricsEndpoint). life_step rs_interrupted.
    life_step rs_canceled. life_step rs_cancels. life_step (rs_loop_stops sampleHost sampleEnv). apply rt_here. }
  do 5 (split; [reflexivity|]). intros h s' Hst. cbn in Hst. inversion Hst; subst; try discriminate;
    match goal with on : endpoint |- _ => destruct on; discriminate end.
Qed.

(** An error that waits for a full channel waits for ever. *)
Definition jammed (s : lifecycle) : Prop :=
  lc_phase s = AwaitingServers /\ length (lc_errors s) = serveErrorsCapacity /\ exists e, lc_raft s = Reporting e.

Lemma step_jammed h own s s' : jammed s -> run_step h own s s' -> jammed s'.
Proof.
  intros (Hp & He & e & Hr) Hst. unfold jammed, allDone in *. life_cases Hst; cbn in *; try congruence; try lia;
    rewrite ?Hr in *; eauto.
  match goal with H : allDone _ = true |- _ => apply allDone_senders in H; unfold senders in H; rewrite Hr in H; cbn in H; lia end.
Qed.

Lemma metered_jam p p1 e p2 defers listening : startLoop sampleEnv p = (Ok tt, p1) -> ready ElectionTimer p1 = true ->
  round strangeEnv ElectionTimer p1 = (Err e, p2) -> returns e = true ->
  exists l s, run_trace sampleHost l (serving p true defers listening) s /\ jammed s.
Proof.
  intros Hs Hrd Hr He. do 2 eexists. split.
  { life_step rs_entered; [exact Hs|]. life_step (rs_serve_fails sampleHost peerEndpoint "accept"). life_step (rs_reports sampleHost peerEndpoint).
    { cbn. unfold serveErrorsCapacity. lia. }
    life_step (rs_serve_fails sampleHost clientEndpoint "accept"). life_step (rs_reports sampleHost clientEndpoint).
    { cbn. unfold serveErrorsCapacity. lia. }
    life_step (rs_serve_fails sampleHost metricsEndpoint "accept"). life_step (rs_reports sampleHost metricsEndpoint).
    { cbn. unfold serveErrorsCapacity. lia. }
    life_step rs_round_fails; [exact Hrd|done|exact Hr|exact He|]. life_step rs_interrupted. life_step rs_canceled.
    life_step rs_cancels. life_step rs_metrics_down. life_step rs_withdraws. life_step rs_grace_over.
    life_step rs_server_stopped. life_step rs_server_stopped. life_step rs_joined. apply rt_here. }
  split; [reflexivity|]. split; [reflexivity|]. by eexists.
Qed.
End Runs.

(** ** The guarantees *)

(** C26: what [Run] leaves behind, once it has opened the Node's state (a [Run] that cannot returns at
    once, with that error).  When it returns, whether it could not listen, something failed or it was
    interrupted, every goroutine it waits for has ended, no listener it opened is still open, every
    connection to a peer has been closed and so has the write-ahead log, the Node does not call itself
    ready, and [Run] returns no error only if it was interrupted.  And as long as one of its goroutines
    works, the write-ahead log is not closed. *)
Theorem run_leaves_nothing_behind `{CheckpointCodec} h cfg observing segments dataDir s0 l s :
  start h cfg observing segments dataDir = Ok s0 -> run_trace h l s0 s ->
  (senders s <> 0%nat -> consensusState ∈ lc_defers s) /\
  (lc_phase s = Returned -> senders s = 0%nat /\ lc_listening s = [] /\
    (forall id, id ∈ tr_clients (nd_transport (lc_process s)) -> id ∈ lc_hungUp s) /\
    w_open (rt_wal (nd_runtime (lc_process s))) = false /\
    lc_ready s = false /\ lc_readiness s = false /\ (lc_error s = None -> lc_ctxDone s = true)).
Proof.
  intros Hs Ht. apply life_started in Hs. destruct (trace_orderly h l s0 s Hs Ht) as [Hc Ha _ Ho].
  split; [by apply working_open|]. intros Hp. destruct Hc as [_ Hd _], Ha as [Hr Hrd Hre _ _], Ho as [Hli _ Hpe _ Hcl Hdf].
  unfold within in *. rewrite Hp in *. specialize (Hdf eq_refl). rewrite Hdf in *.
  assert (lc_ready s = false) as Hf by (destruct (lc_ready s); [by specialize (Hr eq_refl)|done]).
  split_and!; auto using not_elem_of_nil; [|congruence]. destruct (lc_listening s) as [|on rest]; [done|].
  by destruct (not_elem_of_nil (listenerOf on)); apply Hli, list_elem_of_here.
Qed.

Lemma run_leaves_nothing_behind_witness : exists l s0 s,
  start sampleHost (sampleConfig "n1") false [] ∅ = Ok s0 /\ lc_listening s0 = [clientEndpoint; peerEndpoint] /\
  run_trace sampleHost l s0 s /\ lc_phase s = Returned /\ lc_listening s = [] /\
  w_open (rt_wal (nd_runtime (lc_process s))) = false.
Proof.
  destruct sample_started as (p & p1 & Hst & Hs). destruct (interrupted_run p p1 Hs) as (l & s1 & l' & s2 & H1 & _ & _ & H2 & Hp).
  pose proof (trace_app _ _ _ _ _ _ H1 H2) as Ht. exists (l ++ l'), (serving p false plainDefers plainListening), s2. split; [exact Hst|]. split; [reflexivity|]. split; [exact Ht|]. split; [exact Hp|].
  destruct (run_leaves_nothing_behind sampleHost (sampleConfig "n1") false [] ∅ _ (l ++ l') s2 Hst Ht) as [_ Hret].
  destruct (Hret Hp) as (_ & Hli & _ & Hw & _). split; [exact Hli|exact Hw].
Defined.

(** C25: a shutdown ends.  Take a Node without a metrics endpoint that has begun to leave and whose Raft
    loop has recovered its state, after whatever Clients and peers then do.  Steps of the shutdown are those of
    [Run] and [stopServers], the Raft loop's taking note that it is stopped, servers returning with
    no calls in progress and errors being reported; rounds the Raft loop still takes, Snapshot work and what the
    world does are not counted.  At most 27 steps of the shutdown are ever taken; until [Run] has
    returned one is possible, so neither requests in progress nor errors of the servers hold it up; from
    any point 27 of them at most lead to the return; and [Run] returns in every infinite execution that
    does not put off the shutdown for ever, that is, in which as long as [Run] has not returned some step of
    the shutdown is still taken. *)
Theorem shutdown_ends `{CheckpointCodec} h cfg observing segments dataDir s0 l s l' s' :
  start h cfg observing segments dataDir = Ok s0 -> metricsEnabled cfg = false -> run_trace h l s0 s ->
  lc_phase s <> Selecting -> (lc_raft s = AtWork -> lc_entered s = true) -> run_trace h l' s s' ->
  (length (filter (fun own => own = true) l') <= 27)%nat /\
  (lc_phase s' = Returned \/ exists s'', run_step h true s' s'') /\
  (exists n s'', (n <= 27)%nat /\ run_trace h (replicate n true) s' s'' /\ lc_phase s'' = Returned) /\
  (forall f own, f O = s' -> (forall n, run_step h (own n) (f n) (f (S n))) ->
     (forall n, lc_phase (f n) <> Returned -> exists m, (n <= m)%nat /\ own m = true) ->
     exists n, lc_phase (f n) = Returned).
Proof.
  intros Hs Hm Ht Hl Hset Ht'. pose proof (life_started _ _ _ _ _ _ Hs) as Hok.
  pose proof (start_work _ _ _ _ _ _ Hs) as Hw. pose proof (start_metrics _ _ _ _ _ _ Hs Hm) as Hn.
  pose proof (trace_work _ _ _ _ Hok Ht) as Hw1. pose proof (trace_orderly _ _ _ _ Hok Ht) as Hok1.
  pose proof (trace_work _ _ _ _ Hok1 Ht') as Hw2.
  assert (Hd : departing s').
  { apply (trace_keeps departing h l' s s' (step_departing h)); [|done]. split; [done..|].
    apply (trace_keeps (fun s => lc_hasMetrics s = false) h l s0 s); [|done..].
    intros own x y Hx Hst. by rewrite (step_metrics _ _ _ _ Hst). }
  split_and!; [lia|by apply departing_progress| |].
  - destruct (departing_returns h s' Hd) as (n & s'' & Hle & ? & ?). exists n, s''. split_and!; [lia|done..].
  - intros f own <- Hrun Hfair. by apply (fair_returns h f own).
Qed.

Lemma shutdown_ends_witness : exists l s0 s l' s',
  start sampleHost (sampleConfig "n1") false [] ∅ = Ok s0 /\ run_trace sampleHost l s0 s /\ lc_phase s = Cancelling /\
  run_trace sampleHost l' s s' /\ (length (filter (fun own => own = true) l') <= 27)%nat /\ lc_phase s' = Returned /\
  exists n s'', (n <= 27)%nat /\ run_trace sampleHost (replicate n true) s s'' /\ lc_phase s'' = Returned.
Proof.
  destruct sample_started as (p & p1 & Hst & Hs). destruct (interrupted_run p p1 Hs) as (l & s1 & l' & s2 & H1 & Hc & Hse & H2 & Hp).
  exists l, (serving p false plainDefers plainListening), s1, l', s2.
  split; [exact Hst|]. split; [exact H1|]. split; [exact Hc|]. split; [exact H2|].
  assert (Hl : lc_phase s1 <> Selecting) by (rewrite Hc; discriminate). split; [|split; [exact Hp|]].
  - apply (shutdown_ends sampleHost (sampleConfig "n1") false [] ∅ _ l s1 l' s2 Hst eq_refl H1 Hl Hse H2).
  - apply (shutdown_ends sampleHost (sampleConfig "n1") false [] ∅ _ l s1 [] s1 Hst eq_refl H1 Hl Hse (rt_here _ _)).
Defined.

(** A metrics request holds up a shutdown.  [Run] waits for the requests of the metrics endpoint without a deadline,
    before it withdraws its readiness: as long as one is in progress, an interrupted Node whose Raft loop has ended still
    calls itself ready, and none of its goroutines can take a step. *)
Theorem metrics_request_delays_shutdown : exists l s0 s,
  start sampleHost meteredConfig false [] ∅ = Ok s0 /\ run_trace sampleHost l s0 s /\
  lc_ctxDone s = true /\ lc_raft s = Ended /\ lc_ready s = true /\ lc_readiness s = true /\
  forall h s', ~ run_step h true s s'.
Proof.
  destruct metered_started as (p & p1 & e & p2 & Hst & Hs & _).
  destruct (metered_hold p p1 meteredDefers meteredListening Hs) as (l & s & Ht & _ & Hr & Hc & Hrd & Hrs & Hn).
  exists l. eexists. exists s. split; [exact Hst|]. split; [exact Ht|]. by split_and!.
Qed.

(** [serveErrors] holds three errors and four goroutines send one each.  If all of them fail and [Run] has
    been interrupted, so that it receives none, it never returns. *)
Theorem unreceived_errors_block_shutdown : exists l s0 s,
  start sampleHost meteredConfig false [] ∅ = Ok s0 /\ run_trace sampleHost l s0 s /\
  forall h l' s', run_trace h l' s s' -> lc_phase s' = AwaitingServers.
Proof.
  destruct metered_started as (p & p1 & e & p2 & Hst & Hs & Hrd & Hr & He).
  destruct (metered_jam p p1 e p2 meteredDefers meteredListening Hs Hrd Hr He) as (l & s & Ht & Hj).
  exists l. eexists. exists s. split; [exact Hst|]. split; [exact Ht|]. intros h l' s' Ht'.
  by apply (trace_keeps jammed h l' s s' (step_jammed h)).
Qed.
