(* ===== verification/Acknowledged.v ===== *)
(** What an acknowledgment to a Client means: as long as the Node is the Leader at the end of the
    round that answered, the acknowledged command has taken effect in the replicated
    state.  A Leader that another one replaces in the very round that answers can
    acknowledge a command that is lost. *)

From S2P Require Import Prelude Bytes Wal WalJson RaftTypes RaftCore RaftLog RaftInvariant RaftElection RaftActions RaftAppend Session SessionProps Runtime RuntimeActions Coordinator CoordinatorProps Config Peer SnapshotJson SnapshotFile Transport Metrics NodeLoop NodeLoopProps NodeLoopInvariants NodeLoopHistory Service.

(** ** Effects *)

(** The effect a Client asked for, visible in the replicated state. *)
Definition effected (event : Event) (m : sessionMachine) : Prop :=
  match event with
  | ProposeSession _ EntryOpenSession s => is_Some (sm_sessions m !! s)
  | ProposeSession _ EntryCloseSession s => closedIn m s
  | ProposeSet _ s q _ _ | ProposeDelete _ s q _ => 0 < q /\ q <= lastSequence m s
  | _ => False
  end.

(** Whether entry [x] is the command of [event], or the one it retries. *)
Definition requests (event : Event) (x : LogEntry) : Prop :=
  match event with
  | ProposeSession _ ((EntryOpenSession | EntryCloseSession) as t) s => EType x = t /\ ESessionID x = s
  | ProposeSet _ s q _ _ | ProposeDelete _ s q _ =>
      isMutationEntry x = true /\ ESessionID x = s /\ Sequence x = q
  | _ => False
  end.

Lemma session_kept m e s : is_Some (sm_sessions m !! s) -> is_Some (sm_sessions (apply m e).2 !! s).
Proof.
  intros Hs. destruct (apply_cases m e); cbn; try done;
    (destruct (decide (ESessionID e = s)) as [<-|Hne]; [rewrite lookup_insert_eq|rewrite lookup_insert_ne]; done).
Qed.

Lemma effected_apply event m e : effected event m -> effected event (apply m e).2.
Proof.
  destruct event as [| | | | | | | |id [] s|id s q k v|id s q k| | | | | | | | | |]; cbn; try done;
    rewrite ?apply_lastSequence.
  - apply session_kept.
  - intros Hc. by apply apply_closed.
  - lia.
  - lia.
Qed.

Lemma effected_applyAll event m es : effected event m -> effected event (applyAll m es).
Proof.
  revert m. induction es as [|e es IH]; intros m Hm; [done|]. rewrite applyAll_cons. by apply IH, effected_apply.
Qed.

(** A successful evaluation without application is a duplicate. *)
Lemma duplicate_effected m s q r :
  evaluateMutation m s q = (r, false) -> res_failure r = sessionSucceeded -> 0 < q /\ q <= lastSequence m s.
Proof.
  unfold evaluateMutation, lastSequence, recordOf. destruct (sm_sessions m !! s) as [record|]; [|by intros [= <-]].
  destruct (bool_decide _); [by intros [= <-]|]. destruct (_ && _) eqn:E; [|by repeat case_match; intros [= <-]].
  intros _ _. reflect_bools. cbn. lia.
Qed.

Lemma mutation_effected m x :
  isMutationEntry x = true -> res_failure (apply m x).1 = sessionSucceeded ->
  0 < Sequence x /\ Sequence x <= lastSequence (apply m x).2 (ESessionID x).
Proof.
  intros Hm Hs. destruct (evaluateMutation m (ESessionID x) (Sequence x)) as [r []] eqn:Ee.
  - destruct (evaluate_true _ _ _ _ Ee) as (_ & Hq & _). rewrite apply_lastSequence.
    assert (effective m x = true) as -> by (unfold effective, isMutation, isMutationEntry in *; rewrite Ee; by destruct (EType x)).
    rewrite bool_decide_true by done. cbn. lia.
  - rewrite apply_lastSequence. assert (Hr : res_failure r = sessionSucceeded).
    { unfold apply, isMutationEntry in *. rewrite Ee in Hs. by destruct (EType x). }
    pose proof (duplicate_effected _ _ _ _ Ee Hr). lia.
Qed.

(** An entry that is applied with success has the effect its Client asked for. *)
Lemma success_effected event m x :
  requests event x -> res_failure (apply m x).1 = sessionSucceeded -> effected event (apply m x).2.
Proof.
  destruct event as [| | | | | | | |id [] s|id s q k v|id s q k| | | | | | | | | |]; cbn; try done.
  - intros [Ht <-]. unfold apply. rewrite Ht. destruct (bool_decide _); [done|]. destruct (_ <=? _)%Z; [done|].
    intros _. cbn. rewrite lookup_insert_eq. by eexists.
  - intros [Ht <-]. unfold apply, closedIn. rewrite Ht. destruct (sm_sessions m !! _) as [record|] eqn:E; [|done].
    destruct (bool_decide _); [done|]. intros _. cbn. rewrite lookup_insert_eq. by eexists.
  - intros (Hm & <- & <-). by apply mutation_effected.
  - intros (Hm & <- & <-). by apply mutation_effected.
Qed.

(** ** The entry behind an effect *)

(** Applying entry [x] to [m] has done to [m'] what the entry says. *)
Definition tookEffect (m : sessionMachine) (x : LogEntry) (m' : sessionMachine) : Prop :=
  match EType x with
  | EntryNoOp => False
  | EntryOpenSession => sm_sessions m !! ESessionID x = None /\
      sm_sessions m' = <[ESessionID x := mkSessionRecord sessionActive 0 sessionSucceeded false]> (sm_sessions m) /\
      sm_values m' = sm_values m
  | EntryCloseSession => ~ closedIn m (ESessionID x) /\ closedIn m' (ESessionID x) /\ sm_values m' = sm_values m
  | EntrySet => lastSequence m (ESessionID x) + 1 = Sequence x /\ lastSequence m' (ESessionID x) = Sequence x /\
      sm_values m' = <[Key x := Value x]> (sm_values m)
  | EntryDelete => lastSequence m (ESessionID x) + 1 = Sequence x /\ lastSequence m' (ESessionID x) = Sequence x /\
      sm_values m' = delete (Key x) (sm_values m)
  end.

Lemma mutation_took m x s :
  lastSequence m s < lastSequence (apply m x).2 s ->
  isMutationEntry x = true /\ ESessionID x = s /\ Sequence x = lastSequence m s + 1 /\
  lastSequence (apply m x).2 s = lastSequence m s + 1 /\ tookEffect m x (apply m x).2.
Proof.
  rewrite apply_lastSequence. destruct (effective m x) eqn:He; cbn [andb]; [|lia].
  destruct (bool_decide (ESessionID x = s)) eqn:Hs; [|lia]. apply bool_decide_eq_true in Hs. subst s. intros _.
  pose proof He as [Hm Hv]%andb_prop. destruct (evaluateMutation m (ESessionID x) (Sequence x)) as [r b] eqn:Ee.
  cbn in Hv. subst b. destruct (evaluate_true _ _ _ _ Ee) as (_ & Hq & _).
  unfold tookEffect, isMutationEntry, isMutation in *. rewrite apply_lastSequence, apply_values, He. cbn [andb].
  unfold rawApply. destruct (EType x); try discriminate Hm; split_and!; try done; by rewrite bool_decide_true by done.
Qed.

(** What becomes of a Session that an entry opens or closes. *)
Lemma session_took m x s :
  (EType x = EntryOpenSession /\ ESessionID x = s /\ tookEffect m x (apply m x).2) \/
  (EType x = EntryCloseSession /\ ESessionID x = s /\ tookEffect m x (apply m x).2) \/
  (is_Some (sm_sessions (apply m x).2 !! s) <-> is_Some (sm_sessions m !! s)) /\
  (closedIn (apply m x).2 s <-> closedIn m s).
Proof.
  destruct (decide (ESessionID x = s)) as [<-|Hne].
  2:{ right; right. unfold closedIn. destruct (apply_cases m x); cbn; rewrite ?lookup_insert_ne by done; done. }
  unfold tookEffect, closedIn. destruct (EType x) eqn:Et.
  - right; right. unfold apply. by rewrite Et.
  - unfold apply. rewrite Et. destruct (bool_decide _) eqn:Eb; [by right; right|].
    destruct (_ <=? _)%Z; [by right; right|]. left. cbn. apply bool_decide_eq_false_1, eq_None_not_Some in Eb. by split_and!.
  - unfold apply. rewrite Et. destruct (sm_sessions m !! _) as [record|] eqn:Er; [|by right; right; cbn [snd]; rewrite Er].
    destruct (bool_decide _) eqn:Eb; [by right; right; cbn [snd]; rewrite Er|]. right; left. apply bool_decide_eq_false_1 in Eb.
    cbn. rewrite lookup_insert_eq. split_and!; [done..| |by eexists|done]. intros (r & [= <-] & Hr). done.
  - right; right. by apply mutation_sessions; unfold isMutation; rewrite Et.
  - right; right. by apply mutation_sessions; unfold isMutation; rewrite Et.
Qed.

(** A visible effect is the effect of an entry that was applied. *)
Lemma effect_has_entry event limit es :
  effected event (applyAll (newSessionMachine limit) es) ->
  exists k x, es !! k = Some x /\ requests event x /\
    tookEffect (applyAll (newSessionMachine limit) (take k es)) x (applyAll (newSessionMachine limit) (take (S k) es)).
Proof.
  set (m0 := newSessionMachine limit). induction es as [|x es IH] using rev_ind; intros He.
  { exfalso. destruct event as [| | | | | | | |id [] s|id s q k v|id s q k| | | | | | | | | |]; cbn in He; try done.
    - by destruct He.
    - by destruct He as (r & ? & _).
    - destruct He as [Hq He]. change (q <= 0) in He. lia.
    - destruct He as [Hq He]. change (q <= 0) in He. lia. }
  rewrite applyAll_app in He. set (m := applyAll m0 es) in *. change (applyAll m [x]) with (apply m x).2 in He.
  assert (Hold : effected event m -> exists k y, (es ++ [x]) !! k = Some y /\ requests event y /\
    tookEffect (applyAll m0 (take k (es ++ [x]))) y (applyAll m0 (take (S k) (es ++ [x])))).
  { intros (k & y & Hk & Hy)%IH. exists k, y. pose proof (lookup_lt_Some _ _ _ Hk).
    rewrite lookup_app_l, !take_app_le by lia. done. }
  assert (Hnew : requests event x -> tookEffect m x (apply m x).2 -> exists k y, (es ++ [x]) !! k = Some y /\
    requests event y /\ tookEffect (applyAll m0 (take k (es ++ [x]))) y (applyAll m0 (take (S k) (es ++ [x])))).
  { intros Hr Ht. exists (length es), x. rewrite lookup_app_r, Nat.sub_diag, take_app_length by lia.
    rewrite firstn_all2 by (rewrite length_app; cbn; lia). rewrite applyAll_app. done. }
  destruct event as [| | | | | | | |id [] s|id s q k v|id s q k| | | | | | | | | |]; cbn in He; try done.
  - destruct (session_took m x s) as [(? & ? & ?)|[(Ht & <- & Htook)|[[H1 _] _]]]; [by apply Hnew| |by apply Hold, H1].
    apply Hold. unfold tookEffect in Htook. rewrite Ht in Htook. cbn. clear -Ht He. unfold apply in He. rewrite Ht in He.
    destruct (sm_sessions m !! ESessionID x) eqn:Er; [by eexists|]. cbn in He. by rewrite Er in He.
  - destruct (session_took m x s) as [(Ht & <- & Htook)|[(? & ? & ?)|[_ [H1 _]]]]; [|by apply Hnew|by apply Hold, H1].
    exfalso. unfold tookEffect in Htook. rewrite Ht in Htook. destruct Htook as (_ & Hs & _), He as (r & Hr & Hc).
    rewrite Hs, lookup_insert_eq in Hr. injection Hr as <-. done.
  - destruct (N.le_gt_cases q (lastSequence m s)); [apply Hold; cbn; lia|].
    destruct (mutation_took m x s) as (? & ? & ? & ? & ?); [lia|]. apply Hnew; [cbn; split_and!; [done..|lia]|done].
  - destruct (N.le_gt_cases q (lastSequence m s)); [apply Hold; cbn; lia|].
    destruct (mutation_took m x s) as (? & ? & ? & ? & ?); [lia|]. apply Hnew; [cbn; split_and!; [done..|lia]|done].
Qed.

(** ** The requests that wait *)

Section Owned.
(** The log, and the requests made so far with their result channels. *)
Context (n : Node) (made : list (N * Event)).

Definition wants (w : pendingProposal) (x : LogEntry) : Prop :=
  exists event, (pp_result w, event) ∈ made /\ requests event x.

(** Every request waits for an entry of the log that is not applied yet and that is the
    request's own, or the one it retries. *)
Record owned (la : N) (c : commandCoordinator) : Prop := {
  ow_pending : map_Forall (fun i ws => la < i /\
    exists x, entryAt n i = Some x /\ Forall (fun w => wants w x) ws) (cc_pending c);
  ow_inflight : map_Forall (fun s f => la < if_index f /\
    exists x, entryAt n (if_index f) = Some x /\ isMutationEntry x = true /\ ESessionID x = s /\
      Sequence x = if_sequence f) (cc_inFlightMutations c) }.

(** An acknowledgment of success is for a request that was made and has taken effect. *)
Definition sound (m : sessionMachine) (a : N * answer) : Prop :=
  match a.2 with
  | AnsweredProposal r =>
      res_rejected r = false -> res_failure r = sessionSucceeded ->
      exists event, (a.1, event) ∈ made /\ effected event m
  | AnsweredRead _ => True
  end.

(** The answers that [c'] adds to those of [c] are sound. *)
Definition answers_soundly (c c' : commandCoordinator) : Prop :=
  exists new, cc_answers c' = cc_answers c ++ new /\ Forall (sound (cc_state c')) new.

Lemma sound_apply m e a : sound m a -> sound (apply m e).2 a.
Proof.
  unfold sound. destruct (a.2); [|done]. intros Hs Hr Hf. destruct (Hs Hr Hf) as (event & Hin & He).
  exists event. split; [done|]. by apply effected_apply.
Qed.

Lemma apply_not_rejected m x : res_rejected (apply m x).1 = false.
Proof. unfold apply, evaluateMutation. repeat case_match; simplify_eq/=; done. Qed.

Lemma applyCommitted_fields x c :
  let c' := applyCommitted x c in
  cc_state c' = (apply (cc_state c) x).2 /\
  cc_pending c' = delete (Index x) (cc_pending c) /\
  cc_answers c' = cc_answers c ++ map (fun p => (pp_result p, AnsweredProposal (apply (cc_state c) x).1))
                                     (default [] (cc_pending c !! Index x)) /\
  cc_inFlightMutations c' =
    (if isMutationEntry x
        && (if_sequence (default (mkInFlight 0 0) (cc_inFlightMutations c !! ESessionID x)) =? Sequence x)
     then delete (ESessionID x) (cc_inFlightMutations c) else cc_inFlightMutations c).
Proof.
  destruct c as [m pending inFlight reads metrics observing observed answers]. unfold applyCommitted, note.
  cbn. destruct (apply m x) as [outcome m']. cbn.
  destruct (isMutationEntry x), observing; cbn; try destruct (_ =? _); cbn;
    destruct (pending !! Index x) eqn:Hp; cbn; rewrite ?delete_id, ?app_nil_r by done; done.
Qed.

(** Applying the next entry answers the requests that wait for it. *)
Lemma owned_apply la c x :
  owned la c -> entryAt n (la + 1) = Some x -> Index x = la + 1 ->
  owned (la + 1) (applyCommitted x c) /\ answers_soundly c (applyCommitted x c).
Proof.
  intros [Hp Hf] Hx Hi. destruct (applyCommitted_fields x c) as (Hs & Hpe & Ha & Hfl). split.
  - split.
    + rewrite Hpe. intros i ws [Hne Hw]%lookup_delete_Some. destruct (Hp i ws Hw) as [Hlt He].
      split; [lia|exact He].
    + rewrite Hfl. intros s f Hl.
      assert (Hl' : cc_inFlightMutations c !! s = Some f) by (destruct (_ && _); [by apply lookup_delete_Some in Hl as [_ ?]|done]).
      destruct (Hf s f Hl') as (Hlt & y & Hy & Hm & Hsy & Hq).
      destruct (N.eq_dec (if_index f) (la + 1)) as [Heq|]; [|split; [lia|by exists y]]. exfalso.
      rewrite Heq, Hx in Hy. injection Hy as <-. subst s. rewrite Hm, Hl' in Hl. cbn in Hl.
      rewrite Hq, N.eqb_refl in Hl. by rewrite lookup_delete_eq in Hl.
  - eexists. split; [exact Ha|]. rewrite Hs. destruct (cc_pending c !! Index x) as [ws|] eqn:Hw; [|constructor].
    rewrite Hi in Hw. destruct (Hp _ _ Hw) as (_ & y & Hy & Hws). rewrite Hx in Hy. injection Hy as <-.
    cbn [default]. apply Forall_map. eapply Forall_impl; [exact Hws|]. intros w (event & Hin & Hr) _ Hok.
    exists event. split; [done|]. by apply success_effected.
Qed.

Lemma answers_soundly_refl c : answers_soundly c c.
Proof. exists []. rewrite app_nil_r. by split; [|constructor]. Qed.

Lemma answers_soundly_trans c1 c2 c3 es :
  cc_state c3 = applyAll (cc_state c2) es -> answers_soundly c1 c2 -> answers_soundly c2 c3 ->
  answers_soundly c1 c3.
Proof.
  intros Hs (new & Ha & Hn) (new' & Ha' & Hn'). exists (new ++ new'). rewrite Ha', Ha, <- app_assoc.
  split; [done|]. apply Forall_app. split; [|done]. rewrite Hs. eapply Forall_impl; [exact Hn|].
  intros a. generalize (cc_state c2). clear. induction es as [|e es IH]; intros m Hm; [done|].
  rewrite applyAll_cons. by apply IH, sound_apply.
Qed.

(** The other actions of a round that accepts nothing. *)
Lemma owned_other la c a current :
  owned la c -> unaccepted a -> isApply a = false ->
  owned la (handle a current c).2 /\ answers_soundly c (handle a current c).2.
Proof.
  intros Ho Hu Ha.
  assert (Hdone : owned la c /\ answers_soundly c c) by (split; [done|apply answers_soundly_refl]).
  destruct a; try discriminate Ha; try done; cbn [handle].
  - destruct current as [[]|]; try done. cbn. split; [by destruct Ho|]. eexists. split; [reflexivity|].
    constructor; [|constructor]. by intros ?.
  - destruct (cc_pendingReads c !! _) as [waiting|]; [|done]. destruct (getValue _ _). cbn.
    split; [by destruct Ho|]. eexists. split; [reflexivity|]. by constructor.
  - destruct (cc_pendingReads c !! _) as [waiting|]; [|done]. cbn.
    split; [by destruct Ho|]. eexists. split; [reflexivity|]. by constructor.
Qed.

Lemma owned_wait la c index w x :
  owned la c -> la < index -> entryAt n index = Some x -> wants w x -> owned la (wait index w c).
Proof.
  intros [Hp Hf] Hlt Hx Hw. split; [|done]. apply map_Forall_insert_2; [|done]. split; [done|]. exists x.
  split; [done|]. apply Forall_app. split; [|by constructor].
  destruct (cc_pending c !! index) as [ws|] eqn:Hi; [|constructor].
  destruct (Hp _ _ Hi) as (_ & y & Hy & Hws). rewrite Hx in Hy. by injection Hy as <-.
Qed.

(** An accepted request waits for its entry. *)
Lemma owned_accept la c id index event ch ctx x :
  owned la c -> la < index -> entryAt n index = Some x -> requests event x -> (ch, event) ∈ made ->
  owned la (handle (ProposalAccepted id index) (Some (proposalInput event ch ctx)) c).2 /\
  answers_soundly c (handle (ProposalAccepted id index) (Some (proposalInput event ch ctx)) c).2.
Proof.
  intros Ho Hlt Hx Hr Hin. cbn [handle snd]. set (c1 := c <| cc_metrics := _ |>).
  assert (Hw : owned la (wait index (mkPendingProposal ch ctx) c1)).
  { apply (owned_wait la c1 index _ x); [by destruct Ho|done|done|by exists event]. }
  split; [|exists []; rewrite app_nil_r; split; [by destruct (proposedMutation event) as [[]|]|apply Forall_nil_2]].
  destruct (proposedMutation event) as [[s q]|] eqn:Hm; [|done].
  destruct Hw as [Hp Hf]. split; [exact Hp|]. apply map_Forall_insert_2; [|exact Hf]. split; [done|]. exists x.
  split; [done|]. destruct event; simplify_eq/=; destruct Hr as (? & ? & ?); by split_and!.
Qed.

Lemma owned_handleAll la hi current acts c :
  wf n -> Forall unaccepted acts -> owned la c -> applied acts = entriesBetween n la hi ->
  logBaseIndex n <= la -> la <= hi -> hi <= lastLogIndex n ->
  owned hi (handleAll acts current c) /\ answers_soundly c (handleAll acts current c).
Proof.
  intros Hwf Hu. revert la c. induction Hu as [|a acts Ha Hu IH]; intros la c Ho Happ Hb Hle Hhi; cbn [handleAll].
  - assert (la = hi) as <-; [|split; [done|apply answers_soundly_refl]].
    assert (Hl : len (entriesBetween n la hi) = 0) by (by rewrite <- Happ).
    rewrite len_entriesBetween in Hl by (done || lia). lia.
  - destruct (isApply a) eqn:Hap.
    + destruct a as [| | | | | | | | | | | | | | | |x| | | | |]; try discriminate Hap.
      change (applied (ApplyEntry x :: acts)) with (x :: applied acts) in Happ.
      assert (Hlt : la < hi).
      { assert (Hl : 0 < len (entriesBetween n la hi)) by (rewrite <- Happ; unfold len; cbn; lia).
        rewrite len_entriesBetween in Hl by (done || lia). lia. }
      destruct (entryAt_is_Some n Hwf (la + 1)) as [y Hy]; [lia..|].
      destruct (entryAt_Some n Hwf _ _ Hy) as (_ & _ & Hi).
      pose proof (entriesBetween_cons n Hwf (la + 1) y hi Hy) as Hc.
      replace (la + 1 - 1) with la in Hc by lia. rewrite Hc in Happ by lia. injection Happ as -> Happ.
      destruct (owned_apply la c y Ho Hy Hi) as [Ho' Ha']. cbn [handle snd].
      destruct (IH (la + 1) (applyCommitted y c) Ho' Happ) as [Ho'' Ha'']; [lia..|].
      split; [done|]. eapply answers_soundly_trans; [apply state_handleAll|done..].
    + assert (Happ' : applied acts = entriesBetween n la hi)
        by (rewrite <- Happ; unfold applied; cbn; by destruct a).
      destruct (owned_other la c a current Ho Ha Hap) as [Ho' Ha'].
      destruct (IH la (handle a current c).2 Ho' Happ') as [Ho'' Ha'']; [lia..|].
      split; [done|]. eapply answers_soundly_trans; [apply state_handleAll|done..].
Qed.
End Owned.

(** ** Rounds *)

(** The commands that Clients have asked for, with their result channels. *)
Definition madeBy (w : wakeup) : list (N * Event) :=
  match w with Input (proposalInput event result _) => [(result, event)] | _ => [] end.

Definition requestsMade (l : list activity) : list (N * Event) := concat (map madeBy (wakeups l)).

(** Nobody waits. *)
Definition idle (c : commandCoordinator) : Prop := cc_pending c = ∅ /\ cc_inFlightMutations c = ∅.

Record attentive (made : list (N * Event)) (n : Node) (c : commandCoordinator) : Prop := {
  at_wf : wf n;
  at_caught : caught_up_node n;
  at_verdicts : verdict_guarded n;
  at_leader : role n = Leader -> owned n made (lastApplied n) c;
  at_other : role n <> Leader -> idle c }.

Lemma owned_ext n made la c c' :
  cc_pending c' = cc_pending c -> cc_inFlightMutations c' = cc_inFlightMutations c ->
  owned n made la c -> owned n made la c'.
Proof. intros Hp Hf [? ?]. split; by rewrite ?Hp, ?Hf. Qed.

Lemma owned_idle n made la c : idle c -> owned n made la c.
Proof. intros [Hp Hf]. split; rewrite ?Hp, ?Hf; apply map_Forall_empty. Qed.

Lemma owned_weaken n made more la c : owned n made la c -> owned n (made ++ more) la c.
Proof.
  intros [Hp Hf]. split; [|done]. eapply map_Forall_impl; [exact Hp|]. intros i ws (Hi & x & Hx & Hw).
  split; [done|]. exists x. split; [done|]. eapply Forall_impl; [exact Hw|].
  intros w (event & Hin & Hr). exists event. split; [|done]. apply elem_of_app. by left.
Qed.

Lemma owned_retains n n' made la c :
  retains n n' -> logBaseIndex n' <= la -> owned n made la c -> owned n' made la c.
Proof.
  intros [_ Hr] Hb [Hp Hf]. split.
  - eapply map_Forall_impl; [exact Hp|]. intros i ws (Hi & x & Hx & Hw). split; [done|].
    exists x. split; [apply Hr; [lia|done]|done].
  - eapply map_Forall_impl; [exact Hf|]. intros s f (Hi & x & Hx & Hw). split; [done|].
    exists x. split; [apply Hr; [lia|done]|done].
Qed.

Lemma owned_prune n made la canceled c : owned n made la c -> owned n made la (pruneCanceled canceled c).
Proof.
  intros [Hp Hf]. split; [|exact Hf]. intros i ws Hl. cbn in Hl. apply lookup_omap_Some in Hl as (ws0 & Hws & Hl).
  destruct (Hp _ _ Hl) as (Hi & x & Hx & Hw). split; [done|]. exists x. split; [done|].
  assert (Hsub : ws = filter (fun p => canceled (pp_ctx p) = false) ws0) by (by destruct (filter _ ws0); simplify_eq).
  rewrite Hsub. rewrite Forall_forall in *. intros w [_ Hin]%list_elem_of_filter. by apply Hw.
Qed.

Lemma idle_prune canceled c : idle c -> idle (pruneCanceled canceled c).
Proof. intros [Hp Hf]. split; [|done]. cbn. by rewrite Hp, omap_empty. Qed.

Lemma idle_handleAll acts current c : Forall unaccepted acts -> idle c -> idle (handleAll acts current c).
Proof.
  intros Hu. revert c. induction Hu as [|a acts Ha _ IH]; intros c Hi; [done|]. cbn [handleAll]. apply IH.
  destruct a as [| | | | | | | | | | | | | | | |x| | |id leader|read index|read leader]; try done; cbn [handle].
  - destruct (applyCommitted_fields x c) as (_ & Hp & _ & Hf). destruct Hi as [Hp0 Hf0]. split; cbn [snd].
    + by rewrite Hp, Hp0, delete_empty.
    + rewrite Hf, Hf0. clear Hf. destruct (_ && _); [apply delete_empty|done].
  - destruct current as [[]|]; exact Hi.
  - destruct (cc_pendingReads c !! read); [destruct (getValue _ _)|]; exact Hi.
  - destruct (cc_pendingReads c !! read); exact Hi.
Qed.

Lemma proposed_requests index t event x :
  proposedEntry index t event = Some x -> isProposal event = true /\ requests event x.
Proof.
  destruct event as [| | | | | | | |id [] s|id s q k v|id s q k| | | | | | | | | |]; try done;
    intros [= <-]; by split_and!.
Qed.

(** What a step of the core means for the requests that wait. *)
Lemma stepped_attentive fuel event (r : raftRuntime WAL) acts r' made current c :
  step (E := Error) fuel event r = Done acts r' -> event_ok (rt_core r) event -> appliesEntries event = false ->
  (isProposal event = true -> exists ch ctx, current = Some (proposalInput event ch ctx) /\ (ch, event) ∈ made) ->
  attentive made (rt_core r) c ->
  let c' := handleAll acts current c in
  wf (rt_core r') /\ caught_up_node (rt_core r') /\ verdict_guarded (rt_core r') /\
  (role (rt_core r') = Leader ->
     owned (rt_core r') made (lastApplied (rt_core r')) c' /\ answers_soundly made c c') /\
  (role (rt_core r) <> Leader -> role (rt_core r') <> Leader -> idle c').
Proof.
  intros Hd Hok Ha Hcur [Hwf Hcu Hg Hl Ho] c'.
  pose proof (step_settles _ _ _ _ _ Hd Hwf Hcu Hg Hok Ha) as Hset.
  pose proof (step_gives_verdicts _ _ _ _ _ Hd Hg) as [Hg' _].
  pose proof (step_retains_log _ _ _ _ _ Hd Hwf Hok) as Hret.
  apply step_applies_in_order in Hd as (Hwf' & Hcu' & Hle & Happ & _); [|done..].
  set (n := rt_core r) in *. set (n' := rt_core r') in *.
  pose proof (wf_applied _ Hwf'). pose proof (wf_durableCommit _ Hwf'). pose proof (wf_commit _ Hwf').
  split_and!; [done..| |].
  - intros Hl'. assert (Hc : owned n' made (lastApplied n) c).
    { destruct (decide (role n = Leader)) as [Hr|Hr]; [|by apply owned_idle, Ho].
      apply (owned_retains n); [by apply Hret|lia|by apply Hl]. }
    destruct Hset as [Hu|(id & rest & Heq & Hu & Hr & x & Hx & Hat)]; [apply (owned_handleAll n' made (lastApplied n)); (done || lia)|].
    destruct (proposed_requests _ _ _ _ Hx) as [Hp Hreq]. destruct (Hcur Hp) as (ch & ctx & -> & Hin).
    subst c'. rewrite Heq in *. cbn [handleAll].
    pose proof (wf_applied _ Hwf). pose proof (wf_durableCommit _ Hwf). pose proof (wf_commit _ Hwf).
    destruct (owned_accept n' made (lastApplied n) c id (lastLogIndex n + 1) event ch ctx x Hc ltac:(lia) Hat Hreq Hin) as [Hc1 Ha1].
    destruct (owned_handleAll n' made (lastApplied n) (lastApplied n') (Some (proposalInput event ch ctx)) rest _
                Hwf' Hu Hc1 Happ) as [Hc2 Ha2]; [lia..|].
    split; [done|]. eapply answers_soundly_trans; [apply state_handleAll|done..].
  - intros Hr Hr'. destruct Hset as [Hu|(id & rest & _ & _ & Hr'' & _)]; [|done].
    apply idle_handleAll; [done|by apply Ho].
Qed.

Abbreviation core p := (rt_core (nd_runtime p)).

(** The commands just before the step. *)
Definition untouched (c c' : commandCoordinator) : Prop :=
  cc_pending c' = cc_pending c /\ cc_inFlightMutations c' = cc_inFlightMutations c /\
  cc_answers c' = cc_answers c /\ cc_state c' = cc_state c.

Lemma begun_untouched event result ctx c proposed c' :
  beginProposal event result ctx c = (Some proposed, c') -> untouched c c'.
Proof.
  unfold beginProposal, note, untouched. destruct (proposedMutation event) as [[s q]|]; [|by intros [= <- <-]].
  destruct (evaluateMutation _ _ _) as [a []]; repeat case_match; intros; simplify_eq; done.
Qed.

Section Codec.
Context `{CheckpointCodec}.

Lemma prepared_untouched env p w current event p0 event' p1 :
  ordinary p w -> prepares env p w current event p0 -> heard p0 event event' p1 ->
  untouched (nd_commands (pruned env p)) (nd_commands p1).
Proof.
  intros Ho Hp Hh. destruct (ordinary_event _ _ _ _ _ _ _ _ Ho Hp Hh) as (_ & _ & Hs).
  destruct (tk_commands _ _ (proj1 Hh)) as [m Hm].
  assert (Hu : untouched (nd_commands (pruned env p)) (nd_commands p0)).
  { destruct Hp; try done. by eapply begun_untouched. }
  destruct Hu as (Hu1 & Hu2 & Hu3 & Hu4). rewrite Hm in *. split_and!; done.
Qed.

(** The input of a proposal is the one being served. *)
Lemma prepared_proposal env p w current event p0 event' p1 :
  ordinary p w -> prepares env p w current event p0 -> heard p0 event event' p1 -> isProposal event' = true ->
  exists ch ctx, current = Some (proposalInput event' ch ctx) /\ (ch, event') ∈ madeBy w.
Proof.
  intros Ho Hp [_ Hh] He. destruct Hp as [e|e result ctx c Hb|read result ctx key| | |];
    try (destruct Hh as [-> _]; discriminate He); cbn [ordinary] in Ho.
  - destruct Ho as (Hpeer & _). destruct e; try discriminate Hpeer; try (destruct Hh as [-> _]; discriminate He).
    destruct Hh as (answer & -> & _). discriminate He.
  - assert (event' = e) as -> by (destruct e; try (by destruct Hh); by destruct Ho as [? _]).
    exists result, ctx. split; [done|]. by apply list_elem_of_singleton.
Qed.

Lemma attentive_prune made more env p c :
  untouched (nd_commands (pruned env p)) c ->
  attentive made (rt_core (nd_runtime p)) (nd_commands p) ->
  attentive (made ++ more) (rt_core (nd_runtime p)) c.
Proof.
  intros (Hp & Hf & _) [Hwf Hcu Hg Hl Ho]. split; [done..| |].
  - intros Hr. eapply owned_ext; [exact Hp|exact Hf|]. by apply owned_prune, owned_weaken, Hl.
  - intros Hr. unfold idle. rewrite Hp, Hf. by apply idle_prune, Ho.
Qed.

Lemma untouched_refl c : untouched c c.
Proof. done. Qed.

Lemma inflight_attentive n n' : inflight_frame n n' ->
  (wf n -> wf n') /\ (caught_up_node n -> caught_up_node n') /\ (verdict_guarded n -> verdict_guarded n') /\
  role n' = role n /\ lastApplied n' = lastApplied n /\ (forall made la c, owned n made la c -> owned n' made la c).
Proof.
  intros Hf. split_and!; [by apply inflight_wf|by apply inflight_caught|by apply inflight_verdicts|..];
    destruct Hf as (a & b & ->); try done. intros made la c []. by split.
Qed.

(** A request that is answered or joined without a step. *)
Lemma answered_attentive made n c event result ctx c' :
  attentive made n c -> beginProposal event result ctx c = (None, c') -> (result, event) ∈ made ->
  attentive made n c' /\ answers_soundly made c c'.
Proof.
  intros [Hwf Hcu Hg Hl Ho] Hb Hin. unfold beginProposal in Hb.
  destruct (proposedMutation event) as [[s q]|] eqn:Hm; [|discriminate Hb].
  assert (Hjoin : forall f, cc_inFlightMutations c !! s = Some f -> if_sequence f = q ->
    c' = wait (if_index f) (mkPendingProposal result ctx) c -> attentive made n c' /\ answers_soundly made c c').
  { intros f Hf Hq ->. assert (Hr : role n = Leader).
    { destruct (decide (role n = Leader)) as [|Hr]; [done|]. destruct (Ho Hr) as [_ He]. by rewrite He in Hf. }
    split; [|exists []; rewrite app_nil_r; by split; [|constructor]]. split; [done..| |done]. intros _.
    destruct (ow_inflight _ _ _ _ (Hl Hr) _ _ Hf) as (Hlt & x & Hx & Hmx & Hsx & Hqx).
    apply (owned_wait _ _ _ _ _ _ x); [by apply Hl|done|done|]. exists event. split; [done|].
    destruct event; simplify_eq/=; by split_and!. }
  assert (Hsend : forall a, evaluateMutation (cc_state c) s q = (a, false) ->
    c' = send result (AnsweredProposal a) c -> attentive made n c' /\ answers_soundly made c c').
  { intros a Ev ->. split; [split; try done|].
    - intros Hr. by destruct (Hl Hr).
    - eexists. split; [reflexivity|]. constructor; [|constructor]. intros _ Hok. exists event. split; [done|].
      pose proof (duplicate_effected _ _ _ _ Ev Hok). by destruct event; simplify_eq/=. }
  destruct (evaluateMutation (cc_state c) s q) as [a []] eqn:Ev;
    (destruct (cc_inFlightMutations c !! s) as [f|] eqn:Hf; [destruct (N.eqb_spec (if_sequence f) q) as [Hq|]|]);
    try discriminate Hb; injection Hb as <-; eauto.
Qed.

(** One round keeps the invariant; if the Node leads afterwards, what it answered is sound. *)
Definition round_sound (made : list (N * Event)) (p p' : nodeProcess) : Prop :=
  attentive made (core p') (nd_commands p') /\
  (role (core p') = Leader ->
   exists new, cc_answers (nd_commands p') = cc_answers (nd_commands p) ++ new /\
     Forall (sound made (cc_state (nd_commands p'))) new).

Lemma stepped_sound env p w current event p0 event' p1 acts p' made :
  ordinary p w -> prepares env p w current event p0 -> heard p0 event event' p1 ->
  served env current event' acts p1 p' -> attentive made (core p) (nd_commands p) ->
  round_sound (made ++ madeBy w) p p'.
Proof.
  intros Ho Hp Hh Hsv Hat. pose proof (prepared_untouched _ _ _ _ _ _ _ _ Ho Hp Hh) as Hu.
  destruct (ordinary_event _ _ _ _ _ _ _ _ Ho Hp Hh) as (Hok & Ha & _).
  assert (Hcore : core p1 = core p).
  { rewrite (tk_core _ _ (proj1 Hh)). by apply prepares_fields in Hp as [-> _]. }
  pose proof (attentive_prune made (madeBy w) env p _ Hu Hat) as Hat1. rewrite <- Hcore in Hat1, Hok.
  destruct (sv_step _ _ _ _ _ _ Hsv) as (r & Hs & Hf & _).
  destruct (stepped_attentive _ _ _ _ _ (made ++ madeBy w) current (nd_commands p1) Hs Hok Ha) as (Hwf & Hcu & Hg & Hlead & Hidle);
    [|done|].
  { intros He. destruct (prepared_proposal _ _ _ _ _ _ _ _ Ho Hp Hh He) as (ch & ctx & -> & Hin).
    exists ch, ctx. split; [done|]. apply elem_of_app. by right. }
  destruct (inflight_attentive _ _ Hf) as (Hwf' & Hcu' & Hg' & Hrole & Hla & Hown).
  pose proof (sv_commands _ _ _ _ _ _ Hsv) as Hc. cbv zeta in Hc. destruct Hu as (_ & _ & Hua & _).
  change (cc_answers (nd_commands (pruned env p))) with (cc_answers (nd_commands p)) in Hua.
  unfold round_sound. destruct (decide (role (core p') = Leader)) as [Hl|Hl].
  - rewrite (bool_decide_true (role (core p') = Leader)), andb_false_r in Hc by done. rewrite Hrole in Hl.
    destruct (Hlead Hl) as [Hown1 (new & Hnew & Hsound)]. rewrite Hc. split.
    + split; [auto..| |congruence]. intros _. rewrite Hla. by apply Hown.
    + intros _. exists new. by rewrite <- Hua.
  - split; [|done]. split; [auto..|done|]. intros _. rewrite (bool_decide_false (role (core p') = Leader)) in Hc by done.
    destruct (bool_decide (role (core p1) = Leader)) eqn:Hb; cbn in Hc; rewrite Hc; [by split|].
    apply bool_decide_eq_false_1 in Hb. apply Hidle; [done|congruence].
Qed.

Lemma round_sound_case made env w p p' :
  round_case env p w p' -> ordinary p w -> attentive made (core p) (nd_commands p) ->
  round_sound (made ++ madeBy w) p p'.
Proof.
  destruct 1 as [w current event p0 event' p1 acts p' Hp Hh Hsv|event result ctx c Hb|result p' Hr Hc
                |index t e p' Hsn Hr Hc|index t acts r p' Hsn Hs Hr Hst Hsome Hc _ _ _ _ _]; intros Ho Hat.
  - by eapply stepped_sound.
  - destruct (answered_attentive (made ++ [(result, event)]) (core p) _ event result ctx c
      (attentive_prune made _ env p _ (untouched_refl _) Hat) Hb) as [Hat' Hans].
    { apply elem_of_app. right. by apply list_elem_of_singleton. }
    split; [exact Hat'|]. by intros _.
  - apply restView_fields in Hr as (Hr & _). split; [|intros _; exists []; rewrite Hc, app_nil_r; by split; [|constructor]].
    rewrite Hr, Hc. by apply (attentive_prune made _ env p).
  - apply restView_fields in Hr as (Hr & _). split; [|intros _; exists []; rewrite Hc, app_nil_r; by split; [|constructor]].
    rewrite Hr, Hc. by apply (attentive_prune made _ env p).
  - pose proof (step_compacted _ _ _ _ _ _ Hs) as (-> & n & _ & -> & He).
    pose proof (attentive_prune made (madeBy SnapshotDone) env p _ (untouched_refl _) Hat) as Hat1.
    destruct (stepped_attentive _ _ _ _ _ _ None _ Hs I eq_refl ltac:(done) Hat1) as (Hwf & Hcu & Hg & Hlead & Hidle).
    rewrite <- Hr in *. split; [|intros _; exists []; rewrite Hc, app_nil_r; by split; [|constructor]].
    rewrite Hc. split; [done..| |].
    + intros Hl. by apply Hlead.
    + intros Hl. apply Hidle; [|done]. rewrite Hr in Hl. cbn in Hl. unfold eframe in He. destruct_and!. congruence.
Qed.

(** ** Histories *)

Lemma recover_idle acts c c' : recover acts c = (Ok tt, c') -> idle c -> idle c'.
Proof.
  revert c. induction acts as [|a acts IH]; intros c; cbn; [by intros [= <-]|].
  destruct a; try done. intros Hr Hi. by eapply IH.
Qed.

Lemma started_attentive cfg observing segments dataDir env p0 p :
  openNode cfg observing segments dataDir = Ok p0 -> wf (core p0) -> startLoop env p0 = (Ok tt, p) ->
  attentive [] (core p) (nd_commands p).
Proof.
  intros Ho Hwf Hs. pose proof (startLoop_spec env p0) as He. unfold ewp in He. rewrite Hs in He.
  destruct (entered_tracks _ _ _ _ _ _ _ Ho Hwf He) as (m & es & _ & Ht & _).
  destruct (started_verdicts p) as [Hg _]; [by exists cfg, observing, segments, dataDir, env, p0|].
  destruct (opened _ _ _ _ _ Ho) as (runtime & found & id & ps & recovered & -> & Hcore).
  destruct (en_recovery _ _ _ He) as (m' & acts & _ & Hstep & Hrec).
  assert (Hi : idle (nd_commands p)) by (by eapply recover_idle).
  apply step_not_raised in Hstep; [|done]. cbn in Hstep. rewrite Hcore in Hstep.
  destruct (new_node_fields id ps recovered) as (Hrole & _).
  destruct Ht as [Hwf' Hcu _ _ _ _]. split; [done..| |done]. intros _. by apply owned_idle.
Qed.

(** A Client that is told its command succeeded can rely on it, as long as the Node
    that answered is still the Leader when the round ends.  In any history of a
    process without received Snapshots, each success that such a round reports goes to the channel
    of a request that was made, and the replicated state shows the effect: the Session
    exists or is closed, or the mutation's sequence number has been applied. *)
Theorem acknowledged_commands_took_effect cfg observing segments dataDir env0 p0 p l q env w q' :
  openNode cfg observing segments dataDir = Ok p0 -> wf (core p0) -> startLoop env0 p0 = (Ok tt, p) ->
  performs ordinary p l q -> ready w q = true -> ordinary q w -> round env w q = (Ok tt, q') ->
  role (core q') = Leader ->
  exists new, cc_answers (nd_commands q') = cc_answers (nd_commands q) ++ new /\
    forall ch r, (ch, AnsweredProposal r) ∈ new -> res_rejected r = false -> res_failure r = sessionSucceeded ->
    exists event, (ch, event) ∈ requestsMade (l ++ [Round env w]) /\ effected event (cc_state (nd_commands q')).
Proof.
  intros Ho Hwf Hs Hp Hready Hok Hr Hl.
  assert (Hat : attentive (requestsMade l) (core q) (nd_commands q)).
  { clear Hready Hok Hr Hl. induction Hp as [|l q1 e w1 q1' _ IH Hready Hok Hr|l q1 e _ IH].
    - by eapply started_attentive.
    - apply round_cases in Hr; [|done]. destruct (round_sound_case _ _ _ _ _ Hr Hok IH) as [Hat _].
      unfold requestsMade, wakeups in *. rewrite omap_app, map_app, concat_app. cbn. by rewrite app_nil_r.
    - destruct (advance_view e q1) as (-> & -> & _). unfold requestsMade, wakeups in *. rewrite omap_app.
      cbn. by rewrite app_nil_r. }
  apply round_cases in Hr; [|done]. destruct (round_sound_case _ _ _ _ _ Hr Hok Hat) as [_ Hsound].
  destruct (Hsound Hl) as (new & Hnew & Hall). exists new. split; [done|]. intros ch r Hin Hrej Hf.
  rewrite Forall_forall in Hall. destruct (Hall _ Hin Hrej Hf) as (event & Hev & He). exists event. split; [|done].
  unfold requestsMade, wakeups in *. rewrite omap_app, map_app, concat_app. cbn. by rewrite app_nil_r.
Qed.
End Codec.

(** ** Concrete runs *)

(** A Set of the Leader of term 1 waits for its quorum. *)
Definition waitingSet : list (environment * wakeup) :=
  elected ++
  [acknowledges 1; asks (ProposeSession 1 EntryOpenSession session1) 7; acknowledges 2;
   asks (ProposeSet 2 session1 1 "k" [x61]) 8].

(** The Leader of term 2 has committed its own entry at that index. *)
Definition replaced : environment * wakeup :=
  hears (EvAppendEntries (mkAppendEntries "n2" 2 1 2 1 [mkLogEntry 3 2 EntryNoOp zeroSessionID 0 "" []] 3 0)).

(** The Node reports success for channel 8 although no Set is in its log. *)
Definition acknowledgesLost (p : nodeProcess) (r : result loopExit unit * nodeProcess) : bool :=
  bool_decide (role (core p) = Leader)
  && match r.1 with Ok _ => true | Err _ => false end
  && bool_decide (sm_values (cc_state (nd_commands r.2)) !! "k" = None)
  && forallb (fun x => negb (isMutationEntry x)) (log (core r.2))
  && match last (cc_answers (nd_commands r.2)) with
     | Some (ch, AnsweredProposal a) =>
         (ch =? 8) && negb (res_rejected a) && bool_decide (res_failure a = sessionSucceeded)
     | _ => false
     end.

Lemma acknowledgesLost_ok p r :
  acknowledgesLost p r = true ->
  role (core p) = Leader /\ r.1 = Ok tt /\ sm_values (cc_state (nd_commands r.2)) !! "k" = None /\
  Forall (fun x => isMutationEntry x = false) (log (core r.2)) /\
  exists a, (8, AnsweredProposal a) ∈ cc_answers (nd_commands r.2) /\ res_rejected a = false /\
    res_failure a = sessionSucceeded.
Proof.
  unfold acknowledgesLost. destruct (r.1) as [[]|]; rewrite ?andb_false_r; [|done].
  destruct (last _) as [[ch [a|]]|] eqn:Hlast; rewrite ?andb_false_r; try done.
  rewrite !andb_true_iff. intros ((((Hr & _) & Hk) & Hf) & ((->%N.eqb_eq & Hrej%negb_true_iff) & Hok)).
  apply bool_decide_eq_true_1 in Hr, Hk, Hok. split_and!; [done..| |].
  - apply Forall_forall. intros x Hx. rewrite forallb_forall in Hf. apply negb_true_iff, Hf. by apply list_elem_of_In.
  - exists a. split_and!; [|done..]. apply last_Some_elem_of. exact Hlast.
Qed.

(** A Leader that is replaced can acknowledge a command that is lost.  The entries that a new
    Leader sends are applied before the loop notices that it no longer leads, and their results go
    to whoever waits at their index: the Set on channel 8 never commits, no mutation is in the
    log or in the state, and the handler still reports success to its Client. *)
Theorem replaced_leader_acknowledges_lost_command :
  exists p l q env w q' a,
    started p /\ performs anything p l q /\ ready w q = true /\ round env w q = (Ok tt, q') /\
    role (core q) = Leader /\ (8, ProposeSet 2 session1 1 "k" [x61]) ∈ requestsMade l /\
    (8, AnsweredProposal a) ∈ cc_answers (nd_commands q') /\
    (forall attaches, conclude attaches (nd_config q) (fun _ => tt) (proposed (received a)) = Ok tt) /\
    Forall (fun x => isMutationEntry x = false) (log (core q')) /\
    sm_values (cc_state (nd_commands q')) !! "k" = None.
Proof.
  destruct (observed always anything waitingSet replaced acknowledgesLost) as (p & q & Hs & Hp & Hw & _ & Hr);
    [done|vm_compute; reflexivity|]. apply entered_started in Hs.
  assert (Hin : (8, ProposeSet 2 session1 1 "k" [x61]) ∈ requestsMade (rounds waitingSet))
    by (apply (list_elem_of_lookup_2 _ 1); reflexivity).
  revert Hp Hw Hr Hin. generalize replaced as next, (rounds waitingSet) as l. intros [env w] l Hp Hw Hr Hin.
  apply acknowledgesLost_ok in Hr. destruct (round _ _ q) as [res q'] eqn:Hq. cbn [fst snd] in *.
  destruct Hr as (Hl & -> & Hk & Hlog & a & Ha & Hrej & Hok). exists p, l, q, env, w, q', a.
  split_and!; try done. intros attaches. unfold conclude, proposed, proposalError. by rewrite Hrej, Hok.
Qed.

(** The quorum's acknowledgment lets the Leader answer. *)
Definition answersSet (p : nodeProcess) (r : result loopExit unit * nodeProcess) : bool :=
  match r.1 with Ok _ => true | Err _ => false end
  && bool_decide (role (core r.2) = Leader)
  && match drop (length (cc_answers (nd_commands p))) (cc_answers (nd_commands r.2)) with
     | [(ch, AnsweredProposal a)] =>
         (ch =? 8) && negb (res_rejected a) && bool_decide (res_failure a = sessionSucceeded)
     | _ => false
     end.

Lemma answersSet_ok p r new :
  answersSet p r = true -> cc_answers (nd_commands r.2) = cc_answers (nd_commands p) ++ new ->
  exists a, new = [(8, AnsweredProposal a)] /\ res_rejected a = false /\ res_failure a = sessionSucceeded.
Proof.
  intros Ha Hn. unfold answersSet in Ha. rewrite Hn, drop_app_length in Ha. apply andb_true_iff in Ha as [_ Ha].
  destruct new as [|[ch [a|]] []]; try discriminate Ha. rewrite !andb_true_iff in Ha.
  destruct Ha as ((->%N.eqb_eq & Hrej%negb_true_iff) & Hok%bool_decide_eq_true_1). by exists a.
Qed.

Lemma answersSet_leads p r : answersSet p r = true -> r.1 = Ok tt /\ role (core r.2) = Leader.
Proof.
  unfold answersSet. destruct (r.1) as [[]|]; [|done]. intros [[_ Hl]%andb_true_iff _]%andb_true_iff.
  split; [done|]. by apply bool_decide_eq_true_1 in Hl.
Qed.

Lemma acknowledged_commands_took_effect_witness :
  exists p q env w q', performs ordinary p (rounds waitingSet) q /\ round env w q = (Ok tt, q') /\
    0 < lastSequence (cc_state (nd_commands q')) session1.
Proof.
  destruct (observed ordinaryb ordinary waitingSet (acknowledges 3) answersSet) as (p & q & He & Hp & Hw & Ho & Hr);
    [exact ordinaryb_ok|vm_compute; reflexivity|].
  destruct (entered_opened "n1" p He) as (p0 & Hopen & Hs). destruct (opened_sample p0 Hopen) as (_ & _ & Hwf).
  destruct (answersSet_leads _ _ Hr) as [Hok Hl].
  destruct (round (acknowledges 3).1 (acknowledges 3).2 q) as [res q'] eqn:Hq. cbn [fst snd] in Hok, Hl. subst res.
  destruct (acknowledged_commands_took_effect (sampleConfig "n1") false [] ∅ sampleEnv p0 p (rounds waitingSet) q
    (acknowledges 3).1 (acknowledges 3).2 q' Hopen Hwf Hs Hp Hw Ho Hq Hl) as (new & Hnew & Hall).
  destruct (answersSet_ok _ _ _ Hr Hnew) as (a & -> & Hrej & Hsucc).
  destruct (Hall 8 a (list_elem_of_here _ _) Hrej Hsucc) as (event & Hin & Heff).
  exists p, q, (acknowledges 3).1, (acknowledges 3).2, q'. split_and!; [exact Hp|exact Hq|].
  change (requestsMade _) with [(7, ProposeSession 1 EntryOpenSession session1); (8, ProposeSet 2 session1 1 "k" [x61])] in Hin.
  apply elem_of_cons in Hin as [Hin|Hin%list_elem_of_singleton]; [discriminate Hin|].
  injection Hin as ->. cbn [effected] in Heff. clear -Heff. lia.
Defined.
