(* ===== verification/System.v ===== *)
(** The whole system: Node processes, their write-ahead logs and their messages.

    Every member runs the Raft loop of NodeLoop.v on a write-ahead log; rounds are
    woken by timers, by Client requests and by messages that were sent; processes exit, are killed in the
    middle of a save, lose unsynced bytes with the power and start again.  The power does not fail while
    what a killed process left unsynced is not on disk yet (see [dies]).  The
    system refines the cluster of ReplicatedCluster.v, and the machines of the replicas agree.
    Executions without Snapshots, with logs that fit one AppendEntries request. *)

From S2P Require Import Prelude Bytes Wal WalRecovery RaftTypes RaftCore RaftLog RaftInvariant RaftElection RaftActions Session SessionProps Runtime RuntimeActions Durability Replication ReplicationSteps LogStore RaftReplication RaftChanges RaftAppend Promises Cluster ReplicatedCluster WalStore WalLogStore Coordinator Config SnapshotFile Transport NodeLoop NodeLoopProps NodeLoopInvariants NodeLoopHistory Acknowledged.

Inductive member := Running (p : nodeProcess) | Stopped (w : WAL).

(** With the actions the cores emitted and the commands Clients asked for: the Node, the result
    channel and the proposal. *)
Record system := mkSystem {
  sy_processes : gmap string member; sy_sent : list Action; sy_requests : list (NodeID * (N * Event)) }.

(** The commands that Node [i] was asked for. *)
Definition requestsTo (i : NodeID) (requests : list (NodeID * (N * Event))) : list (N * Event) :=
  omap (fun r => if bool_decide (r.1 = i) then Some r.2 else None) requests.

(** The cluster a system stands for. *)
Definition standsFor (p : member) : proc WAL :=
  match p with Running p => Up (nd_runtime p) | Stopped w => Down w end.

Definition asCluster (s : system) : cluster WAL := mkCluster (standsFor <$> sy_processes s) (sy_sent s).

Section System.
Context `{CheckpointCodec}.
Variable members : list NodeID.
Variable config : NodeID -> Config.

(** ** Steps *)

(** What wakes the loop: no Snapshot completes, and the queue holds what the handlers put
    there. *)
Definition wakes (w : wakeup) : Prop :=
  match w with
  | Input (raftEventInput e) => fromPeer e = true
  | Input (proposalInput e _ _) => isProposal e = true
  | SnapshotDone => False
  | _ => True
  end.

Definition served_by (s : system) (i : NodeID) (env : environment) (w : wakeup) (p : nodeProcess) : Prop :=
  ready w p = true /\ wakes w /\
  forall e, roundEvent env w p = Some e -> replicable room (asCluster s) i (rt_core (nd_runtime p)) e.

(** Terms and logs stay in range. *)
Definition bounded (p : nodeProcess) : Prop :=
  term (rt_core (nd_runtime p)) + 1 < two64 /\ RaftReplication.fits (log (rt_core (nd_runtime p))).

(** The log a process leaves when the loop returns or the process dies. *)
Definition leaves_log (e : loopExit) (p : nodeProcess) (w : WAL) : Prop :=
  w = rt_wal (nd_runtime p) \/ exists next, e = died next /\ walPartial next (rt_wal (nd_runtime p)) w.

(** The actions of the recovery step. *)
Definition recovery (env : environment) (p : nodeProcess) : list Action :=
  match step (ev_fuel env) RecoverCommitted (nd_runtime p) with Done acts _ => acts | _ => [] end.

(** A process that opens what the last one left when it died. *)
Definition opens (i : NodeID) (w : WAL) (p : nodeProcess) : Prop :=
  exists files observing dataDir, dies (w_directory w) files /\
    w_identity w = mkIdentity (cf_ClusterID (config i)) i /\
    openNode (config i) observing files dataDir = Ok p /\ nd_recoveredSnapshot p = None.

(** Process [i] has become [q]. *)
Definition after (s : system) (i : NodeID) (q : member) (acts : list Action) (made : list (N * Event)) : system :=
  mkSystem (<[i := q]> (sy_processes s)) (sy_sent s ++ acts) (sy_requests s ++ map (pair i) made).

Inductive system_step (s : system) : system -> Prop :=
| sy_round i p env w p' :
    sy_processes s !! i = Some (Running p) -> served_by s i env w p ->
    round env w p = (Ok tt, p') -> bounded p' ->
    system_step s (after s i (Running p') (roundActions env w p) (madeBy w))
| sy_exit i p env w e p' left :
    sy_processes s !! i = Some (Running p) -> served_by s i env w p ->
    iterate env w p = (Err e, p') -> nd_snapshot p' = Idle -> bounded p' -> leaves_log e p' left ->
    system_step s (after s i (Stopped left) (roundActions env w p) (madeBy w))
| sy_kill i p :
    sy_processes s !! i = Some (Running p) ->
    system_step s (after s i (Stopped (rt_wal (nd_runtime p))) [] [])
| sy_start i w env p0 p :
    sy_processes s !! i = Some (Stopped w) -> opens i w p0 -> startLoop env p0 = (Ok tt, p) -> bounded p ->
    system_step s (after s i (Running p) (recovery env p0) [])
| sy_abort i w p0 :
    sy_processes s !! i = Some (Stopped w) -> opens i w p0 ->
    system_step s (after s i (Stopped (rt_wal (nd_runtime p0))) [] []).

(** Every member is configured as itself, with the others as its peers. *)
Definition configured : Prop := forall i, i ∈ members ->
  nc_ID (cf_Node (config i)) = i /\
  filter (fun id : string => id <> i) (map fst (map_to_list (cf_Members (config i)))) = peersOf members i.

(** Every member stopped with an empty log. *)
Definition installed (s : system) : Prop :=
  sy_sent s = [] /\ sy_requests s = [] /\ forall i p, sy_processes s !! i = Some p ->
    i ∈ members /\ exists w, p = Stopped w /\ walHolds w (mkDisk 0 "" [] 0).

(** ** Leaving the loop *)

Lemma dispatch_ends env current event p p0 :
  RaftChanges.ordinary event = true -> nd_runtime p0 = nd_runtime p ->
  ewp (dispatch env current event) (fun _ _ => True) (fun e p' => ends env event p e p') p0.
Proof.
  intros He Hr. unfold ends. rewrite <- Hr. unfold ewp. rewrite dispatch_received. apply ewp_bind.
  assert (received env event = eret event) as -> by (by destruct event). apply ewp_ret.
  eapply ewp_mono; [apply dispatched_spec|done|]. by intros e p' [_ ?].
Qed.

(** The loop returns in the middle of a round. *)
Lemma iterate_ends env w p :
  wakes w -> (forall e, roundEvent env w p = Some e -> RaftChanges.ordinary e = true) ->
  ewp (iterate env w) (fun _ _ => True)
    (fun e p' => match roundEvent env w p with
                 | Some event => ends env event p e p'
                 | None => alive e /\ nd_runtime p' = nd_runtime p
                 end) p.
Proof.
  intros Hw Hord. unfold iterate. apply ewp_bind, ewp_modify, ewp_bind, ewp_get.
  change (p <| nd_commands := _ |>) with (pruned env p).
  destruct w as [| |[event|event result ctx|read result ctx key|result]| | |]; cbn [roundEvent] in *; [| done|..].
  - by apply ewp_lift; [|intros ? [= <-]].
  - apply ewp_bind, ewp_get. by apply dispatch_ends; [apply Hord|].
  - apply ewp_bind, ewp_get. destruct (beginProposal _ _ _ _) as [[proposed|] c]; apply ewp_bind, ewp_modify;
      cbn [fst] in *; [by apply dispatch_ends; [apply Hord|]|by apply ewp_ret].
  - apply ewp_bind, ewp_get. unfold beginRead. apply ewp_bind, ewp_modify. by apply dispatch_ends.
  - apply ewp_bind, ewp_get. unfold startSnapshot. apply ewp_bind, ewp_modify, ewp_bind, ewp_get. cbn beta.
    destruct (snapshotRunning _); [by apply ewp_ret|]. apply ewp_bind, ewp_modify, ewp_bind.
    unfold ewp, coreState. cbn. by destruct (getState _).
  - apply ewp_bind, ewp_modify. by apply dispatch_ends.
  - apply ewp_bind, ewp_modify. by apply dispatch_ends.
  - apply ewp_bind, ewp_modify. by apply dispatch_ends.
Qed.
(** ** Refinement *)

(** What the cluster admits of a system whose Clients have asked for [asked]. *)
Definition requested (asked : list (NodeID * (N * Event))) (n : Node) (e : Event) : Prop :=
  room n e /\ (isProposal e = true -> exists i ch, (i, (ch, e)) ∈ asked).

(** An entry of the Leader itself or of a command that was asked for. *)
Definition askedFor (asked : list (NodeID * (N * Event))) (x : LogEntry) : Prop :=
  EType x = EntryNoOp \/ exists i ch e, (i, (ch, e)) ∈ asked /\ proposedEntry (Index x) (Term x) e = Some x.

Lemma allowed_asked asked x : allowed (requested asked) x -> askedFor asked x.
Proof.
  intros [Hn|(n & e & [_ He] & Hx)]; [by left|]. right.
  destruct He as (i & ch & He); [by destruct e; try done; destruct type|].
  exists i, ch, e. split; [done|]. by destruct (proposed_at _ _ _ _ Hx) as [-> ->].
Qed.

Abbreviation executes asked := (replicates members (requested asked)).

Lemma executes_room asked c c' : rtc (executes asked) c c' -> rtc (replicates members room) c c'.
Proof. apply rtc_subrel. intros x y. apply replicates_mono. by intros n e []. Qed.

Lemma failure_frame r r' : failure r r' ->
  inflight_frame (rt_core r) (rt_core r') /\ rt_wal r' = rt_wal r.
Proof.
  intros (fuel & to & requestID & Hs). unfold step in Hs. cbn [Step] in Hs.
  unfold handleAppendEntriesFailed, bind, modify, ret in Hs. apply drain_plain in Hs as [_ ->]; [|constructor].
  split; [|done]. cbn [rt_core set_with].
  match goal with |- inflight_frame _ ?core => exists (appendInFlight core), (snapshotInFlight core) end.
  by destruct (_ =? _), (_ =? _), (rt_core r).
Qed.

Lemma failures_frame r r' : rtc failure r r' ->
  inflight_frame (rt_core r) (rt_core r') /\ rt_wal r' = rt_wal r.
Proof.
  induction 1 as [|r1 r2 r3 [Hf Hw]%failure_frame _ [IHf IHw]]; [by split; [apply inflight_refl|]|].
  split; [by eapply inflight_trans|congruence].
Qed.

(** Reports of lost requests are steps of the cluster. *)
Lemma failures_executed asked c i r r' :
  procs c !! i = Some (Up r) -> rtc failure r r' ->
  term (rt_core r') + 1 < two64 -> RaftReplication.fits (log (rt_core r')) ->
  rtc (executes asked) c (mkCluster (<[i := Up r']> (procs c)) (sent c)).
Proof.
  intros Hi Hr Ht Hf. revert c Hi. induction Hr as [r|r1 r2 r3 H1 Hr IH]; intros c Hi.
  { rewrite insert_id by done. by destruct c. }
  assert (Hfr : inflight_frame (rt_core r1) (rt_core r3)).
  { apply (failures_frame r1 r3). by eapply rtc_l. }
  destruct H1 as (fuel & to & requestID & Hs). eapply rtc_l.
  - eapply (rs_step _ _ _ i r1 (AppendEntriesFailed to requestID) fuel [] r2); [done| |done].
    destruct Hfr as (a & b & Hn). rewrite Hn in Ht, Hf. cbn in Ht, Hf.
    split; try done. split; [|done]. unfold room. cbn [growth]. by rewrite N.add_0_r.
  - rewrite app_nil_r.
    specialize (IH Ht Hf (mkCluster (<[i := Up r2]> (procs c)) (sent c)) (lookup_insert_eq _ _ _)).
    cbn [procs sent] in IH. by rewrite insert_insert_eq in IH.
Qed.

Lemma asCluster_lookup s i q : sy_processes s !! i = Some q -> procs (asCluster s) !! i = Some (standsFor q).
Proof. intros Hi. cbn. by rewrite lookup_fmap, Hi. Qed.

Lemma asCluster_after s i q acts made :
  asCluster (after s i q acts made) =
  mkCluster (<[i := standsFor q]> (procs (asCluster s))) (sent (asCluster s) ++ acts).
Proof. unfold asCluster. cbn. by rewrite fmap_insert. Qed.

(** A round steps the core once, or leaves the runtime alone. *)
Lemma round_shape env w p p' :
  wakes w -> (forall e, roundEvent env w p = Some e -> RaftChanges.ordinary e = true) ->
  round_case env p w p' ->
  match roundEvent env w p with
  | Some e => exists acts r, step (ev_fuel env) e (nd_runtime p) = Done acts r /\ rtc failure r (nd_runtime p')
  | None => nd_runtime p' = nd_runtime p /\ cc_state (nd_commands p') = cc_state (nd_commands p)
  end.
Proof.
  intros Hw Hord Hc.
  destruct Hc as [w current event p0 event' p1 acts p' Hp Hh Hsv|event result ctx c Hb|result p' Hr Hc|?????|]; try done.
  - destruct (prepares_event _ _ _ _ _ _ Hp) as [Hev Hrt]. rewrite Hev in *. specialize (Hord _ eq_refl).
    assert (event' = event /\ p1 = p0) as [-> ->] by (destruct Hh as [_ Hh]; by destruct event).
    destruct (sv_step _ _ _ _ _ _ Hsv) as (r & Hs & _ & _ & Hf). exists acts, r. by rewrite <- Hrt.
  - cbn [roundEvent]. rewrite Hb. cbn. apply state_begun in Hb. by rewrite Hb.
  - cbn [roundEvent]. apply restView_fields in Hr as (Hr & _). by rewrite Hr, Hc.
Qed.

Lemma roundActions_done env w p e acts r :
  roundEvent env w p = Some e -> step (ev_fuel env) e (nd_runtime p) = Done acts r ->
  roundActions env w p = acts.
Proof. intros He Hs. unfold roundActions. by rewrite He, Hs. Qed.

Lemma roundActions_none env w p : roundEvent env w p = None -> roundActions env w p = [].
Proof. intros He. unfold roundActions. by rewrite He. Qed.

Lemma served_events s i env w p e :
  served_by s i env w p -> roundEvent env w p = Some e -> RaftChanges.ordinary e = true.
Proof. intros (_ & _ & Hrb) He. apply (Hrb e He). Qed.

(** A step and the reports that follow it. *)
Lemma stepped_executed asked s i p e acts r r' fuel :
  sy_processes s !! i = Some (Running p) ->
  replicable (requested asked) (asCluster s) i (rt_core (nd_runtime p)) e ->
  step fuel e (nd_runtime p) = Done acts r -> rtc failure r r' ->
  term (rt_core r') + 1 < two64 -> RaftReplication.fits (log (rt_core r')) ->
  rtc (executes asked) (asCluster s) (mkCluster (<[i := Up r']> (procs (asCluster s))) (sent (asCluster s) ++ acts)).
Proof.
  intros Hi Hrb Hs Hf Ht Hl. eapply rtc_l.
  { eapply (rs_step _ _ _ i (nd_runtime p) e fuel acts r); [by apply (asCluster_lookup s i (Running p))|done|done]. }
  set (c1 := mkCluster (<[i := Up r]> (procs (asCluster s))) (sent (asCluster s) ++ acts)).
  pose proof (failures_executed asked c1 i r r' (lookup_insert_eq _ _ _) Hf Ht Hl) as Hx.
  cbn [procs sent c1] in Hx. by rewrite insert_insert_eq in Hx.
Qed.

(** The event of a round, if it proposes a command, was asked for. *)
Lemma served_requested asked s i env w p e :
  served_by s i env w p -> roundEvent env w p = Some e -> (forall x, x ∈ madeBy w -> (i, x) ∈ asked) ->
  replicable (requested asked) (asCluster s) i (rt_core (nd_runtime p)) e.
Proof.
  intros (_ & Hw & Hrb) He Hmade. destruct (Hrb e He) as [? ? ? Hroom ? ?]. split; try done. split; [done|]. intros Hp.
  destruct w as [| |[event|event result ctx|read result ctx key|result]| | |]; cbn in He; try (injection He as <-); try done.
  - by destruct event.
  - destruct (beginProposal _ _ _ _) as [[proposed|] c] eqn:Hb; [|done]. injection He as <-.
    apply beginProposal_event in Hb as ->. exists i, result. apply Hmade. apply list_elem_of_here.
Qed.

Lemma round_executed asked s i p env w p' :
  sy_processes s !! i = Some (Running p) -> served_by s i env w p ->
  round env w p = (Ok tt, p') -> bounded p' -> (forall x, x ∈ madeBy w -> (i, x) ∈ asked) ->
  rtc (executes asked) (asCluster s) (asCluster (after s i (Running p') (roundActions env w p) (madeBy w))).
Proof.
  intros Hi Hsv Hr [Ht Hl] Hmade. pose proof Hsv as (Hready & Hw & _). rewrite asCluster_after.
  pose proof (round_shape env w p p' Hw (fun e => served_events s i env w p e Hsv) (round_cases _ _ _ _ Hready Hr)) as Hsh.
  destruct (roundEvent env w p) as [e|] eqn:He.
  - destruct Hsh as (acts & r & Hs & Hf). rewrite (roundActions_done _ _ _ _ _ _ He Hs).
    eapply stepped_executed; eauto using served_requested.
  - destruct Hsh as [Hrt _]. rewrite (roundActions_none _ _ _ He), app_nil_r. cbn [standsFor]. rewrite Hrt.
    rewrite insert_id by (by apply (asCluster_lookup s i (Running p))). by destruct (asCluster s).
Qed.

Lemma kill_executed asked c i r :
  procs c !! i = Some (Up r) -> rtc (executes asked) c (mkCluster (<[i := Down (rt_wal r)]> (procs c)) (sent c)).
Proof. intros Hi. by apply rtc_once, rs_kill. Qed.

Lemma exit_executed asked s i p env w e p' left :
  wf (rt_core (nd_runtime p)) ->
  sy_processes s !! i = Some (Running p) -> served_by s i env w p ->
  iterate env w p = (Err e, p') -> bounded p' -> leaves_log e p' left -> (forall x, x ∈ madeBy w -> (i, x) ∈ asked) ->
  rtc (executes asked) (asCluster s) (asCluster (after s i (Stopped left) (roundActions env w p) (madeBy w))).
Proof.
  intros Hwf Hi Hsv Hr [Ht Hl] Hleft Hmade. pose proof Hsv as (_ & Hw & _). rewrite asCluster_after. cbn [standsFor].
  pose proof (asCluster_lookup s i (Running p) Hi) as Hup.
  pose proof (iterate_ends env w p Hw (fun x => served_events s i env w p x Hsv)) as Hend.
  unfold ewp in Hend. rewrite Hr in Hend.
  assert (Halive : alive e -> left = rt_wal (nd_runtime p')) by (by destruct Hleft as [?|(next & -> & _)]).
  destruct (roundEvent env w p) as [event|] eqn:He.
  2:{ destruct Hend as [Ha Hrt]. rewrite (roundActions_none _ _ _ He), app_nil_r, (Halive Ha), Hrt.
      by apply (kill_executed asked (asCluster s) i (nd_runtime p)). }
  destruct Hend as [Hnone|Hend]; [by apply wf_state in Hnone|].
  destruct (step (ev_fuel env) event (nd_runtime p)) as [acts r|x r|r|next r] eqn:Hs.
  { destruct Hend as [Ha Hf]. rewrite (roundActions_done _ _ _ _ _ _ He Hs), (Halive Ha).
    etrans; [eapply stepped_executed; eauto using served_requested|].
    pose proof (kill_executed asked (mkCluster (<[i := Up (nd_runtime p')]> (procs (asCluster s))) (sent (asCluster s) ++ acts))
      i (nd_runtime p') (lookup_insert_eq _ _ _)) as Hk. cbn [procs sent] in Hk. by rewrite insert_insert_eq in Hk. }
  all: unfold roundActions; rewrite He, Hs, app_nil_r; apply rtc_once;
    eapply (rs_halt _ _ _ i (nd_runtime p) event (ev_fuel env)); [exact Hup|by eapply served_requested|]; rewrite Hs; cbn.
  - destruct Hend as [Ha <-]. by apply Halive.
  - destruct Hend as [Ha <-]. by apply Halive.
  - destruct Hend as [-> <-]. by destruct Hleft as [?|(next' & [= <-] & ?)]; [left|right].
Qed.

Hypothesis members_configured : configured.

(** Opening a Node is a restart of the cluster. *)
Lemma opens_restarts i w p0 :
  i ∈ members -> opens i w p0 ->
  exists recovered w' observing, walReopens w recovered w' /\ unsnapshotted recovered /\
    nd_runtime p0 = observedBy observing (Some 0) (openRuntime i (peersOf members i) recovered w').
Proof.
  intros Hi (files & observing & dataDir & Hc & Hid & Ho & Hn). destruct (members_configured i Hi) as [Hnode Hpeers].
  unfold openNode, openRaftRuntime in Ho. rewrite Hnode, Hpeers, <- Hid in Ho.
  destruct (Wal.Open _ files) as [[store recovered]|] eqn:Hopen; [|done].
  destruct (convertEntries _) eqn:Hconv; [|done]. destruct (LoadNewest _ _) as [found|]; [|done].
  destruct (recoveredState recovered _) as [state|] eqn:Hst; [|done]. cbn in Ho. injection Ho as <-.
  cbn in Hn. subst found. exists state, store, observing. split_and!; [by exists files, recovered, None| |done].
  unfold recoveredState in Hst. rewrite Hconv in Hst. cbn in Hst. by injection Hst as <-.
Qed.

Lemma opened_position i w p0 : i ∈ members -> opens i w p0 -> basePosition p0 = 0.
Proof.
  intros Hi Ho. destruct (opens_restarts i w p0 Hi Ho) as (r & w' & ob & _ & [Hs Ht] & Hr).
  unfold basePosition. rewrite Hr. cbn. unfold NewNodeFromRecoveredState, compatRecoveredLog.
  rewrite Hs, Ht. repeat (case_match; cbn); done.
Qed.

(** The loop is entered with the committed entries applied. *)
Lemma started_shape i w p0 env p :
  i ∈ members -> opens i w p0 -> wf (rt_core (nd_runtime p0)) -> startLoop env p0 = (Ok tt, p) ->
  exists es, tracks (newSessionMachine (cf_ActiveSessionLimit (config i))) 0 es p /\
    step (ev_fuel env) RecoverCommitted (nd_runtime p0) = Done (map ApplyEntry es) (nd_runtime p) /\
    term (rt_core (nd_runtime p)) = term (rt_core (nd_runtime p0)) /\
    log (rt_core (nd_runtime p)) = log (rt_core (nd_runtime p0)).
Proof.
  intros Hi Ho Hwf Hs. pose proof (startLoop_spec env p0) as He. unfold ewp in He. rewrite Hs in He.
  pose proof (opened_position i w p0 Hi Ho) as Hb.
  destruct (opens_restarts i w p0 Hi Ho) as (r & w' & ob & _ & _ & Hr).
  destruct Ho as (files & observing & dataDir & _ & _ & Ho & Hn).
  destruct (entered_tracks _ _ _ _ _ _ _ Ho Hwf He) as (m & es & Hm & Ht & Hrun).
  rewrite Hn in Hm. cbn in Hm. injection Hm as <-. rewrite Hb in Ht. exists es. split_and!; [done|done|..].
  all: apply recover_applies in Hrun as [(x & y & -> & _) _]; [done|done|..]; rewrite Hr; cbn;
    destruct (new_node_fields i (peersOf members i) r) as (Hrole & Hreads & _); [done|by rewrite Hrole].
Qed.

Hypothesis members_nodup : NoDup members.
Hypothesis members_named : "" ∉ members.
Hypothesis members_nameable : Forall (nameable (S := WAL) (E := Error)) members.

Abbreviation replicated := (replicated members room).

Lemma executed_ok asked c h c' : replicated c h -> rtc (executes asked) c c' -> exists h', extends h h' /\ replicated c' h'.
Proof. intros Hrp Hr%executes_room. revert Hr. by apply (rtc_replicated members room (fun _ _ Hr => Hr) members_nodup members_named members_nameable). Qed.

(** Starting a Node. *)
Lemma opens_executed asked s h i w p0 :
  replicated (asCluster s) h -> sy_processes s !! i = Some (Stopped w) -> opens i w p0 ->
  i ∈ members /\
  executes asked (asCluster s) (mkCluster (<[i := Up (nd_runtime p0)]> (procs (asCluster s))) (sent (asCluster s))) /\
  wf (rt_core (nd_runtime p0)).
Proof.
  intros Hrp Hi Ho. pose proof (asCluster_lookup s i (Stopped w) Hi) as Hd.
  pose proof (rp_member _ _ _ _ Hrp _ _ Hd) as Him.
  destruct (opens_restarts i w p0 Him Ho) as (r & w' & ob & Hre & Hu & Hr).
  assert (Hx : executes asked (asCluster s)
    (mkCluster (<[i := Up (nd_runtime p0)]> (procs (asCluster s))) (sent (asCluster s)))).
  { rewrite Hr. by eapply (rs_restart _ _ _ i w r w' ob (Some 0)). }
  split_and!; [done|done|].
  destruct (executed_ok asked _ _ _ Hrp (rtc_once _ _ Hx)) as (h' & _ & Hrp').
  destruct (rp_up _ _ _ _ Hrp' i (nd_runtime p0)) as (Hid & _); [by cbn; rewrite lookup_insert_eq|]. apply Hid.
Qed.

Lemma start_executed asked s h i w env p0 p :
  replicated (asCluster s) h -> sy_processes s !! i = Some (Stopped w) -> opens i w p0 ->
  startLoop env p0 = (Ok tt, p) -> bounded p ->
  rtc (executes asked) (asCluster s) (asCluster (after s i (Running p) (recovery env p0) [])).
Proof.
  intros Hrp Hi Ho Hs [Ht Hl]. destruct (opens_executed asked s h i w p0 Hrp Hi Ho) as (Him & Hx & Hwf).
  destruct (started_shape i w p0 env p Him Ho Hwf Hs) as (es & _ & Hrun & Et & El).
  rewrite asCluster_after. cbn [standsFor]. unfold recovery. rewrite Hrun. eapply rtc_l; [exact Hx|].
  eapply rtc_l; [|reflexivity].
  pose proof (rs_step members (requested asked) (mkCluster (<[i := Up (nd_runtime p0)]> (procs (asCluster s))) (sent (asCluster s)))
    i (nd_runtime p0) RecoverCommitted (ev_fuel env) (map ApplyEntry es) (nd_runtime p) (lookup_insert_eq _ _ _)) as Hr.
  cbn [procs sent] in Hr. rewrite insert_insert_eq in Hr. apply Hr; [|exact Hrun].
  rewrite Et in Ht. rewrite El in Hl. split; try done. split; [|done]. unfold room. cbn [growth]. by rewrite N.add_0_r.
Qed.

(** The system refines the cluster. *)
Lemma system_executed asked s h s' :
  replicated (asCluster s) h -> system_step s s' -> (forall x, x ∈ sy_requests s' -> x ∈ asked) ->
  rtc (executes asked) (asCluster s) (asCluster s').
Proof.
  assert (Hmade : forall i q acts w, (forall x, x ∈ sy_requests (after s i q acts (madeBy w)) -> x ∈ asked) ->
    forall x, x ∈ madeBy w -> (i, x) ∈ asked).
  { intros i q acts w Ha x Hx. apply Ha. cbn. apply elem_of_app. right. by apply list_elem_of_fmap_2. }
  intros Hrp [i p env w p' Hi Hsv Hr Hb|i p env w e p' left Hi Hsv Hr _ Hb Hl|i p Hi|i w env p0 p Hi Ho Hs Hb|i w p0 Hi Ho] Hasked.
  - eapply round_executed; eauto.
  - eapply exit_executed; eauto.
    destruct (rp_up _ _ _ _ Hrp i (nd_runtime p)) as (Hid & _); [by apply (asCluster_lookup s i (Running p))|]. apply Hid.
  - rewrite asCluster_after, app_nil_r.
    by apply (kill_executed asked (asCluster s) i (nd_runtime p)), (asCluster_lookup s i (Running p)).
  - by eapply start_executed.
  - destruct (opens_executed asked s h i w p0 Hrp Hi Ho) as (_ & Hx & _).
    rewrite asCluster_after, app_nil_r. cbn [standsFor]. eapply rtc_l; [exact Hx|].
    pose proof (kill_executed asked (mkCluster (<[i := Up (nd_runtime p0)]> (procs (asCluster s))) (sent (asCluster s)))
      i (nd_runtime p0) (lookup_insert_eq _ _ _)) as Hk. cbn [procs sent] in Hk. by rewrite insert_insert_eq in Hk.
Qed.

(** ** Replicas *)

Abbreviation machineOf i := (newSessionMachine (cf_ActiveSessionLimit (config i))).

(** The machine of [p] is the result of entries that were applied. *)
Definition replays (sent : list Action) (i : NodeID) (p : nodeProcess) (es : list LogEntry) : Prop :=
  tracks (machineOf i) 0 es p /\ Forall (fun e => ApplyEntry e ∈ sent) es.

Record system_ok (s : system) (h : history) : Prop := {
  so_replicated : replicated (asCluster s) h;
  so_running i p : sy_processes s !! i = Some (Running p) ->
    bounded p /\ (exists es, replays (sy_sent s) i p es) /\
    attentive (requestsTo i (sy_requests s)) (rt_core (nd_runtime p)) (nd_commands p) }.

Lemma replays_more sent more i p es : replays sent i p es -> replays (sent ++ more) i p es.
Proof. intros [Ht Hf]. split; [done|]. eapply Forall_impl; [exact Hf|]. cbn. intros. apply elem_of_app. by left. Qed.

Lemma applied_sent acts : Forall (fun e => ApplyEntry e ∈ acts) (applied acts).
Proof.
  apply Forall_forall. intros e He. unfold applied in He. apply list_elem_of_omap in He as (a & Ha & Hx).
  destruct a; try done. by injection Hx as ->.
Qed.

Lemma applied_map es : applied (map ApplyEntry es) = es.
Proof. induction es as [|e es IH]; [done|]. cbn. by f_equal. Qed.

Lemma replays_extend sent acts i p es :
  Forall (fun e => ApplyEntry e ∈ sent) es -> tracks (machineOf i) 0 (es ++ applied acts) p ->
  replays (sent ++ acts) i p (es ++ applied acts).
Proof.
  intros Hf Ht. split; [done|]. apply Forall_app. split; (eapply Forall_impl; [eassumption || apply applied_sent|]);
    cbn; intros; apply elem_of_app; auto.
Qed.

Lemma requestsTo_own i requests made :
  requestsTo i (requests ++ map (pair i) made) = requestsTo i requests ++ made.
Proof.
  unfold requestsTo. rewrite omap_app. f_equal. induction made as [|x made IH]; [done|].
  cbn. rewrite bool_decide_true by done. by f_equal.
Qed.

Lemma requestsTo_other i j requests made :
  i <> j -> requestsTo j (requests ++ map (pair i) made) = requestsTo j requests.
Proof.
  intros Hne. unfold requestsTo. rewrite omap_app. rewrite <- (app_nil_r (omap _ requests)) at 2. f_equal.
  induction made as [|x made IH]; [done|]. cbn. by rewrite bool_decide_false.
Qed.

Lemma attentive_nil made n c : attentive [] n c -> attentive made n c.
Proof. intros [? ? ? Hl ?]. split; try done. intros Hr. by apply (owned_weaken n [] made), Hl. Qed.

(** The queue holds ordinary inputs. *)
Lemma served_ordinary s h i env w p :
  replicated (asCluster s) h -> sy_processes s !! i = Some (Running p) -> bounded p -> served_by s i env w p ->
  NodeLoopHistory.ordinary p w /\ chunkless w = true.
Proof.
  intros Hrp Hi [_ Hf] Hsv. pose proof (asCluster_lookup s i (Running p) Hi) as Hup.
  destruct (rp_up _ _ _ _ Hrp _ _ Hup) as (Hidle & _).
  pose proof (room_bound _ RecoverCommitted Hidle) as Hb. unfold room in Hb. cbn [growth] in Hb.
  rewrite N.add_0_r in Hb. specialize (Hb Hf). pose proof Hsv as (_ & Hw & Hrb).
  destruct w as [| |[event|event result ctx|read result ctx key|result]| | |]; try done.
  - specialize (Hrb event eq_refl). pose proof (rb_ordinary _ _ _ _ _ Hrb) as Ho.
    pose proof (replicable_ok members room (fun _ _ Hx => Hx) _ h i (nd_runtime p) event Hrp Hup Hrb) as Hok.
    split; [|by destruct event]. split_and!; [done|done|by destruct event].
  - split; [|done]. split; [done|]. by destruct event.
Qed.

Lemma round_ok s h i p env w p' :
  system_ok s h -> sy_processes s !! i = Some (Running p) -> served_by s i env w p ->
  round env w p = (Ok tt, p') ->
  (exists es, replays (sy_sent s ++ roundActions env w p) i p' es) /\
  round_sound (requestsTo i (sy_requests s) ++ madeBy w) p p'.
Proof.
  intros [Hrp Hru] Hi Hsv Hr. destruct (Hru i p Hi) as (Hb & (es & Ht & Hf) & Hat).
  destruct (served_ordinary _ _ _ _ _ _ Hrp Hi Hb Hsv) as [Ho Hcl].
  pose proof Hsv as (Hready & _). pose proof (round_cases _ _ _ _ Hready Hr) as Hc. split.
  - destruct (round_tracks _ _ _ _ _ _ _ Hc Ho Ht) as (more & Ht' & Hm). rewrite (Hm Hcl) in Ht'.
    eexists. by apply replays_extend.
  - by eapply round_sound_case.
Qed.

Lemma start_ok s h i w env p0 p :
  replicated (asCluster s) h -> sy_processes s !! i = Some (Stopped w) -> opens i w p0 ->
  startLoop env p0 = (Ok tt, p) ->
  (exists es, replays (sy_sent s ++ recovery env p0) i p es) /\
  attentive [] (rt_core (nd_runtime p)) (nd_commands p).
Proof.
  intros Hrp Hi Ho Hs. destruct (opens_executed [] s h i w p0 Hrp Hi Ho) as (Him & _ & Hwf). split.
  - destruct (started_shape i w p0 env p Him Ho Hwf Hs) as (es & Ht & Hrun & _).
    exists es. unfold recovery. rewrite Hrun. rewrite <- (applied_map es) in Ht.
    pose proof (replays_extend (sy_sent s) (map ApplyEntry es) i p [] (Forall_nil_2 _) Ht) as Hx.
    cbn [app] in Hx. by rewrite applied_map in Hx.
  - destruct Ho as (files & observing & dataDir & _ & _ & Ho & _). by eapply started_attentive.
Qed.

Lemma system_step_ok s h s' : system_ok s h -> system_step s s' -> exists h', extends h h' /\ system_ok s' h'.
Proof.
  intros Hok Hst. pose proof Hok as [Hrp Hru]. pose proof (system_executed (sy_requests s') s h s' Hrp Hst (fun _ Hx => Hx)) as Hx.
  destruct (executed_ok _ _ _ _ Hrp Hx) as (h' & Hext & Hrp'). exists h'. split; [done|]. split; [done|]. clear Hx.
  assert (Hmove : forall i q acts made, s' = after s i q acts made ->
    (forall p, q = Running p -> bounded p /\ (exists es, replays (sy_sent s ++ acts) i p es) /\
       attentive (requestsTo i (sy_requests s) ++ made) (rt_core (nd_runtime p)) (nd_commands p)) ->
    forall j p, sy_processes s' !! j = Some (Running p) -> bounded p /\ (exists es, replays (sy_sent s') j p es) /\
      attentive (requestsTo j (sy_requests s')) (rt_core (nd_runtime p)) (nd_commands p)).
  { intros i q acts made -> Hq j p. cbn [sy_processes sy_sent sy_requests after]. destruct (decide (i = j)) as [<-|Hne].
    - rewrite lookup_insert_eq, requestsTo_own. intros [= ->]. by apply Hq.
    - rewrite lookup_insert_ne, requestsTo_other by done. intros (Hb & (es & Hes) & Hat)%Hru.
      split_and!; [done| |done]. exists es. by apply replays_more. }
  destruct Hst as [i p env w p' Hi Hsv Hr Hb|i p env w e p' left Hi Hsv Hr _ Hb Hl|i p Hi|i w env p0 p Hi Ho Hs Hb|i w p0 Hi Ho];
    (eapply Hmove; [done|]); try done; intros q [= <-].
  - destruct (round_ok _ _ _ _ _ _ _ Hok Hi Hsv Hr) as [? [? _]]. by split_and!.
  - destruct (start_ok _ _ _ _ _ _ _ Hrp Hi Ho Hs) as [? ?]. split_and!; [done|done|by apply attentive_nil].
Qed.

Lemma rtc_system_ok s h s' : system_ok s h -> rtc system_step s s' -> exists h', extends h h' /\ system_ok s' h'.
Proof.
  intros Hok Hr. revert h Hok. induction Hr as [s|s1 s2 s3 Hs _ IH]; intros h Hok; [by exists h|].
  destruct (system_step_ok _ _ _ Hok Hs) as (h1 & Hx1 & Hok1). destruct (IH _ Hok1) as (h2 & Hx2 & Hok2).
  exists h2. split; [by etrans|done].
Qed.

Lemma installed_blank s : installed s -> blank members (asCluster s).
Proof.
  intros (Hs & _ & Hp). split; [done|]. intros i q Hi. cbn in Hi. rewrite lookup_fmap in Hi.
  destruct (sy_processes s !! i) as [r|] eqn:E; [|done]. injection Hi as <-.
  destruct (Hp i r E) as (Him & w & -> & Hw). split; [done|]. by exists w.
Qed.

Lemma installed_ok s : installed s -> system_ok s (mkHistory ∅ ∅ ∅ ∅ []).
Proof.
  intros Hin. split; [by apply blank_replicated, installed_blank|]. intros i p Hi.
  by destruct Hin as (_ & _ & Hp); destruct (Hp i _ Hi) as (_ & w & ? & _).
Qed.

Lemma requests_grow s s' : rtc system_step s s' -> forall x, x ∈ sy_requests s -> x ∈ sy_requests s'.
Proof.
  induction 1 as [s|s1 s2 s3 Hs _ IH]; [done|]. intros x Hx. apply IH. destruct Hs; cbn; apply elem_of_app; by left.
Qed.

Lemma executed_from s h s' : system_ok s h -> rtc system_step s s' ->
  rtc (executes (sy_requests s')) (asCluster s) (asCluster s') /\ exists h', system_ok s' h'.
Proof.
  intros Hok Hr. revert h Hok. induction Hr as [s|s1 s2 s3 Hs Hr IH]; intros h Hok; [by split; [|exists h]|].
  pose proof (system_executed (sy_requests s3) _ _ _ (so_replicated _ _ Hok) Hs (requests_grow _ _ Hr)) as Hx.
  destruct (system_step_ok _ _ _ Hok Hs) as (h1 & _ & Hok1). destruct (IH _ Hok1) as [Hx' Hh].
  split; [by etrans|done].
Qed.

Lemma reachable_executed s0 s : installed s0 -> rtc system_step s0 s ->
  rtc (executes (sy_requests s)) (asCluster s0) (asCluster s) /\ exists h, system_ok s h.
Proof. intros Hin. apply executed_from with (mkHistory ∅ ∅ ∅ ∅ []), installed_ok, Hin. Qed.

Lemma sent_grows s s' : rtc system_step s s' -> exists more, sy_sent s' = sy_sent s ++ more.
Proof.
  induction 1 as [s|s1 s2 s3 Hs _ [more IH]]; [exists []; by rewrite app_nil_r|].
  destruct Hs; cbn in IH; rewrite IH, <- app_assoc; by eexists.
Qed.

(** Entries applied at the same positions are the same. *)
Lemma replayed_prefix s h i j p q es es' :
  system_ok s h -> replays (sy_sent s) i p es -> replays (sy_sent s) j q es' ->
  (length es <= length es')%nat -> es `prefix_of` es'.
Proof.
  intros [Hrp _] [Hp Hin] [Hq Hin'] Hle. pose proof (proj1 (Forall_forall _ _) (rp_sent _ _ _ _ Hrp)) as Hall.
  assert (es = take (length es) es') as ->; [|apply prefix_take].
  apply list_eq_same_length with (length es); [by rewrite length_take; lia|done|].
  intros k x y Hk Hx Hy. rewrite lookup_take_lt in Hy by done.
  pose proof (Forall_lookup_1 _ _ _ _ Hin Hx) as Ax. pose proof (Forall_lookup_1 _ _ _ _ Hin' Hy) as Ay.
  apply (applied_agree members members_nodup (good room) h); [apply Hrp|by apply (Hall (ApplyEntry x))|by apply (Hall (ApplyEntry y))|].
  rewrite (numbered_lookup _ _ _ _ _ (tr_numbered _ _ _ _ Hp) Hx), (numbered_lookup _ _ _ _ _ (tr_numbered _ _ _ _ Hq) Hy). done.
Qed.

(** The machine of one replica is the machine of another with the entries applied that it lacks. *)
Definition ahead (p q : nodeProcess) : Prop := exists es,
  numbered Index (lastApplied (rt_core (nd_runtime p)) + 1) es /\
  lastApplied (rt_core (nd_runtime q)) = lastApplied (rt_core (nd_runtime p)) + len es /\
  cc_state (nd_commands q) = applyAll (cc_state (nd_commands p)) es.

Lemma replayed_ahead s h i j p q es es' :
  system_ok s h -> replays (sy_sent s) i p es -> replays (sy_sent s) j q es' ->
  cf_ActiveSessionLimit (config i) = cf_ActiveSessionLimit (config j) ->
  lastApplied (rt_core (nd_runtime p)) <= lastApplied (rt_core (nd_runtime q)) -> ahead p q.
Proof.
  intros Hok Hp Hq Hl Hle. destruct (Hp) as [[_ _ Hn Hla Hm] _]. destruct (Hq) as [[_ _ Hn' Hla' Hm'] _].
  destruct (replayed_prefix s h i j p q es es' Hok Hp Hq) as [more ->]; [unfold len in *; lia|].
  exists more. apply numbered_app in Hn' as [_ Hn']. rewrite len_app in Hla'. split_and!; [|lia|].
  - by replace (lastApplied (rt_core (nd_runtime p)) + 1) with (0 + 1 + len es) by lia.
  - by rewrite Hm', applyAll_app, Hm, Hl.
Qed.

(** Two replicas, at different times. *)
Lemma replicas_ahead s h s' i j p q :
  system_ok s h -> rtc system_step s s' ->
  sy_processes s !! i = Some (Running p) -> sy_processes s' !! j = Some (Running q) ->
  cf_ActiveSessionLimit (config i) = cf_ActiveSessionLimit (config j) ->
  (lastApplied (rt_core (nd_runtime p)) <= lastApplied (rt_core (nd_runtime q)) -> ahead p q) /\
  (lastApplied (rt_core (nd_runtime q)) <= lastApplied (rt_core (nd_runtime p)) -> ahead q p).
Proof.
  intros Hok Hr Hi Hj Hl. destruct (rtc_system_ok s h s' Hok Hr) as (h' & _ & Hok').
  destruct (so_running _ _ Hok i p Hi) as (_ & (es & Hes) & _).
  destruct (so_running _ _ Hok' j q Hj) as (_ & (es' & Hes') & _).
  destruct (sent_grows s s' Hr) as [more Hm]. apply (replays_more _ more) in Hes. rewrite <- Hm in Hes.
  split; [by apply (replayed_ahead s' h' i j p q es es')|by apply (replayed_ahead s' h' j i q p es' es)].
Qed.

(** The entries of the log that have been applied. *)
Definition appliedLog (p : nodeProcess) : list LogEntry :=
  take (N.to_nat (lastApplied (rt_core (nd_runtime p)))) (log (rt_core (nd_runtime p))).

(** What a replica replays is what its log holds. *)
Lemma replays_log s h i p es :
  system_ok s h -> sy_processes s !! i = Some (Running p) -> replays (sy_sent s) i p es -> es = appliedLog p.
Proof.
  intros Hok Hi [[Hwf _ _ Hla _ Hlog] _]. destruct (rp_up _ _ _ _ (so_replicated _ _ Hok) i (nd_runtime p)) as (Hidle & _);
    [by apply (asCluster_lookup s i (Running p))|].
  pose proof (id_base _ Hidle) as Hb. pose proof (last_len _ Hwf Hb) as Hlen.
  pose proof (wf_applied _ Hwf). pose proof (wf_durableCommit _ Hwf). pose proof (wf_commit _ Hwf).
  unfold appliedLog, len in *. apply list_eq_same_length with (length es); [rewrite length_take; lia|done|].
  intros k x y Hk Hx Hy. rewrite lookup_take_lt in Hy by lia.
  assert (Hat : entryAt (rt_core (nd_runtime p)) (N.of_nat k + 1) = Some y).
  { rewrite entryAt_list by done. by replace (N.to_nat (N.of_nat k + 1)) with (S k) by lia. }
  apply Hlog in Hat; [|lia..]. replace (N.to_nat (N.of_nat k + 1 - 0 - 1)) with k in Hat by lia.
  congruence.
Qed.

(** The machine of a running Node is the replay of its log. *)
Lemma running_replays s h i p :
  system_ok s h -> sy_processes s !! i = Some (Running p) ->
  replays (sy_sent s) i p (appliedLog p) /\ cc_state (nd_commands p) = applyAll (machineOf i) (appliedLog p) /\
  len (appliedLog p) = lastApplied (rt_core (nd_runtime p)).
Proof.
  intros Hok Hi. destruct (so_running _ _ Hok i p Hi) as (_ & (es & Hes) & _).
  pose proof (replays_log s h i p es Hok Hi Hes) as <-. split_and!; [done|apply Hes|].
  rewrite (tr_applied _ _ _ _ (proj1 Hes)). lia.
Qed.

(** Two replicas, at different times, have applied the same entries. *)
Lemma running_prefix s h s' i j p q :
  system_ok s h -> rtc system_step s s' ->
  sy_processes s !! i = Some (Running p) -> sy_processes s' !! j = Some (Running q) ->
  (lastApplied (rt_core (nd_runtime p)) <= lastApplied (rt_core (nd_runtime q)) -> appliedLog p `prefix_of` appliedLog q) /\
  (lastApplied (rt_core (nd_runtime q)) <= lastApplied (rt_core (nd_runtime p)) -> appliedLog q `prefix_of` appliedLog p).
Proof.
  intros Hok Hr Hi Hj. destruct (rtc_system_ok s h s' Hok Hr) as (h' & _ & Hok').
  destruct (running_replays s h i p Hok Hi) as (Hp & _ & Lp). destruct (running_replays s' h' j q Hok' Hj) as (Hq & _ & Lq).
  destruct (sent_grows s s' Hr) as [more Hm]. apply (replays_more _ more) in Hp. rewrite <- Hm in Hp.
  unfold len in *. split; intros; eapply (replayed_prefix s' h'); try done; lia.
Qed.

(** Applied entries were asked for. *)
Lemma applied_asked s0 s x :
  installed s0 -> rtc system_step s0 s -> ApplyEntry x ∈ sy_sent s -> askedFor (sy_requests s) x.
Proof.
  intros Hin Hr Ha. destruct (reachable_executed s0 s Hin Hr) as [Hx _]. apply allowed_asked.
  apply (applied_allowed members _ (fun n e Hn => proj1 Hn) members_nodup members_named members_nameable (asCluster s0) (asCluster s)); try done.
  by apply installed_blank.
Qed.

(** What a Leader acknowledges is in the log of every replica that has applied as much. *)
Lemma acknowledged_kept s0 s i p env w p' ch r s' j q :
  installed s0 -> rtc system_step s0 s -> sy_processes s !! i = Some (Running p) -> served_by s i env w p ->
  round env w p = (Ok tt, p') -> bounded p' -> role (rt_core (nd_runtime p')) = Leader ->
  (ch, AnsweredProposal r) ∈ drop (length (cc_answers (nd_commands p))) (cc_answers (nd_commands p')) ->
  res_rejected r = false -> res_failure r = sessionSucceeded ->
  rtc system_step (after s i (Running p') (roundActions env w p) (madeBy w)) s' ->
  sy_processes s' !! j = Some (Running q) ->
  lastApplied (rt_core (nd_runtime p')) <= lastApplied (rt_core (nd_runtime q)) ->
  cf_ActiveSessionLimit (config i) = cf_ActiveSessionLimit (config j) ->
  exists event k x, (i, (ch, event)) ∈ sy_requests s ++ map (pair i) (madeBy w) /\
    requests event x /\ askedFor (sy_requests s') x /\
    N.of_nat k < lastApplied (rt_core (nd_runtime p')) /\ log (rt_core (nd_runtime q)) !! k = Some x /\
    tookEffect (applyAll (machineOf j) (take k (log (rt_core (nd_runtime q))))) x
      (applyAll (machineOf j) (take (S k) (log (rt_core (nd_runtime q))))) /\
    effected event (cc_state (nd_commands q)).
Proof.
  intros Hin Hr0 Hi Hsv Hr Hb Hl Hans Hrej Hf Hs Hj Hla Hlim. destruct (reachable_executed s0 s Hin Hr0) as [_ [h Hok]].
  destruct (round_ok s h i p env w p' Hok Hi Hsv Hr) as [_ [_ Hsound]].
  destruct (Hsound Hl) as (new & Hnew & Hall). rewrite Hnew, drop_app_length in Hans.
  destruct (proj1 (Forall_forall _ _) Hall _ Hans Hrej Hf) as (event & Hev & He). cbn in Hev.
  pose proof (sy_round s i p env w p' Hi Hsv Hr Hb) as Hst. set (s1 := after _ _ _ _ _) in *.
  destruct (system_step_ok _ _ _ Hok Hst) as (h1 & _ & Hok1). destruct (rtc_system_ok _ _ _ Hok1 Hs) as (h2 & _ & Hok2).
  assert (Hi' : sy_processes s1 !! i = Some (Running p')) by (cbn; by rewrite lookup_insert_eq).
  destruct (running_prefix s1 h1 s' i j p' q Hok1 Hs Hi' Hj) as [Hpre _]. specialize (Hpre Hla).
  destruct (running_replays s1 h1 i p' Hok1 Hi') as (_ & Hm & Hlen).
  destruct (running_replays s' h2 j q Hok2 Hj) as ([_ Hsent] & Hm' & _).
  rewrite Hm in He. destruct (effect_has_entry _ _ _ He) as (k & x & Hk & Hreq & Htook). exists event, k, x.
  pose proof (lookup_lt_Some _ _ _ Hk) as Hlt. destruct Hpre as [rest Hpre].
  assert (Htake : forall n, (n <= length (appliedLog p'))%nat -> take n (log (rt_core (nd_runtime q))) = take n (appliedLog p')).
  { intros n Hn. transitivity (take n (appliedLog q)); [|by rewrite Hpre, take_app_le].
    unfold appliedLog. rewrite take_take. f_equal. unfold len in Hlen. lia. }
  assert (Hkq : appliedLog q !! k = Some x) by (rewrite Hpre; by apply lookup_app_l_Some).
  split_and!; [|done| | | | |].
  - rewrite <- requestsTo_own in Hev. unfold requestsTo in Hev. apply list_elem_of_omap in Hev as ([k' y] & Hy & Hk').
    cbn in Hk'. case_bool_decide; [|done]. injection Hk' as ->. by subst k'.
  - apply (applied_asked s0 s'); [done| |exact (Forall_lookup_1 _ _ _ _ Hsent Hkq)].
    etrans; [exact Hr0|]. by eapply rtc_l.
  - unfold len in Hlen. lia.
  - unfold appliedLog in Hkq. by apply lookup_take_Some in Hkq as [? _].
  - rewrite !Htake, <- Hlim by lia. exact Htook.
  - rewrite Hm', <- Hlim, Hpre, applyAll_app. by apply effected_applyAll.
Qed.
End System.
