(* ===== verification/SystemReads.v ===== *)
(** Reads of the whole system.

    A value that a Node returns was read at a position of its log that covers what every replica had
    applied when the read began, provided the identifier of the read is not in use: what any
    Client was told before, the read shows. *)

From S2P Require Import Prelude Bytes Wal RaftTypes RaftCore RaftLog RaftInvariant RaftElection RaftActions Session SessionProps Runtime RuntimeActions Replication ReplicationSteps LogStore RaftReplication RaftChanges RaftReads Cluster ReplicatedCluster ClusterReads WalStore WalLogStore Coordinator CoordinatorProps Config NodeLoop NodeLoopProps NodeLoopInvariants NodeLoopHistory Acknowledged System.

(** ** Answers to reads *)

(** A read is answered from the machine the entries before its confirmation lead to. *)
Definition answered_from (m : sessionMachine) (reads : gmap N pendingRead) (acts : list Action) (ch : N) (r : readResult) : Prop :=
  exists first read k others w, acts = first ++ ReadConfirmed read k :: others /\
    reads !! read = Some w /\ wr_result w = ch /\
    getValue (applyAll m (applied first)) (wr_key w) = (rr_value r, rr_found r).

Lemma answered_later m reads reads' a acts ch r :
  reads' ⊆ reads -> answered_from (applyAll m (applied [a])) reads' acts ch r -> answered_from m reads (a :: acts) ch r.
Proof.
  intros Hs (first & read & k & others & w & -> & Hw & Hch & Hv). exists (a :: first), read, k, others, w.
  split_and!; [done|by eapply lookup_weaken|done|]. change (a :: first) with ([a] ++ first).
  by rewrite applied_app, applyAll_app.
Qed.

Lemma handle_reads a current c :
  cc_pendingReads (handle a current c).2 ⊆ cc_pendingReads c /\
  exists new, cc_answers (handle a current c).2 = cc_answers c ++ new /\
    forall ch r, (ch, AnsweredRead r) ∈ new -> rr_rejected r = false ->
      exists read k w, a = ReadConfirmed read k /\ cc_pendingReads c !! read = Some w /\ wr_result w = ch /\
        getValue (cc_state c) (wr_key w) = (rr_value r, rr_found r).
Proof.
  assert (Hnone : forall c', cc_pendingReads c' = cc_pendingReads c -> cc_answers c' = cc_answers c ->
    cc_pendingReads c' ⊆ cc_pendingReads c /\ exists new, cc_answers c' = cc_answers c ++ new /\
    forall ch r, (ch, AnsweredRead r) ∈ new -> rr_rejected r = false ->
      exists read k w, a = ReadConfirmed read k /\ cc_pendingReads c !! read = Some w /\ wr_result w = ch /\
        getValue (cc_state c) (wr_key w) = (rr_value r, rr_found r)).
  { intros c' -> ->. split; [done|]. exists []. rewrite app_nil_r. split; [done|]. by intros ? ? ?%elem_of_nil. }
  destruct a as [| | | | | | | | | | | | | | | |x| |id index|id leader|read index|read leader]; try (by apply Hnone); cbn [handle].
  - destruct (applyCommitted_fields x c) as (_ & _ & Ha & _). split.
    + cbn [snd]. unfold applyCommitted, note. destruct (apply _ _). by repeat case_match.
    + eexists. split; [exact Ha|]. intros ch r Hin. apply list_elem_of_fmap in Hin as (y & [=] & _).
  - apply Hnone; destruct current as [[]|]; try done; cbn; by destruct (proposedMutation _) as [[]|].
  - destruct current as [[]|]; try (by apply Hnone). split; [done|]. eexists. split; [reflexivity|].
    intros ch r Hin. by apply list_elem_of_singleton in Hin.
  - destruct (cc_pendingReads c !! read) as [w|] eqn:Hw; [|by apply Hnone].
    destruct (getValue (cc_state c) (wr_key w)) as [value found] eqn:Hv. cbn. split; [apply delete_subseteq|].
    eexists. split; [reflexivity|]. intros ch r Hin _. apply list_elem_of_singleton in Hin as [= -> ->].
    by exists read, index, w.
  - destruct (cc_pendingReads c !! read) as [w|] eqn:Hw; [|by apply Hnone]. cbn. split; [apply delete_subseteq|].
    eexists. split; [reflexivity|]. intros ch r Hin. by apply list_elem_of_singleton in Hin as [= -> ->].
Qed.

Lemma handleAll_reads acts current c : exists new,
  cc_answers (handleAll acts current c) = cc_answers c ++ new /\
  forall ch r, (ch, AnsweredRead r) ∈ new -> rr_rejected r = false ->
    answered_from (cc_state c) (cc_pendingReads c) acts ch r.
Proof.
  revert c. induction acts as [|a acts IH]; intros c; cbn [handleAll].
  { exists []. rewrite app_nil_r. split; [done|]. by intros ? ? ?%elem_of_nil. }
  destruct (handle_reads a current c) as (Hs & new & Hnew & Hread).
  destruct (IH (handle a current c).2) as (more & Hmore & Hrest). exists (new ++ more).
  rewrite Hmore, Hnew, app_assoc. split; [done|]. intros ch r [Hin|Hin]%elem_of_app Hr.
  - destruct (Hread ch r Hin Hr) as (read & k & w & -> & Hw & Hch & Hv). by exists [], read, k, acts, w.
  - eapply answered_later; [exact Hs|]. specialize (Hrest ch r Hin Hr). by rewrite state_handle in Hrest.
Qed.

(** The read that waits, with its result channel and key, when the Node is woken. *)
Definition awaits (p : nodeProcess) (w : wakeup) (read : ReadID) (ch : N) (key : string) : Prop :=
  (exists ctx, w = Input (readInput read ch ctx key)) \/
  (exists waiting, cc_pendingReads (nd_commands p) !! read = Some waiting /\ wr_result waiting = ch /\ wr_key waiting = key).

Lemma pruned_reads env p : cc_pendingReads (nd_commands (pruned env p)) ⊆ cc_pendingReads (nd_commands p).
Proof. apply map_filter_subseteq. Qed.

Lemma begun_reads event result ctx c proposed c' :
  beginProposal event result ctx c = (proposed, c') ->
  cc_pendingReads c' = cc_pendingReads c /\
  exists new, cc_answers c' = cc_answers c ++ new /\ forall ch r, (ch, AnsweredRead r) ∉ new.
Proof.
  assert (Hnone : forall l, exists new, l = l ++ new /\ forall ch r, ((ch, AnsweredRead r) : N * answer) ∉ new).
  { intros l. exists []. rewrite app_nil_r. split; [done|]. by intros ? ? ?%elem_of_nil. }
  unfold beginProposal, note. destruct (proposedMutation event) as [[s q]|]; [|intros [= <- <-]; auto].
  destruct (evaluateMutation _ _ _) as [a []]; repeat case_match; intros [= <- <-]; split; try done; try apply Hnone.
  all: eexists; split; [reflexivity|]; intros ch r Hin; by apply list_elem_of_singleton in Hin.
Qed.

Section Codec.
Context `{CheckpointCodec}.

(** The commands with which the core is stepped. *)
Lemma prepared_reads env p w current event p0 :
  prepares env p w current event p0 ->
  cc_state (nd_commands p0) = cc_state (nd_commands p) /\ cc_answers (nd_commands p0) = cc_answers (nd_commands p) /\
  forall read waiting, cc_pendingReads (nd_commands p0) !! read = Some waiting ->
    awaits p w read (wr_result waiting) (wr_key waiting).
Proof.
  assert (Hold : forall read waiting, cc_pendingReads (nd_commands (pruned env p)) !! read = Some waiting ->
    awaits p w read (wr_result waiting) (wr_key waiting)).
  { intros read waiting Hw. right. exists waiting. split; [|done]. by eapply lookup_weaken, pruned_reads. }
  destruct 1 as [e|e result ctx c Hb|read result ctx key| | |]; try done.
  - destruct (begun_reads _ _ _ _ _ _ Hb) as [Hp _]. destruct (begun_untouched _ _ _ _ _ _ Hb) as (_ & _ & Ha & Hs).
    cbn [nd_commands set_with]. rewrite Hs, Ha. split_and!; [done..|]. intros read waiting. cbn. rewrite Hp. apply Hold.
  - split_and!; [done..|]. intros read' waiting. cbn. destruct (decide (read = read')) as [<-|Hne].
    + rewrite lookup_insert_eq. intros [= <-]. left. by exists ctx.
    + rewrite lookup_insert_ne by done. apply Hold.
Qed.

(** What a round answers to reads. *)
Lemma round_reads env w p p' ch r :
  round_case env p w p' -> NodeLoopHistory.ordinary p w -> chunkless w = true ->
  (ch, AnsweredRead r) ∈ drop (length (cc_answers (nd_commands p))) (cc_answers (nd_commands p')) -> rr_rejected r = false ->
  exists e acts r' first read k others key,
    roundEvent env w p = Some e /\ step (ev_fuel env) e (nd_runtime p) = Done acts r' /\
    acts = first ++ ReadConfirmed read k :: others /\ awaits p w read ch key /\
    getValue (applyAll (cc_state (nd_commands p)) (applied first)) key = (rr_value r, rr_found r).
Proof.
  intros Hc Ho Hw Hin Hr.
  assert (Hquiet : nd_commands p' = nd_commands (pruned env p) -> False).
  { intros Hc'. rewrite Hc' in Hin. change (cc_answers (nd_commands (pruned env p))) with (cc_answers (nd_commands p)) in Hin.
    rewrite drop_all in Hin. by apply elem_of_nil in Hin. }
  destruct Hc as [w current event p0 event' p1 acts p' Hp Hh Hsv|event result ctx c Hb|result p' _ Hc|index t e p' _ _ Hc|????? _ _ _ _ _ Hc _ _ _ _ _].
  - destruct (prepared_reads _ _ _ _ _ _ Hp) as (Hst & Han & Haw).
    destruct (heard_plain _ _ _ _ _ _ _ _ Hw Ho Hp Hh) as [Hev Hrt].
    assert (Hp1 : nd_commands p1 = nd_commands p0).
    { destruct Hh as [_ Hh]. destruct Hp; try (by destruct Hh as [_ ->]); cbn in Hw, Ho; destruct event;
        try (by destruct Hh as [_ ->]); try done. by destruct Ho. }
    destruct (sv_step _ _ _ _ _ _ Hsv) as (rt & Hs & _). rewrite Hrt in Hs.
    destruct (handleAll_reads acts current (nd_commands p0)) as (new & Hnew & Hread).
    assert (Hans : (ch, AnsweredRead r) ∈ new).
    { rewrite (sv_commands _ _ _ _ _ _ Hsv), Hp1 in Hin. cbv zeta in Hin. destruct (_ && _) eqn:Hl.
      - cbn in Hin. rewrite Hnew, Han, <- !app_assoc, drop_app_length in Hin.
        rewrite !elem_of_app in Hin. destruct Hin as [?|[Hin|Hin]]; [done|..].
        + apply list_elem_of_fmap in Hin as (? & [=] & _).
        + apply list_elem_of_fmap in Hin as (? & [= _ ->] & _). done.
      - by rewrite Hnew, Han, drop_app_length in Hin. }
    destruct (Hread ch r Hans Hr) as (first & read & k & others & wt & Hacts & Hwt & Hch & Hv).
    exists event', acts, rt, first, read, k, others, (wr_key wt). rewrite Hst in Hv. subst ch.
    split_and!; [done..|by apply Haw|done].
  - cbn in Hin. destruct (begun_reads _ _ _ _ _ _ Hb) as (_ & new & Hnew & Hno). rewrite Hnew in Hin.
    change (cc_answers (nd_commands (pruned env p))) with (cc_answers (nd_commands p)) in Hin.
    rewrite drop_app_length in Hin. by apply Hno in Hin.
  - by destruct (Hquiet Hc).
  - by destruct (Hquiet Hc).
  - by destruct (Hquiet Hc).
Qed.

(** ** Reads and replicas *)

Section Reads.
Variable members : list NodeID.
Variable config : NodeID -> Config.
Hypothesis members_configured : configured members config.
Hypothesis members_nodup : NoDup members.
Hypothesis members_named : "" ∉ members.
Hypothesis members_nameable : Forall (nameable (S := WAL) (E := Error)) members.

#[local] Abbreviation system_step := (system_step config).
#[local] Abbreviation machineOf i := (newSessionMachine (cf_ActiveSessionLimit (config i))).

(** The position of a replica is covered by a read that is confirmed later. *)
Lemma read_covers s0 h0 s s1 i p es j q e fuel acts r' first read k others :
  blank members (asCluster s0) -> rtc (replicates members room) (asCluster s0) (asCluster s) ->
  rtc (replicates members room) (asCluster s) (asCluster s1) ->
  replicated members room (asCluster s1) h0 -> replays config (sy_sent s) i p es ->
  sy_processes s1 !! j = Some (Running q) -> replicable room (asCluster s1) j (rt_core (nd_runtime q)) e ->
  caught_up_node (rt_core (nd_runtime q)) -> step fuel e (nd_runtime q) = Done acts r' ->
  acts = first ++ ReadConfirmed read k :: others -> unread (asCluster s) j read ->
  len es <= lastApplied (rt_core (nd_runtime q)) + len (applied first).
Proof using members_nodup members_named members_nameable.
  intros Hb Hx0 Hx1 Hrp [Ht Hin] Hj Hrb Hcu Hs Hacts Hun.
  pose proof (asCluster_lookup s1 j (Running q) Hj) as Hup. cbn [standsFor] in Hup.
  assert (Hroom : forall n e, room n e -> room n e) by done.
  destruct (watched_run members room Hroom members_nodup members_named members_nameable _ _ _ _
    (blank_replicated members room _ Hb) (blank_watched members _ Hb) (transitivity Hx0 Hx1)) as (h & D & _ & _ & Hrp1 & Hw).
  pose proof (step_timely members room Hroom _ h D j (nd_runtime q) e fuel acts r' Hrp1 Hw Hup Hrb Hs Hcu first read k others Hacts) as Hk.
  destruct (list.last es) as [x|] eqn:El; [|apply last_None in El; subst es; apply N.le_0_l].
  rewrite last_lookup in El. pose proof (lookup_lt_Some _ _ _ El).
  pose proof (numbered_lookup _ _ _ _ _ (tr_numbered _ _ _ _ Ht) El) as Hi.
  pose proof (Forall_lookup_1 _ _ _ _ Hin El) as Hsent. cbn beta in Hsent.
  pose proof (confirmed_covers members room Hroom members_nodup members_named members_nameable _ _ _ j read (nd_runtime q) e fuel
    acts r' k x Hb Hx0 Hun Hx1 Hup Hrb Hs) as Hcov.
  unfold len in *. rewrite Hi in Hcov. assert (Hkx : ReadConfirmed read k ∈ acts) by (rewrite Hacts, elem_of_app; right; apply list_elem_of_here).
  specialize (Hcov Hkx Hsent). lia.
Qed.

(** What a Node returns to a read is the key's value at a position of its own log, which
    covers all that any replica had applied when the read began. *)
Lemma read_current s0 s s1 i p j q env w q' ch r :
  installed members s0 -> rtc system_step s0 s -> rtc system_step s s1 ->
  sy_processes s !! i = Some (Running p) -> sy_processes s1 !! j = Some (Running q) ->
  served_by s1 j env w q -> round env w q = (Ok tt, q') -> bounded q' ->
  (ch, AnsweredRead r) ∈ drop (length (cc_answers (nd_commands q))) (cc_answers (nd_commands q')) -> rr_rejected r = false ->
  exists read key k, awaits q w read ch key /\
    getValue (applyAll (machineOf j) (take (N.to_nat k) (log (rt_core (nd_runtime q'))))) key = (rr_value r, rr_found r) /\
    lastApplied (rt_core (nd_runtime q)) <= k <= lastApplied (rt_core (nd_runtime q')) /\
    (unread (asCluster s) j read -> lastApplied (rt_core (nd_runtime p)) <= k /\
       appliedLog p = take (N.to_nat (lastApplied (rt_core (nd_runtime p)))) (log (rt_core (nd_runtime q')))).
Proof using members_configured members_nodup members_named members_nameable.
  intros Hin Hr0 Hr1 Hi Hj Hsv Hround Hbq Hans Hrej.
  destruct (executed_from members config members_configured members_nodup members_named members_nameable s0 _ s
    (installed_ok members config s0 Hin) Hr0) as [Hx0%executes_room (h & Hok)].
  destruct (executed_from members config members_configured members_nodup members_named members_nameable s h s1 Hok Hr1)
    as [Hx1%executes_room (h1 & Hok1)].
  destruct (running_replays members config s h i p Hok Hi) as (Hes & _ & Hlp).
  destruct (running_replays members config s1 h1 j q Hok1 Hj) as ([Htq Hinq] & Hmq & Hlq).
  destruct (so_running _ _ _ _ Hok1 j q Hj) as (Hb & _).
  destruct (served_ordinary members _ _ _ _ _ _ (so_replicated _ _ _ _ Hok1) Hj Hb Hsv) as [Ho Hcl].
  pose proof Hsv as (Hready & _ & Hrb). pose proof (round_cases _ _ _ _ Hready Hround) as Hcase.
  destruct (round_reads env w q q' ch r Hcase Ho Hcl Hans Hrej) as (e & acts & r' & first & read & k & others & key & Hev & Hs & Hacts & Haw & Hv).
  pose proof (sy_round config s1 j q env w q' Hj Hsv Hround Hbq) as Hst. set (s2 := after _ _ _ _ _) in *.
  destruct (system_step_ok members config members_configured members_nodup members_named members_nameable _ _ _ Hok1 Hst)
    as (h2 & _ & Hok2).
  assert (Hj' : sy_processes s2 !! j = Some (Running q')) by (cbn; by rewrite lookup_insert_eq).
  destruct (round_tracks _ _ _ _ _ _ _ Hcase Ho Htq) as (more & Ht' & Hmore).
  rewrite (Hmore Hcl), (roundActions_done _ _ _ _ _ _ Hev Hs), Hacts, applied_app, app_assoc in Ht'.
  set (es := appliedLog q ++ applied first) in *.
  assert (Hq' : es ++ applied (ReadConfirmed read k :: others) = appliedLog q').
  { apply (replays_log members config s2 h2 j q'); [done|done|]. unfold s2. rewrite (roundActions_done _ _ _ _ _ _ Hev Hs).
    split; [done|]. cbn [sy_sent after]. unfold es. rewrite <- app_assoc, <- applied_app, <- Hacts. apply Forall_app.
    split; (eapply Forall_impl; [eassumption || apply applied_sent|]); cbn; intros; apply elem_of_app; auto. }
  assert (Hlen : len es = lastApplied (rt_core (nd_runtime q)) + len (applied first)) by (unfold es; rewrite len_app; lia).
  pose proof (tr_applied _ _ _ _ Ht') as Hla. rewrite len_app in Hla.
  assert (Htake : take (length es) (log (rt_core (nd_runtime q'))) = es).
  { transitivity (take (length es) (appliedLog q')); [|by rewrite <- Hq', take_app_length].
    unfold appliedLog. rewrite take_take. f_equal. unfold len in Hla. lia. }
  exists read, key, (len es). split_and!; [done| |lia|lia|].
  { unfold len. rewrite Nat2N.id, Htake. unfold es. by rewrite applyAll_app, <- Hmq. }
  intros Hun. assert (Hle : len (appliedLog p) <= lastApplied (rt_core (nd_runtime q)) + len (applied first)).
  { apply (read_covers s0 h1 s s1 i p (appliedLog p) j q e (ev_fuel env) acts r' first read k others); try done;
      [by apply installed_blank|apply Hok1|by apply Hrb|apply Htq]. }
  split; [lia|]. destruct (running_prefix members config members_configured members_nodup members_named members_nameable
    s h s2 i j p q' Hok (transitivity Hr1 (rtc_once _ _ Hst)) Hi Hj') as [Hpre _].
  destruct Hpre as [rest Hpre]; [lia|]. transitivity (take (length (appliedLog p)) (appliedLog q')).
  - by rewrite Hpre, take_app_length.
  - unfold appliedLog at 2. rewrite take_take. f_equal. unfold len in *. lia.
Qed.
End Reads.
End Codec.
