(* ===== verification/SystemProps.v ===== *)
(** Safety of the whole system.

    Node processes refine the cluster, their replicated machines agree, and a command that a
    Leader acknowledged shows in every replica that has caught up, for ever.  [playSystem] runs
    scripts of the system, for the concrete executions. *)

From S2P Require Import Prelude Bytes Wal WalJson WalRecovery WalOps WalSpec RaftTypes RaftCore RaftLog RaftInvariant RaftElection RaftActions RaftAppend Session SessionProps Runtime RuntimeActions Durability Replication LogStore RaftReplication RaftChanges Cluster ReplicatedCluster ClusterReads MemoryStore ReplicationProps WalStore WalLogStore ClusterProps Coordinator Config Peer SnapshotFile Transport NodeLoop NodeLoopProps NodeLoopInvariants NodeLoopHistory Service Acknowledged System SystemReads.

(** ** Scripts *)

Inductive act :=
| StartNode (i : NodeID)
| WakeNode (i : NodeID) (w : wakeup)
| KillNode (i : NodeID)
| DeliverTo (k : nat).

Definition storedEntry (x : LogEntry) : bool :=
  (Index x <? two64) && (Term x <? two64) && (Sequence x <? two64) && (length (ESessionID x) =? 16)%nat
  && (50 + N.of_nat (String.length (Key x)) + len (Value x) <=? maxRecordSize).

Lemma storedEntry_storable x : storedEntry x = true -> walStorable x.
Proof. unfold storedEntry. intros Hx. reflect_bools. split; try done. by apply Nat.eqb_eq. Qed.

Definition wakesb (w : wakeup) : bool :=
  match w with
  | Input (raftEventInput e) => fromPeer e
  | Input (proposalInput e _ _) => isProposal e
  | SnapshotDone => false
  | _ => true
  end.

Definition boundedb (p : nodeProcess) : bool :=
  (term (rt_core (nd_runtime p)) + 1 <? two64) && (batchSize (log (rt_core (nd_runtime p))) <=? maxAppendEntriesBytes).

(** What the surroundings owe an event, apart from its having been sent. *)
Definition presentable (n : Node) (e : Event) : bool :=
  RaftChanges.ordinary e && (term n + 1 <? two64) && (event_term e <? two64) && roomy n e &&
  match proposedEntry (len (log n) + 1) (term n) e with Some x => storedEntry x | None => true end.

Section Scripts.
Variable config : NodeID -> Config.

Definition startNode (i : NodeID) (s : system) : option system :=
  match sy_processes s !! i with
  | Some (Stopped w) =>
      if bool_decide (w_identity w = mkIdentity (cf_ClusterID (config i)) i) && negb (bool_decide (w_directory w = [])) then
        match openNode (config i) false (w_directory w) ∅ with
        | Ok p0 =>
            match nd_recoveredSnapshot p0, startLoop sampleEnv p0 with
            | None, (Ok _, p) => if boundedb p then Some (after s i (Running p) (recovery sampleEnv p0) []) else None
            | _, _ => None
            end
        | Err _ => None
        end
      else None
  | _ => None
  end.

(** A round of [i]; [sent] tells whether the message of an event was sent. *)
Definition wakeNode (sent : bool) (i : NodeID) (w : wakeup) (s : system) : option system :=
  match sy_processes s !! i with
  | Some (Running p) =>
      if ready w p && wakesb w &&
         match roundEvent sampleEnv w p with
         | Some e => presentable (rt_core (nd_runtime p)) e && (sent || negb (bool_decide (is_Some (brought_by i e))))
         | None => true
         end
      then
        match round sampleEnv w p with
        | (Ok _, p') => if boundedb p' then Some (after s i (Running p') (roundActions sampleEnv w p) (madeBy w)) else None
        | (Err _, _) => None
        end
      else None
  | _ => None
  end.

Definition playAct (s : system) (a : act) : option system :=
  match a with
  | StartNode i => startNode i s
  | WakeNode i w => wakeNode false i w s
  | KillNode i =>
      match sy_processes s !! i with
      | Some (Running p) => Some (after s i (Stopped (rt_wal (nd_runtime p))) [] [])
      | _ => None
      end
  | DeliverTo k =>
      match sy_sent s !! k with
      | Some a => match arrival a with Some (i, e) => wakeNode true i (Input (raftEventInput e)) s | None => None end
      | None => None
      end
  end.

Fixpoint playSystem (s : system) (l : list act) : option system :=
  match l with
  | [] => Some s
  | a :: l => match playAct s a with Some s => playSystem s l | None => None end
  end.

Lemma boundedb_bounded p : boundedb p = true -> bounded p.
Proof. unfold boundedb, bounded, RaftReplication.fits. intros Hb. reflect_bools. by split. Qed.

Lemma startNode_sound i s s' : startNode i s = Some s' -> system_step config s s'.
Proof.
  unfold startNode. destruct (sy_processes s !! i) as [[|w]|] eqn:Hi; try done.
  destruct (_ && _) eqn:Hid; [|done]. reflect_bools.
  destruct (openNode _ _ _ _) as [p0|] eqn:Ho; [|done]. destruct (nd_recoveredSnapshot p0) eqn:Hn; [done|].
  destruct (startLoop sampleEnv p0) as [[[]|] p] eqn:Hs; [|done].
  destruct (boundedb p) eqn:Hb; [|done]. intros [= <-]. eapply (sy_start _ _ i w sampleEnv p0 p); try done.
  - exists (w_directory w), false, ∅. split_and!; try done. left. by apply killed_same.
  - by apply boundedb_bounded.
Qed.

Lemma wakeNode_served sent i w s s' :
  (forall p e a, sent = true -> roundEvent sampleEnv w p = Some e -> brought_by i e = Some a -> a ∈ sy_sent s) ->
  wakeNode sent i w s = Some s' ->
  exists p p', sy_processes s !! i = Some (Running p) /\ served_by s i sampleEnv w p /\
    round sampleEnv w p = (Ok tt, p') /\ bounded p' /\
    s' = after s i (Running p') (roundActions sampleEnv w p) (madeBy w).
Proof.
  intros Hsent. unfold wakeNode. destruct (sy_processes s !! i) as [[p|]|] eqn:Hi; try done.
  destruct (_ && _ && _) eqn:Hc; [|done]. apply andb_prop in Hc as [[Hready Hw]%andb_prop He].
  destruct (round sampleEnv w p) as [[[]|] p'] eqn:Hr; [|done].
  destruct (boundedb p') eqn:Hb; [|done]. intros [= <-]. exists p, p'.
  split_and!; [done| |done|by apply boundedb_bounded|done]. split_and!; [done|by destruct w as [| |[]| | |]|].
  intros e Hev. rewrite Hev in He. unfold presentable in He. apply andb_prop in He as [He Hbr]. reflect_bools.
  split; try done.
  - by apply roomy_room.
  - intros a Ha. destruct sent; [by eapply Hsent|]. cbn in Hbr. rewrite Ha in Hbr.
    rewrite bool_decide_true in Hbr by eauto. done.
  - intros x Hx. rewrite Hx in *. by apply storedEntry_storable.
Qed.

Lemma arrival_sent s k a i e :
  sy_sent s !! k = Some a -> arrival a = Some (i, e) ->
  forall (p : nodeProcess) e' a', true = true -> roundEvent sampleEnv (Input (raftEventInput e)) p = Some e' ->
    brought_by i e' = Some a' -> a' ∈ sy_sent s.
Proof.
  intros Ha%list_elem_of_lookup_2 He p e' a' _ [= <-].
  destruct a; try done; injection He as <- <-; cbn; by intros [= <-].
Qed.

Lemma wakeNode_sound sent i w s s' :
  (forall p e a, sent = true -> roundEvent sampleEnv w p = Some e -> brought_by i e = Some a -> a ∈ sy_sent s) ->
  wakeNode sent i w s = Some s' -> system_step config s s'.
Proof.
  intros Hsent Hw. destruct (wakeNode_served sent i w s s' Hsent Hw) as (p & p' & Hi & Hsv & Hr & Hb & ->).
  by apply sy_round.
Qed.

Lemma playAct_sound s a s' : playAct s a = Some s' -> system_step config s s'.
Proof.
  destruct a as [i|i w|i|k]; cbn [playAct]; [apply startNode_sound|by apply wakeNode_sound|..].
  { destruct (sy_processes s !! i) as [[p|]|] eqn:Hi; try done. intros [= <-]. by apply sy_kill. }
  destruct (sy_sent s !! k) as [a|] eqn:Ha; [|done]. destruct (arrival a) as [[i e]|] eqn:He; [|done].
  by apply wakeNode_sound, (arrival_sent s k a).
Qed.

Lemma playSystem_sound l s s' : playSystem s l = Some s' -> rtc (system_step config) s s'.
Proof.
  revert s. induction l as [|a l IH]; intros s; cbn [playSystem]; [by intros [= ->]|].
  destruct (playAct s a) as [s1|] eqn:Ha; [|done]. intros Hl. eapply rtc_l; [by eapply playAct_sound|by apply IH].
Qed.
End Scripts.

(** ** Three Nodes *)

Definition ensemble : list NodeID := ["n3"; "n1"; "n2"].

Definition freshSystem : system :=
  mkSystem (list_to_map (map (fun i => (i, Stopped (freshWal i))) ensemble)) [] [].

Lemma ensemble_nodup : NoDup ensemble.
Proof. by apply (bool_decide_unpack _). Qed.

Lemma ensemble_named : "" ∉ ensemble.
Proof. by apply (bool_decide_unpack _). Qed.

Lemma ensemble_nameable : Forall (nameable (S := WAL) (E := Error)) ensemble.
Proof. repeat constructor; by vm_compute. Qed.

Lemma ensemble_cases i : i ∈ ensemble -> i = "n1" \/ i = "n2" \/ i = "n3".
Proof. unfold ensemble. rewrite !elem_of_cons. intros [->|[->|[->|Hi]]]; auto. by apply not_elem_of_nil in Hi. Qed.

Lemma ensemble_configured : configured ensemble sampleConfig.
Proof. intros i [->|[->| ->]]%ensemble_cases; by vm_compute. Qed.

Lemma freshWal_holds i : i ∈ ensemble -> walHolds (freshWal i) (mkDisk 0 "" [] 0).
Proof.
  intros Hi. unfold freshWal.
  assert (Hw : exists w, Open (mkIdentity "ternion" i) [] = Ok (w, initialState (mkIdentity "ternion" i)) /\
    wal_inv w (initialState (mkIdentity "ternion" i))).
  { destruct (ensemble_cases i Hi) as [->|[->| ->]]; apply fresh_inv; vm_compute; done. }
  destruct Hw as (w & -> & Hinv). eexists. split_and!; [exact Hinv| |done].
  destruct (ensemble_cases i Hi) as [->|[->| ->]]; by split.
Qed.

Lemma freshSystem_installed : installed ensemble freshSystem.
Proof.
  split_and!; [done..|]. intros i p Hp. apply elem_of_list_to_map_2, list_elem_of_fmap in Hp as (j & [= -> ->] & Hj).
  split; [done|]. eexists. split; [done|]. by apply freshWal_holds.
Qed.

Definition sessionB : SessionID := replicate 16 x01.

Definition openB : Event := ProposeSession 7 EntryOpenSession sessionB.

(** n1 leads, and its no-op is applied by n1 and n2; a Client asks n1 for a Session. *)
Definition askedScript : list act :=
  [StartNode "n1"; StartNode "n2"; StartNode "n3"; WakeNode "n1" ElectionTimer] ++
  map DeliverTo [1; 3; 5; 7; 11; 14; 15; 17; 20; 23]%nat ++
  [WakeNode "n1" (Input (proposalInput openB 5 5)); DeliverTo 25].

(** The acknowledgement of n2 reaches n1, which answers the Client; n2 learns of the
    commitment, and n1 dies and starts again. *)
Definition answeredScript : list act := [DeliverTo 27].
Definition laterScript : list act := [DeliverTo 29; KillNode "n1"; StartNode "n1"].

(** Applied index, whether a Session is open, and the answered channels. *)
Definition replica (i : NodeID) (s : system) : option (N * bool * list N) :=
  match sy_processes s !! i with
  | Some (Running p) => Some (lastApplied (rt_core (nd_runtime p)),
      bool_decide (is_Some (sm_sessions (cc_state (nd_commands p)) !! sessionB)), map fst (cc_answers (nd_commands p)))
  | _ => None
  end.

(** The round answers channel 5 with success and ends with a Leader. *)
Definition acknowledges5 (p p' : nodeProcess) : bool :=
  bool_decide (role (rt_core (nd_runtime p')) = Leader) &&
  match drop (length (cc_answers (nd_commands p))) (cc_answers (nd_commands p')) with
  | [(ch, AnsweredProposal r)] => (ch =? 5) && negb (res_rejected r) && bool_decide (res_failure r = sessionSucceeded)
  | _ => false
  end.

(** The Node [i] of a system satisfies [check]. *)
Definition atNode (i : NodeID) (s : system) (check : nodeProcess -> bool) : bool :=
  match sy_processes s !! i with Some (Running p) => check p | _ => false end.

Lemma atNode_running i s check : atNode i s check = true ->
  exists p, sy_processes s !! i = Some (Running p) /\ check p = true.
Proof. unfold atNode. destruct (sy_processes s !! i) as [[p|]|]; try done. by exists p. Qed.

Definition applied2 (p : nodeProcess) : bool := lastApplied (rt_core (nd_runtime p)) =? 2.

(** The script of the acknowledged request, from the message that completes it. *)
Definition acknowledgedRun (s : system) : bool :=
  match sy_sent s !! 27%nat with
  | Some a =>
      match arrival a with
      | Some (i, e) =>
          bool_decide (i = "n1") &&
          match wakeNode true i (Input (raftEventInput e)) s with
          | Some s1 =>
              atNode "n1" s (fun p => atNode "n1" s1 (fun p' => acknowledges5 p p' && applied2 p')) &&
              match playSystem sampleConfig s1 laterScript with
              | Some s' => atNode "n1" s' applied2 && atNode "n2" s' applied2
              | None => false
              end
          | None => false
          end
      | None => false
      end
  | None => false
  end.

Lemma acknowledged_run : exists s p e p' r s' q1 q2,
  rtc (system_step sampleConfig) freshSystem s /\ sy_processes s !! "n1" = Some (Running p) /\
  served_by s "n1" sampleEnv (Input (raftEventInput e)) p /\
  round sampleEnv (Input (raftEventInput e)) p = (Ok tt, p') /\ bounded p' /\
  role (rt_core (nd_runtime p')) = Leader /\ lastApplied (rt_core (nd_runtime p')) = 2 /\
  (5, AnsweredProposal r) ∈ drop (length (cc_answers (nd_commands p))) (cc_answers (nd_commands p')) /\
  res_rejected r = false /\ res_failure r = sessionSucceeded /\
  rtc (system_step sampleConfig) (after s "n1" (Running p') (roundActions sampleEnv (Input (raftEventInput e)) p) []) s' /\
  sy_processes s' !! "n1" = Some (Running q1) /\ lastApplied (rt_core (nd_runtime q1)) = 2 /\
  sy_processes s' !! "n2" = Some (Running q2) /\ lastApplied (rt_core (nd_runtime q2)) = 2.
Proof.
  assert (Hc : match playSystem sampleConfig freshSystem askedScript with
               | Some s => acknowledgedRun s | None => false end = true) by (vm_compute; reflexivity).
  destruct (playSystem sampleConfig freshSystem askedScript) as [s|] eqn:Hs; [|discriminate Hc].
  apply playSystem_sound in Hs. unfold acknowledgedRun in Hc.
  destruct (sy_sent s !! 27%nat) as [a|] eqn:Ha; [|discriminate Hc].
  destruct (arrival a) as [[i e]|] eqn:He; [|discriminate Hc]. apply andb_prop in Hc as [Hi Hc].
  apply bool_decide_eq_true in Hi as ->.
  destruct (wakeNode true _ _ s) as [s1|] eqn:Hw; [|discriminate Hc]. apply andb_prop in Hc as [Hans Hl].
  destruct (wakeNode_served _ _ _ _ _ (arrival_sent s _ _ _ _ Ha He) Hw) as (p & p' & Hp & Hsv & Hr & Hb & ->).
  apply atNode_running in Hans as (p0 & Hp0 & Hans). rewrite Hp in Hp0. injection Hp0 as <-.
  apply atNode_running in Hans as (p1 & Hp1 & Hans). cbn in Hp1. rewrite lookup_insert_eq in Hp1. injection Hp1 as <-.
  apply andb_prop in Hans as [Hans Hla]. apply N.eqb_eq in Hla. unfold acknowledges5 in Hans.
  apply andb_prop in Hans as [Hlead Hans]. apply bool_decide_eq_true in Hlead.
  destruct (playSystem sampleConfig _ laterScript) as [s'|] eqn:Hs'; [|discriminate Hl]. apply playSystem_sound in Hs'.
  apply andb_prop in Hl as [H1 H2]. apply atNode_running in H1 as (q1 & Hq1 & H1), H2 as (q2 & Hq2 & H2).
  apply N.eqb_eq in H1, H2.
  destruct (drop _ _) as [|[ch [r|]] []] eqn:Hd; try discriminate Hans. apply andb_prop in Hans as [[Hch Hrej]%andb_prop Hf].
  apply N.eqb_eq in Hch as ->. apply negb_true_iff in Hrej. apply bool_decide_eq_true in Hf.
  exists s, p, e, p', r, s', q1, q2. rewrite Hd. split_and!; try assumption. apply list_elem_of_here.
Qed.








(** ** The guarantees *)

(** C1: the machines of the replicas agree.  The replicated state of a running Node is the
    replay of the entries its log holds up to the applied index, and of two Nodes, possibly at
    different times, the one that has applied more has applied the other's entries first: its state is
    the other's after the entries it lacks, and Nodes that have applied the same number of entries
    hold the same Values and Sessions.  Processes are whole Nodes on write-ahead logs of
    bytes; they exit, are killed inside a save, lose what was not synced when the power fails and
    start again, and messages are lost, delayed, duplicated and reordered.  Assumed: no Snapshot is
    taken or transferred, every log fits one AppendEntries request, and the power does not fail while what
    a killed process left unsynced is not on disk. *)
Theorem replicas_agree `{CheckpointCodec} (members : list NodeID) (config : NodeID -> Config) s0 s s' i j p q :
  NoDup members -> "" ∉ members -> Forall (nameable (S := WAL) (E := Error)) members ->
  configured members config -> installed members s0 ->
  rtc (system_step config) s0 s -> rtc (system_step config) s s' ->
  sy_processes s !! i = Some (Running p) -> sy_processes s' !! j = Some (Running q) ->
  cf_ActiveSessionLimit (config i) = cf_ActiveSessionLimit (config j) ->
  (cc_state (nd_commands p) = applyAll (newSessionMachine (cf_ActiveSessionLimit (config i))) (appliedLog p) /\
   cc_state (nd_commands q) = applyAll (newSessionMachine (cf_ActiveSessionLimit (config j))) (appliedLog q)) /\
  (lastApplied (rt_core (nd_runtime p)) <= lastApplied (rt_core (nd_runtime q)) ->
   appliedLog p `prefix_of` appliedLog q /\ ahead p q) /\
  (lastApplied (rt_core (nd_runtime q)) <= lastApplied (rt_core (nd_runtime p)) ->
   appliedLog q `prefix_of` appliedLog p /\ ahead q p).
Proof.
  intros Hnd Hne Hna Hcf Hin Hr Hr' Hp Hq Hl.
  destruct (reachable_executed members config Hcf Hnd Hne Hna s0 s Hin Hr) as [_ [h Hok]].
  destruct (rtc_system_ok members config Hcf Hnd Hne Hna s h s' Hok Hr') as (h' & _ & Hok').
  destruct (running_prefix members config Hcf Hnd Hne Hna s h s' i j p q Hok Hr' Hp Hq) as [H1 H2].
  destruct (replicas_ahead members config Hcf Hnd Hne Hna s h s' i j p q Hok Hr' Hp Hq Hl) as [H3 H4].
  split_and!; [by apply (running_replays members config s h)|by apply (running_replays members config s' h')|by split; auto..].
Qed.

Lemma replicas_agree_witness : exists s' q1 q2,
  rtc (system_step sampleConfig) freshSystem s' /\
  sy_processes s' !! "n1" = Some (Running q1) /\ sy_processes s' !! "n2" = Some (Running q2) /\
  lastApplied (rt_core (nd_runtime q1)) = 2 /\ appliedLog q1 `prefix_of` appliedLog q2 /\ ahead q1 q2 /\ ahead q2 q1.
Proof.
  destruct acknowledged_run as (s & p & e & p' & r & s' & q1 & q2 & Hs & Hp & Hsv & Hr & Hb & _ & _ & _ & _ & _ & Hs' & Hq1 & L1 & Hq2 & L2).
  assert (Hrun : rtc (system_step sampleConfig) freshSystem s').
  { etransitivity; [exact Hs|]. eapply rtc_l; [exact (sy_round sampleConfig s "n1" p sampleEnv _ p' Hp Hsv Hr Hb)|exact Hs']. }
  exists s', q1, q2. split; [exact Hrun|]. split; [exact Hq1|]. split; [exact Hq2|]. split; [exact L1|].
  destruct (replicas_agree ensemble sampleConfig freshSystem s' s' "n1" "n2" q1 q2 ensemble_nodup ensemble_named
    ensemble_nameable ensemble_configured freshSystem_installed Hrun (rtc_refl _ _) Hq1 Hq2 eq_refl) as (_ & H12 & H21).
  rewrite L1, L2 in H12, H21. destruct (H12 ltac:(reflexivity)) as [Hpre H12'].
  split; [exact Hpre|]. split; [exact H12'|]. apply H21. reflexivity.
Defined.

(** C2: a command that a Leader has acknowledged is never lost.  When a round of a Node that
    leads at its end answers a request with success, then the request was made, and from then on
    every Node that has applied as many entries as the Leader had has the command in its log, at one of
    those positions: an entry with the Session and sequence number of the request and with the Key
    and Value that a Client gave for them (the request's own, or those of the one it repeats).
    Applying that entry took effect: it set or deleted its Key, or opened or closed its Session.
    Whatever Leaders fail; no Snapshot is taken or transferred, every log fits one
    AppendEntries request, and the power does not fail while what a killed process left unsynced is
    not on disk. *)
Theorem acknowledged_commands_survive `{CheckpointCodec} (members : list NodeID) (config : NodeID -> Config)
    s0 s i p env w p' ch r s' j q :
  NoDup members -> "" ∉ members -> Forall (nameable (S := WAL) (E := Error)) members ->
  configured members config -> installed members s0 -> rtc (system_step config) s0 s ->
  sy_processes s !! i = Some (Running p) -> served_by s i env w p ->
  round env w p = (Ok tt, p') -> bounded p' -> role (rt_core (nd_runtime p')) = Leader ->
  (ch, AnsweredProposal r) ∈ drop (length (cc_answers (nd_commands p))) (cc_answers (nd_commands p')) ->
  res_rejected r = false -> res_failure r = sessionSucceeded ->
  rtc (system_step config) (after s i (Running p') (roundActions env w p) (madeBy w)) s' ->
  sy_processes s' !! j = Some (Running q) ->
  lastApplied (rt_core (nd_runtime p')) <= lastApplied (rt_core (nd_runtime q)) ->
  cf_ActiveSessionLimit (config i) = cf_ActiveSessionLimit (config j) ->
  exists event k x, (i, (ch, event)) ∈ sy_requests s ++ map (pair i) (madeBy w) /\
    requests event x /\ askedFor (sy_requests s') x /\
    N.of_nat k < lastApplied (rt_core (nd_runtime p')) /\ log (rt_core (nd_runtime q)) !! k = Some x /\
    tookEffect (applyAll (newSessionMachine (cf_ActiveSessionLimit (config j))) (take k (log (rt_core (nd_runtime q))))) x
      (applyAll (newSessionMachine (cf_ActiveSessionLimit (config j))) (take (S k) (log (rt_core (nd_runtime q))))) /\
    effected event (cc_state (nd_commands q)).
Proof. intros Hnd Hne Hna Hcf. by apply (acknowledged_kept members config Hcf Hnd Hne Hna). Qed.

Lemma acknowledged_commands_survive_witness : exists s' q,
  rtc (system_step sampleConfig) freshSystem s' /\ sy_processes s' !! "n2" = Some (Running q) /\
  exists event k x, effected event (cc_state (nd_commands q)) /\ N.of_nat k < 2 /\
    log (rt_core (nd_runtime q)) !! k = Some x /\ requests event x.
Proof.
  destruct acknowledged_run as (s & p & e & p' & r & s' & q1 & q2 & Hs & Hp & Hsv & Hr & Hb & Hl & L & Hin & Hrej & Hf & Hs' & Hq1 & L1 & Hq2 & L2).
  exists s', q2. split; [|split; [exact Hq2|]].
  { etransitivity; [exact Hs|]. eapply rtc_l; [exact (sy_round sampleConfig s "n1" p sampleEnv _ p' Hp Hsv Hr Hb)|exact Hs']. }
  destruct (acknowledged_commands_survive ensemble sampleConfig freshSystem s "n1" p sampleEnv _ p' 5 r s' "n2" q2
    ensemble_nodup ensemble_named ensemble_nameable ensemble_configured freshSystem_installed Hs Hp Hsv Hr Hb Hl Hin Hrej Hf
    Hs' Hq2 ltac:(rewrite L, L2; reflexivity) eq_refl) as (event & k & x & _ & Hreq & _ & Hk & Hx & _ & He).
  rewrite L in Hk. exists event, k, x. split; [exact He|]. split; [exact Hk|]. split; [exact Hx|exact Hreq].
Defined.



(** C8: no command is invented.  The state of a running Node is the effect of the entries its log
    holds up to the applied index, each a Leader's no-op or the entry of a request that a Client made
    to some Node, with the Key, Value, Session and sequence number the Client gave.  No Snapshot is taken or
    transferred, every log fits one AppendEntries request, and the power does not fail while what a
    killed process left unsynced is not on disk. *)
Theorem replicas_hold_requested_commands `{CheckpointCodec} (members : list NodeID) (config : NodeID -> Config) s0 s i p :
  NoDup members -> "" ∉ members -> Forall (nameable (S := WAL) (E := Error)) members ->
  configured members config -> installed members s0 -> rtc (system_step config) s0 s ->
  sy_processes s !! i = Some (Running p) ->
  cc_state (nd_commands p) = applyAll (newSessionMachine (cf_ActiveSessionLimit (config i))) (appliedLog p) /\
  len (appliedLog p) = lastApplied (rt_core (nd_runtime p)) /\ Forall (askedFor (sy_requests s)) (appliedLog p).
Proof.
  intros Hnd Hne Hna Hcf Hin Hr Hp.
  destruct (reachable_executed members config Hcf Hnd Hne Hna s0 s Hin Hr) as [_ [h Hok]].
  destruct (running_replays members config s h i p Hok Hp) as ([_ Hsent] & Hm & Hlen). split_and!; [done..|].
  eapply Forall_impl; [exact Hsent|]. intros x. by apply (applied_asked members config Hcf Hnd Hne Hna s0 s).
Qed.

Lemma replicas_hold_requested_commands_witness : exists s p,
  rtc (system_step sampleConfig) freshSystem s /\ sy_processes s !! "n1" = Some (Running p) /\
  cc_state (nd_commands p) = applyAll (newSessionMachine (cf_ActiveSessionLimit (sampleConfig "n1"))) (appliedLog p) /\
  len (appliedLog p) = 2 /\ Forall (askedFor (sy_requests s)) (appliedLog p).
Proof.
  destruct acknowledged_run as (s & p & e & p' & r & s' & q1 & q2 & Hs & Hp & Hsv & Hr & Hb & _ & _ & _ & _ & _ & Hs' & Hq1 & L1 & _).
  assert (Hrun : rtc (system_step sampleConfig) freshSystem s').
  { etransitivity; [exact Hs|]. eapply rtc_l; [exact (sy_round sampleConfig s "n1" p sampleEnv _ p' Hp Hsv Hr Hb)|exact Hs']. }
  destruct (replicas_hold_requested_commands ensemble sampleConfig freshSystem s' "n1" q1 ensemble_nodup ensemble_named
    ensemble_nameable ensemble_configured freshSystem_installed Hrun Hq1) as (Hm & Hl & Hf).
  exists s', q1. rewrite L1 in Hl. split; [exact Hrun|]. split; [exact Hq1|]. split; [exact Hm|].
  split; [exact Hl|exact Hf].
Defined.

(** C7: the Nodes implement the cluster.  Every execution of Node processes, with their loops,
    timers, transports and write-ahead logs, in which no Snapshot is taken or transferred, every log fits one
    AppendEntries request and the power does not fail while what a killed process left unsynced is not
    on disk, is an execution of the runtimes alone, in which nothing is delivered that was not sent and nothing is
    proposed that no Client asked for. *)
Theorem system_refines_cluster `{CheckpointCodec} (members : list NodeID) (config : NodeID -> Config) s0 s :
  NoDup members -> "" ∉ members -> Forall (nameable (S := WAL) (E := Error)) members ->
  configured members config -> installed members s0 -> rtc (system_step config) s0 s ->
  rtc (replicates members (requested (sy_requests s))) (asCluster s0) (asCluster s).
Proof. intros Hnd Hne Hna Hcf Hin Hr. by apply (reachable_executed members config Hcf Hnd Hne Hna s0 s Hin Hr). Qed.

Lemma system_refines_cluster_witness : exists s p,
  rtc (system_step sampleConfig) freshSystem s /\ sy_processes s !! "n1" = Some (Running p) /\
  rtc (replicates ensemble (requested (sy_requests s))) (asCluster freshSystem) (asCluster s).
Proof.
  destruct acknowledged_run as (s & p & e & p' & r & s' & q1 & q2 & Hs & Hp & _).
  exists s, p. split; [exact Hs|]. split; [exact Hp|].
  exact (system_refines_cluster ensemble sampleConfig freshSystem s ensemble_nodup ensemble_named ensemble_nameable
    ensemble_configured freshSystem_installed Hs).
Defined.
