(* ===== verification/Mail.v ===== *)
(** Rounds of the Raft loop that succeed, and the messages they put on the wire: what a process
    sends to a peer it is connected to, over a network that delivers. *)

From S2P Require Import Prelude Bytes Wal WalJson RaftTypes RaftCore RaftLog RaftInvariant Session Runtime RuntimeActions Coordinator CoordinatorProps Config Peer SnapshotJson SnapshotFile Transport Metrics NodeLoop NodeLoopProps.

(** The message a round has put on the wire, the last one if there are several. *)
Definition newMail (p p' : nodeProcess) : option SendRequest :=
  snd <$> last (drop (length (tr_sent (nd_transport p))) (tr_sent (nd_transport p'))).

(** What may differ after a delivery: metrics, timers, what is published, the running Snapshot, Clients. *)
Record calm (mail : list (NodeID * SendRequest)) (p p' : nodeProcess) : Prop := {
  cm_config : nd_config p' = nd_config p;
  cm_runtime : nd_runtime p' = nd_runtime p;
  cm_dataDir : nd_dataDir p' = nd_dataDir p;
  cm_incoming : nd_incoming p' = nd_incoming p;
  cm_machine : cc_state (nd_commands p') = cc_state (nd_commands p);
  cm_addresses : tr_config (nd_transport p') = tr_config (nd_transport p);
  cm_clients : tr_clients (nd_transport p') = tr_clients (nd_transport p);
  cm_sent : tr_sent (nd_transport p') = tr_sent (nd_transport p) ++ mail }.

Lemma calm_refl p : calm [] p p.
Proof. split; try done. by rewrite app_nil_r. Qed.

Lemma calm_trans mail mail' p1 p2 p3 : calm mail p1 p2 -> calm mail' p2 p3 -> calm (mail ++ mail') p1 p3.
Proof. intros [] []. split; try congruence. rewrite app_assoc. congruence. Qed.

Lemma calm_mail to message p p' : calm [(to, message)] p p' -> newMail p p' = Some message.
Proof. intros H. unfold newMail. by rewrite (cm_sent _ _ _ H), drop_app_length. Qed.

Section Codec.
Context `{CheckpointCodec}.

Abbreviation core p := (rt_core (nd_runtime p)).

(** ** Sending *)

Section Net.
Context (env : environment).
Hypothesis delivers : forall n id message, gr_send (ev_net env) n id message = Ok tt.

Lemma client_cached id t : (id : string) ∈ tr_clients t -> client (ev_net env) id t = (Ok tt, t).
Proof. intros Hid. unfold client, ebind, eget. by rewrite bool_decide_true. Qed.

(** The transport after a message. *)
Definition posted (to : NodeID) (message : SendRequest) (t : peerTransport) : peerTransport :=
  t <| tr_sent := tr_sent t ++ [(to, message)] |> <| tr_calls := S (tr_calls t) |>.

Lemma send_encoded d action to message t :
  encodeRaftAction (tr_config t) action = Some (to, message) -> (to : string) ∈ tr_clients t ->
  sendAction (ev_net env) d action t = (Ok tt, posted to message t).
Proof using delivers.
  intros He Hc. destruct action; try discriminate He; cbn [sendAction]; unfold ebind at 1, eget at 1; rewrite He;
    unfold ebind at 1; rewrite client_cached by done; unfold transmit, call, ebind, emodify, eget, eret;
    rewrite delivers; reflexivity.
Qed.

Lemma send_chunk d to term request index snapshotTerm offset contents message t :
  Encoded d index snapshotTerm = Ok contents ->
  snapshotChunk (tr_config t) to term request index snapshotTerm offset contents = Ok message ->
  (to : string) ∈ tr_clients t ->
  sendAction (ev_net env) d (SendInstallSnapshot to term request index snapshotTerm offset) t = (Ok tt, posted to message t).
Proof using delivers.
  intros He Hm Hc. cbn [sendAction]. unfold sendSnapshot. unfold ebind at 1, eget at 1. rewrite He, Hm. unfold ebind at 1.
  rewrite client_cached by done. unfold transmit, call, ebind, emodify, eget, eret. rewrite delivers. reflexivity.
Qed.

(** ** The actions of a round *)

Abbreviation succeeds_calmly m mail := (fun p => ewp m (fun _ p' => calm mail p p') (fun _ _ => False) p).

Lemma deliver_calm action to message p :
  sendAction (ev_net env) (nd_dataDir p) action (nd_transport p) = (Ok tt, posted to message (nd_transport p)) ->
  succeeds_calmly (deliver env action) [(to, message)] p.
Proof.
  intros Hs. unfold deliver. apply ewp_bind, ewp_modify, ewp_bind, ewp_get. cbn.
  rewrite Hs. apply ewp_bind, ewp_modify, ewp_ret. by split.
Qed.

Lemma handle_timer current p : succeeds_calmly (handleAction env current ResetElectionTimer) [] p.
Proof.
  unfold handleAction. apply ewp_bind, ewp_get. cbn. split; try done. by rewrite app_nil_r.
Qed.

Definition isSend (action : Action) : bool :=
  match action with
  | SendAppendEntries _ _ | SendInstallSnapshot _ _ _ _ _ _ | SendInstallSnapshotResponse _ _ => true
  | _ => false
  end.

Lemma handle_sent current action to message p :
  isSend action = true ->
  sendAction (ev_net env) (nd_dataDir p) action (nd_transport p) = (Ok tt, posted to message (nd_transport p)) ->
  succeeds_calmly (handleAction env current action) [(to, message)] p.
Proof.
  intros Ha Hs. unfold handleAction. apply ewp_bind, ewp_get.
  assert (handle action current (nd_commands p) = (false, nd_commands p)) as -> by (by destruct action).
  apply ewp_bind, ewp_modify.
  assert (Hd : ewp (deliver env action) (fun _ p' => calm [(to, message)] p p') (fun _ _ => False)
    (p <| nd_commands := nd_commands p |>)).
  { eapply ewp_mono; [by apply deliver_calm|intros [] p' []; by split|done]. }
  destruct action; try discriminate Ha; exact Hd.
Qed.

(** ** The end of a round *)

Lemma startSnapshot_calm waiter automatic p :
  getState (core p) <> None -> succeeds_calmly (startSnapshot waiter automatic) [] p.
Proof.
  intros Hs. unfold startSnapshot. apply ewp_bind, ewp_modify, ewp_bind, ewp_get.
  set (p1 := match waiter with Some ch => _ | None => p end).
  assert (H1 : calm [] p p1 /\ core p1 = core p).
  { destruct waiter; cbn; (split; [|done]); [|apply calm_refl]. split; try done. by rewrite app_nil_r. }
  destruct H1 as [H1 Hc]. cbv zeta. destruct (snapshotRunning p1); [by apply ewp_ret|].
  apply ewp_bind, ewp_modify, ewp_bind. unfold ewp, coreState. cbn. rewrite Hc.
  destruct (getState (core p)) as [state|]; [|done]. cbn. by destruct H1.
Qed.

Lemma conclude_calm was p : getState (core p) <> None -> succeeds_calmly (concludeRound was) [] p.
Proof.
  intros Hs. unfold concludeRound. apply ewp_bind. unfold ewp at 1, coreState.
  destruct (getState (core p)) as [state|] eqn:Est; [|done].
  do 3 apply ewp_bind, ewp_modify. apply ewp_bind, ewp_get.
  match goal with |- ewp _ _ _ ?q => set (p1 := q) end.
  assert (H1 : calm [] p p1 /\ core p1 = core p).
  { unfold p1, publishRaftState. destruct (was && negb (isLeader state)), (negb (isLeader state)); cbn;
      (split; [|done]); split; try done; by rewrite app_nil_r. }
  destruct H1 as [H1 Hc]. cbv zeta beta. destruct (_ && _ && _); [|by apply ewp_ret].
  eapply ewp_mono; [apply startSnapshot_calm; by rewrite Hc, Est| |done].
  intros [] p' H2. exact (calm_trans [] [] _ _ _ H1 H2).
Qed.

(** ** A round *)

Lemma step_plain event (r : raftRuntime WAL) acts n' :
  Step event (rt_core r) = Some (acts, n') -> Forall (fun a => isPersist a = false) acts ->
  (length acts <= ev_fuel env)%nat ->
  step (E := Error) (ev_fuel env) event r = Done acts (r <| rt_core := n' |>).
Proof.
  intros Hs Hp Hf. unfold step. rewrite Hs.
  assert (Hd : forall fuel emitted (r' : raftRuntime WAL), (length acts <= fuel)%nat ->
    drain (E := Error) fuel acts emitted r' = Done (emitted ++ acts) r').
  { clear Hs Hf. induction Hp as [|a acts Ha Hp IH]; intros fuel emitted r' Hf; [destruct fuel; cbn; by rewrite app_nil_r|].
    destruct fuel as [|fuel]; cbn in Hf; [lia|]. cbn [drain].
    assert (persist (E := Error) a r' = Emitted) as -> by (by destruct a). rewrite IH by lia. by rewrite <- app_assoc. }
  by rewrite Hd.
Qed.

(** A round whose parts succeed. *)
Lemma round_succeeds event event' p p1 acts n' mail :
  received env event (pruned env p) = (Ok event', p1) -> getState (core p1) <> None ->
  Step event' (core p1) = Some (acts, n') -> getState n' <> None ->
  Forall (fun a => isPersist a = false) acts -> (length acts <= ev_fuel env)%nat ->
  succeeds_calmly (efor (handleAction env (Some (raftEventInput event))) acts) mail
    (p1 <| nd_runtime := (nd_runtime p1) <| rt_core := n' |> |>) ->
  exists p', round env (Input (raftEventInput event)) p = (Ok tt, p') /\
    calm mail (p1 <| nd_runtime := (nd_runtime p1) <| rt_core := n' |> |>) p'.
Proof.
  intros Hrec Hs1 Hstep Hs2 Hpl Hfuel Hacts. set (p2 := p1 <| nd_runtime := _ |>) in *.
  assert (Hd : ewp (iterate env (Input (raftEventInput event))) (fun _ p' => calm mail p2 p') (fun _ _ => False) p).
  { unfold iterate. apply ewp_bind, ewp_modify, ewp_bind, ewp_get. change (p <| nd_commands := _ |>) with (pruned env p).
    unfold serveInput. apply ewp_bind, ewp_get. unfold ewp. rewrite dispatch_received. apply ewp_bind.
    unfold ewp at 1. rewrite Hrec. apply ewp_bind. unfold ewp at 1, coreState.
    destruct (getState (core p1)) as [before|]; [|done]. apply ewp_bind. unfold ewp at 1, stepRaft.
    rewrite (step_plain _ _ _ _ Hstep Hpl Hfuel). apply ewp_bind.
    eapply ewp_mono; [exact Hacts| |done]. intros [] p3 H3. cbv beta.
    eapply ewp_mono; [apply conclude_calm; by rewrite (cm_runtime _ _ _ H3)| |done].
    intros [] p4 H4. pose proof (calm_trans _ _ _ _ _ H3 H4) as H5. by rewrite app_nil_r in H5. }
  unfold ewp in Hd. unfold round. destruct (iterate _ _ p) as [[[]|] p']; [by exists p'|done].
Qed.
End Net.
End Codec.
