(* ===== verification/SnapshotTransfer.v ===== *)
(** The transfer of a Snapshot in chunks: [sendSnapshot] on the Leader's side,
    [receiveSnapshot] on the Follower's. *)

From S2P Require Import Prelude Bytes Wal WalJson RaftTypes RaftCore RaftLog RaftInvariant RaftElection RaftActions Session SessionProps Runtime RuntimeActions Coordinator Config Peer SnapshotJson SnapshotFile Transport Metrics NodeLoop NodeLoopProps NodeLoopInvariants.

(** ** One transfer *)

(** What a transfer is about. *)
Record transfer := mkTransfer {
  tf_sender : Config; tf_receiver : Config; tf_term : N; tf_request : N;
  tf_index : N; tf_snapshotTerm : N; tf_contents : list byte }.

Abbreviation senderID t := (nc_ID (cf_Node (tf_sender t))).
Abbreviation receiverID t := (nc_ID (cf_Node (tf_receiver t))).

(** Two members of one cluster, and lengths that fit a uint64. *)
Record agreed (t : transfer) : Prop := {
  ag_cluster : cf_ClusterID (tf_sender t) = cf_ClusterID (tf_receiver t);
  ag_members : cf_Members (tf_sender t) = cf_Members (tf_receiver t);
  ag_distinct : senderID t <> receiverID t;
  ag_sender : is_Some (cf_Members (tf_receiver t) !! senderID t);
  ag_receiver : is_Some (cf_Members (tf_receiver t) !! receiverID t);
  ag_length : len (tf_contents t) + chunkSize < two64 }.

Section Codec.
Context `{CheckpointCodec}.

Definition nextOffset (t : transfer) (offset : N) : N := N.min (offset + chunkSize) (len (tf_contents t)).

Definition chunkRequest (t : transfer) (offset : N) : InstallSnapshot :=
  mkInstallSnapshot (nc_ID (cf_Node (tf_sender t))) (tf_term t) (tf_request t) (tf_index t)
    (tf_snapshotTerm t) (len (tf_contents t)) (crc32 (tf_contents t)) offset
    (take (N.to_nat (nextOffset t offset - offset)) (drop (N.to_nat offset) (tf_contents t)))
    (nextOffset t offset =? len (tf_contents t)) false 0 false.

(** The chunk on the wire. *)
Definition chunkMessage (t : transfer) (offset : N) : SendRequest :=
  let r := chunkRequest t offset in
  mkSendRequest peerProtocolVersion (cf_ClusterID (tf_sender t)) (senderID t) (receiverID t)
    (Some (SendRequest_InstallSnapshotRequest
       (mkPbInstallSnapshotRequest (is_Term r) (is_RequestID r) (is_SnapshotIndex r) (is_SnapshotTerm r)
          (is_Length r) (is_Checksum r) (is_Offset r) (is_Data r) (is_Done r)))).

Lemma chunk_sent t offset :
  agreed t -> offset <= len (tf_contents t) ->
  snapshotChunk (tf_sender t) (receiverID t) (tf_term t) (tf_request t) (tf_index t) (tf_snapshotTerm t) offset
    (tf_contents t) = Ok (chunkMessage t offset).
Proof.
  intros [] Ho. unfold snapshotChunk, guard. destruct (N.ltb_spec (len (tf_contents t)) offset); [lia|]. cbn [rbind].
  rewrite u64_small by lia. unfold chunkMessage, chunkRequest, nextOffset. cbn. do 4 f_equal.
  all: destruct (N.ltb_spec (len (tf_contents t)) (offset + chunkSize)); f_equal; lia || (f_equal; lia).
Qed.

Lemma chunk_heard t offset :
  agreed t -> Send (tf_receiver t) (chunkMessage t offset) = Ok (EvInstallSnapshot (chunkRequest t offset)).
Proof.
  intros []. unfold Send. cbn [chunkMessage sq_ProtocolVersion sq_ClusterId sq_FromNodeId sq_ToNodeId].
  by rewrite (proj2 (validatePeer_ok _ _ _ _ _)) by (by split_and!).
Qed.

(** The Follower's answer. *)
Definition answerOf (t : transfer) (offset : N) (installed : bool) : InstallSnapshotResponse :=
  mkInstallSnapshotResponse (receiverID t) (tf_term t) (tf_request t) (tf_index t) true offset installed.

Definition answerMessage (t : transfer) (offset : N) (installed : bool) : SendRequest :=
  mkSendRequest peerProtocolVersion (cf_ClusterID (tf_receiver t)) (receiverID t) (senderID t)
    (Some (SendRequest_InstallSnapshotResponse
       (mkPbInstallSnapshotResponse (tf_term t) (tf_request t) true offset (tf_index t) installed))).

Lemma answer_heard t offset installed :
  agreed t ->
  Send (tf_sender t) (answerMessage t offset installed) = Ok (EvInstallSnapshotResponse (answerOf t offset installed)).
Proof.
  intros [Hc Hm ? ? ? ?]. unfold Send. cbn [answerMessage sq_ProtocolVersion sq_ClusterId sq_FromNodeId sq_ToNodeId].
  rewrite (proj2 (validatePeer_ok _ _ _ _ _)); [done|]. rewrite Hm. by split_and!.
Qed.

Definition receivedThrough (t : transfer) (offset : N) : incomingSnapshot :=
  mkIncoming (tf_index t) (tf_snapshotTerm t) (len (tf_contents t)) (crc32 (tf_contents t))
    (take (N.to_nat offset) (tf_contents t)).

(** The receiver holds the first [offset] bytes of the transfer. *)
Definition holding (t : transfer) (offset : N) (p : nodeProcess) : Prop :=
  offset = 0 \/ nd_incoming p = Some (receivedThrough t offset).

Lemma chunk_appended t offset :
  offset <= len (tf_contents t) ->
  take (N.to_nat offset) (tf_contents t) ++ is_Data (chunkRequest t offset) =
  take (N.to_nat (nextOffset t offset)) (tf_contents t).
Proof.
  intros Ho. cbn. rewrite take_take_drop. f_equal. unfold nextOffset. lia.
Qed.

Lemma chunk_continues t offset :
  agreed t -> offset <= len (tf_contents t) ->
  continues (receivedThrough t offset) (chunkRequest t offset) = true.
Proof.
  intros [_ _ _ _ _ Hl] Ho. unfold continues. cbn. rewrite !N.eqb_refl, len_take, len_take, len_drop. cbn.
  rewrite N.min_l, N.eqb_refl by lia. cbn. rewrite u64_small by (unfold nextOffset; lia).
  apply negb_true_iff, N.ltb_ge. unfold nextOffset. lia.
Qed.

(** What [receiveSnapshot] does once the incoming data is in place. *)
Definition finishChunk (env : environment) (request : InstallSnapshot) (incoming : incomingSnapshot)
    : LM InstallSnapshot :=
  let+ p := eget in
  let next := len (in_data incoming) in
  if negb (is_Done request) then eret (answered request true next (is_Installed request))
  else
    let+ request :=
      match receivedState (nd_config p) incoming with
      | Some state =>
          do+ onDataDir (Save (ev_fates env) (ev_randoms env) state) in
          do+ onWAL (Wal.InstallSnapshot (sn_IncludedIndex state) (sn_IncludedTerm state)) in
          do+ onMachine (restore (Some state)) in
          do+ emodify (fun p => p <| nd_metrics ::= fun m =>
                m <| mt_snapshotInstalls := mt_snapshotInstalls m +! 1 |> |>) in
          eret (answered request true next true)
      | None => eret (answered request false 0 (is_Installed request))
      end in
    do+ emodify (fun p => p <| nd_incoming := None |>) in
    eret request.

Definition begun (request : InstallSnapshot) (p : nodeProcess) : nodeProcess :=
  if is_Offset request =? 0
  then p <| nd_incoming := Some (mkIncoming (is_SnapshotIndex request) (is_SnapshotTerm request)
              (is_Length request) (is_Checksum request) []) |>
  else p.

Definition grown (incoming : incomingSnapshot) (request : InstallSnapshot) : incomingSnapshot :=
  mkIncoming (in_index incoming) (in_term incoming) (in_length incoming) (in_checksum incoming)
    (in_data incoming ++ is_Data request).

Lemma receive_continues env request incoming p :
  nd_incoming (begun request p) = Some incoming -> continues incoming request = true ->
  receiveSnapshot env request p =
  finishChunk env request (grown incoming request)
    ((begun request p) <| nd_incoming := Some (grown incoming request) |>).
Proof.
  intros Hi Hc. unfold receiveSnapshot, begun in *. unfold ebind, eget, emodify, eret.
  destruct (_ =? 0); cbn beta iota; rewrite Hi, Hc; done.
Qed.

Lemma receive_chunk env t offset p :
  agreed t -> offset <= len (tf_contents t) -> holding t offset p ->
  receiveSnapshot env (chunkRequest t offset) p =
  finishChunk env (chunkRequest t offset) (receivedThrough t (nextOffset t offset))
    (p <| nd_incoming := Some (receivedThrough t (nextOffset t offset)) |>).
Proof.
  intros Ha Ho Hh. rewrite (receive_continues _ _ (receivedThrough t offset)).
  - assert (Hg : grown (receivedThrough t offset) (chunkRequest t offset) =
                 receivedThrough t (nextOffset t offset)).
    { unfold grown, receivedThrough. cbn [in_index in_term in_length in_checksum in_data].
      by rewrite chunk_appended. }
    rewrite Hg. unfold begun. by destruct (_ =? 0).
  - unfold begun. change (is_Offset (chunkRequest t offset)) with offset.
    destruct (N.eqb_spec offset 0) as [->|Hn]; [done|]. by destruct Hh.
  - by apply chunk_continues.
Qed.

(** A chunk that is not the last one is kept, and the next one asked for. *)
Lemma receive_middle env t offset p :
  agreed t -> nextOffset t offset < len (tf_contents t) -> holding t offset p ->
  receiveSnapshot env (chunkRequest t offset) p =
  (Ok (answered (chunkRequest t offset) true (nextOffset t offset) false),
   p <| nd_incoming := Some (receivedThrough t (nextOffset t offset)) |>).
Proof.
  intros Ha Hn Hh. rewrite receive_chunk by (done || unfold nextOffset in *; lia).
  unfold finishChunk, ebind, eget, eret. cbn [is_Done chunkRequest].
  destruct (N.eqb_spec (nextOffset t offset) (len (tf_contents t))); [lia|]. cbn [negb].
  cbn [in_data receivedThrough]. rewrite len_take. by rewrite N.min_l by lia.
Qed.

(** The file that arrived, as the receiver records it: under its own identity. *)
Definition localState (t : transfer) (state : snapState) : snapState :=
  mkSnapState (snapshotIdentity (tf_receiver t)) (sn_IncludedIndex state) (sn_IncludedTerm state)
    (sn_Values state) (sn_Sessions state).

(** The transfer carries the Snapshot it announces. *)
Record carries (t : transfer) (state : snapState) : Prop := {
  ca_decodes : Decode (tf_contents t) = Ok state;
  ca_index : sn_IncludedIndex state = tf_index t;
  ca_term : sn_IncludedTerm state = tf_snapshotTerm t;
  ca_cluster : snapshotClusterMatches (sn_Identity state) (snapshotIdentity (tf_receiver t)) = true }.

Lemma received_state t state :
  carries t state ->
  receivedState (tf_receiver t) (receivedThrough t (len (tf_contents t))) = Some (localState t state).
Proof.
  intros [Hd Hi Ht Hc]. unfold receivedState, receivedThrough.
  cbn [in_data in_length in_checksum in_index in_term].
  rewrite take_ge by (unfold len; lia). rewrite Hd, Hi, Ht, Hc, !N.eqb_refl. cbn [andb].
  unfold localState. by rewrite Hi, Ht.
Qed.

(** The three installations succeed at [p]. *)
Record installs (env : environment) (local : snapState) (p : nodeProcess) (name : string)
    (files : directory) (wal : WAL) (machine : sessionMachine) : Prop := {
  ins_save : Save (ev_fates env) (ev_randoms env) local (nd_dataDir p) = (Ok name, files);
  ins_wal : Wal.InstallSnapshot (sn_IncludedIndex local) (sn_IncludedTerm local)
              (rt_wal (nd_runtime p)) = (Ok tt, wal);
  ins_restore : restore (Some local) (cc_state (nd_commands p)) = (Ok tt, machine) }.

(** The process after the installation. *)
Definition installed (files : directory) (wal : WAL) (machine : sessionMachine) (p : nodeProcess)
    : nodeProcess :=
  p <| nd_dataDir := files |> <| nd_runtime := (nd_runtime p) <| rt_wal := wal |> |>
    <| nd_commands := (nd_commands p) <| cc_state := machine |> |>
    <| nd_metrics := (nd_metrics p) <| mt_snapshotInstalls := mt_snapshotInstalls (nd_metrics p) +! 1 |> |>
    <| nd_incoming := None |>.

Lemma receive_last env t offset state name files wal machine p :
  agreed t -> carries t state -> nd_config p = tf_receiver t ->
  nextOffset t offset = len (tf_contents t) -> offset <= len (tf_contents t) -> holding t offset p ->
  installs env (localState t state) p name files wal machine ->
  receiveSnapshot env (chunkRequest t offset) p =
  (Ok (answered (chunkRequest t offset) true (len (tf_contents t)) true), installed files wal machine p).
Proof.
  intros Ha Hc Hcfg Hn Ho Hh [Hs Hw Hr]. rewrite receive_chunk by done. rewrite Hn.
  unfold finishChunk, ebind, eget, eret. cbn [is_Done chunkRequest]. rewrite Hn, N.eqb_refl. cbn [negb].
  change (nd_config (_ p)) with (nd_config p). rewrite Hcfg, (received_state _ _ Hc).
  unfold onDataDir, onWAL, onMachine, on, emodify.
  change (nd_dataDir (_ p)) with (nd_dataDir p). rewrite Hs. cbn beta iota.
  change (rt_wal (nd_runtime _)) with (rt_wal (nd_runtime p)). rewrite Hw. cbn beta iota.
  change (cc_state (nd_commands _)) with (cc_state (nd_commands p)) at 1. rewrite Hr. cbn beta iota.
  cbn [in_data receivedThrough]. rewrite len_take, N.min_r by (unfold len; lia). done.
Qed.

End Codec.

(** ** Late transfers *)

(** Three committed entries of Leader n2 in term 1: its own, an open Session, a Set. *)
Definition entries3 : list LogEntry :=
  [mkLogEntry 1 1 EntryNoOp [] 0 "" []; mkLogEntry 2 1 EntryOpenSession (replicate 16 x01) 0 "" [];
   mkLogEntry 3 1 EntrySet (replicate 16 x01) 1 "k" [x61]].

Definition replicates : environment * wakeup :=
  hears (EvAppendEntries (mkAppendEntries "n2" 1 1 0 0 entries3 3 0)).

Definition heartbeat (request commit : N) : environment * wakeup :=
  hears (EvAppendEntries (mkAppendEntries "n2" 1 request 2 1 (drop 2 entries3) commit 0)).

(** The Snapshot of the state after the entries up to [index], in the file format. *)
Definition snapshotAt (index : nat) : list byte :=
  let m := applyAll (newSessionMachine 8) (take index entries3) in
  let state := snapshot m (snapshotIdentity (sampleConfig "n2")) (N.of_nat index) 1 in
  snapshotHeader (jsonState state) ++ jsonState state.

Definition transferAt (request : N) (index : nat) : transfer :=
  mkTransfer (sampleConfig "n2") (sampleConfig "n1") 1 request (N.of_nat index) 1 (snapshotAt index).

(** The whole Snapshot fits one chunk; the file it is saved in gets the name [unique]. *)
Definition transfers (unique : string) (request : N) (index : nat) : environment * wakeup :=
  (mkEnv (fun _ => false) sampleNet [unique] (fun _ => succeeds) 100,
   Input (raftEventInput (EvInstallSnapshot (chunkRequest (transferAt request index) 0)))).

(** The log was applied up to index 3 and key k has the value [v]. *)
Definition applied_with (v : option (list byte)) (p : nodeProcess) : bool :=
  (lastApplied (rt_core (nd_runtime p)) =? 3)
  && bool_decide (sm_values (cc_state (nd_commands p)) !! "k" = v).

Definition caughtUp : list (environment * wakeup) := [replicates; transfers "1" 2 2; heartbeat 3 3].

(** The process that [run] leads to. *)
Definition reached (run : list (environment * wakeup)) : option nodeProcess :=
  match enteredProcess "n1" with Some p => play always run p | None => None end.

Definition rolledBack (p : nodeProcess) (r : result loopExit unit * nodeProcess) : bool :=
  applied_with (Some [x61]) p && match r.1 with Ok _ => applied_with None r.2 | Err _ => false end.

Lemma rolledBack_ok p r :
  rolledBack p r = true ->
  r.1 = Ok tt /\
  lastApplied (rt_core (nd_runtime p)) = 3 /\ sm_values (cc_state (nd_commands p)) !! "k" = Some [x61] /\
  lastApplied (rt_core (nd_runtime r.2)) = 3 /\ sm_values (cc_state (nd_commands r.2)) !! "k" = None.
Proof.
  unfold rolledBack, applied_with. destruct (r.1) as [[]|]; intros Hb; reflect_bools; [|done].
  split_and!; try done; by eapply bool_decide_eq_true_1.
Qed.

(** A repeated transfer of a Snapshot that the log already covers rolls the state
    machine back.  The loop restores the state machine before the core looks at the
    request; the core then ignores it, because its log starts at that index, and keeps
    [lastApplied].  The Set of entry 3 was applied, is gone after the transfer, and will not be
    applied again. *)
Theorem repeated_transfer_loses_applied_entries :
  exists p l q env w q',
    started p /\ performs anything p l q /\ ready w q = true /\ round env w q = (Ok tt, q') /\
    lastApplied (rt_core (nd_runtime q)) = 3 /\ sm_values (cc_state (nd_commands q)) !! "k" = Some [x61] /\
    lastApplied (rt_core (nd_runtime q')) = 3 /\ sm_values (cc_state (nd_commands q')) !! "k" = None.
Proof.
  destruct (observed always anything caughtUp (transfers "2" 4 2) rolledBack) as (p & q & Hs & Hp & Hw & _ & Hr);
    [done|vm_compute; reflexivity|]. apply entered_started in Hs. revert Hp Hw Hr.
  generalize (transfers "2" 4 2) as next, (rounds caughtUp) as l. intros [env w] l Hp Hw Hr%rolledBack_ok.
  destruct (round _ _ q) as [res q'] eqn:Hq. destruct Hr as (Hr & ?). cbn in Hr. subst res.
  by exists p, l, q, env, w, q'.
Qed.

Definition refused (_ : nodeProcess) (r : result loopExit unit * nodeProcess) : bool :=
  match r.1 with Err (cannotInstallWAL errSnapshotPosition) => true | _ => false end.

(** A transfer that arrives after a newer one stops the Node.  The write-ahead log
    refuses a Snapshot older than the one it has, and the loop returns that error. *)
Theorem late_transfer_stops_the_node :
  exists p l q env w q',
    started p /\ performs anything p l q /\ ready w q = true /\
    round env w q = (Err (cannotInstallWAL errSnapshotPosition), q').
Proof.
  destruct (observed always anything [replicates; transfers "1" 2 2] (transfers "2" 3 1) refused)
    as (p & q & Hs & Hp & Hw & _ & Hr); [done|vm_compute; reflexivity|]. apply entered_started in Hs. revert Hp Hw Hr.
  generalize (transfers "2" 3 1) as next, (rounds [replicates; transfers "1" 2 2]) as l. intros [env w] l Hp Hw Hr.
  destruct (round _ _ q) as [res q'] eqn:Hq. unfold refused in Hr. cbn in Hr.
  destruct res as [|[]]; try done. destruct e; try done. by exists p, l, q, env, w, q'.
Qed.
