(* ===== verification/SnapshotDelivery.v ===== *)
(** A Snapshot from the Leader's directory to the Follower's: rounds of two processes that answer each
    other, from the first chunk to the log position the Leader goes on from. *)

From S2P Require Import Prelude Bytes Wal WalJson WalRecovery WalOps WalInstall RaftTypes RaftCore RaftLog RaftInvariant Session SessionProps Runtime RuntimeActions Coordinator Config Peer SnapshotJson SnapshotFile SnapshotProps Transport Metrics NodeLoop NodeLoopProps NodeLoopInvariants NodeLoopHistory Mail SnapshotTransfer.

(** ** The conversation *)

Section Codec.
Context `{CheckpointCodec}.

Abbreviation core p := (rt_core (nd_runtime p)).

(** [PeerService.Send] with a message of a peer, and the round that serves it. *)
Definition hear (env : environment) (message : SendRequest) (p : nodeProcess) : option nodeProcess :=
  match Send (nd_config p) message with
  | Ok event =>
      match round env (Input (raftEventInput event)) p with
      | (Ok _, p') => Some p'
      | (Err _, _) => None
      end
  | Err _ => None
  end.

Definition isChunk (message : SendRequest) : bool :=
  match sq_Message message with Some (SendRequest_InstallSnapshotRequest _) => true | _ => false end.

(** The Follower hears [message] and the Leader the Follower's answer, until the Leader's reply
    is not another chunk. *)
Fixpoint converse (fuel : nat) (envL envF : environment) (message : SendRequest) (pL pF : nodeProcess)
    : option (nodeProcess * nodeProcess) :=
  match fuel with
  | O => None
  | S fuel =>
      pF' ← hear envF message pF;
      answer ← newMail pF pF';
      pL' ← hear envL answer pL;
      match newMail pL pL' with
      | Some next => if isChunk next then converse fuel envL envF next pL' pF' else Some (pL', pF')
      | None => Some (pL', pF')
      end
  end.

(** ** The cores *)

Lemma leader_continues n r :
  role n = Leader -> ir_Term r = term n -> map_get (snapshotInFlight n) (ir_From r) = ir_RequestID r ->
  ir_Success r = true -> ir_Done r = false ->
  Step (EvInstallSnapshotResponse r) n =
  Some ([SendInstallSnapshot (ir_From r) (term n) (ir_RequestID r) (logBaseIndex n) (logBaseTerm n) (ir_NextOffset r)], n).
Proof.
  intros Hr Ht Hi Hs Hd. cbn [Step]. unfold handleInstallSnapshotResponse, bind, get, ret.
  by rewrite Ht, N.ltb_irrefl, bool_decide_true, N.eqb_refl, Hi, N.eqb_refl, Hs, Hd.
Qed.

(** What the Leader knows of the Follower after the last answer. *)
Record onward (peer : NodeID) (index : N) (n : Node) : Prop := {
  on_next : map_get (nextIndex n) peer = index + 1;
  on_match : index <= map_get (matchIndex n) peer;
  on_flight : map_get (snapshotInFlight n) peer = 0 }.

Lemma sendAppendEntriesTo_after peer read n :
  wf n -> logBaseIndex n <= durableLogIndex n -> onward peer (logBaseIndex n) n ->
  wlp (sendAppendEntriesTo peer read) (fun acts n' => onward peer (logBaseIndex n) n' /\
    (acts = [] \/ exists r, acts = [SendAppendEntries peer r])) n.
Proof.
  intros Hwf Hd [Hn Hm Hf]. pose proof (wf_last n Hwf). pose proof (wf_bound n Hwf).
  unfold sendAppendEntriesTo. wlp_step. wlp_step. wlp_step; [wlp_step; split; [by split|by left]|].
  cbv zeta. rewrite Hn. rewrite (u64_small (N.min _ _ + 1)) by lia.
  set (next := if _ || _ then _ else _).
  assert (Hnext : logBaseIndex n < next).
  { unfold next. destruct (_ || _); lia. }
  rewrite (proj2 (N.leb_gt _ _)) by done. wlp_auto. subst. split; [by split|eauto].
Qed.

Lemma leader_concludes n r :
  wf n -> role n = Leader -> ir_Term r = term n -> map_get (snapshotInFlight n) (ir_From r) = ir_RequestID r ->
  ir_Success r = true -> ir_Done r = true -> ir_SnapshotIndex r = logBaseIndex n -> logBaseIndex n <= durableLogIndex n ->
  exists acts n', Step (EvInstallSnapshotResponse r) n = Some (acts, n') /\ wf n' /\ onward (ir_From r) (logBaseIndex n) n' /\
    (acts = [] \/ exists q, acts = [SendAppendEntries (ir_From r) q]).
Proof.
  intros Hwf Hr Ht Hi Hs Hd Hx Hb. pose proof (step_wf n (EvInstallSnapshotResponse r) Hwf I) as Hstep.
  unfold wp in Hstep. destruct (Step _ n) as [[acts n']|] eqn:E; [|done]. exists acts, n'. split; [done|]. split; [done|].
  cbn [Step] in E. unfold handleInstallSnapshotResponse, bind, get, modify in E.
  rewrite Ht, N.ltb_irrefl, bool_decide_true, N.eqb_refl, Hi, N.eqb_refl, Hs, Hd in E by done. cbn [negb orb] in E.
  match type of E with sendAppendEntriesTo ?p ?rd ?m = _ => pose proof (sendAppendEntriesTo_after p rd m) as Hsend end.
  unfold wlp in Hsend. rewrite E in Hsend. apply Hsend; [wf_frame|done|].
  pose proof (wf_last n Hwf). pose proof (wf_bound n Hwf).
  split; cbn; unfold map_get; rewrite ?lookup_insert_eq, ?lookup_delete_eq, ?Hx; cbn; [apply u64_small; lia|lia|done].
Qed.

(** What a Follower's core says of a Snapshot it has installed. *)
Record positioned (index t : N) (n : Node) : Prop := {
  po_base : logBaseIndex n = index;
  po_baseTerm : logBaseTerm n = t;
  po_applied : lastApplied n = index;
  po_commit : commitIndex n = index }.

Lemma installSnapshotLog_position index t n :
  commitIndex n <= index ->
  wlp (installSnapshotLog index t) (fun _ n' => positioned index t n' /\ term n' = term n) n.
Proof.
  intros Hc. unfold installSnapshotLog. wlp_step. wlp_step. cbv zeta. wlp_step.
  apply (wlp_mono _ (fun _ n' => n' = n)); [wlp_auto; done|]. intros retained ? ->.
  wlp_step. apply (wlp_mono _ (fun _ n' => commitIndex n' = commitIndex n /\ term n' = term n)).
  { wlp_step; wlp_auto; by subst. }
  intros _ n1 [Hc1 Ht1]. wlp_auto. subst. rewrite <- Ht1.
  destruct (last_entry _); cbn; (split; [split|]); cbn; try done; lia.
Qed.

(** The step of a Follower in the Leader's term. *)
Definition reply (request : InstallSnapshot) (n : Node) : list Action :=
  [ResetElectionTimer;
   SendInstallSnapshotResponse (is_From request)
     (mkInstallSnapshotResponse (node_id n) (is_Term request) (is_RequestID request) (is_SnapshotIndex request)
        (is_Success request) (is_NextOffset request) (is_Installed request))].

Lemma follower_step n request :
  wf n -> term n = is_Term request -> logBaseIndex n < is_SnapshotIndex request ->
  commitIndex n <= is_SnapshotIndex request -> is_SnapshotIndex request + 1 < two64 ->
  exists n', Step (EvInstallSnapshot request) n = Some (reply request n', n') /\ wf n' /\ term n' = term n /\
    if is_Installed request then positioned (is_SnapshotIndex request) (is_SnapshotTerm request) n'
    else logBaseIndex n' = logBaseIndex n /\ commitIndex n' = commitIndex n.
Proof.
  intros Hwf Ht Hb Hc Hx. assert (Hok : event_ok n (EvInstallSnapshot request)) by (intros _ _; auto).
  pose proof (step_wf n _ Hwf Hok) as Hstep. unfold wp in Hstep.
  destruct (Step _ n) as [[acts n']|] eqn:E; [|done]. exists n'.
  assert (Hpost : wlp (handleInstallSnapshot request) (fun acts n' => acts = reply request n' /\ term n' = term n /\
    if is_Installed request then positioned (is_SnapshotIndex request) (is_SnapshotTerm request) n'
    else logBaseIndex n' = logBaseIndex n /\ commitIndex n' = commitIndex n) n).
  { clear E Hstep Hok. unfold handleInstallSnapshot, acceptLeader. wlp_step. wlp_step. rewrite Ht, N.ltb_irrefl.
    repeat (rewrite ?Ht, ?N.ltb_irrefl; cbv beta iota zeta;
      lazymatch goal with |- wlp (if is_Installed _ && _ then _ else _) _ _ => fail | _ => wlp_step end).
    subst. cbn [logBaseIndex].
    rewrite (proj2 (N.ltb_lt _ _)) by done. rewrite andb_true_r.
    destruct (is_Installed request) eqn:Ei.
    - eapply wlp_mono; [by apply installSnapshotLog_position|]. intros _ n1 [Hp Ht1]. cbn in Ht1.
      do 2 wlp_step. apply wlp_ret. unfold reply, snapshotResponse. by rewrite Ht1, Ht, Ei.
    - do 3 wlp_step. apply wlp_ret. unfold reply, snapshotResponse. cbn. by rewrite Ht, Ei. }
  unfold wlp in Hpost. cbn [Step] in E. rewrite E in Hpost. destruct Hpost as (-> & ? & ?). done.
Qed.

(** ** The file *)

(** The disk works and the first random name is free. *)
Record storable (env : environment) (index t : N) (d : directory) : Prop := {
  sr_fates : forall s, ev_fates env s = succeeds;
  sr_free : exists random, head (ev_randoms env) = Some random /\
              d !! (positionPrefix index t +:+ random +:+ ".tmp") = None /\
              d !! (positionPrefix index t +:+ random +:+ ".qsnap") = None }.

Lemma save_succeeds env state d :
  storable env (sn_IncludedIndex state) (sn_IncludedTerm state) d -> validateState state = Ok tt ->
  len (jsonState state) <= maxPayloadSize ->
  exists name d', Save (ev_fates env) (ev_randoms env) state d = (Ok name, d').
Proof.
  intros [Hf (random & Hr & Ht & Hq)] Hv Hmax.
  assert (Hs : ewp (Save (ev_fates env) (ev_randoms env) state) (fun _ _ => True) (fun _ _ => False) d).
  { assert (Ha : forall s (Q : unit -> directory -> Prop) d, Q tt d -> ewp (attempt (ev_fates env) s) Q (fun _ _ => False) d).
    { intros s Q d0 HQ. unfold attempt. by rewrite Hf. }
    unfold Save. rewrite Hv. apply ewp_bind, ewp_ret, ewp_bind, ewp_lift; [intros _ _|intros e].
    2:{ unfold guard. rewrite (proj2 (N.ltb_ge _ _)) by done. done. }
    do 2 apply ewp_bind, Ha. apply ewp_bind, ewp_get. destruct (ev_randoms env) as [|r rs]; [done|]. injection Hr as ->.
    cbn [freeName]. rewrite Ht. apply ewp_bind, ewp_modify, ewp_bind.
    assert (Hrem : forall {A} name (m : EM directory snapError A) Q d, ewp m Q (fun _ _ => False) d ->
      ewp (removing name m) Q (fun _ _ => False) d).
    { intros A name m Q d0. unfold ewp, removing. by destruct (m d0) as [[]]. }
    apply Hrem, ewp_bind, Ha. do 2 (apply ewp_bind; unfold writeFile; apply ewp_bind, ewp_modify, Ha).
    do 3 apply ewp_bind, Ha. apply ewp_bind, ewp_get, ewp_bind. cbv beta.
    match goal with |- context [bool_decide (is_Some (?d0 !! ?k))] => assert (Hn : d0 !! k = None) end.
    { rewrite !lookup_insert_ne; [done|..]; intros E; pose proof (final_is_visible (sn_IncludedIndex state) (sn_IncludedTerm state) random);
        rewrite <- E, temporary_is_hidden in *; done. }
    rewrite bool_decide_false by (rewrite Hn; by intros []). apply ewp_ret, ewp_bind, Ha, ewp_modify, ewp_bind, Ha. done. }
  unfold ewp in Hs. destruct (Save _ _ _ _) as [[name|] d']; [by exists name, d'|done].
Qed.

(** ** The processes *)

(** The Leader has the transfer in flight and its file in the directory. *)
Record leading (t : transfer) (p : nodeProcess) : Prop := {
  ld_config : nd_config p = tf_sender t;
  ld_transport : tr_config (nd_transport p) = tf_sender t;
  ld_connected : (receiverID t : string) ∈ tr_clients (nd_transport p);
  ld_wf : wf (core p);
  ld_role : role (core p) = Leader;
  ld_term : term (core p) = tf_term t;
  ld_base : logBaseIndex (core p) = tf_index t;
  ld_baseTerm : logBaseTerm (core p) = tf_snapshotTerm t;
  ld_durable : tf_index t <= durableLogIndex (core p);
  ld_flight : map_get (snapshotInFlight (core p)) (receiverID t) = tf_request t;
  ld_file : Encoded (nd_dataDir p) (tf_index t) (tf_snapshotTerm t) = Ok (tf_contents t) }.

(** The Follower is behind the Snapshot, and in the Leader's term. *)
Record behind (t : transfer) (p : nodeProcess) : Prop := {
  bh_config : nd_config p = tf_receiver t;
  bh_transport : tr_config (nd_transport p) = tf_receiver t;
  bh_connected : (senderID t : string) ∈ tr_clients (nd_transport p);
  bh_wf : wf (core p);
  bh_term : term (core p) = tf_term t;
  bh_base : logBaseIndex (core p) < tf_index t;
  bh_commit : commitIndex (core p) <= tf_index t;
  bh_bound : tf_index t + 1 < two64;
  bh_wal : sound (rt_wal (nd_runtime p));
  bh_snapshot : w_snapshotIndex (rt_wal (nd_runtime p)) <= tf_index t;
  bh_position : 0 < tf_snapshotTerm t;
  bh_fits : let w := rt_wal (nd_runtime p) in
            fits (recordCompactionCheckpoint,
              marshal (mkCheckpoint (w_identity w) (w_hardState w) (N.max (w_commitIndex w) (tf_index t))
                         (tf_index t) (tf_snapshotTerm t))) }.

(** The network delivers, and no round is cut short. *)
Record reliable (env : environment) : Prop := {
  rl_delivers : forall n id message, gr_send (ev_net env) n id message = Ok tt;
  rl_fuel : (2 <= ev_fuel env)%nat }.

Lemma hear_round env message event p p' :
  Send (nd_config p) message = Ok event -> round env (Input (raftEventInput event)) p = (Ok tt, p') ->
  hear env message p = Some p'.
Proof. intros Hs Hr. unfold hear. by rewrite Hs, Hr. Qed.

(** The Leader sends the chunk that an answer asks for. *)
Lemma leader_hears_middle env t offset p :
  reliable env -> agreed t -> leading t p -> offset <= len (tf_contents t) ->
  exists p', hear env (answerMessage t offset false) p = Some p' /\ newMail p p' = Some (chunkMessage t offset) /\ leading t p'.
Proof.
  intros [Hnet Hfuel] Ha Hl Ho. set (event := EvInstallSnapshotResponse (answerOf t offset false)).
  assert (Hstep : Step event (core p) =
    Some ([SendInstallSnapshot (receiverID t) (tf_term t) (tf_request t) (tf_index t) (tf_snapshotTerm t) offset], core p)).
  { destruct Hl. unfold event. rewrite leader_continues by done. cbn. congruence. }
  destruct (round_succeeds env event event p (pruned env p) _ _ [(receiverID t, chunkMessage t offset)]
    eq_refl (wf_state _ (ld_wf _ _ Hl)) Hstep (wf_state _ (ld_wf _ _ Hl))) as (p' & Hr & Hc).
  - by repeat constructor.
  - cbn. lia.
  - cbn [efor]. apply ewp_bind. eapply ewp_mono; [apply handle_sent; [done|]| |done].
    + destruct Hl. eapply send_chunk; [done|exact ld_file0| |done]. cbn. rewrite ld_transport0. by apply chunk_sent.
    + intros [] p1 H1. by apply ewp_ret.
  - exists p'. split_and!.
    + eapply hear_round; [|exact Hr]. rewrite (ld_config _ _ Hl). by apply answer_heard.
    + exact (calm_mail _ _ _ _ Hc).
    + destruct Hl, Hc. cbn in cm_runtime, cm_config, cm_dataDir, cm_addresses, cm_clients.
      split; rewrite ?cm_runtime; cbn; congruence.
Qed.

(** The last answer. *)
Lemma leader_hears_last env t offset p :
  reliable env -> agreed t -> leading t p ->
  exists p', hear env (answerMessage t offset true) p = Some p' /\
    (forall message, newMail p p' = Some message -> isChunk message = false) /\ onward (receiverID t) (tf_index t) (core p').
Proof.
  intros [Hnet Hfuel] Ha Hl. set (event := EvInstallSnapshotResponse (answerOf t offset true)).
  destruct (leader_concludes (core p) (answerOf t offset true)) as (acts & n' & Hstep & Hwf & Hon & Hacts);
    [by destruct Hl; cbn; congruence..|]. rewrite (ld_base _ _ Hl) in Hon.
  assert (Hmail : exists mail, Forall (fun m => isChunk m.2 = false) mail /\ Forall (fun a => isPersist a = false) acts /\
    (length acts <= 1)%nat /\ ewp (efor (handleAction env (Some (raftEventInput event))) acts)
      (fun _ p' => calm mail ((pruned env p) <| nd_runtime := (nd_runtime p) <| rt_core := n' |> |>) p') (fun _ _ => False)
      ((pruned env p) <| nd_runtime := (nd_runtime p) <| rt_core := n' |> |>)).
  { destruct Hacts as [->|[q ->]].
    - exists []. split_and!; [done..|cbn; lia|]. apply ewp_ret, calm_refl.
    - destruct (encodeRaftAction (tf_sender t) (SendAppendEntries (receiverID t) q)) as [[to message]|] eqn:Eq; [|done].
      assert (Hto : to = receiverID t /\ isChunk message = false) by (by injection Eq as <- <-). destruct Hto as [-> Hch].
      exists [(receiverID t, message)]. split_and!; [by repeat constructor..|cbn; lia|].
      cbn [efor]. apply ewp_bind. eapply ewp_mono; [apply handle_sent; [done|]| |done].
      + destruct Hl. apply send_encoded; [done| |done]. cbn. by rewrite ld_transport0.
      + intros [] p1 H1. by apply ewp_ret. }
  destruct Hmail as (mail & Hm & Hpl & Hlen & Hrun).
  destruct (round_succeeds env event event p (pruned env p) acts n' mail eq_refl (wf_state _ (ld_wf _ _ Hl)) Hstep
    (wf_state _ Hwf) Hpl ltac:(lia) Hrun) as (p' & Hr & Hc).
  exists p'. split_and!.
  - eapply hear_round; [|exact Hr]. rewrite (ld_config _ _ Hl). by apply answer_heard.
  - intros message. unfold newMail. rewrite (cm_sent _ _ _ Hc). cbn [nd_transport pruned].
    rewrite drop_app_length. intros (x & Hx & ->)%fmap_Some. apply last_Some_elem_of in Hx. by eapply Forall_forall in Hm.
  - by rewrite (cm_runtime _ _ _ Hc).
Qed.

(** The Follower's round, after [receiveSnapshot]. *)
Lemma follower_answers env t chunk next installed p p1 :
  reliable env -> agreed t -> behind t p ->
  receiveSnapshot env (chunkRequest t chunk) (pruned env p) = (Ok (answered (chunkRequest t chunk) true next installed), p1) ->
  core p1 = core p -> nd_transport p1 = nd_transport p ->
  exists p' n', hear env (chunkMessage t chunk) p = Some p' /\ newMail p p' = Some (answerMessage t next installed) /\
    calm [(senderID t, answerMessage t next installed)] (p1 <| nd_runtime := (nd_runtime p1) <| rt_core := n' |> |>) p' /\
    wf n' /\ term n' = tf_term t /\
    if installed then positioned (tf_index t) (tf_snapshotTerm t) n'
    else logBaseIndex n' = logBaseIndex (core p) /\ commitIndex n' = commitIndex (core p).
Proof.
  intros [Hnet Hfuel] Ha Hb Hrec Hcore Htr. set (request := answered _ true next installed) in *.
  destruct (follower_step (core p) request) as (n' & Hstep & Hwf & Hterm & Hpos); [by destruct Hb; cbn; congruence..|].
  destruct (round_succeeds env (EvInstallSnapshot (chunkRequest t chunk)) (EvInstallSnapshot request) p p1 (reply request n') n'
    [(senderID t, answerMessage t next installed)]) as (p' & Hr & Hc).
  - cbn [received]. unfold ebind. by rewrite Hrec.
  - rewrite Hcore. apply wf_state, (bh_wf _ _ Hb).
  - by rewrite Hcore.
  - by apply wf_state.
  - by repeat constructor.
  - cbn. lia.
  - unfold reply. cbn [efor]. apply ewp_bind. eapply ewp_mono; [apply handle_timer| |done]. intros [] p2 H2. cbv beta.
    apply ewp_bind. eapply ewp_mono; [apply handle_sent; [done|]| |done].
    + destruct Hb, H2. apply send_encoded; [done| |]; cbn in cm_addresses, cm_clients.
      * rewrite cm_addresses, Htr, bh_transport0. done.
      * by rewrite cm_clients, Htr.
    + intros [] p3 H3. apply ewp_ret. exact (calm_trans [] _ _ _ _ H2 H3).
  - exists p', n'. split_and!; [|..|done|by rewrite Hterm, (bh_term _ _ Hb)|].
    + eapply hear_round; [|exact Hr]. rewrite (bh_config _ _ Hb). by apply chunk_heard.
    + unfold newMail. rewrite <- Htr. exact (calm_mail _ _ _ _ Hc).
    + done.
    + exact Hpos.
Qed.

(** ** The transfer *)

Abbreviation taken t m := (snapshot m (snapshotIdentity (tf_sender t)) (tf_index t) (tf_snapshotTerm t)).
Abbreviation local t m := (snapshot m (snapshotIdentity (tf_receiver t)) (tf_index t) (tf_snapshotTerm t)).

(** The file is the Leader's Snapshot of the machine [m]. *)
Record captures (t : transfer) (m : sessionMachine) : Prop := {
  cp_machine : machine_wf m;
  cp_contents : tf_contents t = snapshotBytes (taken t m);
  cp_json : jsonable_state (taken t m);
  cp_taken : validateState (taken t m) = Ok tt;
  cp_local : validateState (local t m) = Ok tt;
  cp_takenSize : len (jsonState (taken t m)) <= maxPayloadSize;
  cp_localSize : len (jsonState (local t m)) <= maxPayloadSize }.

Lemma captures_carries t m : agreed t -> captures t m -> carries t (taken t m).
Proof.
  intros [Hc Hm _ _ _ _] Hp. destruct Hp as [_ Hb ? ? _ ? _]. split; [|done..|].
  - rewrite Hb. by apply decode_snapshot.
  - unfold snapshotClusterMatches, snapshotIdentity. cbn. rewrite Hm, Hc, bool_decide_true, N.eqb_refl by done. cbn.
    induction (merge_sort string_le _) as [|x l IH]; [done|]. cbn. by rewrite bool_decide_true.
Qed.

(** What the Follower has in the end. *)
Record delivered (t : transfer) (m : sessionMachine) (p p' : nodeProcess) : Prop := {
  dl_file : exists name, visible (nd_dataDir p') = <[name := snapshotBytes (local t m)]> (visible (nd_dataDir p));
  dl_log : w_snapshotIndex (rt_wal (nd_runtime p')) = tf_index t;
  dl_logTerm : w_snapshotTerm (rt_wal (nd_runtime p')) = tf_snapshotTerm t;
  dl_machine : cc_state (nd_commands p') = m;
  dl_core : positioned (tf_index t) (tf_snapshotTerm t) (core p') }.

(** The Follower can take the Snapshot in. *)
Record receptive (env : environment) (t : transfer) (m : sessionMachine) (p : nodeProcess) : Prop := {
  rc_behind : behind t p;
  rc_storable : storable env (tf_index t) (tf_snapshotTerm t) (nd_dataDir p);
  rc_limit : sm_limit (cc_state (nd_commands p)) = sm_limit m }.

Lemma receptive_installs env t m p :
  receptive env t m p -> captures t m ->
  exists name files wal, installs env (local t m) (pruned env p) name files wal m /\
    w_snapshotIndex wal = tf_index t /\ w_snapshotTerm wal = tf_snapshotTerm t.
Proof.
  intros [Hb Hs Hl] Hc. destruct (save_succeeds env (local t m) (nd_dataDir p)) as (name & files & Hf);
    [exact Hs|exact (cp_local _ _ Hc)|exact (cp_localSize _ _ Hc)|].
  destruct (walInstall_succeeds (tf_index t) (tf_snapshotTerm t) (rt_wal (nd_runtime p))) as (wal & Hw & _ & Hi & Ht & _);
    [exact (bh_wal _ _ Hb)|pose proof (bh_base _ _ Hb); lia|exact (bh_position _ _ Hb)|exact (bh_snapshot _ _ Hb)|
     exact (bh_fits _ _ Hb)|].
  exists name, files, wal. split_and!; [|done..]. split; [exact Hf|exact Hw|].
  apply restore_snapshot_machine; [exact (cp_machine _ _ Hc)|exact Hl].
Qed.

Lemma follower_hears_middle env t m offset p :
  reliable env -> agreed t -> receptive env t m p -> nextOffset t offset < len (tf_contents t) -> holding t offset p ->
  exists p', hear env (chunkMessage t offset) p = Some p' /\
    newMail p p' = Some (answerMessage t (nextOffset t offset) false) /\ receptive env t m p' /\
    holding t (nextOffset t offset) p' /\ nd_dataDir p' = nd_dataDir p.
Proof.
  intros Hr Ha Hb Ho Hh. pose proof (receive_middle env t offset (pruned env p) Ha Ho Hh) as Hrec.
  destruct (follower_answers env t offset _ false p _ Hr Ha (rc_behind _ _ _ _ Hb) Hrec) as
    (p' & n' & Hhear & Hmail & Hc & Hwf & Hterm & Hbase & Hcommit); [done..|].
  exists p'. split_and!; [done|done| | |]; destruct Hc; cbn in cm_config, cm_runtime, cm_dataDir, cm_incoming, cm_machine, cm_addresses, cm_clients.
  - destruct Hb as [[] ? ?]. split; [split|by rewrite cm_dataDir|congruence]; rewrite ?cm_runtime; cbn; try congruence; lia.
  - by right.
  - done.
Qed.

Lemma follower_hears_last env t m offset p :
  reliable env -> agreed t -> captures t m -> receptive env t m p -> nextOffset t offset = len (tf_contents t) ->
  offset <= len (tf_contents t) -> holding t offset p ->
  exists p', hear env (chunkMessage t offset) p = Some p' /\
    newMail p p' = Some (answerMessage t (len (tf_contents t)) true) /\ delivered t m p p'.
Proof.
  intros Hr Ha Hcap Hb Ho Hle Hh. destruct (receptive_installs env t m p Hb Hcap) as (name & files & wal & Hins & Hi & Ht).
  pose proof (receive_last env t offset (taken t m) name files wal m (pruned env p) Ha (captures_carries t m Ha Hcap)
    (bh_config _ _ (rc_behind _ _ _ _ Hb)) Ho Hle Hh Hins) as Hrec.
  destruct (follower_answers env t offset _ true p _ Hr Ha (rc_behind _ _ _ _ Hb) Hrec) as
    (p' & n' & Hhear & Hmail & Hc & Hwf & Hterm & Hpos); [done..|].
  exists p'. split_and!; [done..|]. destruct Hc; cbn in cm_runtime, cm_dataDir, cm_machine.
  destruct (save_ok _ _ _ _ _ _ (ins_save _ _ _ _ _ _ _ Hins)) as (_ & _ & _ & Hv).
  split; rewrite ?cm_runtime; [|done..]. exists name. by rewrite cm_dataDir.
Qed.

Lemma converse_delivers fuel envL envF t m offset pL pF :
  reliable envL -> reliable envF -> agreed t -> captures t m -> leading t pL -> receptive envF t m pF ->
  offset <= len (tf_contents t) -> holding t offset pF -> len (tf_contents t) < offset + N.of_nat fuel * chunkSize ->
  exists pL' pF', converse fuel envL envF (chunkMessage t offset) pL pF = Some (pL', pF') /\
    delivered t m pF pF' /\ onward (receiverID t) (tf_index t) (core pL').
Proof.
  intros HrL HrF Ha Hcap. revert offset pL pF.
  induction fuel as [|fuel IH]; intros offset pL pF HL HF Ho Hh Hf; [lia|]. cbn [converse].
  destruct (N.eq_dec (nextOffset t offset) (len (tf_contents t))) as [He|He].
  - destruct (follower_hears_last envF t m offset pF) as (pF' & -> & Hm & Hd); [done..|]. cbn. rewrite Hm. cbn.
    destruct (leader_hears_last envL t (len (tf_contents t)) pL) as (pL' & -> & Hn & Hon); [done..|]. cbn.
    exists pL', pF'. destruct (newMail pL pL') as [message|]; [|done]. by rewrite Hn.
  - assert (Hlt : nextOffset t offset < len (tf_contents t)) by (unfold nextOffset in *; lia).
    destruct (follower_hears_middle envF t m offset pF) as (pF' & -> & Hm & HF' & Hh' & Hdir); [done..|]. cbn. rewrite Hm. cbn.
    destruct (leader_hears_middle envL t (nextOffset t offset) pL) as (pL' & -> & Hn & HL'); [done|done|done|lia|].
    cbn. rewrite Hn. cbn [isChunk chunkMessage sq_Message].
    destruct (IH (nextOffset t offset) pL' pF') as (pL2 & pF2 & Hc & Hd & Hon); [done|done|lia|done|unfold nextOffset in *; lia|].
    exists pL2, pF2. split_and!; [exact Hc| |done]. destruct Hd. split; [|done..]. by rewrite <- Hdir.
Qed.

Lemma leader_begins env t p :
  reliable env -> agreed t -> leading t p ->
  exists p', deliver env (SendInstallSnapshot (receiverID t) (tf_term t) (tf_request t) (tf_index t) (tf_snapshotTerm t) 0) p
      = (Ok tt, p') /\ newMail p p' = Some (chunkMessage t 0) /\ leading t p'.
Proof.
  intros [Hnet _] Ha Hl.
  pose proof (deliver_calm env (SendInstallSnapshot (receiverID t) (tf_term t) (tf_request t) (tf_index t) (tf_snapshotTerm t) 0)
    (receiverID t) (chunkMessage t 0) p) as Hd.
  unfold ewp in Hd. destruct (deliver _ _ p) as [[[]|] p']; [|exfalso; apply Hd].
  - assert (Hc : calm [(receiverID t, chunkMessage t 0)] p p').
    { apply Hd. destruct Hl. eapply send_chunk; [done|exact ld_file0| |done]. rewrite ld_transport0. by apply chunk_sent; [|lia]. }
    exists p'. split_and!; [done|exact (calm_mail _ _ _ _ Hc)|]. destruct Hl, Hc. split; congruence.
  - destruct Hl. eapply send_chunk; [done|exact ld_file0| |done]. rewrite ld_transport0. by apply chunk_sent; [|lia].
Qed.

(** A chunk per 64 KiB, and one. *)
Definition chunks (t : transfer) : nat := S (N.to_nat (len (tf_contents t) / chunkSize)).

Lemma chunks_enough t : len (tf_contents t) < N.of_nat (chunks t) * chunkSize.
Proof.
  unfold chunks. pose proof (N.div_mod (len (tf_contents t)) chunkSize ltac:(done)).
  pose proof (N.mod_lt (len (tf_contents t)) chunkSize ltac:(done)). nia.
Qed.

(** C28: the Leader brings a Follower whose log starts before its Snapshot up to it, in at most one chunk per
    full 64 KiB and one more.  The Leader's file is the Snapshot of a machine; the Leader sends the first chunk, the
    Follower serves each chunk in a round of its loop, and the Leader each answer in a round of its own, and no
    round fails.  In the end the file is in the Follower's directory under the Follower's identity, its
    write-ahead log and its core start at the Snapshot, its state machine is the captured one, and the Leader goes on
    from the entry after it.  Assumed: both are members of one cluster, connected, in one term and with one Session
    limit; nothing but these messages reaches them; the network and the disk work and a free file name is drawn; the
    Follower has neither a newer Snapshot nor committed entries beyond this one; and the Snapshot is valid on both sides, within
    the size limits, with names and keys in UTF-8. *)
Theorem transferred_snapshot_is_installed envL envF t m pL pF :
  reliable envL -> reliable envF -> agreed t -> captures t m -> leading t pL -> receptive envF t m pF ->
  exists pL0 message pL' pF',
    deliver envL (SendInstallSnapshot (receiverID t) (tf_term t) (tf_request t) (tf_index t) (tf_snapshotTerm t) 0) pL
      = (Ok tt, pL0) /\
    newMail pL pL0 = Some message /\ converse (chunks t) envL envF message pL0 pF = Some (pL', pF') /\
    delivered t m pF pF' /\ onward (receiverID t) (tf_index t) (core pL').
Proof.
  intros HrL HrF Ha Hcap HL HF. destruct (leader_begins envL t pL HrL Ha HL) as (pL0 & Hd & Hm & HL0).
  destruct (converse_delivers (chunks t) envL envF t m 0 pL0 pF) as (pL' & pF' & Hc & Hdel & Hon);
    [done..|lia|by left|apply chunks_enough|]. by exists pL0, (chunkMessage t 0), pL', pF'.
Qed.
End Codec.

(** ** A Follower that has one entry of three *)

(** The Leader n1 takes a Snapshot after three entries; n3 then acknowledges the first one, which the
    Leader's log no longer follows on. *)
Definition sender : option nodeProcess :=
  p ← enteredProcess "n1"; p ← play always (work ++ [(sampleEnv, Input (snapshotInput 1))]) p;
  play always [(sampleEnv, SnapshotDone); hears (EvAppendEntriesResponse (mkAppendEntriesResponse "n3" 1 2 true 1 0 0 0))]
    (advanceSnapshot sampleEnv (advanceSnapshot sampleEnv p)).

Definition receiver : option nodeProcess :=
  p ← enteredProcess "n3"; play always [hears (EvAppendEntries (mkAppendEntries "n1" 1 2 0 0 (take 1 entries3) 0 0))] p.

Definition machine3 : sessionMachine := applyAll (newSessionMachine 8) entries3.

Definition transfer3 : transfer :=
  mkTransfer (sampleConfig "n1") (sampleConfig "n3") 1 6 3 1
    (snapshotBytes (snapshot machine3 (snapshotIdentity (sampleConfig "n1")) 3 1)).

Fixpoint numberedb (first : N) (l : list LogEntry) : bool :=
  match l with [] => true | e :: l => (Index e =? first) && numberedb (first + 1) l end.

Lemma numberedb_ok first l : numberedb first l = true -> numbered Index first l.
Proof. revert first. induction l as [|e l IH]; intros first Hb; [done|]. cbn in *. reflect_bools. auto. Qed.

Definition wfb (n : Node) : bool :=
  numberedb (logBaseIndex n + 1) (log n) && (lastLogIndex n =? logBaseIndex n + len (log n))
  && (lastLogTerm n =? match last_entry (log n) with Some e => Term e | None => logBaseTerm n end)
  && (logBaseIndex n <=? lastApplied n) && (lastApplied n <=? durableCommitIndex n)
  && (durableCommitIndex n <=? commitIndex n) && (commitIndex n <=? lastLogIndex n)
  && bool_decide (map_Forall (fun _ p => pc_commitIndex p <= commitIndex n) (pendingCommit n))
  && (lastLogIndex n + 1 <? two64).

Lemma wfb_ok n : wfb n = true -> wf n.
Proof.
  unfold wfb. intros Hb. apply andb_prop in Hb as [Hb Hbound]. apply andb_prop in Hb as [Hb Hp].
  apply bool_decide_eq_true_1 in Hp. reflect_bools. split; auto using numberedb_ok.
Qed.

Definition leadingb (t : transfer) (p : nodeProcess) : bool :=
  let n := rt_core (nd_runtime p) in
  bool_decide ((receiverID t : string) ∈ tr_clients (nd_transport p)) && wfb n && bool_decide (role n = Leader)
  && (term n =? tf_term t) && (logBaseIndex n =? tf_index t) && (logBaseTerm n =? tf_snapshotTerm t)
  && (tf_index t <=? durableLogIndex n) && (map_get (snapshotInFlight n) (receiverID t) =? tf_request t)
  && match Encoded (nd_dataDir p) (tf_index t) (tf_snapshotTerm t) with
     | Ok contents => bool_decide (contents = tf_contents t)
     | Err _ => false
     end.

Lemma leadingb_ok t p :
  nd_config p = tf_sender t /\ tr_config (nd_transport p) = tf_sender t -> leadingb t p = true -> leading t p.
Proof.
  unfold leadingb. intros [Hc Ht] Hb. apply andb_prop in Hb as [Hb Hf]. apply andb_prop in Hb as [Hb Hfl].
  reflect_bools. split; auto using wfb_ok.
  destruct (Encoded _ _ _) as [contents|]; [|done]. reflect_bools. by f_equal.
Qed.

(** The records of a segment. *)
Definition recordsOf (file : segmentFile) : list rec :=
  match scanSegmentFrames false (fun type_ body acc => Ok (acc ++ [(type_, body)])) file [] with
  | Ok rs => rs
  | Err _ => []
  end.

(** One segment, as [segmentBytes] lays it out. *)
Definition soundb (w : WAL) : bool :=
  match w_directory w with
  | [file] =>
      w_open w && bool_decide (sf_contents file = segmentBytes (recordsOf file) [])
      && forallb (fun r => len (bodyOf r) <=? maxRecordSize) (recordsOf file)
      && (sf_number file =? w_segment w) && (w_offset w =? len (sf_contents file))
  | _ => false
  end.

Lemma soundb_ok w : soundb w = true -> sound w.
Proof.
  unfold soundb. destruct (w_directory w) as [|file [|]] eqn:Ed; [done| |done]. intros Hb.
  apply andb_prop in Hb as [Hb Ho]. apply andb_prop in Hb as [Hb Hn]. apply andb_prop in Hb as [Hb Hfit].
  apply andb_prop in Hb as [Hopen Hc]. apply bool_decide_eq_true_1 in Hc. apply N.eqb_eq in Ho, Hn.
  apply Is_true_true, forallb_True in Hfit.
  exists [recordsOf file]. split; [done|by rewrite Ed; repeat constructor|].
  exists [], file, [], (recordsOf file), 0%nat. split_and!; [done|done|apply Forall2_nil_2| |done|done|lia|cbn; lia|etrans; [|apply N.le_max_l]; done].
  split; [exact Hc|]. eapply Forall_impl; [exact Hfit|]. intros r Hr. apply N.leb_le, Is_true_true, Hr.
Qed.

Definition behindb (t : transfer) (p : nodeProcess) : bool :=
  let n := rt_core (nd_runtime p) in
  let w := rt_wal (nd_runtime p) in
  bool_decide ((senderID t : string) ∈ tr_clients (nd_transport p)) && wfb n && (term n =? tf_term t)
  && (logBaseIndex n <? tf_index t) && (commitIndex n <=? tf_index t) && (tf_index t + 1 <? two64)
  && soundb w && (w_snapshotIndex w <=? tf_index t) && (0 <? tf_snapshotTerm t)
  && (len (bodyOf (recordCompactionCheckpoint,
        marshal (mkCheckpoint (w_identity w) (w_hardState w) (N.max (w_commitIndex w) (tf_index t))
                   (tf_index t) (tf_snapshotTerm t)))) <=? maxRecordSize).

Lemma behindb_ok t p :
  nd_config p = tf_receiver t /\ tr_config (nd_transport p) = tf_receiver t -> behindb t p = true -> behind t p.
Proof.
  unfold behindb. intros [Hc Ht] Hb. apply andb_prop in Hb as [Hb Hfit]. reflect_bools.
  split; auto using wfb_ok, soundb_ok.
Qed.

(** The directory has neither name that [Save] would use. *)
Definition receptiveb (t : transfer) (m : sessionMachine) (p : nodeProcess) : bool :=
  let free suffix := negb (bool_decide (is_Some
    (nd_dataDir p !! (positionPrefix (tf_index t) (tf_snapshotTerm t) +:+ "1" +:+ suffix)))) in
  behindb t p && free ".tmp" && free ".qsnap" && (sm_limit (cc_state (nd_commands p)) =? sm_limit m)%Z.

Lemma receptiveb_ok t m p :
  nd_config p = tf_receiver t /\ tr_config (nd_transport p) = tf_receiver t ->
  receptiveb t m p = true -> receptive sampleEnv t m p.
Proof.
  unfold receptiveb. intros Hc Hb. apply andb_prop in Hb as [Hb Hl]. apply Z.eqb_eq in Hl. reflect_bools.
  split; [by apply behindb_ok| |done]. split; [done|]. exists "1". split_and!; [done|by apply eq_None_not_Some..].
Qed.

Lemma sampleEnv_reliable : reliable sampleEnv.
Proof. split; [done|]. cbn. lia. Qed.

Lemma transfer3_agreed : agreed transfer3.
Proof. split; vm_compute; first [reflexivity | discriminate | by eexists]. Qed.

Lemma transfer3_captures : captures transfer3 machine3.
Proof.
  split; [by apply applyAll_wf, new_machine_wf|reflexivity| |vm_compute; reflexivity..|vm_compute; discriminate|vm_compute; discriminate].
  split; [repeat constructor|done|done| |].
  - apply map_Forall_to_list. vm_compute. repeat constructor.
  - vm_compute. repeat constructor.
Qed.

Lemma sender_leading : exists p, sender = Some p /\ leading transfer3 p.
Proof.
  assert (Hc : match sender with
    | Some p => nd_config p = sampleConfig "n1" /\ tr_config (nd_transport p) = sampleConfig "n1"
    | None => False end) by (vm_compute; split; reflexivity).
  assert (Hb : match sender with Some p => leadingb transfer3 p | None => false end = true) by (vm_compute; reflexivity).
  destruct sender as [p|]; [|done]. exists p. split; [done|]. by apply leadingb_ok.
Qed.

Lemma receiver_receptive : exists p, receiver = Some p /\ receptive sampleEnv transfer3 machine3 p.
Proof.
  assert (Hc : match receiver with
    | Some p => nd_config p = sampleConfig "n3" /\ tr_config (nd_transport p) = sampleConfig "n3"
    | None => False end) by (vm_compute; split; reflexivity).
  assert (Hb : match receiver with Some p => receptiveb transfer3 machine3 p | None => false end = true)
    by (vm_compute; reflexivity).
  destruct receiver as [p|]; [|done]. exists p. split; [done|]. by apply receptiveb_ok.
Qed.

Lemma transferred_snapshot_is_installed_witness :
  exists pL pF pL0 message pL' pF', sender = Some pL /\ receiver = Some pF /\
    newMail pL pL0 = Some message /\ converse (chunks transfer3) sampleEnv sampleEnv message pL0 pF = Some (pL', pF') /\
    sm_values (cc_state (nd_commands pF')) !! "k" = Some [x61] /\ lastApplied (rt_core (nd_runtime pF')) = 3 /\
    map_get (nextIndex (rt_core (nd_runtime pL'))) "n3" = 4.
Proof.
  destruct sender_leading as (pL & HL & HL'). destruct receiver_receptive as (pF & HF & HF').
  destruct (transferred_snapshot_is_installed sampleEnv sampleEnv transfer3 machine3 pL pF sampleEnv_reliable
    sampleEnv_reliable transfer3_agreed transfer3_captures HL' HF') as (pL0 & message & pL' & pF' & _ & Hm & Hc & Hd & Ho).
  exists pL, pF, pL0, message, pL', pF'. split_and!; [exact HL|exact HF|exact Hm|exact Hc| | |].
  - rewrite (dl_machine _ _ _ _ Hd). vm_compute. reflexivity.
  - exact (po_applied _ _ _ (dl_core _ _ _ _ Hd)).
  - exact (on_next _ _ _ Ho).
Defined.
