(* ===== verification/Client.v ===== *)
(** The Client library [client/client.go]: it follows Leader hints, and walks through the
    configured addresses, with a bounded and randomized delay, while Nodes are unavailable. *)

From S2P Require Import Prelude RaftTypes Session Config Peer Transport Service.

(** ** What the library meets *)

(** The error of one call: a gRPC status, or an answer the library does not accept. *)
Inductive callError := rpcFailed (s : Status) | malformedSession (length : N).

(** How connecting, calling, closing and waiting end at each attempt, and the random numbers. *)
Record surroundings (A : Type) := mkSurroundings {
  ce_connects : nat -> string -> bool;
  ce_call : nat -> string -> result callError A;
  ce_closes : nat -> bool;
  ce_expired : nat -> option contextError;
  ce_random : nat -> N }.
Arguments ce_connects {A}.
Arguments ce_call {A}.
Arguments ce_closes {A}.
Arguments ce_expired {A}.
Arguments ce_random {A}.

Inductive clientError :=
| noAddresses | cannotConnect (address : string) | cannotClose (address : string)
| callFailed (e : callError) | waitEnded (e : contextError) | noStableLeader.

(** What an attempt did: the address called, and the delay after it. *)
Record attempt := mkAttempt { at_address : string; at_delay : N }.

Definition maxAttempts : nat := 128.

(** Durations in nanoseconds. *)
Definition initialBackoff : N := 25000000.
Definition maximumBackoff : N := 200000000.

(** ** Following the Leader *)

Definition statusOf (e : callError) : Status :=
  match e with rpcFailed s => s | malformedSession _ => plainStatus Unknown end.

Fixpoint firstHint (details : list detail) : option string :=
  match details with
  | [] => None
  | NotLeader _ address :: details =>
      if bool_decide (address = "") then firstHint details else Some address
  | _ :: details => firstHint details
  end.

Definition leaderHint (e : callError) : option string := firstHint (s_details (statusOf e)).

Section Loop.
Context {A : Type} (env : surroundings A) (addresses : list string).

(** The address at an index; the index stays below the number of addresses. *)
Definition addressAt (i : N) : string := default "" (addresses !! N.to_nat i).

(** [backoff/2 + rand.Int64N(backoff/2+1)]. *)
Definition delay (k : nat) (backoff : N) : N := backoff / 2 + ce_random env k mod (backoff / 2 + 1).

Fixpoint loop (fuel k : nat) (configuredIndex : N) (address : string) (backoff : N)
    : result clientError A * list attempt :=
  match fuel with
  | O => (Err noStableLeader, [])
  | S fuel =>
      if negb (ce_connects env k address) then (Err (cannotConnect address), [])
      else
        match ce_call env k address with
        | Ok a =>
            (if ce_closes env k then Ok a else Err (cannotClose address), [mkAttempt address 0])
        | Err e =>
            match leaderHint e with
            | Some hint =>
                let '(r, l) := loop fuel (S k) configuredIndex hint backoff in
                (r, mkAttempt address 0 :: l)
            | None =>
                if negb (bool_decide (s_code (statusOf e) = Unavailable))
                then (Err (callFailed e), [mkAttempt address 0])
                else
                  let configuredIndex := (configuredIndex + 1) mod len addresses in
                  let wait := delay k backoff in
                  match ce_expired env k with
                  | Some e => (Err (waitEnded e), [mkAttempt address wait])
                  | None =>
                      let '(r, l) := loop fuel (S k) configuredIndex (addressAt configuredIndex)
                                       (N.min (backoff * 2) maximumBackoff) in
                      (r, mkAttempt address wait :: l)
                  end
            end
        end
  end.

Definition withLeader : result clientError A * list attempt :=
  match addresses with
  | [] => (Err noAddresses, [])
  | address :: _ => loop maxAttempts 1 0 address initialBackoff
  end.
End Loop.

(** ** The operations *)

(** [rpc k address request] is what the Node at [address] answers at attempt [k]. *)
Definition calls {Q R A} (rpc : nat -> string -> Q -> result Status R) (request : Q)
    (accept : R -> result callError A) (k : nat) (address : string) : result callError A :=
  match rpc k address request with
  | Err s => Err (rpcFailed s)
  | Ok response => accept response
  end.

(** The surroundings of an operation: the network's, with the calls of the operation. *)
Definition over {A B} (env : surroundings A) (call : nat -> string -> result callError B) : surroundings B :=
  mkSurroundings B (ce_connects env) call (ce_closes env) (ce_expired env) (ce_random env).

Definition ClientOpenSession {X} (net : surroundings X) (addresses : list string)
    (rpc : nat -> string -> unit -> result Status OpenSessionResponse) :=
  withLeader (over net (calls rpc tt (fun response =>
    if len (os_SessionId response) =? 16 then Ok (os_SessionId response)
    else Err (malformedSession (len (os_SessionId response)))))) addresses.

Definition ClientCloseSession {X} (net : surroundings X) (addresses : list string)
    (rpc : nat -> string -> CloseSessionRequest -> result Status unit) (sessionID : SessionID) :=
  withLeader (over net (calls rpc (mkCloseSessionRequest sessionID) (fun _ => Ok tt))) addresses.

Definition ClientSet {X} (net : surroundings X) (addresses : list string)
    (rpc : nat -> string -> SetRequest -> result Status unit) (sessionID : SessionID) (sequence : N)
    (key : string) (value : list byte) :=
  withLeader (over net (calls rpc (mkSetRequest sessionID sequence key value) (fun _ => Ok tt))) addresses.

Definition ClientDelete {X} (net : surroundings X) (addresses : list string)
    (rpc : nat -> string -> DeleteRequest -> result Status DeleteResponse) (sessionID : SessionID)
    (sequence : N) (key : string) :=
  withLeader (over net (calls rpc (mkDeleteRequest sessionID sequence key)
    (fun response => Ok (dl_Existed response)))) addresses.

Definition ClientGet {X} (net : surroundings X) (addresses : list string)
    (rpc : nat -> string -> GetRequest -> result Status GetResponse) (key : string) :=
  withLeader (over net (calls rpc (mkGetRequest key) (fun response => Ok (gt_Value response)))) addresses.

(** A first call that succeeds ends the loop. *)
Lemma withLeader_first {A} (env : surroundings A) address rest a :
  ce_connects env 1 address = true -> ce_call env 1 address = Ok a -> ce_closes env 1 = true ->
  withLeader env (address :: rest) = (Ok a, [mkAttempt address 0]).
Proof.
  intros Hc Ha Hcl. unfold withLeader, maxAttempts. generalize 127%nat. intros fuel.
  cbn [loop]. by rewrite Hc, Ha, Hcl.
Qed.

(** ** Bounds *)

Section Bounds.
Context {A : Type} (env : surroundings A) (addresses : list string).

Lemma delay_bounds k backoff : backoff / 2 <= delay env k backoff <= backoff.
Proof.
  unfold delay. pose proof (N.mod_lt (ce_random env k) (backoff / 2 + 1) ltac:(lia)).
  pose proof (N.div_mod backoff 2 ltac:(done)). lia.
Qed.

Lemma loop_bounds fuel k i address backoff :
  initialBackoff <= backoff <= maximumBackoff ->
  (length (loop env addresses fuel k i address backoff).2 <= fuel)%nat /\
  Forall (fun a => at_delay a <= maximumBackoff) (loop env addresses fuel k i address backoff).2.
Proof.
  revert k i address backoff. induction fuel as [|fuel IH]; intros k i address backoff Hb; cbn [loop];
    [split; [done|constructor]|].
  assert (Hone : forall d, d <= maximumBackoff ->
    (length [mkAttempt address d] <= S fuel)%nat /\ Forall (fun a => at_delay a <= maximumBackoff) [mkAttempt address d])
    by (intros; split; [cbn; lia|by repeat constructor]).
  destruct (negb _); [split; [cbn; lia|constructor]|]. destruct (ce_call env k address) as [a|e]; [by apply Hone|].
  assert (Hmore : forall d i next backoff, d <= maximumBackoff -> initialBackoff <= backoff <= maximumBackoff ->
    let '(r, l) := loop env addresses fuel (S k) i next backoff in
    (length (r, mkAttempt address d :: l).2 <= S fuel)%nat /\
    Forall (fun a => at_delay a <= maximumBackoff) (r, mkAttempt address d :: l).2).
  { intros d i' next backoff' Hd Hb'. destruct (IH (S k) i' next backoff' Hb') as [Hlen Hall].
    destruct (loop _ _ _ _ _ _ _) as [r l]. cbn in *. split; [lia|by constructor]. }
  destruct (leaderHint e) as [hint|].
  - specialize (Hmore 0 i hint backoff ltac:(done) Hb). by destruct (loop _ _ _ _ _ hint _).
  - destruct (negb _); [by apply Hone|]. pose proof (delay_bounds k backoff) as Hd.
    destruct (ce_expired env k); [apply Hone; lia|].
    specialize (Hmore (delay env k backoff) ((i + 1) mod len addresses)
      (addressAt addresses ((i + 1) mod len addresses)) (N.min (backoff * 2) maximumBackoff) ltac:(lia) ltac:(lia)).
    by destruct (loop _ _ _ _ _ _ _).
Qed.

End Bounds.

(** The Client library gives up.  Whatever the Nodes answer, an operation makes at most
    128 calls and never waits longer than 200 ms between two of them. *)
Theorem withLeader_is_bounded {A} (env : surroundings A) addresses :
  (length (withLeader env addresses).2 <= 128)%nat /\
  Forall (fun a => at_delay a <= 200000000) (withLeader env addresses).2.
Proof.
  unfold withLeader. destruct addresses as [|address rest]; [split; [cbn; lia|constructor]|].
  by apply (loop_bounds env (address :: rest) maxAttempts 1 0 address initialBackoff).
Qed.

(** ** Reaching the Leader *)

Section Stable.
Context {A : Type} (env : surroundings A) (addresses : list string) (leader : string).

(** The network and the caller's context hold, and the Leader answers. *)
Record stable : Prop := {
  sb_connects : forall k x, ce_connects env k x = true;
  sb_closes : forall k, ce_closes env k = true;
  sb_waits : forall k, ce_expired env k = None;
  sb_leader : forall k, exists a, ce_call env k leader = Ok a }.

(** The Node at [x] answers itself or names the Leader. *)
Definition guides (x : string) : Prop :=
  forall k, (exists a, ce_call env k x = Ok a) \/
            (exists e, ce_call env k x = Err e /\ leaderHint e = Some leader).

Definition unavailable (x : string) : Prop :=
  forall k, exists e, ce_call env k x = Err e /\ leaderHint e = None /\ s_code (statusOf e) = Unavailable.

Lemma loop_answered fuel k i x backoff a :
  stable -> (0 < fuel)%nat -> ce_call env k x = Ok a ->
  exists b, (loop env addresses fuel k i x backoff).1 = Ok b.
Proof.
  intros Hst Hf Hc. destruct fuel as [|fuel]; [lia|]. cbn [loop]. rewrite (sb_connects Hst), Hc, (sb_closes Hst).
  by eexists.
Qed.

Lemma loop_guided fuel k i x backoff :
  stable -> guides x -> (1 < fuel)%nat -> exists b, (loop env addresses fuel k i x backoff).1 = Ok b.
Proof.
  intros Hst Hg Hf. destruct (Hg k) as [[a Ha]|(e & He & Hh)]; [by eapply loop_answered; [|lia|]|].
  destruct fuel as [|fuel]; [lia|]. cbn [loop]. rewrite (sb_connects Hst), He, Hh. cbn [negb].
  destruct (sb_leader Hst (S k)) as [a Ha].
  destruct (loop_answered fuel (S k) i leader backoff a Hst ltac:(lia) Ha) as [b Hb].
  destruct (loop _ _ _ _ _ _ _) as [r l]. cbn in *. by exists b.
Qed.

Lemma loop_reaches fuel k i backoff j :
  stable -> (forall x, x ∈ addresses -> guides x \/ unavailable x) ->
  i <= j -> j < len addresses -> guides (addressAt addresses j) ->
  j - i + 1 < N.of_nat fuel ->
  exists b, (loop env addresses fuel k i (addressAt addresses i) backoff).1 = Ok b.
Proof.
  intros Hst Hall. revert k i backoff. induction fuel as [|fuel IH]; intros k i backoff Hi Hj Hg Hf; [lia|].
  assert (Hin : addressAt addresses i ∈ addresses).
  { unfold addressAt. destruct (lookup_lt_is_Some_2 addresses (N.to_nat i)) as [x Hx]; [unfold len in *; lia|].
    rewrite Hx. by eapply list_elem_of_lookup_2. }
  destruct (N.eq_dec i j) as [->|Hne]; [apply loop_guided; (done || lia)|].
  destruct (Hall _ Hin) as [Hgi|Hu]; [apply loop_guided; (done || lia)|].
  destruct (Hu k) as (e & He & Hh & Hcode). cbn [loop].
  rewrite (sb_connects Hst), He, Hh, (bool_decide_true _ Hcode), (sb_waits Hst). cbn [negb].
  rewrite N.mod_small by lia.
  destruct (IH (S k) (i + 1) (N.min (backoff * 2) maximumBackoff)) as [b Hb]; [lia|done|done|lia|].
  destruct (loop _ _ _ _ _ _ _) as [r l]. cbn in *. by exists b.
Qed.
End Stable.

(** ** Client and service together *)

Section Cluster.
Variable attaches : detail -> bool.

(** What answers at an address: nothing, or a Node with its configuration and published state;
    [reply] is how its Raft loop ends a request. *)
Record listener := mkListener { ls_config : Config; ls_published : State; ls_reply : nat -> ending proposalResult }.

Definition serveSet (nodes : string -> option listener) (k : nat) (address : string) (request : SetRequest)
    : result Status unit :=
  match nodes address with
  | None => Err (plainStatus Unavailable)
  | Some node =>
      match (Set_ attaches (ls_config node) (ls_published node) 0 request (mkCounters 0 0 0)).1 with
      | Returns r => r
      | Submits _ resume => resume (ls_reply node k)
      end
  end.

(** One Node leads, and the Nodes that are up know it. *)
Record knownLeader (nodes : string -> option listener) (id address : string) : Prop := {
  kl_named : id <> "" /\ address <> "" /\ attaches (NotLeader id address) = true;
  kl_leads : exists node, nodes address = Some node /\ st_Role (ls_published node) = Leader /\
    forall k, exists r, ls_reply node k = received r /\ proposalError attaches (ls_config node) r = None;
  kl_follows : forall x node, nodes x = Some node -> x <> address ->
    st_Role (ls_published node) <> Leader /\ st_LeaderID (ls_published node) = id /\
    exists m, cf_Members (ls_config node) !! id = Some m /\ mb_ClientAddress m = address }.

Definition acceptable (request : SetRequest) : Prop :=
  validateMutation attaches (st_SessionId request) (st_Sequence request) (st_Key request) = Ok tt /\
  len (st_Value request) <= maxValueBytes.

(** A Follower's rejection names the Leader's address. *)
Lemma follower_hint nodes id address request k x node :
  knownLeader nodes id address -> acceptable request -> nodes x = Some node -> x <> address ->
  exists s, serveSet nodes k x request = Err s /\ leaderHint (rpcFailed s) = Some address.
Proof.
  intros Hk [Hv Hlen] Hx Hne. destruct (kl_named _ _ _ Hk) as (Hid & Ha & Hat).
  destruct (kl_follows _ _ _ Hk x node Hx Hne) as (Hr & Hl & m & Hm & Hma).
  unfold serveSet, Set_, rejectIfNotLeader, rejected, proposalError. rewrite Hx, Hv.
  destruct (N.ltb_spec maxValueBytes (len (st_Value request))); [lia|].
  rewrite bool_decide_false by done. cbn. rewrite Hl, (bool_decide_false (id = "")) by done. rewrite Hm, Hma.
  unfold withDetails. rewrite Hat. eexists. split; [reflexivity|]. unfold leaderHint. cbn. by rewrite bool_decide_false.
Qed.

Lemma leader_answers nodes id address request k :
  knownLeader nodes id address -> acceptable request -> serveSet nodes k address request = Ok tt.
Proof.
  intros Hk [Hv Hlen]. destruct (kl_leads _ _ _ Hk) as (node & Hx & Hr & Hreply).
  unfold serveSet, Set_, rejectIfNotLeader. rewrite Hx, Hv.
  destruct (N.ltb_spec maxValueBytes (len (st_Value request))); [lia|].
  rewrite bool_decide_true by done. cbn. destruct (Hreply k) as (r & -> & Hp). unfold conclude. cbn. by rewrite Hp.
Qed.

(** C34: a Client finds the Leader.  A Set through the Client library succeeds, from whatever address it starts and
    whichever other Nodes are down, when: one Node leads; the Nodes that are up name it, and its Client address is in
    their configuration; one of the configured addresses, at most 126 of them, is up; the request is valid and its value
    not too large; the Leader's Raft loop answers every such request with success; connections open and close,
    status details can be attached, and the call has no deadline. *)
Theorem client_set_reaches_the_leader {X} (net : surroundings X) addresses nodes id address request :
  (forall k x, ce_connects net k x = true) -> (forall k, ce_closes net k = true) ->
  (forall k, ce_expired net k = None) ->
  knownLeader nodes id address -> acceptable request ->
  (exists x, x ∈ addresses /\ is_Some (nodes x)) -> len addresses <= 126 ->
  (ClientSet net addresses (serveSet nodes) (st_SessionId request) (st_Sequence request) (st_Key request)
     (st_Value request)).1 = Ok tt.
Proof.
  intros Hc Hcl Hw Hk Hok (x & Hin & [node Hup]) Hlen. unfold ClientSet.
  assert (mkSetRequest (st_SessionId request) (st_Sequence request) (st_Key request) (st_Value request) = request)
    as -> by (by destruct request). set (env := over net _).
  assert (Hst : stable env address).
  { split; [done..|]. intros k. exists tt. unfold env, over, calls. cbn.
    by rewrite (leader_answers nodes id address). }
  assert (Hall : forall y, is_Some (nodes y) -> guides env address y).
  { intros y [n Hy] k. destruct (decide (y = address)) as [->|Hne]; [left; apply (sb_leader _ _ Hst)|right].
    destruct (follower_hint nodes id address request k y n Hk Hok Hy Hne) as (st & Hs & Hh).
    exists (rpcFailed st). unfold env, over, calls. cbn. by rewrite Hs. }
  assert (Hdown : forall y, y ∈ addresses -> guides env address y \/ unavailable env y).
  { intros y _. destruct (nodes y) as [n|] eqn:Hy; [left; apply Hall; by exists n|right].
    intros k. exists (rpcFailed (plainStatus Unavailable)). unfold env, over, calls, serveSet. cbn. by rewrite Hy. }
  apply list_elem_of_lookup in Hin as [j Hj]. pose proof (lookup_lt_Some _ _ _ Hj).
  destruct (loop_reaches env addresses address 128 1 0 initialBackoff (N.of_nat j) Hst Hdown) as [[] Hb].
  - lia.
  - unfold len. lia.
  - unfold addressAt. rewrite Nat2N.id, Hj. apply Hall. by exists node.
  - unfold len in Hlen. lia.
  - unfold withLeader, addressAt in *. destruct addresses as [|first rest]; [done|]. exact Hb.
Qed.
End Cluster.

(** n1 leads at a:2, n2 is down, n3 follows. *)
Definition sampleNodes (address : string) : option listener :=
  let state role := mkState "n" role 1 "" "n1" 0 0 0 0 0 0 false in
  if bool_decide (address = "a:2")
  then Some (mkListener (sampleConfig "n1") (state Leader) (fun _ => received (newResult zeroSessionID 1)))
  else if bool_decide (address = "c:2")
  then Some (mkListener (sampleConfig "n3") (state Follower) (fun _ => loopStopped))
  else None.

Definition sampleNetwork : surroundings unit :=
  mkSurroundings unit (fun _ _ => true) (fun _ _ => Ok tt) (fun _ => true) (fun _ => None) (fun _ => 7).

Lemma client_set_reaches_the_leader_witness :
  (ClientSet sampleNetwork ["b:2"; "c:2"] (serveSet (fun _ => true) sampleNodes) (replicate 16 x01) 1 "k" [x61]).1
  = Ok tt.
Proof.
  apply (client_set_reaches_the_leader (fun _ => true) sampleNetwork ["b:2"; "c:2"] sampleNodes "n1" "a:2"
           (mkSetRequest (replicate 16 x01) 1 "k" [x61])); try done.
  - split; [done| |].
    + eexists. split_and!; [reflexivity..|]. intros k. by eexists.
    + intros x node. unfold sampleNodes. destruct (bool_decide_reflect (x = "a:2")) as [->|]; [done|].
      destruct (bool_decide_reflect (x = "c:2")) as [->|]; [|done]. intros [= <-] _. cbn. split_and!; [done..|].
      exists (mkMember "a:1" "a:2"). by vm_compute.
  - exists "c:2". split; [set_solver|]. by eexists.
Defined.
