(* ===== verification/Cli.v ===== *)
(** The command line of [internal/cli/cli.go], from the arguments that remain after flag
    parsing: [ternionctl] commands are parsed, sent through the Client library and answered
    with one line of JSON. *)

From S2P Require Import Prelude Bytes Json RaftTypes Session SnapshotJson Config Transport Service Client.

(** ** Parsing *)

(** A hexadecimal digit of [encoding/hex]: both cases. *)
Definition fromHexChar (b : byte) : option N :=
  let x := byte_to_N b in
  if (48 <=? x) && (x <=? 57) then Some (x - 48)
  else if (97 <=? x) && (x <=? 102) then Some (x - 87)
  else if (65 <=? x) && (x <=? 70) then Some (x - 55)
  else None.

(** [hex.DecodeString]. *)
Fixpoint hexDecode (l : list byte) : option (list byte) :=
  match l with
  | [] => Some []
  | [_] => None
  | a :: b :: l =>
      match fromHexChar a, fromHexChar b with
      | Some h, Some d => option_map (cons (byte_of_N (h * 16 + d))) (hexDecode l)
      | _, _ => None
      end
  end.

(** [hex.EncodeToString]. *)
Definition hexEncode (l : list byte) : list byte :=
  concat (map (fun b => [hexDigit (byte_to_N b / 16); hexDigit (byte_to_N b mod 16)]) l).

(** [strconv.ParseUint(s, 10, 64)]: the digits so far, and nothing once they overflow. *)
Fixpoint parseDigits (l : list byte) (n : N) : option N :=
  match l with
  | [] => Some n
  | b :: l =>
      let x := byte_to_N b in
      if (48 <=? x) && (x <=? 57) then
        let n := n * 10 + (x - 48) in
        if n <? two64 then parseDigits l n else None
      else None
  end.

Definition ParseUint (s : string) : option N :=
  match string_bytes s with [] => None | l => parseDigits l 0 end.

Inductive cliError :=
| usageError | sessionUsage | badSessionID | badSequence
| operationFailed (e : clientError) | statusFailed (s : Status) | statusConnect.

Definition parseSessionID (encoded : string) : result cliError SessionID :=
  match hexDecode (string_bytes encoded) with
  | Some decoded => if len decoded =? 16 then Ok decoded else Err badSessionID
  | None => Err badSessionID
  end.

(** ** Output *)

Definition newline : byte := x0a.

(** One line of a JSON object; the first field opens it. *)
Definition object (fields : list (list byte)) : list byte :=
  [x7b] ++ concat (match fields with [] => [] | f :: fs => f :: map (cons x2c) fs end) ++ [x7d; newline].

Definition fieldString (name v : string) : list byte := label name ++ jsonString v.
Definition fieldNumber (name : string) (n : N) : list byte := label name ++ jsonNumber n.
Definition fieldBool (name : string) (b : bool) : list byte := label name ++ jsonBool b.

(** A byte slice that [append] built from no bytes is nil. *)
Definition fieldValue (name : string) (v : list byte) : list byte :=
  label name ++ match v with [] => string_bytes "null" | _ => jsonBytes v end.

Definition stateName (s : NodeState) : string :=
  match s with NODE_STATE_STARTING => "NODE_STATE_STARTING" | NODE_STATE_READY => "NODE_STATE_READY" end.

Definition roleName (r : RaftRole) : string :=
  match r with
  | RAFT_ROLE_FOLLOWER => "RAFT_ROLE_FOLLOWER" | RAFT_ROLE_PRE_CANDIDATE => "RAFT_ROLE_PRE_CANDIDATE"
  | RAFT_ROLE_CANDIDATE => "RAFT_ROLE_CANDIDATE" | RAFT_ROLE_LEADER => "RAFT_ROLE_LEADER"
  end.

(** ** Commands *)

(** What answers the calls. *)
Record remote := mkRemote {
  rm_net : surroundings unit;
  rm_open : nat -> string -> unit -> result Status OpenSessionResponse;
  rm_close : nat -> string -> CloseSessionRequest -> result Status unit;
  rm_set : nat -> string -> SetRequest -> result Status unit;
  rm_delete : nat -> string -> DeleteRequest -> result Status DeleteResponse;
  rm_get : nat -> string -> GetRequest -> result Status GetResponse;
  rm_status : string -> result Status GetStatusResponse }.

Definition operation {A} (r : result clientError A * list attempt) : result cliError A :=
  match r.1 with Ok a => Ok a | Err e => Err (operationFailed e) end.

Definition parseSequence (s : string) : result cliError N :=
  match ParseUint s with
  | None => Err badSequence
  | Some n => if n =? 0 then Err badSequence else Ok n
  end.

Definition runSession (rm : remote) (address : string) (args : list string) : result cliError (list byte) :=
  match args with
  | ["open"] =>
      let? sessionID := operation (ClientOpenSession (rm_net rm) [address] (rm_open rm)) in
      Ok (object [label "session_id" ++ jsonString (bytes_string (hexEncode sessionID))])
  | ["close"; encoded] =>
      let? sessionID := parseSessionID encoded in
      let? _ := operation (ClientCloseSession (rm_net rm) [address] (rm_close rm) sessionID) in
      Ok (object [fieldString "session_id" encoded; fieldBool "closed" true])
  | _ => Err sessionUsage
  end.

Definition runSet (rm : remote) (address : string) (args : list string) : result cliError (list byte) :=
  match args with
  | [session; seq; key; value] =>
      let? sessionID := parseSessionID session in
      let? sequence := parseSequence seq in
      let? _ := operation (ClientSet (rm_net rm) [address] (rm_set rm) sessionID sequence key (string_bytes value)) in
      Ok (object [fieldString "key" key; fieldNumber "sequence" sequence; fieldBool "stored" true])
  | _ => Err usageError
  end.

Definition runGet (rm : remote) (address : string) (args : list string) : result cliError (list byte) :=
  match args with
  | [key] =>
      let? value := operation (ClientGet (rm_net rm) [address] (rm_get rm) key) in
      Ok (object [fieldString "key" key; fieldValue "value" value; fieldBool "found" true])
  | _ => Err usageError
  end.

Definition runDelete (rm : remote) (address : string) (args : list string) : result cliError (list byte) :=
  match args with
  | [session; seq; key] =>
      let? sessionID := parseSessionID session in
      let? sequence := parseSequence seq in
      let? existed := operation (ClientDelete (rm_net rm) [address] (rm_delete rm) sessionID sequence key) in
      Ok (object [fieldString "key" key; fieldNumber "sequence" sequence; fieldBool "existed" existed])
  | _ => Err usageError
  end.

Definition statusLine (s : GetStatusResponse) : list byte :=
  object
    ([fieldString "cluster_id" (gs_ClusterId s); fieldString "node_id" (gs_NodeId s);
      fieldString "state" (stateName (gs_State s)); fieldString "peer_address" (gs_PeerAddress s);
      fieldString "client_address" (gs_ClientAddress s); fieldString "role" (roleName (gs_Role s))]
     ++ (if bool_decide (gs_LeaderId s = "") then [] else [fieldString "leader_id" (gs_LeaderId s)])
     ++ [fieldNumber "term" (gs_Term s); fieldNumber "last_log_index" (gs_LastLogIndex s);
         fieldNumber "commit_index" (gs_CommitIndex s); fieldNumber "last_applied" (gs_LastApplied s);
         fieldNumber "snapshot_index" (gs_SnapshotIndex s)]).

Definition Run (rm : remote) (address : string) (args : list string) : result cliError (list byte) :=
  match args with
  | [] => Err usageError
  | "session" :: args => runSession rm address args
  | "set" :: args => runSet rm address args
  | "get" :: args => runGet rm address args
  | "delete" :: args => runDelete rm address args
  | ["status"] =>
      if negb (ce_connects (rm_net rm) 0 address) then Err statusConnect
      else match rm_status rm address with Err s => Err (statusFailed s) | Ok s => Ok (statusLine s) end
  | _ => Err usageError
  end.

(** ** Round trips *)

Lemma hex_byte b :
  fromHexChar (hexDigit (byte_to_N b / 16)) = Some (byte_to_N b / 16) /\
  fromHexChar (hexDigit (byte_to_N b mod 16)) = Some (byte_to_N b mod 16) /\
  byte_of_N (byte_to_N b / 16 * 16 + byte_to_N b mod 16) = b.
Proof. destruct b; by vm_compute. Qed.

Lemma hexDecode_encode l : hexDecode (hexEncode l) = Some l.
Proof.
  induction l as [|b l IH]; [done|]. change (hexEncode (b :: l)) with
    (hexDigit (byte_to_N b / 16) :: hexDigit (byte_to_N b mod 16) :: hexEncode l).
  cbn [hexDecode]. destruct (hex_byte b) as (-> & -> & Hb). by rewrite IH, Hb.
Qed.

Lemma parseSessionID_encoded session :
  len session = 16 -> parseSessionID (bytes_string (hexEncode session)) = Ok session.
Proof.
  intros Hl. unfold parseSessionID. rewrite string_bytes_of_bytes, hexDecode_encode. by rewrite Hl.
Qed.

(** A Session opened on the command line can be named on it.  For whatever identity the
    Leader chose, [session open] prints one that [session close], given as printed, sends to the
    Leader byte for byte. *)
Theorem printed_session_is_accepted rm address session close :
  len session = 16 ->
  (forall k x, ce_connects (rm_net rm) k x = true) -> (forall k, ce_closes (rm_net rm) k = true) ->
  (forall k x, rm_open rm k x tt = Ok (mkOpenSessionResponse session)) ->
  (forall k x, rm_close rm k x = close) -> close (mkCloseSessionRequest session) = Ok tt ->
  exists printed, Run rm address ["session"; "open"] = Ok (object [fieldString "session_id" printed]) /\
    Run rm address ["session"; "close"; printed] =
      Ok (object [fieldString "session_id" printed; fieldBool "closed" true]).
Proof.
  intros Hl Hc Hcl Ho Hx Hok. exists (bytes_string (hexEncode session)).
  unfold Run, runSession, operation. rewrite parseSessionID_encoded by done. cbn [rbind].
  unfold ClientOpenSession, ClientCloseSession.
  rewrite (withLeader_first _ _ _ session); [|apply Hc| |apply Hcl].
  - rewrite (withLeader_first _ _ _ tt); [done|apply Hc| |apply Hcl].
    unfold over, calls. cbn. by rewrite Hx, Hok.
  - unfold over, calls. cbn [ce_call]. rewrite Ho. cbn [os_SessionId]. by rewrite Hl.
Qed.

Definition sampleRemote : remote :=
  mkRemote sampleNetwork (fun _ _ _ => Ok (mkOpenSessionResponse (replicate 16 x5a))) (fun _ _ _ => Ok tt)
    (fun _ _ _ => Ok tt) (fun _ _ _ => Ok (mkDeleteResponse false)) (fun _ _ _ => Ok (mkGetResponse []))
    (fun _ => Err (plainStatus Unavailable)).

Lemma printed_session_is_accepted_witness :
  exists printed, Run sampleRemote "a:2" ["session"; "open"] = Ok (object [fieldString "session_id" printed]) /\
    Run sampleRemote "a:2" ["session"; "close"; printed] =
      Ok (object [fieldString "session_id" printed; fieldBool "closed" true]).
Proof.
  apply (printed_session_is_accepted sampleRemote "a:2" (replicate 16 x5a) (fun _ => Ok tt)); reflexivity.
Defined.
