(* ===== verification/Simulation.v ===== *)
(** The deterministic three-Node runtime of [internal/simulation/election.go]: events are taken
    from a queue, stepped through the Raft core, and the actions queued in turn, with the
    checks the harness makes after every event. *)

From S2P Require Import Prelude RaftTypes RaftCore.

Definition threeNodeIDs : list NodeID := ["node-1"; "node-2"; "node-3"].

(** ** Timing, in nanoseconds *)

Record Timing := mkTiming {
  HeartbeatInterval : Z; ElectionTimeoutMin : Z; ElectionTimeoutMax : Z; CheckQuorumWindow : Z }.

Definition millisecond : Z := 1000000.

Definition DefaultTiming : Timing :=
  mkTiming (100 * millisecond) (500 * millisecond) (1000 * millisecond) (1000 * millisecond).

Inductive timingProblem :=
| heartbeatNotPositive | minimumNotAboveHeartbeat | maximumBelowMinimum | quorumBelowMinimum.

(** The problems [Validate] joins; none is the nil error. *)
Definition ValidateTiming (t : Timing) : list timingProblem :=
  (if (HeartbeatInterval t <=? 0)%Z then [heartbeatNotPositive] else []) ++
  (if (ElectionTimeoutMin t <=? HeartbeatInterval t)%Z then [minimumNotAboveHeartbeat] else []) ++
  (if (ElectionTimeoutMax t <? ElectionTimeoutMin t)%Z then [maximumBelowMinimum] else []) ++
  (if (CheckQuorumWindow t <? ElectionTimeoutMin t)%Z then [quorumBelowMinimum] else []).

(** An [ElectionClock]: the duration its [k]-th use returns for a range. *)
Definition ElectionClock := nat -> Z -> Z -> Z.

(** [SeededClock] over the numbers its random source yields; [Int63n(n)] is below [n]. *)
Definition SeededClock (random : nat -> Z) : ElectionClock := fun k minimum maximum =>
  let span := (maximum - minimum)%Z in
  if (span =? 0)%Z then minimum else (minimum + random k mod (span + 1))%Z.

(** ** The Cluster *)

Record simStep := mkStep { ss_Node : NodeID; ss_Event : Event; ss_Actions : list Action }.

Record ScheduledElection := mkScheduled { se_Node : NodeID; se_After : Z }.

Record simCluster := mkSim {
  sc_nodes : gmap NodeID Node;
  sc_connected : gmap NodeID (gmap NodeID bool);
  sc_timing : Timing;
  sc_electionTimeouts : gmap NodeID Z;
  sc_heartbeatTimeouts : gmap NodeID Z;
  sc_quorumTimeouts : gmap NodeID Z;
  sc_applied : gmap NodeID (list LogEntry);
  sc_scheduledElection : list ScheduledElection;
  sc_trace : list simStep }.

#[export] Instance eta_simCluster : Eta simCluster := fun c =>
  mkSim (sc_nodes c) (sc_connected c) (sc_timing c) (sc_electionTimeouts c) (sc_heartbeatTimeouts c)
    (sc_quorumTimeouts c) (sc_applied c) (sc_scheduledElection c) (sc_trace c).

Record scheduledEvent := mkEvent { sv_node : NodeID; sv_event : Event }.

Inductive simError :=
| invalidTiming (problems : list timingProblem)
| unknownNode (id : NodeID)
| appliedOutOfOrder (id : NodeID) (index : N) (count : N)
| multipleLeaders (term : N)
| appliedBeyondCommit (id : NodeID)
| appliedMiscounted (id : NodeID)
| leaderTerms (count : N).

Section Clock.
Context (clock : ElectionClock).

(** Every use of the clock is recorded, so the record counts the uses. *)
Definition resetElectionTimer (id : NodeID) (c : simCluster) : simCluster :=
  let delay := clock (length (sc_scheduledElection c)) (ElectionTimeoutMin (sc_timing c))
                 (ElectionTimeoutMax (sc_timing c)) in
  c <| sc_electionTimeouts := <[id := delay]> (sc_electionTimeouts c) |>
    <| sc_scheduledElection := sc_scheduledElection c ++ [mkScheduled id delay] |>.

Definition others (id : NodeID) : list NodeID := filter (fun peer => peer <> id) threeNodeIDs.

Definition addNode (c : simCluster) (id : NodeID) : simCluster :=
  resetElectionTimer id
    (c <| sc_connected := <[id := list_to_map (map (fun peer => (peer, true)) (others id))]> (sc_connected c) |>
       <| sc_nodes := <[id := NewNode id (others id)]> (sc_nodes c) |>).

(** The clock is a function here, never nil. *)
Definition NewCluster (timing : Timing) : result simError simCluster :=
  match ValidateTiming timing with
  | [] => Ok (foldl addNode (mkSim ∅ ∅ timing ∅ ∅ ∅ ∅ [] []) threeNodeIDs)
  | problems => Err (invalidTiming problems)
  end.

(** ** Checks *)

(** The Leaders of each term. *)
Definition leadersByTerm (nodes : gmap NodeID Node) : option (gmap N (list NodeID)) :=
  foldr (fun (p : NodeID * Node) acc =>
    match acc, getState p.2 with
    | Some leaders, Some state =>
        Some (if bool_decide (st_Role state = Leader)
              then <[st_Term state := merge_sort string_le (st_ID state :: default [] (leaders !! st_Term state))]> leaders
              else leaders)
    | _, _ => None
    end) (Some ∅) (map_to_list nodes).

(** The first problem; [None] is a panic. *)
Definition assertRaftInvariants (nodes : gmap NodeID Node) (applied : gmap NodeID (list LogEntry))
    : option (result simError unit) :=
  match leadersByTerm nodes with
  | None => None
  | Some leaders =>
      match filter (fun p : N * list NodeID => (1 < length p.2)%nat) (map_to_list leaders) with
      | (term, _) :: _ => Some (Err (multipleLeaders term))
      | [] =>
          foldr (fun (p : NodeID * Node) acc =>
            match getState p.2 with
            | None => None
            | Some state =>
                if st_CommitIndex state <? st_LastApplied state then Some (Err (appliedBeyondCommit p.1))
                else if negb (len (default [] (applied !! p.1)) =? st_LastApplied state)
                then Some (Err (appliedMiscounted p.1))
                else acc
            end) (Some (Ok tt)) (map_to_list nodes)
      end
  end.

(** ** Delivery *)

Definition isConnected (c : simCluster) (from to : NodeID) : bool :=
  default false (default ∅ (sc_connected c !! from) !! to).

(** The queue after [deliver], and whether the message went out. *)
Definition deliverEvent (c : simCluster) (queue : list scheduledEvent) (from to : NodeID) (event : Event)
    : list scheduledEvent * bool :=
  if isConnected c from to then (queue ++ [mkEvent to event], true) else (queue, false).

(** The queue and the Cluster, with the harness's errors. *)
Definition SM := EM (list scheduledEvent * simCluster) simError.

Definition enqueueEvent (id : NodeID) (event : Event) : SM unit :=
  emodify (fun '(queue, c) => (queue ++ [mkEvent id event], c)).

Definition onCluster (f : simCluster -> simCluster) : SM unit := emodify (fun '(queue, c) => (queue, f c)).

Definition simDeliver (from to : NodeID) (event : Event) : SM bool :=
  fun '(queue, c) => let '(queue, sent) := deliverEvent c queue from to event in (Ok sent, (queue, c)).

Definition simAction (id : NodeID) (action : Action) : SM unit :=
  let send to event := do+ simDeliver id to event in eret tt in
  match action with
  | PersistHardState persistID _ _ => enqueueEvent id (HardStatePersisted persistID)
  | PersistLogEntries persistID _ _ => enqueueEvent id (LogEntriesPersisted persistID)
  | PersistCommitIndex persistID _ => enqueueEvent id (CommitIndexPersisted persistID)
  | SendPreVoteRequest to request => send to (EvPreVoteRequest request)
  | SendPreVoteResponse to response => send to (EvPreVoteResponse response)
  | SendVoteRequest to request => send to (EvVoteRequest request)
  | SendVoteResponse to response => send to (EvVoteResponse response)
  | SendAppendEntries to request =>
      let+ sent := simDeliver id to (EvAppendEntries request) in
      if negb sent then enqueueEvent id (AppendEntriesFailed to (ae_RequestID request)) else eret tt
  | SendAppendEntriesResponse to response => send to (EvAppendEntriesResponse response)
  | ResetElectionTimer => onCluster (resetElectionTimer id)
  | ResetHeartbeatTimer =>
      onCluster (fun c =>
        c <| sc_heartbeatTimeouts := <[id := HeartbeatInterval (sc_timing c)]> (sc_heartbeatTimeouts c) |>)
  | ResetCheckQuorumTimer =>
      onCluster (fun c =>
        c <| sc_quorumTimeouts := <[id := CheckQuorumWindow (sc_timing c)]> (sc_quorumTimeouts c) |>)
  | ApplyEntry entry =>
      let+ st := eget in
      let applied := default [] (sc_applied st.2 !! id) in
      if negb (Index entry =? len applied + 1)
      then elift (Err (appliedOutOfOrder id (Index entry) (len applied)))
      else onCluster (fun c => c <| sc_applied := <[id := applied ++ [entry]]> (sc_applied c) |>)
  | _ => eret tt
  end.

(** [process]: [None] is a panic of the core or an exhausted fuel. *)
Fixpoint process (fuel : nat) (queue : list scheduledEvent) (c : simCluster)
    : option (result simError unit * simCluster) :=
  match queue with
  | [] => Some (Ok tt, c)
  | next :: queue =>
      match fuel with
      | O => None
      | S fuel =>
          match sc_nodes c !! sv_node next with
          | None => Some (Err (unknownNode (sv_node next)), c)
          | Some node =>
              match Step (sv_event next) node with
              | None => None
              | Some (actions, node) =>
                  let c := c <| sc_nodes := <[sv_node next := node]> (sc_nodes c) |>
                             <| sc_trace := sc_trace c ++ [mkStep (sv_node next) (sv_event next) actions] |> in
                  match efor (simAction (sv_node next)) actions (queue, c) with
                  | (Err e, (_, c)) => Some (Err e, c)
                  | (Ok _, (queue, c)) =>
                      match assertRaftInvariants (sc_nodes c) (sc_applied c) with
                      | None => None
                      | Some (Err e) => Some (Err e, c)
                      | Some (Ok _) => process fuel queue c
                      end
                  end
              end
          end
      end
  end.

(** ** Commands of the harness *)

Definition FireElectionTimeout (fuel : nat) (id : NodeID) := process fuel [mkEvent id ElectionTimeout].
Definition FireHeartbeatTimeout (fuel : nat) (id : NodeID) := process fuel [mkEvent id HeartbeatTimeout].
Definition FireCheckQuorumTimeout (fuel : nat) (id : NodeID) := process fuel [mkEvent id CheckQuorumTimeout].

(** [ProposeSession] and [ProposeSet] inject a proposal. *)
Definition inject (fuel : nat) (id : NodeID) (proposal : Event) := process fuel [mkEvent id proposal].

(** The Node with the shortest timeout, the first one of them. *)
Definition shortestTimeout (timeouts : gmap NodeID Z) : NodeID :=
  (foldl (fun (best : NodeID * Z) id =>
     let delay := default 0%Z (timeouts !! id) in
     if bool_decide (best.1 = "") || (delay <? best.2)%Z
        || ((delay =? best.2)%Z && negb (bool_decide (string_le best.1 id)))
     then (id, delay) else best) ("", 0%Z) threeNodeIDs).1.

Definition FireNextElectionTimeout (fuel : nat) (c : simCluster) :=
  FireElectionTimeout fuel (shortestTimeout (sc_electionTimeouts c)) c.

(** Naming an unknown Node in a group panics. *)
Definition connectPair (from : NodeID) (m : option (gmap NodeID (gmap NodeID bool))) (to : NodeID)
    : option (gmap NodeID (gmap NodeID bool)) :=
  if bool_decide (from = to) then m
  else
    match m with
    | None => None
    | Some m =>
        match m !! from with
        | None => None
        | Some row => Some (<[from := <[to := true]> row]> m)
        end
    end.

Definition Partition (groups : list (list NodeID)) (c : simCluster) : option simCluster :=
  let cut := fmap (fun row : gmap NodeID bool => fmap (fun _ => false) row) (sc_connected c) in
  option_map (fun m => c <| sc_connected := m |>)
    (foldl (fun m group => foldl (fun m from => foldl (connectPair from) m group) m group) (Some cut) groups).

Definition Heal (c : simCluster) : option simCluster := Partition [threeNodeIDs] c.

Record ElectionResult := mkElectionResult { er_Leader : NodeID; er_Term : N; er_Trace : list simStep }.

(** [RunElection] with the clock of its seed; the outer option is a panic. *)
Definition RunElection (fuel : nat) : option (result simError unit * ElectionResult) :=
  match NewCluster DefaultTiming with
  | Err e => Some (Err e, mkElectionResult "" 0 [])
  | Ok c =>
      match FireNextElectionTimeout fuel c with
      | None => None
      | Some (Err e, c) => Some (Err e, mkElectionResult "" 0 (sc_trace c))
      | Some (Ok _, c) =>
          match leadersByTerm (sc_nodes c) with
          | None => None
          | Some leaders =>
              match map_to_list leaders with
              | [(term, leader :: _)] => Some (Ok tt, mkElectionResult leader term (sc_trace c))
              | l => Some (Err (leaderTerms (len l)), mkElectionResult "" 0 (sc_trace c))
              end
          end
      end
  end.

(** ** Every election succeeds *)

Lemma process_more fuel k queue c r : process fuel queue c = Some r -> process (fuel + k) queue c = Some r.
Proof.
  revert queue c. induction fuel as [|fuel IH]; intros queue c; destruct queue as [|next queue]; cbn [process Nat.add];
    try done; [by destruct k|].
  destruct (sc_nodes c !! sv_node next) as [node|]; [|done]. destruct (Step _ _) as [[actions node']|]; [|done].
  destruct (efor _ _ _) as [[[]|] [queue' c']]; [|done].
  destruct (assertRaftInvariants _ _) as [[[]|]|]; [|done|done]. apply IH.
Qed.

Lemma shortest_cases timeouts :
  shortestTimeout timeouts ∈ threeNodeIDs.
Proof. unfold shortestTimeout, threeNodeIDs. cbn. repeat case_match; cbn; set_solver. Qed.

(** The Cluster before the first timeout. *)
Definition freshCluster : simCluster := foldl addNode (mkSim ∅ ∅ DefaultTiming ∅ ∅ ∅ ∅ [] []) threeNodeIDs.

(** All Nodes follow [id] in term 1. *)
Definition following (id : NodeID) (c : simCluster) : bool :=
  forallb (fun other =>
    match sc_nodes c !! other with
    | Some node => (term node =? 1) && bool_decide (leaderID node = id)
                   && eqb (bool_decide (role node = Leader)) (bool_decide (other = id))
    | None => false
    end) threeNodeIDs.

Lemma fresh_election id :
  id ∈ threeNodeIDs ->
  exists c, FireElectionTimeout 30 id freshCluster = Some (Ok tt, c) /\
    leadersByTerm (sc_nodes c) = Some {[1 := [id]]} /\ following id c = true.
Proof.
  assert (Hb : forallb (fun id =>
    match FireElectionTimeout 30 id freshCluster with
    | Some (Ok _, c) => bool_decide (leadersByTerm (sc_nodes c) = Some {[1 := [id]]}) && following id c
    | _ => false
    end) threeNodeIDs = true) by (vm_compute; reflexivity).
  intros Hid. rewrite forallb_forall in Hb. specialize (Hb id (proj1 (list_elem_of_In _ _) Hid)).
  destruct (FireElectionTimeout 30 id freshCluster) as [[[[]|] c]|]; [|done|done].
  apply andb_true_iff in Hb as [Hl%bool_decide_eq_true_1 Hf]. by exists c.
Qed.

(** What [RunElection] returns, in terms of its parts. *)
Lemma RunElection_elects fuel c0 c id :
  NewCluster DefaultTiming = Ok c0 -> FireNextElectionTimeout fuel c0 = Some (Ok tt, c) ->
  leadersByTerm (sc_nodes c) = Some {[1 := [id]]} ->
  RunElection fuel = Some (Ok tt, mkElectionResult id 1 (sc_trace c)).
Proof. intros Hnew Hfire Hl. unfold RunElection. by rewrite Hnew, Hfire, Hl, map_to_list_singleton. Qed.

Lemma NewCluster_fresh : NewCluster DefaultTiming = Ok freshCluster.
Proof.
  unfold NewCluster. assert (H : ValidateTiming DefaultTiming = []) by (vm_compute; reflexivity). by rewrite H.
Qed.

Lemma FireElectionTimeout_more fuel id c r :
  (30 <= fuel)%nat -> FireElectionTimeout 30 id c = Some r -> FireElectionTimeout fuel id c = Some r.
Proof.
  intros Hf Hc. replace fuel with (30 + (fuel - 30))%nat by lia. revert Hc. unfold FireElectionTimeout.
  generalize 30%nat (fuel - 30)%nat. intros n k Hc. by apply process_more.
Qed.

(** The first controlled election succeeds for every seed.  Whatever durations the clock yields,
    [RunElection] returns without an error, within 30 deliveries, the Node whose timeout is the shortest
    leads term 1, and it is the only Leader. *)
Theorem every_seed_elects_the_first_candidate fuel :
  (30 <= fuel)%nat ->
  exists trace, RunElection fuel =
    Some (Ok tt, mkElectionResult (shortestTimeout (sc_electionTimeouts freshCluster)) 1 trace).
Proof.
  intros Hf. destruct (fresh_election _ (shortest_cases (sc_electionTimeouts freshCluster))) as (c & Hc & Hl & _).
  exists (sc_trace c). revert Hc Hl. pose proof NewCluster_fresh as Hnew. revert Hnew. generalize freshCluster.
  intros c0 Hnew Hc Hl. eapply RunElection_elects; [exact Hnew| |exact Hl].
  unfold FireNextElectionTimeout. by apply FireElectionTimeout_more.
Qed.
End Clock.

Lemma every_seed_elects_the_first_candidate_witness :
  exists trace, RunElection (SeededClock (fun k => Z.of_nat (7 - k))) 30 =
    Some (Ok tt, mkElectionResult "node-3" 1 trace).
Proof.
  assert (Hs : shortestTimeout (sc_electionTimeouts (freshCluster (SeededClock (fun k => Z.of_nat (7 - k))))) = "node-3")
    by (vm_compute; reflexivity).
  rewrite <- Hs. apply (every_seed_elects_the_first_candidate (SeededClock (fun k => Z.of_nat (7 - k))) 30). lia.
Defined.
