(* ===== verification/Randomized.v ===== *)
(** The seeded fault simulation of [internal/simulation/randomized.go]: a three-Node Cluster
    whose messages, timers and persistence requests are delivered in a random order, with delays,
    drops, duplicates, a one-way partition and a crash, and the invariants it checks.

    The numbers of the random source are a stream; [Intn(n)] is below [n].  The trace records what
    happened as data, not as text. *)

From S2P Require Import Prelude Bytes RaftTypes RaftCore Simulation.

(** ** Data *)

Record RandomConfig := mkRandomConfig { rc_Steps : Z }.

Record FaultCoverage := mkFaults {
  MessageDelay : bool; MessageDrop : bool; MessageDuplicate : bool; MessageReorder : bool;
  Asymmetric : bool; Crash : bool; Restart : bool; PersistenceDelay : bool }.

#[export] Instance eta_faults : Eta FaultCoverage := fun f =>
  mkFaults (MessageDelay f) (MessageDrop f) (MessageDuplicate f) (MessageReorder f) (Asymmetric f)
    (Crash f) (Restart f) (PersistenceDelay f).

Inductive queuedKind := queuedTimer | queuedMessage | queuedPersistence | queuedClient.

#[export] Instance queuedKind_eq_dec : EqDecision queuedKind.
Proof. solve_decision. Defined.

Record queuedEvent := mkQueued {
  qe_kind : queuedKind; qe_from : NodeID; qe_to : NodeID; qe_event : Event;
  qe_persistence : option Action; qe_availableAt : N }.

#[export] Instance eta_queued : Eta queuedEvent := fun q =>
  mkQueued (qe_kind q) (qe_from q) (qe_to q) (qe_event q) (qe_persistence q) (qe_availableAt q).

(** The kinds of trace events; the text of a detail is not kept. *)
Inductive traceKind :=
| tracePersistenceDelay | traceMessageDelay | traceMessageDuplicate | traceMessageReorder | traceMessageDrop
| tracePartition | traceHeal | traceCrash | traceRestart | traceDiscard | tracePersistence
| traceTimer | traceMessage | traceClient | traceEvent.

#[export] Instance traceKind_eq_dec : EqDecision traceKind.
Proof. solve_decision. Defined.

Record TraceEvent := mkTraceEvent { te_Sequence : N; te_Kind : traceKind; te_Node : NodeID }.

Record durableNode := mkDurable { dn_hard : HardState; dn_log : list LogEntry; dn_commit : N }.

#[export] Instance eta_durable : Eta durableNode := fun d => mkDurable (dn_hard d) (dn_log d) (dn_commit d).

Record modelSession := mkModelSession { mo_closed : bool; mo_lastSequence : N; mo_deleteResult : bool }.

#[export] Instance eta_modelSession : Eta modelSession := fun m =>
  mkModelSession (mo_closed m) (mo_lastSequence m) (mo_deleteResult m).

#[export] Instance modelSession_eq_dec : EqDecision modelSession.
Proof. solve_decision. Defined.

Record modelState := mkModelState {
  mo_applied : N; mo_values : gmap string (list byte); mo_sessions : gmap SessionID modelSession }.

#[export] Instance eta_modelState : Eta modelState := fun m =>
  mkModelState (mo_applied m) (mo_values m) (mo_sessions m).

Inductive invariantError :=
| orderedApplication (id : NodeID) | onceOnlyApplication (id : NodeID) (index : N)
| conflictingEntry (index : N) | electionSafety (term : N) (first second : NodeID)
| monotonicProgress (id : NodeID) | leaderCompleteness (id : NodeID) (index : N)
| prefixAgreement (left right : NodeID) (index : N) | unequalState (left right : NodeID)
| durabilityLost (index : N).

Inductive randomError :=
| stepsNotPositive | invariantFailed (e : invariantError) | outOfEvents | noReadyLeader | noProgress
| partitionNotReached (from to : NodeID) | randomPanic.

Record randomCluster := mkRandom {
  rn_draws : nat;
  rn_nodes : gmap NodeID Node;
  rn_alive : gmap NodeID bool;
  rn_connected : gmap NodeID (gmap NodeID bool);
  rn_durable : gmap NodeID durableNode;
  rn_models : gmap NodeID modelState;
  rn_queue : list queuedEvent;
  rn_trace : list TraceEvent;
  rn_faults : FaultCoverage;
  rn_leaders : gmap N NodeID;
  rn_committed : gmap N LogEntry;
  rn_lastState : gmap NodeID State;
  rn_incarnation : gmap NodeID N;
  rn_appliedSeen : gmap NodeID (gmap N N);
  rn_invariantErr : option invariantError;
  rn_step : N }.

#[export] Instance eta_random : Eta randomCluster := fun c =>
  mkRandom (rn_draws c) (rn_nodes c) (rn_alive c) (rn_connected c) (rn_durable c) (rn_models c) (rn_queue c)
    (rn_trace c) (rn_faults c) (rn_leaders c) (rn_committed c) (rn_lastState c) (rn_incarnation c)
    (rn_appliedSeen c) (rn_invariantErr c) (rn_step c).

(** Reads of Go maps. *)
Definition nodeOf (c : randomCluster) (id : NodeID) : option Node := rn_nodes c !! id.
Definition isAlive (c : randomCluster) (id : NodeID) : bool := default false (rn_alive c !! id).
Definition linked (c : randomCluster) (from to : NodeID) : bool :=
  default false (default ∅ (rn_connected c !! from) !! to).
Definition durableOf (c : randomCluster) (id : NodeID) : durableNode :=
  default (mkDurable (mkHardState 0 "") [] 0) (rn_durable c !! id).
Definition newModelState : modelState := mkModelState 0 ∅ ∅.
Definition modelOf (c : randomCluster) (id : NodeID) : modelState := default newModelState (rn_models c !! id).

(** ** The scheduler *)

Section Random.
Context (random : nat -> N).

Abbreviation RC := (EM randomCluster randomError).

(** A value that must be there, or the program panics. *)
Definition must {A} (o : option A) : RC A := elift (match o with Some a => Ok a | None => Err randomPanic end).

Definition Intn (n : N) : RC N :=
  let+ c := eget in
  do+ emodify (fun c => c <| rn_draws := S (rn_draws c) |>) in
 eret (random (rn_draws c) mod n).

(** [threeNodeIDs[c.random.Intn(len(threeNodeIDs))]]. *)
Definition randomNode : RC NodeID :=
  let+ i := Intn (len threeNodeIDs) in
  must (at_index threeNodeIDs i).

Definition record (kind : traceKind) (node : NodeID) : RC unit :=
  emodify (fun c => c <| rn_trace := rn_trace c ++ [mkTraceEvent (len (rn_trace c) + 1) kind node] |>).

Definition fault (f : FaultCoverage -> FaultCoverage) : RC unit :=
  emodify (fun c => c <| rn_faults := f (rn_faults c) |>).

Definition enqueue (item : queuedEvent) : RC unit :=
  emodify (fun c => c <| rn_queue := rn_queue c ++ [item] |>).

Definition enqueueMessage (from to : NodeID) (event : Event) : RC unit :=
  enqueue (mkQueued queuedMessage from to event None 0).

(** [reflect.TypeOf] of two timer events. *)
Definition sameTimer (a b : Event) : bool :=
  match a, b with
  | ElectionTimeout, ElectionTimeout | HeartbeatTimeout, HeartbeatTimeout
  | CheckQuorumTimeout, CheckQuorumTimeout => true
  | _, _ => false
  end.

Definition enqueueTimer (to : NodeID) (event : Event) : RC unit :=
  do+ emodify (fun c => c <| rn_queue := filter (fun pending =>
        ~ (qe_kind pending = queuedTimer /\ qe_to pending = to /\ sameTimer (qe_event pending) event = true))
        (rn_queue c) |>) in
  enqueue (mkQueued queuedTimer "" to event None 0).

Definition enqueueClient (to : NodeID) (event : Event) : RC unit :=
  enqueue (mkQueued queuedClient "" to event None 0).

(** [c.queue[:index] ++ c.queue[index+1:]]. *)
Definition remove (index : nat) : RC unit :=
  emodify (fun c => c <| rn_queue := take index (rn_queue c) ++ drop (S index) (rn_queue c) |>).

Definition firstPersistence (queue : list queuedEvent) (to : NodeID) : option nat :=
  fst <$> list_find (fun item => qe_kind item = queuedPersistence /\ qe_to item = to) queue.

(** The indices of the events that may be delivered now. *)
Definition eligible (c : randomCluster) : list nat :=
  omap (fun '(index, item) =>
    if rn_step c <? qe_availableAt item then None
    else
      match firstPersistence (rn_queue c) (qe_to item) with
      | Some first => if bool_decide (first = index) then Some index else None
      | None => Some index
      end) (imap pair (rn_queue c)).

Definition indices (kind : queuedKind) (c : randomCluster) : list nat :=
  omap (fun '(index, item) => if bool_decide (qe_kind item = kind) then Some index else None)
    (imap pair (rn_queue c)).

(** The first eligible event of the most preferred kind. *)
Definition healthyEvent (eligible : list nat) (c : randomCluster) : option nat :=
  let ofKind kind := list_find (fun index => fmap qe_kind (rn_queue c !! index) = Some kind) eligible in
  match ofKind queuedPersistence, ofKind queuedMessage, ofKind queuedClient, ofKind queuedTimer with
  | Some (_, i), _, _, _ | None, Some (_, i), _, _ | None, None, Some (_, i), _ | None, None, None, Some (_, i) => Some i
  | None, None, None, None => eligible !! 0%nat
  end.

(** ** The reference model *)

Definition modelApply (entry : LogEntry) (m : modelState) : modelState :=
  match EType entry with
  | EntryNoOp => m
  | EntryOpenSession =>
      match mo_sessions m !! ESessionID entry with
      | Some _ => m
      | None => m <| mo_sessions := <[ESessionID entry := mkModelSession false 0 false]> (mo_sessions m) |>
      end
  | EntryCloseSession =>
      match mo_sessions m !! ESessionID entry with
      | Some session =>
          if mo_closed session then m
          else m <| mo_sessions := <[ESessionID entry := session <| mo_closed := true |>]> (mo_sessions m) |>
      | None => m
      end
  | EntrySet =>
      match mo_sessions m !! ESessionID entry with
      | None => m
      | Some session =>
          if mo_closed session || negb (Sequence entry =? mo_lastSequence session +! 1) then m
          else m <| mo_values := <[Key entry := Value entry]> (mo_values m) |>
                 <| mo_sessions := <[ESessionID entry :=
                      session <| mo_deleteResult := false |> <| mo_lastSequence := Sequence entry |>]> (mo_sessions m) |>
      end
  | EntryDelete =>
      match mo_sessions m !! ESessionID entry with
      | None => m
      | Some session =>
          if mo_closed session || negb (Sequence entry =? mo_lastSequence session +! 1) then m
          else m <| mo_values := delete (Key entry) (mo_values m) |>
                 <| mo_sessions := <[ESessionID entry :=
                      session <| mo_deleteResult := bool_decide (is_Some (mo_values m !! Key entry)) |>
                              <| mo_lastSequence := Sequence entry |>]> (mo_sessions m) |>
      end
  end.

Definition fail (e : invariantError) : RC unit := emodify (fun c => c <| rn_invariantErr := Some e |>).

(** [apply]: the bookkeeping of an applied entry. *)
Definition applyEntry (id : NodeID) (entry : LogEntry) : RC unit :=
  let+ c := eget in
  let model := modelOf c id in
  if negb (Index entry =? mo_applied model +! 1) then fail (orderedApplication id)
  else
    let incarnation := default 0 (rn_incarnation c !! id) in
    let seen := default ∅ (rn_appliedSeen c !! id) in
    if default 0 (seen !! Index entry) =? incarnation then fail (onceOnlyApplication id (Index entry))
    else
      do+ emodify (fun c => c <| rn_appliedSeen := <[id := <[Index entry := incarnation]> seen]> (rn_appliedSeen c) |>
            <| rn_models := <[id := modelApply entry (model <| mo_applied := Index entry |>)]> (rn_models c) |>) in
      if bool_decide (default entry (rn_committed c !! Index entry) <> entry)
      then fail (conflictingEntry (Index entry))
      else emodify (fun c => c <| rn_committed := <[Index entry := entry]> (rn_committed c) |>).

(** ** Persistence *)

(** [sort.Search(len(log), func(i int) bool { return log[i].Index >= from })]. *)
Fixpoint search (fuel : nat) (log : list LogEntry) (from : N) (i j : nat) : nat :=
  match fuel with
  | O => i
  | S fuel =>
      if (i <? j)%nat then
        let h := Nat.div2 (i + j) in
        if from <=? default 0 (Index <$> log !! h)
        then search fuel log from i h
        else search fuel log from (S h) j
      else i
  end.

Definition cutAt (log : list LogEntry) (from : N) : list LogEntry :=
  take (search (S (length log)) log from 0 (length log)) log.

Definition appendDurable (log : list LogEntry) (entry : LogEntry) : list LogEntry :=
  match last log with
  | Some final => (if Index entry <=? Index final then cutAt log (Index entry) else log) ++ [entry]
  | None => log ++ [entry]
  end.

Definition completePersistence (action : option Action) (durable : durableNode) : durableNode :=
  match action with
  | Some (PersistHardState _ term votedFor) => durable <| dn_hard := mkHardState term votedFor |>
  | Some (PersistLogEntries _ truncateFrom entries) =>
      durable <| dn_log := foldl appendDurable
        (if 0 <? truncateFrom then cutAt (dn_log durable) truncateFrom else dn_log durable) entries |>
  | Some (PersistCommitIndex _ commit) => durable <| dn_commit := commit |>
  | _ => durable
  end.

Definition persistenceCompletion (action : Action) : option Event :=
  match action with
  | PersistHardState persistID _ _ => Some (HardStatePersisted persistID)
  | PersistLogEntries persistID _ _ => Some (LogEntriesPersisted persistID)
  | PersistCommitIndex persistID _ => Some (CommitIndexPersisted persistID)
  | _ => None
  end.

(** ** Actions and events *)

Definition consumeAction (id : NodeID) (action : Action) : RC unit :=
  match action with
  | PersistHardState _ _ _ | PersistLogEntries _ _ _ | PersistCommitIndex _ _ =>
      let+ event := must (persistenceCompletion action) in
      enqueue (mkQueued queuedPersistence "" id event (Some action) 0)
  | SendPreVoteRequest to request => enqueueMessage id to (EvPreVoteRequest request)
  | SendPreVoteResponse to response => enqueueMessage id to (EvPreVoteResponse response)
  | SendVoteRequest to request => enqueueMessage id to (EvVoteRequest request)
  | SendVoteResponse to response => enqueueMessage id to (EvVoteResponse response)
  | SendAppendEntries to request => enqueueMessage id to (EvAppendEntries request)
  | SendAppendEntriesResponse to response => enqueueMessage id to (EvAppendEntriesResponse response)
  | ResetElectionTimer => enqueueTimer id ElectionTimeout
  | ResetHeartbeatTimer => enqueueTimer id HeartbeatTimeout
  | ResetCheckQuorumTimer => enqueueTimer id CheckQuorumTimeout
  | ApplyEntry entry => applyEntry id entry
  | BecameLeader term =>
      emodify (fun c =>
        let prior := default ("" : NodeID) (rn_leaders c !! term) in
        if bool_decide (prior <> "" /\ prior <> id) then c
        else c <| rn_leaders := <[term := id]> (rn_leaders c) |>)
  | _ => eret tt
  end.

Definition consumeActions (id : NodeID) (actions : list Action) : RC unit := efor (consumeAction id) actions.

(** [c.nodes[id].Step(event)], the actions consumed. *)
Definition stepNode (id : NodeID) (event : Event) : RC unit :=
  let+ c := eget in
  let+ node := must (nodeOf c id) in
  let+ stepped := must (Step event node) in
  do+ emodify (fun c => c <| rn_nodes := <[id := stepped.2]> (rn_nodes c) |>) in
  consumeActions id stepped.1.

Definition kindName (kind : queuedKind) : traceKind :=
  match kind with
  | queuedTimer => traceTimer | queuedMessage => traceMessage | queuedClient => traceClient
  | queuedPersistence => traceEvent
  end.

(** [runOne]: one delivery; whether there was anything to do. *)
Definition runOne (randomChoice : bool) : RC bool :=
  let+ c := eget in
  match eligible c with
  | [] =>
      do+ emodify (fun c => c <| rn_step := rn_step c + 1 |>) in
      eret (0 <? len (rn_queue c))
  | choices =>
      let+ selected :=
        (if randomChoice then let+ i := Intn (len choices) in must (at_index choices i)
         else must (healthyEvent choices c)) in
      let+ item := must (rn_queue c !! selected) in
      do+ remove selected in
      do+ emodify (fun c => c <| rn_step := rn_step c + 1 |>) in
      if negb (isAlive c (qe_to item)) then do+ record traceDiscard (qe_to item) in eret true
      else if bool_decide (qe_kind item = queuedMessage) && negb (linked c (qe_from item) (qe_to item)) then
        do+ fault (fun f => f <| MessageDrop := true |>) in
        do+ record traceMessageDrop (qe_to item) in eret true
      else
        do+ (if bool_decide (qe_kind item = queuedPersistence) then
               let+ durable := must (rn_durable c !! qe_to item) in
               do+ emodify (fun c => c <| rn_durable :=
                     <[qe_to item := completePersistence (qe_persistence item) durable]> (rn_durable c) |>) in
               record tracePersistence (qe_to item)
             else record (kindName (qe_kind item)) (qe_to item)) in
        do+ stepNode (qe_to item) (qe_event item) in
        eret true
  end.

(** ** Invariants *)

Definition equalModel (left right : modelState) : bool :=
  (mo_applied left =? mo_applied right) && bool_decide (mo_values left = mo_values right)
  && bool_decide (mo_sessions left = mo_sessions right).

Definition violated (b : bool) (e : invariantError) : RC unit :=
  if b then elift (Err (invariantFailed e)) else eret tt.

(** [index <= len(log) && reflect.DeepEqual(log[index-1], entry)]. *)
Definition holds (log : list LogEntry) (index : N) (entry : LogEntry) : RC bool :=
  if len log <? index then eret false
  else let+ found := must (at_index log (index -! 1)) in eret (bool_decide (found = entry)).

Definition assertElection (c : randomCluster) : RC unit :=
  efor (fun leader : N * NodeID =>
    efor (fun node : NodeID * Node =>
      if isAlive c node.1 then
        let+ state := must (getState node.2) in
        violated (bool_decide (st_Role state = Leader) && (st_Term state =? leader.1) && negb (bool_decide (node.1 = leader.2)))
          (electionSafety leader.1 leader.2 node.1)
      else eret tt) (map_to_list (rn_nodes c))) (map_to_list (rn_leaders c)).

Definition assertProgress (node : NodeID * Node) : RC unit :=
  let+ c := eget in
  let id := node.1 in
  if negb (isAlive c id) then eret tt
  else
    let+ state := must (getState node.2) in
    do+ match rn_lastState c !! id with
        | Some previous =>
            violated ((st_Term state <? st_Term previous) || (st_CommitIndex state <? st_CommitIndex previous)
                      || (st_LastApplied state <? st_LastApplied previous)) (monotonicProgress id)
        | None => eret tt
        end in
    do+ emodify (fun c => c <| rn_lastState := <[id := state]> (rn_lastState c) |>) in
    do+ violated ((st_CommitIndex state <? st_LastApplied state)
                  || negb (st_LastApplied state =? mo_applied (modelOf c id))) (orderedApplication id) in
    if bool_decide (st_Role state = Leader) then
      efor (fun committed : N * LogEntry =>
        let+ held := holds (dn_log (durableOf c id)) committed.1 committed.2 in
        violated (negb held) (leaderCompleteness id committed.1)) (map_to_list (rn_committed c))
    else eret tt.

Definition assertAgreement (c : randomCluster) (pair : NodeID * NodeID) : RC unit :=
  let left := pair.1 in
  let right := pair.2 in
  let leftDurable := durableOf c left in
  let rightDurable := durableOf c right in
  do+ efor (fun index =>
        let apart := prefixAgreement left right index in
        do+ violated ((len (dn_log leftDurable) <? index) || (len (dn_log rightDurable) <? index)) apart in
        let+ entry := must (at_index (dn_log leftDurable) (index -! 1)) in
        let+ held := holds (dn_log rightDurable) index entry in
        violated (negb held) apart)
      (map N.of_nat (seq 1 (N.to_nat (N.min (dn_commit leftDurable) (dn_commit rightDurable))))) in
  violated ((mo_applied (modelOf c left) =? mo_applied (modelOf c right))
            && negb (equalModel (modelOf c left) (modelOf c right))) (unequalState left right).

(** The Nodes of the list that hold the entry. *)
Fixpoint copies (c : randomCluster) (index : N) (entry : LogEntry) (ids : list NodeID) : RC N :=
  match ids with
  | [] => eret 0
  | id :: ids =>
      let+ held := holds (dn_log (durableOf c id)) index entry in
      let+ rest := copies c index entry ids in
      eret (if held : bool then 1 + rest else rest)
  end.

Definition assertDurable (c : randomCluster) (committed : N * LogEntry) : RC unit :=
  let+ count := copies c committed.1 committed.2 threeNodeIDs in
  violated (count <? 2) (durabilityLost committed.1).

(** [for i, first := range l { for _, second := range l[i+1:] ... } }]. *)
Fixpoint pairs (l : list NodeID) : list (NodeID * NodeID) :=
  match l with
  | [] => []
  | first :: rest => map (pair first) rest ++ pairs rest
  end.

(** Go visits its maps in any order; here they are visited in the order of the keys. *)
Definition assertInvariants : RC unit :=
  let+ c := eget in
  match rn_invariantErr c with
  | Some e => elift (Err (invariantFailed e))
  | None =>
      do+ assertElection c in
      do+ efor assertProgress (map_to_list (rn_nodes c)) in
      do+ efor (assertAgreement c) (pairs threeNodeIDs) in
      efor (assertDurable c) (map_to_list (rn_committed c))
  end.

(** ** Faults *)

Definition crash (id : NodeID) : RC unit :=
  do+ emodify (fun c => c <| rn_alive := <[id := false]> (rn_alive c) |>
        <| rn_queue := filter (fun item => ~ (qe_to item = id /\ qe_kind item <> queuedMessage)) (rn_queue c) |>) in
  do+ fault (fun f => f <| Crash := true |>) in
  record traceCrash id.

Definition restart (id : NodeID) : RC unit :=
  let+ c := eget in
  let+ durable := must (rn_durable c !! id) in
  do+ emodify (fun c => c
        <| rn_nodes := <[id := NewNodeFromRecoveredState id (others id)
             (mkRecoveredState (dn_hard durable) (dn_log durable) (dn_commit durable) 0 0)]> (rn_nodes c) |>
        <| rn_alive := <[id := true]> (rn_alive c) |>
        <| rn_incarnation := <[id := default 0 (rn_incarnation c !! id) +! 1]> (rn_incarnation c) |>
        <| rn_models := <[id := newModelState]> (rn_models c) |>
        <| rn_lastState := delete id (rn_lastState c) |>) in
  do+ stepNode id RecoverCommitted in
  do+ enqueueTimer id ElectionTimeout in
  do+ fault (fun f => f <| Restart := true |>) in
  record traceRestart id.

(** The first live Leader, or [""]. *)
Fixpoint leaderAmong (ids : list NodeID) : RC NodeID :=
  match ids with
  | [] => eret ""
  | id :: ids =>
      let+ c := eget in
      if isAlive c id then
        let+ node := must (nodeOf c id) in
        let+ state := must (getState node) in
        if bool_decide (st_Role state = Leader) then eret id else leaderAmong ids
      else leaderAmong ids
  end.

Definition leader : RC NodeID := leaderAmong threeNodeIDs.

Definition enqueueRandomWork : RC unit :=
  let+ c := eget in
  do+ (if rn_step c mod 17 =? 0 then
         let+ id := leader in
         if bool_decide (id = "") then eret tt else enqueueTimer id HeartbeatTimeout
       else eret tt) in
  if rn_step c mod 29 =? 0 then let+ id := randomNode in enqueueTimer id ElectionTimeout else eret tt.

(** ** Running *)

(** At most [attempts] rounds. *)
Fixpoint drain (attempts : nat) (finished : randomCluster -> bool) : RC unit :=
  match attempts with
  | O => elift (Err noProgress)
  | S attempts =>
      let+ c := eget in
      if finished c then eret tt
      else
        let+ more := runOne false in
        if negb more then elift (Err outOfEvents)
        else do+ assertInvariants in drain attempts finished
  end.

Definition drainUntil : (randomCluster -> bool) -> RC unit := drain 5000.

(** [raft.SessionID{1}]. *)
Definition firstSession : SessionID := x01 :: replicate 15 x00.

Definition acknowledge (id : NodeID) : RC unit :=
  do+ enqueueClient id (ProposeSession 1 EntryOpenSession firstSession) in
  do+ drainUntil (fun c => bool_decide (is_Some (mo_sessions (modelOf c id) !! firstSession))) in
  do+ enqueueClient id (ProposeSet 2 firstSession 1 "seed" (string_bytes "acknowledged")) in
  drainUntil (fun c => bool_decide (default [] (mo_values (modelOf c id) !! "seed") = string_bytes "acknowledged")).

Fixpoint elect (attempts : nat) : RC unit :=
  match attempts with
  | O => elift (Err noReadyLeader)
  | S attempts =>
      let+ id := leader in
      let+ c := eget in
      let+ ready := (if bool_decide (id = "") then eret false
                     else let+ node := must (nodeOf c id) in
                          let+ state := must (getState node) in eret (st_ReadReady state)) in
      if ready : bool then acknowledge id
      else
        let+ more := runOne false in
        if negb more then elift (Err outOfEvents)
        else do+ assertInvariants in elect attempts
  end.

Definition bootstrap : RC unit :=
  let+ id := randomNode in
  do+ enqueueTimer id ElectionTimeout in
  elect 5000.

Fixpoint runUntil (attempts : nat) (kind : queuedKind) : RC unit :=
  match attempts with
  | O => eret tt
  | S attempts =>
      let+ c := eget in
      match indices kind c with
      | _ :: _ => eret tt
      | [] =>
          let+ more := runOne false in
          if negb more then eret tt else do+ assertInvariants in runUntil attempts kind
      end
  end.

Definition runUntilKind : queuedKind -> RC unit := runUntil 100.

Fixpoint deliver (attempts : nat) (from to : NodeID) : RC unit :=
  match attempts with
  | O => elift (Err (partitionNotReached from to))
  | S attempts =>
      let+ before := eget in
      let+ more := runOne false in
      if negb more then elift (Err (partitionNotReached from to))
      else
        do+ assertInvariants in
        let+ c := eget in
        if existsb (fun event => bool_decide (te_Kind event = traceMessageDrop /\ te_Node event = to))
             (drop (length (rn_trace before)) (rn_trace c))
        then eret tt else deliver attempts from to
  end.

Definition deliverThroughPartition : NodeID -> NodeID -> RC unit := deliver 100.

Definition setConnected (from to : NodeID) (up : bool) : RC unit :=
  let+ c := eget in
  let+ peers := must (rn_connected c !! from) in
  emodify (fun c => c <| rn_connected := <[from := <[to := up]> peers]> (rn_connected c) |>).

Definition delay (index : nat) : RC unit :=
  emodify (fun c => c <| rn_queue := alter (fun item => item <| qe_availableAt := rn_step c + 4 |>) index (rn_queue c) |>).

Definition delayPersistence : RC unit :=
  let+ c := eget in
  match indices queuedPersistence c with
  | [] => eret tt
  | first :: _ =>
      let+ item := must (rn_queue c !! first) in
      do+ delay first in
      do+ fault (fun f => f <| PersistenceDelay := true |>) in
      record tracePersistenceDelay (qe_to item)
  end.

(** The first message is delayed and sent twice. *)
Definition delayMessage : RC unit :=
  let+ c := eget in
  match indices queuedMessage c with
  | [] => eret tt
  | first :: _ =>
      let+ item := must (rn_queue c !! first) in
      do+ delay first in
      do+ fault (fun f => f <| MessageDelay := true |>) in
      do+ record traceMessageDelay (qe_to item) in
      do+ enqueue item in
      do+ fault (fun f => f <| MessageDuplicate := true |>) in
      record traceMessageDuplicate (qe_to item)
  end.

Definition reorderMessages : RC unit :=
  let+ c := eget in
  match indices queuedMessage c with
  | i :: j :: _ =>
      let+ a := must (rn_queue c !! i) in
      let+ b := must (rn_queue c !! j) in
      do+ emodify (fun c => c <| rn_queue := <[j := a]> (<[i := b]> (rn_queue c)) |>) in
      do+ fault (fun f => f <| MessageReorder := true |>) in
      record traceMessageReorder ""
  | _ => eret tt
  end.

Definition dropMessage : RC unit :=
  let+ c := eget in
  match indices queuedMessage c with
  | [] => eret tt
  | first :: _ =>
      let+ item := must (rn_queue c !! first) in
      do+ remove first in
      do+ fault (fun f => f <| MessageDrop := true |>) in
      record traceMessageDrop (qe_to item)
  end.

Definition injectFaultFrontier : RC unit :=
  let+ lead := leader in
  do+ enqueueClient lead (ProposeSet 3 firstSession 2 "fault" (string_bytes "value")) in
  do+ runUntilKind queuedPersistence in
  do+ delayPersistence in
  let+ from := (if bool_decide (lead = "") then leader else eret lead) in
  do+ enqueueTimer from HeartbeatTimeout in
  do+ runUntilKind queuedMessage in
  do+ delayMessage in
  do+ reorderMessages in
  do+ dropMessage in
  let to := default "" (head (others from)) in
  do+ setConnected from to false in
  do+ fault (fun f => f <| Asymmetric := true |>) in
  do+ record tracePartition from in
  do+ assertInvariants in
  do+ enqueueTimer from HeartbeatTimeout in
  do+ deliverThroughPartition from to in
  let+ victim := randomNode in
  do+ crash victim in
  do+ assertInvariants in
  do+ restart victim in
  do+ assertInvariants in
  do+ setConnected from to true in
  do+ record traceHeal from in
  assertInvariants.

(** The rest of the schedule; [None] when the fuel does not reach its end. *)
Fixpoint schedule (fuel : nat) (steps : Z) : RC (option unit) :=
  let+ c := eget in
  if (Z.of_N (rn_step c) <? steps)%Z then
    match fuel with
    | O => eret None
    | S fuel =>
        do+ enqueueRandomWork in
        let+ more := runOne true in
        if negb more then
          let+ id := randomNode in
          do+ enqueueTimer id ElectionTimeout in
          schedule fuel steps
        else do+ assertInvariants in schedule fuel steps
    end
  else eret (Some tt).

Definition newRandomNode (c : randomCluster) (id : NodeID) : randomCluster :=
  c <| rn_connected := <[id := list_to_map (map (fun peer => (peer, true)) (others id))]> (rn_connected c) |>
    <| rn_nodes := <[id := NewNode id (others id)]> (rn_nodes c) |>
    <| rn_alive := <[id := true]> (rn_alive c) |>
    <| rn_durable := <[id := mkDurable (mkHardState 0 "") [] 0]> (rn_durable c) |>
    <| rn_models := <[id := newModelState]> (rn_models c) |>
    <| rn_incarnation := <[id := 1]> (rn_incarnation c) |>
    <| rn_appliedSeen := <[id := ∅]> (rn_appliedSeen c) |>.

Definition newRandomCluster : randomCluster :=
  foldl newRandomNode
    (mkRandom 0 ∅ ∅ ∅ ∅ ∅ [] [] (mkFaults false false false false false false false false) ∅ ∅ ∅ ∅ ∅ None 0)
    threeNodeIDs.

(** The error, if any, and the cluster whose faults and trace are reported. *)
Definition RunRandomized (fuel : nat) (config : RandomConfig) : result randomError (option unit) * randomCluster :=
  if (rc_Steps config <? 1)%Z then (Err stepsNotPositive, newRandomCluster)
  else (do+ bootstrap in do+ injectFaultFrontier in schedule fuel (rc_Steps config)) newRandomCluster.
End Random.
