(* ===== verification/RandomizedProps.v ===== *)
(** What the fault simulation of [internal/simulation/randomized.go] rests on: its reference model is
    the replicated session machine, its scheduler delivers nothing to a Node that awaits
    its own disk, and every run ends. *)

From S2P Require Import Prelude Bytes RaftTypes RaftCore RaftLog Session Simulation Randomized.

(** ** The reference model and the session machine *)

Definition viewed (record : sessionRecord) : modelSession :=
  mkModelSession (bool_decide (sr_state record = sessionPermanentlyClosed)) (sr_lastSequence record)
    (sr_lastDeleteExisted record).

(** What the reference model keeps of a session machine. *)
Definition view (m : sessionMachine) : modelState := mkModelState 0 (sm_values m) (viewed <$> sm_sessions m).

Definition replay (entries : list LogEntry) : modelState := foldl (fun m e => modelApply e m) newModelState entries.

Definition isOpen (e : LogEntry) : bool := match EType e with EntryOpenSession => true | _ => false end.
Definition opens (entries : list LogEntry) : Z := Z.of_N (len (filter (fun e => isOpen e = true) entries)).

(** No session has used more sequence numbers than [n]. *)
Definition below (n : N) (m : sessionMachine) : Prop :=
  map_Forall (fun _ record => sr_lastSequence record <= n) (sm_sessions m).

(** The test both perform before a mutation. *)
Lemma evaluate_accepts m session sequence :
  below (max_u64 - 1) m ->
  (evaluateMutation m session sequence).2 =
  match sm_sessions m !! session with
  | None => false
  | Some record =>
      negb (bool_decide (sr_state record = sessionPermanentlyClosed) || negb (sequence =? sr_lastSequence record +! 1))
  end.
Proof.
  intros Hbelow. unfold evaluateMutation.
  destruct (sm_sessions m !! session) as [record|] eqn:Hfound; [|done].
  pose proof (map_Forall_lookup_1 _ _ _ _ Hbelow Hfound) as Hlast. cbn in Hlast.
  rewrite u64_small by (unfold max_u64, two64 in *; lia).
  destruct (bool_decide _); [done|]. cbn [orb].
  destruct (N.eqb_spec sequence (sr_lastSequence record)), (N.eqb_spec sequence 0),
    (N.ltb_spec sequence (sr_lastSequence record)), (N.eqb_spec sequence (sr_lastSequence record + 1));
    cbn; (reflexivity || lia).
Qed.

Lemma modelApply_view m entry :
  below (max_u64 - 1) m -> (isOpen entry = true -> (sm_active m < sm_limit m)%Z) ->
  modelApply entry (view m) = view (apply m entry).2.
Proof.
  intros Hbelow Hlimit. unfold modelApply, apply. cbn [mo_sessions view mo_values].
  rewrite lookup_fmap.
  destruct (EType entry) eqn:Htype; [done|..].
  - destruct (sm_sessions m !! ESessionID entry) as [record|] eqn:Hfound; cbn; rewrite ?Hfound; cbn; [done|].
    unfold isOpen in Hlimit. rewrite Htype in Hlimit.
    rewrite (proj2 (Z.leb_gt _ _)) by auto. unfold view. cbn. by rewrite fmap_insert.
  - destruct (sm_sessions m !! ESessionID entry) as [record|] eqn:Hfound; cbn; [|done].
    destruct (bool_decide _) eqn:Hclosed; [done|]. unfold view. cbn. rewrite fmap_insert. do 3 f_equal.
  - pose proof (evaluate_accepts m (ESessionID entry) (Sequence entry) Hbelow) as Haccepts.
    destruct (evaluateMutation _ _ _) as [result doApply]. cbn in Haccepts. subst doApply. unfold recordOf.
    destruct (sm_sessions m !! ESessionID entry) as [record|]; [|done]. cbn.
    destruct (bool_decide (sr_state record = _)) eqn:Hclosed; [done|]. cbn.
    destruct (_ =? _); [|done]. unfold view. cbn. by rewrite fmap_insert.
  - pose proof (evaluate_accepts m (ESessionID entry) (Sequence entry) Hbelow) as Haccepts.
    destruct (evaluateMutation _ _ _) as [result doApply]. cbn in Haccepts. subst doApply. unfold recordOf.
    destruct (sm_sessions m !! ESessionID entry) as [record|]; [|done]. cbn.
    destruct (bool_decide (sr_state record = _)) eqn:Hclosed; [done|]. cbn.
    destruct (_ =? _); [|done]. unfold view. cbn. by rewrite fmap_insert.
Qed.

Lemma apply_below n m entry : below n m -> below (n + 1) (apply m entry).2.
Proof.
  intros Hbelow. assert (Hkeep : below (n + 1) m) by (intros k r Hr; specialize (Hbelow k r Hr); cbn in *; lia).
  assert (Hmutate : forall record, (evaluateMutation m (ESessionID entry) (Sequence entry)).2 = true ->
    sr_lastSequence record = Sequence entry ->
    map_Forall (fun _ r => sr_lastSequence r <= n + 1) (<[ESessionID entry := record]> (sm_sessions m))).
  { intros record Haccepted Hsequence. apply map_Forall_insert_2; [|done]. rewrite Hsequence.
    unfold evaluateMutation in Haccepted. destruct (sm_sessions m !! ESessionID entry) as [old|] eqn:Hold; [|done].
    specialize (Hbelow _ _ Hold). cbn in Hbelow.
    repeat (case_match; cbn in Haccepted; [done|]).
    destruct (N.eqb_spec (Sequence entry) (sr_lastSequence old +! 1)); [|done].
    pose proof (N.Div0.mod_le (sr_lastSequence old + 1) two64). unfold u64 in *. lia. }
  unfold apply. destruct (EType entry); [done|..].
  - repeat (case_match; [done|]). cbn. apply map_Forall_insert_2; [cbn; lia|done].
  - destruct (sm_sessions m !! ESessionID entry) as [old|] eqn:Hold; [|done].
    case_match; [done|]. cbn. apply map_Forall_insert_2; [|done].
    specialize (Hbelow _ _ Hold). cbn in *. lia.
  - destruct (evaluateMutation _ _ _) as [result [|]] eqn:Heval; [|done]. by apply Hmutate.
  - destruct (evaluateMutation _ _ _) as [result [|]] eqn:Heval; [|done]. by apply Hmutate.
Qed.

Lemma apply_active m entry :
  (sm_active (apply m entry).2 <= sm_active m + (if isOpen entry then 1 else 0))%Z /\
  sm_limit (apply m entry).2 = sm_limit m.
Proof.
  unfold apply, isOpen. destruct (EType entry) eqn:Htype; cbn.
  - split; [lia|done].
  - repeat (case_match; [split; [cbn; lia|done]|]). split; [cbn; lia|done].
  - repeat (case_match; try (split; [cbn; lia|done])).
  - repeat (case_match; try (split; [cbn; lia|done])).
  - repeat (case_match; try (split; [cbn; lia|done])).
Qed.

Lemma replay_from entries n m :
  below n m -> n + len entries < two64 - 1 -> (sm_active m + opens entries <= sm_limit m)%Z ->
  foldl (fun m e => modelApply e m) (view m) entries = view (applyAll m entries).
Proof.
  revert n m. induction entries as [|entry entries IH]; intros n m Hbelow Hlen Hopens; [done|].
  rewrite len_cons in Hlen. cbn [foldl applyAll].
  assert (Hsplit : opens (entry :: entries) = ((if isOpen entry then 1 else 0) + opens entries)%Z).
  { unfold opens. rewrite filter_cons. destruct (isOpen entry); cbn [decide]; [|done].
    case_decide; [|done]. rewrite len_cons. lia. }
  assert (0 <= opens entries)%Z by (unfold opens; lia).
  destruct (apply_active m entry) as [Hactive Hlimit].
  rewrite modelApply_view.
  - apply (IH (n + 1)); [by apply apply_below|lia|]. rewrite Hlimit. lia.
  - intros k r Hr. specialize (Hbelow k r Hr). unfold max_u64, two64 in *. cbn in *. lia.
  - intros Hopen. rewrite Hopen in Hsplit. lia.
Qed.

(** C39: the reference model the fault simulation checks every Node against agrees with the session machine the
    server runs: after any committed log, short of 2^64 entries and opening no more sessions than the
    machine admits, they hold the same values, and the same sessions, each equally closed, at the same
    sequence number and with the same answer to its last Delete. *)
Theorem reference_model_is_the_session_machine (limit : Z) (entries : list LogEntry) :
  (opens entries <= limit)%Z -> len entries < two64 - 1 ->
  replay entries = view (applyAll (newSessionMachine limit) entries).
Proof.
  intros Hopens Hlen. apply (replay_from entries 0 (newSessionMachine limit)); [|lia|cbn; lia].
  apply map_Forall_empty.
Qed.

(** ** Every run ends *)

Section Steps.
Context (random : nat -> N).

Abbreviation RC := (EM randomCluster randomError).

(** The code advances the step counter by [n], or fails. *)
Definition advances {A} (n : N) (m : RC A) : Prop :=
  forall c, ewp m (fun _ c' => rn_step c' = rn_step c + n) (fun _ _ => True) c.

Definition still {A} (m : RC A) : Prop := advances 0 m.

Lemma still_ret {A} (a : A) : still (eret a).
Proof. intros c. unfold ewp, eret. cbn. lia. Qed.

Lemma still_get : still eget.
Proof. intros c. unfold ewp, eget. cbn. lia. Qed.

Lemma still_modify f : (forall c, rn_step (f c) = rn_step c) -> still (emodify f).
Proof. intros Hf c. unfold ewp, emodify. cbn. rewrite Hf. lia. Qed.

Lemma still_lift {A} (r : result randomError A) : still (elift r).
Proof. intros c. unfold ewp, elift. destruct r; cbn; [lia|done]. Qed.

Lemma advances_bind {A B} p q (m : RC A) (k : A -> RC B) :
  advances p m -> (forall a, advances q (k a)) -> advances (p + q) (ebind m k).
Proof.
  intros Hm Hk c. apply ewp_bind. eapply ewp_mono; [apply Hm| |done].
  intros a c'. cbn. intros Hc'. eapply ewp_mono; [apply Hk| |done]. cbn. intros _ c'' ->. lia.
Qed.

Lemma still_bind {A B} (m : RC A) (k : A -> RC B) : still m -> (forall a, still (k a)) -> still (ebind m k).
Proof. apply (advances_bind 0 0). Qed.

Lemma still_then {A B} p (m : RC A) (k : A -> RC B) :
  still m -> (forall a, advances p (k a)) -> advances p (ebind m k).
Proof. apply (advances_bind 0 p). Qed.

Lemma then_still {A B} p (m : RC A) (k : A -> RC B) :
  advances p m -> (forall a, still (k a)) -> advances p (ebind m k).
Proof. intros Hm Hk. rewrite <- (N.add_0_r p). by apply advances_bind. Qed.

Lemma still_for {A} (body : A -> RC unit) l : (forall a, still (body a)) -> still (efor body l).
Proof. intros Hbody. induction l as [|a l IH]; [apply still_ret|]. apply still_bind; [apply Hbody|done]. Qed.
End Steps.

Create HintDb steps.
#[local] Hint Resolve still_ret still_get still_lift still_modify : steps.

(** Leaves the step counter alone: the code is followed, its parts found among the lemmas. *)
Ltac still_auto :=
  repeat first
    [ progress intros | progress cbv zeta
    | solve [auto with steps nocore]
    | apply still_bind | apply still_for
    | match goal with |- still (match ?x with _ => _ end) => destruct x end ].

Section Runs.
Context (random : nat -> N).

Lemma Intn_still n : still (Intn random n).
Proof. unfold Intn. still_auto. Qed.

Lemma must_still {A} (o : option A) : still (must o).
Proof. unfold must. still_auto. Qed.

#[local] Hint Resolve Intn_still must_still : steps.

Lemma randomNode_still : still (randomNode random).
Proof. unfold randomNode. still_auto. Qed.

Lemma record_still kind id : still (record kind id).
Proof. unfold record. still_auto. Qed.

Lemma fault_still f : still (fault f).
Proof. unfold fault. still_auto. Qed.

Lemma enqueue_still item : still (enqueue item).
Proof. unfold enqueue. still_auto. Qed.

Lemma enqueueTimer_still to event : still (enqueueTimer to event).
Proof. unfold enqueueTimer, enqueue. still_auto. Qed.

#[local] Hint Resolve randomNode_still record_still fault_still enqueue_still enqueueTimer_still : steps.

Lemma applyEntry_still id entry : still (applyEntry id entry).
Proof. unfold applyEntry, fail. still_auto. Qed.

Lemma consumeAction_still id action : still (consumeAction id action).
Proof.
  pose proof (applyEntry_still id).
  destruct action; cbn [consumeAction]; unfold enqueueMessage; still_auto.
  apply still_modify. intros c. cbn. by case_match.
Qed.

Lemma stepNode_still id event : still (stepNode id event).
Proof. pose proof (consumeAction_still id). unfold stepNode, consumeActions. still_auto. Qed.

#[local] Hint Resolve stepNode_still : steps.

Lemma holds_still log index entry : still (holds log index entry).
Proof. unfold holds. still_auto. Qed.

Lemma violated_still b e : still (violated b e).
Proof. unfold violated. still_auto. Qed.

#[local] Hint Resolve holds_still violated_still : steps.

Lemma copies_still c index entry ids : still (copies c index entry ids).
Proof. induction ids as [|id ids IH]; cbn [copies]; still_auto. Qed.

#[local] Hint Resolve copies_still : steps.

Lemma assertInvariants_still : still assertInvariants.
Proof. unfold assertInvariants, assertElection, assertProgress, assertAgreement, assertDurable. still_auto. Qed.

Lemma leaderAmong_still ids : still (leaderAmong ids).
Proof. induction ids as [|id ids IH]; cbn [leaderAmong]; still_auto. Qed.

Lemma enqueueRandomWork_still : still (enqueueRandomWork random).
Proof. pose proof (leaderAmong_still threeNodeIDs). unfold enqueueRandomWork, leader. still_auto. Qed.

(** One delivery is one step. *)
Lemma runOne_advances choice : advances 1 (runOne random choice).
Proof.
  assert (Htick : advances 1 (emodify (fun c => c <| rn_step := rn_step c + 1 |>))) by (by intros c).
  unfold runOne, remove. apply still_then; [apply still_get|]. intros c.
  destruct (eligible c); [apply then_still; [done|]; still_auto|].
  do 3 (apply still_then; [still_auto|intros ?]). apply then_still; [done|]. still_auto.
Qed.

(** Enough fuel for the steps left. *)
Lemma schedule_ends fuel steps c :
  (steps <= Z.of_N (rn_step c) + Z.of_nat fuel)%Z ->
  ewp (schedule random fuel steps) (fun r _ => r = Some tt) (fun _ _ => True) c.
Proof.
  revert c. induction fuel as [|fuel IH]; intros c Henough; cbn [schedule]; apply ewp_bind, ewp_get.
  { rewrite (proj2 (Z.ltb_ge _ _)) by lia. by apply ewp_ret. }
  destruct (_ <? _)%Z; [|by apply ewp_ret].
  apply ewp_bind. eapply ewp_mono; [apply enqueueRandomWork_still| |done]. cbn. intros _ c1 H1.
  apply ewp_bind. eapply ewp_mono; [apply (runOne_advances true)| |done]. cbn. intros more c2 H2.
  assert (Hrest : forall (m : EM randomCluster randomError unit), still m ->
    ewp (do+ m in schedule random fuel steps) (fun r _ => r = Some tt) (fun _ _ => True) c2).
  { intros m Hm. apply ewp_bind. eapply ewp_mono; [apply Hm| |done]. cbn. intros _ c3 H3. apply IH. lia. }
  destruct more; cbn [negb]; [apply Hrest, assertInvariants_still|].
  apply ewp_bind. eapply ewp_mono; [apply randomNode_still| |done]. cbn. intros id c3 H3.
  apply ewp_bind. eapply ewp_mono; [apply enqueueTimer_still| |done]. cbn. intros _ c4 H4. apply IH. lia.
Qed.
End Runs.

(** A fault simulation always ends: whatever numbers its random source yields, as many rounds of the
    schedule as the configuration asks for are enough, after which it reports success or an error. *)
Theorem random_run_terminates (random : nat -> N) (fuel : nat) (config : RandomConfig) :
  (rc_Steps config <= Z.of_nat fuel)%Z ->
  (RunRandomized random fuel config).1 <> Ok None.
Proof.
  intros Hfuel. unfold RunRandomized. destruct (_ <? _)%Z; [done|].
  match goal with |- context [fst (?m ?c)] => assert (H : ewp m (fun r _ => r = Some tt) (fun _ _ => True) c) end.
  { apply ewp_bind. eapply (ewp_mono _ (fun _ _ => True) _ (fun _ _ => True)); [|intros _ c _|done].
    { unfold ewp. by case_match; case_match. }
    apply ewp_bind. eapply (ewp_mono _ (fun _ _ => True) _ (fun _ _ => True)); [|intros _ c' _|done].
    { unfold ewp. by case_match; case_match. }
    apply schedule_ends. lia. }
  unfold ewp in H. destruct (ebind _ _ _) as [[finished|e] c]; [|done]. by rewrite H.
Qed.

Lemma random_run_terminates_witness :
  (rc_Steps (mkRandomConfig 40) <= Z.of_nat 40)%Z /\
  (RunRandomized N.of_nat 40 (mkRandomConfig 40)).1 <> Ok None.
Proof.
  assert (H : (rc_Steps (mkRandomConfig 40) <= Z.of_nat 40)%Z) by discriminate.
  exact (conj H (random_run_terminates N.of_nat 40 (mkRandomConfig 40) H)).
Defined.

Definition sampleLog : list LogEntry :=
  [ mkLogEntry 1 1 EntryNoOp zeroSessionID 0 "" [];
    mkLogEntry 2 1 EntryOpenSession firstSession 0 "" [];
    mkLogEntry 3 1 EntrySet firstSession 1 "seed" (string_bytes "acknowledged");
    mkLogEntry 4 1 EntrySet firstSession 1 "seed" (string_bytes "again");
    mkLogEntry 5 1 EntryDelete firstSession 2 "seed" [];
    mkLogEntry 6 1 EntryCloseSession firstSession 0 "" [] ].

Lemma reference_model_is_the_session_machine_witness :
  (opens sampleLog <= 1)%Z /\ len sampleLog < two64 - 1 /\
  replay sampleLog = view (applyAll (newSessionMachine 1) sampleLog).
Proof.
  split; [done|]. split; [done|].
  apply (reference_model_is_the_session_machine 1 sampleLog); reflexivity || discriminate.
Defined.

(** ** The order of deliveries *)

Lemma firstPersistence_spec queue to j pending :
  queue !! j = Some pending -> qe_kind pending = queuedPersistence -> qe_to pending = to ->
  exists first item, firstPersistence queue to = Some first /\ queue !! first = Some item /\
    qe_kind item = queuedPersistence /\ qe_to item = to /\ (first <= j)%nat.
Proof.
  intros Hj Hkind Hto. unfold firstPersistence.
  destruct (list_find _ queue) as [[first item]|] eqn:Hfind.
  - apply list_find_Some in Hfind as (Hfirst & [Hk Ht] & Hleast). exists first, item. split; [done|].
    split_and!; [done..|]. destruct (Nat.le_gt_cases first j) as [|Hlt]; [done|].
    by destruct (Hleast j pending Hj Hlt).
  - apply list_find_None in Hfind. rewrite Forall_lookup in Hfind. by destruct (Hfind _ _ Hj).
Qed.

(** An event is delivered to a Node only when that Node awaits no disk operation, or is itself the completion
    of the oldest operation awaited: the simulation never lets a Node overtake its own persistence. *)
Theorem delivery_waits_for_persistence (c : randomCluster) (index j : nat) (item pending : queuedEvent) :
  index ∈ eligible c -> rn_queue c !! index = Some item ->
  rn_queue c !! j = Some pending -> qe_kind pending = queuedPersistence -> qe_to pending = qe_to item ->
  qe_kind item = queuedPersistence /\ (index <= j)%nat.
Proof.
  intros Hin Hitem Hj Hkind Hto. unfold eligible in Hin.
  apply list_elem_of_omap in Hin as [[i item'] [Hi Hchosen]].
  apply list_elem_of_lookup_1 in Hi as [k Hk]. rewrite list_lookup_imap in Hk.
  destruct (rn_queue c !! k) as [item''|] eqn:Hat; [|done]. injection Hk as <- <-.
  destruct (_ <? _); [done|].
  destruct (firstPersistence_spec _ _ _ _ Hj Hkind eq_refl) as (first & it & Hfound & Hfirst & Hk & Ht & Hle).
  assert (k = index) as -> by (by repeat case_match; simplify_eq).
  rewrite Hitem in Hat. injection Hat as <-. rewrite <- Hto, Hfound in Hchosen.
  case_bool_decide; [|done]. subst first. rewrite Hitem in Hfirst. by injection Hfirst as ->.
Qed.

Definition waitingQueue : list queuedEvent :=
  [ mkQueued queuedTimer "" "node-1" ElectionTimeout None 0;
    mkQueued queuedPersistence "" "node-1" (HardStatePersisted 1) (Some (PersistHardState 1 1 "node-1")) 0 ].

Definition waiting : randomCluster :=
  mkRandom 0 ∅ ∅ ∅ ∅ ∅ waitingQueue [] (mkFaults false false false false false false false false)
    ∅ ∅ ∅ ∅ ∅ None 0.

Lemma delivery_waits_for_persistence_witness :
  eligible waiting = [1%nat] /\
  exists item, rn_queue waiting !! 1%nat = Some item /\ qe_kind item = queuedPersistence /\ (1 <= 1)%nat.
Proof.
  assert (Heligible : eligible waiting = [1%nat]) by (vm_compute; reflexivity).
  split; [exact Heligible|].
  destruct (rn_queue waiting !! 1%nat) as [item|] eqn:Hitem; [|discriminate Hitem].
  exists item. split; [reflexivity|].
  assert (Hkind : qe_kind item = queuedPersistence) by (injection Hitem as <-; reflexivity).
  apply (delivery_waits_for_persistence waiting 1 1 item item); [|exact Hitem|exact Hitem|exact Hkind|reflexivity].
  rewrite Heligible. left.
Defined.
