(* ===== verification/Commands.v ===== *)
(** The commands around the packages: cmd/ternion, cmd/ternionctl and cmd/ternionsim, with [Run] of
    internal/cli/cli.go from its flags on.

    An exit status is a number; what a command writes to its standard output is a list of bytes.  The
    usage text [flag] prints and the error a command prints before it exits with status 1 are left out. *)

From S2P Require Import Prelude Bytes Flags Wal WalJson RaftTypes RaftCore Runtime Config Paths ConfigLoad Session SnapshotFile Transport NodeLoop NodeLoopProps NodeLoopInvariants NodeRun Service Client Cli Randomized.

(** ** The values of flags *)

Definition flagString (formal : gmap string flagValue) (name : string) : string :=
  match formal !! name with Some (stringFlag s) => s | _ => "" end.
Definition flagInt (formal : gmap string flagValue) (name : string) : Z :=
  match formal !! name with Some (intFlag z) => z | _ => 0%Z end.
Definition flagDuration (formal : gmap string flagValue) (name : string) : Z :=
  match formal !! name with Some (durationFlag d) => d | _ => 0%Z end.

(** A flag error ends a command that parses [flag.CommandLine]: asking for help is a success. *)
Definition flagExit (e : flagError) : Z := match e with helpRequested => 0%Z | _ => 2%Z end.

(** ** ternionctl *)

Inductive ctlError := ctlFlagError (e : flagError) | commandFailed (e : cliError).

Definition ctlFlags : gmap string flagValue :=
  {["address" := stringFlag "127.0.0.1:7400"; "timeout" := durationFlag 5000000000]}.

(** [cli.Run]; [remotes] is what answers within a timeout. *)
Definition runCommand (remotes : Z -> remote) (arguments : list string) : result ctlError (list byte) :=
  match parseFlags ctlFlags arguments with
  | Err e => Err (ctlFlagError e)
  | Ok (formal, words) =>
      match Cli.Run (remotes (flagDuration formal "timeout")) (flagString formal "address") words with
      | Ok output => Ok output
      | Err e => Err (commandFailed e)
      end
  end.

(** [main]: the exit status and the output. *)
Definition ternionctl (remotes : Z -> remote) (arguments : list string) : Z * list byte :=
  match runCommand remotes arguments with Ok output => (0%Z, output) | Err _ => (1%Z, []) end.

(** ** ternion *)

Inductive launch := launchExits (status : Z) | launchRuns (s : lifecycle).

Definition ternionFlags : gmap string flagValue := {["config" := stringFlag "ternion.yaml"]}.

Section Ternion.
Context `{CheckpointCodec}.
Variable readFile : string -> result string (list byte).
Variable decode : list byte -> result string Config.
(** The write-ahead log and the Snapshot files in a data directory. *)
Variable contents : string -> list segmentFile * directory.

(** [run] of cmd/ternion up to the goroutines of [Run]; a Node that main starts is not observed. *)
Definition ternion (h : host) (arguments : list string) : launch :=
  match parseFlags ternionFlags arguments with
  | Err e => launchExits (flagExit e)
  | Ok (formal, _) =>
      match Load readFile decode (flagString formal "config") with
      | Err _ => launchExits 1
      | Ok cfg =>
          let '(segments, dataDir) := contents (nc_DataDir (cf_Node cfg)) in
          match start h cfg false segments dataDir with
          | Err _ => launchExits 1
          | Ok s => launchRuns s
          end
      end
  end.

(** The status [main] exits with when [Run] has returned. *)
Definition exitStatus (s : lifecycle) : option Z :=
  match lc_phase s with
  | Returned => Some (match lc_error s with None => 0%Z | Some _ => 1%Z end)
  | _ => None
  end.

(** A Node that was started was started from a valid configuration, and exits with status 0 only if it was
    interrupted; then its write-ahead log is closed. *)
Lemma ternion_exit_status h arguments s0 l s :
  ternion h arguments = launchRuns s0 -> run_trace h l s0 s -> exitStatus s = Some 0%Z ->
  lc_ctxDone s = true /\ w_open (rt_wal (nd_runtime (lc_process s))) = false /\
  exists formal words cfg, parseFlags ternionFlags arguments = Ok (formal, words) /\
    Load readFile decode (flagString formal "config") = Ok cfg.
Proof.
  unfold ternion. destruct (parseFlags _ _) as [[formal words]|]; [|done]. destruct (Load _ _ _) as [cfg|] eqn:Hl; [|done].
  destruct (contents _) as [segments dataDir]. destruct (start _ _ _ _ _) as [s1|] eqn:Hs; [|done].
  intros [= ->] Ht Hx. apply life_started in Hs. destruct (trace_orderly h l s0 s Hs Ht) as [_ [_ _ Hre _ _] _ [_ _ _ _ Hcl Hdf]].
  unfold exitStatus in Hx. destruct (lc_phase s) eqn:Hp; try done. destruct (lc_error s) eqn:He; [done|].
  split; [by apply Hre; [unfold within; rewrite Hp|]|]. split; [|by exists formal, words, cfg].
  apply Hcl. rewrite Hdf by done. apply not_elem_of_nil.
Qed.
End Ternion.

(** ** ternionsim *)

Definition simFlags : gmap string flagValue :=
  {["seed" := intFlag 1; "steps" := intFlag 1000; "trace" := stringFlag ""]}.

(** [main] of cmd/ternionsim: [source] is the random source of a seed, and the directory and the file of a trace
    are written with [makeDirectory] and [writeTrace].  The result is the exit status and the trace that was written. *)
Definition ternionsim (source : Z -> nat -> N) (makeDirectory : list byte -> bool) (writeTrace : string -> bool)
    (fuel : nat) (arguments : list string) : Z * option (string * list TraceEvent) :=
  match parseFlags simFlags arguments with
  | Err e => (flagExit e, None)
  | Ok (formal, _) =>
      let '(outcome, cluster) := RunRandomized (source (flagInt formal "seed")) fuel (mkRandomConfig (flagInt formal "steps")) in
      let trace := flagString formal "trace" in
      let status := match outcome with Ok _ => 0%Z | Err _ => 1%Z end in
      if bool_decide (trace = "") then (status, None)
      else if negb (makeDirectory (Dir (string_bytes trace))) then (1%Z, None)
      else if negb (writeTrace trace) then (1%Z, None)
      else (status, Some (trace, rn_trace cluster))
  end.

(** ** What is typed reaches the command *)

(** A word that is not a flag. *)
Definition plain_word (word : string) : Prop := readArgument word = plainArgument.

(** Flags given as -name=value before the command are read back with the values that were printed, and everything from the
    command word on, words that begin with a dash included, reaches the command as it was typed. *)
Theorem typed_words_reach_the_command remotes settings formal word words :
  Forall (fun s => nameable_flag s.1) settings -> applySettings ctlFlags settings = Some formal -> plain_word word ->
  runCommand remotes (map printFlag settings ++ word :: words) =
  match Cli.Run (remotes (flagDuration formal "timeout")) (flagString formal "address") (word :: words) with
  | Ok output => Ok output
  | Err e => Err (commandFailed e)
  end.
Proof.
  intros Hn Hs Hw. unfold runCommand. rewrite (parseFlags_settings _ _ _ _ Hn Hs). cbn [parseFlags]. by rewrite Hw.
Qed.

Lemma typed_words_reach_the_command_witness :
  runCommand (fun _ => sampleRemote) ["-address=a:2"; "-timeout=1m30s"; "get"; "-k"] =
  match Cli.Run sampleRemote "a:2" ["get"; "-k"] with Ok output => Ok output | Err e => Err (commandFailed e) end.
Proof.
  apply (typed_words_reach_the_command (fun _ => sampleRemote) [("address", "a:2"); ("timeout", "1m30s")]
    (<["timeout" := durationFlag 90000000000]> (<["address" := stringFlag "a:2"]> ctlFlags)) "get" ["-k"]).
  - repeat constructor; eexists; eexists; (split; [reflexivity|]); (split; [discriminate|]);
      apply (bool_decide_eq_true_1 _); vm_compute; reflexivity.
  - vm_compute. reflexivity.
  - reflexivity.
Defined.
