(* ===== verification/Bench.v ===== *)
(** The measuring tool of [cmd/ternionbench/main.go]: its options, the workers that share one
    counter of operations, interleaved in any order, and the ranks of the reported percentiles.

    A call is one step; how long it took is a number the environment chooses.  The flags, the
    phases of a measurement and the report are in [BenchRun]. *)

From S2P Require Import Prelude Bytes Float Config.
From Stdlib Require Import SpecFloat.

(** ** Options *)

Record options := mkOptions {
  op_addresses : list string; op_setOperations : Z; op_getOperations : Z; op_concurrency : Z;
  op_valueBytes : Z; op_hardware : string; op_timeout : Z }.

Inductive optionsError :=
| notThreeAddresses | emptyAddress | operationsNotPositive | badConcurrency | badValueBytes
| hardwareRequired | timeoutNotPositive.

Definition validateOptions (opts : options) : result optionsError unit :=
  fail? negb (len (op_addresses opts) =? 3) with notThreeAddresses in
  fail? existsb (fun address => blank (string_bytes address)) (op_addresses opts) with emptyAddress in
  fail? (op_setOperations opts <? 1)%Z || (op_getOperations opts <? 1)%Z with operationsNotPositive in
  fail? (op_concurrency opts <? 1)%Z || (op_setOperations opts <? op_concurrency opts)%Z with badConcurrency in
  fail? (op_valueBytes opts <? 0)%Z || (1048576 <? op_valueBytes opts)%Z with badValueBytes in
  fail? bool_decide (op_hardware opts = "") with hardwareRequired in
  fail? (op_timeout opts <=? 0)%Z with timeoutNotPositive in
  Ok tt.

(** ** Workers *)

(** Where a worker stands: before its next [next.Add(1)], in a call, or returned. *)
Inductive worker := claiming | calling (operation : nat) | returned.

Record workload := mkWorkload {
  wl_workers : list worker;
  wl_next : nat;
  wl_latencies : list Z;
  wl_firstErr : option nat;
  wl_canceled : bool;
  (** [setSequences] of the SET workload *)
  wl_sequences : list N;
  (** the calls made: worker, operation, sequence number *)
  wl_calls : list (nat * nat * N);
  (** the calls that returned without an error, and how long they took *)
  wl_took : list (nat * Z) }.

#[export] Instance eta_workload : Eta workload := fun w =>
  mkWorkload (wl_workers w) (wl_next w) (wl_latencies w) (wl_firstErr w) (wl_canceled w) (wl_sequences w) (wl_calls w) (wl_took w).

Definition startWorkload (operations concurrency : nat) : workload :=
  mkWorkload (replicate concurrency claiming) 0 (replicate operations 0%Z) None false (replicate concurrency 0) [] [].

(** [operation := int(next.Add(1) - 1)] and the test after it; a call begins by advancing the
    worker's sequence number. *)
Definition claim (operations i : nat) (w : workload) : workload :=
  let operation := wl_next w in
  let w := w <| wl_next := S operation |> in
  if (operations <=? operation)%nat || wl_canceled w
  then w <| wl_workers := <[i := returned]> (wl_workers w) |>
  else
    let sequence := default 0 (wl_sequences w !! i) +! 1 in
    w <| wl_workers := <[i := calling operation]> (wl_workers w) |>
      <| wl_sequences := <[i := sequence]> (wl_sequences w) |>
      <| wl_calls := wl_calls w ++ [(i, operation, sequence)] |>.

(** The call of [operation] returned; [failed] when it returned an error. *)
Definition finishCall (i operation : nat) (failed : bool) (took : Z) (w : workload) : workload :=
  if failed then
    w <| wl_workers := <[i := returned]> (wl_workers w) |>
      <| wl_firstErr := match wl_firstErr w with Some e => Some e | None => Some operation end |>
  else
    w <| wl_workers := <[i := claiming]> (wl_workers w) |>
      <| wl_latencies := <[operation := took]> (wl_latencies w) |>
      <| wl_took := wl_took w ++ [(operation, took)] |>.

(** One step of [runConcurrent]: a worker moves, or the context ends. *)
Inductive benchStep (operations : nat) : workload -> workload -> Prop :=
| step_claim i w : wl_workers w !! i = Some claiming -> benchStep operations w (claim operations i w)
| step_return i operation failed took w :
    wl_workers w !! i = Some (calling operation) ->
    benchStep operations w (finishCall i operation failed took w)
| step_cancel w : wl_canceled w = false -> benchStep operations w (w <| wl_canceled := true |>).

Inductive benchError := callFailed (operation : nat) | contextEnded.

(** What [runConcurrent] returns after [workers.Wait()]: the samples. *)
Definition conclusion (w : workload) : result benchError (list Z) :=
  match wl_firstErr w with
  | Some operation => Err (callFailed operation)
  | None => if wl_canceled w then Err contextEnded else Ok (wl_latencies w)
  end.

(** ** Percentiles *)

Definition rank (percentage count : Z) : Z :=
  Z.max 0 (ceil (f64_mul (f64_div (f64 percentage) (f64 100)) (f64 count)) - 1).

(** [None] is an index out of range. *)
Definition percentile (sorted : list Z) (percentage : Z) : option Z :=
  match sorted with
  | [] => Some 0%Z
  | _ => sorted !! Z.to_nat (rank percentage (Z.of_nat (length sorted)))
  end.

(** ** Every operation once *)

Definition inFlight (w : worker) : option nat := match w with calling operation => Some operation | _ => None end.
Definition inFlights (l : list worker) : list nat := omap inFlight l.
Definition operationsOf (w : workload) : list nat := map (fun call => call.1.2) (wl_calls w).
Definition sequencesOf (i : nat) (w : workload) : list N :=
  map snd (filter (fun call => call.1.1 = i) (wl_calls w)).

Lemma inFlights_insert l i x y :
  l !! i = Some x -> exists rest,
    inFlights l ≡ₚ option_list (inFlight x) ++ rest /\ inFlights (<[i := y]> l) ≡ₚ option_list (inFlight y) ++ rest.
Proof.
  intros Hx. exists (inFlights (take i l ++ drop (S i) l)). unfold inFlights.
  assert (Hsplit : forall z, omap inFlight (take i l ++ z :: drop (S i) l) ≡ₚ
    option_list (inFlight z) ++ omap inFlight (take i l ++ drop (S i) l)).
  { intros z. rewrite !omap_app. cbn. destruct (inFlight z); cbn; [|done]. by rewrite Permutation_middle. }
  split.
  - rewrite <- (take_drop_middle l i x Hx) at 1. apply Hsplit.
  - rewrite insert_take_drop by (by eapply lookup_lt_Some). apply Hsplit.
Qed.

(** What holds of the workers at every moment. *)
Record orderly (operations concurrency : nat) (w : workload) : Prop := mkOrderly {
  or_workers : length (wl_workers w) = concurrency;
  or_latencies : length (wl_latencies w) = operations;
  or_claimed : wl_canceled w = false -> operationsOf w = seq 0 (Nat.min (wl_next w) operations);
  or_distinct : NoDup (operationsOf w);
  or_bounded : Forall (fun k => (k < wl_next w /\ k < operations)%nat) (operationsOf w);
  or_returned : forall i, wl_workers w !! i = Some returned ->
    is_Some (wl_firstErr w) \/ wl_canceled w = true \/ (operations <= wl_next w)%nat;
  or_shares : wl_firstErr w = None -> operationsOf w ≡ₚ inFlights (wl_workers w) ++ map fst (wl_took w);
  or_samples : wl_firstErr w = None -> forall k t, (k, t) ∈ wl_took w -> wl_latencies w !! k = Some t }.

Lemma start_orderly operations concurrency : orderly operations concurrency (startWorkload operations concurrency).
Proof.
  split; cbn; rewrite ?length_replicate; [done..|constructor|constructor| | |].
  - intros i Hi. apply lookup_replicate in Hi as [? _]. done.
  - intros _. by induction concurrency.
  - intros _ k t Hin. by apply not_elem_of_nil in Hin.
Qed.

#[local] Arguments inFlights : simpl never.
#[local] Arguments operationsOf : simpl never.

Lemma claim_stops operations i w :
  (operations <= wl_next w)%nat \/ wl_canceled w = true ->
  claim operations i w = w <| wl_next := S (wl_next w) |> <| wl_workers := <[i := returned]> (wl_workers w) |>.
Proof.
  intros Hstop. unfold claim. cbn [wl_canceled set_with eta_workload].
  destruct (Nat.leb_spec operations (wl_next w)), Hstop as [|Hc]; try lia; cbn; try done. by rewrite Hc.
Qed.

Lemma claim_takes operations i w :
  (wl_next w < operations)%nat -> wl_canceled w = false ->
  claim operations i w =
    let sequence := default 0 (wl_sequences w !! i) +! 1 in
    w <| wl_next := S (wl_next w) |> <| wl_workers := <[i := calling (wl_next w)]> (wl_workers w) |>
      <| wl_sequences := <[i := sequence]> (wl_sequences w) |>
      <| wl_calls := wl_calls w ++ [(i, wl_next w, sequence)] |>.
Proof. intros Hnext Hc. unfold claim. rewrite (proj2 (Nat.leb_gt _ _) Hnext). cbn. by rewrite Hc. Qed.

(** A worker that stops leaves the rest to the others. *)
Lemma stop_orderly operations concurrency i w :
  orderly operations concurrency w -> wl_workers w !! i = Some claiming ->
  (operations <= wl_next w)%nat \/ wl_canceled w = true ->
  orderly operations concurrency (claim operations i w).
Proof.
  intros [Hlw Hll Hclaimed Hdistinct Hbounded Hreturned Hshares Hsamples] Hi Hstop. rewrite claim_stops by done.
  split; cbn -[Nat.min]; rewrite ?length_insert; try done.
  - intros Hc. destruct Hstop as [Hover|]; [|congruence].
    change (operationsOf w = seq 0 (Nat.min (S (wl_next w)) operations)). rewrite Hclaimed by done. f_equal. lia.
  - eapply Forall_impl; [exact Hbounded|]. cbn. lia.
  - intros j _. right. destruct Hstop; [right; lia|by left].
  - intros He. change (operationsOf w ≡ₚ inFlights (<[i := returned]> (wl_workers w)) ++ map fst (wl_took w)).
    destruct (inFlights_insert _ _ _ returned Hi) as (rest & H1 & H2). rewrite Hshares, H1, H2 by done. done.
Qed.

Lemma operationsOf_snoc w call w' : wl_calls w' = wl_calls w ++ [call] -> operationsOf w' = operationsOf w ++ [call.1.2].
Proof. intros Hcalls. unfold operationsOf. by rewrite Hcalls, map_app. Qed.

Lemma take_orderly operations concurrency i w :
  orderly operations concurrency w -> wl_workers w !! i = Some claiming ->
  (wl_next w < operations)%nat -> wl_canceled w = false ->
  orderly operations concurrency (claim operations i w).
Proof.
  intros [Hlw Hll Hclaimed Hdistinct Hbounded Hreturned Hshares Hsamples] Hi Hunder Hc.
  assert (Hops : operationsOf (claim operations i w) = operationsOf w ++ [wl_next w])
    by (rewrite claim_takes by done; by apply (operationsOf_snoc w (i, wl_next w, default 0 (wl_sequences w !! i) +! 1))).
  split; rewrite ?Hops; rewrite ?claim_takes by done; cbn -[Nat.min]; rewrite ?Hc, ?length_insert; try done.
  - intros _. rewrite Hclaimed by done. replace (Nat.min (wl_next w) operations) with (wl_next w) by lia.
    replace (Nat.min (S (wl_next w)) operations) with (wl_next w + 1)%nat by lia. by rewrite seq_app.
  - apply NoDup_app. split; [done|]. split; [|apply NoDup_singleton].
    intros k Hk Hk'. apply list_elem_of_singleton in Hk' as ->. rewrite Forall_forall in Hbounded.
    specialize (Hbounded _ Hk). lia.
  - apply Forall_app. split; [eapply Forall_impl; [exact Hbounded|]; cbn; lia|]. repeat constructor; lia.
  - intros j Hj. destruct (decide (j = i)) as [->|Hne].
    + rewrite list_lookup_insert_eq in Hj by (by eapply lookup_lt_Some). done.
    + rewrite list_lookup_insert_ne in Hj by done. destruct (Hreturned j Hj) as [|[|]]; [auto|congruence|lia].
  - intros He. destruct (inFlights_insert _ _ _ (calling (wl_next w)) Hi) as (rest & H1 & H2).
    rewrite Hshares, H1, H2 by done. cbn. by rewrite Permutation_app_comm.
Qed.

Lemma finish_orderly operations concurrency i operation failed took w :
  orderly operations concurrency w -> wl_workers w !! i = Some (calling operation) ->
  orderly operations concurrency (finishCall i operation failed took w).
Proof.
  intros [Hlw Hll Hclaimed Hdistinct Hbounded Hreturned Hshares Hsamples] Hi. unfold finishCall. destruct failed.
  { split; cbn -[Nat.min]; rewrite ?length_insert; try done.
    - intros j _. left. destruct (wl_firstErr w); by eexists.
    - by destruct (wl_firstErr w).
    - by destruct (wl_firstErr w). }
  destruct (inFlights_insert _ _ _ claiming Hi) as (rest & H1 & H2). cbn in H1, H2.
  split; cbn -[Nat.min]; rewrite ?length_insert; try done.
  - intros j Hj. destruct (decide (j = i)) as [->|Hne].
    + rewrite list_lookup_insert_eq in Hj by (by eapply lookup_lt_Some). done.
    + rewrite list_lookup_insert_ne in Hj by done. by apply Hreturned with j.
  - intros He. change (operationsOf w ≡ₚ inFlights (<[i := claiming]> (wl_workers w)) ++ map fst (wl_took w ++ [(operation, took)])).
    rewrite Hshares, H1, H2, map_app by done. cbn. by rewrite Permutation_cons_append, app_assoc.
  - intros He k t Hin. specialize (Hshares He). rewrite H1 in Hshares. cbn in Hshares.
    assert (Hfresh : (operation ∉ map fst (wl_took w)) /\ (operation < operations)%nat).
    { rewrite Hshares in Hdistinct, Hbounded. apply NoDup_cons in Hdistinct as [Hnot _]. apply Forall_cons in Hbounded as [[_ Hlt] _].
      split; [|done]. rewrite elem_of_app in Hnot. tauto. }
    destruct Hfresh as [Hfresh Hlt]. apply elem_of_app in Hin as [Hin|Hin].
    + rewrite list_lookup_insert_ne; [by apply Hsamples|]. intros ->. apply Hfresh.
      apply list_elem_of_fmap. by exists (k, t).
    + apply list_elem_of_singleton in Hin as [= -> ->]. apply list_lookup_insert_eq. lia.
Qed.

Lemma step_orderly operations concurrency w w' :
  orderly operations concurrency w -> benchStep operations w w' -> orderly operations concurrency w'.
Proof.
  intros Hw Hstep. destruct Hstep as [i w Hi|i operation failed took w Hi|w Hc].
  - destruct (Nat.le_gt_cases operations (wl_next w)); [by apply stop_orderly; auto|].
    destruct (wl_canceled w) eqn:Hc; [by apply stop_orderly; auto|by apply take_orderly].
  - by apply finish_orderly.
  - destruct Hw. split; try done. cbn. auto.
Qed.

(** ** Every run ends *)

Definition weight (w : worker) : nat := match w with claiming => 1 | calling _ => 2 | returned => 0 end.

Definition remaining (operations : nat) (w : workload) : nat :=
  2 * (operations - wl_next w) + sum_list (map weight (wl_workers w)) + (if wl_canceled w then 0 else 1).

Lemma weights_insert l i x y :
  l !! i = Some x ->
  (sum_list (map weight (<[i := y]> l)) + weight x = sum_list (map weight l) + weight y)%nat.
Proof.
  revert i. induction l as [|z l IH]; intros [|i] Hi; cbn in *; simplify_eq; [lia|]. rewrite <- !Nat.add_assoc. f_equal. exact (IH i Hi).
Qed.

Lemma step_remaining operations w w' : benchStep operations w w' -> (remaining operations w' < remaining operations w)%nat.
Proof.
  unfold remaining. destruct 1 as [i w Hi|i operation failed took w Hi|w Hc].
  - destruct (decide ((operations <= wl_next w)%nat \/ wl_canceled w = true)) as [Hstop|Hgo].
    + rewrite claim_stops by done. cbn -[Nat.sub Nat.mul weight]. pose proof (weights_insert _ _ _ returned Hi). cbn [weight] in *. lia.
    + apply Decidable.not_or in Hgo as [Hnext Hc]. apply not_true_is_false in Hc.
      rewrite claim_takes by (done || lia). cbn -[Nat.sub Nat.mul weight]. pose proof (weights_insert _ _ _ (calling (wl_next w)) Hi).
      cbn [weight] in *. lia.
  - unfold finishCall. destruct failed; cbn -[Nat.sub Nat.mul weight].
    + pose proof (weights_insert _ _ _ returned Hi). cbn [weight] in *. lia.
    + pose proof (weights_insert _ _ _ claiming Hi). cbn [weight] in *. lia.
  - cbn -[Nat.sub Nat.mul weight]. rewrite Hc. lia.
Qed.

(** ** The sequence numbers of the sessions *)

(** Each worker numbers its own calls from one. *)
Record sequenced (operations concurrency : nat) (w : workload) : Prop := mkSequenced {
  sq_count : (length (wl_calls w) <= wl_next w)%nat /\ (length (wl_calls w) <= operations)%nat;
  sq_numbers : forall i, sequencesOf i w = map N.of_nat (seq 1 (length (sequencesOf i w)));
  sq_next : forall i, (i < concurrency)%nat -> wl_sequences w !! i = Some (len (sequencesOf i w));
  sq_workers : length (wl_workers w) = concurrency }.

Lemma sequencesOf_snoc i j operation sequence w w' :
  wl_calls w' = wl_calls w ++ [(j, operation, sequence)] ->
  sequencesOf i w' = sequencesOf i w ++ (if decide (j = i) then [sequence] else []).
Proof.
  intros Hcalls. unfold sequencesOf. rewrite Hcalls, filter_app, map_app. f_equal. cbn. by case_decide.
Qed.

Lemma sequencesOf_length i w : (length (sequencesOf i w) <= length (wl_calls w))%nat.
Proof. unfold sequencesOf. rewrite length_map. apply length_filter. Qed.

Lemma take_sequenced operations concurrency i w :
  N.of_nat operations < two64 -> sequenced operations concurrency w -> wl_workers w !! i = Some claiming ->
  (wl_next w < operations)%nat -> wl_canceled w = false ->
  sequenced operations concurrency (claim operations i w).
Proof.
  intros Hops [[Hcount1 Hcount2] Hnumbers Hnext Hworkers] Hi Hunder Hc.
  assert (Hlt : (i < concurrency)%nat) by (rewrite <- Hworkers; by eapply lookup_lt_Some).
  pose proof (sequencesOf_length i w) as Hshort.
  rewrite claim_takes by done. cbn zeta. rewrite (Hnext i Hlt). cbn [default from_option id].
  rewrite u64_small by (unfold len; lia). set (w' := set_with _ _ _).
  assert (Hsnoc : forall j, sequencesOf j w' =
    sequencesOf j w ++ (if decide (i = j) then [len (sequencesOf i w) + 1] else [])) by (intros j; by eapply sequencesOf_snoc).
  split.
  - cbn. rewrite length_app. cbn. lia.
  - intros j. rewrite Hsnoc. case_decide as Hj; [|rewrite app_nil_r; apply Hnumbers]. subst j.
    rewrite Hnumbers at 1. rewrite length_app, seq_app, map_app. cbn. do 2 f_equal. unfold len. lia.
  - intros j Hj. rewrite Hsnoc. cbn. case_decide as Hij.
    + subst j. rewrite list_lookup_insert_eq by (eapply lookup_lt_Some; by apply Hnext). by rewrite len_app.
    + rewrite list_lookup_insert_ne by done. rewrite app_nil_r. by apply Hnext.
  - cbn. by rewrite length_insert.
Qed.

Lemma step_sequenced operations concurrency w w' :
  N.of_nat operations < two64 -> sequenced operations concurrency w -> benchStep operations w w' ->
  sequenced operations concurrency w'.
Proof.
  intros Hops Hw Hstep. destruct Hstep as [i w Hi|i operation failed took w Hi|w Hc].
  - destruct (decide ((operations <= wl_next w)%nat \/ wl_canceled w = true)) as [Hstop|Hgo].
    + rewrite claim_stops by done. destruct Hw as [[] ? ? ?]. split; cbn; rewrite ?length_insert; try done; lia.
    + apply Decidable.not_or in Hgo as [Hnext Hc]. apply not_true_is_false in Hc. apply take_sequenced; done || lia.
  - unfold finishCall. destruct Hw, failed; split; cbn; rewrite ?length_insert; done.
  - by destruct Hw.
Qed.

Lemma run_invariant operations concurrency n w :
  N.of_nat operations < two64 ->
  nsteps (benchStep operations) n (startWorkload operations concurrency) w ->
  orderly operations concurrency w /\ sequenced operations concurrency w /\
  (n + remaining operations w <= remaining operations (startWorkload operations concurrency))%nat.
Proof.
  intros Hops. revert w. induction n as [|n IH]; intros w Hrun.
  - inversion Hrun; subst. split; [apply start_orderly|]. split; [|lia]. split; cbn; rewrite ?length_replicate; try (done || lia).
    intros i Hi. by rewrite lookup_replicate_2.
  - apply nsteps_inv_r in Hrun as (w1 & Hrun & Hstep). destruct (IH _ Hrun) as (H1 & H2 & H3).
    pose proof (step_remaining _ _ _ Hstep). split; [by eapply step_orderly|]. split; [by eapply step_sequenced|lia].
Qed.

Lemma remaining_start operations concurrency :
  remaining operations (startWorkload operations concurrency) = (2 * operations + concurrency + 1)%nat.
Proof.
  unfold remaining. cbn -[Nat.mul]. rewrite Nat.sub_0_r. do 2 f_equal.
  induction concurrency as [|c IH]; cbn; [done|]. by rewrite IH.
Qed.

(** What holds when a workload has been run, however its workers interleave. *)
Lemma workload_complete operations concurrency n w samples :
  N.of_nat operations < two64 -> (0 < concurrency)%nat ->
  nsteps (benchStep operations) n (startWorkload operations concurrency) w ->
  (n <= 2 * operations + concurrency + 1)%nat /\
  (forall i, sequencesOf i w = map N.of_nat (seq 1 (length (sequencesOf i w)))) /\
  (Forall (eq returned) (wl_workers w) -> conclusion w = Ok samples ->
   operationsOf w = seq 0 operations /\ length samples = operations /\ map fst (wl_took w) ≡ₚ seq 0 operations /\
   forall k t, (k, t) ∈ wl_took w -> samples !! k = Some t).
Proof.
  intros Hops Hsome Hrun. destruct (run_invariant _ _ _ _ Hops Hrun) as (Hw & Hs & Hn).
  rewrite remaining_start in Hn. split; [lia|]. split; [apply Hs|]. intros Hall Hdone.
  destruct Hw as [Hlw Hll Hclaimed _ _ Hreturned Hshares Hsamples]. unfold conclusion in Hdone.
  destruct (wl_firstErr w) as [|] eqn:He; [done|]. destruct (wl_canceled w) eqn:Hc; [done|]. injection Hdone as <-.
  assert (Hover : (operations <= wl_next w)%nat).
  { rewrite Forall_lookup in Hall. destruct (lookup_lt_is_Some_2 (wl_workers w) 0) as [x Hx]; [lia|].
    pose proof (Hall _ _ Hx) as <-. by destruct (Hreturned _ Hx) as [[]|[]]. }
  assert (Hidle : inFlights (wl_workers w) = []).
  { clear -Hall. induction Hall as [|x l <- _ IH]; [done|]. exact IH. }
  specialize (Hshares eq_refl). rewrite Hidle in Hshares. cbn in Hshares.
  rewrite Hclaimed in Hshares |- * by done. rewrite Nat.min_r in * by done.
  split; [done|]. split; [done|]. split; [by symmetry|]. by apply Hsamples.
Qed.

(** However the workers of a benchmark interleave, the run is over after at most
    [2 * operations + concurrency + 1] steps; each worker numbers the calls of its session 1, 2, 3 and so on; and when all have
    returned and samples are reported, every operation was called exactly once and its sample is the time it took. *)
Theorem benchmark_performs_every_operation_once operations concurrency n w samples :
  N.of_nat operations < two64 -> (0 < concurrency)%nat ->
  nsteps (benchStep operations) n (startWorkload operations concurrency) w ->
  (n <= 2 * operations + concurrency + 1)%nat /\
  (forall i, sequencesOf i w = map N.of_nat (seq 1 (length (sequencesOf i w)))) /\
  (Forall (eq returned) (wl_workers w) -> conclusion w = Ok samples ->
   operationsOf w = seq 0 operations /\ length samples = operations /\ map fst (wl_took w) ≡ₚ seq 0 operations /\
   forall k t, (k, t) ∈ wl_took w -> samples !! k = Some t).
Proof. apply workload_complete. Qed.

Definition sampleClaimed : workload := claim 1 0 (startWorkload 1 1).
Definition sampleCalled : workload := finishCall 0 0 false 5 sampleClaimed.
Definition sampleWorkload : workload := claim 1 0 sampleCalled.

Lemma benchmark_performs_every_operation_once_witness :
  nsteps (benchStep 1) 3 (startWorkload 1 1) sampleWorkload /\ conclusion sampleWorkload = Ok [5%Z] /\
  operationsOf sampleWorkload = [0%nat].
Proof.
  assert (Hrun : nsteps (benchStep 1) 3 (startWorkload 1 1) sampleWorkload).
  { apply (nsteps_l _ _ _ sampleClaimed _ (step_claim 1 0 (startWorkload 1 1) eq_refl)).
    apply (nsteps_l _ _ _ sampleCalled _ (step_return 1 0 0 false 5 sampleClaimed eq_refl)).
    apply (nsteps_l _ _ _ sampleWorkload _ (step_claim 1 0 sampleCalled eq_refl)). apply nsteps_O. }
  split; [exact Hrun|]. split; [reflexivity|].
  apply (benchmark_performs_every_operation_once 1 1 3 sampleWorkload [5%Z]);
    [reflexivity|lia|exact Hrun|repeat constructor|reflexivity].
Defined.

(** ** Ranks *)

Definition exactRank (percentage count : Z) : Z := ((percentage * count + 99) / 100 - 1)%Z.

Lemma rank_exact :
  forallb (fun n => forallb (fun p => (rank p (Z.of_nat n) =? exactRank p (Z.of_nat n))%Z) [50; 95; 99]%Z) (seq 1 512) = true.
Proof. vm_compute. reflexivity. Qed.

(** The floating-point ranks of the reported percentiles are the exact ones for up to 512 samples, so
    a percentile is one of the samples. *)
Theorem percentile_is_a_sample (sorted : list Z) (percentage : Z) :
  percentage ∈ [50; 95; 99]%Z -> (1 <= length sorted <= 512)%nat ->
  exists x, percentile sorted percentage = Some x /\
    sorted !! Z.to_nat (exactRank percentage (Z.of_nat (length sorted))) = Some x.
Proof.
  intros Hp Hn. pose proof rank_exact as Hr. rewrite forallb_forall in Hr.
  specialize (Hr (length sorted)). rewrite in_seq, forallb_forall in Hr. specialize (Hr ltac:(lia) percentage).
  rewrite <- list_elem_of_In in Hr. apply Z.eqb_eq in Hr; [|done].
  assert (Hlt : (Z.to_nat (exactRank percentage (Z.of_nat (length sorted))) < length sorted)%nat).
  { unfold exactRank. assert (percentage <= 99 /\ 0 <= percentage)%Z by (rewrite !elem_of_cons in Hp; destruct Hp as [->|[->|[->|[]%not_elem_of_nil]]]; lia).
    assert ((percentage * Z.of_nat (length sorted) + 99) / 100 < Z.of_nat (length sorted) + 1)%Z by (apply Z.div_lt_upper_bound; nia).
    lia. }
  destruct (lookup_lt_is_Some_2 _ _ Hlt) as [x Hx]. exists x. split; [|done].
  unfold percentile. destruct sorted; [cbn in Hn; lia|]. by rewrite Hr.
Qed.

Lemma percentile_is_a_sample_witness :
  exists x, percentile (map Z.of_nat (seq 1 20)) 95 = Some x /\
    map Z.of_nat (seq 1 20) !! Z.to_nat (exactRank 95 20) = Some x.
Proof. apply (percentile_is_a_sample (map Z.of_nat (seq 1 20)) 95); [set_solver|cbn; lia]. Defined.
