(* ===== verification/BenchRun.v ===== *)
(** The run of the measuring tool: [measure], [summarize] and [run] of cmd/ternionbench/main.go around the
    concurrent workloads of Bench.

    The Sessions, the workloads and the clock are what the run met; the report is a record, and its JSON text and
    where it is written are left out. *)

From S2P Require Import Prelude Bytes Json Float Flags Config Paths RaftTypes Bench.
From Stdlib Require Import SpecFloat DecimalN.

(** ** Keys and values *)

(** A number as [%08d] prints it. *)
Definition padded8 (n : N) : list byte := replicate (8 - length (jsonNumber n)) x30 ++ jsonNumber n.

Definition benchmarkKey (operation : nat) : string := "benchmark-" +:+ bytes_string (padded8 (N.of_nat operation)).

(** The payload: [value[index] = byte(index)]. *)
Definition benchmarkValue (size : nat) : list byte := map (fun index => byte_of_N (N.of_nat index mod 256)) (seq 0 size).

(** ** The report *)

Record environmentInfo := mkEnvironmentInfo { ei_Hardware : string; ei_OS : string; ei_Arch : string; ei_GoVersion : string }.

Record parametersInfo := mkParameters {
  pi_SetOperations : Z; pi_GetOperations : Z; pi_Concurrency : Z; pi_ValueBytes : Z }.

Record workloadReport := mkWorkloadReport {
  wr_Command : string; wr_Operations : Z; wr_Duration : Z; wr_Throughput : spec_float;
  wr_P50 : Z; wr_P95 : Z; wr_P99 : Z; wr_LatencySamples : list Z }.

Record report := mkReport {
  rp_FormatVersion : Z; rp_GeneratedAt : Z; rp_Environment : environmentInfo; rp_Nodes : Z; rp_Topology : string;
  rp_DurableWALSync : bool; rp_Parameters : parametersInfo; rp_Workloads : list workloadReport }.

(** [Duration.Seconds]. *)
Definition seconds (nanoseconds : Z) : spec_float :=
  f64_add (f64 (nanoseconds / 1000000000)) (f64_div (f64 (nanoseconds mod 1000000000)) (f64 1000000000)).

(** [None] is an index out of range. *)
Definition summarize (command : string) (samples : list Z) (duration : Z) : option workloadReport :=
  let sorted := merge_sort Z.le samples in
  match percentile sorted 50, percentile sorted 95, percentile sorted 99 with
  | Some p50, Some p95, Some p99 =>
      Some (mkWorkloadReport command (Z.of_nat (length samples)) duration
              (f64_div (f64 (Z.of_nat (length samples))) (seconds duration)) p50 p95 p99 samples)
  | _, _, _ => None
  end.

(** ** The run *)

Inductive measureError :=
| cannotOpenSession (index : nat) (e : string)
| workloadFailed (command : string) (e : benchError)
| cannotCloseSession (index : nat) (e : string)
| outOfRange.

(** The call of a GET worker: an error of the Client, or another Value than the one that was SET. *)
Definition getFails (value : list byte) (answer : result string (list byte)) : bool :=
  match answer with Ok got => negb (bool_decide (got = value)) | Err _ => true end.

(** Every worker opens its own Session before the first operation. *)
Fixpoint openSessions (open : nat -> result string SessionID) (indices : list nat) : result measureError (list SessionID) :=
  match indices with
  | [] => Ok []
  | index :: indices =>
      match open index with
      | Err e => Err (cannotOpenSession index e)
      | Ok session => let? sessions := openSessions open indices in Ok (session :: sessions)
      end
  end.

Fixpoint closeSessions (close : SessionID -> option string) (index : nat) (sessions : list SessionID) : result measureError unit :=
  match sessions with
  | [] => Ok tt
  | session :: sessions =>
      match close session with
      | Some e => Err (cannotCloseSession index e)
      | None => closeSessions close (S index) sessions
      end
  end.

(** The end of [runConcurrent]: the workload [w] after its workers have returned, [duration] after its start. *)
Definition concluded (command : string) (w : workload) (duration : Z) : result measureError workloadReport :=
  match conclusion w with
  | Err e => Err (workloadFailed command e)
  | Ok samples => match summarize command samples duration with Some r => Ok r | None => Err outOfRange end
  end.

(** [measure]; [sets] and [gets] are the workloads at their ends. *)
Definition measure (opts : options) (open : nat -> result string SessionID) (close : SessionID -> option string)
    (sets gets : workload) (setDuration getDuration now : Z) (os arch goVersion : string) : result measureError report :=
  let? sessions := openSessions open (seq 0 (Z.to_nat (op_concurrency opts))) in
  let? setResult := concluded "SET" sets setDuration in
  let? getResult := concluded "GET" gets getDuration in
  let? _ := closeSessions close 0 sessions in
  Ok (mkReport 1 now (mkEnvironmentInfo (op_hardware opts) os arch goVersion) 3
        "three local OS processes with separate data directories" true
        (mkParameters (op_setOperations opts) (op_getOperations opts) (op_concurrency opts) (op_valueBytes opts))
        [setResult; getResult]).

(** The Keys the workers of a workload asked for, in the order of their calls. *)
Definition setKeys (w : workload) : list string := map (fun call => benchmarkKey call.1.2) (wl_calls w).
Definition getKeys (setOperations : nat) (w : workload) : list string :=
  map (fun call => benchmarkKey (call.1.2 mod setOperations)) (wl_calls w).

(** ** The command line *)

Inductive benchFailure := benchFlags (e : flagError) | benchOptions (e : optionsError).

Definition benchFlagSet : gmap string flagValue :=
  {["addresses" := stringFlag "127.0.0.1:17401,127.0.0.1:17402,127.0.0.1:17403"; "set-operations" := intFlag 500;
    "get-operations" := intFlag 2000; "concurrency" := intFlag 8; "value-bytes" := intFlag 1024;
    "hardware" := stringFlag ""; "output" := stringFlag ""; "timeout" := durationFlag 600000000000]}.

(** [strings.TrimSpace]: from the left as [blank] reads, from the right the same runes backwards. *)
Fixpoint trimLeft (l : list byte) : list byte :=
  match l with
  | [] => []
  | a :: l1 =>
      if is_space1 a then trimLeft l1
      else match l1 with
           | [] => l
           | b :: l2 =>
               if is_space2 a b then trimLeft l2
               else match l2 with
                    | [] => l
                    | c :: l3 => if is_space3 a b c then trimLeft l3 else l
                    end
           end
  end.

Fixpoint trimReversed (l : list byte) : list byte :=
  match l with
  | [] => []
  | c :: l1 =>
      if is_space1 c then trimReversed l1
      else match l1 with
           | [] => l
           | b :: l2 =>
               if is_space2 b c then trimReversed l2
               else match l2 with
                    | [] => l
                    | a :: l3 => if is_space3 a b c then trimReversed l3 else l
                    end
           end
  end.

Definition trimSpace (s : string) : string := bytes_string (rev (trimReversed (rev (trimLeft (string_bytes s))))).

(** [run] up to the measurement: the options the flags give, if they are valid. *)
Definition benchOptionsOf (arguments : list string) : result benchFailure options :=
  match parseFlags benchFlagSet arguments with
  | Err e => Err (benchFlags e)
  | Ok (formal, _) =>
      let text name := match formal !! name with Some (stringFlag s) => s | _ => "" end in
      let number name := match formal !! name with Some (intFlag z) => z | _ => 0%Z end in
      let opts := mkOptions (map bytes_string (splitBytes x2c (string_bytes (text "addresses")))) (number "set-operations")
                    (number "get-operations") (number "concurrency") (number "value-bytes") (trimSpace (text "hardware"))
                    (match formal !! "timeout" with Some (durationFlag d) => d | _ => 0%Z end) in
      match validateOptions opts with
      | Err e => Err (benchOptions e)
      | Ok _ => Ok opts
      end
  end.

(** ** Keys are told apart *)

Fixpoint zeros (k : nat) (d : Decimal.uint) : Decimal.uint := match k with O => d | S k => Decimal.D0 (zeros k d) end.

Lemma zeros_digits k d : replicate k x30 ++ digits d = digits (zeros k d).
Proof. induction k as [|k IH]; [done|]. cbn. by rewrite IH. Qed.

Lemma of_uint_zeros k d : N.of_uint (zeros k d) = N.of_uint d.
Proof. induction k as [|k IH]; [done|]. cbn. exact IH. Qed.

Lemma padded8_injective n m : padded8 n = padded8 m -> n = m.
Proof.
  unfold padded8, jsonNumber. rewrite !zeros_digits. intros Heq.
  pose proof (readDigits_digits (zeros (8 - length (digits (N.to_uint n))) (N.to_uint n)) [] I) as Hn.
  pose proof (readDigits_digits (zeros (8 - length (digits (N.to_uint m))) (N.to_uint m)) [] I) as Hm.
  rewrite Heq, Hm in Hn. injection Hn as Hz. apply (f_equal N.of_uint) in Hz. rewrite !of_uint_zeros in Hz.
  by rewrite !Unsigned.of_to in Hz.
Qed.

Lemma benchmarkKey_injective i j : benchmarkKey i = benchmarkKey j -> i = j.
Proof.
  unfold benchmarkKey. intros Heq%(inj (String.append "benchmark-")).
  apply (f_equal string_bytes) in Heq. rewrite !string_bytes_of_bytes in Heq. apply padded8_injective in Heq. lia.
Qed.

(** ** The report is complete *)

Lemma merge_sort_samples command samples duration r : summarize command samples duration = Some r ->
  wr_Command r = command /\ wr_Operations r = Z.of_nat (length samples) /\ wr_LatencySamples r = samples.
Proof. unfold summarize. repeat destruct (percentile _ _); try done. by intros [= <-]. Qed.

Lemma concluded_report command w duration r : concluded command w duration = Ok r -> exists samples,
  conclusion w = Ok samples /\ wr_Command r = command /\ wr_Operations r = Z.of_nat (length samples) /\
  wr_LatencySamples r = samples.
Proof.
  unfold concluded. destruct (conclusion w) as [samples|]; [|done]. destruct (summarize _ _ _) as [r'|] eqn:Hs; [|done].
  intros [= <-]. exists samples. split; [done|]. by eapply merge_sort_samples.
Qed.

(** A step of the GET workload, in which a call fails as its answer says. *)
Inductive getStep (value : list byte) (answers : nat -> result string (list byte)) (operations : nat)
    : workload -> workload -> Prop :=
| get_claim i w : wl_workers w !! i = Some claiming -> getStep value answers operations w (claim operations i w)
| get_return i operation took w :
    wl_workers w !! i = Some (calling operation) ->
    getStep value answers operations w (finishCall i operation (getFails value (answers operation)) took w)
| get_cancel w : wl_canceled w = false -> getStep value answers operations w (w <| wl_canceled := true |>).

Lemma getStep_bench value answers operations w w' : getStep value answers operations w w' -> benchStep operations w w'.
Proof. destruct 1; by constructor. Qed.

Lemma getSteps_bench value answers operations n w w' :
  nsteps (getStep value answers operations) n w w' -> nsteps (benchStep operations) n w w'.
Proof. induction 1; econstructor; eauto using getStep_bench. Qed.

Lemma gets_answered value answers operations n w w' : nsteps (getStep value answers operations) n w w' ->
  (forall k t, (k, t) ∈ wl_took w -> answers k = Ok value) -> forall k t, (k, t) ∈ wl_took w' -> answers k = Ok value.
Proof.
  induction 1 as [|n w w1 w2 Hst _ IH]; [done|]. intros Hw. apply IH. clear IH.
  destruct Hst as [i w Hi|i operation took w Hi|w Hc]; [|unfold finishCall|done].
  - unfold claim. cbn zeta. by destruct (_ || _).
  - destruct (getFails value (answers operation)) eqn:Hf; cbn; [done|].
    intros k t [Hk|Hk%list_elem_of_singleton]%elem_of_app; [by eapply Hw|]. injection Hk as -> ->.
    unfold getFails in Hf. destruct (answers operation) as [got|]; [|done].
    apply negb_false_iff, bool_decide_eq_true in Hf. by subst.
Qed.

(** A run of a workload from its start until its workers have returned. *)
Definition finished (step : workload -> workload -> Prop) (operations concurrency : nat) (w : workload) : Prop :=
  exists n, nsteps step n (startWorkload operations concurrency) w /\ Forall (eq returned) (wl_workers w).

(** Options that come from a command line are valid and their numbers are 64-bit integers. *)
Lemma benchOptionsOf_range arguments opts : benchOptionsOf arguments = Ok opts ->
  validateOptions opts = Ok tt /\ (op_setOperations opts < 9223372036854775808)%Z /\
  (op_getOperations opts < 9223372036854775808)%Z.
Proof.
  unfold benchOptionsOf. destruct (parseFlags _ _) as [[formal words]|] eqn:Hp; [|done].
  assert (Hr : forall name value, formal !! name = Some value -> flagInRange value).
  { apply (parseFlags_keeps flagInRange benchFlagSet arguments formal words setFlag_range); [|done].
    intros name value Hl%elem_of_map_to_list. vm_compute in Hl. repeat (apply elem_of_cons in Hl as [Hl|Hl];
      [injection Hl as -> ->; cbn; lia|]). by apply not_elem_of_nil in Hl. }
  assert (Hn : forall name, (match formal !! name with Some (intFlag z) => z | _ => 0%Z end < 9223372036854775808)%Z).
  { intros name. destruct (formal !! name) as [[]|] eqn:Hl; try lia. by apply Hr in Hl as [_ ?]. }
  cbn zeta. destruct (validateOptions _) as [[]|] eqn:Hv; [|done]. intros [= <-]. split; [done|]. split; apply Hn.
Qed.

Lemma validateOptions_positive opts : validateOptions opts = Ok tt ->
  (1 <= op_setOperations opts)%Z /\ (1 <= op_getOperations opts)%Z /\ (1 <= op_concurrency opts)%Z.
Proof.
  unfold validateOptions. destruct (negb _); [done|]. destruct (existsb _ _); [done|].
  destruct (op_setOperations opts <? 1)%Z eqn:Ha; [done|]. destruct (op_getOperations opts <? 1)%Z eqn:Hb; [done|].
  destruct (op_concurrency opts <? 1)%Z eqn:Hc; [done|]. intros _. apply Z.ltb_ge in Ha, Hb, Hc. done.
Qed.

Lemma measured_workloads opts open close sets gets setDuration getDuration now os arch goVersion r :
  measure opts open close sets gets setDuration getDuration now os arch goVersion = Ok r ->
  exists set get samplesS samplesG, rp_Workloads r = [set; get] /\ conclusion sets = Ok samplesS /\ conclusion gets = Ok samplesG /\
    wr_Operations set = Z.of_nat (length samplesS) /\ wr_Operations get = Z.of_nat (length samplesG) /\
    wr_LatencySamples set = samplesS /\ wr_LatencySamples get = samplesG.
Proof.
  unfold measure. destruct (openSessions _ _) as [sessions|]; [|done]. cbn.
  destruct (concluded "SET" sets setDuration) as [set|] eqn:Cs; [|done]. cbn.
  destruct (concluded "GET" gets getDuration) as [get|] eqn:Cg; [|done]. cbn.
  destruct (closeSessions _ _ _); [|done]. intros [= <-].
  apply concluded_report in Cs as (samplesS & ES & _ & NS & LS), Cg as (samplesG & EG & _ & NG & LG).
  by exists set, get, samplesS, samplesG.
Qed.

Lemma setKeys_all operations w : operationsOf w = seq 0 operations -> setKeys w = map benchmarkKey (seq 0 operations).
Proof. unfold setKeys, operationsOf. intros <-. by rewrite map_map. Qed.

Lemma getKeys_all setOperations operations w : operationsOf w = seq 0 operations ->
  getKeys setOperations w = map (fun k => benchmarkKey (k mod setOperations)) (seq 0 operations).
Proof. unfold getKeys, operationsOf. intros <-. by rewrite map_map. Qed.

Lemma asked_keys setOperations operations : (0 < setOperations)%nat ->
  Forall (fun key => key ∈ map benchmarkKey (seq 0 setOperations)) (map (fun k => benchmarkKey (k mod setOperations)) (seq 0 operations)).
Proof.
  intros Hs. apply Forall_map, Forall_forall. intros k _. apply list_elem_of_fmap_2, elem_of_seq. split; [lia|].
  apply Nat.mod_upper_bound. lia.
Qed.

(** C40: a benchmark that reports has done what it was told.  Take the options of a command line, and the
    two workloads as their workers interleaved: if a report is made, the SET workload wrote each of its Keys once,
    every GET asked for one of those Keys and was answered with the Value that was written, and the report
    counts the operations asked for and has for each the time it took. *)
Theorem benchmark_report_is_complete arguments opts open close answers sets gets setDuration getDuration now os arch goVersion r :
  let setOperations := Z.to_nat (op_setOperations opts) in let getOperations := Z.to_nat (op_getOperations opts) in
  let value := benchmarkValue (Z.to_nat (op_valueBytes opts)) in
  benchOptionsOf arguments = Ok opts ->
  finished (benchStep setOperations) setOperations (Z.to_nat (op_concurrency opts)) sets ->
  finished (getStep value answers getOperations) getOperations (Z.to_nat (op_concurrency opts)) gets ->
  measure opts open close sets gets setDuration getDuration now os arch goVersion = Ok r ->
  setKeys sets = map benchmarkKey (seq 0 setOperations) /\ NoDup (setKeys sets) /\
  length (getKeys setOperations gets) = getOperations /\ Forall (fun key => key ∈ setKeys sets) (getKeys setOperations gets) /\
  (forall k, (k < getOperations)%nat -> answers k = Ok value) /\
  exists set get, rp_Workloads r = [set; get] /\
    wr_Operations set = op_setOperations opts /\ wr_Operations get = op_getOperations opts /\
    (forall k t, (k, t) ∈ wl_took sets -> wr_LatencySamples set !! k = Some t) /\
    (forall k t, (k, t) ∈ wl_took gets -> wr_LatencySamples get !! k = Some t).
Proof.
  intros setOperations getOperations value Ho (nS & HS & RS) (nG & HG & RG) Hm.
  destruct (benchOptionsOf_range _ _ Ho) as (Hv & BS & BG). destruct (validateOptions_positive _ Hv) as (PS & PG & PC).
  destruct (measured_workloads _ _ _ _ _ _ _ _ _ _ _ _ Hm) as (set & get & samplesS & samplesG & -> & ES & EG & NS & NG & LS & LG).
  assert (N.of_nat setOperations < two64 /\ N.of_nat getOperations < two64) as [FS FG]
    by (unfold setOperations, getOperations, two64; lia).
  assert (FC : (0 < Z.to_nat (op_concurrency opts))%nat) by lia.
  destruct (workload_complete _ _ _ _ samplesS FS FC HS) as (_ & _ & HcS).
  destruct (workload_complete _ _ _ _ samplesG FG FC (getSteps_bench _ _ _ _ _ _ HG)) as (_ & _ & HcG).
  destruct (HcS RS ES) as (OS & L1 & _ & TS), (HcG RG EG) as (OG & L2 & PG' & TG).
  rewrite (setKeys_all _ _ OS), (getKeys_all _ _ _ OG). split; [done|]. split.
  { apply NoDup_fmap_2_strong; [intros; by apply benchmarkKey_injective|apply NoDup_seq]. }
  split; [by rewrite length_map, length_seq|]. split; [apply asked_keys; unfold setOperations; lia|]. split.
  { intros k Hk. assert (Hin : k ∈ map fst (wl_took gets)) by (rewrite PG'; apply elem_of_seq; lia).
    apply list_elem_of_fmap in Hin as ([k0 t] & -> & Ht). refine (gets_answered _ _ _ _ _ _ HG _ k0 t Ht).
    cbn. by intros ? ? ?%not_elem_of_nil. }
  exists set, get. split; [done|]. rewrite NS, NG, L1, L2, LS, LG. unfold setOperations, getOperations. split_and!; try done; lia.
Qed.

Definition sampleArguments : list string :=
  ["-set-operations=1"; "-get-operations=1"; "-concurrency=1"; "--value-bytes"; "2"; "-hardware= lab "].

Definition sampleOptions : options :=
  mkOptions ["127.0.0.1:17401"; "127.0.0.1:17402"; "127.0.0.1:17403"] 1 1 1 2 "lab" 600000000000.

Lemma benchmark_report_is_complete_witness : exists r,
  benchOptionsOf sampleArguments = Ok sampleOptions /\
  measure sampleOptions (fun _ => Ok zeroSessionID) (fun _ => None) sampleWorkload sampleWorkload 7 8 9 "linux" "amd64" "go1.25" = Ok r /\
  setKeys sampleWorkload = ["benchmark-00000000"] /\ NoDup (setKeys sampleWorkload).
Proof.
  assert (Ho : benchOptionsOf sampleArguments = Ok sampleOptions) by (vm_compute; reflexivity).
  eexists. split; [exact Ho|]. split; [reflexivity|]. split; [vm_compute; reflexivity|].
  refine (proj1 (proj2 (benchmark_report_is_complete sampleArguments sampleOptions (fun _ => Ok zeroSessionID) (fun _ => None)
    (fun _ => Ok [x00; x01]) sampleWorkload sampleWorkload 7 8 9 "linux" "amd64" "go1.25" _ Ho _ _ eq_refl))).
  - exists 3%nat. split; [|repeat constructor].
    apply (nsteps_l _ _ _ sampleClaimed _ (step_claim 1 0 (startWorkload 1 1) eq_refl)).
    apply (nsteps_l _ _ _ sampleCalled _ (step_return 1 0 0 false 5 sampleClaimed eq_refl)).
    apply (nsteps_l _ _ _ sampleWorkload _ (step_claim 1 0 sampleCalled eq_refl)). apply nsteps_O.
  - exists 3%nat. split; [|repeat constructor].
    apply (nsteps_l _ _ _ sampleClaimed _ (get_claim _ _ 1 0 (startWorkload 1 1) eq_refl)).
    apply (nsteps_l _ _ _ sampleCalled _ (get_return [x00; x01] (fun _ => Ok [x00; x01]) 1 0 0 5 sampleClaimed eq_refl)).
    apply (nsteps_l _ _ _ sampleWorkload _ (get_claim _ _ 1 0 sampleCalled eq_refl)). apply nsteps_O.
Defined.
